(* ===== verification/_CoqProject ===== *)
-Q . S2P
Prelude.v
Num.v
NumZ.v
Js.v
Config.v
NumText.v
Stats.v
Environment.v
Base64.v
Regex.v
DateText.v
Prog.v
RedisClient.v
Publisher.v
Chains.v
Lifecycle.v
Spatial.v
GeoJson.v
Schema.v
Filter.v
Db.v
Json.v
Logs.v
World.v
Snapshot.v
Areas.v
Presence.v
Locations.v
Validation.v
Transition.v
Report.v
ReportAny.v
Ingest.v
Worker.v
WorkerCorrect.v
Delivery.v
Interleave.v
ChainWorker.v
Settling.v
Fixtures.v
Harness.v
HarnessCorrect.v
Samplers.v
HarnessProbes.v
PresenceCorrect.v
LogsCorrect.v
AreasCorrect.v
SnapshotLife.v
HttpEdge.v
Endpoints.v
ApiDocs.v
Wiring.v
Pipeline.v
EndToEnd.v
Concurrent.v
Redelivery.v
Replay.v
Moving.v
MovingWorker.v
MovingCorrect.v
MovingLives.v
Divergences.v
