(* ===== verification/Prelude.v ===== *)
(** * Geofence location service

    A verification library for the TypeScript service under [src/src]: devices report
    positions, the service decides which polygons ("areas") a user has entered or left,
    and keeps the memberships and a log of entries in PostgreSQL.

    ** The program

    - The API process takes [POST /locations], stamps it and publishes an event to a
      consistent-hash exchange of RabbitMQ ([locations/location-ingest.service.ts],
      [mq/mq-publisher.service.ts]); it creates and lists areas ([areas/]), lists the
      entry log ([logs/]), and answers errors through one filter ([common/]).
    - The worker process consumes its partitions ([worker/worker-consumer.service.ts]):
      every message joins its user's promise chain, is de-duplicated, run through the
      transition processor ([locations/locations.service.ts]) and settled.
    - Both answer "which areas contain this point" from an in-memory snapshot of the
      polygons ([areas/area-snapshot.service.ts], [areas/spatial-index.ts]) that is
      rebuilt when the version in the database moves.
    - The worker remembers each user's memberships ([presence/]) so that a report that
      changes nothing opens no transaction; the API form uses a Redis cache for that.
    - The tables are made by the migrations ([migrations/]), both processes read their
      environment through one validated schema ([config/]), and a load harness
      ([src/scripts/measure-presence.mjs]) measures the pipeline from outside.

    ** The files

    Foundations:
    - [Prelude]: string and list functions of JavaScript the services use, set
      difference, hint databases and tactics.
    - [Num], [NumZ], [NumText]: binary64 numbers with the comparisons of JavaScript;
      the integers among them and the rounding at [2^53]; [Number(text)].
    - [Js]: JavaScript values, property access, exceptions and their constructors
      ([mq/mq.errors.ts], the Nest exceptions, TypeORM's [QueryFailedError]).
    - [Json], [Base64], [Regex], [DateText]: JSON text of string arrays, base64url,
      the regular expressions' matcher with its correctness, [toISOString].
    - [Prog]: asynchronous functions as a free monad over the operations they await,
      with exceptions and [try]/[catch]; [run] executes a program under a schedule of
      faults (an operation works, fails, is applied although its answer is lost, or
      fails at a statement inside a transaction); [wp] is a weakest-precondition logic
      for all schedules.
    - [Db]: the five tables, the statements of the services, constraint violations,
      parameters that PostgreSQL refuses (an instant it cannot read, a number beyond
      bigint, a name with U+0000 or longer than its column), and transactions. [Schema]: the DDL of the migrations, its reversal, the
      entity classes. [World]: everything a process touches; the interfaces
      [RedisStore] (with [RedisLaws]) and [AreaLookup] (with [AreaLookupLaws]).

    Components, each beside the source it follows:
    - [Config]: [config/worker.config.ts], [config/env.validation.ts] (the partition
      pattern and the ordering of the timeouts), [config/env.util.ts]. [Environment]:
      the whole schema of the environment, the readers of every namespace
      ([config/*.config.ts], [config/data-source.ts]), what [app.module.ts] and
      [worker/worker.module.ts] load; Joi is the class [Joi] with its laws.
    - [RedisClient]: [redis/redis.module.ts].
    - [Validation], [Endpoints]: the decorated request classes ([*/dto/]) and the pipe,
      which is the class [ValidationPipe] with the laws of class-validator and
      class-transformer; every route from the raw request to the answer
      ([*/*.controller.ts], [health/]), the text of a body first read by Express's parser,
      which is the class [BodyParser] with its laws.
    - [GeoJson]: [areas/dto/geojson-polygon.validation.ts].
    - [Spatial]: [areas/spatial-index.ts]; [rbush] and [turf] are the classes [RBush]
      and [PointInPolygon] with the laws of their documentation.
    - [Snapshot], [Areas]: [areas/area-snapshot.service.ts], [areas/areas.service.ts].
      The snapshot is a state machine whose steps are single queries, interleaved with
      the commits of other processes. It discharges [AreaLookup]. [SnapshotLife] puts
      the hooks, the timer and overlapping polls around it, whose every step is one of
      the machine's or none.
    - [Presence], [Locations]: [presence/], [locations/locations.service.ts].
    - [Ingest]: [locations/location-ingest.service.ts].
    - [Publisher]: [mq/mq-publisher.service.ts].
    - [Chains], [Lifecycle], [Worker]: [worker/worker-consumer.service.ts]: [enqueue]
      with its [then], its [catch] and its clean-up as a machine over turns of the event
      loop; the bootstrap and shutdown hooks interleaved with it; parsing,
      de-duplication, processing, settlement.
    - [Logs]: [logs/logs-cursor.ts], [logs/logs.service.ts]; PostgreSQL's conversions
      between text and [timestamptz] or [uuid] are the class [PgText].
    - [Filter]: [common/filters/], [common/interceptors/].
    - [ApiDocs]: the OpenAPI decorators ([common/decorators/], [common/dto/], those of the
      controllers and of [*/dto/]): which statuses and bodies each endpoint documents.
    - [Wiring]: the modules, their providers and the dependency injection that
      [app.module.ts] and [worker/worker.module.ts] ask for, and what [main.ts] and
      [worker-main.ts] start: in which orders Nest may run the hooks.
    - [Stats], [Harness], [HarnessCorrect], [Samplers]: the load harness: percentiles and
      depth; polling, draining, tracers, the closed loop, the warm-up, [main]; the
      workers of the load together, and the samplers of queue depth and of database
      activity that run beside them. [HarnessProbes]: the workloads' requests and the
      counts the tracers poll, on the tables the worker writes.

    Specifications and proofs:
    - [Transition]: what the transaction does to the tables ([moved]), under every
      fault; [Report], [ReportAny]: the whole report, from a coherent memory and from
      any hint; [WorkerCorrect]: one message; [Delivery]: the abstract machine of
      visits, and one user's messages in order; [Interleave]: many messages in flight,
      one lane per user; [ChainWorker]: the messages' programs on the promise chains,
      which refine the lanes and whose own steps come to an end; [Settling]: what each
      message still owes the broker, so that no delivery is settled twice or never;
      [Moving], [MovingWorker],
      [MovingCorrect]: the same worker while other processes create areas and the
      snapshot is replaced between any two operations. [EndToEnd]: the log's table as
      the worker writes it and as the listing reads it. [Redelivery]: at-least-once
      delivery, the worker killed at any moment and restarted, against the machine of
      visits, and [MovingLives]: the same while the snapshot moves; [Replay]: what a
      crash and a late retry do, exactly.
    - [Fixtures]: concrete instances of the interfaces, for witnesses.

    ** What the theorems show

    - The whole way ([EndToEnd]): a request that is answered 202 is published once, and
      processed undisturbed it adds to the user's log exactly the areas entered.
    - Processing ([Pipeline], [Concurrent]): one message is atomic under failures,
      settles its own delivery at most once, and acks only what took effect; a message
      that is retried in a row takes effect at most once; the fast path is invisible
      while the memory equals the table; the worker refines the machine of visits, for one user and, with the messages of all users in
      flight on their chains, whatever the interleaving, for every user at once; it does
      so too while operations fail and the snapshot moves under the messages in flight
      ([MovingCorrect]): each message is evaluated with one snapshot, never older than
      the one at its arrival nor than that of the user's message before; and the worker's
      own steps end, with every chain drained and every delivery settled. Through failures
      and through crashes at any moment ([Redelivery], [MovingLives]) every message has
      all of its effect or none, and is acknowledged only with the effect it has undisturbed; a
      crash costs the remembered numbers, and [Replay] states exactly what messages
      delivered again then add. The theorems on several users take ids without a colon,
      since the device keys are joined with one. The theorems of atomicity exclude
      operations that take effect and lose their answer, and those through crashes also
      failures whose error looks like the foreign key of a missing area ([plain] of
      [Redelivery]). [Divergences] shows what a COMMIT whose answer is lost does, what
      colliding device keys do, and that a time of capture that PostgreSQL cannot read
      blocks its message.
    - Chains and lifecycle ([Chains], [Lifecycle]): the promise chains are a queue per
      user, the map neither forgets nor leaks, the worker consumes only queues it has
      verified, and a shutdown settles everything before it closes and does not get
      stuck.
    - Areas ([AreasCorrect], [SnapshotLife], [GeoJson]): the index is exact, a booted
      service always answers, a snapshot's label never runs ahead of its data, is
      monotone, and catches up with every poll's answer; creation is atomic and takes
      effect at once; the validator accepts exactly the declared polygons, and all that
      it accepts can be indexed; pages cover the list.
    - Log ([LogsCorrect]): cursors round-trip, a walk over the pages is complete, and
      is stable while rows appear and vanish.
    - Edges ([Endpoints], [HttpEdge], [Publisher], [PresenceCorrect]): whatever body
      or query string a client sends and whatever fails, what it is told is true of the
      queue and of the tables, and accepted texts without variation selectors fit their
      columns; every exception is answered as its class demands; a publish is settled once, the publisher never gives up
      before shutdown; the cache is never staler than its time to live.
    - Configuration and schema ([Environment], [Config], [Schema]): a validated
      environment boots with every number in its range and the timeouts in order; a
      partition specification means the union of its segments; every migration reverts
      exactly, and the entities match the migrated tables.
    - Documentation ([ApiDocs]): the answers of [POST /locations] within the limit of the
      body parser are documented ones; those of [POST /areas], [GET /areas] and
      [GET /logs] conform to the documented schema or are errors in the house shape.
    - Wiring ([Wiring]): every dependency is provided once; whatever order of the hooks
      Nest chooses, the worker consumes only with its topology verified and its snapshot
      built, and drains its messages before the database and Redis are disconnected.
    - Load harness ([Stats], [Harness], [HarnessCorrect], [Samplers]): polls, tracers,
      workers, samplers and warm-up end and account for every event; percentiles are
      those of nearest rank; [main] empties tables and measures only in order.
    - [Divergences], and theorems at the end of [LogsCorrect], [Publisher], [Config],
      [Environment], [Endpoints], [HarnessCorrect], [ApiDocs], [Wiring], [Samplers] and
      [Replay], state behaviours that differ from what the code or its comments intend.

    ** Bounds and fuel

    - [parsePartitionSpec] has fuel for its counting loops: more than the longest
      segment has partitions is enough ([partitions_exact]); from [2^53] on no fuel is,
      because the source loops for ever. [parse_elements] of [Json] takes the length of
      the text, since every element consumes input. A rebuild of the snapshot takes at
      most four steps, so four per rebuild drain the chain ([poll_catches_up]).
    - The loops of the harness that wait for time to pass take fuel; a poll needs one
      per interval, a tracer and a worker of the load one per nanosecond until their end
      (a request takes at least one), and no theorem lets the fuel run out.
    - Sequence numbers and versions are integers; where the source makes a number of a
      bigint ([Number(rows[0].last_seq)]) the model rounds it to binary64 ([round53]).
      Coordinates and accuracies are binary64 numbers. Time stamps are integers:
      milliseconds, and microseconds for the log's table.

    ** Not modelled

    - What Nest itself does with modules, hooks and decorators: [Wiring] and [ApiDocs]
      state what they rely on.
    - Drivers, broker, PostGIS, Redis, [rbush], [turf]: interfaces and faults. Log
      lines are modelled in the filter and in [RedisClient] only.
    - Payloads of schema version 1 whose fields have other types than the event's; the
      delivery limit and dead-lettering, which are the broker's.
    - Ids of users and devices that PostgreSQL does not store (U+0000, or beyond their
      columns by variation selectors): the validation admits them, the statements of [Db]
      take ids to be storable.
    - Bodies that are JSON arrays or have another content type, and the text of
      validation messages, which are the pipe's; ON DELETE CASCADE, since no code
      deletes an area.
    - A cache entry with a time to live of 0 or less, which Redis refuses and the
      validated configuration excludes; a [cancel] that the broker refuses on a channel
      that stays open, which the source takes for a dead channel.
    - The sockets of the harness; [Math.random] is an argument. *)

From stdpp Require Export base gmap strings list sorting.
From Stdlib Require Export ZArith Lia.

Set Default Proof Using "Type".

Declare Scope geofence_scope.
Delimit Scope geofence_scope with geo.

(** ** Strings *)

(** JavaScript's [s.includes(t)]. *)
Fixpoint str_includes (t s : string) : bool :=
  String.prefix t s ||
  match s with
  | EmptyString => false
  | String _ s' => str_includes t s'
  end.

(** JavaScript's [parts.join(sep)]. *)
Fixpoint str_join (sep : string) (l : list string) : string :=
  match l with
  | [] => ""
  | [s] => s
  | s :: l' => s +:+ sep +:+ str_join sep l'
  end.

(** [Array.prototype.sort] without a comparator orders strings by their code
    units; the identifiers the program sorts (uuid texts) are ASCII, so code
    units are bytes and the order is the lexicographic byte order. *)
Definition js_sort (l : list string) : list string := merge_sort String.le l.

(** ** Set difference on lists, as [filter] with a [Set] built from the other list *)

(** [l.filter((x) => !new Set(m).has(x))]. *)
Definition list_minus (l m : list string) : list string := filter (.∉ m) l.

(** Two lists denote the same set. *)
Definition same_elements (l m : list string) : Prop := ∀ x, x ∈ l ↔ x ∈ m.

(** ** Lemmas *)

Lemma elem_of_list_minus x l m : x ∈ list_minus l m ↔ x ∈ l ∧ x ∉ m.
Proof. unfold list_minus. rewrite list_elem_of_filter. tauto. Qed.

Lemma NoDup_list_minus l m : NoDup l → NoDup (list_minus l m).
Proof. apply NoDup_filter. Qed.

Lemma list_minus_nil l m : list_minus l m = [] ↔ ∀ x, x ∈ l → x ∈ m.
Proof.
  split.
  - intros H x Hx. destruct (decide (x ∈ m)) as [|Hn]; [done|].
    assert (Hin : x ∈ list_minus l m) by (by apply elem_of_list_minus).
    rewrite H in Hin. by apply not_elem_of_nil in Hin.
  - intros H. destruct (list_minus l m) as [|y t] eqn:E; [done|].
    assert (Hy : y ∈ list_minus l m) by (rewrite E; left).
    apply elem_of_list_minus in Hy as [H1 H2]. by destruct H2; apply H.
Qed.

Lemma js_sort_Permutation l : js_sort l ≡ₚ l.
Proof. apply merge_sort_Permutation. Qed.

Lemma js_sort_Sorted l : StronglySorted String.le (js_sort l).
Proof. apply (StronglySorted_merge_sort _). Qed.

Lemma elem_of_js_sort x l : x ∈ js_sort l ↔ x ∈ l.
Proof. by rewrite js_sort_Permutation. Qed.

Lemma NoDup_js_sort l : NoDup (js_sort l) ↔ NoDup l.
Proof. by rewrite js_sort_Permutation. Qed.

Lemma js_sort_nil l : js_sort l = [] ↔ l = [].
Proof.
  split; [|by intros ->].
  intros H. apply Permutation_nil. by rewrite <- (js_sort_Permutation l), H.
Qed.

(** Sorting forgets the order of its argument. *)
Lemma js_sort_Permutation_eq l m : l ≡ₚ m → js_sort l = js_sort m.
Proof.
  intros H. apply (StronglySorted_unique String.le); auto using js_sort_Sorted.
  by rewrite !js_sort_Permutation.
Qed.

#[export] Instance same_elements_equiv : Equivalence same_elements.
Proof.
  split; unfold same_elements.
  - done.
  - intros l m H x. by rewrite H.
  - intros l m k H1 H2 x. by rewrite H1, H2.
Qed.

Lemma same_elements_Permutation l m :
  NoDup l → NoDup m → same_elements l m → l ≡ₚ m.
Proof. intros. by apply NoDup_Permutation. Qed.

Create HintDb geo discriminated.
Create Rewrite HintDb geo.
#[export] Hint Resolve NoDup_list_minus js_sort_Sorted : geo.
#[export] Hint Rewrite elem_of_js_sort NoDup_js_sort elem_of_list_minus : geo.

(** ** Tactics *)

(** Case analysis on the scrutinee of a [match] in the goal, keeping the equation. *)
Ltac case_goal :=
  match goal with
  | |- context [match ?x with _ => _ end] => destruct x eqn:?
  end.

(** Split every conjunction of the context. *)
Ltac split_hyps := repeat match goal with H : _ ∧ _ |- _ => destruct H end.
