(* ===== verification/Num.v ===== *)
(** JavaScript numbers: IEEE 754 binary64 values with their comparisons, and the
    rounding of integers to binary64 that [Number(...)] and [+] perform. *)

From Stdlib Require Export SpecFloat.
From S2P Require Import Prelude.

Local Open Scope Z_scope.

(** A JavaScript number. *)
Abbreviation number := spec_float.

Definition num_prec : Z := 53.
Definition num_emax : Z := 1024.

(** The binary64 number nearest to an integer. *)
Definition num_of_Z (z : Z) : number := binary_normalize num_prec num_emax z 0 false.

Definition Infinity : number := S754_infinity false.
Definition neg_Infinity : number := S754_infinity true.
Definition NaN : number := S754_nan.

(** [x < y], [x > y], [x <= y], [x >= y] and [x === y] on numbers; every one is
    false when an operand is NaN. *)
Definition num_lt (x y : number) : bool :=
  match SFcompare x y with Some Lt => true | _ => false end.
Definition num_gt (x y : number) : bool := num_lt y x.
Definition num_le (x y : number) : bool :=
  match SFcompare x y with Some Lt | Some Eq => true | _ => false end.
Definition num_ge (x y : number) : bool := num_le y x.
Definition num_eq (x y : number) : bool :=
  match SFcompare x y with Some Eq => true | _ => false end.

(** [Math.abs] and [Number.isFinite]. *)
Definition num_abs (x : number) : number := SFabs x.
Definition num_isFinite (x : number) : bool :=
  match x with S754_zero _ | S754_finite _ _ _ => true | _ => false end.

Definition is_nan (x : number) : bool :=
  match x with S754_nan => true | _ => false end.

(** The integer a number denotes, when it denotes one ([Number.isInteger]). *)
Definition num_to_Z (x : number) : option Z :=
  match x with
  | S754_zero _ => Some 0
  | S754_finite s m e =>
      let sign z := if s then - z else z in
      if 0 <=? e then Some (sign (Z.shiftl (Zpos m) e))
      else if Z.shiftl (Z.shiftr (Zpos m) (- e)) (- e) =? Zpos m
           then Some (sign (Z.shiftr (Zpos m) (- e))) else None
  | _ => None
  end.

Definition num_isInteger (x : number) : bool :=
  match num_to_Z x with Some _ => true | None => false end.

(** The largest integer below which every integer is a binary64 number:
    [Number.MAX_SAFE_INTEGER + 1]. *)
Definition two53 : Z := 2 ^ 53.

(** Rounding of a non-negative integer to the nearest one with a 53-bit
    significand, ties to even: the value [Number(text)] gives for a decimal
    integer text, and the value [i + 1] gives for integer operands. *)
Definition round53_pos (z : Z) : Z :=
  let e := Z.log2 z - 52 in
  if e <=? 0 then z
  else
    let q := Z.shiftr z e in
    let r := z - Z.shiftl q e in
    let half := Z.shiftl 1 (e - 1) in
    let up := (half <? r) || ((r =? half) && Z.odd q) in
    Z.shiftl (if up then q + 1 else q) e.

Definition round53 (z : Z) : Z :=
  if z <? 0 then - round53_pos (- z) else round53_pos z.

(** ** Order *)

(** A number other than NaN as a point of a lexicographic order. *)
Definition num_key (x : number) : Z * Z * Z :=
  match x with
  | S754_infinity false => (2, 0, 0)
  | S754_infinity true => (-2, 0, 0)
  | S754_zero _ => (0, 0, 0)
  | S754_nan => (0, 0, 0)
  | S754_finite false m e => (1, e, Zpos m)
  | S754_finite true m e => (-1, - e, - Zpos m)
  end.

Definition key_lt (k l : Z * Z * Z) : Prop :=
  let '(a, b, c) := k in
  let '(a', b', c') := l in
  a < a' ∨ a = a' ∧ (b < b' ∨ b = b' ∧ c < c').

Definition key_eq (k l : Z * Z * Z) : Prop := k = l.

(** ** Lemmas *)

Lemma SFcompare_spec (x y : number) :
  is_nan x = false → is_nan y = false →
  match SFcompare x y with
  | Some Lt => key_lt (num_key x) (num_key y)
  | Some Eq => num_key x = num_key y
  | Some Gt => key_lt (num_key y) (num_key x)
  | None => False
  end.
Proof.
  intros Hx Hy.
  destruct x as [sx|sx| |sx mx ex], y as [sy|sy| |sy my ey]; try discriminate;
    destruct sx; try destruct sy; try reflexivity; try (simpl; lia); simpl.
  - destruct (Z.compare_spec ex ey) as [->| |]; simpl; [|lia|lia].
    change (Pos.compare_cont Eq mx my) with (Pos.compare mx my);
    destruct (Pos.compare_spec mx my) as [->| |]; simpl; [done|lia|lia].
  - destruct (Z.compare_spec ex ey) as [->| |]; simpl; [|lia|lia].
    change (Pos.compare_cont Eq mx my) with (Pos.compare mx my);
    destruct (Pos.compare_spec mx my) as [->| |]; simpl; [done|lia|lia].
Qed.

Lemma SFcompare_nan (x y : number) :
  is_nan x = true ∨ is_nan y = true → SFcompare x y = None.
Proof.
  destruct x as [[]|[]| |[] ? ?], y as [[]|[]| |[] ? ?]; simpl; try done; by intros [].
Qed.

Lemma num_le_spec (x y : number) :
  num_le x y = true ↔
  is_nan x = false ∧ is_nan y = false ∧ ¬ key_lt (num_key y) (num_key x).
Proof.
  unfold num_le. destruct (is_nan x) eqn:Hx; [|destruct (is_nan y) eqn:Hy].
  - rewrite SFcompare_nan by auto. split; [done|intros (?&?&?); congruence].
  - rewrite SFcompare_nan by auto. split; [done|intros (?&?&?); congruence].
  - pose proof (SFcompare_spec x y Hx Hy) as H. revert H.
    destruct (num_key x) as [[? ?] ?], (num_key y) as [[? ?] ?]; unfold key_lt.
    destruct (SFcompare x y) as [[]|]; intros; simplify_eq; split; intros;
      split_and?; try done; try tauto; lia.
Qed.

Lemma num_lt_spec (x y : number) :
  num_lt x y = true ↔
  is_nan x = false ∧ is_nan y = false ∧ key_lt (num_key x) (num_key y).
Proof.
  unfold num_lt. destruct (is_nan x) eqn:Hx; [|destruct (is_nan y) eqn:Hy].
  - rewrite SFcompare_nan by auto. split; [done|intros (?&?&?); congruence].
  - rewrite SFcompare_nan by auto. split; [done|intros (?&?&?); congruence].
  - pose proof (SFcompare_spec x y Hx Hy) as H. revert H.
    destruct (num_key x) as [[? ?] ?], (num_key y) as [[? ?] ?]; unfold key_lt.
    destruct (SFcompare x y) as [[]|]; intros; simplify_eq; split; intros;
      split_and?; try done; try tauto; lia.
Qed.

Lemma num_le_trans x y z : num_le x y = true → num_le y z = true → num_le x z = true.
Proof.
  rewrite !num_le_spec. destruct (num_key x) as [[? ?] ?], (num_key y) as [[? ?] ?],
    (num_key z) as [[? ?] ?]; unfold key_lt. intros; split_hyps; split_and?; try done. lia.
Qed.

Lemma num_le_refl x : is_nan x = false → num_le x x = true.
Proof.
  intros H. apply num_le_spec. split_and?; try done.
  destruct (num_key x) as [[? ?] ?]; unfold key_lt; lia.
Qed.

Lemma num_lt_le x y : num_lt x y = true → num_le x y = true.
Proof. unfold num_lt, num_le. by destruct (SFcompare x y) as [[]|]. Qed.

Lemma num_lt_false_le x y :
  is_nan x = false → is_nan y = false → num_lt x y = false → num_le y x = true.
Proof.
  intros Hx Hy H. apply num_le_spec. split_and?; try done. intros Hk.
  assert (Ht : num_lt x y = true) by (by apply num_lt_spec). congruence.
Qed.

Lemma num_le_Infinity x : is_nan x = false → num_le x Infinity = true.
Proof. destruct x as [[]|[]| |[] ? ?]; done. Qed.

Lemma neg_Infinity_le x : is_nan x = false → num_le neg_Infinity x = true.
Proof. destruct x as [[]|[]| |[] ? ?]; done. Qed.

Lemma isFinite_not_nan x : num_isFinite x = true → is_nan x = false.
Proof. by destruct x. Qed.

#[export] Hint Resolve num_le_refl num_lt_le isFinite_not_nan
  num_le_Infinity neg_Infinity_le : geo.

(** Integers up to [2^53] are represented exactly. *)
Lemma round53_safe z : - two53 <= z <= two53 → round53 z = z.
Proof.
  unfold round53, round53_pos, two53. intros Hz.
  assert (Hpos : ∀ y, 0 <= y < 2 ^ 53 → (Z.log2 y - 52 <=? 0) = true).
  { intros y Hy. apply Z.leb_le. destruct (decide (y = 0)) as [->|]; [done|].
    assert (Z.log2 y < 53) by (apply Z.log2_lt_pow2; lia). lia. }
  destruct (decide (z = 2 ^ 53)) as [->|]; [done|].
  destruct (decide (z = - 2 ^ 53)) as [->|]; [done|].
  destruct (Z.ltb_spec z 0); rewrite Hpos; lia.
Qed.

(** Above [2^53] the successor is not representable: adding one is absorbed. *)
Lemma round53_succ_two53 : round53 (two53 + 1) = two53.
Proof. reflexivity. Qed.
