(* ===== verification/NumZ.v ===== *)
(** Integers among the binary64 numbers: below [2 ^ 53] every integer is a number,
    denotes itself, and is compared as an integer. *)

From S2P Require Import Prelude Num.

Local Open Scope Z_scope.

(** The integers that are represented exactly. *)
Definition safe_integer (z : Z) : Prop := - two53 < z < two53.

#[export] Instance safe_integer_dec z : Decision (safe_integer z).
Proof. unfold safe_integer. apply _. Defined.

(** The number of a positive integer: its binary digits, filled up to 53. *)
Definition mantissa_shift (p : positive) : Z := 53 - Zpos (digits2_pos p).
Definition shifted (p : positive) : positive :=
  match mantissa_shift p with
  | Zpos k => Pos.iter xO p k
  | _ => p
  end.

(** ** Digits *)

Lemma digits2_bounds p : 2 ^ (Zpos (digits2_pos p) - 1) <= Zpos p < 2 ^ Zpos (digits2_pos p).
Proof.
  induction p as [p IH|p IH|]; simpl digits2_pos; [| |done];
    rewrite Pos2Z.inj_succ, Z.pow_succ_r by lia;
    replace (Z.succ (Zpos (digits2_pos p)) - 1) with (Z.succ (Zpos (digits2_pos p) - 1)) by lia;
    rewrite Z.pow_succ_r by lia; lia.
Qed.

Lemma digits2_le_53 p : Zpos p < two53 → Zpos (digits2_pos p) <= 53.
Proof.
  intros Hp. destruct (digits2_bounds p) as [Hlow _]. unfold two53 in Hp.
  destruct (Z.le_gt_cases (Zpos (digits2_pos p)) 53) as [|Hgt]; [done|].
  assert (2 ^ 53 <= 2 ^ (Zpos (digits2_pos p) - 1)) by (apply Z.pow_le_mono_r; lia). lia.
Qed.

Lemma iter_xO p k :
  Zpos (Pos.iter xO p k) = Zpos p * 2 ^ Zpos k ∧
  digits2_pos (Pos.iter xO p k) = (digits2_pos p + k)%positive.
Proof.
  induction k as [|k [IHv IHd]] using Pos.peano_ind.
  - simpl. split; [lia|]. by rewrite Pos.add_1_r.
  - rewrite Pos.iter_succ. split.
    + rewrite Pos2Z.inj_xO, IHv, Pos2Z.inj_succ, Z.pow_succ_r by lia. lia.
    + simpl. by rewrite IHd, Pos.add_succ_r.
Qed.

Lemma shifted_spec p :
  Zpos p < two53 →
  0 <= mantissa_shift p ∧ Zpos (shifted p) = Zpos p * 2 ^ mantissa_shift p ∧
  Zpos (digits2_pos (shifted p)) = 53.
Proof.
  intros Hp%digits2_le_53. unfold shifted, mantissa_shift in *.
  destruct (53 - Zpos (digits2_pos p)) as [|k|k] eqn:E; [|destruct (iter_xO p k) as [-> ->]|lia].
  - split_and!; [done|lia|lia].
  - split_and!; [lia|done|lia].
Qed.

(** ** The number of an integer *)

Lemma shr_exact m e : fexp num_prec num_emax (Zdigits2 m + e) = e →
  shr_fexp num_prec num_emax m e loc_Exact = ({| shr_m := m; shr_r := false; shr_s := false |}, e).
Proof. intros H. unfold shr_fexp. rewrite H, Z.sub_diag. done. Qed.

Lemma fexp_53 e : -1074 <= e → fexp num_prec num_emax (53 + e) = e.
Proof. intros. unfold fexp, emin, num_prec, num_emax. lia. Qed.

Lemma binary_round_pos s p :
  Zpos p < two53 →
  binary_round num_prec num_emax s p 0 = S754_finite s (shifted p) (- mantissa_shift p).
Proof.
  intros Hp. destruct (shifted_spec p Hp) as (Hk & _ & Hd).
  assert (Hsh : shl_align p 0 (fexp num_prec num_emax (Zpos (digits2_pos p) + 0)) =
    (shifted p, - mantissa_shift p)).
  { assert (Hf : fexp num_prec num_emax (Zpos (digits2_pos p) + 0) = - mantissa_shift p).
    { unfold fexp, emin, num_prec, num_emax, mantissa_shift in *. lia. }
    rewrite Hf. unfold shl_align, shifted in *.
    destruct (mantissa_shift p) as [|k|k]; [done|done|lia]. }
  unfold binary_round. rewrite Hsh. unfold binary_round_aux.
  assert (He : fexp num_prec num_emax (Zdigits2 (Zpos (shifted p)) + - mantissa_shift p) =
    - mantissa_shift p).
  { unfold Zdigits2. rewrite Hd. apply fexp_53. unfold mantissa_shift. lia. }
  rewrite (shr_exact _ _ He). cbn [shr_m loc_of_shr_record round_nearest_even].
  rewrite (shr_exact _ _ He). cbn [shr_m].
  rewrite (proj2 (Z.leb_le _ _)); [done|]. unfold num_emax, num_prec. lia.
Qed.

Lemma num_of_Z_pos p :
  Zpos p < two53 → num_of_Z (Zpos p) = S754_finite false (shifted p) (- mantissa_shift p).
Proof. apply (binary_round_pos false). Qed.

Lemma num_of_Z_neg p :
  Zpos p < two53 → num_of_Z (Zneg p) = S754_finite true (shifted p) (- mantissa_shift p).
Proof. apply (binary_round_pos true). Qed.

(** An integer's number denotes it. *)
Lemma num_to_Z_of_Z z : safe_integer z → num_to_Z (num_of_Z z) = Some z.
Proof.
  intros [Hlo Hhi].
  assert (Hfin : ∀ s p, Zpos p < two53 →
    num_to_Z (S754_finite s (shifted p) (- mantissa_shift p)) =
      Some (if s then Zneg p else Zpos p)).
  { intros s p Hp. destruct (shifted_spec p Hp) as (Hk & Hv & _). unfold num_to_Z.
    destruct (Z.leb_spec 0 (- mantissa_shift p)) as [Hz|Hz].
    - assert (Hk0 : mantissa_shift p = 0) by lia. rewrite Hv, Hk0.
      change (Z.shiftl (Zpos p * 2 ^ 0) (- 0)) with (Zpos p * 2 ^ 0).
      rewrite Z.pow_0_r, Z.mul_1_r. by destruct s.
    - rewrite Z.opp_involutive, Hv, Z.shiftr_div_pow2, Z.shiftl_mul_pow2, Z.div_mul by
        (try lia; apply Z.pow_nonzero; lia).
      rewrite Z.eqb_refl. by destruct s. }
  destruct z as [|p|p]; [done| |].
  - rewrite num_of_Z_pos by lia. by rewrite Hfin by lia.
  - rewrite num_of_Z_neg by lia. by rewrite Hfin by lia.
Qed.

Lemma num_of_Z_inj a b : safe_integer a → safe_integer b → num_of_Z a = num_of_Z b → a = b.
Proof. intros Ha%num_to_Z_of_Z Hb%num_to_Z_of_Z E. congruence. Qed.

Lemma num_isInteger_of_Z z : safe_integer z → num_isInteger (num_of_Z z) = true.
Proof. intros H. unfold num_isInteger. by rewrite num_to_Z_of_Z. Qed.

Lemma num_isFinite_of_Z z : safe_integer z → num_isFinite (num_of_Z z) = true.
Proof.
  intros [Hlo Hhi]. destruct z as [|p|p]; [done| |].
  - by rewrite num_of_Z_pos by lia.
  - by rewrite num_of_Z_neg by lia.
Qed.

(** ** Order *)

(** Normalised positive numbers compare as the integers they come from. *)
Lemma shifted_compare p q :
  Zpos p < two53 → Zpos q < two53 →
  match Z.compare (- mantissa_shift p) (- mantissa_shift q) with
  | Lt => Lt
  | Gt => Gt
  | Eq => Pos.compare_cont Eq (shifted p) (shifted q)
  end = Z.compare (Zpos p) (Zpos q).
Proof.
  intros Hp Hq. destruct (shifted_spec p Hp) as (Hkp & Hvp & _).
  destruct (shifted_spec q Hq) as (Hkq & Hvq & _).
  destruct (digits2_bounds p) as [Hlp Hup], (digits2_bounds q) as [Hlq Huq].
  unfold mantissa_shift in *.
  destruct (Z.compare_spec (- (53 - Zpos (digits2_pos p))) (- (53 - Zpos (digits2_pos q))))
    as [He|He|He].
  - change (Pos.compare_cont Eq (shifted p) (shifted q)) with
      (Z.compare (Zpos (shifted p)) (Zpos (shifted q))).
    rewrite Hvp, Hvq. replace (Zpos (digits2_pos q)) with (Zpos (digits2_pos p)) by lia.
    assert (Hpow : 0 < 2 ^ (53 - Zpos (digits2_pos p))) by (apply Z.pow_pos_nonneg; lia).
    destruct (Z.compare_spec (Zpos p) (Zpos q)) as [->|?|?];
      [apply Z.compare_eq_iff|apply Z.compare_lt_iff|apply Z.compare_gt_iff]; nia.
  - symmetry. apply Z.compare_lt_iff.
    assert (2 ^ Zpos (digits2_pos p) <= 2 ^ (Zpos (digits2_pos q) - 1))
      by (apply Z.pow_le_mono_r; lia). lia.
  - symmetry. apply Z.compare_gt_iff.
    assert (2 ^ Zpos (digits2_pos q) <= 2 ^ (Zpos (digits2_pos p) - 1))
      by (apply Z.pow_le_mono_r; lia). lia.
Qed.

Lemma SFcompare_of_Z a b :
  safe_integer a → safe_integer b → SFcompare (num_of_Z a) (num_of_Z b) = Some (a ?= b).
Proof.
  intros [Hla Hua] [Hlb Hub]. destruct a as [|p|p], b as [|q|q];
    rewrite ?num_of_Z_pos, ?num_of_Z_neg by lia; try done; cbn [SFcompare]; f_equal.
  - apply shifted_compare; lia.
  - change (Zneg p ?= Zneg q) with (CompOpp (Zpos p ?= Zpos q)).
    rewrite <- shifted_compare by lia. by destruct (Z.compare _ _).
Qed.

Lemma num_le_of_Z a b :
  safe_integer a → safe_integer b → num_le (num_of_Z a) (num_of_Z b) = (a <=? b).
Proof.
  intros Ha Hb. unfold num_le, Z.leb. rewrite SFcompare_of_Z by done. by destruct (a ?= b).
Qed.

Lemma num_lt_of_Z a b :
  safe_integer a → safe_integer b → num_lt (num_of_Z a) (num_of_Z b) = (a <? b).
Proof.
  intros Ha Hb. unfold num_lt, Z.ltb. rewrite SFcompare_of_Z by done. by destruct (a ?= b).
Qed.

(** ** Rounding leaves 53 digits *)

(** The mantissa of a number that rounding produced. *)
Definition rounded (x : number) : Prop :=
  match x with S754_finite _ m _ => Zpos m < two53 | _ => True end.

Lemma shr_1_half r : 0 <= shr_m r → shr_m (shr_1 r) = shr_m r / 2.
Proof.
  destruct r as [m b s]. simpl. intros Hm. destruct m as [|[p|p|]|p]; simpl; try done; try lia.
  - rewrite Pos2Z.inj_xI. rewrite Z.add_comm, Z.mul_comm, Z.div_add by lia. done.
  - rewrite Pos2Z.inj_xO, Z.mul_comm, Z.div_mul by lia. done.
Qed.

Lemma iter_shr p r :
  0 <= shr_m r → shr_m (iter_pos shr_1 p r) = shr_m r / 2 ^ Zpos p.
Proof.
  assert (Hpos : ∀ q a, 0 <= a → 0 <= a / 2 ^ Zpos q).
  { intros q a Ha. apply Z.div_pos; [done|]. by apply Z.pow_pos_nonneg. }
  revert r. induction p as [p IH|p IH|]; intros r Hr; cbn [iter_pos].
  - assert (H1 : 0 <= shr_m (shr_1 r)) by (rewrite shr_1_half by done; by apply Z.div_pos).
    rewrite !IH by (rewrite ?IH by done; auto). rewrite shr_1_half by done.
    rewrite !Z.div_div by (try lia; apply Z.pow_pos_nonneg; lia). f_equal.
    rewrite Pos2Z.inj_xI. rewrite Z.pow_add_r, Z.pow_mul_r, Z.pow_1_r, Z.pow_2_r by lia.
    rewrite <- Z.pow_mul_l. change 4 with (2 * 2). rewrite Z.pow_mul_l. lia.
  - rewrite !IH by (rewrite ?IH by done; auto).
    rewrite Z.div_div by (apply Z.pow_pos_nonneg || apply Z.pow_nonzero; lia). f_equal.
    rewrite Pos2Z.inj_xO. rewrite <- Z.pow_add_r by lia. f_equal. lia.
  - by rewrite shr_1_half, Z.pow_1_r.
Qed.

Lemma shr_fexp_bound m e l :
  0 <= m → 0 <= shr_m (shr_fexp num_prec num_emax m e l).1 < two53.
Proof.
  intros Hm. unfold shr_fexp.
  assert (Hsm : shr_m (shr_record_of_loc m l) = m) by (by destruct l as [|[]]).
  assert (Hd : m < 2 ^ Zdigits2 m ∧ 0 <= Zdigits2 m).
  { destruct m as [|p|p]; [done| |lia]. simpl. destruct (digits2_bounds p). split; lia. }
  destruct Hd as [Hd Hd0].
  assert (Hn : Zdigits2 m - 53 <= fexp num_prec num_emax (Zdigits2 m + e) - e).
  { unfold fexp, num_prec. lia. }
  destruct (fexp num_prec num_emax (Zdigits2 m + e) - e) as [|n|n]; cbn [shr fst].
  - rewrite Hsm. split; [done|]. unfold two53.
    assert (2 ^ Zdigits2 m <= 2 ^ 53) by (apply Z.pow_le_mono_r; lia). lia.
  - rewrite iter_shr by (by rewrite Hsm). rewrite Hsm.
    split; [apply Z.div_pos; [done|by apply Z.pow_pos_nonneg]|].
    apply Z.div_lt_upper_bound; [by apply Z.pow_pos_nonneg|]. unfold two53.
    rewrite <- Z.pow_add_r by lia.
    assert (2 ^ Zdigits2 m <= 2 ^ (Zpos n + 53)) by (apply Z.pow_le_mono_r; lia). lia.
  - rewrite Hsm. split; [done|]. unfold two53.
    assert (2 ^ Zdigits2 m <= 2 ^ 53) by (apply Z.pow_le_mono_r; lia). lia.
Qed.

Lemma binary_round_aux_rounded s m e l :
  0 <= m → rounded (binary_round_aux num_prec num_emax s m e l).
Proof.
  intros Hm. unfold binary_round_aux.
  pose proof (shr_fexp_bound m e l Hm) as [H1 _].
  destruct (shr_fexp num_prec num_emax m e l) as [r1 e1]. cbn [fst] in H1.
  assert (Hr : 0 <= round_nearest_even (shr_m r1) (loc_of_shr_record r1)).
  { unfold round_nearest_even. destruct (loc_of_shr_record r1) as [|[]]; try lia.
    destruct (Z.even (shr_m r1)); lia. }
  pose proof (shr_fexp_bound _ e1 loc_Exact Hr) as [_ H2].
  destruct (shr_fexp num_prec num_emax _ e1 loc_Exact) as [r2 e2]. cbn [fst] in H2.
  destruct (shr_m r2) as [|q|q]; [done| |done]. by destruct (e2 <=? num_emax - num_prec).
Qed.

Lemma binary_normalize_rounded m e s : rounded (binary_normalize num_prec num_emax m e s).
Proof.
  unfold binary_normalize, binary_round. destruct m as [|p|p]; [done|..];
    destruct (shl_align _ _ _) as [mz ez]; by apply binary_round_aux_rounded.
Qed.

Lemma num_of_Z_rounded z : rounded (num_of_Z z).
Proof. apply binary_normalize_rounded. Qed.

(** ** Rounding keeps a positive number between its neighbours *)

Lemma iter_pos_iter {A} (f : A → A) p x : iter_pos f p x = Pos.iter f x p.
Proof.
  revert x. induction p as [p IH|p IH|]; intros x; simpl; [| |done]; rewrite !IH; [|done].
  by rewrite !Pos.iter_swap.
Qed.

(** Bits that are all zero are shifted out without a trace. *)
Lemma shr_exact_bits p m :
  0 <= m → m mod 2 ^ Zpos p = 0 →
  iter_pos shr_1 p {| shr_m := m; shr_r := false; shr_s := false |} =
    {| shr_m := m / 2 ^ Zpos p; shr_r := false; shr_s := false |}.
Proof.
  rewrite iter_pos_iter. revert m. induction p as [|p IH] using Pos.peano_ind; intros m Hm Hmod.
  - simpl. rewrite Z.pow_1_r in Hmod. destruct m as [|[q|q|]|q]; try done; try lia.
    + exfalso. rewrite Pos2Z.inj_xI in Hmod. rewrite Z.add_comm, Z.mul_comm, Z.mod_add in Hmod by lia.
      done.
    + rewrite Pos2Z.inj_xO, Z.pow_1_r, Z.mul_comm, Z.div_mul by lia. done.
  - rewrite Pos.iter_succ_r.
    rewrite Pos2Z.inj_succ, Z.pow_succ_r in * by lia.
    assert (Hp : 0 < 2 ^ Zpos p) by (by apply Z.pow_pos_nonneg).
    assert (Hm2 : m = 2 * (m / 2)).
    { apply Z.mod_divide in Hmod as [k Hk]; [|lia]. rewrite Hk.
      replace (k * (2 * 2 ^ Zpos p)) with (2 * (k * 2 ^ Zpos p)) by lia.
      by rewrite (Z.mul_comm 2), Z.div_mul, Z.mul_comm by lia. }
    assert (H1 : shr_1 {| shr_m := m; shr_r := false; shr_s := false |} =
      {| shr_m := m / 2; shr_r := false; shr_s := false |}).
    { destruct m as [|[q|q|]|q]; try done; try lia.
      simpl. f_equal. rewrite Pos2Z.inj_xO, Z.mul_comm, Z.div_mul; lia. }
    rewrite H1, IH.
    + f_equal. by rewrite Z.div_div by lia.
    + apply Z.div_pos; lia.
    + rewrite Hm2 in Hmod. rewrite Z.mul_mod_distr_l in Hmod by lia. lia.
Qed.

(** The quotient by a power of two, rounded one way or the other. *)
Definition neighbour (m n q : Z) : Prop :=
  q = m / 2 ^ n ∨ (q = m / 2 ^ n + 1 ∧ m mod 2 ^ n ≠ 0).

Lemma shr_fexp_zero m e l :
  fexp num_prec num_emax (Zdigits2 m + e) <= e →
  shr_fexp num_prec num_emax m e l = (shr_record_of_loc m l, e).
Proof.
  intros H. unfold shr_fexp, shr. by destruct (fexp num_prec num_emax (Zdigits2 m + e) - e) eqn:E;
    [|lia|].
Qed.

Lemma Zdigits2_lt q d : 0 < d → 0 < q < 2 ^ d → Zdigits2 q <= d.
Proof.
  intros Hd0 Hq. destruct q as [|p|p]; [lia| |lia]. simpl. destruct (digits2_bounds p) as [Hl _].
  destruct (Z.le_gt_cases (Zpos (digits2_pos p)) d) as [|Hgt]; [done|].
  assert (2 ^ d <= 2 ^ (Zpos (digits2_pos p) - 1)) by (apply Z.pow_le_mono_r; lia). lia.
Qed.

Lemma binary_round_aux_spec M e n :
  0 < M → n = fexp num_prec num_emax (Zdigits2 M + e) - e → 0 < n → -1074 <= e + n <= 970 →
  2 ^ n <= M →
  ∃ q m' e', binary_round_aux num_prec num_emax false M e loc_Exact = S754_finite false m' e' ∧
    neighbour M n q ∧ ((e' = e + n ∧ Zpos m' = q) ∨ (e' = e + n + 1 ∧ 2 * Zpos m' = q)).
Proof.
  intros HM Hn Hn0 He Hq1. unfold binary_round_aux.
  assert (H1 : ∃ r s, shr_fexp num_prec num_emax M e loc_Exact =
      ({| shr_m := M / 2 ^ n; shr_r := r; shr_s := s |}, e + n) ∧
      (M mod 2 ^ n = 0 → r = false)).
  { unfold shr_fexp. rewrite <- Hn. destruct n as [|p|p]; [lia| |lia]. cbn [shr shr_record_of_loc].
    pose proof (iter_shr p {| shr_m := M; shr_r := false; shr_s := false |} ltac:(simpl; lia)) as Hm.
    pose proof (shr_exact_bits p M ltac:(lia)) as Hex.
    destruct (iter_pos shr_1 p _) as [m r s]. simpl in Hm. subst m. exists r, s. split; [done|].
    intros H0. specialize (Hex H0). by injection Hex as -> _. }
  destruct H1 as (r & s & -> & Hr). cbn [shr_m].
  set (q0 := M / 2 ^ n). set (q := round_nearest_even q0 _).
  assert (Hpow : 0 < 2 ^ n) by (apply Z.pow_pos_nonneg; lia).
  assert (Hq0 : 1 <= q0) by (apply Z.div_le_lower_bound; lia).
  assert (Hnb : neighbour M n q).
  { unfold neighbour, q, round_nearest_even. fold q0.
    destruct r, s; simpl; try (by left); try destruct (Z.even q0); try (by left);
      (right; split; [done|]; intros H0; by specialize (Hr H0)). }
  exists q.
  assert (Hq053 : q0 < two53).
  { assert (Hd : M < 2 ^ Zdigits2 M) by (destruct M as [|p|p]; [lia|apply digits2_bounds|lia]).
    apply Z.div_lt_upper_bound; [done|]. unfold two53. rewrite <- Z.pow_add_r by lia.
    assert (2 ^ Zdigits2 M <= 2 ^ (n + 53)); [|lia]. apply Z.pow_le_mono_r; [lia|].
    unfold fexp, num_prec in Hn. lia. }
  assert (Hq : 1 <= q <= two53) by (destruct Hnb as [->|[-> _]]; fold q0; lia).
  destruct (Z.eq_dec q two53) as [Eq|Nq].
  - exists (2 ^ 52)%positive, (e + n + 1). rewrite Eq.
    assert (Hf : fexp num_prec num_emax (Zdigits2 two53 + (e + n)) - (e + n) = 1).
    { change (Zdigits2 two53) with 54. unfold fexp, emin, num_prec, num_emax. lia. }
    unfold shr_fexp. rewrite Hf. cbn [shr]. cbn [shr_record_of_loc].
    change (iter_pos shr_1 1 {| shr_m := two53; shr_r := false; shr_s := false |}) with
      {| shr_m := Zpos (2 ^ 52); shr_r := false; shr_s := false |}. cbn [shr_m].
    rewrite (proj2 (Z.leb_le _ _)) by (unfold num_emax, num_prec; lia).
    split_and!; [done|by rewrite <- Eq|]. right. split; [lia|done].
  - destruct q as [|m'|m'] eqn:Em; [lia| |lia]. exists m', (e + n).
    rewrite shr_fexp_zero; [|].
    + cbn [shr_record_of_loc shr_m].
      rewrite (proj2 (Z.leb_le _ _)) by (unfold num_emax, num_prec; lia).
      split_and!; [done|done|]. by left.
    + pose proof (Zdigits2_lt (Zpos m') 53 ltac:(lia) ltac:(unfold two53 in *; lia)).
      unfold fexp, emin, num_prec, num_emax. lia.
Qed.

(** ** Bounds of an integer from its comparisons *)

Lemma num_to_Z_finite m e z :
  e < 0 → num_to_Z (S754_finite false m e) = Some z → z * 2 ^ (- e) = Zpos m.
Proof.
  intros He. unfold num_to_Z. rewrite (proj2 (Z.leb_gt 0 e)) by done.
  destruct (Z.eqb_spec (Z.shiftl (Z.shiftr (Zpos m) (- e)) (- e)) (Zpos m)) as [E|]; [|done].
  intros [= <-]. by rewrite <- Z.shiftl_mul_pow2 by lia.
Qed.

Lemma num_to_Z_le n z k :
  rounded n → num_to_Z n = Some z → 0 < k < two53 → num_le n (num_of_Z k) = true → z <= k.
Proof.
  intros Hr Hz Hk Hle. destruct k as [|q|q]; [lia| |lia]. rewrite num_of_Z_pos in Hle by lia.
  destruct (shifted_spec q ltac:(lia)) as (Hs & Hv & Hd).
  destruct (digits2_bounds (shifted q)) as [Hlow _]. rewrite Hd in Hlow.
  destruct n as [s|s| |s m e]; [by injection Hz as <-|done|done|].
  destruct s.
  { unfold num_to_Z in Hz. destruct (0 <=? e); [|destruct (_ =? _); [|done]];
      injection Hz as <-; [pose proof (proj2 (Z.shiftl_nonneg (Zpos m) e))|
        pose proof (proj2 (Z.shiftr_nonneg (Zpos m) (- e)))]; lia. }
  unfold num_le in Hle. cbn [SFcompare] in Hle. simpl in Hr. unfold two53 in *.
  destruct (Z.compare_spec e (- mantissa_shift q)) as [He|He|He]; [| |done].
  - assert (Hm : Zpos m <= Zpos (shifted q)).
    { change (Pos.compare_cont Eq m (shifted q)) with (Zpos m ?= Zpos (shifted q)) in Hle.
      by destruct (Z.compare_spec (Zpos m) (Zpos (shifted q))); try lia. }
    destruct (Z.eq_dec e 0) as [->|Hne].
    + simpl in Hz. injection Hz as <-. rewrite Hv in Hm. replace (mantissa_shift q) with 0 in Hm by lia.
      rewrite Z.pow_0_r in Hm. rewrite Z.shiftl_0_r. lia.
    + apply num_to_Z_finite in Hz; [|lia]. rewrite <- Hz, Hv in Hm.
      replace (- e) with (mantissa_shift q) in Hm by lia.
      assert (0 < 2 ^ mantissa_shift q) by (apply Z.pow_pos_nonneg; lia). nia.
  - apply num_to_Z_finite in Hz; [|lia].
    assert (Hp : 2 ^ (mantissa_shift q + 1) <= 2 ^ (- e)) by (apply Z.pow_le_mono_r; lia).
    rewrite Z.pow_add_r, Z.pow_1_r in Hp by lia.
    assert (0 < 2 ^ mantissa_shift q) by (apply Z.pow_pos_nonneg; lia).
    change (2 ^ (53 - 1)) with 4503599627370496 in Hlow. nia.
Qed.

Lemma num_to_Z_ge n z k :
  num_to_Z n = Some z → 0 <= k <= 1 → num_ge n (num_of_Z k) = true → k <= z.
Proof.
  intros Hz Hk Hle. unfold num_ge, num_le in Hle.
  destruct n as [s|s| |s m e]; [|done|done|].
  - injection Hz as <-. assert (k = 0 ∨ k = 1) as [->| ->] by lia; [done|].
    by vm_compute in Hle.
  - destruct s.
    { assert (k = 0 ∨ k = 1) as [->| ->] by lia; by vm_compute in Hle. }
    assert (0 < z); [|lia]. unfold num_to_Z in Hz. destruct (Z.leb_spec 0 e) as [He|He].
    + injection Hz as <-. rewrite Z.shiftl_mul_pow2 by done.
      assert (0 < 2 ^ e) by (apply Z.pow_pos_nonneg; lia). lia.
    + assert (Hz' : z * 2 ^ (- e) = Zpos m) by (by apply num_to_Z_finite; [|unfold num_to_Z;
        rewrite (proj2 (Z.leb_gt 0 e))]).
      assert (0 < 2 ^ (- e)) by (apply Z.pow_pos_nonneg; lia). nia.
Qed.

#[export] Hint Resolve num_to_Z_of_Z num_isInteger_of_Z num_isFinite_of_Z : geo.
