(* ===== verification/Js.v ===== *)
(** JavaScript values as the program inspects them, the exceptions it throws, and
    the error constructors of the application ([src/src/mq/mq.errors.ts]). *)

From S2P Require Import Prelude Num.

(** ** Values *)

(** A JavaScript value; an object is its own properties in insertion order. *)
Inductive jsval :=
| JUndefined
| JNull
| JBool (b : bool)
| JNum (n : number)
| JStr (s : string)
| JArr (l : list jsval)
| JObj (fields : list (string * jsval)).

Fixpoint assoc_lookup (k : string) (fields : list (string * jsval)) : option jsval :=
  match fields with
  | [] => None
  | (k', v) :: fields' => if decide (k = k') then Some v else assoc_lookup k fields'
  end.

(** [v.k] on a value that is not null or undefined; a missing property is undefined.
    The only primitive property the program reads is [length], which it reads
    through the list operations instead. *)
Definition get_prop (k : string) (v : jsval) : jsval :=
  match v with
  | JObj fields => default JUndefined (assoc_lookup k fields)
  | _ => JUndefined
  end.

(** [k in v] for an object [v]. *)
Definition has_prop (k : string) (v : jsval) : bool :=
  match v with
  | JObj fields => bool_decide (is_Some (assoc_lookup k fields))
  | _ => false
  end.

(** [typeof v === 'object' && v !== null]. *)
Definition is_object (v : jsval) : bool :=
  match v with JArr _ | JObj _ => true | _ => false end.

(** [v ?? w]. *)
Definition nullish (v w : jsval) : jsval :=
  match v with JUndefined | JNull => w | _ => v end.

(** [v?.k]. *)
Definition opt_prop (k : string) (v : jsval) : jsval :=
  match v with JUndefined | JNull => JUndefined | _ => get_prop k v end.

(** [v === "s"] and [v === true]. *)
Definition is_str (s : string) (v : jsval) : bool :=
  match v with JStr s' => bool_decide (s' = s) | _ => false end.
Definition is_true (v : jsval) : bool :=
  match v with JBool true => true | _ => false end.

(** ** Exceptions *)

(** What a [throw] or a rejected promise carries: a Nest [HttpException] (its
    status, its response payload, its message) or any other value; an [Error] is
    an object with a [message]. *)
Inductive exn :=
| HttpException (status : Z) (payload : jsval) (message : string)
| Thrown (v : jsval).

(** The exception as a value whose properties can be read. *)
Definition exn_value (e : exn) : jsval :=
  match e with
  | HttpException status payload message =>
      JObj [("response", payload); ("status", JNum (num_of_Z status));
            ("message", JStr message)]
  | Thrown v => v
  end.

(** [new Error(message)]. *)
Definition Error (message : string) : exn := Thrown (JObj [("message", JStr message)]).

(** Nest's built-in exceptions called with a message: the payload is an object with
    the message, the reason phrase and the status. *)
Definition nest_exception (status : Z) (reason message : string) : exn :=
  HttpException status
    (JObj [("message", JStr message); ("error", JStr reason);
           ("statusCode", JNum (num_of_Z status))]) message.
Definition BadRequestException (message : string) : exn :=
  nest_exception 400 "Bad Request" message.
Definition UnprocessableEntityException (message : string) : exn :=
  nest_exception 422 "Unprocessable Entity" message.

(** [new MqUnavailableError(reason)]. *)
Definition MqUnavailableError (reason : string) : exn :=
  Thrown (JObj [("message", JStr ("message broker unavailable: " +:+ reason));
                ("transientPublishFailure", JBool true);
                ("name", JStr "MqUnavailableError")]).

(** TypeORM's [QueryFailedError]: the driver's error sits on [driverError]. *)
Definition QueryFailedError (code : string) (constraint : option string)
    (message : string) : exn :=
  Thrown (JObj
    [("message", JStr message);
     ("driverError",
       JObj (("code", JStr code) ::
             match constraint with
             | Some c => [("constraint", JStr c)]
             | None => []
             end))]).

(** ** Exceptions as a monad *)

#[export] Instance exn_mret : MRet (sum exn) := λ A a, inr a.
#[export] Instance exn_mbind : MBind (sum exn) :=
  λ A B f r, match r with inl e => inl e | inr a => f a end.

Lemma exn_bind_inr {A B} (r : exn + A) (f : A → exn + B) b :
  r ≫= f = inr b ↔ ∃ a, r = inr a ∧ f a = inr b.
Proof.
  destruct r as [e|a]; simpl; split; [done|by intros (? & ? & _)|by exists a|].
  by intros (? & [= ->] & ?).
Qed.
