(* ===== verification/Config.v ===== *)
(** Configuration, [src/src/config]: reading the environment, the partition
    specification of a worker, and the ordering of the timeouts.

    Environment values are ASCII strings. *)

From stdpp Require Import pretty.
From S2P Require Import Prelude Num Js.

Local Open Scope Z_scope.

(** ** Text *)

Definition code (c : Ascii.ascii) : Z := Z.of_nat (Ascii.nat_of_ascii c).

(** [\d], and the white space that [trim] removes and [\s] matches. *)
Definition is_digit (c : Ascii.ascii) : bool := (48 <=? code c) && (code c <=? 57).
Definition is_space (c : Ascii.ascii) : bool :=
  ((9 <=? code c) && (code c <=? 13)) || (code c =? 32).

(** [spec.split(',')]. *)
Fixpoint split_commas (s : string) : list string :=
  match s with
  | EmptyString => [""%string]
  | String c s' =>
      if code c =? 44 then ""%string :: split_commas s'
      else match split_commas s' with
           | part :: parts => String c part :: parts
           | [] => [String c ""]
           end
  end.

Fixpoint trim_left (s : string) : string :=
  match s with
  | String c s' => if is_space c then trim_left s' else s
  | EmptyString => s
  end.

Fixpoint trim_right (s : string) : string :=
  match s with
  | EmptyString => EmptyString
  | String c s' =>
      match trim_right s' with
      | EmptyString => if is_space c then EmptyString else String c EmptyString
      | t => String c t
      end
  end.

Definition trim (s : string) : string := trim_right (trim_left s).

(** The digits at the beginning of a string, and the rest. *)
Fixpoint span_digits (s : string) : string * string :=
  match s with
  | String c s' =>
      if is_digit c then let '(ds, rest) := span_digits s' in (String c ds, rest)
      else (""%string, s)
  | EmptyString => (""%string, s)
  end.

(** Digits and nothing else. *)
Fixpoint all_digits (s : string) : bool :=
  match s with
  | EmptyString => true
  | String c s' => is_digit c && all_digits s'
  end.

(** The plain way to write a natural number: digits, at least one. *)
Definition plain_number (s : string) : bool :=
  match s with EmptyString => false | _ => all_digits s end.

(** [/^(\d+)(?:-(\d+))?$/]: the two groups. *)
Definition match_segment (s : string) : option (string * option string) :=
  let '(ds, rest) := span_digits s in
  match ds, rest with
  | EmptyString, _ => None
  | _, EmptyString => Some (ds, None)
  | _, String c rest' =>
      if code c =? 45 then
        let '(ds', rest'') := span_digits rest' in
        match ds', rest'' with
        | EmptyString, _ => None
        | _, EmptyString => Some (ds, Some ds')
        | _, _ => None
        end
      else None
  end.

Fixpoint decimal (acc : Z) (ds : string) : Z :=
  match ds with
  | EmptyString => acc
  | String c ds' => decimal (10 * acc + (code c - 48)) ds'
  end.

(** [parseInt(digits, 10)] is the nearest binary64 number; [2 ^ 1024] stands for
    [Infinity], which the largest values become. *)
Definition infinity_Z : Z := 2 ^ 1024.
Definition parse_int_digits (ds : string) : Z :=
  let z := decimal 0 ds in
  if infinity_Z - 2 ^ 970 <=? z then infinity_Z else round53 z.

(** ** The partition specification *)

Definition set_add (x : Z) (l : list Z) : list Z := if decide (x ∈ l) then l else l ++ [x].

(** [for (let i = from; i <= to; i += 1) partitions.add(i)]: [i += 1] rounds. [None]:
    the loop has not ended within the fuel. *)
Fixpoint add_range (fuel : nat) (i to : Z) (partitions : list Z) : option (list Z) :=
  match fuel with
  | O => None
  | S fuel =>
      if i <=? to then add_range fuel (round53 (i + 1)) to (set_add i partitions)
      else Some partitions
  end.

Definition double_quoted (s : string) : string :=
  let quote := String (Ascii.ascii_of_nat 34) "" in quote +:+ s +:+ quote.

Definition invalid_segment (part : string) : exn :=
  Error ("invalid WORKER_PARTITIONS segment '" +:+ part +:+ "' (use " +:+
         double_quoted "0-3" +:+ " or " +:+ double_quoted "0,2,5" +:+ ")").
Definition invalid_range (part : string) : exn :=
  Error ("invalid WORKER_PARTITIONS range '" +:+ part +:+ "': end before start").

(** One segment: its bounds. *)
Definition segment_bounds (part : string) : exn + (Z * Z) :=
  match match_segment (trim part) with
  | None => inl (invalid_segment part)
  | Some (first, second) =>
      let from := parse_int_digits first in
      let to := from_option parse_int_digits from second in
      if to <? from then inl (invalid_range part) else inr (from, to)
  end.

Fixpoint add_segments (fuel : nat) (parts : list string) (partitions : list Z) :
    option (exn + list Z) :=
  match parts with
  | [] => Some (inr partitions)
  | part :: parts' =>
      match segment_bounds part with
      | inl e => Some (inl e)
      | inr (from, to) =>
          match add_range fuel from to partitions with
          | None => None
          | Some partitions' => add_segments fuel parts' partitions'
          end
      end
  end.

(** [parsePartitionSpec(spec)], with fuel for each of its loops. *)
Definition parsePartitionSpec (fuel : nat) (spec : string) : option (exn + list Z) :=
  match add_segments fuel (split_commas spec) [] with
  | Some (inr partitions) => Some (inr (merge_sort Z.le partitions))
  | other => other
  end.

(** The pattern of [envValidationSchema]: /^\d+(-\d+)?(,\s*\d+(-\d+)?)*$/. *)
Definition worker_partitions_pattern (s : string) : bool :=
  match split_commas s with
  | [] => false
  | part :: parts =>
      bool_decide (is_Some (match_segment part)) &&
      forallb (λ p, bool_decide (is_Some (match_segment (trim_left p)))) parts
  end.

(** ** The environment *)

Definition env : Type := string → option string.

(** [requireEnv(key)]. *)
Definition requireEnv (e : env) (key : string) : exn + string :=
  match e key with
  | None | Some EmptyString =>
      inl (Error ("Missing required environment variable: " +:+ key))
  | Some value => inr value
  end.

(** [parseInt(s, 10)]: white space, a sign, digits; [None] is [NaN]. *)
Definition parseInt (s : string) : option Z :=
  let parse sign t :=
    match (span_digits t).1 with
    | EmptyString => None
    | ds => Some (sign * parse_int_digits ds)
    end in
  match trim_left s with
  | String c t =>
      if code c =? 45 then parse (-1) t
      else if code c =? 43 then parse 1 t
      else parse 1 (String c t)
  | EmptyString => None
  end.

(** [workerConfig]. *)
Record WorkerConfig := { wc_partitions : list Z; wc_prefetch : option Z }.

Definition workerConfig (fuel : nat) (e : env) : option (exn + WorkerConfig) :=
  match parsePartitionSpec fuel (default "0-7" (e "WORKER_PARTITIONS")) with
  | None => None
  | Some (inl err) => Some (inl err)
  | Some (inr ps) =>
      Some (inr {| wc_partitions := ps;
                   wc_prefetch := parseInt (default "16" (e "WORKER_PREFETCH")) |})
  end.

(** The custom check of [envValidationSchema] (ADR 0009). *)
Definition check_timeout_order (acquire statement idleTxn : Z) : exn + unit :=
  if statement <=? acquire
  then inl (Error ("POSTGRES_ACQUIRE_TIMEOUT_MS (" +:+ pretty acquire +:+
         ") must be < POSTGRES_STATEMENT_TIMEOUT_MS (" +:+ pretty statement +:+ ") — ADR 0009"))
  else if idleTxn <=? statement
  then inl (Error ("POSTGRES_STATEMENT_TIMEOUT_MS (" +:+ pretty statement +:+
         ") must be < POSTGRES_IDLE_TXN_TIMEOUT_MS (" +:+ pretty idleTxn +:+ ") — ADR 0009"))
  else inr tt.

Definition DEFAULT_ACQUIRE_TIMEOUT_MS : Z := 2000.
Definition DEFAULT_STATEMENT_TIMEOUT_MS : Z := 5000.
Definition DEFAULT_IDLE_TXN_TIMEOUT_MS : Z := 10000.

(** ** Vocabulary *)

(** The bounds of every segment, or the first error. *)
Fixpoint spec_bounds (parts : list string) : exn + list (Z * Z) :=
  match parts with
  | [] => inr []
  | part :: parts' =>
      match segment_bounds part, spec_bounds parts' with
      | inl e, _ => inl e
      | inr b, inr bs => inr (b :: bs)
      | inr _, inl e => inl e
      end
  end.

Definition covers (bs : list (Z * Z)) (x : Z) : Prop :=
  ∃ from to, (from, to) ∈ bs ∧ from ≤ x ≤ to.

Fixpoint no_space (s : string) : bool :=
  match s with
  | EmptyString => true
  | String c s' => negb (is_space c) && no_space s'
  end.

(** ** Lemmas *)

Lemma elem_of_set_add x y l : x ∈ set_add y l ↔ x = y ∨ x ∈ l.
Proof.
  unfold set_add. case_decide as Hy; [split; [auto|by intros [-> |]]|].
  rewrite elem_of_app, list_elem_of_singleton. tauto.
Qed.

Lemma NoDup_set_add y l : NoDup l → NoDup (set_add y l).
Proof.
  unfold set_add. case_decide as Hy; [done|]. intros Hl. apply NoDup_app.
  split_and!; [done| |apply NoDup_singleton]. intros x Hx ->%list_elem_of_singleton. done.
Qed.

(** The loop of one segment below [2 ^ 53]. *)
Lemma add_range_spec fuel i to ps :
  0 ≤ i → to < two53 → (Z.to_nat (to + 1 - i) < fuel)%nat → NoDup ps →
  ∃ ps', add_range fuel i to ps = Some ps' ∧ NoDup ps' ∧
    ∀ x, x ∈ ps' ↔ x ∈ ps ∨ i ≤ x ≤ to.
Proof.
  intros Hi Hto. revert i ps Hi. induction fuel as [|fuel IH]; intros i ps Hi Hf Hnd; [lia|].
  simpl. destruct (Z.leb_spec i to) as [Hle|Hgt].
  - rewrite round53_safe by lia.
    destruct (IH (i + 1) (set_add i ps)) as (ps' & Hps' & Hnd' & Hx);
      [lia|lia|by apply NoDup_set_add|].
    exists ps'. split_and!; [done|done|]. intros x. rewrite Hx, elem_of_set_add.
    split; [intros [[->|?]|?]; [right; lia|by left|right; lia]|].
    intros [?|?]; [by left; right|].
    destruct (decide (x = i)) as [->|]; [by left; left|right; lia].
  - exists ps. split_and!; [done|done|]. intros x. split; [by left|]. intros [?|?]; [done|lia].
Qed.

(** Across [2 ^ 53] the counter gets stuck. *)
Lemma add_range_stuck fuel i to ps :
  0 ≤ i ≤ two53 → two53 ≤ to → add_range fuel i to ps = None.
Proof.
  revert i ps. induction fuel as [|fuel IH]; intros i ps Hi Hto; [done|]. simpl.
  rewrite (proj2 (Z.leb_le i to)) by lia.
  destruct (decide (i = two53)) as [->|Hne].
  - rewrite round53_succ_two53. by apply IH.
  - rewrite round53_safe by lia. apply IH; lia.
Qed.

Lemma add_segments_spec fuel parts bs ps :
  spec_bounds parts = inr bs → NoDup ps →
  (∀ from to, (from, to) ∈ bs → 0 ≤ from ∧ to < two53 ∧ (Z.to_nat (to + 1 - from) < fuel)%nat) →
  ∃ ps', add_segments fuel parts ps = Some (inr ps') ∧ NoDup ps' ∧
    ∀ x, x ∈ ps' ↔ x ∈ ps ∨ covers bs x.
Proof.
  revert bs ps. induction parts as [|part parts IH]; intros bs ps; simpl.
  - intros [= <-] Hnd _. exists ps. split_and!; [done|done|]. intros x. split; [by left|].
    intros [?|(from & to & Hin & _)]; [done|]. by apply not_elem_of_nil in Hin.
  - destruct (segment_bounds part) as [e|[from to]]; [done|].
    destruct (spec_bounds parts) as [e|bs']; [done|]. intros [= <-] Hnd Hall.
    destruct (Hall from to) as (Hfrom & Hto & Hf); [by left|].
    destruct (add_range_spec fuel from to ps) as (ps1 & -> & Hnd1 & Hx1); [done..|].
    destruct (IH bs' ps1 eq_refl Hnd1) as (ps' & -> & Hnd' & Hx').
    { intros f t Hin. apply Hall. by right. }
    exists ps'. split_and!; [done|done|]. intros x. rewrite Hx', Hx1. unfold covers. split.
    + intros [[?|?]|(f & t & Hin & ?)]; [by left|right..].
      * exists from, to. split; [by left|done].
      * exists f, t. split; [by right|done].
    + intros [?|(f & t & [[= -> ->]|Hin]%elem_of_cons & ?)]; [by left; left|by left; right|right].
      by exists f, t.
Qed.

(** ** Errors of a specification *)

Lemma spec_bounds_error parts e :
  spec_bounds parts = inl e → ∃ part, part ∈ parts ∧ segment_bounds part = inl e.
Proof.
  induction parts as [|part parts IH]; simpl; [done|].
  destruct (segment_bounds part) as [e'|b] eqn:Hb.
  - intros [= ->]. exists part. split; [by left|done].
  - destruct (spec_bounds parts) as [e'|bs]; [|done]. intros [= ->].
    destruct (IH eq_refl) as (p & Hp & He). exists p. split; [by right|done].
Qed.

Lemma spec_bounds_elem parts bs b :
  spec_bounds parts = inr bs → b ∈ bs → ∃ part, part ∈ parts ∧ segment_bounds part = inr b.
Proof.
  revert bs. induction parts as [|part parts IH]; intros bs; simpl.
  - by intros [= <-] ?%not_elem_of_nil.
  - destruct (segment_bounds part) as [e'|b'] eqn:Hb; [done|].
    destruct (spec_bounds parts) as [e'|bs']; [done|]. intros [= <-] [->|Hin]%elem_of_cons.
    + exists part. split; [by left|done].
    + destruct (IH bs' eq_refl Hin) as (p & Hp & He). exists p. split; [by right|done].
Qed.

(** The parser reports the first bad segment, once the loops before it have ended. *)
Lemma add_segments_error fuel parts e ps :
  spec_bounds parts = inl e → NoDup ps →
  (∀ part from to, part ∈ parts → segment_bounds part = inr (from, to) →
     0 ≤ from ∧ to < two53 ∧ (Z.to_nat (to + 1 - from) < fuel)%nat) →
  add_segments fuel parts ps = Some (inl e).
Proof.
  revert ps. induction parts as [|part parts IH]; intros ps; simpl; [done|].
  destruct (segment_bounds part) as [e'|[from to]] eqn:Hb; [by intros [= ->]|].
  destruct (spec_bounds parts) as [e'|bs]; [|done]. intros [= ->] Hnd Hall.
  destruct (Hall part from to) as (Hfrom & Hto & Hf); [by left|done|].
  destruct (add_range_spec fuel from to ps) as (ps1 & -> & Hnd1 & _); [done..|].
  apply IH; [done|done|]. intros p f t Hp. apply Hall. by right.
Qed.

(** ** White space *)

Lemma digit_not_space c : is_digit c = true → is_space c = false.
Proof.
  unfold is_digit, is_space. rewrite andb_true_iff, !Z.leb_le. intros [? ?].
  apply orb_false_iff. split; [apply andb_false_iff; right; lia|lia].
Qed.

Lemma span_digits_spec s ds rest :
  span_digits s = (ds, rest) → s = (ds +:+ rest)%string ∧ no_space ds = true.
Proof.
  revert ds rest. induction s as [|c s IH]; intros ds rest; simpl; [by intros [= <- <-]|].
  destruct (is_digit c) eqn:Hc; [|by intros [= <- <-]].
  destruct (span_digits s) as [ds' rest'] eqn:E. intros [= <- <-].
  destruct (IH ds' rest' eq_refl) as [-> Hn]. split; [done|]. simpl.
  by rewrite digit_not_space, Hn.
Qed.

Lemma no_space_app s t : no_space (s +:+ t) = no_space s && no_space t.
Proof. induction s as [|c s IH]; [done|]. simpl. rewrite IH. by rewrite andb_assoc. Qed.

Lemma match_segment_no_space s g : match_segment s = Some g → no_space s = true.
Proof.
  unfold match_segment. destruct (span_digits s) as [ds rest] eqn:E.
  apply span_digits_spec in E as [-> Hds]. rewrite no_space_app, Hds.
  destruct ds as [|d ds]; [done|]. destruct rest as [|c rest]; [done|].
  destruct (code c =? 45) eqn:Hc; [|done].
  destruct (span_digits rest) as [ds' rest''] eqn:E'.
  apply span_digits_spec in E' as [-> Hds']. destruct ds' as [|d' ds']; [done|].
  destruct rest'' as [|c' rest'']; [|done]. intros _. cbn [no_space andb].
  assert (Hsp : is_space c = false).
  { unfold is_space. apply Z.eqb_eq in Hc. rewrite Hc. done. }
  rewrite Hsp, no_space_app, Hds'. done.
Qed.

Lemma trim_right_no_space s : no_space s = true → trim_right s = s.
Proof.
  induction s as [|c s IH]; simpl; [done|]. intros [Hc Hs]%andb_true_iff.
  rewrite IH by done. apply negb_true_iff in Hc. rewrite Hc. by destruct s.
Qed.

(** Digits give a number that is not negative. *)
Lemma span_digits_digits s : all_digits (span_digits s).1 = true.
Proof.
  induction s as [|c s IH]; [done|]. simpl. destruct (is_digit c) eqn:Hc; [|done].
  destruct (span_digits s) as [ds rest]. simpl in *. by rewrite Hc.
Qed.

Lemma decimal_nonneg acc s : 0 <= acc → all_digits s = true → 0 <= decimal acc s.
Proof.
  revert acc. induction s as [|c s IH]; intros acc Ha; simpl; [done|].
  intros [Hc Hs]%andb_true_iff. apply IH; [|done].
  unfold is_digit in Hc. apply andb_true_iff in Hc as [Hc%Z.leb_le _]. lia.
Qed.

Lemma parse_int_digits_nonneg s : all_digits s = true → 0 <= parse_int_digits s.
Proof.
  intros Hs. pose proof (decimal_nonneg 0 s ltac:(lia) Hs) as Hd.
  unfold parse_int_digits, infinity_Z. destruct (_ <=? _); [lia|].
  unfold round53. rewrite (proj2 (Z.ltb_ge _ _)) by lia. unfold round53_pos.
  destruct (_ <=? 0); [done|]. apply Z.shiftl_nonneg.
  assert (0 <= Z.shiftr (decimal 0 s) (Z.log2 (decimal 0 s) - 52)) by (by apply Z.shiftr_nonneg).
  destruct (_ || _); lia.
Qed.

Lemma match_segment_digits s first second :
  match_segment s = Some (first, second) → all_digits first = true.
Proof.
  unfold match_segment. pose proof (span_digits_digits s) as Hd.
  destruct (span_digits s) as [ds rest]. cbn [fst] in Hd.
  destruct ds as [|d ds]; [done|]. destruct rest as [|c rest]; [by intros [= <- <-]|].
  destruct (code c =? 45); [|done]. destruct (span_digits rest) as [ds' rest''].
  destruct ds' as [|d' ds']; [done|]. destruct rest''; [|done]. by intros [= <- <-].
Qed.

Lemma segment_bounds_nonneg part from to : segment_bounds part = inr (from, to) → 0 <= from.
Proof.
  unfold segment_bounds. destruct (match_segment (trim part)) as [[first second]|] eqn:Hm; [|done].
  destruct (_ <? _); [done|]. intros [= <- _].
  by eapply parse_int_digits_nonneg, match_segment_digits.
Qed.

(** ** The guarantees *)

(** The partition specification means the union of its segments: when every
    segment is well formed and ends below [2 ^ 53], parsing ends (with more fuel than
    the longest segment has partitions) and gives exactly the partitions some segment
    covers, ascending and without repetition. *)
Lemma partitions_exact fuel spec bs :
  spec_bounds (split_commas spec) = inr bs →
  (∀ from to, (from, to) ∈ bs → 0 ≤ from ∧ to < two53 ∧ (Z.to_nat (to + 1 - from) < fuel)%nat) →
  ∃ ps, parsePartitionSpec fuel spec = Some (inr ps) ∧ StronglySorted Z.lt ps ∧
    ∀ x, x ∈ ps ↔ covers bs x.
Proof.
  intros Hbs Hall. unfold parsePartitionSpec.
  destruct (add_segments_spec fuel (split_commas spec) bs [] Hbs (NoDup_nil_2) Hall)
    as (ps & -> & Hnd & Hx).
  exists (merge_sort Z.le ps). split_and!; [done| |].
  - assert (Hs : StronglySorted Z.le (merge_sort Z.le ps)) by apply (StronglySorted_merge_sort _).
    assert (Hn : NoDup (merge_sort Z.le ps)) by (by rewrite merge_sort_Permutation).
    revert Hs Hn. generalize (merge_sort Z.le ps). intros l Hs. induction Hs as [|y l Hs IH Hy];
      intros Hn; [constructor|]. apply NoDup_cons in Hn as [Hni Hn]. constructor; [by apply IH|].
    rewrite Forall_forall in *. intros z Hz. specialize (Hy z Hz).
    destruct (decide (y = z)) as [->|]; [done|lia].
  - intros x. rewrite merge_sort_Permutation, Hx. split; [|by right].
    intros [Hin|?]; [by apply not_elem_of_nil in Hin|done].
Qed.

(** A segment that reaches [2 ^ 53] makes the parser loop for ever: the counter
    stops growing there, so no fuel is enough, although the pattern of the environment
    schema accepts the value. *)
Theorem huge_partition_never_ends fuel :
  worker_partitions_pattern "9007199254740992" = true ∧
  parsePartitionSpec fuel "9007199254740992" = None.
Proof.
  split; [by vm_compute|]. unfold parsePartitionSpec.
  assert (Hb : segment_bounds "9007199254740992" = inr (two53, two53)) by (by vm_compute).
  assert (Hs : split_commas "9007199254740992" = ["9007199254740992"%string]) by (by vm_compute).
  rewrite Hs. cbn [add_segments]. rewrite Hb.
  by rewrite add_range_stuck by (unfold two53; lia).
Qed.

(** A value that the environment schema accepts is well formed for the parser: the
    only error a worker can then raise at boot is a range that ends before it starts. *)
Lemma validated_spec_parses spec part :
  worker_partitions_pattern spec = true → part ∈ split_commas spec →
  ∃ first second, match_segment (trim part) = Some (first, second) ∧
    (segment_bounds part = inl (invalid_range part) ∨ ∃ b, segment_bounds part = inr b).
Proof.
  unfold worker_partitions_pattern.
  assert (Hseg : ∀ p, is_Some (match_segment (trim p)) → ∃ first second,
    match_segment (trim p) = Some (first, second) ∧
    (segment_bounds p = inl (invalid_range p) ∨ ∃ b, segment_bounds p = inr b)).
  { intros p [[first second] Hm]. exists first, second. split; [done|].
    unfold segment_bounds. rewrite Hm. destruct (_ <? _); eauto. }
  assert (Htrim : ∀ p, is_Some (match_segment (trim_left p)) → is_Some (match_segment (trim p))).
  { intros p [g Hg]. unfold trim. rewrite trim_right_no_space; [by eexists|].
    by eapply match_segment_no_space. }
  assert (Hleft : ∀ p, is_Some (match_segment p) → trim_left p = p).
  { intros p [g Hg]. apply match_segment_no_space in Hg. destruct p as [|c p]; [done|].
    simpl in *. apply andb_true_iff in Hg as [Hc%negb_true_iff _]. by rewrite Hc. }
  destruct (split_commas spec) as [|p ps]; [done|]. rewrite andb_true_iff, bool_decide_eq_true.
  intros [Hp Hps] [->|Hin]%elem_of_cons; apply Hseg, Htrim; [by rewrite (Hleft p)|].
  rewrite forallb_forall in Hps. apply list_elem_of_In, Hps in Hin.
  by apply bool_decide_eq_true in Hin.
Qed.

(** The timeouts a booted process has are ordered as ADR 0009 demands, and the
    defaults are. *)
Theorem timeouts_ordered acquire statement idleTxn :
  (check_timeout_order acquire statement idleTxn = inr tt ↔
     acquire < statement ∧ statement < idleTxn) ∧
  check_timeout_order DEFAULT_ACQUIRE_TIMEOUT_MS DEFAULT_STATEMENT_TIMEOUT_MS
    DEFAULT_IDLE_TXN_TIMEOUT_MS = inr tt.
Proof.
  split; [|done]. unfold check_timeout_order.
  destruct (Z.leb_spec statement acquire), (Z.leb_spec idleTxn statement);
    (split; [done || lia|done || lia]).
Qed.

Example mixed_specification : parsePartitionSpec 9 "0-3, 7,2-2" = Some (inr [0; 1; 2; 3; 7]).
Proof. vm_compute. reflexivity. Qed.
