(* ===== verification/NumText.v ===== *)
(** [Number(text)]: the number that JavaScript reads from a text (ECMAScript's
    StringToNumber), for ASCII texts. A query string's numbers come this way. *)

From S2P Require Import Prelude Num NumZ Config.

Local Open Scope Z_scope.

(** [m * 10 ^ e], rounded to the nearest number. Outside of the second and third test
    the power is of a moderate size; there the result is already determined. *)
Definition number_of_decimal (s : bool) (m e : Z) : number :=
  match m with
  | Zpos p =>
      if 400 <? e then S754_infinity s
      else if e <? - (400 + Z.log2 m) then S754_zero s
      else if 0 <=? e then binary_normalize num_prec num_emax
             (if s then - (m * 10 ^ e) else m * 10 ^ e) 0 s
      else
        let '(q, e', l) := SFdiv_core_binary num_prec num_emax m 0 (10 ^ (- e)) 0 in
        binary_round_aux num_prec num_emax s q e' l
  | _ => S754_zero s
  end.

(** A signed exponent part, [e[+-]?\d+], up to the end of the text. *)
Definition exponent_part (t : string) : option Z :=
  match t with
  | EmptyString => Some 0
  | String c t' =>
      if (code c =? 101) || (code c =? 69) then
        let signed sign ds := if plain_number ds then Some (sign * decimal 0 ds) else None in
        match t' with
        | String c' t'' =>
            if code c' =? 43 then signed 1 t''
            else if code c' =? 45 then signed (-1) t''
            else signed 1 t'
        | EmptyString => None
        end
      else None
  end.

(** An unsigned decimal literal: digits with at most one point, then an exponent. *)
Definition decimal_literal (s : bool) (t : string) : number :=
  let '(int, rest) := span_digits t in
  let '(frac, rest') :=
    match rest with
    | String c rest' => if code c =? 46 then span_digits rest' else (EmptyString, rest)
    | EmptyString => (EmptyString, rest)
    end in
  match (int +:+ frac)%string, exponent_part rest' with
  | EmptyString, _ | _, None => NaN
  | digits, Some e => number_of_decimal s (decimal 0 digits) (e - Z.of_nat (String.length frac))
  end.

(** The value of a digit in a base up to sixteen. *)
Definition digit_value (c : Ascii.ascii) : Z :=
  let z := code c in
  if is_digit c then z - 48
  else if (97 <=? z) && (z <=? 102) then z - 87
  else if (65 <=? z) && (z <=? 70) then z - 55
  else 16.

Fixpoint based (base acc : Z) (t : string) : option Z :=
  match t with
  | EmptyString => Some acc
  | String c t' => if digit_value c <? base then based base (base * acc + digit_value c) t' else None
  end.

Definition based_literal (base : Z) (t : string) : number :=
  match t with
  | EmptyString => NaN
  | _ => match based base 0 t with Some z => num_of_Z z | None => NaN end
  end.

Definition unsigned_literal (s : bool) (t : string) : number :=
  if bool_decide (t = "Infinity"%string) then S754_infinity s else decimal_literal s t.

Definition Number_of_text (text : string) : number :=
  match trim text with
  | EmptyString => S754_zero false
  | String c t =>
      if code c =? 43 then unsigned_literal false t
      else if code c =? 45 then unsigned_literal true t
      else match t with
           | String x t' =>
               if code c =? 48 then
                 if (code x =? 120) || (code x =? 88) then based_literal 16 t'
                 else if (code x =? 111) || (code x =? 79) then based_literal 8 t'
                 else if (code x =? 98) || (code x =? 66) then based_literal 2 t'
                 else unsigned_literal false (String c t)
               else unsigned_literal false (String c t)
           | EmptyString => unsigned_literal false (String c t)
           end
  end.

(** ** Samples *)

Example number_texts :
  Number_of_text " 42 " = num_of_Z 42 ∧ Number_of_text "" = num_of_Z 0 ∧
  Number_of_text "5e2" = num_of_Z 500 ∧ Number_of_text "0x10" = num_of_Z 16 ∧
  Number_of_text "1e400" = Infinity ∧ Number_of_text "-0.5e1" = num_of_Z (-5) ∧
  Number_of_text "0.1" = S754_finite false 7205759403792794 (-56) ∧
  Number_of_text "50abc" = NaN ∧ Number_of_text "." = NaN ∧ Number_of_text "1e-400" = num_of_Z 0.
Proof. vm_compute. done. Qed.

(** ** Plain digits *)

Lemma all_digits_trim s : all_digits s = true → trim s = s.
Proof.
  assert (Hns : ∀ s, all_digits s = true → no_space s = true).
  { clear s. induction s as [|c s IH]; [done|]. simpl. intros [Hc Hs]%andb_true_iff.
    by rewrite (digit_not_space c Hc), IH. }
  intros Hs%Hns. unfold trim.
  assert (Hl : trim_left s = s).
  { destruct s as [|c s]; [done|]. simpl in *. apply andb_true_iff in Hs as [Hc%negb_true_iff _].
    by rewrite Hc. }
  by rewrite Hl, trim_right_no_space.
Qed.

Lemma span_digits_all s : all_digits s = true → span_digits s = (s, EmptyString).
Proof.
  induction s as [|c s IH]; simpl; [done|]. intros [Hc Hs]%andb_true_iff.
  by rewrite Hc, IH.
Qed.

Lemma number_of_decimal_safe z : 0 <= z < two53 → number_of_decimal false z 0 = num_of_Z z.
Proof.
  intros Hz. destruct z as [|p|p]; [done| |lia]. unfold number_of_decimal.
  assert (0 <= Z.log2 (Zpos p)) by apply Z.log2_nonneg.
  rewrite (proj2 (Z.ltb_ge 400 0)) by lia. rewrite (proj2 (Z.ltb_ge 0 _)) by lia.
  rewrite (proj2 (Z.leb_le 0 0)) by lia. by rewrite Z.pow_0_r, Z.mul_1_r.
Qed.

Lemma app_nil_string s : (s +:+ "")%string = s.
Proof. induction s as [|c s IH]; [done|]. exact (f_equal (String c) IH). Qed.

(** Digits below [2 ^ 53] are read as the integer they say. *)
Lemma Number_of_digits s :
  plain_number s = true → decimal 0 s < two53 → Number_of_text s = num_of_Z (decimal 0 s).
Proof.
  intros Hp Hlt. destruct s as [|c s]; [done|]. change (all_digits (String c s) = true) in Hp.
  assert (Hnn : 0 <= decimal 0 (String c s)) by (by apply decimal_nonneg).
  assert (Hdec : unsigned_literal false (String c s) = num_of_Z (decimal 0 (String c s))).
  { unfold unsigned_literal. rewrite bool_decide_eq_false_2 by (intros E; by rewrite E in Hp).
    unfold decimal_literal. rewrite (span_digits_all _ Hp).
    change ((String c s +:+ "")%string) with (String c (s +:+ "")%string). rewrite app_nil_string.
    cbn [exponent_part String.length]. by apply number_of_decimal_safe. }
  unfold Number_of_text. rewrite all_digits_trim by done.
  pose proof Hp as [Hc Hs]%andb_true_iff. unfold is_digit in Hc.
  apply andb_true_iff in Hc as [Hc1%Z.leb_le Hc2%Z.leb_le].
  rewrite (proj2 (Z.eqb_neq (code c) 43)) by lia. rewrite (proj2 (Z.eqb_neq (code c) 45)) by lia.
  destruct s as [|x s]; [done|]. destruct (code c =? 48); [|done].
  cbn [all_digits] in Hs. apply andb_true_iff in Hs as [Hx _]. unfold is_digit in Hx.
  apply andb_true_iff in Hx as [Hx1%Z.leb_le Hx2%Z.leb_le].
  repeat rewrite (proj2 (Z.eqb_neq (code x) _)) by lia. done.
Qed.

(** ** What is read is a number *)

Lemma number_of_decimal_rounded s m e : rounded (number_of_decimal s m e).
Proof.
  unfold number_of_decimal. destruct m as [|p|p]; [done| |done].
  destruct (400 <? e); [done|]. destruct (e <? _); [done|].
  destruct (Z.leb_spec 0 e) as [He|He]; [apply binary_normalize_rounded|].
  unfold SFdiv_core_binary.
  set (m' := match _ with Z0 => Zpos p | Zpos _ => _ | Zneg _ => 0 end).
  assert (Hm : 0 <= m').
  { subst m'. destruct (_ - Z.min _ _) as [|k|k]; [done| |done]. by apply Z.shiftl_nonneg. }
  clearbody m'. destruct (Z.div_eucl m' (10 ^ (- e))) as [q r] eqn:E.
  apply binary_round_aux_rounded. change q with (q, r).1. rewrite <- E.
  change (0 <= m' / 10 ^ (- e)). apply Z.div_pos; [done|]. apply Z.pow_pos_nonneg; lia.
Qed.

Lemma Number_of_text_rounded text : rounded (Number_of_text text).
Proof.
  assert (Hu : ∀ s t, rounded (unsigned_literal s t)).
  { intros s t. unfold unsigned_literal. case_bool_decide; [done|]. unfold decimal_literal.
    destruct (span_digits t) as [int rest].
    destruct (match rest with EmptyString => _ | String _ _ => _ end) as [frac rest'].
    destruct (int +:+ frac)%string; [done|]. destruct (exponent_part rest'); [|done].
    apply number_of_decimal_rounded. }
  assert (Hb : ∀ b t, rounded (based_literal b t)).
  { intros b t. unfold based_literal. destruct t; [done|]. destruct (based b 0 _); [|done].
    apply num_of_Z_rounded. }
  unfold Number_of_text. destruct (trim text) as [|c t]; [done|].
  destruct (code c =? 43); [done|]. destruct (code c =? 45); [done|].
  destruct t as [|x t]; [done|]. repeat case_match; done.
Qed.
