(* ===== verification/Stats.v ===== *)
(** The statistics of the load harness, [src/scripts/measure-presence.mjs]: percentiles
    with the rounding of JavaScript's arithmetic, the summary of latencies and that of
    the queue depth. *)

From S2P Require Import Prelude Num NumZ NumText.

Local Open Scope Z_scope.

(** ** Arithmetic *)

Definition num_mul (x y : number) : number := SFmul num_prec num_emax x y.
Definition num_div (x y : number) : number := SFdiv num_prec num_emax x y.

(** [Math.ceil(x)], when it is an integer. *)
Definition num_ceil (x : number) : option Z :=
  match x with
  | S754_zero _ => Some 0
  | S754_finite s m e =>
      let v := if s then Zneg m else Zpos m in
      Some (if 0 <=? e then Z.shiftl v e else - Z.shiftr (- v) (- e))
  | _ => None
  end.

(** The tenths of a non-negative number to the nearest, halves up. *)
Definition tenths (m : positive) (e : Z) : Z :=
  if 0 <=? e then 10 * Z.shiftl (Zpos m) e
  else (20 * Zpos m + 2 ^ (- e)) / 2 ^ (1 - e).

(** [+x.toFixed(1)]. *)
Definition to_fixed1 (x : number) : number :=
  match x with
  | S754_zero _ => S754_zero false
  | S754_finite s m e =>
      if num_ge (num_abs x) (number_of_decimal false 1 21) then x
      else number_of_decimal s (tenths m e) (-1)
  | _ => x
  end.

(** ** Latencies *)

(** [Math.max(0, Math.ceil((p / 100) * length) - 1)]. *)
Definition percentile_index (p length : Z) : Z :=
  Z.max 0 (default 0 (num_ceil (num_mul (num_div (num_of_Z p) (num_of_Z 100))
    (num_of_Z length))) - 1).

Definition percentile (sorted : list number) (p : Z) : option number :=
  sorted !! Z.to_nat (percentile_index p (Z.of_nat (length sorted))).

Record Stats := { st_count : nat; st_p50 : number; st_p95 : number; st_p99 : number;
                  st_max : number }.

(** The order of [(a, b) => a - b]: [a] stays before [b] unless it is larger. *)
Definition num_order (x y : number) : Prop := num_lt y x = false.

#[export] Instance num_order_dec : RelDecision num_order.
Proof. intros x y. unfold num_order. apply _. Defined.

Definition stats (values : list number) : option Stats :=
  match values with
  | [] => None
  | _ =>
      let sorted := merge_sort num_order values in
      p50 ← percentile sorted 50;
      p95 ← percentile sorted 95;
      p99 ← percentile sorted 99;
      biggest ← last sorted;
      Some {| st_count := length sorted; st_p50 := to_fixed1 p50; st_p95 := to_fixed1 p95;
              st_p99 := to_fixed1 p99; st_max := to_fixed1 biggest |}
  end.

(** ** Queue depth *)

Record Sample := { sm_t : Z; sm_messages : Z }.

Record Depth := { dp_max : Z; dp_atLoadEnd : Z; dp_growthPerSec : number }.

Definition growth (first last : Sample) : number :=
  if sm_t first <? sm_t last
  then to_fixed1 (num_mul (num_div (num_of_Z (sm_messages last - sm_messages first))
         (num_of_Z (sm_t last - sm_t first))) (num_of_Z 1000))
  else S754_zero false.

Definition depthSummary (series : list Sample) (runStart runEnd : Z) : option Depth :=
  match series with
  | [] | [_] => None
  | _ =>
      let inRun := filter (λ s, runStart <= sm_t s <= runEnd) series in
      let depths := sm_messages <$> inRun in
      Some {| dp_max := match depths with [] => 0 | d :: ds => foldl Z.max d ds end;
              dp_atLoadEnd := default 0 (sm_messages <$> last inRun);
              dp_growthPerSec :=
                match head inRun, last inRun with
                | Some first, Some last => growth first last
                | _, _ => S754_zero false
                end |}
  end.

(** ** Samples *)

Example stats_of_latencies :
  stats (num_of_Z <$> [30; 10; 20; 40]) =
    Some {| st_count := 4; st_p50 := num_of_Z 20; st_p95 := num_of_Z 40;
            st_p99 := num_of_Z 40; st_max := num_of_Z 40 |}.
Proof. vm_compute. reflexivity. Qed.

Example fixed_halves :
  to_fixed1 (Number_of_text "12.25") = Number_of_text "12.3" ∧
  to_fixed1 (Number_of_text "0.349") = Number_of_text "0.3" ∧
  to_fixed1 (Number_of_text "-3.75") = Number_of_text "-3.8".
Proof. vm_compute. done. Qed.

Example depth_of_series :
  depthSummary [{| sm_t := 0; sm_messages := 5 |}; {| sm_t := 500; sm_messages := 30 |};
                {| sm_t := 1000; sm_messages := 25 |}; {| sm_t := 9000; sm_messages := 99 |}]
    0 2000 =
    Some {| dp_max := 30; dp_atLoadEnd := 25; dp_growthPerSec := num_of_Z 20 |}.
Proof. vm_compute. reflexivity. Qed.

(** ** The index of a percentile *)

(** Nearest rank: the smallest index from which on at least [p] percent are covered. *)
Definition nearest_rank (p length : Z) : Z := (p * length + 99) / 100 - 1.

(** [p / 100] is rounded to a binary fraction a little below it. *)
Lemma percent_mantissas p :
  p = 50 ∨ p = 95 ∨ p = 99 →
  ∃ m, num_div (num_of_Z p) (num_of_Z 100) = S754_finite false m (-53) ∧
    2 ^ 52 <= Zpos m < 2 ^ 53 ∧ p * 2 ^ 53 - 100 <= 100 * Zpos m <= p * 2 ^ 53.
Proof.
  intros [->|[->| ->]].
  - exists (Z.to_pos (2 ^ 52)). split_and!; vm_compute; done.
  - exists (Z.to_pos 8556839292003942). split_and!; vm_compute; done.
  - exists (Z.to_pos 8917127262193582). split_and!; vm_compute; done.
Qed.

(** Rounding up what lies between two integers. *)
Lemma num_ceil_spec m e K :
  e < 0 → (K - 1) * 2 ^ (- e) < Zpos m <= K * 2 ^ (- e) →
  num_ceil (S754_finite false m e) = Some K.
Proof.
  intros He Hm. unfold num_ceil. rewrite (proj2 (Z.leb_gt 0 e)) by done. f_equal.
  rewrite Z.shiftr_div_pow2 by lia.
  assert (Hp : 0 < 2 ^ (- e)) by (apply Z.pow_pos_nonneg; lia).
  assert (- Zpos m / 2 ^ (- e) = - K); [|lia].
  symmetry. apply Z.div_unique with (K * 2 ^ (- e) - Zpos m); lia.
Qed.

Lemma rank_bounds p len :
  0 < p → 1 <= len → 100 * nearest_rank p len < p * len <= 100 * (nearest_rank p len + 1).
Proof.
  intros Hp Hl. unfold nearest_rank.
  pose proof (Z.div_mod (p * len + 99) 100 ltac:(lia)).
  pose proof (Z.mod_pos_bound (p * len + 99) 100 ltac:(lia)). lia.
Qed.

(** The product, scaled to an integer, lies above [K - 1] and not above [K]. *)
Lemma product_between p m len s K n :
  100 * (K - 1) < p * len <= 100 * K → p * 2 ^ 53 - 100 <= 100 * m <= p * 2 ^ 53 →
  0 <= len < 2 ^ 32 → 21 <= s → 0 <= n <= 53 →
  (K - 1) * 2 ^ (53 + s) + 2 ^ n <= m * (len * 2 ^ s) <= K * 2 ^ (53 + s).
Proof.
  intros HK Hm Hlen Hs Hn. rewrite Z.pow_add_r by lia.
  assert (Hs2 : 2 ^ 21 <= 2 ^ s) by (apply Z.pow_le_mono_r; lia).
  assert (Hn2 : 2 ^ n <= 2 ^ 53) by (apply Z.pow_le_mono_r; lia).
  set (P := 2 ^ s) in *. set (N := 2 ^ n) in *.
  assert (H0 : 0 < P) by (subst P; apply Z.pow_pos_nonneg; lia).
  change (2 ^ 21) with 2097152 in Hs2. change (2 ^ 53) with 9007199254740992 in *.
  change (2 ^ 32) with 4294967296 in *. split.
  - assert (H1 : (100 * K - 99) * 9007199254740992 - 100 * 4294967296 <= 100 * m * len) by nia.
    assert (H2 : 100 * (K - 1) * 9007199254740992 * P + 4503599627370496 * P <= 100 * m * len * P)
      by nia.
    nia.
  - assert (H1 : 100 * m * len <= 100 * K * 9007199254740992) by nia. nia.
Qed.

Lemma neighbour_between M n q k A B :
  0 < 2 ^ n → neighbour M n q → A * 2 ^ k * 2 ^ n + 2 ^ n <= M <= B * 2 ^ k * 2 ^ n →
  A * 2 ^ k < q <= B * 2 ^ k.
Proof.
  intros Hp Hq HM. pose proof (Z.div_mod M (2 ^ n) ltac:(lia)).
  pose proof (Z.mod_pos_bound M (2 ^ n) Hp).
  set (a := A * 2 ^ k) in *. set (b := B * 2 ^ k) in *. clearbody a b.
  destruct Hq as [->|[-> Hr]]; nia.
Qed.

Lemma mantissa_product a b :
  2 ^ 52 <= a < 2 ^ 53 → 2 ^ 52 <= b < 2 ^ 53 →
  2 ^ 104 <= a * b < 2 ^ 106 ∧ 105 <= Zdigits2 (a * b) <= 106.
Proof.
  change (2 ^ 52) with 4503599627370496. change (2 ^ 53) with 9007199254740992.
  intros Ha Hb. assert (HM : 2 ^ 104 <= a * b < 2 ^ 106).
  { change (2 ^ 104) with (4503599627370496 * 4503599627370496).
    change (2 ^ 106) with (9007199254740992 * 9007199254740992). nia. }
  split; [done|]. set (M := a * b) in *. clearbody M.
  split; [|apply Zdigits2_lt; lia]. destruct M as [|pm|pm]; [lia| |lia]. simpl.
  destruct (digits2_bounds pm) as [_ Hup].
  destruct (Z.le_gt_cases 105 (Zpos (digits2_pos pm))) as [|Hlt]; [done|].
  assert (2 ^ Zpos (digits2_pos pm) <= 2 ^ 104) by (apply Z.pow_le_mono_r; lia). lia.
Qed.

Lemma percentile_index_rank p len :
  p = 50 ∨ p = 95 ∨ p = 99 → 1 <= len < 2 ^ 32 → percentile_index p len = nearest_rank p len.
Proof.
  intros Hp Hlen. destruct (percent_mantissas p Hp) as (mx & Hdiv & Hmx & Hmp).
  destruct len as [|lp|lp]; [lia| |lia].
  pose proof (rank_bounds p (Zpos lp) ltac:(lia) ltac:(lia)) as HK.
  set (K := nearest_rank p (Zpos lp) + 1) in *.
  assert (Hceil : num_ceil (num_mul (num_div (num_of_Z p) (num_of_Z 100)) (num_of_Z (Zpos lp))) =
    Some K).
  { rewrite Hdiv, num_of_Z_pos by (unfold two53; lia).
    destruct (shifted_spec lp ltac:(unfold two53; lia)) as (Hs & Hv & Hd).
    destruct (digits2_bounds (shifted lp)) as [Hmy1 Hmy2]. rewrite Hd in Hmy1, Hmy2.
    assert (Hs21 : 21 <= mantissa_shift lp).
    { pose proof (Zdigits2_lt (Zpos lp) 32 ltac:(lia) ltac:(lia)) as H32. simpl in H32.
      unfold mantissa_shift. lia. }
    assert (Hs53 : mantissa_shift lp <= 52) by (unfold mantissa_shift; lia).
    set (s := mantissa_shift lp) in *. set (my := shifted lp) in *.
    unfold num_mul, SFmul. cbn [xorb]. rewrite Pos2Z.inj_mul.
    set (M := Zpos mx * Zpos my). set (e := -53 + - s).
    destruct (mantissa_product (Zpos mx) (Zpos my)) as [HM Hdig]; [done..|]. fold M in HM, Hdig.
    set (n := Zdigits2 M - 53).
    assert (Hn : n = fexp num_prec num_emax (Zdigits2 M + e) - e).
    { subst n e. unfold fexp, emin, num_prec, num_emax. lia. }
    assert (Hn53 : 52 <= n <= 53) by (subst n; lia).
    assert (Hpn : 0 < 2 ^ n) by (apply Z.pow_pos_nonneg; lia).
    assert (HnM : 2 ^ n <= M).
    { assert (2 ^ n <= 2 ^ 104) by (apply Z.pow_le_mono_r; lia). lia. }
    destruct (binary_round_aux_spec M e n ltac:(lia) Hn ltac:(lia) ltac:(subst e; lia) HnM)
      as (q & m' & e' & -> & Hnb & He').
    pose proof (product_between p (Zpos mx) (Zpos lp) s K n ltac:(subst K; lia) Hmp ltac:(lia)
      Hs21 ltac:(lia)) as Hprod.
    rewrite <- Hv in Hprod. fold M in Hprod.
    replace (53 + s) with ((53 + s - n) + n) in Hprod by lia.
    rewrite Z.pow_add_r, !Z.mul_assoc in Hprod by lia.
    pose proof (neighbour_between M n q _ _ _ Hpn Hnb Hprod) as Hq.
    replace (53 + s - n) with (- (e + n)) in Hq by (subst e; lia).
    destruct He' as [[-> Hm']|[-> Hm']].
    - apply num_ceil_spec; [subst e; lia|]. by rewrite Hm'.
    - apply num_ceil_spec; [subst e; lia|].
      replace (- (e + n)) with (Z.succ (- (e + n + 1))) in Hq by lia.
      rewrite Z.pow_succ_r in Hq by (subst e; lia). lia. }
  unfold percentile_index. rewrite Hceil. cbn [default from_option id]. subst K.
  assert (0 <= nearest_rank p (Zpos lp)); [|lia].
  unfold nearest_rank. assert (1 <= (p * Zpos lp + 99) / 100); [|lia].
  apply Z.div_le_lower_bound; lia.
Qed.

(** ** What a percentile is *)

#[export] Instance num_order_total : Total num_order.
Proof.
  intros x y. unfold num_order. destruct (num_lt y x) eqn:E; [right|by left].
  apply not_true_iff_false. intros Hxy.
  apply num_lt_spec in E as (_ & _ & H1), Hxy as (_ & _ & H2).
  destruct (num_key x) as [[? ?] ?], (num_key y) as [[? ?] ?]; unfold key_lt in *; lia.
Qed.

Lemma sorted_numbers l :
  Forall (λ x, is_nan x = false) l →
  StronglySorted (λ x y, num_le x y = true) (merge_sort num_order l).
Proof.
  intros Hn. assert (Hn' : Forall (λ x, is_nan x = false) (merge_sort num_order l))
    by (by rewrite merge_sort_Permutation).
  pose proof (Sorted_merge_sort num_order l) as Hs. revert Hs Hn'.
  generalize (merge_sort num_order l) as k. clear Hn l.
  induction 1 as [|x k Hk IH Hx]; intros Hn; [constructor|].
  apply Forall_cons in Hn as [Hnx Hn]. specialize (IH Hn). constructor; [done|].
  destruct Hx as [|y k Hxy]; [done|]. apply Forall_cons in Hn as [Hny _].
  assert (Hle : num_le x y = true) by (by apply num_lt_false_le).
  apply Forall_cons. split; [done|]. inversion IH as [|? ? _ Hall]; subst.
  eapply Forall_impl; [exact Hall|]. intros z Hz. by eapply num_le_trans.
Qed.

(** How many of the values satisfy a test. *)
Definition count (f : number → bool) (l : list number) : Z :=
  Z.of_nat (length (filter (λ x, f x = true) l)).

Lemma count_app f l k : count f (l ++ k) = count f l + count f k.
Proof. unfold count. rewrite filter_app, length_app. lia. Qed.

Lemma count_all f l : Forall (λ x, f x = true) l → count f l = Z.of_nat (length l).
Proof.
  intros H. unfold count. do 2 f_equal. induction H as [|x l Hx _ IH]; [done|].
  rewrite filter_cons, decide_True by done. by rewrite IH.
Qed.

Lemma count_none f l : Forall (λ x, f x = false) l → count f l = 0.
Proof.
  unfold count. induction 1 as [|x l Hx _ IH]; [done|]. rewrite filter_cons, decide_False; [done|].
  by rewrite Hx.
Qed.

Lemma count_le f l : 0 <= count f l <= Z.of_nat (length l).
Proof. unfold count. pose proof (length_filter (λ x, f x = true) l). lia. Qed.

Lemma count_Permutation f l k : l ≡ₚ k → count f l = count f k.
Proof. intros H. unfold count. by rewrite H. Qed.

Lemma sorted_split l i v :
  StronglySorted (λ x y, num_le x y = true) l → Forall (λ x, is_nan x = false) l →
  l !! i = Some v →
  Forall (λ x, num_le x v = true) (take (S i) l) ∧
  Forall (λ x, num_lt x v = false) (drop i l).
Proof.
  intros Hs. revert i. induction Hs as [|x l Hs IH Hall]; intros i Hn Hv; [done|].
  apply Forall_cons in Hn as [Hnx Hn]. destruct i as [|i].
  - injection Hv as ->. simpl. rewrite take_0. split.
    + apply Forall_cons. split; [by apply num_le_refl|done].
    + apply Forall_cons. split; [|eapply Forall_impl; [exact Hall|]].
      * pose proof (num_le_refl v Hnx) as H. apply num_le_spec in H as (_ & _ & H).
        apply not_true_iff_false. by intros (_ & _ & ?)%num_lt_spec.
      * intros y Hy. apply num_le_spec in Hy as (_ & _ & Hy).
        apply not_true_iff_false. by intros (_ & _ & ?)%num_lt_spec.
  - simpl in Hv. destruct (IH i Hn Hv) as [Ht Hd]. split; [|done]. cbn [take].
    apply Forall_cons. split; [|done]. rewrite Forall_forall in Hall. apply Hall.
    by eapply list_elem_of_lookup_2.
Qed.

Lemma percentile_spec values p :
  p = 50 ∨ p = 95 ∨ p = 99 → values ≠ [] → Z.of_nat (length values) < 2 ^ 32 →
  Forall (λ x, is_nan x = false) values →
  ∃ v, percentile (merge_sort num_order values) p = Some v ∧ v ∈ values ∧
    p * Z.of_nat (length values) <= 100 * count (λ x, num_le x v) values ∧
    100 * count (λ x, num_lt x v) values < p * Z.of_nat (length values).
Proof.
  intros Hp Hne Hlen Hnan. set (sorted := merge_sort num_order values).
  assert (Hperm : sorted ≡ₚ values) by apply merge_sort_Permutation.
  assert (Hl : length sorted = length values) by (by rewrite Hperm).
  assert (H1 : 1 <= Z.of_nat (length values)) by (destruct values; [done|simpl; lia]).
  assert (Hnans : Forall (λ x, is_nan x = false) sorted) by (by rewrite Hperm).
  pose proof (rank_bounds p (Z.of_nat (length values)) ltac:(lia) H1) as HK.
  unfold percentile. rewrite Hl, percentile_index_rank by (done || lia).
  set (r := nearest_rank p (Z.of_nat (length values))) in *.
  assert (Hr0 : 0 <= r) by lia. 
  destruct (sorted !! Z.to_nat r) as [v|] eqn:Ev.
  2:{ apply lookup_ge_None in Ev. exfalso. rewrite Hl in Ev. nia. }
  exists v. split; [done|]. split.
  { rewrite <- Hperm. by eapply list_elem_of_lookup_2. }
  destruct (sorted_split sorted _ v (sorted_numbers _ Hnan) Hnans Ev) as [Ht Hd].
  rewrite <- !(count_Permutation _ _ _ Hperm).
  assert (Hlt : (Z.to_nat r < length sorted)%nat) by (by eapply lookup_lt_Some).
  split.
  - rewrite <- (take_drop (S (Z.to_nat r)) sorted), count_app, (count_all _ _ Ht), length_take.
    pose proof (count_le (λ x, num_le x v) (drop (S (Z.to_nat r)) sorted)). lia.
  - rewrite <- (take_drop (Z.to_nat r) sorted), count_app, (count_none _ _ Hd).
    pose proof (count_le (λ x, num_lt x v) (take (Z.to_nat r) sorted)) as Hc.
    rewrite length_take in Hc. lia.
Qed.

(** [v] is a value such that at least [p] percent of the values are not above it and
    less than [p] percent are below it. *)
Definition is_percentile (p : Z) (values : list number) (v : number) : Prop :=
  v ∈ values ∧
  p * Z.of_nat (length values) <= 100 * count (λ x, num_le x v) values ∧
  100 * count (λ x, num_lt x v) values < p * Z.of_nat (length values).

(** The latency summary is what it says: of any non-empty list of up to [2 ^ 32]
    measured values it reports their number, their 50th, 95th and 99th percentiles by
    nearest rank (values that were measured, with at least that share of the values at
    or below them and less than that share below), and their maximum, each rounded to
    one decimal; the rounding of [p / 100 * length] never moves a rank. *)
Theorem stats_nearest_rank values :
  values ≠ [] → Z.of_nat (length values) < 2 ^ 32 → Forall (λ x, is_nan x = false) values →
  ∃ p50 p95 p99 biggest,
    stats values = Some {| st_count := length values; st_p50 := to_fixed1 p50;
      st_p95 := to_fixed1 p95; st_p99 := to_fixed1 p99; st_max := to_fixed1 biggest |} ∧
    is_percentile 50 values p50 ∧ is_percentile 95 values p95 ∧ is_percentile 99 values p99 ∧
    biggest ∈ values ∧ ∀ x, x ∈ values → num_le x biggest = true.
Proof.
  intros Hne Hlen Hnan.
  destruct (percentile_spec values 50) as (p50 & H50 & S50); [auto..|].
  destruct (percentile_spec values 95) as (p95 & H95 & S95); [auto..|].
  destruct (percentile_spec values 99) as (p99 & H99 & S99); [auto..|].
  assert (Hperm : merge_sort num_order values ≡ₚ values) by apply merge_sort_Permutation.
  destruct (last (merge_sort num_order values)) as [biggest|] eqn:Hb.
  2:{ apply last_None in Hb. rewrite Hb in Hperm. by apply Permutation_nil_l in Hperm. }
  exists p50, p95, p99, biggest. split.
  { unfold stats. destruct values as [|x l] eqn:E; [done|]. rewrite <- E in *.
    rewrite H50, H95, H99, Hb. cbn [mbind option_bind]. by rewrite Hperm. }
  split_and!; try done.
  - rewrite <- Hperm. by apply last_Some_elem_of.
  - intros x Hx. rewrite <- Hperm in Hx. apply last_Some in Hb as [k Hk].
    pose proof (sorted_numbers values Hnan) as Hs. rewrite Hk in Hs, Hx.
    apply elem_of_app in Hx as [Hx|Hx].
    + apply StronglySorted_app_1_elem_of with (x1 := x) (x2 := biggest) in Hs; [done|done|by left].
    + apply list_elem_of_singleton in Hx as ->. apply num_le_refl.
      rewrite Forall_forall in Hnan. apply Hnan. rewrite <- Hperm, Hk. apply elem_of_app. right. by left.
Qed.

Lemma stats_nearest_rank_witness :
  let values := num_of_Z <$> [30; 10; 20; 40] in
  ∃ p50 p95 p99 biggest,
    stats values = Some {| st_count := length values; st_p50 := to_fixed1 p50;
      st_p95 := to_fixed1 p95; st_p99 := to_fixed1 p99; st_max := to_fixed1 biggest |} ∧
    is_percentile 50 values p50 ∧ is_percentile 95 values p95 ∧ is_percentile 99 values p99 ∧
    biggest ∈ values ∧ ∀ x, x ∈ values → num_le x biggest = true.
Proof.
  apply (stats_nearest_rank (num_of_Z <$> [30; 10; 20; 40])); [done|done|].
  apply (bool_decide_unpack _). by vm_compute.
Defined.
