(* ===== verification/Environment.v ===== *)
(** The environment of a process, [src/src/config]: the schema it is validated against
    ([env.validation.ts], [config.constants.ts]), the readers of the configuration
    namespaces, the options of the two PostgreSQL clients ([typeorm.config.ts],
    [data-source.ts]), and what [AppModule] and [WorkerModule] load.

    Joi is the interface [Joi]: the conversion of a text to a number and the validation
    of an object of keys, with the laws its documentation states. A number that a
    reader parses is [None] when it is [NaN]. *)

From stdpp Require Import pretty.
From S2P Require Import Prelude Num NumZ Js Config NumText.

Local Open Scope Z_scope.

(** ** Constants *)

Definition NodeEnvironment : list string := ["development"; "test"; "production"].

Inductive EnvKey :=
| NodeEnv | Port
| PostgresHost | PostgresPort | PostgresUser | PostgresPassword | PostgresDb
| PostgresPoolSize | PostgresAcquireTimeoutMs | PostgresStatementTimeoutMs
| PostgresIdleTxnTimeoutMs | AreasPollIntervalMs
| RedisHost | RedisPort | RedisPassword | PresenceCacheTtlEmptyS | PresenceCacheTtlNonEmptyS
| RabbitMqHost | RabbitMqPort | RabbitMqUser | RabbitMqPassword
| WorkerPartitions | WorkerPrefetch.

#[export] Instance EnvKey_eq_dec : EqDecision EnvKey.
Proof. solve_decision. Defined.

Definition env_name (k : EnvKey) : string :=
  match k with
  | NodeEnv => "NODE_ENV"
  | Port => "PORT"
  | PostgresHost => "POSTGRES_HOST"
  | PostgresPort => "POSTGRES_PORT"
  | PostgresUser => "POSTGRES_USER"
  | PostgresPassword => "POSTGRES_PASSWORD"
  | PostgresDb => "POSTGRES_DB"
  | PostgresPoolSize => "POSTGRES_POOL_SIZE"
  | PostgresAcquireTimeoutMs => "POSTGRES_ACQUIRE_TIMEOUT_MS"
  | PostgresStatementTimeoutMs => "POSTGRES_STATEMENT_TIMEOUT_MS"
  | PostgresIdleTxnTimeoutMs => "POSTGRES_IDLE_TXN_TIMEOUT_MS"
  | AreasPollIntervalMs => "AREAS_POLL_INTERVAL_MS"
  | RedisHost => "REDIS_HOST"
  | RedisPort => "REDIS_PORT"
  | RedisPassword => "REDIS_PASSWORD"
  | PresenceCacheTtlEmptyS => "PRESENCE_CACHE_TTL_EMPTY_S"
  | PresenceCacheTtlNonEmptyS => "PRESENCE_CACHE_TTL_NONEMPTY_S"
  | RabbitMqHost => "RABBITMQ_HOST"
  | RabbitMqPort => "RABBITMQ_PORT"
  | RabbitMqUser => "RABBITMQ_USER"
  | RabbitMqPassword => "RABBITMQ_PASSWORD"
  | WorkerPartitions => "WORKER_PARTITIONS"
  | WorkerPrefetch => "WORKER_PREFETCH"
  end.

Definition DEFAULT_POOL_SIZE : Z := 10.
Definition DEFAULT_AREAS_POLL_INTERVAL_MS : Z := 30000.
Definition DEFAULT_PRESENCE_CACHE_TTL_EMPTY_S : Z := 300.
Definition DEFAULT_PRESENCE_CACHE_TTL_NONEMPTY_S : Z := 15.

(** ** The schema *)

Inductive JoiType := JoiString | JoiNumber.

Inductive JoiRule :=
| Valid (values : list string)
| Allow (value : string)
| Pattern (test : string → bool)
| PortNumber
| Integer
| Min (limit : Z)
| Max (limit : Z).

Inductive JoiPresence := Required | DefaultText (s : string) | DefaultNumber (z : Z).

Record JoiKey := { jk_type : JoiType; jk_rules : list JoiRule; jk_presence : JoiPresence }.

Definition string_key (rules : list JoiRule) (p : JoiPresence) : JoiKey :=
  {| jk_type := JoiString; jk_rules := rules; jk_presence := p |}.
Definition number_key (rules : list JoiRule) (p : JoiPresence) : JoiKey :=
  {| jk_type := JoiNumber; jk_rules := rules; jk_presence := p |}.

Definition envValidationSchema (k : EnvKey) : JoiKey :=
  match k with
  | NodeEnv => string_key [Valid NodeEnvironment] (DefaultText "development")
  | Port => number_key [PortNumber] (DefaultNumber 3000)
  | PostgresHost => string_key [] Required
  | PostgresPort => number_key [PortNumber] Required
  | PostgresUser => string_key [] Required
  | PostgresPassword => string_key [] Required
  | PostgresDb => string_key [] Required
  | PostgresPoolSize =>
      number_key [Integer; Min 1; Max 100] (DefaultNumber DEFAULT_POOL_SIZE)
  | PostgresAcquireTimeoutMs =>
      number_key [Integer; Min 100] (DefaultNumber DEFAULT_ACQUIRE_TIMEOUT_MS)
  | PostgresStatementTimeoutMs =>
      number_key [Integer; Min 100] (DefaultNumber DEFAULT_STATEMENT_TIMEOUT_MS)
  | PostgresIdleTxnTimeoutMs =>
      number_key [Integer; Min 100] (DefaultNumber DEFAULT_IDLE_TXN_TIMEOUT_MS)
  | AreasPollIntervalMs =>
      number_key [Integer; Min 250] (DefaultNumber DEFAULT_AREAS_POLL_INTERVAL_MS)
  | RedisHost => string_key [] Required
  | RedisPort => number_key [PortNumber] Required
  | RedisPassword => string_key [Allow ""] (DefaultText "")
  | PresenceCacheTtlEmptyS =>
      number_key [Integer; Min 1] (DefaultNumber DEFAULT_PRESENCE_CACHE_TTL_EMPTY_S)
  | PresenceCacheTtlNonEmptyS =>
      number_key [Integer; Min 1] (DefaultNumber DEFAULT_PRESENCE_CACHE_TTL_NONEMPTY_S)
  | RabbitMqHost => string_key [] Required
  | RabbitMqPort => number_key [PortNumber] Required
  | RabbitMqUser => string_key [] Required
  | RabbitMqPassword => string_key [] Required
  | WorkerPartitions => string_key [Pattern worker_partitions_pattern] (DefaultText "0-7")
  | WorkerPrefetch => number_key [Integer; Min 1; Max 1000] (DefaultNumber 16)
  end.

(** A validated value. *)
Inductive joi_value := JoiText (s : string) | JoiNum (n : number).

Definition validated : Type := EnvKey → joi_value.

Definition joi_integer (w : joi_value) : option Z :=
  match w with JoiNum n => num_to_Z n | JoiText _ => None end.

(** The function given to [.custom]: it throws on the wrong ordering (ADR 0009); the
    keys' rules have made the three values integers. *)
Definition timeout_order (v : validated) : exn + unit :=
  match joi_integer (v PostgresAcquireTimeoutMs), joi_integer (v PostgresStatementTimeoutMs),
        joi_integer (v PostgresIdleTxnTimeoutMs) with
  | Some acquire, Some statement, Some idleTxn => check_timeout_order acquire statement idleTxn
  | _, _, _ => inr tt
  end.

(** ** Joi *)

(** What the rules of a key mean for a text and for a number. *)
Definition text_rule_ok (s : string) (r : JoiRule) : bool :=
  match r with
  | Valid values => bool_decide (s ∈ values)
  | Pattern test => test s
  | _ => true
  end.
Definition allows_empty (rules : list JoiRule) : bool :=
  existsb (λ r, match r with Allow EmptyString => true | _ => false end) rules.
Definition text_ok (rules : list JoiRule) (s : string) : bool :=
  (match s with EmptyString => allows_empty rules | _ => true end) &&
  forallb (text_rule_ok s) rules.

Definition number_rule_ok (n : number) (r : JoiRule) : bool :=
  match r with
  | Integer => num_isInteger n
  | Min z => num_le (num_of_Z z) n
  | Max z => num_le n (num_of_Z z)
  | PortNumber =>
      num_isInteger n && num_le (num_of_Z 0) n && num_le n (num_of_Z 65535)
  | _ => true
  end.

(** The library: the conversion of a text to a number, and [schema.validate]. *)
Class Joi := {
  joi_to_number : string → option number;
  joi_validate : (EnvKey → JoiKey) → (validated → exn + unit) → env → exn + validated;
}.

(** What a validated value of a key is, given the variable. *)
Inductive joi_ok `{Joi} (k : JoiKey) : option string → joi_value → Prop :=
| joi_default_text s : jk_presence k = DefaultText s → joi_ok k None (JoiText s)
| joi_default_number z : jk_presence k = DefaultNumber z → joi_ok k None (JoiNum (num_of_Z z))
| joi_text s : jk_type k = JoiString → text_ok (jk_rules k) s = true →
    joi_ok k (Some s) (JoiText s)
| joi_number s n : jk_type k = JoiNumber → joi_to_number s = Some n →
    forallb (number_rule_ok n) (jk_rules k) = true → joi_ok k (Some s) (JoiNum n).

(** An object is valid when every key is, and the custom function does not throw; a
    text of digits is the number it says, unless it is beyond the safe integers. *)
Class JoiLaws `{Joi} : Prop := {
  joi_sound schema custom e v :
    joi_validate schema custom e = inr v →
    (∀ k, joi_ok (schema k) (e (env_name k)) (v k)) ∧ custom v = inr tt;
  joi_complete schema custom e v :
    (∀ k, joi_ok (schema k) (e (env_name k)) (v k)) →
    ∃ v', (∀ k, v' k = v k) ∧
      (custom v' = inr tt → joi_validate schema custom e = inr v');
  joi_plain s :
    plain_number s = true →
    joi_to_number s = if decimal 0 s <? two53 then Some (num_of_Z (decimal 0 s)) else None;
}.

(** ** The readers *)

Section readers.
Variable e : env.

(** [parseInt(process.env[key] ?? String(fallback), 10)]. *)
Definition intFromEnv (key : EnvKey) (fallback : Z) : option Z :=
  parseInt (default (pretty fallback) (e (env_name key))).

Record AppConfig := { app_environment : string; app_port : option Z }.

Definition appConfig : exn + AppConfig :=
  inr {| app_environment := default "development" (e (env_name NodeEnv));
         app_port := intFromEnv Port 3000 |}.

Record AreasConfig := { pollIntervalMs : option Z }.

Definition areasConfig : exn + AreasConfig :=
  inr {| pollIntervalMs := intFromEnv AreasPollIntervalMs DEFAULT_AREAS_POLL_INTERVAL_MS |}.

Record DatabaseConfig := {
  db_host : string;
  db_port : option Z;
  db_username : string;
  db_password : string;
  db_database : string;
  db_poolSize : option Z;
  db_acquireTimeoutMs : option Z;
  db_statementTimeoutMs : option Z;
  db_idleTxnTimeoutMs : option Z;
}.

Definition databaseConfig : exn + DatabaseConfig :=
  host ← requireEnv e (env_name PostgresHost);
  port ← requireEnv e (env_name PostgresPort);
  username ← requireEnv e (env_name PostgresUser);
  password ← requireEnv e (env_name PostgresPassword);
  database ← requireEnv e (env_name PostgresDb);
  inr {| db_host := host; db_port := parseInt port; db_username := username;
         db_password := password; db_database := database;
         db_poolSize := intFromEnv PostgresPoolSize DEFAULT_POOL_SIZE;
         db_acquireTimeoutMs :=
           intFromEnv PostgresAcquireTimeoutMs DEFAULT_ACQUIRE_TIMEOUT_MS;
         db_statementTimeoutMs :=
           intFromEnv PostgresStatementTimeoutMs DEFAULT_STATEMENT_TIMEOUT_MS;
         db_idleTxnTimeoutMs :=
           intFromEnv PostgresIdleTxnTimeoutMs DEFAULT_IDLE_TXN_TIMEOUT_MS |}.

Record MqConfig := {
  mq_host : string; mq_port : option Z; mq_user : string; mq_password : string;
}.

Definition mqConfig : exn + MqConfig :=
  host ← requireEnv e (env_name RabbitMqHost);
  port ← requireEnv e (env_name RabbitMqPort);
  user ← requireEnv e (env_name RabbitMqUser);
  password ← requireEnv e (env_name RabbitMqPassword);
  inr {| mq_host := host; mq_port := parseInt port; mq_user := user; mq_password := password |}.

(** The whole namespace; the presence cache reads its two times to live. *)
Record RedisSettings := {
  redis_host : string;
  redis_port : option Z;
  redis_password : string;
  redis_presenceTtlEmptyS : option Z;
  redis_presenceTtlNonEmptyS : option Z;
}.

Definition redisConfig : exn + RedisSettings :=
  host ← requireEnv e (env_name RedisHost);
  port ← requireEnv e (env_name RedisPort);
  inr {| redis_host := host; redis_port := parseInt port;
         redis_password := default "" (e (env_name RedisPassword));
         redis_presenceTtlEmptyS :=
           intFromEnv PresenceCacheTtlEmptyS DEFAULT_PRESENCE_CACHE_TTL_EMPTY_S;
         redis_presenceTtlNonEmptyS :=
           intFromEnv PresenceCacheTtlNonEmptyS DEFAULT_PRESENCE_CACHE_TTL_NONEMPTY_S |}.

(** ** The clients of PostgreSQL *)

Record PoolBounds := {
  connectionTimeoutMillis : option Z;
  statement_timeout : option Z;
  idle_in_transaction_session_timeout : option Z;
}.

(** The options of a client: [extra] and [poolSize] are absent from the migration's. *)
Record PostgresOptions := {
  po_host : string;
  po_port : option Z;
  po_username : string;
  po_password : string;
  po_database : string;
  po_synchronize : bool;
  po_migrationsRun : bool;
  po_poolSize : option (option Z);
  po_extra : option PoolBounds;
}.

Definition typeOrmModuleFactory (database : DatabaseConfig) : PostgresOptions :=
  {| po_host := db_host database; po_port := db_port database;
     po_username := db_username database; po_password := db_password database;
     po_database := db_database database; po_synchronize := false; po_migrationsRun := false;
     po_poolSize := Some (db_poolSize database);
     po_extra := Some
       {| connectionTimeoutMillis := db_acquireTimeoutMs database;
          statement_timeout := db_statementTimeoutMs database;
          idle_in_transaction_session_timeout := db_idleTxnTimeoutMs database |} |}.

(** The options of the migration CLI's [DataSource]. *)
Definition cli_data_source : exn + PostgresOptions :=
  host ← requireEnv e (env_name PostgresHost);
  port ← requireEnv e (env_name PostgresPort);
  username ← requireEnv e (env_name PostgresUser);
  password ← requireEnv e (env_name PostgresPassword);
  database ← requireEnv e (env_name PostgresDb);
  inr {| po_host := host; po_port := parseInt port; po_username := username;
         po_password := password; po_database := database; po_synchronize := false;
         po_migrationsRun := false; po_poolSize := None; po_extra := None |}.

(** ** What the two modules load *)

Record ApiConfigs := {
  c_app : AppConfig;
  c_areas : AreasConfig;
  c_database : DatabaseConfig;
  c_mq : MqConfig;
  c_redis : RedisSettings;
}.

(** [load: [appConfig, areasConfig, databaseConfig, mqConfig, redisConfig]]. *)
Definition load_api : exn + ApiConfigs :=
  app ← appConfig;
  areas ← areasConfig;
  database ← databaseConfig;
  mq ← mqConfig;
  redis ← redisConfig;
  inr {| c_app := app; c_areas := areas; c_database := database; c_mq := mq; c_redis := redis |}.

(** The worker loads [workerConfig] besides; [fuel] is that of its partition loops. *)
Definition load_worker (fuel : nat) : option (exn + (ApiConfigs * WorkerConfig)) :=
  match load_api with
  | inl err => Some (inl err)
  | inr c =>
      match workerConfig fuel e with
      | None => None
      | Some (inl err) => Some (inl err)
      | Some (inr w) => Some (inr (c, w))
      end
  end.
End readers.

(** ** Vocabulary *)

(** The numeric variables that are set are written in plain digits. *)
Definition plain_numbers (e : env) : Prop :=
  ∀ k s, jk_type (envValidationSchema k) = JoiNumber → e (env_name k) = Some s →
    plain_number s = true.

(** The environment the readers see: the one that was validated, where variables that
    were not set may have been set to their default. *)
Definition default_text (k : JoiKey) : option string :=
  match jk_presence k with
  | Required => None
  | DefaultText s => Some s
  | DefaultNumber z => Some (pretty z)
  end.

Definition seen_by_readers (e e' : env) : Prop :=
  ∀ k, e' (env_name k) = e (env_name k) ∨
       e (env_name k) = None ∧ e' (env_name k) = default_text (envValidationSchema k).

(** A parsed number, at least [lo] and, when there is a limit, at most [hi]. *)
Definition within (lo : Z) (hi : option Z) (o : option Z) : Prop :=
  ∃ z, o = Some z ∧ lo <= z ∧ match hi with Some h => z <= h | None => True end.

(** The bounds of ADR 0009 on the pooled connections, in their order. *)
Definition bounds_ordered (b : PoolBounds) : Prop :=
  ∃ acquire statement idleTxn,
    connectionTimeoutMillis b = Some acquire ∧ statement_timeout b = Some statement ∧
    idle_in_transaction_session_timeout b = Some idleTxn ∧
    100 <= acquire ∧ acquire < statement ∧ statement < idleTxn.

(** A configuration in which every number is one, and lies in its range. *)
Definition api_in_range (c : ApiConfigs) : Prop :=
  app_environment (c_app c) ∈ NodeEnvironment ∧
  within 0 (Some 65535) (app_port (c_app c)) ∧
  within 250 None (pollIntervalMs (c_areas c)) ∧
  within 0 (Some 65535) (db_port (c_database c)) ∧
  within 1 (Some 100) (db_poolSize (c_database c)) ∧
  (∃ b, po_extra (typeOrmModuleFactory (c_database c)) = Some b ∧ bounds_ordered b) ∧
  within 0 (Some 65535) (mq_port (c_mq c)) ∧
  within 0 (Some 65535) (redis_port (c_redis c)) ∧
  within 1 None (redis_presenceTtlEmptyS (c_redis c)) ∧
  within 1 None (redis_presenceTtlNonEmptyS (c_redis c)).

(** ** Plain numbers *)

Lemma parse_int_digits_safe s : 0 <= decimal 0 s < two53 → parse_int_digits s = decimal 0 s.
Proof.
  intros Hd. unfold parse_int_digits, infinity_Z.
  assert (two53 <= 2 ^ 1024 - 2 ^ 970) by (by apply Z.leb_le; vm_compute).
  rewrite (proj2 (Z.leb_gt _ _)) by lia. apply round53_safe. unfold two53 in *. lia.
Qed.

Lemma parseInt_plain s :
  plain_number s = true → decimal 0 s < two53 →
  parseInt s = Some (decimal 0 s) ∧ 0 <= decimal 0 s.
Proof.
  destruct s as [|c s]; [done|]. intros Hp Hlt. change (all_digits (String c s) = true) in Hp.
  assert (Hnn : 0 <= decimal 0 (String c s)) by (by apply decimal_nonneg).
  split; [|done]. pose proof Hp as [Hc _]%andb_true_iff.
  pose proof (digit_not_space c Hc) as Hsp. unfold is_digit in Hc.
  apply andb_true_iff in Hc as [Hc1%Z.leb_le Hc2%Z.leb_le].
  unfold parseInt. cbn [trim_left]. rewrite Hsp.
  rewrite (proj2 (Z.eqb_neq _ _)) by lia. rewrite (proj2 (Z.eqb_neq _ _)) by lia.
  rewrite (span_digits_all _ Hp). cbn [fst]. by rewrite Z.mul_1_l, parse_int_digits_safe by lia.
Qed.

(** ** Validated keys *)

Section validated_keys.
Context {joi : Joi} {joi_laws : JoiLaws}.

(** The number of a variable that is set: what Joi checked is what a reader parses. *)
Lemma plain_value k s w :
  joi_ok k (Some s) w → jk_type k = JoiNumber → plain_number s = true →
  ∃ z, w = JoiNum (num_of_Z z) ∧ safe_integer z ∧ parseInt s = Some z ∧
    forallb (number_rule_ok (num_of_Z z)) (jk_rules k) = true.
Proof.
  intros Hok Ht Hp. inversion Hok as [| |? Ht' _ |? n _ Hn Hr]; subst; [congruence|].
  rewrite joi_plain in Hn by done. destruct (Z.ltb_spec (decimal 0 s) two53) as [Hlt|]; [|done].
  injection Hn as <-. destruct (parseInt_plain s Hp Hlt) as [Hs Hnn].
  exists (decimal 0 s). split_and!; [done| |done|done]. unfold safe_integer, two53 in *. lia.
Qed.

(** A numeric variable with a default, read with the same fallback. *)
Lemma read_with_default rules d o o' w :
  joi_ok (number_key rules (DefaultNumber d)) o w →
  (∀ s, o = Some s → plain_number s = true) →
  o' = o ∨ o = None ∧ o' = Some (pretty d) →
  parseInt (pretty d) = Some d ∧ bool_decide (safe_integer d) = true ∧
    forallb (number_rule_ok (num_of_Z d)) rules = true →
  ∃ z, w = JoiNum (num_of_Z z) ∧ safe_integer z ∧ parseInt (default (pretty d) o') = Some z ∧
    forallb (number_rule_ok (num_of_Z z)) rules = true.
Proof.
  intros Hok Hp Ho' (Hd & Hs%bool_decide_eq_true & Hr). destruct o as [s|].
  - destruct Ho' as [->|[? _]]; [|done]. by apply (plain_value _ _ _ Hok), Hp.
  - exists d. split_and!; [|done| |done].
    + inversion Hok as [? E|? E| |]; by simplify_eq/=.
    + by destruct Ho' as [-> | [_ ->]].
Qed.

(** A numeric variable that is required. *)
Lemma read_required rules o o' w :
  joi_ok (number_key rules Required) o w →
  (∀ s, o = Some s → plain_number s = true) → o' = o ∨ o = None ∧ o' = None →
  ∃ s z, o' = Some s ∧ s ≠ EmptyString ∧ parseInt s = Some z ∧ safe_integer z ∧
    forallb (number_rule_ok (num_of_Z z)) rules = true.
Proof.
  intros Hok Hp Ho'. assert (o' = o) as -> by naive_solver. destruct o as [s|].
  - destruct (plain_value _ _ _ Hok eq_refl (Hp s eq_refl)) as (z & _ & Hz & Hs & Hr).
    exists s, z. split_and!; [done| |done..]. intros ->. by specialize (Hp _ eq_refl).
  - inversion Hok; by simplify_eq/=.
Qed.

(** A text that is required is there and is not empty. *)
Lemma text_required rules o o' w :
  joi_ok (string_key rules Required) o w → allows_empty rules = false →
  o' = o ∨ o = None ∧ o' = None → ∃ s, o' = Some s ∧ s ≠ EmptyString.
Proof.
  intros Hok Ha Ho'. assert (o' = o) as -> by naive_solver. destruct o as [s|].
  - exists s. split; [done|]. intros ->. inversion Hok as [| |? _ Hs|]; subst; [|done].
    unfold text_ok in Hs. cbn [jk_rules string_key] in Hs. by rewrite Ha in Hs.
  - inversion Hok; by simplify_eq/=.
Qed.

(** The rules, on integers. *)
Lemma rule_min z m : safe_integer z → safe_integer m →
  number_rule_ok (num_of_Z z) (Min m) = true → m <= z.
Proof. intros Hz Hm. simpl. rewrite num_le_of_Z by done. apply Z.leb_le. Qed.

Lemma rule_max z m : safe_integer z → safe_integer m →
  number_rule_ok (num_of_Z z) (Max m) = true → z <= m.
Proof. intros Hz Hm. simpl. rewrite num_le_of_Z by done. apply Z.leb_le. Qed.

Lemma rule_port z : safe_integer z →
  number_rule_ok (num_of_Z z) PortNumber = true → 0 <= z <= 65535.
Proof.
  intros Hz. cbn [number_rule_ok]. rewrite !num_le_of_Z by (done || by apply (bool_decide_unpack _); vm_compute).
  rewrite !andb_true_iff, !Z.leb_le. tauto.
Qed.

Lemma requireEnv_some e k s :
  e (env_name k) = Some s → s ≠ EmptyString → requireEnv e (env_name k) = inr s.
Proof. intros He Hs. unfold requireEnv. rewrite He. by destruct s. Qed.

End validated_keys.

(** Consequences of the rules of one key, as bounds of its integer. *)
Ltac use_rules Hz Hr :=
  cbn [forallb jk_rules number_key] in Hr; rewrite ?andb_true_iff in Hr;
  repeat match type of Hr with
  | _ ∧ _ => let Hx := fresh "Hrule" in destruct Hr as [Hx Hr]
  end;
  repeat match goal with
  | Hx : number_rule_ok _ (Min ?m) = true |- _ =>
      apply (rule_min _ m Hz) in Hx; [|by apply (bool_decide_unpack _); vm_compute]
  | Hx : number_rule_ok _ (Max ?m) = true |- _ =>
      apply (rule_max _ m Hz) in Hx; [|by apply (bool_decide_unpack _); vm_compute]
  | Hx : number_rule_ok _ PortNumber = true |- _ => apply (rule_port _ Hz) in Hx
  end.

Section boots.
Context {joi : Joi} {joi_laws : JoiLaws}.
Variables (e e' : env) (v : validated).
Hypothesis Hok : ∀ k, joi_ok (envValidationSchema k) (e (env_name k)) (v k).
Hypothesis Hplain : plain_numbers e.
Hypothesis Hseen : seen_by_readers e e'.

Lemma numeric_default key rules d :
  envValidationSchema key = number_key rules (DefaultNumber d) →
  parseInt (pretty d) = Some d ∧ bool_decide (safe_integer d) = true ∧
    forallb (number_rule_ok (num_of_Z d)) rules = true →
  ∃ z, v key = JoiNum (num_of_Z z) ∧ safe_integer z ∧ intFromEnv e' key d = Some z ∧
    forallb (number_rule_ok (num_of_Z z)) rules = true.
Proof.
  intros Hkey Hd. pose proof (Hok key) as Hk. pose proof (Hseen key) as Hs. rewrite Hkey in Hk, Hs.
  apply (read_with_default rules d (e (env_name key))); [done| |done|done].
  intros s. apply (Hplain key). by rewrite Hkey.
Qed.

Lemma numeric_required key rules :
  envValidationSchema key = number_key rules Required →
  ∃ s z, requireEnv e' (env_name key) = inr s ∧ parseInt s = Some z ∧ safe_integer z ∧
    forallb (number_rule_ok (num_of_Z z)) rules = true.
Proof.
  intros Hkey. pose proof (Hok key) as Hk. pose proof (Hseen key) as Hs. rewrite Hkey in Hk, Hs.
  destruct (read_required rules (e (env_name key)) (e' (env_name key)) (v key))
    as (s & z & Hs' & Hne & ?); [done| |done|].
  { intros s. apply (Hplain key). by rewrite Hkey. }
  exists s, z. split; [by apply requireEnv_some|done].
Qed.

Lemma textual_required key :
  envValidationSchema key = string_key [] Required →
  ∃ s, requireEnv e' (env_name key) = inr s.
Proof.
  intros Hkey. pose proof (Hok key) as Hk. pose proof (Hseen key) as Hs. rewrite Hkey in Hk, Hs.
  destruct (text_required [] (e (env_name key)) (e' (env_name key)) (v key)) as (s & Hs' & Hne);
    [done..|].
  exists s. by apply requireEnv_some.
Qed.
End boots.

(** ** The API *)

Section loading.
Context {joi : Joi} {joi_laws : JoiLaws}.
Variables (e e' : env) (v : validated).
Hypothesis Hvalid : joi_validate envValidationSchema timeout_order e = inr v.
Hypothesis Hplain : plain_numbers e.
Hypothesis Hseen : seen_by_readers e e'.

Ltac numeric key d z Hv Hz Hi Hr :=
  destruct (numeric_default e e' v (proj1 (joi_sound _ _ _ _ Hvalid)) Hplain Hseen key _ d eq_refl)
    as (z & Hv & Hz & Hi & Hr); [vm_compute; done|].

(** The three timeouts, as the readers see them, are those the custom check compared. *)
Lemma timeouts_read :
  ∃ acquire statement idleTxn,
    intFromEnv e' PostgresAcquireTimeoutMs DEFAULT_ACQUIRE_TIMEOUT_MS = Some acquire ∧
    intFromEnv e' PostgresStatementTimeoutMs DEFAULT_STATEMENT_TIMEOUT_MS = Some statement ∧
    intFromEnv e' PostgresIdleTxnTimeoutMs DEFAULT_IDLE_TXN_TIMEOUT_MS = Some idleTxn ∧
    100 <= acquire ∧ acquire < statement ∧ statement < idleTxn.
Proof.
  numeric PostgresAcquireTimeoutMs DEFAULT_ACQUIRE_TIMEOUT_MS a Ha Hza Hia Hra.
  numeric PostgresStatementTimeoutMs DEFAULT_STATEMENT_TIMEOUT_MS s Hs Hzs His Hrs.
  numeric PostgresIdleTxnTimeoutMs DEFAULT_IDLE_TXN_TIMEOUT_MS i Hi Hzi Hii Hri.
  use_rules Hza Hra. exists a, s, i. split_and!; [done..|lia| |];
    destruct (joi_sound _ _ _ _ Hvalid) as [_ Hc]; unfold timeout_order in Hc;
    rewrite Ha, Hs, Hi in Hc; cbn [joi_integer] in Hc; rewrite !num_to_Z_of_Z in Hc by done;
    unfold check_timeout_order in Hc; destruct (Z.leb_spec s a), (Z.leb_spec i s); done || lia.
Qed.

Lemma environment_read :
  app_environment {| app_environment := default "development" (e' (env_name NodeEnv));
                     app_port := None |} ∈ NodeEnvironment.
Proof.
  cbn [app_environment]. pose proof (proj1 (joi_sound _ _ _ _ Hvalid) NodeEnv) as Hk.
  destruct (Hseen NodeEnv) as [-> | [_ ->]]; [|by left].
  destruct (e (env_name NodeEnv)) as [s|]; [|by left]. simpl.
  inversion Hk as [| |? _ Hs|? ? Ht]; subst; [|done].
  unfold text_ok in Hs. simpl in Hs. rewrite !andb_true_iff, bool_decide_eq_true in Hs. tauto.
Qed.

(** Everything loads, and every number lies in its range. *)
Lemma validated_environment_boots_api : ∃ c, load_api e' = inr c ∧ api_in_range c.
Proof.
  pose proof (joi_sound _ _ _ _ Hvalid) as [Hok _].
  destruct timeouts_read as (a & s & i & Ha & Hs & Hi & Hle & Has & Hsi).
  pose proof environment_read as Henv.
  numeric Port 3000 port Hv1 Hz1 Hi1 Hr1. use_rules Hz1 Hr1.
  numeric AreasPollIntervalMs DEFAULT_AREAS_POLL_INTERVAL_MS poll Hv2 Hz2 Hi2 Hr2.
  use_rules Hz2 Hr2.
  numeric PostgresPoolSize DEFAULT_POOL_SIZE pool Hv3 Hz3 Hi3 Hr3. use_rules Hz3 Hr3.
  numeric PresenceCacheTtlEmptyS DEFAULT_PRESENCE_CACHE_TTL_EMPTY_S t1 Hv4 Hz4 Hi4 Hr4.
  use_rules Hz4 Hr4.
  numeric PresenceCacheTtlNonEmptyS DEFAULT_PRESENCE_CACHE_TTL_NONEMPTY_S t2 Hv5 Hz5 Hi5 Hr5.
  use_rules Hz5 Hr5.
  destruct (numeric_required e e' v Hok Hplain Hseen PostgresPort _ eq_refl)
    as (sp & p & Hsp & Hp & Hzp & Hrp). use_rules Hzp Hrp.
  destruct (numeric_required e e' v Hok Hplain Hseen RedisPort _ eq_refl)
    as (sr & r & Hsr & Hr & Hzr & Hrr). use_rules Hzr Hrr.
  destruct (numeric_required e e' v Hok Hplain Hseen RabbitMqPort _ eq_refl)
    as (sm & m & Hsm & Hm & Hzm & Hrm). use_rules Hzm Hrm.
  destruct (textual_required e e' v Hok Hseen PostgresHost eq_refl) as [x1 E1].
  destruct (textual_required e e' v Hok Hseen PostgresUser eq_refl) as [x2 E2].
  destruct (textual_required e e' v Hok Hseen PostgresPassword eq_refl) as [x3 E3].
  destruct (textual_required e e' v Hok Hseen PostgresDb eq_refl) as [x4 E4].
  destruct (textual_required e e' v Hok Hseen RedisHost eq_refl) as [x5 E5].
  destruct (textual_required e e' v Hok Hseen RabbitMqHost eq_refl) as [x6 E6].
  destruct (textual_required e e' v Hok Hseen RabbitMqUser eq_refl) as [x7 E7].
  destruct (textual_required e e' v Hok Hseen RabbitMqPassword eq_refl) as [x8 E8].
  unfold load_api, appConfig, areasConfig, databaseConfig, mqConfig, redisConfig.
  rewrite E1, E2, E3, E4, E5, E6, E7, E8, Hsp, Hsr, Hsm.
  cbn [mbind exn_mbind]. eexists. split; [done|].
  unfold api_in_range, within, bounds_ordered. cbn.
  split_and!; try done; try (eexists; split_and!; [eassumption|lia|try lia; done]).
  eexists. split; [done|]. exists a, s, i. done.
Qed.

(** C31. A validated environment boots: when the numbers are written in plain digits, every
    reader of the API succeeds, no configuration number is NaN, every one lies in the
    range its rule declares, and the pooled connections carry the three bounds of
    ADR 0009 in their order, while the migration client carries none. *)
Theorem validated_environment_boots :
  ∃ c o, load_api e' = inr c ∧ api_in_range c ∧ cli_data_source e' = inr o ∧ po_extra o = None.
Proof.
  destruct validated_environment_boots_api as (c & Hc & Hrange). exists c.
  assert (Hd : ∃ d, databaseConfig e' = inr d).
  { unfold load_api, appConfig, areasConfig in Hc. cbn [mbind exn_mbind] in Hc.
    destruct (databaseConfig e') as [|d]; [done|by exists d]. }
  destruct Hd as [d Hd]. unfold cli_data_source, databaseConfig in *.
  destruct (requireEnv e' (env_name PostgresHost)); [done|].
  destruct (requireEnv e' (env_name PostgresPort)); [done|].
  destruct (requireEnv e' (env_name PostgresUser)); [done|].
  destruct (requireEnv e' (env_name PostgresPassword)); [done|].
  destruct (requireEnv e' (env_name PostgresDb)); [done|].
  eexists. split_and!; [exact Hc|done|reflexivity|done].
Qed.

(** ** The worker *)

(** The partition specification the worker reads. *)
Definition read_partitions : string := default "0-7" (e' (env_name WorkerPartitions)).

Lemma partitions_pattern : worker_partitions_pattern read_partitions = true.
Proof.
  unfold read_partitions. pose proof (proj1 (joi_sound _ _ _ _ Hvalid) WorkerPartitions) as Hk.
  destruct (Hseen WorkerPartitions) as [-> | [_ ->]]; [|by vm_compute].
  destruct (e (env_name WorkerPartitions)) as [s|]; [|by vm_compute]. cbn [default from_option id].
  inversion Hk as [| |? _ Hs|? ? Ht]; subst; [|done].
  unfold text_ok in Hs. cbn [envValidationSchema string_key jk_rules forallb] in Hs.
  rewrite !andb_true_iff in Hs. tauto.
Qed.

(** A validated worker starts or says why not: when no partition number reaches
    [2 ^ 53] and the fuel exceeds the longest segment, loading the configuration ends; it
    ends with exactly the partitions that the specification covers, ascending, and a
    prefetch between 1 and 1000, or with the error of a range that ends before it
    starts, the one mistake the schema's pattern lets pass. *)
Theorem validated_worker_boots fuel :
  (∀ part from to, part ∈ split_commas read_partitions → segment_bounds part = inr (from, to) →
     to < two53 ∧ (Z.to_nat (to + 1 - from) < fuel)%nat) →
  (∃ part, part ∈ split_commas read_partitions ∧
     load_worker e' fuel = Some (inl (invalid_range part))) ∨
  (∃ bs c w, spec_bounds (split_commas read_partitions) = inr bs ∧
     load_worker e' fuel = Some (inr (c, w)) ∧ api_in_range c ∧
     within 1 (Some 1000) (wc_prefetch w) ∧ StronglySorted Z.lt (wc_partitions w) ∧
     ∀ x, x ∈ wc_partitions w ↔ covers bs x).
Proof.
  intros Hall. destruct validated_environment_boots_api as (c & Hc & Hrange).
  assert (Hall' : ∀ part from to, part ∈ split_commas read_partitions →
    segment_bounds part = inr (from, to) →
    0 ≤ from ∧ to < two53 ∧ (Z.to_nat (to + 1 - from) < fuel)%nat).
  { intros part from to Hp Hb. split; [by eapply segment_bounds_nonneg|by eapply Hall]. }
  unfold load_worker, workerConfig. rewrite Hc.
  fold (env_name WorkerPartitions). fold read_partitions.
  destruct (spec_bounds (split_commas read_partitions)) as [err|bs] eqn:Hb.
  - left. destruct (spec_bounds_error _ _ Hb) as (part & Hp & He). exists part. split; [done|].
    destruct (validated_spec_parses _ part partitions_pattern Hp) as (? & ? & _ & [Hi|[b Hi]]);
      [|congruence].
    unfold parsePartitionSpec.
    rewrite (add_segments_error fuel _ _ [] Hb (NoDup_nil_2) Hall'). congruence.
  - right. destruct (partitions_exact fuel read_partitions bs Hb) as (ps & -> & Hsort & Hcov).
    { intros from to (part & Hp & Hs)%(spec_bounds_elem _ _ _ Hb). by eapply Hall'. }
    numeric WorkerPrefetch 16 z Hv Hz Hi Hr. use_rules Hz Hr.
    exists bs. do 2 eexists. split_and!; [done|done|done| |done|done].
    exists z. cbn [wc_prefetch]. split_and!; [exact Hi|lia|lia].
Qed.
End loading.

(** ** Where the ordering of the timeouts is lost *)

(** An environment given by its variables. *)
Definition env_of (variables : list (EnvKey * string)) : env :=
  λ name, snd <$> List.find (λ kv, bool_decide (env_name kv.1 = name)) variables.

Definition local_variables : list (EnvKey * string) :=
  [(PostgresHost, "localhost"); (PostgresPort, "5433"); (PostgresUser, "geofence");
   (PostgresPassword, "geofence"); (PostgresDb, "geofence"); (RedisHost, "localhost");
   (RedisPort, "6379"); (RabbitMqHost, "localhost"); (RabbitMqPort, "5672");
   (RabbitMqUser, "geofence"); (RabbitMqPassword, "geofence")]%string.

(** The variables of a local set-up, and a statement timeout. *)
Definition local_env (statement : string) : env :=
  env_of ((PostgresStatementTimeoutMs, statement) :: local_variables).

(** The schema and the readers do not read a number alike: Joi takes the text [9e3]
    for 9000, which is well ordered between the default bounds, and the reader's
    [parseInt] stops at the letter, so that the process boots with a statement timeout
    of 9 milliseconds, below the 2000 of acquiring a connection. *)
Theorem exponent_misorders_timeouts {joi : Joi} {joi_laws : JoiLaws} :
  joi_to_number "9e3" = Some (num_of_Z 9000) →
  (∃ v, joi_validate envValidationSchema timeout_order (local_env "9e3") = inr v) ∧
  ∃ c b, load_api (local_env "9e3") = inr c ∧
    po_extra (typeOrmModuleFactory (c_database c)) = Some b ∧
    connectionTimeoutMillis b = Some 2000 ∧ statement_timeout b = Some 9 ∧ ¬ bounds_ordered b.
Proof.
  intros He. split.
  - set (v := λ k, match local_env "9e3" (env_name k) with
      | None => match jk_presence (envValidationSchema k) with
                | DefaultNumber z => JoiNum (num_of_Z z)
                | DefaultText s => JoiText s
                | Required => JoiText "" end
      | Some s => match jk_type (envValidationSchema k) with
                  | JoiString => JoiText s
                  | JoiNumber => JoiNum (default NaN (joi_to_number s)) end
      end).
    destruct (joi_complete envValidationSchema timeout_order (local_env "9e3") v)
      as (v' & Hv' & Hval).
    { assert (H1 : joi_to_number "5433" = Some (num_of_Z 5433)) by (by rewrite joi_plain).
      assert (H2 : joi_to_number "6379" = Some (num_of_Z 6379)) by (by rewrite joi_plain).
      assert (H3 : joi_to_number "5672" = Some (num_of_Z 5672)) by (by rewrite joi_plain).
      intros k. unfold v. destruct k;
        cbn [local_env env_of local_variables]; vm_compute (local_env _ _);
        cbn [envValidationSchema jk_type jk_presence string_key number_key];
        first [by constructor | rewrite ?He, ?H1, ?H2, ?H3; by constructor]. }
    exists v'. apply Hval. unfold timeout_order. rewrite !Hv'. unfold v.
    vm_compute (local_env _ _). cbn. rewrite He. by vm_compute.
  - do 2 eexists. split; [vm_compute; reflexivity|]. split; [reflexivity|].
    split_and!; [reflexivity..|]. intros (a & s & i & [= <-] & [= <-] & _ & ? & ? & _). lia.
Qed.

(** ** A concrete Joi *)

(** Digits, or digits with a decimal exponent. *)
Definition fx_to_number (s : string) : option number :=
  let '(ds, rest) := span_digits s in
  match ds, rest with
  | EmptyString, _ => None
  | _, EmptyString => if decimal 0 ds <? two53 then Some (num_of_Z (decimal 0 ds)) else None
  | _, String c exponent =>
      if (code c =? 101) && plain_number exponent && (decimal 0 exponent <? 16)
      then Some (num_of_Z (decimal 0 ds * 10 ^ decimal 0 exponent)) else None
  end.

Definition fx_check (k : JoiKey) (o : option string) : option joi_value :=
  match o with
  | None => match jk_presence k with
            | Required => None
            | DefaultText s => Some (JoiText s)
            | DefaultNumber z => Some (JoiNum (num_of_Z z))
            end
  | Some s =>
      match jk_type k with
      | JoiString => if text_ok (jk_rules k) s then Some (JoiText s) else None
      | JoiNumber =>
          match fx_to_number s with
          | Some n => if forallb (number_rule_ok n) (jk_rules k) then Some (JoiNum n) else None
          | None => None
          end
      end
  end.

Definition all_keys : list EnvKey :=
  [NodeEnv; Port; PostgresHost; PostgresPort; PostgresUser; PostgresPassword; PostgresDb;
   PostgresPoolSize; PostgresAcquireTimeoutMs; PostgresStatementTimeoutMs;
   PostgresIdleTxnTimeoutMs; AreasPollIntervalMs; RedisHost; RedisPort; RedisPassword;
   PresenceCacheTtlEmptyS; PresenceCacheTtlNonEmptyS; RabbitMqHost; RabbitMqPort;
   RabbitMqUser; RabbitMqPassword; WorkerPartitions; WorkerPrefetch].

Definition fx_joi : Joi := {|
  joi_to_number := fx_to_number;
  joi_validate schema custom e :=
    let checked k := fx_check (schema k) (e (env_name k)) in
    if forallb (λ k, bool_decide (is_Some (checked k))) all_keys then
      let v k := default (JoiText "") (checked k) in
      match custom v with inr _ => inr v | inl err => inl err end
    else inl (Error "Config validation error");
|}.

Lemma fx_check_ok k o w : fx_check k o = Some w ↔ @joi_ok fx_joi k o w.
Proof.
  split.
  - unfold fx_check. destruct o as [s|].
    + destruct (jk_type k) eqn:Ht.
      * destruct (text_ok (jk_rules k) s) eqn:Hs; [|done]. intros [= <-]. by constructor.
      * destruct (fx_to_number s) as [n|] eqn:Hn; [|done].
        destruct (forallb _ _) eqn:Hr; [|done]. intros [= <-]. by constructor.
    + destruct (jk_presence k) eqn:Hp; [done|..]; intros [= <-]; by constructor.
  - destruct 1 as [s Hp|z Hp|s Ht Hs|s n Ht Hn Hr]; unfold fx_check.
    + by rewrite Hp.
    + by rewrite Hp.
    + by rewrite Ht, Hs.
    + simpl in Hn. by rewrite Ht, Hn, Hr.
Qed.

Lemma all_keys_complete k : k ∈ all_keys.
Proof. apply (bool_decide_unpack _). by destruct k; vm_compute. Qed.

Lemma fx_joi_laws : @JoiLaws fx_joi.
Proof.
  split.
  - intros schema custom e v. cbn [joi_validate fx_joi].
    destruct (forallb (λ k, bool_decide (is_Some (fx_check (schema k) (e (env_name k)))))
      all_keys) eqn:Hall; [|done].
    destruct (custom _) as [err|[]] eqn:Hc; [done|]. intros [= <-]. split; [|done].
    intros k. apply fx_check_ok. rewrite forallb_forall in Hall.
    specialize (Hall k (proj1 (list_elem_of_In _ _) (all_keys_complete k))).
    apply bool_decide_eq_true in Hall as [w Hw]. by rewrite Hw.
  - intros schema custom e v Hv.
    exists (λ k, default (JoiText "") (fx_check (schema k) (e (env_name k)))).
    assert (Hk : ∀ k, fx_check (schema k) (e (env_name k)) = Some (v k))
      by (intros k; by apply fx_check_ok).
    split; [intros k; by rewrite Hk|]. intros Hc. cbn [joi_validate fx_joi].
    assert (Hall : forallb (λ k, bool_decide (is_Some (fx_check (schema k) (e (env_name k)))))
      all_keys = true).
    { apply forallb_forall. intros k _. apply bool_decide_eq_true. by rewrite Hk. }
    by rewrite Hall, Hc.
  - intros s Hp. simpl. unfold fx_to_number. destruct s as [|c s]; [done|].
    by rewrite (span_digits_all _ Hp).
Qed.

(** ** Witnesses *)

Definition fx_environment : env :=
  env_of ((PostgresStatementTimeoutMs, "8000") :: (WorkerPartitions, "0-3, 7") ::
          (NodeEnv, "production") :: local_variables)%string.

Lemma fx_environment_valid :
  { v | @joi_validate fx_joi envValidationSchema timeout_order fx_environment = inr v }.
Proof.
  destruct (@joi_validate fx_joi envValidationSchema timeout_order fx_environment) as [err|v] eqn:E.
  - exfalso. revert E.
    assert (Hc : match @joi_validate fx_joi envValidationSchema timeout_order fx_environment with
                 | inl _ => false | inr _ => true end = true) by (by vm_compute).
    intros E. by rewrite E in Hc.
  - by exists v.
Qed.

Lemma fx_environment_plain : plain_numbers fx_environment.
Proof.
  intros k s Ht Hs. revert s Hs.
  assert (Hall : forallb (λ k, match jk_type (envValidationSchema k), fx_environment (env_name k) with
    | JoiNumber, Some s => plain_number s | _, _ => true end) all_keys = true) by (by vm_compute).
  rewrite forallb_forall in Hall.
  specialize (Hall k (proj1 (list_elem_of_In _ _) (all_keys_complete k))). rewrite Ht in Hall.
  intros s Hs. by rewrite Hs in Hall.
Qed.

Lemma fx_environment_seen : seen_by_readers fx_environment fx_environment.
Proof. intros k. by left. Qed.

Lemma validated_environment_boots_witness :
  (∃ c o, load_api fx_environment = inr c ∧ api_in_range c ∧
    cli_data_source fx_environment = inr o ∧ po_extra o = None) ∧
  match load_api fx_environment with
  | inr c => db_statementTimeoutMs (c_database c) = Some 8000
  | inl _ => False
  end.
Proof.
  split; [|vm_compute; reflexivity].
  apply (@validated_environment_boots fx_joi fx_joi_laws fx_environment fx_environment
    (proj1_sig fx_environment_valid) (proj2_sig fx_environment_valid)
    fx_environment_plain fx_environment_seen).
Defined.

Lemma validated_worker_boots_witness :
  ((∃ part, part ∈ split_commas (read_partitions fx_environment) ∧
     load_worker fx_environment 9 = Some (inl (invalid_range part))) ∨
   (∃ bs c w, spec_bounds (split_commas (read_partitions fx_environment)) = inr bs ∧
      load_worker fx_environment 9 = Some (inr (c, w)) ∧ api_in_range c ∧
      within 1 (Some 1000) (wc_prefetch w) ∧ StronglySorted Z.lt (wc_partitions w) ∧
      ∀ x, x ∈ wc_partitions w ↔ covers bs x)) ∧
  match load_worker fx_environment 9 with
  | Some (inr (_, w)) => wc_partitions w = [0; 1; 2; 3; 7]
  | _ => False
  end.
Proof.
  split; [|vm_compute; reflexivity].
  apply (@validated_worker_boots fx_joi fx_joi_laws fx_environment fx_environment
    (proj1_sig fx_environment_valid) (proj2_sig fx_environment_valid)
    fx_environment_plain fx_environment_seen 9).
  intros part from to Hp Hb. vm_compute in Hp. unfold two53.
  repeat (apply elem_of_cons in Hp as [->|Hp];
    [vm_compute in Hb; injection Hb as <- <-; split; [lia|simpl; lia]|]).
  by apply not_elem_of_nil in Hp.
Defined.

Lemma exponent_misorders_timeouts_witness :
  (∃ v, @joi_validate fx_joi envValidationSchema timeout_order (local_env "9e3") = inr v) ∧
  ∃ c b, load_api (local_env "9e3") = inr c ∧
    po_extra (typeOrmModuleFactory (c_database c)) = Some b ∧
    connectionTimeoutMillis b = Some 2000 ∧ statement_timeout b = Some 9 ∧ ¬ bounds_ordered b.
Proof.
  apply (@exponent_misorders_timeouts fx_joi fx_joi_laws). vm_compute. reflexivity.
Defined.
