(* ===== verification/Base64.v ===== *)
(** [Buffer.from(s).toString('base64url')] and [Buffer.from(s, 'base64url')] on byte
    strings: RFC 4648 without padding; the decoder takes both alphabets, skips every
    other character, and stops at the first [=]. *)

From S2P Require Import Prelude.
From Stdlib Require Import Ascii.

Local Open Scope Z_scope.

(** ** Bytes *)

Fixpoint bytes_of (s : string) : list Z :=
  match s with
  | EmptyString => []
  | String c s' => Z.of_N (N_of_ascii c) :: bytes_of s'
  end.

Fixpoint string_of_bytes (l : list Z) : string :=
  match l with
  | [] => ""
  | b :: l' => String (ascii_of_N (Z.to_N b)) (string_of_bytes l')
  end.

(** ** Sextets *)

Fixpoint sextets (l : list Z) : list Z :=
  match l with
  | a :: b :: c :: l' =>
      a / 4 :: (a mod 4) * 16 + b / 16 :: (b mod 16) * 4 + c / 64 :: c mod 64 :: sextets l'
  | [a; b] => [a / 4; (a mod 4) * 16 + b / 16; (b mod 16) * 4]
  | [a] => [a / 4; (a mod 4) * 16]
  | [] => []
  end.

Fixpoint unsextets (l : list Z) : list Z :=
  match l with
  | x :: y :: z :: w :: l' =>
      x * 4 + y / 16 :: (y mod 16) * 16 + z / 4 :: (z mod 4) * 64 + w :: unsextets l'
  | [x; y; z] => [x * 4 + y / 16; (y mod 16) * 16 + z / 4]
  | [x; y] => [x * 4 + y / 16]
  | _ => []
  end.

(** ** The alphabet *)

Definition sextet_char (x : Z) : ascii :=
  ascii_of_N (Z.to_N
    (if x <? 26 then 65 + x else if x <? 52 then 71 + x else if x <? 62 then x - 4
     else if x =? 62 then 45 else 95)).

Definition char_sextet (c : ascii) : option Z :=
  let n := Z.of_N (N_of_ascii c) in
  if (65 <=? n) && (n <=? 90) then Some (n - 65)
  else if (97 <=? n) && (n <=? 122) then Some (n - 71)
  else if (48 <=? n) && (n <=? 57) then Some (n + 4)
  else if (n =? 45) || (n =? 43) then Some 62
  else if (n =? 95) || (n =? 47) then Some 63
  else None.

Fixpoint chars_of (l : list Z) : string :=
  match l with [] => "" | x :: l' => String (sextet_char x) (chars_of l') end.

Fixpoint sextets_of (s : string) : list Z :=
  match s with
  | EmptyString => []
  | String c s' =>
      if (N_of_ascii c =? 61)%N then []
      else match char_sextet c with Some x => x :: sextets_of s' | None => sextets_of s' end
  end.

Definition base64url_encode (s : string) : string := chars_of (sextets (bytes_of s)).
Definition base64url_decode (s : string) : string :=
  string_of_bytes (unsextets (sextets_of s)).

(** ** Round trip *)

Lemma char_sextet_char x : 0 <= x < 64 → char_sextet (sextet_char x) = Some x.
Proof.
  intros Hx.
  assert (Hall : forallb (λ n, match char_sextet (sextet_char (Z.of_nat n)) with
      | Some y => y =? Z.of_nat n | None => false end) (seq 0 64) = true) by (by vm_compute).
  rewrite forallb_forall in Hall. specialize (Hall (Z.to_nat x)).
  rewrite Z2Nat.id in Hall by lia. rewrite in_seq in Hall. specialize (Hall ltac:(lia)).
  destruct (char_sextet (sextet_char x)); [|done]. apply Z.eqb_eq in Hall. by subst.
Qed.

Lemma sextet_char_not_padding x :
  0 <= x < 64 → (N_of_ascii (sextet_char x) =? 61)%N = false.
Proof.
  intros Hx. destruct (N.eqb_spec (N_of_ascii (sextet_char x)) 61) as [He|]; [|done].
  pose proof (char_sextet_char x Hx) as Hc. unfold char_sextet in Hc. rewrite He in Hc.
  by simpl in Hc.
Qed.

Lemma sextets_of_chars l : Forall (λ x, 0 <= x < 64) l → sextets_of (chars_of l) = l.
Proof.
  induction 1 as [|x l Hx Hl IH]; [done|]. simpl.
  by rewrite sextet_char_not_padding, char_sextet_char, IH.
Qed.

Lemma bytes_range s : Forall (λ b, 0 <= b < 256) (bytes_of s).
Proof.
  induction s as [|c s IH]; simpl; constructor; [|done].
  pose proof (N_ascii_bounded c). lia.
Qed.

Lemma string_of_bytes_of s : string_of_bytes (bytes_of s) = s.
Proof.
  induction s as [|c s IH]; [done|]. simpl. by rewrite N2Z.id, ascii_N_embedding, IH.
Qed.

(** Induction by three bytes at a time. *)
Lemma triple_ind (P : list Z → Prop) :
  P [] → (∀ a, P [a]) → (∀ a b, P [a; b]) → (∀ a b c l, P l → P (a :: b :: c :: l)) →
  ∀ l, P l.
Proof.
  intros H0 H1 H2 H3. fix IH 1. intros [|a [|b [|c l]]]; [done|done|done|]. apply H3, IH.
Qed.

Lemma sextets_range l :
  Forall (λ b, 0 <= b < 256) l → Forall (λ x, 0 <= x < 64) (sextets l).
Proof.
  induction l as [|a|a b|a b c l IH] using triple_ind; intros Hl; simpl;
    rewrite ?Forall_cons in *; split_and?; try constructor; try (apply IH; tauto);
    destruct_and?; Z.to_euclidean_division_equations; lia.
Qed.

Lemma unsextets_sextets l : Forall (λ b, 0 <= b < 256) l → unsextets (sextets l) = l.
Proof.
  induction l as [|a|a b|a b c l IH] using triple_ind; intros Hl; simpl;
    rewrite ?Forall_cons in *; destruct_and?; [done|..].
  - f_equal. Z.to_euclidean_division_equations; lia.
  - f_equal; [|f_equal]; Z.to_euclidean_division_equations; lia.
  - rewrite IH by done.
    f_equal; [|f_equal; [|f_equal]]; Z.to_euclidean_division_equations; lia.
Qed.

Lemma base64url_round_trip s : base64url_decode (base64url_encode s) = s.
Proof.
  unfold base64url_decode, base64url_encode.
  rewrite sextets_of_chars by (apply sextets_range, bytes_range).
  rewrite unsextets_sextets by apply bytes_range. apply string_of_bytes_of.
Qed.
