(* ===== verification/Regex.v ===== *)
(** Regular expressions as [RegExp.prototype.test] uses them between [^] and [$]: a
    matcher by derivatives, and its correctness against the language. *)

From S2P Require Import Prelude.
From Stdlib Require Import Ascii.

(** ** Expressions and their test *)

Inductive regex :=
| Eps
| Cls (p : ascii → bool)
| Cat (r s : regex)
| Alt (r s : regex)
| Star (r : regex).

Definition Void : regex := Cls (λ _, false).
Definition Opt (r : regex) : regex := Alt r Eps.
Definition Plus (r : regex) : regex := Cat r (Star r).
Fixpoint Rep (n : nat) (r : regex) : regex :=
  match n with O => Eps | S n => Cat r (Rep n r) end.

Fixpoint nullable (r : regex) : bool :=
  match r with
  | Eps => true
  | Cls _ => false
  | Cat r s => nullable r && nullable s
  | Alt r s => nullable r || nullable s
  | Star _ => true
  end.

(** What must follow once [c] has been read. *)
Fixpoint deriv (c : ascii) (r : regex) : regex :=
  match r with
  | Eps => Void
  | Cls p => if p c then Eps else Void
  | Cat r s => if nullable r then Alt (Cat (deriv c r) s) (deriv c s) else Cat (deriv c r) s
  | Alt r s => Alt (deriv c r) (deriv c s)
  | Star r => Cat (deriv c r) (Star r)
  end.

(** [/^r$/.test(s)]. *)
Fixpoint re_test (r : regex) (s : string) : bool :=
  match s with
  | EmptyString => nullable r
  | String c s' => re_test (deriv c r) s'
  end.

(** ** The language *)

Inductive matches : regex → string → Prop :=
| m_eps : matches Eps ""
| m_cls p c : p c = true → matches (Cls p) (String c "")
| m_cat r s x y : matches r x → matches s y → matches (Cat r s) (x +:+ y)
| m_alt_l r s x : matches r x → matches (Alt r s) x
| m_alt_r r s x : matches s x → matches (Alt r s) x
| m_star_nil r : matches (Star r) ""
| m_star_cons r x y : matches r x → matches (Star r) y → matches (Star r) (x +:+ y).

#[local] Hint Constructors matches : core.

Lemma nullable_spec r : nullable r = true ↔ matches r "".
Proof.
  split.
  - induction r as [|p|r1 IH1 r2 IH2|r1 IH1 r2 IH2|r IH]; simpl; intros Hn;
      [by auto|done|..|by auto].
    + apply andb_true_iff in Hn as [H1 H2]. change "" with ("" +:+ ""). auto.
    + apply orb_true_iff in Hn as [?|?]; auto.
  - remember "" as e eqn:He. induction 1 as [|p c|r s x y ? IH1 ? IH2| | | |]; simpl; try done.
    + destruct x; [|done]. simpl in He. by rewrite IH1, IH2.
    + by rewrite IHmatches.
    + by rewrite IHmatches, orb_true_r.
Qed.

Lemma deriv_complete c r t : matches r t → ∀ s, t = String c s → matches (deriv c r) s.
Proof.
  induction 1 as [|p c' Hp|r1 r2 x y Hx IHx Hy IHy|r1 r2 x Hx IHx|r1 r2 x Hx IHx|r|r x y Hx IHx Hy IHy];
    intros s Hs; simpl.
  - done.
  - injection Hs as -> <-. rewrite Hp. auto.
  - destruct x as [|c' x].
    + apply nullable_spec in Hx as ->. auto.
    + injection Hs as -> <-.
      destruct (nullable r1); [apply m_alt_l|]; constructor; auto.
  - auto.
  - auto.
  - done.
  - destruct x as [|c' x]; [by auto|].
    injection Hs as -> <-. constructor; auto.
Qed.

Lemma deriv_sound c r s : matches (deriv c r) s → matches r (String c s).
Proof.
  revert s. induction r as [|p|r1 IH1 r2 IH2|r1 IH1 r2 IH2|r IH]; intros s; simpl.
  - inversion 1; subst; done.
  - destruct (p c) eqn:Hp; inversion 1; subst; try done. auto.
  - assert (Hcat : matches (Cat (deriv c r1) r2) s → matches (Cat r1 r2) (String c s)).
    { inversion 1 as [| |a b x y Hx Hy| | | |]; subst.
      change (String c (x +:+ y)) with (String c x +:+ y). auto. }
    destruct (nullable r1) eqn:Hn; [|done].
    inversion 1; subst; [by auto|].
    change (String c s) with ("" +:+ String c s). constructor; [|by apply IH2].
    by apply nullable_spec.
  - inversion 1; subst; auto.
  - inversion 1 as [| |a b x y Hx Hy| | | |]; subst.
    change (String c (x +:+ y)) with (String c x +:+ y). auto.
Qed.

Lemma re_test_spec r s : re_test r s = true ↔ matches r s.
Proof.
  revert r. induction s as [|c s IH]; intros r; simpl; [apply nullable_spec|].
  rewrite IH. split; [apply deriv_sound|]. intros. by eapply deriv_complete.
Qed.

(** ** Character classes *)

Definition in_range (a b : N) (c : ascii) : bool :=
  ((a <=? N_of_ascii c) && (N_of_ascii c <=? b))%N.
Definition is_char (c c' : ascii) : bool := Ascii.eqb c' c.

(** [\d] *)
Definition Digit : regex := Cls (in_range 48 57).
Definition Lit (c : ascii) : regex := Cls (is_char c).
(** [[0-9a-f]] under the flag [i]. *)
Definition HexDigit : regex :=
  Cls (λ c, in_range 48 57 c || in_range 97 102 c || in_range 65 70 c).

(** A text every character of which satisfies [p] stays so when it is matched. *)
Fixpoint str_all (p : ascii → bool) (s : string) : bool :=
  match s with EmptyString => true | String c s' => p c && str_all p s' end.
