(* ===== verification/DateText.v ===== *)
(** [Date.prototype.toISOString] on a time value in milliseconds since the epoch. *)

From S2P Require Import Prelude.
From Stdlib Require Import Ascii.

Local Open Scope Z_scope.

(** The [n] last decimal digits of a non-negative number. *)
Fixpoint digits (n : nat) (z : Z) : string :=
  match n with
  | O => ""
  | S n => digits n (z / 10) +:+ String (ascii_of_N (Z.to_N (48 + z mod 10))) ""
  end.

(** The proleptic Gregorian date of a day counted from 1970-01-01: eras of 400 years
    (146097 days) that begin on the first of March. *)
Definition civil_of_days (days : Z) : Z * Z * Z :=
  let z := days + 719468 in
  let era := z / 146097 in
  let doe := z mod 146097 in
  let yoe := (doe - doe / 1460 + doe / 36524 - doe / 146096) / 365 in
  let doy := doe - (365 * yoe + yoe / 4 - yoe / 100) in
  let mp := (5 * doy + 2) / 153 in
  let d := doy - (153 * mp + 2) / 5 + 1 in
  let m := if mp <? 10 then mp + 3 else mp - 9 in
  (yoe + era * 400 + (if m <=? 2 then 1 else 0), m, d).

(** Years outside 0..9999 have a sign and six digits. *)
Definition year_text (y : Z) : string :=
  if (0 <=? y) && (y <=? 9999) then digits 4 y
  else if 0 <=? y then "+" +:+ digits 6 y else "-" +:+ digits 6 (- y).

Definition toISOString (ms : Z) : string :=
  let '(y, m, d) := civil_of_days (ms / 86400000) in
  let t := ms mod 86400000 in
  year_text y +:+ "-" +:+ digits 2 m +:+ "-" +:+ digits 2 d +:+ "T" +:+
  digits 2 (t / 3600000) +:+ ":" +:+ digits 2 (t / 60000 mod 60) +:+ ":" +:+
  digits 2 (t / 1000 mod 60) +:+ "." +:+ digits 3 (t mod 1000) +:+ "Z".

Example iso_epoch : toISOString 0 = "1970-01-01T00:00:00.000Z".
Proof. reflexivity. Qed.
Example iso_before_epoch : toISOString (-1) = "1969-12-31T23:59:59.999Z".
Proof. reflexivity. Qed.
Example iso_leap_day : toISOString 1709251199123 = "2024-02-29T23:59:59.123Z".
Proof. reflexivity. Qed.
Example iso_2026 : toISOString 1786125052845 = "2026-08-07T17:50:52.845Z".
Proof. vm_compute. reflexivity. Qed.
Example iso_year_zero : toISOString (-62167219200001) = "-000001-12-31T23:59:59.999Z".
Proof. reflexivity. Qed.
