(* ===== verification/Prog.v ===== *)
(** Asynchronous programs: a free monad over the operations a function awaits,
    with exceptions and [try/catch], its execution under a schedule of faults, and
    a weakest-precondition logic for that execution. *)

From S2P Require Import Prelude Js.

(** An [async] function body: it returns, throws, or performs an operation and
    continues with its answer, an exception (the promise rejected) or a value. *)
Inductive prog (E : Type → Type) (A : Type) : Type :=
| Ret (a : A)
| Throw (e : exn)
| Vis {X : Type} (op : E X) (k : exn + X → prog E A).
Arguments Ret {E A} a.
Arguments Throw {E A} e.
Arguments Vis {E A X} op k.

Fixpoint prog_bind {E A B} (f : A → prog E B) (p : prog E A) : prog E B :=
  match p with
  | Ret a => f a
  | Throw e => Throw e
  | Vis op k => Vis op (λ r, prog_bind f (k r))
  end.

#[export] Instance prog_mret {E} : MRet (prog E) := λ A a, Ret a.
#[export] Instance prog_mbind {E} : MBind (prog E) := λ A B f p, prog_bind f p.

(** [await op]: the exception of a rejected promise is thrown here. *)
Definition await {E X} (op : E X) : prog E X :=
  Vis op (λ r, match r with inl e => Throw e | inr x => Ret x end).

(** [try { p } catch (e) { h(e) }]. *)
Fixpoint try_catch {E A} (p : prog E A) (h : exn → prog E A) : prog E A :=
  match p with
  | Ret a => Ret a
  | Throw e => h e
  | Vis op k => Vis op (λ r, try_catch (k r) h)
  end.

(** What the outside world does to one operation: it works; it fails and has no
    effect; its effect is applied but the caller sees an error (the answer was
    lost); or, inside a transaction, the [n]-th statement fails. *)
Inductive fault :=
| FOk
| FFail (e : exn)
| FLost (e : exn)
| FAt (n : nat) (e : exn).

(** The exception that the fault raises; and those that the faults of a kind raise. *)
Definition raised (f : fault) : option exn :=
  match f with FOk => None | FFail e | FLost e | FAt _ e => Some e end.

Definition raises (ok : fault → Prop) (e : exn) : Prop := ∃ f, ok f ∧ raised f = Some e.

Section run.
Context {E : Type → Type} {S : Type}.
Variable exec : ∀ X, fault → E X → S → (exn + X) * S.

(** Run a program from a state, one fault per operation; a schedule that is
    exhausted goes on without faults. The rest of the schedule is returned. *)
Fixpoint run {A} (p : prog E A) (fs : list fault) (s : S) : (exn + A) * S * list fault :=
  match p with
  | Ret a => (inr a, s, fs)
  | Throw e => (inl e, s, fs)
  | Vis op k =>
      let '(r, s') := exec _ (default FOk (head fs)) op s in
      run (k r) (tail fs) s'
  end.

(** [wp ok p Q s]: whatever faults allowed by [ok] occur, [p] from [s] ends in an
    outcome and a state that satisfy [Q]. *)
Fixpoint wp {A} (ok : fault → Prop) (p : prog E A) (Q : exn + A → S → Prop) (s : S) : Prop :=
  match p with
  | Ret a => Q (inr a) s
  | Throw e => Q (inl e) s
  | Vis op k =>
      ∀ f, ok f → wp ok (k (exec _ f op s).1) Q (exec _ f op s).2
  end.

(** Every operation a program may perform satisfies [P]. *)
Fixpoint all_ops {A} (P : ∀ X, E X → Prop) (p : prog E A) : Prop :=
  match p with
  | Ret _ | Throw _ => True
  | Vis op k => P _ op ∧ ∀ r, all_ops P (k r)
  end.

(** The number of operations a program performs along a run. *)
Fixpoint run_length {A} (p : prog E A) (fs : list fault) (s : S) : nat :=
  match p with
  | Ret _ | Throw _ => 0
  | Vis op k =>
      let '(r, s') := exec _ (default FOk (head fs)) op s in
      Datatypes.S (run_length (k r) (tail fs) s')
  end.

(** ** Lemmas *)

Lemma run_bind {A B} (p : prog E A) (f : A → prog E B) fs s :
  run (p ≫= f) fs s =
  match run p fs s with
  | (inr a, s', fs') => run (f a) fs' s'
  | (inl e, s', fs') => (inl e, s', fs')
  end.
Proof.
  revert fs s. induction p as [a|e|X op k IH]; intros fs s; simpl; [done..|].
  destruct (exec _ _ op s) as [r s']. apply IH.
Qed.

Lemma run_await {X} (op : E X) fs s :
  run (await op) fs s = (exec _ (default FOk (head fs)) op s, tail fs).
Proof. simpl. by destruct (exec _ _ op s) as [[e|x] s']. Qed.

Lemma run_try_catch {A} (p : prog E A) (h : exn → prog E A) fs s :
  run (try_catch p h) fs s =
  match run p fs s with
  | (inr a, s', fs') => (inr a, s', fs')
  | (inl e, s', fs') => run (h e) fs' s'
  end.
Proof.
  revert fs s. induction p as [a|e|X op k IH]; intros fs s; simpl; [done..|].
  destruct (exec _ _ op s) as [r s']. apply IH.
Qed.

Lemma wp_mono {A} ok (p : prog E A) (Q Q' : exn + A → S → Prop) s :
  (∀ r s, Q r s → Q' r s) → wp ok p Q s → wp ok p Q' s.
Proof.
  intros HQ. revert s. induction p as [a|e|X op k IH]; intros s; simpl; auto.
Qed.

Lemma wp_bind {A B} ok (p : prog E A) (f : A → prog E B) (Q : exn + B → S → Prop) s :
  wp ok (p ≫= f) Q s ↔
  wp ok p (λ r s', match r with inr a => wp ok (f a) Q s' | inl e => Q (inl e) s' end) s.
Proof.
  revert s. induction p as [a|e|X op k IH]; intros s; simpl; [done..|].
  split; intros H g Hg; by apply IH, H.
Qed.

Lemma wp_try_catch {A} ok (p : prog E A) (h : exn → prog E A) Q s :
  wp ok (try_catch p h) Q s ↔
  wp ok p (λ r s', match r with inr a => Q (inr a) s' | inl e => wp ok (h e) Q s' end) s.
Proof.
  revert s. induction p as [a|e|X op k IH]; intros s; simpl; [done..|].
  split; intros H g Hg; by apply IH, H.
Qed.

Lemma wp_await {X} ok (op : E X) Q s :
  wp ok (await op) Q s ↔ ∀ f, ok f → Q (exec _ f op s).1 (exec _ f op s).2.
Proof.
  simpl. split; intros H f Hf; specialize (H f Hf);
    by destruct (exec _ f op s) as [[] ?].
Qed.

(** The logic is sound for every schedule of allowed faults. *)
Lemma run_rest {A} (P : fault → Prop) (p : prog E A) fs s :
  Forall P fs → Forall P (run p fs s).2.
Proof.
  revert fs s. induction p as [a|e|X op k IH]; intros fs s Hfs; [done|done|]. cbn [run].
  destruct (exec X _ op s) as [r s']. apply IH. by destruct Hfs.
Qed.

Lemma wp_run {A} ok (p : prog E A) Q fs s :
  ok FOk → Forall ok fs → wp ok p Q s → Q (run p fs s).1.1 (run p fs s).1.2.
Proof.
  intros H0. revert fs s. induction p as [a|e|X op k IH]; intros fs s Hfs; simpl; [done..|].
  intros H. set (f := default FOk (head fs)).
  assert (Hf : ok f) by (destruct Hfs; [done|done]).
  specialize (H f Hf). destruct (exec _ f op s) as [r s'].
  apply IH; [|done]. by destruct Hfs.
Qed.

Lemma all_ops_bind {A B} P (p : prog E A) (f : A → prog E B) :
  all_ops P p → (∀ a, all_ops P (f a)) → all_ops P (p ≫= f).
Proof.
  intros Hp Hf. induction p as [a|e|X op k IH]; simpl in *; [done..|].
  split; [apply Hp|]. intros r. apply IH, Hp.
Qed.

Lemma all_ops_try_catch {A} P (p : prog E A) (h : exn → prog E A) :
  all_ops P p → (∀ e, all_ops P (h e)) → all_ops P (try_catch p h).
Proof.
  intros Hp Hh. induction p as [a|e|X op k IH]; simpl in *; [done..|].
  split; [apply Hp|]. intros r. apply IH, Hp.
Qed.

Lemma all_ops_await {X} P (op : E X) : P X op → all_ops P (await op).
Proof. intros H. split; [done|]. by intros []. Qed.
End run.

#[export] Hint Resolve all_ops_bind all_ops_try_catch all_ops_await : geo.

(** Reduce a [wp] over a bind, an [await] or a [try/catch]. *)
Ltac wp_step :=
  match goal with
  | |- wp _ _ (_ ≫= _) _ _ => apply wp_bind
  | |- wp _ _ (try_catch _ _) _ _ => apply wp_try_catch
  | |- wp _ _ (await _) _ _ => apply wp_await; intros ?f ?Hf
  | |- wp _ _ (Throw _) _ _ => simpl
  | |- wp _ _ (mret _) _ _ => simpl
  | |- wp _ _ (Ret _) _ _ => simpl
  end.
