(* ===== verification/RedisClient.v ===== *)
(** The Redis client of both processes, [src/src/redis/redis.module.ts]: its options, the
    delays between reconnections, the line of log of an error, and the shutdown hook. *)

From stdpp Require Import pretty.
From S2P Require Import Prelude Js Prog Environment.

Local Open Scope Z_scope.

(** [retryStrategy]: times 1, 2, ... *)
Definition retryStrategy (times : Z) : Z := Z.min (times * 200) 2000.

Record RedisOptions := {
  ro_host : string;
  ro_port : option Z;
  ro_password : option string;
  ro_commandTimeout : Z;
  ro_maxRetriesPerRequest : Z;
  ro_enableOfflineQueue : bool;
  ro_connectTimeout : Z;
  ro_retryStrategy : Z → Z;
}.

(** The options given to [new Redis]: no password is sent when it is empty. *)
Definition redis_options (redis : RedisSettings) : RedisOptions :=
  {| ro_host := redis_host redis; ro_port := redis_port redis;
     ro_password := if bool_decide (redis_password redis = ""%string) then None
                    else Some (redis_password redis);
     ro_commandTimeout := 100; ro_maxRetriesPerRequest := 1; ro_enableOfflineQueue := false;
     ro_connectTimeout := 1000; ro_retryStrategy := retryStrategy |}.

(** An [Error] as the listener reads it; [errors] is that of an [AggregateError]. *)
Record client_error := {
  ce_message : string;
  ce_errors : option (list string);
  ce_constructor_name : string;
}.

(** [xs.join('; ')]. *)
Fixpoint join_semicolon (xs : list string) : string :=
  match xs with
  | [] => ""
  | [x] => x
  | x :: xs => x +:+ "; " +:+ join_semicolon xs
  end.

(** [a || b] of texts. *)
Definition text_or (a b : string) : string := match a with EmptyString => b | _ => a end.

Definition error_detail (error : client_error) : string :=
  let nested := default "" (join_semicolon <$> ce_errors error) in
  text_or (ce_message error) (text_or nested (ce_constructor_name error)).

Definition error_line (redis : RedisSettings) (error : client_error) : string :=
  "redis " +:+ redis_host redis +:+ ":" +:+
  match redis_port redis with Some z => pretty z | None => "NaN" end +:+ ": " +:+
  error_detail error.

(** ** Shutdown *)

Inductive client_op : Type → Type :=
| QuitClient : client_op unit
| Disconnect : client_op unit.

Definition onApplicationShutdown : prog client_op unit :=
  try_catch (await QuitClient) (λ _, await Disconnect).

(** The socket is open or not. [quit] needs a connection that answers; [disconnect]
    always closes it. *)
Definition exec_client (X : Type) (f : fault) (op : client_op X) (open : bool) : (exn + X) * bool :=
  match op in client_op X return (exn + X) * bool with
  | QuitClient =>
      match f with
      | FOk => (inr tt, false)
      | FLost e => (inl e, false)
      | FFail e | FAt _ e => (inl e, open)
      end
  | Disconnect => (inr tt, false)
  end.

(** ** Lemmas *)

(** The delays grow from 200 ms up to 2 s and stay there: Redis is tried again at least
    every two seconds, however long it was away. *)
Lemma retry_delays times :
  1 <= times →
  200 <= retryStrategy times <= 2000 ∧ retryStrategy times <= retryStrategy (times + 1) ∧
  (retryStrategy times = 2000 ↔ 10 <= times).
Proof. unfold retryStrategy. lia. Qed.

(** The shutdown hook closes the socket and never rejects. *)
Lemma shutdown_closes fs open :
  (run exec_client onApplicationShutdown fs open).1 = (inr tt, false).
Proof. simpl. by destruct (default FOk (head fs)). Qed.

(** An error is never logged without a detail, as long as its class has a name. *)
Lemma error_detail_said error :
  ce_constructor_name error ≠ ""%string → error_detail error ≠ ""%string.
Proof.
  intros H. unfold error_detail, text_or. destruct (ce_message error); [|done].
  by destruct (default _ _).
Qed.

(** A refused connection: the message is empty, the nested ones tell. *)
Example refused_connection :
  error_detail {| ce_message := ""; ce_errors := Some ["connect ECONNREFUSED ::1:6379";
                    "connect ECONNREFUSED 127.0.0.1:6379"]%string;
                  ce_constructor_name := "AggregateError" |} =
    "connect ECONNREFUSED ::1:6379; connect ECONNREFUSED 127.0.0.1:6379"%string.
Proof. reflexivity. Qed.
