(* ===== verification/Publisher.v ===== *)
(** The AMQP writer of the API, [src/src/mq/mq-publisher.service.ts]: the promise of
    one publish, and the connection with its reconnects as a state machine whose
    actions are the awaited calls, the broker's events and the timer. *)

From S2P Require Import Prelude Num Js Prog.

Local Open Scope Z_scope.

(** ** One publish *)

Definition PUBLISH_CONFIRM_TIMEOUT_MS : Z := 5000.
Definition RECONNECT_BASE_DELAY_MS : Z := 500.
Definition RECONNECT_MAX_DELAY_MS : Z := 5000.

(** The promise: its settlement, the timer, and whether the channel has the message. *)
Record PublishState := {
  pb_result : option (exn + unit);
  pb_timer : bool;
  pb_sent : bool;
}.

(** The first settlement of a promise counts; later ones do nothing. *)
Definition settle_publish (r : exn + unit) (s : PublishState) : PublishState :=
  {| pb_result := match pb_result s with Some r' => Some r' | None => Some r end;
     pb_timer := pb_timer s; pb_sent := pb_sent s |}.

Definition clear_timer (s : PublishState) : PublishState :=
  {| pb_result := pb_result s; pb_timer := false; pb_sent := pb_sent s |}.

(** [publish(...)]: without a channel it rejects at once; [channel.publish] may throw. *)
Definition publish (connected : bool) (thrown : option string) : PublishState :=
  if connected then
    match thrown with
    | Some message =>
        settle_publish (inl (MqUnavailableError message))
          {| pb_result := None; pb_timer := false; pb_sent := false |}
    | None => {| pb_result := None; pb_timer := true; pb_sent := true |}
    end
  else {| pb_result := Some (inl (MqUnavailableError "not connected"));
          pb_timer := false; pb_sent := false |}.

(** What can happen later: the timer fires, or the confirm callback runs. *)
Inductive publish_event := TimerFires | Confirm (rejected : bool).

Definition publish_turn (s : PublishState) (e : publish_event) : PublishState :=
  match e with
  | TimerFires =>
      if pb_timer s
      then settle_publish (inl (MqUnavailableError "confirm not received within 5000ms"))
             (clear_timer s)
      else s
  | Confirm rejected =>
      if pb_sent s
      then settle_publish
             (if rejected then inl (MqUnavailableError "broker rejected the publish (nack)")
              else inr tt) (clear_timer s)
      else s
  end.

(** ** The connection *)

(** The calls of [connect()], and the statements after the last of them. *)
Inductive mq_op : Type → Type :=
| AmqpConnect : mq_op nat
| CreateConfirmChannel (connection : nat) : mq_op nat
| CheckExchange (channel : nat) : mq_op unit
| Install (connection channel : nat) : mq_op unit.

Definition connect : prog mq_op unit :=
  connection ← await AmqpConnect;
  channel ← await (CreateConfirmChannel connection);
  await (CheckExchange channel);;
  await (Install connection channel).

(** The service: [mq_open] are the connections the broker holds open; [mq_flight] is
    the [connect()] that is running, [mq_timer] the delay of the pending timer. *)
Record Mq := mkMq {
  mq_connection : option nat;
  mq_channel : option nat;
  mq_closing : bool;
  mq_timer : option Z;
  mq_attempt : nat;
  mq_flight : option (prog mq_op unit);
  mq_open : list nat;
  mq_next : nat;
}.

Definition mq_idle : Mq :=
  {| mq_connection := None; mq_channel := None; mq_closing := false; mq_timer := None;
     mq_attempt := 0; mq_flight := None; mq_open := []; mq_next := 0 |}.

Definition with_flight (p : option (prog mq_op unit)) (s : Mq) : Mq :=
  {| mq_connection := mq_connection s; mq_channel := mq_channel s; mq_closing := mq_closing s;
     mq_timer := mq_timer s; mq_attempt := mq_attempt s; mq_flight := p;
     mq_open := mq_open s; mq_next := mq_next s |}.

(** [Math.min(RECONNECT_BASE_DELAY_MS * 2 ** this.reconnectAttempt, ...MAX...)]. *)
Definition reconnect_delay (attempt : nat) : Z :=
  Z.min (RECONNECT_BASE_DELAY_MS * 2 ^ Z.of_nat attempt) RECONNECT_MAX_DELAY_MS.

(** [scheduleReconnect()]. *)
Definition scheduleReconnect (s : Mq) : Mq :=
  {| mq_connection := mq_connection s; mq_channel := mq_channel s; mq_closing := mq_closing s;
     mq_timer := Some (reconnect_delay (mq_attempt s)); mq_attempt := S (mq_attempt s);
     mq_flight := mq_flight s; mq_open := mq_open s; mq_next := mq_next s |}.

Definition exec_mq (X : Type) (f : fault) (op : mq_op X) (s : Mq) : (exn + X) * Mq :=
  match op in mq_op X return (exn + X) * Mq with
  | AmqpConnect =>
      match f with
      | FOk =>
          (inr (mq_next s),
           {| mq_connection := mq_connection s; mq_channel := mq_channel s;
              mq_closing := mq_closing s; mq_timer := mq_timer s; mq_attempt := mq_attempt s;
              mq_flight := mq_flight s; mq_open := mq_next s :: mq_open s;
              mq_next := S (mq_next s) |})
      | FFail e | FLost e | FAt _ e => (inl e, s)
      end
  | CreateConfirmChannel connection =>
      match f with
      | FOk => (inr connection, s)
      | FFail e | FLost e | FAt _ e => (inl e, s)
      end
  | CheckExchange channel =>
      match f with
      | FOk => (inr tt, s)
      | FFail e | FLost e | FAt _ e => (inl e, s)
      end
  | Install connection channel =>
      (inr tt,
       {| mq_connection := Some connection; mq_channel := Some channel;
          mq_closing := mq_closing s; mq_timer := mq_timer s; mq_attempt := 0;
          mq_flight := mq_flight s; mq_open := mq_open s; mq_next := mq_next s |})
  end.

(** [onApplicationBootstrap()]: the first [connect()]; when it fails, so does the boot. *)
Definition onApplicationBootstrap (fs : list fault) : option Mq :=
  match run exec_mq connect fs mq_idle with
  | (inr _, s, _) => Some s
  | (inl _, _, _) => None
  end.

(** The running [connect()] of a reconnect goes on; when it has failed, its [catch]
    schedules the next attempt. *)
Definition settle_flight (p : prog mq_op unit) (s : Mq) : Mq :=
  match p with
  | Ret _ => with_flight None s
  | Throw _ => scheduleReconnect (with_flight None s)
  | Vis _ _ => with_flight (Some p) s
  end.

Definition fly (f : fault) (s : Mq) : Mq :=
  match mq_flight s with
  | Some (Vis op k) => let '(r, s') := exec_mq _ f op s in settle_flight (k r) s'
  | _ => s
  end.

(** The timer fires: [connect()] starts. *)
Definition fire_timer (s : Mq) : Mq :=
  match mq_timer s with
  | None => s
  | Some _ =>
      {| mq_connection := mq_connection s; mq_channel := mq_channel s;
         mq_closing := mq_closing s; mq_timer := None; mq_attempt := mq_attempt s;
         mq_flight := Some connect; mq_open := mq_open s; mq_next := mq_next s |}
  end.

(** The [close] event of the installed connection. *)
Definition connection_closed (s : Mq) : Mq :=
  match mq_connection s with
  | None => s
  | Some c =>
      let s' :=
        {| mq_connection := None; mq_channel := None; mq_closing := mq_closing s;
           mq_timer := mq_timer s; mq_attempt := mq_attempt s; mq_flight := mq_flight s;
           mq_open := filter (.≠ c) (mq_open s); mq_next := mq_next s |} in
      if mq_closing s then s' else scheduleReconnect s'
  end.

(** [onApplicationShutdown()]: the timer is cleared; the channel and the connection are
    closed, unless a close throws, which the [catch] absorbs. *)
Definition shutdown (f : fault) (s : Mq) : Mq :=
  let s' :=
    {| mq_connection := mq_connection s; mq_channel := mq_channel s; mq_closing := true;
       mq_timer := None; mq_attempt := mq_attempt s; mq_flight := mq_flight s;
       mq_open := mq_open s; mq_next := mq_next s |} in
  match f with
  | FOk => connection_closed s'
  | FFail _ | FLost _ | FAt _ _ => s'
  end.

Inductive mq_action := Fly (f : fault) | FireTimer | ConnectionClosed | Shutdown (f : fault).

Definition mq_turn (s : Mq) (a : mq_action) : Mq :=
  match a with
  | Fly f => fly f s
  | FireTimer => fire_timer s
  | ConnectionClosed => connection_closed s
  | Shutdown f => shutdown f s
  end.

(** ** Vocabulary *)

(** How the service stands: connected, waiting to reconnect, connecting. *)
Definition count_true (bs : list bool) : nat := length (filter (λ b, b = true) bs).

Definition standing (s : Mq) : list bool :=
  [bool_decide (is_Some (mq_connection s)); bool_decide (is_Some (mq_timer s));
   bool_decide (is_Some (mq_flight s))].

(** The places of a running [connect()], with the connection it has opened. *)
Inductive flight_at : prog mq_op unit → Prop :=
| fl_start : flight_at connect
| fl_channel c :
    flight_at (channel ← await (CreateConfirmChannel c);
               await (CheckExchange channel);; await (Install c channel))
| fl_exchange c ch : flight_at (await (CheckExchange ch);; await (Install c ch))
| fl_install c ch : flight_at (await (Install c ch)).

Record mq_inv (s : Mq) : Prop := {
  mi_channel : is_Some (mq_channel s) ↔ is_Some (mq_connection s);
  mi_flight p : mq_flight s = Some p → flight_at p;
  mi_delay d : mq_timer s = Some d →
    RECONNECT_BASE_DELAY_MS ≤ d ≤ RECONNECT_MAX_DELAY_MS;
  mi_standing : mq_closing s = false → count_true (standing s) = 1%nat;
}.

(** ** Lemmas *)

Lemma reconnect_delay_bounds n :
  RECONNECT_BASE_DELAY_MS ≤ reconnect_delay n ≤ RECONNECT_MAX_DELAY_MS.
Proof.
  unfold reconnect_delay, RECONNECT_BASE_DELAY_MS, RECONNECT_MAX_DELAY_MS.
  assert (0 < 2 ^ Z.of_nat n) by (apply Z.pow_pos_nonneg; lia). lia.
Qed.

Lemma reconnect_delay_mono n : reconnect_delay n ≤ reconnect_delay (S n).
Proof.
  unfold reconnect_delay, RECONNECT_BASE_DELAY_MS, RECONNECT_MAX_DELAY_MS.
  rewrite Nat2Z.inj_succ, Z.pow_succ_r by lia.
  assert (0 < 2 ^ Z.of_nat n) by (apply Z.pow_pos_nonneg; lia). lia.
Qed.

Lemma mq_boot_inv fs s : onApplicationBootstrap fs = Some s → mq_inv s.
Proof.
  unfold onApplicationBootstrap, connect. rewrite run_bind, run_await. cbn [exec_mq].
  destruct (default FOk (head fs)); cbn [fst snd]; [|done..].
  rewrite run_bind, run_await. cbn [exec_mq].
  destruct (default FOk (head (tail fs))); cbn [fst snd]; [|done..].
  rewrite run_bind, run_await. cbn [exec_mq].
  destruct (default FOk (head (tail (tail fs)))); cbn [fst snd]; [|done..].
  rewrite run_await. cbn [exec_mq fst snd]. intros [= <-].
  by split.
Qed.

(** A step of a flight: it goes on from another place, fails, or installs. *)
Lemma fly_cases f s p :
  flight_at p → mq_flight s = Some p →
  (∃ q open next, flight_at q ∧ fly f s =
     {| mq_connection := mq_connection s; mq_channel := mq_channel s;
        mq_closing := mq_closing s; mq_timer := mq_timer s; mq_attempt := mq_attempt s;
        mq_flight := Some q; mq_open := open; mq_next := next |}) ∨
  fly f s = scheduleReconnect (with_flight None s) ∨
  (∃ c ch, fly f s =
     {| mq_connection := Some c; mq_channel := Some ch; mq_closing := mq_closing s;
        mq_timer := mq_timer s; mq_attempt := 0; mq_flight := None;
        mq_open := mq_open s; mq_next := mq_next s |}).
Proof.
  intros Hp Hs. unfold fly. rewrite Hs.
  destruct Hp as [|c|c ch|c ch]; cbn [connect mbind prog_mbind prog_bind await exec_mq].
  - destruct f; [left|by right; left..].
    eexists _, _, _. split; [apply (fl_channel (mq_next s))|done].
  - destruct f; [left|by right; left..].
    eexists _, _, _. split; [apply (fl_exchange c c)|done].
  - destruct f; [left|by right; left..].
    eexists _, _, _. split; [apply (fl_install c ch)|done].
  - right; right. by exists c, ch.
Qed.

Lemma mq_turn_inv s a : mq_inv s → mq_inv (mq_turn s a).
Proof.
  intros Hinv. pose proof Hinv as [Hch Hfl Hd Hst]. destruct a as [f| | |f]; cbn [mq_turn].
  - destruct (mq_flight s) as [p|] eqn:Hp; [|by unfold fly; rewrite Hp].
    destruct (fly_cases f s p (Hfl p eq_refl) Hp)
      as [(q & open & next & Hq & ->)|[->|(c & ch & ->)]].
    + split; simpl; [done|by intros ? [= <-]|done|]. intros Hc. specialize (Hst Hc).
      unfold standing in *. rewrite Hp in Hst. done.
    + split; simpl; [done|done| |].
      * intros d [= <-]. apply reconnect_delay_bounds.
      * intros Hc. specialize (Hst Hc). unfold standing in *. rewrite Hp in Hst. simpl.
        by destruct (mq_connection s), (mq_timer s).
    + split; simpl; [by split; eexists|done|done|].
      intros Hc. specialize (Hst Hc). unfold standing in *. rewrite Hp in Hst. simpl.
      by destruct (mq_connection s), (mq_timer s).
  - unfold fire_timer. destruct (mq_timer s) as [d|] eqn:Ht; [|done].
    split; simpl; [done|intros p [= <-]; apply fl_start|done|].
    intros Hc. specialize (Hst Hc). unfold standing in *. rewrite Ht in Hst. simpl.
    by destruct (mq_connection s), (mq_flight s).
  - unfold connection_closed. destruct (mq_connection s) as [c|] eqn:Hc; [|done].
    destruct (mq_closing s) eqn:Hcl.
    + split; simpl; [by split; intros [? ?]|done|done|congruence].
    + split; simpl; [by split; intros [? ?]|done| |].
      * intros d [= <-]. apply reconnect_delay_bounds.
      * intros _. specialize (Hst eq_refl). unfold standing in *. rewrite Hc in Hst. simpl.
        by destruct (mq_timer s), (mq_flight s).
  - unfold shutdown, connection_closed. simpl.
    destruct f; [destruct (mq_connection s) as [c|] eqn:Hc|..]; by split; simpl; rewrite ?Hc.
Qed.

Lemma mq_turns_inv s acts : mq_inv s → mq_inv (foldl mq_turn s acts).
Proof. revert s. induction acts as [|a acts IH]; intros s Hs; simpl; auto using mq_turn_inv. Qed.

Lemma publish_settled_stays s e r :
  pb_result s = Some r → pb_result (publish_turn s e) = Some r.
Proof.
  intros Hr. destruct e as [|b]; simpl; [destruct (pb_timer s)|destruct (pb_sent s)];
    simpl; by rewrite ?Hr.
Qed.

Lemma publish_settled_forever s es r :
  pb_result s = Some r → pb_result (foldl publish_turn s es) = Some r.
Proof.
  revert s. induction es as [|e es IH]; intros s Hr; simpl; [done|].
  by apply IH, publish_settled_stays.
Qed.

(** ** The guarantees *)

(** The promise of a publish is settled by the first thing that happens, and only
    by it: at once when there is no channel or the channel throws, else by the timer
    or the confirm, whichever comes first; it resolves only on a positive confirm and
    every rejection is the error the filter answers with 503. *)
Theorem publish_settles_once connected thrown es :
  pb_result (foldl publish_turn (publish connected thrown) es) =
    match connected, thrown, es with
    | false, _, _ => Some (inl (MqUnavailableError "not connected"))
    | true, Some message, _ => Some (inl (MqUnavailableError message))
    | true, None, [] => None
    | true, None, TimerFires :: _ =>
        Some (inl (MqUnavailableError "confirm not received within 5000ms"))
    | true, None, Confirm true :: _ =>
        Some (inl (MqUnavailableError "broker rejected the publish (nack)"))
    | true, None, Confirm false :: _ => Some (inr tt)
    end.
Proof.
  destruct connected; [destruct thrown as [message|]|].
  - by apply publish_settled_forever.
  - destruct es as [|[|[]] es]; [done|cbn [foldl]; by apply publish_settled_forever..].
  - by apply publish_settled_forever.
Qed.

(** A rejected publish may be in the queue: when the confirm comes after the
    timer, the caller has been told that the broker was unavailable although the
    broker took the message. *)
Theorem late_confirm_is_rejected :
  let s := foldl publish_turn (publish true None) [TimerFires; Confirm false] in
  pb_sent s = true ∧
  pb_result s = Some (inl (MqUnavailableError "confirm not received within 5000ms")).
Proof. done. Qed.

(** C38. Until shutdown the publisher never gives up and never doubles its efforts:
    after a successful boot, whatever the broker does, it is either connected, or has
    one reconnect timer pending, or is connecting, and exactly one of these; a pending
    delay is between 500 ms and 5 s; and there is a channel just when connected. *)
Theorem publisher_never_gives_up fs s acts :
  onApplicationBootstrap fs = Some s →
  let s' := foldl mq_turn s acts in
  (mq_closing s' = false → count_true (standing s') = 1%nat) ∧
  (∀ d, mq_timer s' = Some d → RECONNECT_BASE_DELAY_MS ≤ d ≤ RECONNECT_MAX_DELAY_MS) ∧
  (is_Some (mq_channel s') ↔ is_Some (mq_connection s')).
Proof.
  intros Hs. destruct (mq_turns_inv s acts (mq_boot_inv fs s Hs)) as [Hch _ Hd Hst]. done.
Qed.

(** The delays double from 500 ms and stay at 5 s from the fifth attempt on. *)
Theorem backoff_exact n :
  reconnect_delay n = (if decide (n < 4)%nat then 500 * 2 ^ Z.of_nat n else 5000) ∧
  reconnect_delay n ≤ reconnect_delay (S n).
Proof.
  split; [|apply reconnect_delay_mono].
  unfold reconnect_delay, RECONNECT_BASE_DELAY_MS, RECONNECT_MAX_DELAY_MS. case_decide as Hn.
  - by destruct n as [|[|[|[|n]]]]; [..|lia].
  - assert (2 ^ 4 ≤ 2 ^ Z.of_nat n) by (apply Z.pow_le_mono_r; lia). lia.
Qed.

(** The connection is established, lost, and re-established during the shutdown. *)
Definition fx_mq : Mq := default mq_idle (onApplicationBootstrap []).

(** A shutdown that finds a reconnect under way does not stop it: [connect()] does
    not look at [closing] after its awaits, so it installs a connection that nobody
    closes; and if it fails it schedules another attempt. *)
Theorem shutdown_races_with_reconnect :
  let flying := foldl mq_turn fx_mq [ConnectionClosed; FireTimer; Fly FOk; Shutdown FOk] in
  let landed := foldl mq_turn flying [Fly FOk; Fly FOk; Fly FOk] in
  let failed := foldl mq_turn flying [Fly (FFail (Error "refused"))] in
  (mq_closing landed = true ∧ mq_connection landed = Some 1%nat ∧ mq_open landed = [1%nat]) ∧
  (mq_closing failed = true ∧ mq_timer failed = Some 1000).
Proof. by vm_compute. Qed.

(** A reconnect that reaches the broker but not the exchange never closes the connection
    it opened: every such attempt adds one. *)
Theorem failed_check_leaks_connection n :
  let attempt := [FireTimer; Fly FOk; Fly FOk; Fly (FFail (Error "no exchange"))] in
  let s := foldl mq_turn (mq_turn fx_mq ConnectionClosed) (mjoin (replicate n attempt)) in
  length (mq_open s) = n ∧ mq_connection s = None.
Proof.
  cbv zeta.
  assert (Hgen : ∀ n s, is_Some (mq_timer s) → mq_connection s = None →
    let s' := foldl mq_turn s (mjoin (replicate n
      [FireTimer; Fly FOk; Fly FOk; Fly (FFail (Error "no exchange"))])) in
    length (mq_open s') = (n + length (mq_open s))%nat ∧ mq_connection s' = None).
  { clear n. induction n as [|n IH]; intros s Ht Hc; [done|]. cbv zeta.
    rewrite replicate_S. cbn [mjoin list_join]. rewrite foldl_app.
    destruct Ht as [d Ht]. destruct s as [c ch cl t att fl op nx]. simpl in Ht, Hc. subst.
    destruct (IH (foldl mq_turn {| mq_connection := None; mq_channel := ch; mq_closing := cl;
      mq_timer := Some d; mq_attempt := att; mq_flight := fl; mq_open := op; mq_next := nx |}
      [FireTimer; Fly FOk; Fly FOk; Fly (FFail (Error "no exchange"))])) as [Hl Hn];
      [by eexists|done|].
    split; [|done]. cbv zeta in Hl. etransitivity; [exact Hl|]. cbn. lia. }
  destruct (Hgen n (mq_turn fx_mq ConnectionClosed)) as [Hl Hc]; [by eexists|done|].
  split; [|done]. rewrite Hl. vm_compute (mq_open _). cbn. lia.
Qed.

(** ** Witness *)

Lemma publisher_never_gives_up_witness :
  let s' := foldl mq_turn fx_mq [ConnectionClosed; FireTimer; Fly (FFail (Error "refused"))] in
  ((mq_closing s' = false → count_true (standing s') = 1%nat) ∧
   (∀ d, mq_timer s' = Some d → RECONNECT_BASE_DELAY_MS ≤ d ≤ RECONNECT_MAX_DELAY_MS) ∧
   (is_Some (mq_channel s') ↔ is_Some (mq_connection s'))) ∧ mq_timer s' = Some 1000.
Proof.
  cbv zeta. split; [|by vm_compute].
  by apply (publisher_never_gives_up [] fx_mq
    [ConnectionClosed; FireTimer; Fly (FFail (Error "refused"))]).
Defined.
