(* ===== verification/Chains.v ===== *)
(** The per-user promise chains of the worker, [enqueue] and [onApplicationShutdown]
    of [src/src/worker/worker-consumer.service.ts], as a state machine whose actions
    are the turns of the event loop; the abstract specification is a queue per user.

    A link is the promise [tail] one call of [enqueue] creates; promises are numbered
    in the order of their creation. [link_prev] is the promise the task was chained
    to, [None] for the already resolved [Promise.resolve()]. *)

From S2P Require Import Prelude.

(** ** State *)

Inductive phase := Waiting | Running | Fulfilled | Rejected.

#[export] Instance phase_eq_dec : EqDecision phase.
Proof. solve_decision. Defined.

(** How a task ends, what that makes of [previous.then(task)], and what
    [.catch((error) => { this.logger.error(...) })] makes of it: its handler returns, so
    a rejection becomes a fulfilment. *)
Inductive outcome := Resolves | Rejects.

Definition then_phase (o : outcome) : phase :=
  match o with Resolves => Fulfilled | Rejects => Rejected end.

Definition caught (p : phase) : phase :=
  match p with Rejected => Fulfilled | p => p end.

Section chains.
Context {T : Type}.

Record Link := {
  link_user : string;
  link_task : T;
  link_prev : option nat;
  link_phase : phase;
  link_cleaned : bool;
}.

(** [userChains] maps a user to the tail of its chain. *)
Record Chains := { userChains : gmap string nat; links : list Link }.

Definition no_chains : Chains := {| userChains := ∅; links := [] |}.

(** ** Operations *)

(** [enqueue(userId, task)]. *)
Definition enqueue (userId : string) (task : T) (s : Chains) : Chains :=
  {| userChains := <[userId := length (links s)]> (userChains s);
     links := links s ++
       [{| link_user := userId; link_task := task; link_prev := userChains s !! userId;
           link_phase := Waiting; link_cleaned := false |}] |}.

Definition with_phase (p : phase) (l : Link) : Link :=
  {| link_user := link_user l; link_task := link_task l; link_prev := link_prev l;
     link_phase := p; link_cleaned := link_cleaned l |}.

Definition with_cleaned (l : Link) : Link :=
  {| link_user := link_user l; link_task := link_task l; link_prev := link_prev l;
     link_phase := link_phase l; link_cleaned := true |}.

(** What a promise is; [Promise.resolve()] is fulfilled. *)
Definition promise (s : Chains) (p : option nat) : phase :=
  match p with
  | None => Fulfilled
  | Some n => match links s !! n with Some l => link_phase l | None => Waiting end
  end.

Definition fulfilled (s : Chains) (p : option nat) : bool :=
  bool_decide (promise s p = Fulfilled).

Definition settled (s : Chains) (p : option nat) : bool :=
  bool_decide (promise s p = Fulfilled ∨ promise s p = Rejected).

(** [void tail.then(() => { if (userChains.get(userId) === tail) delete })]. *)
Definition cleanup (n : nat) (l : Link) (s : Chains) : Chains :=
  {| userChains :=
       if bool_decide (userChains s !! link_user l = Some n)
       then delete (link_user l) (userChains s) else userChains s;
     links := <[n := with_cleaned l]> (links s) |}.

(** The turns of the event loop: a message arrives; the task of a link starts, once
    the promise before it is fulfilled ([then(task)] runs its task in no other case); it
    ends, normally or by an exception, and the tail is what the [catch] makes of that;
    the clean-up callback runs, once the tail is fulfilled. *)
Inductive action :=
| Arrive (userId : string) (task : T)
| Start (n : nat)
| Finish (n : nat) (o : outcome)
| Cleanup (n : nat).

Definition fire (a : action) (s : Chains) : option Chains :=
  match a with
  | Arrive u t => Some (enqueue u t s)
  | Start n =>
      l ← links s !! n;
      if bool_decide (link_phase l = Waiting) && fulfilled s (link_prev l)
      then Some {| userChains := userChains s; links := <[n := with_phase Running l]> (links s) |}
      else None
  | Finish n o =>
      l ← links s !! n;
      if bool_decide (link_phase l = Running)
      then Some {| userChains := userChains s;
                   links := <[n := with_phase (caught (then_phase o)) l]> (links s) |}
      else None
  | Cleanup n =>
      l ← links s !! n;
      if bool_decide (link_phase l = Fulfilled) && negb (link_cleaned l)
      then Some (cleanup n l s)
      else None
  end.

(** A run of the event loop. *)
Fixpoint fires (acts : list action) (s : Chains) : option Chains :=
  match acts with
  | [] => Some s
  | a :: acts => s' ← fire a s; fires acts s'
  end.

(** [Promise.allSettled([...this.userChains.values()])] resolves. *)
Definition all_settled (s : Chains) : Prop :=
  ∀ u n, userChains s !! u = Some n → settled s (Some n) = true.

(** ** The specification: a queue per user *)

Definition pending (u : string) (s : Chains) : list T :=
  link_task <$> filter (λ l, link_user l = u ∧ link_phase l ≠ Fulfilled) (links s).

(** What an action does to the queue of [u]. *)
Definition queue_action (u : string) (a : action) (s : Chains) (q : list T) : list T :=
  match a with
  | Arrive v t => if decide (v = u) then q ++ [t] else q
  | Finish n _ =>
      match links s !! n with
      | Some l => if decide (link_user l = u) then tail q else q
      | None => q
      end
  | Start _ | Cleanup _ => q
  end.

(** ** The invariant *)

Definition earlier_settled (s : Chains) (u : string) (n : nat) : Prop :=
  ∀ m l, links s !! m = Some l → m < n → link_user l = u → link_phase l = Fulfilled.

Record chains_inv (s : Chains) : Prop := {
  ci_tail u n : userChains s !! u = Some n →
    ∃ l, links s !! n = Some l ∧ link_user l = u ∧ link_cleaned l = false ∧
      ∀ m l', links s !! m = Some l' → link_user l' = u → m ≤ n;
  ci_none u : userChains s !! u = None → earlier_settled s u (length (links s));
  ci_prev n l : links s !! n = Some l →
    match link_prev l with
    | None => earlier_settled s (link_user l) n
    | Some p => p < n ∧
        (∃ lp, links s !! p = Some lp ∧ link_user lp = link_user l) ∧
        ∀ m l', links s !! m = Some l' → p < m < n → link_user l' ≠ link_user l
    end;
  ci_started n l : links s !! n = Some l → link_phase l ≠ Waiting →
    earlier_settled s (link_user l) n;
  ci_cleaned n l : links s !! n = Some l → link_cleaned l = true → link_phase l = Fulfilled;
  ci_caught n l : links s !! n = Some l → link_phase l ≠ Rejected;
}.

(** ** Lemmas *)

Lemma no_chains_inv : chains_inv no_chains.
Proof. by split; intros; simplify_eq/=. Qed.

Lemma fire_start n s s' :
  fire (Start n) s = Some s' ↔
  ∃ l, links s !! n = Some l ∧ link_phase l = Waiting ∧ fulfilled s (link_prev l) = true ∧
    s' = {| userChains := userChains s; links := <[n := with_phase Running l]> (links s) |}.
Proof.
  simpl. destruct (links s !! n) as [l|]; simpl; [|naive_solver].
  case_bool_decide; destruct (fulfilled s (link_prev l)) eqn:?; simpl;
    (split; [intros [=]; by exists l|intros (? & [= <-] & ? & ? & ->); congruence]).
Qed.

Lemma caught_then o : caught (then_phase o) = Fulfilled.
Proof. by destruct o. Qed.

Lemma fire_finish n o s s' :
  fire (Finish n o) s = Some s' ↔
  ∃ l, links s !! n = Some l ∧ link_phase l = Running ∧
    s' = {| userChains := userChains s; links := <[n := with_phase Fulfilled l]> (links s) |}.
Proof.
  cbn [fire]. rewrite caught_then. destruct (links s !! n) as [l|]; simpl; [|naive_solver].
  case_bool_decide; (split; [intros [=]; by exists l|intros (? & [= <-] & ? & ->); congruence]).
Qed.

Lemma fire_cleanup n s s' :
  fire (Cleanup n) s = Some s' ↔
  ∃ l, links s !! n = Some l ∧ link_phase l = Fulfilled ∧ link_cleaned l = false ∧
    s' = cleanup n l s.
Proof.
  simpl. destruct (links s !! n) as [l|]; simpl; [|naive_solver].
  case_bool_decide; destruct (link_cleaned l) eqn:?; simpl;
    (split; [intros [=]; by exists l|intros (? & [= <-] & ? & ? & ->); congruence]).
Qed.

(** The predecessor being fulfilled, everything earlier of the user is. *)
Lemma prev_settled s n l :
  chains_inv s → links s !! n = Some l → fulfilled s (link_prev l) = true →
  earlier_settled s (link_user l) n.
Proof.
  intros Hinv Hl Hs. pose proof (ci_prev _ Hinv _ _ Hl) as Hp.
  destruct (link_prev l) as [p|]; [|done]. destruct Hp as (Hlt & (lp & Hlp & Hu) & Hbetween).
  apply bool_decide_eq_true in Hs. cbn [promise] in Hs. rewrite Hlp in Hs.
  intros m lm Hlm Hm Hum. destruct (Nat.lt_trichotomy m p) as [Hmp|[->|Hmp]].
  - eapply (ci_started _ Hinv p lp); [done|by rewrite Hs|done..|congruence].
  - congruence.
  - by destruct (Hbetween m lm Hlm (conj Hmp Hm)).
Qed.

(** A link that is updated without touching its user: the lookups of the others. *)
Lemma links_insert_lookup (ls : list Link) n l l' m x :
  ls !! n = Some l → <[n := l']> ls !! m = Some x ↔
    (m = n ∧ x = l') ∨ (m ≠ n ∧ ls !! m = Some x).
Proof.
  intros Hl. destruct (decide (m = n)) as [->|Hne].
  - rewrite list_lookup_insert_eq by (by eapply lookup_lt_Some). naive_solver.
  - rewrite list_lookup_insert_ne by done. naive_solver.
Qed.

(** Updating a link, forward in phase or by its clean-up, keeps what is settled. *)
Lemma earlier_settled_insert s mp n l l' u k :
  links s !! n = Some l → link_user l' = link_user l →
  (link_phase l = Fulfilled → link_phase l' = Fulfilled) →
  earlier_settled s u k →
  earlier_settled {| userChains := mp; links := <[n := l']> (links s) |} u k.
Proof.
  intros Hl Hu Hset He m x Hx Hm Hxu. simpl in Hx.
  apply (links_insert_lookup _ _ l) in Hx as [[-> ->]|[Hne Hx]]; [|by eapply He|done].
  apply Hset. eapply He; [done..|congruence].
Qed.

(** The parts of the invariant about the links survive such an update. *)
Lemma update_link_inv s mp n l l' :
  chains_inv s → links s !! n = Some l →
  link_user l' = link_user l → link_prev l' = link_prev l →
  (link_phase l = Fulfilled → link_phase l' = Fulfilled) →
  (link_phase l' ≠ Waiting → earlier_settled s (link_user l) n) →
  (link_cleaned l' = true → link_phase l' = Fulfilled) →
  link_phase l' ≠ Rejected →
  (∀ u k, mp !! u = Some k → userChains s !! u = Some k ∧
     (k = n → link_cleaned l' = false)) →
  (∀ u, mp !! u = None → earlier_settled s u (length (links s))) →
  chains_inv {| userChains := mp; links := <[n := l']> (links s) |}.
Proof.
  intros Hinv Hl Hu Hp Hset Hstart Hclean Hrej Htail Hnone.
  split; cbn [userChains links].
  - intros u k Hk. destruct (Htail u k Hk) as [Hk' Hkn].
    destruct (ci_tail _ Hinv u k Hk') as (lk & Hlk & Huk & Hck & Hmax).
    assert (Hmax' : ∀ m x, <[n := l']> (links s) !! m = Some x → link_user x = u → m ≤ k).
    { intros m x Hx Hxu. apply (links_insert_lookup _ _ l) in Hx as [[-> ->]|[_ Hx]];
        [| |done]; eapply Hmax; [done|congruence|done..]. }
    destruct (decide (k = n)) as [->|Hne].
    + exists l'. rewrite list_lookup_insert_eq by (by eapply lookup_lt_Some).
      split_and!; [done|congruence|by apply Hkn|done].
    + exists lk. by rewrite list_lookup_insert_ne.
  - intros u Hu'. rewrite length_insert. eapply earlier_settled_insert; [done..|by apply Hnone].
  - intros m x Hx. apply (links_insert_lookup _ _ l) in Hx as [[-> ->]|[Hne Hx]]; [| |done].
    + pose proof (ci_prev _ Hinv n l Hl) as Hprev. rewrite Hp, Hu.
      destruct (link_prev l) as [p|]; [|by eapply earlier_settled_insert].
      destruct Hprev as (Hlt & (lp & Hlp & Hulp) & Hbt). split_and!; [done| |].
      * exists lp. rewrite list_lookup_insert_ne by lia. done.
      * intros m y Hy Hm. rewrite list_lookup_insert_ne in Hy by lia. by eapply Hbt.
    + pose proof (ci_prev _ Hinv m x Hx) as Hprev.
      destruct (link_prev x) as [p|]; [|by eapply earlier_settled_insert].
      destruct Hprev as (Hlt & (lp & Hlp & Hulp) & Hbt). split_and!; [done| |].
      * destruct (decide (p = n)) as [->|Hpn].
        -- exists l'. rewrite list_lookup_insert_eq by (by eapply lookup_lt_Some).
           split; [done|congruence].
        -- exists lp. by rewrite list_lookup_insert_ne.
      * intros k y Hy Hk. apply (links_insert_lookup _ _ l) in Hy as [[-> ->]|[_ Hy]];
          [|by eapply Hbt|done]. rewrite Hu. by eapply Hbt.
  - intros m x Hx Hph. apply (links_insert_lookup _ _ l) in Hx as [[-> ->]|[Hne Hx]]; [| |done];
      (eapply earlier_settled_insert; [done..|]).
    + rewrite Hu. by apply Hstart.
    + by eapply (ci_started _ Hinv).
  - intros m x Hx Hc. apply (links_insert_lookup _ _ l) in Hx as [[-> ->]|[Hne Hx]]; [by auto| |done].
    by eapply (ci_cleaned _ Hinv).
  - intros m x Hx. apply (links_insert_lookup _ _ l) in Hx as [[-> ->]|[_ Hx]]; [done| |done].
    by eapply (ci_caught _ Hinv).
Qed.

Lemma chain_enqueue_inv u t s : chains_inv s → chains_inv (enqueue u t s).
Proof.
  intros Hinv. unfold enqueue. set (new := Build_Link u t _ _ _).
  assert (Hnew : ∀ m x, (links s ++ [new]) !! m = Some x ↔
    links s !! m = Some x ∨ (m = length (links s) ∧ x = new)).
  { intros m x. rewrite lookup_app_Some, list_lookup_singleton_Some.
    split; [|intros [?|[-> ->]]; [by left|right]].
    - intros [?|[? [? <-]]]; [by left|right]. split; [lia|done].
    - split; [lia|]. split; [lia|done]. }
  assert (Hold : ∀ m x, links s !! m = Some x → m < length (links s))
    by (intros m x; apply lookup_lt_Some).
  split; cbn [userChains links].
  - intros v n Hn. destruct (decide (v = u)) as [->|Hne].
    + rewrite lookup_insert_eq in Hn. injection Hn as <-. exists new.
      split_and!; [apply Hnew; by right|done..|].
      intros m x [Hx|[-> _]]%Hnew _; [|done]. apply Hold in Hx. lia.
    + rewrite lookup_insert_ne in Hn by done.
      destruct (ci_tail _ Hinv v n Hn) as (l & Hl & Hu & Hc & Hmax).
      exists l. split_and!; [apply Hnew; by left|done..|].
      intros m x [Hx|[-> ->]]%Hnew Hxu; [by eapply Hmax|]. by simpl in Hxu; subst v.
  - intros v Hv. destruct (decide (v = u)) as [->|Hne]; [by rewrite lookup_insert_eq in Hv|].
    rewrite lookup_insert_ne in Hv by done. intros m x [Hx|[-> ->]]%Hnew _ Hxu.
    + eapply (ci_none _ Hinv v Hv); [done|by eapply Hold|done].
    + by simpl in Hxu; subst v.
  - intros n l [Hl|[-> ->]]%Hnew.
    + pose proof (ci_prev _ Hinv n l Hl) as Hp. pose proof (Hold _ _ Hl) as Hn.
      destruct (link_prev l) as [p|].
      * destruct Hp as (Hlt & (lp & Hlp & Hulp) & Hbt). split_and!; [done| |].
        -- exists lp. split; [apply Hnew; by left|done].
        -- intros m x [Hx|[-> _]]%Hnew Hm; [by eapply Hbt|lia].
      * intros m x [Hx|[-> _]]%Hnew Hm Hxu; [by eapply Hp|lia].
    + cbn [link_prev new link_user]. destruct (userChains s !! u) as [p|] eqn:Hp.
      * destruct (ci_tail _ Hinv u p Hp) as (l & Hl & Hu & _ & Hmax).
        split_and!; [by eapply Hold| |].
        -- exists l. split; [apply Hnew; by left|done].
        -- intros m x [Hx|[-> _]]%Hnew Hm Hxu; [|lia]. apply Hmax in Hx; [lia|done].
      * intros m x [Hx|[-> _]]%Hnew Hm Hxu; [|lia]. by eapply (ci_none _ Hinv u).
  - intros n l [Hl|[-> ->]]%Hnew Hph; [|done].
    intros m x [Hx|[-> _]]%Hnew Hm Hxu; [by apply (ci_started _ Hinv n l Hl Hph m x)|].
    apply Hold in Hl. lia.
  - intros n l [Hl|[-> ->]]%Hnew Hc; [by eapply (ci_cleaned _ Hinv)|done].
  - intros n l [Hl|[-> ->]]%Hnew; [by eapply (ci_caught _ Hinv)|done].
Qed.

(** Every turn of the event loop keeps the invariant. *)
Lemma fire_inv a s s' : chains_inv s → fire a s = Some s' → chains_inv s'.
Proof.
  intros Hinv. destruct a as [u t|n|n o|n].
  - intros [= <-]. by apply chain_enqueue_inv.
  - intros (l & Hl & Hph & Hprev & ->)%fire_start.
    apply (update_link_inv s _ n l); try done.
    + by rewrite Hph.
    + intros _. by apply prev_settled.
    + intros Hc. apply (ci_cleaned _ Hinv n l Hl) in Hc. congruence.
    + intros u k Hk. split; [done|]. intros ->.
      destruct (ci_tail _ Hinv u n Hk) as (l' & Hl' & _ & Hc & _). simpl. congruence.
    + apply (ci_none _ Hinv).
  - intros (l & Hl & Hph & ->)%fire_finish.
    apply (update_link_inv s _ n l); try done.
    + intros _. apply (ci_started _ Hinv n l Hl). by rewrite Hph.
    + intros u k Hk. split; [done|]. intros ->.
      destruct (ci_tail _ Hinv u n Hk) as (l' & Hl' & _ & Hc & _). simpl. congruence.
    + apply (ci_none _ Hinv).
  - intros (l & Hl & Hph & Hcl & ->)%fire_cleanup. unfold cleanup.
    apply (update_link_inv s _ n l); try done.
    + intros _. apply (ci_started _ Hinv n l Hl). by rewrite Hph.
    + simpl. by rewrite Hph.
    + intros u k. case_bool_decide as Hd; [|intros Hk; split; [done|]].
      * intros [Hne Hk]%lookup_delete_Some. split; [done|]. intros ->.
        destruct (ci_tail _ Hinv u n Hk) as (l' & Hl' & Hu & _). congruence.
      * intros ->. destruct (ci_tail _ Hinv u n Hk) as (l' & Hl' & Hu & _). congruence.
    + intros u. case_bool_decide as Hd; [|apply (ci_none _ Hinv)].
      rewrite lookup_delete_None. intros [<-|Hn]; [|by apply (ci_none _ Hinv)].
      destruct (ci_tail _ Hinv _ n Hd) as (l' & Hl' & Hu & _ & Hmax).
      assert (l' = l) as -> by congruence.
      intros m x Hx Hm Hxu. pose proof (Hmax m x Hx Hxu) as Hmn.
      destruct (decide (m = n)) as [->|Hne]; [congruence|].
      eapply (ci_started _ Hinv n l Hl); [by rewrite Hph|done|lia|done].
Qed.

Lemma fires_inv acts s s' : chains_inv s → fires acts s = Some s' → chains_inv s'.
Proof.
  revert s. induction acts as [|a acts IH]; intros s Hinv; simpl; [by intros [= <-]|].
  destruct (fire a s) as [s1|] eqn:E; simpl; [|done]. apply IH. by eapply fire_inv.
Qed.

(** ** The queues *)

Definition counts (u : string) (l : Link) : Prop := link_user l = u ∧ link_phase l ≠ Fulfilled.

#[local] Instance counts_dec u l : Decision (counts u l).
Proof. unfold counts. apply _. Defined.

Definition tasks (u : string) (ls : list Link) : list T := link_task <$> filter (counts u) ls.

Lemma pending_tasks u s : pending u s = tasks u (links s).
Proof. unfold pending, tasks. f_equal. Qed.

Lemma tasks_app u ls1 ls2 : tasks u (ls1 ++ ls2) = tasks u ls1 ++ tasks u ls2.
Proof. unfold tasks. by rewrite filter_app, fmap_app. Qed.

Lemma tasks_cons u l ls :
  tasks u (l :: ls) = (if decide (counts u l) then [link_task l] else []) ++ tasks u ls.
Proof. unfold tasks. rewrite filter_cons. by case_decide. Qed.

(** The tasks that come before a link whose predecessors are settled: none. *)
Lemma tasks_take_settled s u n :
  earlier_settled s u n → tasks u (take n (links s)) = [].
Proof.
  intros He. unfold tasks.
  destruct (filter (counts u) (take n (links s))) as [|l ls] eqn:E; [done|exfalso].
  assert (Hl : l ∈ filter (counts u) (take n (links s))) by (rewrite E; left).
  apply list_elem_of_filter in Hl as [[Hu Hph] Hl].
  apply list_elem_of_lookup in Hl as [m Hm]. apply lookup_take_Some in Hm as [Hm Hlt].
  apply Hph. by eapply He.
Qed.

(** Updating one link changes the tasks at its place only. *)
Lemma tasks_insert u n l l' ls :
  ls !! n = Some l →
  tasks u ls = tasks u (take n ls) ++ tasks u [l] ++ tasks u (drop (S n) ls) ∧
  tasks u (<[n := l']> ls) = tasks u (take n ls) ++ tasks u [l'] ++ tasks u (drop (S n) ls).
Proof.
  intros Hl. pose proof (lookup_lt_Some _ _ _ Hl) as Hlt. split.
  - rewrite <- (take_drop_middle ls n l Hl) at 1. rewrite tasks_app. f_equal. by rewrite <- tasks_app.
  - rewrite insert_take_drop by done. rewrite tasks_app. f_equal. by rewrite <- tasks_app.
Qed.

(** An update that does not change whether the link counts changes no queue. *)
Lemma pending_same s mp n l l' u :
  links s !! n = Some l → link_task l' = link_task l → (counts u l' ↔ counts u l) →
  pending u {| userChains := mp; links := <[n := l']> (links s) |} = pending u s.
Proof.
  intros Hl Ht Hc. rewrite !pending_tasks. cbn [links].
  destruct (tasks_insert u n l l' (links s) Hl) as [H1 H2]. rewrite H2, H1.
  do 2 f_equal. rewrite !tasks_cons, Ht. destruct (decide (counts u l)), (decide (counts u l')); tauto.
Qed.

Lemma pending_enqueue u v t s :
  pending u (enqueue v t s) = if decide (v = u) then pending u s ++ [t] else pending u s.
Proof.
  rewrite !pending_tasks. cbn [enqueue links]. rewrite tasks_app, tasks_cons.
  unfold counts at 1. cbn [link_user link_phase link_task].
  destruct (decide (v = u)) as [Hv|Hv].
  - by rewrite decide_True by (split; [done|discriminate]).
  - rewrite decide_False by (by intros [? _]). by rewrite !app_nil_r.
Qed.

(** A link that starts or ends is the head of its user's queue. *)
Lemma pending_head s n l :
  chains_inv s → links s !! n = Some l → link_phase l ≠ Fulfilled →
  earlier_settled s (link_user l) n →
  pending (link_user l) s = link_task l :: tasks (link_user l) (drop (S n) (links s)).
Proof.
  intros Hinv Hl Hph He. rewrite pending_tasks.
  destruct (tasks_insert (link_user l) n l l (links s) Hl) as [H1 _].
  by rewrite H1, tasks_take_settled, tasks_cons, decide_True.
Qed.

Lemma pending_finish s n l u :
  chains_inv s → links s !! n = Some l → link_phase l = Running →
  pending u {| userChains := userChains s; links := <[n := with_phase Fulfilled l]> (links s) |} =
    if decide (link_user l = u) then tail (pending u s) else pending u s.
Proof.
  intros Hinv Hl Hph.
  assert (He : earlier_settled s (link_user l) n).
  { apply (ci_started _ Hinv n l Hl). by rewrite Hph. }
  case_decide as Hu.
  - subst u. rewrite (pending_head s n l) by (try done; by rewrite Hph).
    rewrite pending_tasks. cbn [links].
    destruct (tasks_insert (link_user l) n l (with_phase Fulfilled l) (links s) Hl) as [_ H2].
    rewrite H2, tasks_take_settled, tasks_cons by done.
    rewrite decide_False; [done|]. intros [_ Hn]. by apply Hn.
  - eapply pending_same; [done|done|]. unfold counts; simpl. by split; intros [? _].
Qed.

(** ** Reachability, and that every chain can be drained *)

Definition reachable (s : Chains) : Prop := ∃ acts, fires acts no_chains = Some s.

Lemma reachable_inv s : reachable s → chains_inv s.
Proof. intros [acts Hacts]. eapply fires_inv; [apply no_chains_inv|done]. Qed.

Definition all_links_settled (s : Chains) : Prop :=
  ∀ n l, links s !! n = Some l → link_phase l = Fulfilled.

Definition is_arrival (a : action) : bool :=
  match a with Arrive _ _ => true | _ => false end.

(** Nobody's link becomes somebody else's. *)
Lemma fire_link_user a s s' m l :
  fire a s = Some s' → is_arrival a = false → links s' !! m = Some l →
  ∃ l0, links s !! m = Some l0 ∧ link_user l0 = link_user l.
Proof.
  destruct a as [v t|k|k o|k]; [done|..]; intros Hf _ Hm.
  - apply fire_start in Hf as (x & Hx & _ & _ & ->). simpl in Hm.
    apply (links_insert_lookup _ _ x) in Hm as [[-> ->]|[_ Hm]]; [by eexists|by eexists|done].
  - apply fire_finish in Hf as (x & Hx & _ & ->). simpl in Hm.
    apply (links_insert_lookup _ _ x) in Hm as [[-> ->]|[_ Hm]]; [by eexists|by eexists|done].
  - apply fire_cleanup in Hf as (x & Hx & _ & _ & ->). simpl in Hm.
    apply (links_insert_lookup _ _ x) in Hm as [[-> ->]|[_ Hm]]; [by eexists|by eexists|done].
Qed.

(** An unsettled link can start, or end, or waits for one that can. *)
Lemma inv_progress s n l :
  chains_inv s → links s !! n = Some l → link_phase l ≠ Fulfilled →
  ∃ m l', m ≤ n ∧ links s !! m = Some l' ∧ link_user l' = link_user l ∧
    (is_Some (fire (Start m) s) ∨ ∀ o, is_Some (fire (Finish m o) s)).
Proof.
  intros Hinv. revert l.
  induction (lt_wf n) as [n _ IH]. intros l Hl Hph.
  destruct (link_phase l) eqn:E;
    [|exists n, l; split_and!; [done..|right]|done|by destruct (ci_caught _ Hinv n l Hl)].
  - destruct (fulfilled s (link_prev l)) eqn:Hs.
    + exists n, l. split_and!; [done..|left]. eexists. apply fire_start. eauto.
    + pose proof (ci_prev _ Hinv n l Hl) as Hp. destruct (link_prev l) as [p|]; [|done].
      destruct Hp as (Hlt & (lp & Hlp & Hu) & _). apply bool_decide_eq_false in Hs.
      cbn [promise] in Hs. rewrite Hlp in Hs.
      destruct (IH p Hlt lp Hlp Hs) as (m & l' & Hm & Hl' & Hu' & Hf).
      exists m, l'. split_and!; [lia|done|congruence|done].
  - intros o. eexists. apply fire_finish. eauto.
Qed.

(** The turns a link still has to take. *)
Definition turns_left (l : Link) : nat :=
  match link_phase l with Waiting => 2 | Running => 1 | Fulfilled | Rejected => 0 end.

Lemma turns_left_insert (ls : list Link) n l l' :
  ls !! n = Some l → turns_left l' < turns_left l →
  sum_list (turns_left <$> <[n := l']> ls) < sum_list (turns_left <$> ls).
Proof.
  intros Hl Hlt. pose proof (lookup_lt_Some _ _ _ Hl) as Hn.
  rewrite insert_take_drop by done. rewrite <- (take_drop_middle ls n l Hl) at 3.
  rewrite !fmap_app, !fmap_cons, !sum_list_with_app.
  simpl. lia.
Qed.

(** Without arrivals every chain can be run to its end. *)
Lemma chains_drain s :
  chains_inv s →
  ∃ acts s', Forall (λ a, is_arrival a = false) acts ∧ fires acts s = Some s' ∧
    all_links_settled s'.
Proof.
  remember (sum_list (turns_left <$> links s)) as k eqn:Hk. revert s Hk.
  induction (lt_wf k) as [k _ IH]. intros s -> Hinv.
  destruct (decide (Exists (λ l, link_phase l ≠ Fulfilled) (links s))) as [Hex|Hall].
  - apply Exists_exists in Hex as (l & Hin & Hph). apply list_elem_of_lookup in Hin as [n Hl].
    destruct (inv_progress s n l Hinv Hl Hph) as (m & l' & _ & Hl' & _ & Hfire).
    assert (∃ a s1, is_arrival a = false ∧ fire a s = Some s1 ∧
      sum_list (turns_left <$> links s1) < sum_list (turns_left <$> links s))
      as (a & s1 & Ha & Hs1 & Hlt).
    { destruct Hfire as [[s1 Hs1]|Hs1]; [|specialize (Hs1 Resolves) as [s1 Hs1]].
      - exists (Start m), s1. split_and!; [done|done|].
        apply fire_start in Hs1 as (x & Hx & Hpx & _ & ->).
        apply (turns_left_insert _ _ x); [done|]. unfold turns_left. rewrite Hpx. simpl. lia.
      - exists (Finish m Resolves), s1. split_and!; [done|done|].
        apply fire_finish in Hs1 as (x & Hx & Hpx & ->).
        apply (turns_left_insert _ _ x); [done|]. unfold turns_left. rewrite Hpx. simpl. lia. }
    destruct (IH _ Hlt s1 eq_refl (fire_inv a s s1 Hinv Hs1)) as (acts & s' & Hacts & Hs' & Hset).
    exists (a :: acts), s'. split_and!; [by constructor| |done]. simpl. by rewrite Hs1.
  - exists [], s. split_and!; [done|done|]. intros n l Hl.
    destruct (decide (link_phase l = Fulfilled)) as [|Hn]; [done|]. destruct Hall.
    apply Exists_exists. exists l. split; [by eapply list_elem_of_lookup_2|done].
Qed.

(** ** The guarantees *)

(** C14. The chains implement a queue per user: a message joins the end of its own
    user's queue, a task that ends leaves the head, nothing else changes a queue; and
    a task that starts, or that ends, is the head of its user's queue. So the messages
    of a user are processed one at a time and in the order of their arrival, and
    those of other users do not wait for them. *)
Theorem chains_refine_queues a s s' u :
  reachable s → fire a s = Some s' →
  pending u s' = queue_action u a s (pending u s) ∧
  ∀ n l, a = Start n ∨ (∃ o, a = Finish n o) → links s !! n = Some l →
    head (pending (link_user l) s) = Some (link_task l).
Proof.
  intros Hr Hfire. pose proof (reachable_inv s Hr) as Hinv.
  destruct a as [v t|n|n o|n]; cbn [queue_action].
  - injection Hfire as <-. split; [apply pending_enqueue|]. by intros ? ? [?|[? ?]].
  - apply fire_start in Hfire as (l & Hl & Hph & Hprev & ->). split.
    + eapply pending_same; [done|done|]. unfold counts. simpl. rewrite Hph. by split; intros [? _].
    + intros k x [[= <-]|[? ?]] Hx; [|done]. assert (x = l) as -> by congruence.
      rewrite (pending_head s n l); [done..| |by apply prev_settled]. by rewrite Hph.
  - apply fire_finish in Hfire as (l & Hl & Hph & ->). rewrite Hl. split.
    + by apply pending_finish.
    + intros k x [?|[? Hk]] Hx; [done|]. injection Hk as <- _. assert (x = l) as -> by congruence.
      rewrite (pending_head s n l); [done..| |]; [by rewrite Hph|].
      apply (ci_started _ Hinv n l Hl). by rewrite Hph.
  - apply fire_cleanup in Hfire as (l & Hl & Hph & Hc & ->). split; [|by intros ? ? [?|[? ?]]].
    by eapply pending_same.
Qed.

(** Two tasks of one user never run at the same time. *)
Theorem one_task_per_user s n m l l' :
  reachable s → links s !! n = Some l → links s !! m = Some l' →
  link_phase l = Running → link_phase l' = Running → link_user l = link_user l' → n = m.
Proof.
  intros Hr Hl Hl' Hph Hph' Hu. pose proof (reachable_inv s Hr) as Hinv.
  destruct (Nat.lt_trichotomy n m) as [Hlt|[?|Hlt]]; [exfalso|done|exfalso].
  - assert (link_phase l = Fulfilled); [|congruence].
    eapply (ci_started _ Hinv m l'); [done|by rewrite Hph'|done..].
  - assert (link_phase l' = Fulfilled); [|congruence].
    eapply (ci_started _ Hinv n l); [done|by rewrite Hph|done..].
Qed.

(** No user is forgotten and no entry leaks: whoever has an unsettled message has
    an entry in the map, which is never another user's or an older tail; and when
    every clean-up callback has run, the map is empty. *)
Theorem chain_map_exact s :
  reachable s →
  (∀ n l, links s !! n = Some l → link_phase l ≠ Fulfilled →
     ∃ k l', userChains s !! link_user l = Some k ∧ n ≤ k ∧ links s !! k = Some l' ∧
       link_user l' = link_user l) ∧
  ((∀ n l, links s !! n = Some l → link_cleaned l = true) → userChains s = ∅).
Proof.
  intros Hr. pose proof (reachable_inv s Hr) as Hinv. split.
  - intros n l Hl Hph. destruct (userChains s !! link_user l) as [k|] eqn:Hk.
    + destruct (ci_tail _ Hinv _ _ Hk) as (l' & Hl' & Hu & _ & Hmax).
      exists k, l'. split_and!; [done|by eapply Hmax|done..].
    + destruct Hph. eapply (ci_none _ Hinv); [done..| |done]. by eapply lookup_lt_Some.
  - intros Hall. apply map_eq. intros u. rewrite lookup_empty.
    destruct (userChains s !! u) as [k|] eqn:Hk; [|done].
    destruct (ci_tail _ Hinv _ _ Hk) as (l & Hl & _ & Hc & _).
    apply Hall in Hl. congruence.
Qed.

(** Shutdown drains everything: when the promises that the map holds are settled,
    every message that ever arrived is, whatever its place in its chain. *)
Theorem shutdown_drains s n l :
  reachable s → all_settled s → links s !! n = Some l → link_phase l = Fulfilled.
Proof.
  intros Hr Hall Hl. destruct (decide (link_phase l = Fulfilled)) as [|Hph]; [done|].
  pose proof (reachable_inv s Hr) as Hinv.
  destruct (userChains s !! link_user l) as [k|] eqn:Hk.
  - destruct (ci_tail _ Hinv _ _ Hk) as (l' & Hl' & Hu & _ & Hmax).
    specialize (Hall _ _ Hk). apply bool_decide_eq_true in Hall. cbn [promise] in Hall.
    rewrite Hl' in Hall. destruct Hall as [Hall|Hall]; [|by destruct (ci_caught _ Hinv k l' Hl')].
    destruct (decide (n = k)) as [->|Hne]; [congruence|].
    assert (n ≤ k) by (by eapply Hmax).
    eapply (ci_started _ Hinv k l'); [done|by rewrite Hall|done|lia|done].
  - eapply (ci_none _ Hinv); [done..| |done]. by eapply lookup_lt_Some.
Qed.

(** No message is stuck: whenever one is not settled, the task of some message of
    the same user can start or is running and can end. *)
Theorem chains_progress s n l :
  reachable s → links s !! n = Some l → link_phase l ≠ Fulfilled →
  ∃ m l', m ≤ n ∧ links s !! m = Some l' ∧ link_user l' = link_user l ∧
    (is_Some (fire (Start m) s) ∨ ∀ o, is_Some (fire (Finish m o) s)).
Proof.
  intros Hr. apply inv_progress, reachable_inv, Hr.
Qed.
End chains.

(** ** Witnesses *)

(** Two messages of "u" and one of "v"; the second of "u" arrives while the first runs. *)
Definition fx_arrivals : list (action (T := nat)) :=
  [Arrive "u" 1; Start 0; Arrive "u" 2; Arrive "v" 3; Start 2].

Definition fx_chains : Chains (T := nat) := default no_chains (fires fx_arrivals no_chains).

Lemma fx_reachable : reachable fx_chains.
Proof. by exists fx_arrivals. Qed.

Lemma chains_refine_queues_witness :
  pending "u" fx_chains = [1; 2] ∧
  (pending "u" (default no_chains (fire (Finish 0 Rejects) fx_chains)) =
     queue_action "u" (Finish 0 Rejects) fx_chains (pending "u" fx_chains) ∧
   ∀ n l, Finish (T := nat) 0 Rejects = Start n ∨ (∃ o, Finish (T := nat) 0 Rejects = Finish n o) →
     links fx_chains !! n = Some l →
     head (pending (link_user l) fx_chains) = Some (link_task l)).
Proof.
  split; [reflexivity|].
  apply (chains_refine_queues (Finish 0 Rejects) fx_chains _ "u"); [apply fx_reachable|reflexivity].
Defined.

Lemma one_task_per_user_witness :
  ∃ l, links fx_chains !! 0 = Some l ∧ link_phase l = Running ∧ 0 = 0.
Proof.
  eexists. split; [reflexivity|]. split; [reflexivity|].
  eapply (one_task_per_user fx_chains 0 0); [apply fx_reachable|reflexivity..].
Defined.

Definition fx_drained : Chains (T := nat) :=
  default no_chains (fires (fx_arrivals ++
    [Finish 0 Rejects; Cleanup 0; Start 1; Finish 2 Resolves; Cleanup 2; Finish 1 Resolves;
     Cleanup 1]) no_chains).

Lemma chain_map_exact_witness :
  userChains fx_chains !! "u" = Some 1 ∧ userChains fx_drained = ∅.
Proof.
  split; [reflexivity|]. apply (chain_map_exact fx_drained).
  - by exists (fx_arrivals ++
      [Finish 0 Rejects; Cleanup 0; Start 1; Finish 2 Resolves; Cleanup 2; Finish 1 Resolves;
     Cleanup 1]).
  - intros [|[|[|n]]] l; simpl; [by intros [= <-]..|done].
Defined.

Lemma shutdown_drains_witness :
  ∃ l, links fx_drained !! 1 = Some l ∧ link_task l = 2 ∧ link_phase l = Fulfilled.
Proof.
  eexists. split; [reflexivity|]. split; [reflexivity|].
  eapply (shutdown_drains fx_drained 1).
  - by exists (fx_arrivals ++
      [Finish 0 Rejects; Cleanup 0; Start 1; Finish 2 Resolves; Cleanup 2; Finish 1 Resolves;
     Cleanup 1]).
  - intros u n. by vm_compute.
  - reflexivity.
Defined.

Lemma chains_progress_witness :
  ∃ m l', m ≤ 1 ∧ links fx_chains !! m = Some l' ∧ link_user l' = "u" ∧
    (is_Some (fire (Start m) fx_chains) ∨ ∀ o, is_Some (fire (Finish m o) fx_chains)).
Proof.
  apply (chains_progress fx_chains 1 {| link_user := "u"; link_task := 2;
    link_prev := Some 0; link_phase := Waiting; link_cleaned := false |});
    [apply fx_reachable|reflexivity|done].
Defined.
