(* ===== verification/Lifecycle.v ===== *)
(** The life of the worker process, [onApplicationBootstrap] and
    [onApplicationShutdown] of [src/src/worker/worker-consumer.service.ts]: what is
    verified before the first message is consumed, and that every accepted message is
    settled before the channel is closed.

    The two hooks are programs over the awaited broker calls; between two of their
    steps the event loop takes its own turns (deliveries, tasks of the chains). *)

From stdpp Require Import pretty.
From S2P Require Import Prelude Js Prog Chains.

Definition PARTITION_QUEUE_PREFIX : string := "loc.events.p".

Definition queue_of (partition : Z) : string := PARTITION_QUEUE_PREFIX +:+ pretty partition.

(** ** The calls of the hooks *)

Inductive life_op : Type → Type :=
| AmqpConnect : life_op unit
| CreateChannel : life_op unit
| Prefetch (count : Z) : life_op unit
| CheckQueue (queue : string) : life_op unit
| InstallChannel : life_op unit
| Consume (queue : string) : life_op nat
| PushTag (consumerTag : nat) : life_op unit
| SetClosing : life_op unit
| GetTags : life_op (list nat)
| Cancel (consumerTag : nat) : life_op unit
| GetTails : life_op (list nat)
| AllSettled (tails : list nat) : life_op unit
| CloseChannel : life_op unit
| CloseConnection : life_op unit.

(** [for (const x of l) await f(x)]. *)
Fixpoint for_each {X} (f : X → prog life_op unit) (l : list X) : prog life_op unit :=
  match l with
  | [] => mret tt
  | x :: l => f x;; for_each f l
  end.

Definition check_partition (partition : Z) : prog life_op unit :=
  await (CheckQueue (queue_of partition)).

Definition consume_partition (partition : Z) : prog life_op unit :=
  consumerTag ← await (Consume (queue_of partition)); await (PushTag consumerTag).

(** [onApplicationBootstrap()]. *)
Definition bootstrap (partitions : list Z) (prefetch : Z) : prog life_op unit :=
  await AmqpConnect;;
  await CreateChannel;;
  await (Prefetch prefetch);;
  for_each check_partition partitions;;
  await InstallChannel;;
  for_each consume_partition partitions.

(** [onApplicationShutdown()], from its end: the closes, the drain, and whole. *)
Definition close_all : prog life_op unit :=
  try_catch (await CloseChannel;; await CloseConnection) (λ _, mret tt).

Definition drain_and_close : prog life_op unit :=
  tails ← await GetTails; await (AllSettled tails);; close_all.

Definition cancel_all (tags : list nat) : prog life_op unit :=
  try_catch (for_each (λ tag, await (Cancel tag)) tags) (λ _, mret tt).

Definition shutdown_hook : prog life_op unit :=
  await SetClosing;;
  tags ← await GetTags;
  cancel_all tags;;
  drain_and_close.

(** ** The process *)

Section life.
Context {T : Type}.

(** [lf_active]: the consumers the broker delivers to; [lf_checked]: the queues whose
    existence was verified; [lf_flow]: the hook that is running. *)
Record Life := {
  lf_installed : bool;
  lf_channel_open : bool;
  lf_closing : bool;
  lf_checked : list string;
  lf_consuming : list string;
  lf_active : list nat;
  lf_tags : list nat;
  lf_next : nat;
  lf_chains : Chains (T := T);
  lf_flow : option (prog life_op unit);
  lf_exited : bool;
}.

Definition unborn : Life :=
  {| lf_installed := false; lf_channel_open := false; lf_closing := false; lf_checked := [];
     lf_consuming := []; lf_active := []; lf_tags := []; lf_next := 0;
     lf_chains := no_chains; lf_flow := None; lf_exited := false |}.

(** Updates of a few fields. *)
Definition with_flow (p : option (prog life_op unit)) (s : Life) : Life :=
  {| lf_installed := lf_installed s; lf_channel_open := lf_channel_open s;
     lf_closing := lf_closing s; lf_checked := lf_checked s; lf_consuming := lf_consuming s;
     lf_active := lf_active s; lf_tags := lf_tags s; lf_next := lf_next s;
     lf_chains := lf_chains s; lf_flow := p; lf_exited := lf_exited s |}.
Definition with_chains (c : Chains) (s : Life) : Life :=
  {| lf_installed := lf_installed s; lf_channel_open := lf_channel_open s;
     lf_closing := lf_closing s; lf_checked := lf_checked s; lf_consuming := lf_consuming s;
     lf_active := lf_active s; lf_tags := lf_tags s; lf_next := lf_next s;
     lf_chains := c; lf_flow := lf_flow s; lf_exited := lf_exited s |}.
Definition with_channel (installed channel_open closing : bool) (s : Life) : Life :=
  {| lf_installed := installed; lf_channel_open := channel_open; lf_closing := closing;
     lf_checked := lf_checked s; lf_consuming := lf_consuming s; lf_active := lf_active s;
     lf_tags := lf_tags s; lf_next := lf_next s; lf_chains := lf_chains s;
     lf_flow := lf_flow s; lf_exited := lf_exited s |}.
Definition with_active (active tags : list nat) (next : nat) (s : Life) : Life :=
  {| lf_installed := lf_installed s; lf_channel_open := lf_channel_open s;
     lf_closing := lf_closing s; lf_checked := lf_checked s; lf_consuming := lf_consuming s;
     lf_active := active; lf_tags := tags; lf_next := next; lf_chains := lf_chains s;
     lf_flow := lf_flow s; lf_exited := lf_exited s |}.
Definition with_queues (checked consuming : list string) (s : Life) : Life :=
  {| lf_installed := lf_installed s; lf_channel_open := lf_channel_open s;
     lf_closing := lf_closing s; lf_checked := checked; lf_consuming := consuming;
     lf_active := lf_active s; lf_tags := lf_tags s; lf_next := lf_next s;
     lf_chains := lf_chains s; lf_flow := lf_flow s; lf_exited := lf_exited s |}.

(** A call that the broker answers, or that rejects. *)
Definition broker {X} (f : fault) (ok : X * Life) (s : Life) : (exn + X) * Life :=
  match f with
  | FOk => (inr ok.1, ok.2)
  | FFail e | FLost e | FAt _ e => (inl e, s)
  end.

(** One call of a hook. A rejected [cancel] is taken as the client library's answer for a
    channel that is dead, as the source's comment does: then the broker delivers nothing
    any more. *)
Definition exec_life (X : Type) (f : fault) (op : life_op X) (s : Life) : (exn + X) * Life :=
  match op in life_op X return (exn + X) * Life with
  | AmqpConnect => broker f (tt, s) s
  | CreateChannel => broker f (tt, with_channel (lf_installed s) true (lf_closing s) s) s
  | Prefetch _ => broker f (tt, s) s
  | CheckQueue q => broker f (tt, with_queues (lf_checked s ++ [q]) (lf_consuming s) s) s
  | InstallChannel => (inr tt, with_channel true (lf_channel_open s) (lf_closing s) s)
  | Consume q =>
      broker f (lf_next s,
        with_active (lf_next s :: lf_active s) (lf_tags s) (S (lf_next s))
          (with_queues (lf_checked s) (lf_consuming s ++ [q]) s)) s
  | PushTag t => (inr tt, with_active (lf_active s) (lf_tags s ++ [t]) (lf_next s) s)
  | SetClosing => (inr tt, with_channel (lf_installed s) (lf_channel_open s) true s)
  | GetTags => (inr (lf_tags s), s)
  | Cancel t =>
      broker f (tt, with_active (filter (.≠ t) (lf_active s)) (lf_tags s) (lf_next s) s)
        (with_channel (lf_installed s) false (lf_closing s)
           (with_active [] (lf_tags s) (lf_next s) s))
  | GetTails => (inr (map_to_list (userChains (lf_chains s))).*2, s)
  | AllSettled _ => (inr tt, s)
  | CloseChannel => broker f (tt, with_channel (lf_installed s) false (lf_closing s) s) s
  | CloseConnection => broker f (tt, s) s
  end.

(** [Promise.allSettled(tails)] resolves when every tail is settled; the other calls
    may be answered at any time. *)
Definition enabled {X} (op : life_op X) (s : Life) : bool :=
  match op with
  | AllSettled tails => forallb (λ n, settled (lf_chains s) (Some n)) tails
  | _ => true
  end.

(** [process.exit]: the broker delivers nothing any more. *)
Definition exit_process (s : Life) : Life :=
  {| lf_installed := lf_installed s; lf_channel_open := lf_channel_open s;
     lf_closing := lf_closing s; lf_checked := lf_checked s; lf_consuming := lf_consuming s;
     lf_active := []; lf_tags := lf_tags s; lf_next := lf_next s;
     lf_chains := lf_chains s; lf_flow := None; lf_exited := true |}.

(** A hook that throws ends the process. *)
Definition settle_flow (p : prog life_op unit) (s : Life) : Life :=
  match p with
  | Ret _ => with_flow None s
  | Throw _ => exit_process s
  | Vis _ _ => with_flow (Some p) s
  end.

(** The [close] event of the connection: fatal, unless the shutdown is under way. *)
Definition connection_lost (s : Life) : Life :=
  if lf_closing s
  then with_channel (lf_installed s) false true (with_active [] (lf_tags s) (lf_next s) s)
  else exit_process s.

(** The turns: a step of the running hook; a turn of the event loop, where a message
    arrives only while the broker delivers; the signal that starts the shutdown; and
    the loss of the connection. *)
Inductive life_action :=
| Flow (f : fault)
| Loop (a : action (T := T))
| Signal
| ConnectionLost.

Definition life_turn (a : life_action) (s : Life) : option Life :=
  if lf_exited s then None else
  match a with
  | Flow f =>
      match lf_flow s with
      | Some (Vis op k) =>
          if enabled op s
          then let '(r, s') := exec_life _ f op s in Some (settle_flow (k r) s')
          else None
      | _ => None
      end
  | Loop a =>
      if is_arrival a && bool_decide (lf_active s = []) then None
      else c ← fire a (lf_chains s); Some (with_chains c s)
  | Signal =>
      match lf_flow s with
      | None => if lf_closing s then None else Some (with_flow (Some shutdown_hook) s)
      | Some _ => None
      end
  | ConnectionLost => Some (connection_lost s)
  end.

Fixpoint life_turns (acts : list life_action) (s : Life) : option Life :=
  match acts with
  | [] => Some s
  | a :: acts => s' ← life_turn a s; life_turns acts s'
  end.

(** The process from its start. *)
Definition born (partitions : list Z) (prefetch : Z) : Life :=
  with_flow (Some (bootstrap partitions prefetch)) unborn.

Definition reachable_life (partitions : list Z) (prefetch : Z) (s : Life) : Prop :=
  ∃ acts, life_turns acts (born partitions prefetch) = Some s.

(** The next call of the running hook closes the channel or the connection. *)
Definition about_to_close (p : prog life_op unit) : bool :=
  match p with
  | Vis op _ => match op with CloseChannel | CloseConnection => true | _ => false end
  | _ => false
  end.

(** ** The stages of the hooks *)

Section stages.
Variable partitions : list Z.
Variable prefetch : Z.

Definition consume_from (ps : list Z) : prog life_op unit := for_each consume_partition ps.
Definition check_from (ps : list Z) : prog life_op unit :=
  for_each check_partition ps;; await InstallChannel;; consume_from partitions.

(** Where a hook can be, and what holds there. *)
Inductive stage (s : Life) : prog life_op unit → Prop :=
| st_connect : lf_active s = [] → lf_checked s = [] → lf_consuming s = [] → lf_tags s = [] →
    lf_closing s = false → stage s (bootstrap partitions prefetch)
| st_channel : lf_active s = [] → lf_checked s = [] → lf_consuming s = [] → lf_tags s = [] →
    lf_closing s = false →
    stage s (await CreateChannel;; await (Prefetch prefetch);; check_from partitions)
| st_prefetch : lf_active s = [] → lf_checked s = [] → lf_consuming s = [] → lf_tags s = [] →
    lf_closing s = false → stage s (await (Prefetch prefetch);; check_from partitions)
| st_check done ps : partitions = done ++ ps → lf_active s = [] →
    lf_checked s = queue_of <$> done → lf_consuming s = [] → lf_tags s = [] →
    lf_closing s = false → stage s (check_from ps)
| st_consume done ps : partitions = done ++ ps → lf_checked s = queue_of <$> partitions →
    lf_consuming s = queue_of <$> done → lf_active s ⊆ lf_tags s →
    length (lf_tags s) = length done → lf_closing s = false → stage s (consume_from ps)
| st_push done p ps t : partitions = done ++ p :: ps → lf_checked s = queue_of <$> partitions →
    lf_consuming s = queue_of <$> (done ++ [p]) → lf_active s ⊆ t :: lf_tags s →
    length (lf_tags s) = length done → lf_closing s = false →
    stage s (await (PushTag t);; consume_from ps)
| st_shutdown : lf_active s ⊆ lf_tags s → lf_closing s = false →
    lf_checked s = queue_of <$> partitions → stage s shutdown_hook
| st_tags : lf_active s ⊆ lf_tags s → lf_closing s = true →
    lf_checked s = queue_of <$> partitions →
    stage s (tags ← await GetTags; cancel_all tags;; drain_and_close)
| st_cancel tags : lf_active s ⊆ tags → lf_closing s = true →
    lf_checked s = queue_of <$> partitions → stage s (cancel_all tags;; drain_and_close)
| st_tails : lf_active s = [] → lf_closing s = true → stage s drain_and_close
| st_wait tails : lf_active s = [] → lf_closing s = true →
    (∀ u n, userChains (lf_chains s) !! u = Some n → n ∈ tails) →
    (∀ n, n ∈ tails → n < length (links (lf_chains s))) →
    stage s (await (AllSettled tails);; close_all)
| st_close : lf_active s = [] → lf_closing s = true → all_links_settled (lf_chains s) →
    stage s close_all
| st_close_connection : lf_active s = [] → lf_closing s = true →
    all_links_settled (lf_chains s) →
    stage s (try_catch (await CloseConnection) (λ _, mret tt)).

Record life_inv (s : Life) : Prop := {
  li_chains : reachable (lf_chains s);
  li_flow p : lf_flow s = Some p → stage s p;
  li_idle : lf_flow s = None → lf_exited s = false →
    if lf_closing s then lf_active s = [] ∧ all_links_settled (lf_chains s)
    else lf_checked s = queue_of <$> partitions ∧ lf_consuming s = queue_of <$> partitions ∧
      lf_active s ⊆ lf_tags s ∧ length (lf_tags s) = length partitions;
  li_exited : lf_exited s = true → lf_flow s = None ∧ lf_active s = [];
}.

(** ** Lemmas *)

Lemma no_arrival_tails a (c c' : Chains (T := T)) u n :
  fire a c = Some c' → is_arrival a = false → userChains c' !! u = Some n →
  userChains c !! u = Some n.
Proof.
  destruct a as [v t|k|k o|k]; [done|..]; intros Hf _.
  - by apply fire_start in Hf as (l & _ & _ & _ & ->).
  - by apply fire_finish in Hf as (l & _ & _ & ->).
  - apply fire_cleanup in Hf as (l & _ & _ & _ & ->). unfold cleanup. simpl.
    case_bool_decide; [|done]. by intros [_ ?]%lookup_delete_Some.
Qed.

Lemma no_arrival_settled a (c c' : Chains (T := T)) :
  fire a c = Some c' → is_arrival a = false → all_links_settled c → all_links_settled c'.
Proof.
  intros Hf Ha Hall. destruct a as [v t|k|k o|k]; [done|..].
  - apply fire_start in Hf as (l & Hl & Hph & _). by rewrite (Hall k l Hl) in Hph.
  - apply fire_finish in Hf as (l & Hl & Hph & _). by rewrite (Hall k l Hl) in Hph.
  - apply fire_cleanup in Hf as (l & Hl & Hph & _ & ->). intros m x. simpl. intros Hx.
    apply (links_insert_lookup _ _ l) in Hx as [[-> ->]|[_ Hx]]; [done|by eapply Hall|done].
Qed.

Lemma no_arrival_length a (c c' : Chains (T := T)) :
  fire a c = Some c' → is_arrival a = false → length (links c') = length (links c).
Proof.
  destruct a as [v t|k|k o|k]; [done|..]; intros Hf _.
  - apply fire_start in Hf as (l & _ & _ & _ & ->). apply length_insert.
  - apply fire_finish in Hf as (l & _ & _ & ->). apply length_insert.
  - apply fire_cleanup in Hf as (l & _ & _ & _ & ->). apply length_insert.
Qed.

Lemma fire_reachable a (c c' : Chains (T := T)) : reachable c → fire a c = Some c' → reachable c'.
Proof.
  intros [acts Hacts] Hf. exists (acts ++ [a]). revert Hacts. generalize (no_chains (T := T)).
  induction acts as [|b acts IH]; intros c0; simpl.
  - intros [= ->]. by rewrite Hf.
  - destruct (fire b c0); simpl; [apply IH|done].
Qed.

(** A turn of the event loop keeps every stage. *)
Lemma stage_loop a c s p :
  reachable (lf_chains s) → fire a (lf_chains s) = Some c →
  (is_arrival a = true → lf_active s ≠ []) → stage s p → stage (with_chains c s) p.
Proof.
  intros Hr Hf Ha Hst.
  assert (Hno : lf_active s = [] → is_arrival a = false)
    by (intros He; destruct (is_arrival a); [by destruct (Ha eq_refl)|done]).
  destruct Hst; econstructor; simpl; eauto using no_arrival_settled.
  - intros u n Hn. eauto using no_arrival_tails.
  - intros n Hn. rewrite (no_arrival_length a (lf_chains s) c); auto.
Qed.

Lemma waited_settled s tails :
  reachable (lf_chains s) → (∀ u n, userChains (lf_chains s) !! u = Some n → n ∈ tails) →
  forallb (λ n, settled (lf_chains s) (Some n)) tails = true → all_links_settled (lf_chains s).
Proof.
  intros Hr Htails Hall n l. apply shutdown_drains; [done|]. intros u k Hk.
  rewrite forallb_forall in Hall. apply Hall, list_elem_of_In. by eapply Htails.
Qed.

Lemma stage_with_flow s p o : stage s p → stage (with_flow o s) p.
Proof. destruct 1; econstructor; simpl; eauto. Qed.

Lemma inv_stage s p q :
  reachable (lf_chains s) → lf_exited s = false → stage s q → p = q →
  (∃ X (op : life_op X) k, q = Vis op k) → life_inv (settle_flow p s).
Proof.
  intros Hr He Hst -> (X & op & k & ->). split; simpl; [done| |done|congruence].
  intros ? [= <-]. by apply stage_with_flow.
Qed.

Lemma inv_exit s : reachable (lf_chains s) → life_inv (exit_process s).
Proof. intros. split; simpl; [done|done|done|by split]. Qed.

Lemma inv_done s :
  reachable (lf_chains s) → lf_exited s = false →
  (if lf_closing s then lf_active s = [] ∧ all_links_settled (lf_chains s)
   else lf_checked s = queue_of <$> partitions ∧ lf_consuming s = queue_of <$> partitions ∧
     lf_active s ⊆ lf_tags s ∧ length (lf_tags s) = length partitions) →
  life_inv (with_flow None s).
Proof. intros. split; simpl; [done|done|done|congruence]. Qed.

(** After the last check comes the installation, after the last consumer the end. *)
Lemma inv_check s done ps :
  reachable (lf_chains s) → lf_exited s = false → partitions = done ++ ps →
  lf_active s = [] → lf_checked s = queue_of <$> done → lf_consuming s = [] →
  lf_tags s = [] → lf_closing s = false → life_inv (settle_flow (check_from ps) s).
Proof.
  intros. apply (inv_stage s (check_from ps) (check_from ps)); [done|done| |done|].
  - by apply (st_check s done ps).
  - destruct ps; by do 3 eexists.
Qed.

Lemma inv_consume s done ps :
  reachable (lf_chains s) → lf_exited s = false → partitions = done ++ ps →
  lf_checked s = queue_of <$> partitions → lf_consuming s = queue_of <$> done →
  lf_active s ⊆ lf_tags s → length (lf_tags s) = length done → lf_closing s = false →
  life_inv (settle_flow (consume_from ps) s).
Proof.
  intros Hr He Hp Hch Hco Hact Hlen Hcl. destruct ps as [|p ps].
  - apply inv_done; [done|done|]. rewrite Hcl. rewrite app_nil_r in Hp. by subst done.
  - apply (inv_stage s (consume_from (p :: ps)) (consume_from (p :: ps))); [done|done| |done|].
    + by apply (st_consume s done (p :: ps)).
    + by do 3 eexists.
Qed.

Lemma inv_drain s :
  reachable (lf_chains s) → lf_exited s = false → lf_active s = [] → lf_closing s = true →
  life_inv (settle_flow drain_and_close s).
Proof.
  intros. apply (inv_stage s drain_and_close drain_and_close); [done|done| |done|].
  - by apply st_tails.
  - by do 3 eexists.
Qed.

Lemma inv_cancel s tags :
  reachable (lf_chains s) → lf_exited s = false → lf_active s ⊆ tags → lf_closing s = true →
  lf_checked s = queue_of <$> partitions →
  life_inv (settle_flow (cancel_all tags;; drain_and_close) s).
Proof.
  intros Hr He Hact Hcl Hch. destruct tags as [|t tags].
  - apply inv_drain; [done..| |done].
    by apply list_nil_subseteq.
  - apply (inv_stage s _ (cancel_all (t :: tags);; drain_and_close)); [done|done| |done|].
    + by apply st_cancel.
    + by do 3 eexists.
Qed.

Lemma flow_turn {X} (op : life_op X) k s f s' :
  lf_flow s = Some (Vis op k) → life_turn (Flow f) s = Some s' →
  lf_exited s = false ∧ enabled op s = true ∧
  s' = settle_flow (k (exec_life X f op s).1) (exec_life X f op s).2.
Proof.
  intros Hp. unfold life_turn. rewrite Hp. destruct (lf_exited s); [done|].
  destruct (enabled op s); [|done]. destruct (exec_life X f op s). by intros [= <-].
Qed.

Lemma ret_turn s f : lf_flow s = Some (Ret tt) → life_turn (Flow f) s = None.
Proof. intros Hp. unfold life_turn. rewrite Hp. by destruct (lf_exited s). Qed.

(** The steps of the bootstrap, and the first of the shutdown. *)
Lemma boot_flow_inv s f s' p :
  reachable (lf_chains s) → lf_flow s = Some p → stage s p → lf_closing s = false →
  life_turn (Flow f) s = Some s' → life_inv s'.
Proof.
  intros Hr Hp Hst Hncl Ht'.
  destruct Hst as [Ha Hc Hco Ht Hcl|Ha Hc Hco Ht Hcl|Ha Hc Hco Ht Hcl
    |done ps Hps Ha Hc Hco Ht Hcl|done ps Hps Hc Hco Ha Hlen Hcl|done p ps t Hps Hc Hco Ha Hlen Hcl
    |Ha Hcl Hc|Ha Hcl Hc|tags Ha Hcl Hc|Ha Hcl|tails Ha Hcl Htails Hlt|Ha Hcl Hall|Ha Hcl Hall];
    try congruence.
  - apply (flow_turn AmqpConnect _ _ _ _ Hp) in Ht' as (He & _ & ->).
    destruct f; cbn [exec_life broker fst snd]; try exact (inv_exit s Hr).
    eapply inv_stage; [done|done|by apply st_channel|done|by do 3 eexists].
  - apply (flow_turn CreateChannel _ _ _ _ Hp) in Ht' as (He & _ & ->).
    destruct f; cbn [exec_life broker fst snd]; try exact (inv_exit s Hr).
    eapply inv_stage; [done|done|by apply st_prefetch|done|by do 3 eexists].
  - apply (flow_turn (Prefetch prefetch) _ _ _ _ Hp) in Ht' as (He & _ & ->).
    destruct f; cbn [exec_life broker fst snd]; try exact (inv_exit s Hr).
    by apply (inv_check s [] partitions).
  - destruct ps as [|p ps].
    + apply (flow_turn InstallChannel _ _ _ _ Hp) in Ht' as (He & _ & ->).
      rewrite app_nil_r in Hps. subst done.
      apply (inv_consume _ [] partitions); simpl; try done; by rewrite ?Ha, ?Hco, ?Ht.
    + apply (flow_turn (CheckQueue (queue_of p)) _ _ _ _ Hp) in Ht' as (He & _ & ->).
      destruct f; cbn [exec_life broker fst snd]; try exact (inv_exit s Hr).
      apply (inv_check _ (done ++ [p]) ps); simpl; try done.
      * by rewrite <- app_assoc.
      * by rewrite Hc, fmap_app.
  - destruct ps as [|p ps].
    { by rewrite (ret_turn s f Hp) in Ht'. }
    apply (flow_turn (Consume (queue_of p)) _ _ _ _ Hp) in Ht' as (He & _ & ->).
    destruct f; cbn [exec_life broker fst snd]; try exact (inv_exit s Hr).
    eapply inv_stage; [done|done|apply (st_push _ done p ps (lf_next s))|done|by do 3 eexists];
      simpl; try done; [by rewrite Hco, fmap_app|].
    intros x [->|Hx]%elem_of_cons; [by left|right; by apply Ha].
  - apply (flow_turn (PushTag t) _ _ _ _ Hp) in Ht' as (He & _ & ->).
    apply (inv_consume _ (done ++ [p]) ps); simpl; try done.
    + by rewrite <- app_assoc.
    + intros x Hx%Ha. apply elem_of_app. apply elem_of_cons in Hx as [->|Hx];
        [right; by left|by left].
    + rewrite !length_app. simpl. lia.
  - apply (flow_turn SetClosing _ _ _ _ Hp) in Ht' as (He & _ & ->).
    eapply inv_stage; [done|done|by apply st_tags|done|by do 3 eexists].
Qed.

(** The steps of the shutdown after its first. *)
Lemma shutdown_flow_inv s f s' p :
  reachable (lf_chains s) → lf_flow s = Some p → stage s p →
  lf_closing s = true → life_turn (Flow f) s = Some s' → life_inv s'.
Proof.
  intros Hr Hp Hst Hncl Ht'.
  assert (Hdrain : lf_exited s = false → lf_active s = [] → lf_closing s = true →
    life_inv (settle_flow (await (AllSettled (map_to_list (userChains (lf_chains s))).*2);;
                           close_all) s)).
  { intros. eapply inv_stage; [done|done|apply st_wait|done|by do 3 eexists]; try done.
    - intros u n Hn. apply list_elem_of_fmap. exists (u, n). by rewrite elem_of_map_to_list.
    - intros n ([u m] & -> & Hin%elem_of_map_to_list)%list_elem_of_fmap. simpl.
      destruct (ci_tail _ (reachable_inv _ Hr) u m Hin) as (l & Hl & _).
      by eapply lookup_lt_Some. }
  destruct Hst as [| | |done ps|done ps|done p ps t
    |Ha Hcl Hc|Ha Hcl Hc|tags Ha Hcl Hc|Ha Hcl|tails Ha Hcl Htails Hlt|Ha Hcl Hall|Ha Hcl Hall];
    try congruence.
  - apply (flow_turn GetTags _ _ _ _ Hp) in Ht' as (He & _ & ->). by apply inv_cancel.
  - destruct tags as [|t tags].
    + apply list_nil_subseteq in Ha.
      apply (flow_turn GetTails _ _ _ _ Hp) in Ht' as (He & _ & ->). by apply Hdrain.
    + apply (flow_turn (Cancel t) _ _ _ _ Hp) in Ht' as (He & _ & ->).
      assert (Hdead : life_inv (settle_flow drain_and_close
        (with_channel (lf_installed s) false (lf_closing s)
           (with_active [] (lf_tags s) (lf_next s) s)))) by by apply inv_drain.
      destruct f; cbn [exec_life broker fst snd]; try exact Hdead.
      apply inv_cancel; simpl; try done. intros x [Hx Hin]%list_elem_of_filter.
      by apply Ha, elem_of_cons in Hin as [->|].
  - apply (flow_turn GetTails _ _ _ _ Hp) in Ht' as (He & _ & ->). by apply Hdrain.
  - apply (flow_turn (AllSettled tails) _ _ _ _ Hp) in Ht' as (He & Hen & ->).
    eapply inv_stage; [done|done|apply st_close|done|by do 3 eexists]; try done.
    by apply (waited_settled s tails).
  - apply (flow_turn CloseChannel _ _ _ _ Hp) in Ht' as (He & _ & ->).
    assert (Hend : life_inv (with_flow None s)) by (apply inv_done; [done|done|by rewrite Hcl]).
    destruct f; cbn [exec_life broker fst snd]; try exact Hend.
    eapply inv_stage; [done|done|by apply st_close_connection|done|by do 3 eexists].
  - apply (flow_turn CloseConnection _ _ _ _ Hp) in Ht' as (He & _ & ->).
    assert (Hend : life_inv (with_flow None s)) by (apply inv_done; [done|done|by rewrite Hcl]).
    destruct f; cbn [exec_life broker fst snd]; exact Hend.
Qed.

Lemma life_turn_inv a s s' : life_inv s → life_turn a s = Some s' → life_inv s'.
Proof.
  intros Hinv Ht. pose proof Hinv as [Hr Hfl Hid Hex]. destruct a as [f|a| |].
  - destruct (lf_flow s) as [p|] eqn:Hp.
    + destruct (lf_closing s) eqn:Hcl;
        [by eapply (shutdown_flow_inv s f); eauto|].
      by eapply (boot_flow_inv s f); eauto.
    + unfold life_turn in Ht. rewrite Hp in Ht. by destruct (lf_exited s).
  - unfold life_turn in Ht. destruct (lf_exited s) eqn:He; [done|].
    destruct (is_arrival a && bool_decide (lf_active s = [])) eqn:Ha; [done|].
    destruct (fire a (lf_chains s)) as [c|] eqn:Hf; [|done]. injection Ht as <-.
    assert (Hact : is_arrival a = true → lf_active s ≠ []).
    { intros Hx. rewrite Hx in Ha. by apply bool_decide_eq_false in Ha. }
    split; simpl.
    + by eapply fire_reachable.
    + intros p Hp. eapply stage_loop; eauto.
    + intros Hn _. specialize (Hid Hn eq_refl). destruct (lf_closing s); [|done].
      destruct Hid as [Hnil Hall]. split; [done|]. eapply no_arrival_settled; [done| |done].
      destruct (is_arrival a); [by destruct (Hact eq_refl)|done].
    + congruence.
  - unfold life_turn in Ht. destruct (lf_exited s) eqn:He; [done|].
    destruct (lf_flow s) eqn:Hp; [done|]. destruct (lf_closing s) eqn:Hcl; [done|].
    injection Ht as <-. specialize (Hid eq_refl eq_refl). destruct Hid as (Hc & _ & Hact & _).
    split; simpl; [done| |done|congruence]. intros p [= <-]. by apply st_shutdown.
  - unfold life_turn in Ht. destruct (lf_exited s) eqn:He; [done|]. injection Ht as <-.
    unfold connection_lost. destruct (lf_closing s) eqn:Hcl; [|by apply inv_exit].
    split; simpl; [done| | |congruence].
    + intros p Hp. specialize (Hfl p Hp). destruct Hfl; try congruence; econstructor; simpl; eauto;
        by intros x ?%not_elem_of_nil.
    + intros Hn _. by destruct (Hid Hn eq_refl).
Qed.

Lemma born_inv : life_inv (born partitions prefetch).
Proof.
  split; simpl; [by exists []| |done|done]. intros p [= <-]. by apply st_connect.
Qed.

Lemma life_turns_inv acts s s' : life_inv s → life_turns acts s = Some s' → life_inv s'.
Proof.
  revert s. induction acts as [|a acts IH]; intros s Hinv; simpl; [by intros [= <-]|].
  destruct (life_turn a s) as [s1|] eqn:Ht; simpl; [|done]. apply IH. by eapply life_turn_inv.
Qed.

Lemma reachable_life_inv s : reachable_life partitions prefetch s → life_inv s.
Proof. intros [acts Hacts]. eapply life_turns_inv; [apply born_inv|done]. Qed.

(** ** Completing a shutdown *)

(** Some further turns, without an arrival or a loss, end the running hook. *)
Definition completes (s : Life) : Prop :=
  ∃ acts s', Forall (λ a, match a with Flow FOk => True | Loop a => is_arrival a = false
                                     | _ => False end) acts ∧
    life_turns acts s = Some s' ∧ lf_flow s' = None ∧ lf_exited s' = false.

Lemma completes_flow s s1 : life_turn (Flow FOk) s = Some s1 → completes s1 → completes s.
Proof.
  intros Ht (acts & s' & Hacts & Hs' & ?). exists (Flow FOk :: acts), s'.
  split_and!; [by constructor|by cbn [life_turns]; rewrite Ht|tauto..].
Qed.

Lemma completes_loops acts s c :
  lf_exited s = false → Forall (λ a, is_arrival a = false) acts →
  fires acts (lf_chains s) = Some c → completes (with_chains c s) → completes s.
Proof.
  intros He Hacts. revert s He. induction Hacts as [|a acts Ha _ IH]; intros s He; simpl.
  - intros [= <-]. by destruct s.
  - destruct (fire a (lf_chains s)) as [c1|] eqn:Hf; simpl; [|done]. intros Hfs Hc.
    destruct (IH (with_chains c1 s) He Hfs Hc) as (acts' & s' & Hacts' & Hs' & ?).
    exists (Loop a :: acts'), s'. split_and!; [by constructor| |tauto..].
    cbn [life_turns]. unfold life_turn. rewrite He, Ha. cbn [andb]. by rewrite Hf.
Qed.

Lemma close_completes s : lf_exited s = false → lf_flow s = Some close_all → completes s.
Proof.
  intros He Hp. eapply completes_flow.
  { unfold life_turn. rewrite He, Hp. reflexivity. }
  eapply completes_flow.
  { unfold life_turn. cbn. rewrite He. reflexivity. }
  exists [], (with_flow None (with_channel (lf_installed s) false (lf_closing s) s)).
  split_and!; [constructor|done|done|done].
Qed.

Lemma wait_completes s tails :
  lf_exited s = false → lf_flow s = Some (await (AllSettled tails);; close_all) →
  reachable (lf_chains s) → (∀ n, n ∈ tails → n < length (links (lf_chains s))) → completes s.
Proof.
  intros He Hp Hr Hlt. destruct (chains_drain (lf_chains s) (reachable_inv _ Hr))
    as (acts & c & Hacts & Hc & Hall).
  apply (completes_loops acts s c He Hacts Hc).
  assert (Hlen : length (links c) = length (links (lf_chains s))).
  { clear - Hacts Hc. revert Hc. generalize (lf_chains s).
    induction Hacts as [|a acts Ha _ IH]; intros c0; simpl; [by intros [= ->]|].
    destruct (fire a c0) as [c1|] eqn:Hf; simpl; [|done]. intros Hc.
    by rewrite (IH c1 Hc), (no_arrival_length a c0 c1). }
  eapply completes_flow.
  { unfold life_turn. cbn [lf_exited lf_flow with_chains]. rewrite He, Hp.
    cbn [mbind prog_mbind prog_bind await enabled].
    assert (Hen : forallb (λ n, settled (lf_chains (with_chains c s)) (Some n)) tails = true).
    { apply forallb_forall. intros n Hn%list_elem_of_In%Hlt. rewrite <- Hlen in Hn.
      apply lookup_lt_is_Some in Hn as [l Hl]. unfold settled.
      apply bool_decide_eq_true. cbn [promise with_chains lf_chains]. rewrite Hl. left.
      by apply (Hall n). }
    rewrite Hen. reflexivity. }
  apply close_completes; done.
Qed.

Lemma tails_completes s :
  lf_exited s = false → lf_flow s = Some drain_and_close → life_inv s → completes s.
Proof.
  intros He Hp Hinv.
  assert (Ht : life_turn (Flow FOk) s = Some
    (settle_flow (await (AllSettled (map_to_list (userChains (lf_chains s))).*2);; close_all) s)).
  { unfold life_turn. by rewrite He, Hp. }
  eapply completes_flow; [exact Ht|].
  pose proof (life_turn_inv _ _ _ Hinv Ht) as [Hr' Hfl' _ _].
  eapply wait_completes; [done|reflexivity|done|].
  specialize (Hfl' _ eq_refl). cbn [settle_flow with_flow lf_chains].
  intros n ([u m] & -> & Hin%elem_of_map_to_list)%list_elem_of_fmap. simpl.
  destruct (ci_tail _ (reachable_inv _ (li_chains _ Hinv)) u m Hin) as (l & Hl & _).
  by eapply lookup_lt_Some.
Qed.

Lemma cancel_completes tags s :
  lf_exited s = false → lf_flow s = Some (cancel_all tags;; drain_and_close) → life_inv s →
  completes s.
Proof.
  revert s. induction tags as [|t tags IH]; intros s He Hp Hinv; [by apply tails_completes|].
  assert (Ht : life_turn (Flow FOk) s = Some
    (with_flow (Some (cancel_all tags;; drain_and_close))
       (with_active (filter (.≠ t) (lf_active s)) (lf_tags s) (lf_next s) s))).
  { unfold life_turn. rewrite He, Hp. by destruct tags. }
  eapply completes_flow; [exact Ht|]. apply IH; [done|done|]. by eapply life_turn_inv.
Qed.

(** ** Properties *)

(** C36. The worker consumes only what it has verified: while the broker delivers to
    it, the existence of every assigned partition's queue has been checked, in order
    and before the first consumer; and once booted it consumes exactly those queues,
    and knows the tag of every consumer. *)
Theorem consumes_only_verified s :
  reachable_life partitions prefetch s →
  (lf_active s ≠ [] → lf_closing s = false → lf_checked s = queue_of <$> partitions) ∧
  (lf_flow s = None → lf_exited s = false → lf_closing s = false →
     lf_consuming s = queue_of <$> partitions ∧ length (lf_tags s) = length partitions ∧
     lf_active s ⊆ lf_tags s).
Proof.
  intros [Hr Hfl Hid Hex]%reachable_life_inv. split.
  - intros Hact Hcl. destruct (lf_flow s) as [p|] eqn:Hp.
    + by destruct (Hfl p eq_refl).
    + destruct (lf_exited s) eqn:He; [by destruct (Hex eq_refl)|].
      specialize (Hid eq_refl eq_refl). rewrite Hcl in Hid. tauto.
  - intros Hn He Hcl. specialize (Hid Hn He). rewrite Hcl in Hid. tauto.
Qed.

(** C13. Shutdown settles before it closes: when the hook is about to close the channel
    or the connection, or has ended, the broker delivers nothing any more and every
    message that ever arrived is settled, whatever arrived while consumers were being
    cancelled, whatever calls failed, and whenever the connection was lost. *)
Theorem shutdown_settles_first s :
  reachable_life partitions prefetch s → lf_closing s = true → lf_exited s = false →
  lf_flow s = None ∨ (∃ p, lf_flow s = Some p ∧ about_to_close p = true) →
  lf_active s = [] ∧ all_links_settled (lf_chains s).
Proof.
  intros [Hr Hfl Hid _]%reachable_life_inv Hcl He [Hn|(p & Hp & Hc)].
  - specialize (Hid Hn He). by rewrite Hcl in Hid.
  - destruct (Hfl p Hp) as [| | | | | | | |tags| | | |]; try congruence; try done.
    by destruct tags.
Qed.

(** C35. Shutdown does not get stuck: from every moment of it, once the tasks that were
    accepted run to their ends and the broker answers, the hook ends. *)
Theorem shutdown_completes s :
  reachable_life partitions prefetch s → lf_closing s = true → lf_exited s = false →
  completes s.
Proof.
  intros Hinv%reachable_life_inv Hcl He. destruct (lf_flow s) as [p|] eqn:Hp.
  - pose proof (li_flow _ Hinv p Hp) as Hst.
    destruct Hst; try congruence.
    + assert (Ht : life_turn (Flow FOk) s = Some
        (with_flow (Some (cancel_all (lf_tags s);; drain_and_close)) s)).
      { unfold life_turn. rewrite He, Hp. simpl. by destruct (lf_tags s). }
      eapply completes_flow; [exact Ht|].
      eapply (cancel_completes (lf_tags s)); [done|done|by eapply life_turn_inv].
    + by eapply cancel_completes.
    + by apply tails_completes.
    + eapply wait_completes; eauto using li_chains.
    + by apply close_completes.
    + exists [Flow FOk], (with_flow None s). split_and!; [by repeat constructor| |done|done].
      cbn [life_turns]. unfold life_turn. by rewrite He, Hp.
  - exists [], s. split_and!; [constructor|done..].
Qed.
End stages.
End life.

(** ** Witnesses *)

(** Two partitions; a message runs when the signal comes, another one arrives between
    the two cancellations. *)
Definition fx_boot : list (life_action (T := nat)) := replicate 10 (Flow FOk).

Definition fx_stop : list (life_action (T := nat)) :=
  fx_boot ++ [Loop (Arrive "u" 1); Loop (Start 0); Signal] ++ replicate 3 (Flow FOk) ++
  [Loop (Arrive "u" 2)] ++ replicate 2 (Flow FOk).

Definition fx_stopped : list (life_action (T := nat)) :=
  fx_stop ++ (Loop <$> [Finish 0 Resolves; Cleanup 0; Start 1; Finish 1 Rejects]).

Definition life_after (acts : list (life_action (T := nat))) : Life :=
  default unborn (life_turns acts (born [0; 1]%Z 16)).

Lemma consumes_only_verified_witness :
  let s := life_after fx_boot in
  lf_active s = [1; 0] ∧
  ((lf_active s ≠ [] → lf_closing s = false → lf_checked s = queue_of <$> [0; 1]%Z) ∧
   (lf_flow s = None → lf_exited s = false → lf_closing s = false →
      lf_consuming s = queue_of <$> [0; 1]%Z ∧ length (lf_tags s) = length [0; 1]%Z ∧
      lf_active s ⊆ lf_tags s)).
Proof.
  cbv zeta. split; [by vm_compute|].
  apply (consumes_only_verified [0; 1]%Z 16 (life_after fx_boot)). exists fx_boot. by vm_compute.
Defined.

Lemma shutdown_settles_first_witness :
  let s := life_after (fx_stopped ++ [Flow FOk]) in
  length (links (lf_chains s)) = 2 ∧ lf_active s = [] ∧ all_links_settled (lf_chains s).
Proof.
  cbv zeta. split; [by vm_compute|].
  apply (shutdown_settles_first [0; 1]%Z 16 (life_after (fx_stopped ++ [Flow FOk]))).
  - exists (fx_stopped ++ [Flow FOk]). by vm_compute.
  - by vm_compute.
  - by vm_compute.
  - right. by eexists; split; [vm_compute; reflexivity|].
Defined.

Lemma shutdown_completes_witness : completes (life_after fx_stop).
Proof.
  apply (shutdown_completes [0; 1]%Z 16 (life_after fx_stop)).
  - exists fx_stop. by vm_compute.
  - by vm_compute.
  - by vm_compute.
Defined.

(** Before the tasks have ended the hook waits, and nothing is closed. *)
Example shutdown_waits : life_turn (Flow FOk) (life_after fx_stop) = None.
Proof. vm_compute. reflexivity. Qed.
