(* ===== verification/Spatial.v ===== *)
(** The in-memory spatial index, [src/src/areas/spatial-index.ts]: bounding boxes,
    the bounding-box prefilter and the exact containment recheck.

    The R-tree ([rbush]) and the exact containment test ([@turf]) are third-party
    packages: they are the operations of the classes [RBush] and [PointInPolygon],
    whose law classes state what their documentation promises. *)

From S2P Require Import Prelude Num Js.

(** ** Data *)

(** A GeoJSON position [lng, lat], a linear ring, and the coordinates of a Polygon. *)
Abbreviation position := (number * number)%type.
Abbreviation ring := (list position).
Abbreviation polygon := (list ring).

Record AreaGeometryRow := { row_id : string; row_boundary : polygon }.

Record Box := { minX : number; minY : number; maxX : number; maxY : number }.

Record IndexedArea := { ia_box : Box; ia_id : string; ia_boundary : polygon }.

(** One iteration of the loop over the outer ring: four independent updates. *)
Definition extend_box (b : Box) (p : position) : Box :=
  let '(lng, lat) := p in
  {| minX := if num_lt lng (minX b) then lng else minX b;
     maxX := if num_gt lng (maxX b) then lng else maxX b;
     minY := if num_lt lat (minY b) then lat else minY b;
     maxY := if num_gt lat (maxY b) then lat else maxY b |}.

Definition empty_box : Box :=
  {| minX := Infinity; minY := Infinity; maxX := neg_Infinity; maxY := neg_Infinity |}.

(** The outer ring is [coordinates[0]]; iterating over a missing one throws. *)
Definition toIndexedArea (row : AreaGeometryRow) : exn + IndexedArea :=
  match row_boundary row with
  | [] => inl (Error "row.boundary.coordinates[0] is not iterable")
  | outer :: _ =>
      inr {| ia_box := foldl extend_box empty_box outer;
             ia_id := row_id row; ia_boundary := row_boundary row |}
  end.

(** [rows.map(toIndexedArea)]: the first exception escapes the [map]. *)
Fixpoint map_throwing {A B} (f : A → exn + B) (l : list A) : exn + list B :=
  match l with
  | [] => inr []
  | x :: l' =>
      match f x with
      | inl e => inl e
      | inr y => match map_throwing f l' with inl e => inl e | inr ys => inr (y :: ys) end
      end
  end.

(** ** Third-party packages *)

(** [rbush]: [new RBush()] followed by [load], and [search]. *)
Class RBush := {
  rb_tree : Type;
  rb_load : list IndexedArea → rb_tree;
  rb_search : Box → rb_tree → list IndexedArea;
}.

(** Two boxes intersect, borders included. *)
Definition intersects (a b : Box) : bool :=
  num_le (minX b) (maxX a) && num_le (minY b) (maxY a) &&
  num_ge (maxX b) (minX a) && num_ge (maxY b) (minY a).

(** [search] returns the loaded items whose box the given box intersects, in no
    particular order. *)
Class RBushLaws `{RBush} : Prop := {
  rb_search_load items b :
    rb_search b (rb_load items) ≡ₚ filter (λ i, intersects (ia_box i) b = true) items;
}.

(** [booleanPointInPolygon(p, polygon, { ignoreBoundary: false })]. *)
Class PointInPolygon := { booleanPointInPolygon : position → polygon → bool }.

(** A point lies within the extent of a ring: it is neither left of nor right of,
    neither below nor above all of its positions. *)
Definition within_extent (p : position) (r : ring) : Prop :=
  (∃ q, q ∈ r ∧ num_le q.1 p.1 = true) ∧ (∃ q, q ∈ r ∧ num_le p.1 q.1 = true) ∧
  (∃ q, q ∈ r ∧ num_le q.2 p.2 = true) ∧ (∃ q, q ∈ r ∧ num_le p.2 q.2 = true).

(** A point that a polygon contains lies within the extent of its outer ring. *)
Class PointInPolygonLaws `{PointInPolygon} : Prop := {
  pip_within_outer p outer holes :
    booleanPointInPolygon p (outer :: holes) = true → within_extent p outer;
}.

(** ** The index *)

Section index.
Context `{RBush, PointInPolygon}.

Record AreaSpatialIndex := { index_tree : rb_tree; areaCount : nat }.

(** [new AreaSpatialIndex(rows)]. *)
Definition new_AreaSpatialIndex (rows : list AreaGeometryRow) : exn + AreaSpatialIndex :=
  match map_throwing toIndexedArea rows with
  | inl e => inl e
  | inr items => inr {| index_tree := rb_load items; areaCount := length rows |}
  end.

Definition findCoveringAreaIds (idx : AreaSpatialIndex) (lng lat : number) : list string :=
  ia_id <$>
    filter (λ entry, booleanPointInPolygon (lng, lat) (ia_boundary entry) = true)
      (rb_search {| minX := lng; minY := lat; maxX := lng; maxY := lat |} (index_tree idx)).

(** The reference: test every area exactly, as the PostGIS query it replaces. *)
Definition coveringAreaIds_reference (rows : list AreaGeometryRow) (lng lat : number) :
    list string :=
  row_id <$>
    filter (λ row, booleanPointInPolygon (lng, lat) (row_boundary row) = true) rows.
End index.

(** Every outer ring has comparable coordinates (JSON numbers are never NaN). *)
Definition boundary_wf (b : polygon) : Prop :=
  ∃ outer holes, b = outer :: holes ∧
    ∀ p, p ∈ outer → is_nan p.1 = false ∧ is_nan p.2 = false.

Definition rows_wf (rows : list AreaGeometryRow) : Prop :=
  ∀ row, row ∈ rows → boundary_wf (row_boundary row).

(** A test for [rows_wf]. *)
Definition rows_wfb (rows : list AreaGeometryRow) : bool :=
  forallb (λ row,
    match row_boundary row with
    | outer :: _ => forallb (λ p, negb (is_nan p.1) && negb (is_nan p.2)) outer
    | [] => false
    end) rows.

Lemma rows_wfb_true rows : rows_wfb rows = true → rows_wf rows.
Proof.
  unfold rows_wfb. rewrite forallb_forall. intros Hall row Hrow.
  specialize (Hall row (proj1 (list_elem_of_In _ _) Hrow)).
  destruct (row_boundary row) as [|outer holes]; [done|]. exists outer, holes. split; [done|].
  rewrite forallb_forall in Hall. intros p Hp.
  specialize (Hall p (proj1 (list_elem_of_In _ _) Hp)).
  by apply andb_true_iff in Hall as [->%negb_true_iff ->%negb_true_iff].
Qed.

(** ** The bounding box contains the outer ring *)

Definition box_nan_free (b : Box) : Prop :=
  is_nan (minX b) = false ∧ is_nan (minY b) = false ∧
  is_nan (maxX b) = false ∧ is_nan (maxY b) = false.

Definition box_contains (b : Box) (p : position) : Prop :=
  num_le (minX b) p.1 = true ∧ num_le p.1 (maxX b) = true ∧
  num_le (minY b) p.2 = true ∧ num_le p.2 (maxY b) = true.

(** [b] lies inside [b']. *)
Definition box_le (b b' : Box) : Prop :=
  num_le (minX b') (minX b) = true ∧ num_le (maxX b) (maxX b') = true ∧
  num_le (minY b') (minY b) = true ∧ num_le (maxY b) (maxY b') = true.

Lemma box_le_refl b : box_nan_free b → box_le b b.
Proof. intros (?&?&?&?). split_and!; by apply num_le_refl. Qed.

Lemma box_le_trans a b c : box_le a b → box_le b c → box_le a c.
Proof.
  intros (?&?&?&?) (?&?&?&?). split_and!; eauto using num_le_trans.
Qed.

Lemma box_contains_le b b' p : box_contains b p → box_le b b' → box_contains b' p.
Proof. intros (?&?&?&?) (?&?&?&?). split_and!; eauto using num_le_trans. Qed.

Lemma empty_box_nan_free : box_nan_free empty_box.
Proof. done. Qed.

Lemma extend_box_spec b p :
  box_nan_free b → is_nan p.1 = false → is_nan p.2 = false →
  box_nan_free (extend_box b p) ∧ box_le b (extend_box b p) ∧
  box_contains (extend_box b p) p.
Proof.
  destruct p as [lng lat], b as [x0 y0 x1 y1]; simpl.
  intros (?&?&?&?) ? ?. unfold box_nan_free, box_le, box_contains, num_gt in *; simpl in *.
  destruct (num_lt lng x0) eqn:?, (num_lt lat y0) eqn:?, (num_lt x1 lng) eqn:?,
    (num_lt y1 lat) eqn:?; split_and!; auto using num_lt_le, num_le_refl, num_lt_false_le.
Qed.

Lemma foldl_extend_box_spec r b :
  box_nan_free b → (∀ p, p ∈ r → is_nan p.1 = false ∧ is_nan p.2 = false) →
  box_le b (foldl extend_box b r) ∧ (∀ p, p ∈ r → box_contains (foldl extend_box b r) p).
Proof.
  revert b. induction r as [|q r IH]; intros b Hb Hr; simpl.
  - split; [by apply box_le_refl|]. intros p Hp. by apply not_elem_of_nil in Hp.
  - destruct (Hr q) as [Hq1 Hq2]; [by left|].
    destruct (extend_box_spec b q Hb Hq1 Hq2) as (Hb' & Hle & Hc).
    destruct (IH (extend_box b q) Hb') as [Hle' Hc']; [intros p Hp; apply Hr; by right|].
    split; [by eapply box_le_trans|].
    intros p [->|Hp]%elem_of_cons; [by eapply box_contains_le|by apply Hc'].
Qed.

Lemma within_extent_box r p :
  (∀ q, q ∈ r → is_nan q.1 = false ∧ is_nan q.2 = false) →
  within_extent p r → box_contains (foldl extend_box empty_box r) p.
Proof.
  intros Hr ((q1&Hq1&H1) & (q2&Hq2&H2) & (q3&Hq3&H3) & (q4&Hq4&H4)).
  destruct (foldl_extend_box_spec r empty_box empty_box_nan_free Hr) as [_ Hc].
  destruct (Hc q1 Hq1) as (?&?&?&?), (Hc q2 Hq2) as (?&?&?&?),
    (Hc q3 Hq3) as (?&?&?&?), (Hc q4 Hq4) as (?&?&?&?).
  split_and!; eauto using num_le_trans.
Qed.

Lemma intersects_point b p :
  intersects b {| minX := p.1; minY := p.2; maxX := p.1; maxY := p.2 |} = true ↔
  box_contains b p.
Proof.
  unfold intersects, box_contains, num_ge; simpl. rewrite !andb_true_iff. tauto.
Qed.

(** ** Building the index *)

Lemma map_throwing_inr {A B} (f : A → exn + B) l ys :
  map_throwing f l = inr ys ↔ Forall2 (λ x y, f x = inr y) l ys.
Proof.
  revert ys. induction l as [|x l IH]; intros ys; simpl.
  - split; [by intros [= <-]|by inversion 1].
  - split.
    + destruct (f x) eqn:Hx; [done|]. destruct (map_throwing f l); [done|].
      intros [= <-]. constructor; [done|]. by apply IH.
    + inversion 1 as [|? y ? ys' Hy Hys]; subst. apply IH in Hys. by rewrite Hy, Hys.
Qed.

Lemma new_index_total `{RBush} rows :
  rows_wf rows → ∃ idx, new_AreaSpatialIndex rows = inr idx.
Proof.
  intros Hwf. unfold new_AreaSpatialIndex.
  assert (∃ items, map_throwing toIndexedArea rows = inr items) as [items ->]; [|by eauto].
  induction rows as [|row rows IH]; simpl; [by eauto|].
  destruct (Hwf row) as (outer&holes&Hrow&_); [by left|].
  destruct IH as [items ->]; [intros r Hr; apply Hwf; by right|].
  unfold toIndexedArea. rewrite Hrow. by eauto.
Qed.

Section correctness.
Context `{RBushLaws, PointInPolygonLaws}.

Lemma prefilter_complete rows items lng lat :
  rows_wf rows → Forall2 (λ x y, toIndexedArea x = inr y) rows items →
  ia_id <$> filter (λ e, booleanPointInPolygon (lng, lat) (ia_boundary e) = true)
    (filter (λ i, intersects (ia_box i)
       {| minX := lng; minY := lat; maxX := lng; maxY := lat |} = true) items)
  = coveringAreaIds_reference rows lng lat.
Proof.
  unfold coveringAreaIds_reference. intros Hwf Hall.
  induction Hall as [|row item rows items Hri Hall IH]; [done|].
  assert (Hwf' : rows_wf rows) by (intros r Hr; apply Hwf; by right).
  specialize (IH Hwf'). destruct (Hwf row) as (outer&holes&Hb&Hnan); [by left|].
  unfold toIndexedArea in Hri. rewrite Hb in Hri. injection Hri as <-.
  rewrite !filter_cons; simpl. rewrite Hb.
  destruct (booleanPointInPolygon (lng, lat) (outer :: holes)) eqn:Hpip.
  - assert (Hin : intersects (foldl extend_box empty_box outer)
      {| minX := lng; minY := lat; maxX := lng; maxY := lat |} = true).
    { apply (intersects_point _ (lng, lat)), within_extent_box; [done|].
      by eapply pip_within_outer. }
    rewrite !decide_True by done. rewrite filter_cons; simpl.
    rewrite decide_True by done. simpl. by f_equal.
  - rewrite (decide_False (P := false = true)) by done.
    case_decide; [|done]. rewrite filter_cons; simpl. by rewrite Hpip, decide_False.
Qed.

(** The two-stage search returns exactly the areas that contain the point. *)
Lemma findCoveringAreaIds_spec rows idx lng lat :
  rows_wf rows → new_AreaSpatialIndex rows = inr idx →
  findCoveringAreaIds idx lng lat ≡ₚ coveringAreaIds_reference rows lng lat.
Proof.
  intros Hwf Hnew. unfold new_AreaSpatialIndex in Hnew.
  destruct (map_throwing toIndexedArea rows) as [|items] eqn:Hmap; [done|].
  injection Hnew as <-. apply map_throwing_inr in Hmap.
  unfold findCoveringAreaIds; simpl. rewrite rb_search_load.
  by rewrite (prefilter_complete rows).
Qed.
End correctness.
