(* ===== verification/GeoJson.v ===== *)
(** Structural validation of a GeoJSON polygon,
    [src/src/areas/dto/geojson-polygon.validation.ts], against a declarative
    description of the accepted values. *)

From stdpp Require Import pretty.
From S2P Require Import Prelude Num Js Spatial.

(** ** Data *)

Definition LNG_RANGE : number := num_of_Z 180.
Definition LAT_RANGE : number := num_of_Z 90.
Definition MIN_RING_POSITIONS : nat := 4.
Definition MAX_POLYGON_VERTICES : nat := 1000.

(** ** Operations *)

Section validation.
(** [Number::toString], used in messages only. *)
Variable num_to_string : number → string.

(** The failures of one position; [at_pos] is the beginning of its messages. *)
Definition position_failure (at_pos : string) (position : jsval) : option string :=
  match position with
  | JArr [lng; lat] =>
      match lng, lat with
      | JNum lng, JNum lat =>
          if negb (num_isFinite lng) || negb (num_isFinite lat)
          then Some (at_pos +:+ " must contain finite numbers")
          else if num_gt (num_abs lng) LNG_RANGE
          then Some (at_pos +:+ ": longitude " +:+ num_to_string lng +:+
                     " out of range [-180, 180] — coordinates are [lng, lat]")
          else if num_gt (num_abs lat) LAT_RANGE
          then Some (at_pos +:+ ": latitude " +:+ num_to_string lat +:+
                     " out of range [-90, 90] — coordinates are [lng, lat]")
          else None
      | _, _ => Some (at_pos +:+ " must contain finite numbers")
      end
  | _ => Some (at_pos +:+ " must be a [lng, lat] pair")
  end.

(** The inner loop: the first failure from [positionIndex] on. *)
Fixpoint positions_failure (ringIndex positionIndex : nat) (positions : list jsval) :
    option string :=
  match positions with
  | [] => None
  | position :: rest =>
      match position_failure
        ("ring " +:+ pretty ringIndex +:+ " position " +:+ pretty positionIndex) position with
      | Some failure => Some failure
      | None => positions_failure ringIndex (S positionIndex) rest
      end
  end.

(** [first[0] !== last[0] || first[1] !== last[1]] on checked positions. *)
Definition same_position (first last : jsval) : bool :=
  match first, last with
  | JArr [JNum x; JNum y], JArr [JNum x'; JNum y'] => num_eq x x' && num_eq y y'
  | _, _ => false
  end.

(** One iteration of the outer loop: a failure, or the vertices it counts. *)
Definition ring_failure (ringIndex : nat) (ring : jsval) : string + nat :=
  let too_short :=
    "ring " +:+ pretty ringIndex +:+ " must be an array of at least " +:+
    pretty MIN_RING_POSITIONS +:+ " positions (a closed ring repeats its first position last)" in
  match ring with
  | JArr positions =>
      if length positions <? MIN_RING_POSITIONS then inl too_short
      else
        match positions_failure ringIndex 0 positions with
        | Some failure => inl failure
        | None =>
            if same_position (default JUndefined (head positions))
                 (default JUndefined (last positions))
            then inr (length positions - 1)
            else inl ("ring " +:+ pretty ringIndex +:+
                      " is not closed: the last position must repeat the first")
        end
  | _ => inl too_short
  end.

Fixpoint rings_failure (ringIndex vertexCount : nat) (rings : list jsval) : string + nat :=
  match rings with
  | [] => inr vertexCount
  | ring :: rest =>
      match ring_failure ringIndex ring with
      | inl failure => inl failure
      | inr n => rings_failure (S ringIndex) (vertexCount + n) rest
      end
  end.

(** [geoJsonPolygonFailure(value)]. *)
Definition geoJsonPolygonFailure (value : jsval) : option string :=
  if negb (is_object value) then Some "boundary must be a GeoJSON Polygon object"
  else if negb (is_str "Polygon" (get_prop "type" value))
  then Some "boundary.type must be 'Polygon'"
  else
    match get_prop "coordinates" value with
    | JArr (ring :: rings) =>
        match rings_failure 0 0 (ring :: rings) with
        | inl failure => Some failure
        | inr vertexCount =>
            if MAX_POLYGON_VERTICES <? vertexCount
            then Some ("polygon has " +:+ pretty vertexCount +:+ " vertices; the maximum is " +:+
                       pretty MAX_POLYGON_VERTICES +:+ " (closing repeats excluded)")
            else None
        end
    | _ => Some "boundary.coordinates must be a non-empty array of linear rings"
    end.

(** The validator that [IsGeoJsonPolygon] registers. *)
Definition IsGeoJsonPolygon_validate (value : jsval) : bool :=
  match geoJsonPolygonFailure value with None => true | Some _ => false end.

Definition IsGeoJsonPolygon_defaultMessage (value : jsval) : string :=
  default "boundary is not a valid GeoJSON Polygon" (geoJsonPolygonFailure value).

(** ** The declarative description *)

Definition valid_position (v : jsval) : Prop :=
  ∃ lng lat, v = JArr [JNum lng; JNum lat] ∧
    num_isFinite lng = true ∧ num_isFinite lat = true ∧
    num_le (num_abs lng) LNG_RANGE = true ∧ num_le (num_abs lat) LAT_RANGE = true.

Definition closed (positions : list jsval) : Prop :=
  ∃ x y x' y', head positions = Some (JArr [JNum x; JNum y]) ∧
    last positions = Some (JArr [JNum x'; JNum y']) ∧
    num_eq x x' = true ∧ num_eq y y' = true.

Definition valid_ring (v : jsval) : Prop :=
  ∃ positions, v = JArr positions ∧ MIN_RING_POSITIONS ≤ length positions ∧
    Forall valid_position positions ∧ closed positions.

Definition ring_vertices (v : jsval) : nat :=
  match v with JArr positions => length positions - 1 | _ => 0 end.

Definition valid_polygon (v : jsval) : Prop :=
  is_object v = true ∧ get_prop "type" v = JStr "Polygon" ∧
  ∃ rings, get_prop "coordinates" v = JArr rings ∧ rings ≠ [] ∧ Forall valid_ring rings ∧
    sum_list (ring_vertices <$> rings) ≤ MAX_POLYGON_VERTICES.

(** The polygon an accepted value stands for. *)
Definition decode_position (v : jsval) : option position :=
  match v with JArr [JNum x; JNum y] => Some (x, y) | _ => None end.
Definition decode_ring (v : jsval) : option ring :=
  match v with JArr ps => mapM decode_position ps | _ => None end.
Definition decode_polygon (v : jsval) : option polygon :=
  match get_prop "coordinates" v with JArr rs => mapM decode_ring rs | _ => None end.

(** ** Lemmas *)

Lemma finite_abs x : num_isFinite x = true → is_nan (num_abs x) = false.
Proof. by destruct x. Qed.

(** On comparable numbers [x > y] is the negation of [x <= y]. *)
Lemma num_gt_false x y : is_nan x = false → is_nan y = false →
  num_gt x y = false ↔ num_le x y = true.
Proof.
  intros Hx Hy. unfold num_gt. split; [by apply num_lt_false_le|].
  intros Hle. destruct (num_lt y x) eqn:Hlt; [|done].
  apply num_le_spec in Hle as (_ & _ & Hn). apply num_lt_spec in Hlt as (_ & _ & Hk).
  by destruct Hn.
Qed.

Lemma position_failure_spec at_pos v :
  position_failure at_pos v = None ↔ valid_position v.
Proof.
  unfold position_failure, valid_position. split.
  - destruct v as [| | | | |[|lng [|lat [|]]]|]; try done.
    destruct lng as [| | |x| | |], lat as [| | |y| | |]; try done.
    destruct (num_isFinite x) eqn:Hx; [|done]. destruct (num_isFinite y) eqn:Hy; [|done].
    cbn [negb orb]. destruct (num_gt (num_abs x) LNG_RANGE) eqn:Hgx; [done|].
    destruct (num_gt (num_abs y) LAT_RANGE) eqn:Hgy; [done|]. intros _.
    apply num_gt_false in Hgx, Hgy; [|by apply finite_abs|done..|by apply finite_abs|done].
    by exists x, y.
  - intros (x & y & -> & Hx & Hy & Hgx & Hgy). rewrite Hx, Hy. cbn [negb orb].
    apply num_gt_false in Hgx, Hgy; [|by apply finite_abs|done..|by apply finite_abs|done].
    by rewrite Hgx, Hgy.
Qed.

Lemma positions_failure_spec i j ps :
  positions_failure i j ps = None ↔ Forall valid_position ps.
Proof.
  revert j. induction ps as [|p ps IH]; intros j; simpl; [by split|].
  rewrite Forall_cons. destruct (position_failure _ p) as [failure|] eqn:E.
  - split; [done|]. intros [Hp _]. by rewrite (proj2 (position_failure_spec _ _) Hp) in E.
  - apply position_failure_spec in E. rewrite IH. tauto.
Qed.

Lemma same_position_closed p ps :
  same_position (default JUndefined (head (p :: ps))) (default JUndefined (last (p :: ps))) = true ↔
  closed (p :: ps).
Proof.
  unfold closed. cbn [head]. destruct (last (p :: ps)) as [q|] eqn:Hq;
    [|by apply last_None in Hq]. cbn [default from_option id]. split.
  - unfold same_position.
    destruct p as [| | | | |[|[| | |x| | |] [|[| | |y| | |] [|]]]|]; try done.
    destruct q as [| | | | |[|[| | |x'| | |] [|[| | |y'| | |] [|]]]|]; try done.
    intros [? ?]%andb_true_iff. by exists x, y, x', y'.
  - intros (x & y & x' & y' & [= ->] & [= ->] & Hx & Hy). simpl. by rewrite Hx, Hy.
Qed.

Lemma ring_failure_spec i v n :
  ring_failure i v = inr n ↔ valid_ring v ∧ n = ring_vertices v.
Proof.
  unfold ring_failure, valid_ring. destruct v as [| | | | |ps|];
    try (split; [done|by intros [(? & [=] & _) _]]).
  destruct (Nat.ltb_spec (length ps) MIN_RING_POSITIONS) as [Hlt|Hge].
  { split; [done|]. intros [(? & [= <-] & Hl & _) _]. lia. }
  destruct ps as [|p ps]; [unfold MIN_RING_POSITIONS in Hge; simpl in Hge; lia|].
  destruct (positions_failure i 0 (p :: ps)) as [failure|] eqn:E.
  { split; [done|]. intros [(? & [= <-] & _ & Hall & _) _].
    apply (positions_failure_spec i 0) in Hall. congruence. }
  apply positions_failure_spec in E. pose proof (same_position_closed p ps) as Hc.
  destruct (same_position _ _).
  - split; [|by intros [_ ->]]. intros [= <-]. split; [|done].
    exists (p :: ps). split_and!; [done|done|done|]. by apply Hc.
  - split; [done|]. intros [(? & [= <-] & _ & _ & Hcl) _]. by apply Hc in Hcl.
Qed.

Lemma rings_failure_spec i n rings m :
  rings_failure i n rings = inr m ↔
  Forall valid_ring rings ∧ m = n + sum_list (ring_vertices <$> rings).
Proof.
  revert i n. induction rings as [|r rings IH]; intros i n; simpl.
  - rewrite Nat.add_0_r. split; [intros [= ->]; by split|by intros [_ ->]].
  - rewrite Forall_cons. destruct (ring_failure i r) as [failure|k] eqn:E.
    + split; [done|]. intros [[Hr _] _].
      assert (ring_failure i r = inr (ring_vertices r)) by (by apply ring_failure_spec). congruence.
    + apply ring_failure_spec in E as [Hr ->]. rewrite IH, Nat.add_assoc. tauto.
Qed.

Lemma failure_spec v : geoJsonPolygonFailure v = None ↔ valid_polygon v.
Proof.
  unfold geoJsonPolygonFailure, valid_polygon.
  destruct (is_object v); [|split; [done|by intros [? _]]]. cbn [negb].
  destruct (is_str "Polygon" (get_prop "type" v)) eqn:Ht; cbn [negb].
  - assert (get_prop "type" v = JStr "Polygon") as ->.
    { unfold is_str in Ht. destruct (get_prop "type" v); try done.
      apply bool_decide_eq_true in Ht. by subst. }
    destruct (get_prop "coordinates" v) as [| | | | |[|r rs]|];
      try (split; [done|by intros (_ & _ & ? & [=] & _)]).
    { split; [done|]. intros (_ & _ & ? & [= <-] & Hn & _). done. }
    destruct (rings_failure 0 0 (r :: rs)) as [failure|n] eqn:E.
    + split; [done|]. intros (_ & _ & rings & [= <-] & _ & Hall & _).
      assert (rings_failure 0 0 (r :: rs) = inr (0 + sum_list (ring_vertices <$> r :: rs)))
        by (by apply rings_failure_spec). congruence.
    + apply rings_failure_spec in E as [Hall ->].
      destruct (Nat.ltb_spec MAX_POLYGON_VERTICES (0 + sum_list (ring_vertices <$> r :: rs)))
        as [Hlt|Hle].
      * split; [done|]. intros (_ & _ & rings & [= <-] & _ & _ & Hle). lia.
      * split; [|done]. intros _. split_and!; [done|done|]. by exists (r :: rs).
  - split; [done|]. intros (_ & Hp & _). by rewrite Hp in Ht.
Qed.

Lemma decode_valid_positions ps :
  Forall valid_position ps →
  ∃ r, mapM decode_position ps = Some r ∧ length r = length ps ∧
    ∀ p, p ∈ r → is_nan p.1 = false ∧ is_nan p.2 = false.
Proof.
  induction 1 as [|v ps (x & y & -> & Hx & Hy & _) Hps IH].
  - exists []. split_and!; [done|done|]. by intros p Hp%not_elem_of_nil.
  - destruct IH as (r & Hr & Hlen & Hnan). exists ((x, y) :: r). simpl. rewrite Hr.
    split_and!; [done|simpl; lia|].
    intros p [->|Hp]%elem_of_cons; [by split; apply isFinite_not_nan|by apply Hnan].
Qed.

Lemma decode_valid_rings rings :
  Forall valid_ring rings →
  ∃ p, mapM decode_ring rings = Some p ∧ length p = length rings ∧
    ∀ r, r ∈ p → MIN_RING_POSITIONS ≤ length r ∧
      ∀ q, q ∈ r → is_nan q.1 = false ∧ is_nan q.2 = false.
Proof.
  induction 1 as [|v rings (ps & -> & Hlen & Hps & _) Hrings IH].
  - exists []. split_and!; [done|done|]. by intros r Hr%not_elem_of_nil.
  - destruct IH as (p & Hp & Hplen & Hall).
    destruct (decode_valid_positions ps Hps) as (r & Hr & Hrlen & Hnan).
    exists (r :: p). simpl. rewrite Hr. simpl. rewrite Hp.
    split_and!; [done|simpl; lia|].
    intros r' [->|Hr']%elem_of_cons; [split; [lia|done]|by apply Hall].
Qed.

(** An accepted value decodes to a polygon whose outer ring can be indexed. *)
Lemma valid_polygon_decodes v :
  geoJsonPolygonFailure v = None →
  ∃ outer holes, decode_polygon v = Some (outer :: holes) ∧
    ∀ p, p ∈ outer → is_nan p.1 = false ∧ is_nan p.2 = false.
Proof.
  intros (_ & _ & rings & Hc & Hne & Hall & _)%failure_spec.
  destruct (decode_valid_rings rings Hall) as (p & Hp & Hlen & Hrings).
  unfold decode_polygon. rewrite Hc, Hp. destruct p as [|outer holes]; [by destruct rings|].
  exists outer, holes. split; [done|]. apply Hrings. by left.
Qed.

Lemma validate_failure v :
  IsGeoJsonPolygon_validate v = true ↔ geoJsonPolygonFailure v = None.
Proof. unfold IsGeoJsonPolygon_validate. by destruct (geoJsonPolygonFailure v). Qed.

(** ** The guarantees *)

(** C28. The validator accepts exactly the GeoJSON polygons of the contract: an object
    of type [Polygon] with a non-empty list of closed rings of four positions or more,
    each a pair of finite numbers within the ranges of longitude and latitude, and at
    most 1000 vertices, the closing repeats not counted. *)
Theorem validation_exact v : IsGeoJsonPolygon_validate v = true ↔ valid_polygon v.
Proof.
  by rewrite <- failure_spec, validate_failure.
Qed.

(** What the validator accepts can be indexed: the value decodes to a polygon with
    an outer ring of comparable numbers, so the snapshot's index is built with it. *)
Theorem accepted_polygons_index v id :
  IsGeoJsonPolygon_validate v = true →
  ∃ p, decode_polygon v = Some p ∧ rows_wf [{| row_id := id; row_boundary := p |}] ∧
    ∃ item, toIndexedArea {| row_id := id; row_boundary := p |} = inr item.
Proof.
  intros (outer & holes & Hd & Hnan)%validate_failure%valid_polygon_decodes.
  exists (outer :: holes). split_and!; [done| |unfold toIndexedArea; simpl; eauto].
  intros row ->%list_elem_of_singleton. by exists outer, holes.
Qed.
End validation.

(** ** Witnesses *)

Definition fx_pos (x y : Z) : jsval := JArr [JNum (num_of_Z x); JNum (num_of_Z y)].

Definition fx_polygon : jsval :=
  JObj [("type", JStr "Polygon");
        ("coordinates", JArr [JArr [fx_pos 0 0; fx_pos 10 0; fx_pos 10 10; fx_pos 0 0]])].

Lemma accepted_polygons_index_witness :
  ∃ p, decode_polygon fx_polygon = Some p ∧
    rows_wf [{| row_id := "a"; row_boundary := p |}] ∧
    ∃ item, toIndexedArea {| row_id := "a"; row_boundary := p |} = inr item.
Proof.
  apply (accepted_polygons_index (λ _, "n") fx_polygon "a"). vm_compute. reflexivity.
Defined.
