(* ===== verification/Schema.v ===== *)
(** The schema: the DDL of [src/src/migrations] with its reversal, and the columns that
    the entity classes declare. The tables of [Db] are what this schema holds.

    A statement of DDL is data, named after its text; what PostgreSQL does with it
    (the catalogue it changes, and the cases it refuses) is [exec_ddl]. *)

From S2P Require Import Prelude.

(** ** Data *)

Inductive pg_type :=
| Uuid
| Varchar (length : option nat)
| Timestamptz
| Geometry (shape : string) (srid : Z)
| Bigint
| Smallint.

Inductive column_default := NoDefault | GenRandomUuid | Now | Literal (z : Z).

Record Column := {
  col_name : string;
  col_type : pg_type;
  col_not_null : bool;
  col_default : column_default;
}.

Inductive check_condition := StIsValid (column : string) | ColumnIs (column : string) (z : Z).

Inductive Constraint :=
| PrimaryKey (name : string) (columns : list string)
| ForeignKey (name column target target_column : string) (cascade : bool)
| Check_ (name : string) (condition : check_condition).

(** A table: its columns and constraints, and the rows that a migration puts there. *)
Record Table := {
  tb_columns : list Column;
  tb_constraints : list Constraint;
  tb_rows : list (list (string * Z));
}.

Inductive index_method := BTree | GiST.

Record Index := {
  ix_table : string;
  ix_method : index_method;
  ix_columns : list (string * bool);
}.

(** The statements of the one function: the advisory lock on the hash of its argument,
    and the query it returns. *)
Inductive plpgsql :=
| PerformAdvisoryXactLock (argument : string)
| ReturnQuerySelect (column table where_column argument : string).

Record Function_ := { fn_arguments : list (string * pg_type); fn_body : list plpgsql }.

Record Schema := {
  sc_postgis : bool;
  sc_tables : gmap string Table;
  sc_indexes : gmap string Index;
  sc_functions : gmap string Function_;
}.

Inductive ddl :=
| CreateExtensionPostgis
| CreateTable (name : string) (columns : list Column) (constraints : list Constraint)
| DropTable (name : string)
| CreateIndex (name : string) (index : Index)
| DropIndex (name : string)
| CreateFunction (name : string) (f : Function_)
| DropFunction (name : string)
| RenameColumn (table from to : string)
| InsertRow (table : string) (row : list (string * Z)).

Record Migration := { mg_name : string; up : list ddl; down : list ddl }.

#[export] Instance pg_type_eq_dec : EqDecision pg_type.
Proof. solve_decision. Defined.
#[export] Instance column_default_eq_dec : EqDecision column_default.
Proof. solve_decision. Defined.
#[export] Instance Column_eq_dec : EqDecision Column.
Proof. solve_decision. Defined.
#[export] Instance check_condition_eq_dec : EqDecision check_condition.
Proof. solve_decision. Defined.
#[export] Instance Constraint_eq_dec : EqDecision Constraint.
Proof. solve_decision. Defined.
#[export] Instance Table_eq_dec : EqDecision Table.
Proof. solve_decision. Defined.
#[export] Instance index_method_eq_dec : EqDecision index_method.
Proof. solve_decision. Defined.
#[export] Instance Index_eq_dec : EqDecision Index.
Proof. solve_decision. Defined.
#[export] Instance plpgsql_eq_dec : EqDecision plpgsql.
Proof. solve_decision. Defined.
#[export] Instance Function_eq_dec : EqDecision Function_.
Proof. solve_decision. Defined.
#[export] Instance Schema_eq_dec : EqDecision Schema.
Proof. solve_decision. Defined.

(** ** The migrations *)

Definition varchar (n : nat) : pg_type := Varchar (Some n).

Definition not_null (name : string) (t : pg_type) (d : column_default) : Column :=
  {| col_name := name; col_type := t; col_not_null := true; col_default := d |}.
Definition nullable (name : string) (t : pg_type) : Column :=
  {| col_name := name; col_type := t; col_not_null := false; col_default := NoDefault |}.

Definition EnablePostgisExtension : Migration :=
  {| mg_name := "EnablePostgisExtension1786038977187";
     up := [CreateExtensionPostgis]; down := [] |}.

Definition CreateAreasTable : Migration :=
  {| mg_name := "CreateAreasTable1786108207631";
     up :=
       [CreateTable "areas"
          [not_null "id" Uuid GenRandomUuid; not_null "name" (varchar 255) NoDefault;
           not_null "created_at" Timestamptz Now;
           not_null "boundary" (Geometry "Polygon" 4326) NoDefault]
          [PrimaryKey "pk_areas_id" ["id"];
           Check_ "chk_areas_boundary_valid" (StIsValid "boundary")];
        CreateIndex "idx_areas_boundary"
          {| ix_table := "areas"; ix_method := GiST; ix_columns := [("boundary", false)] |}];
     down := [DropIndex "idx_areas_boundary"; DropTable "areas"] |}.

Definition CreateLogsTable : Migration :=
  {| mg_name := "CreateLogsTable1786110074569";
     up :=
       [CreateTable "logs"
          [not_null "id" Uuid GenRandomUuid; not_null "user_id" (varchar 64) NoDefault;
           not_null "area_id" Uuid NoDefault; not_null "recorded_at" Timestamptz Now;
           nullable "observed_at" Timestamptz]
          [PrimaryKey "pk_logs_id" ["id"];
           ForeignKey "fk_logs_area" "area_id" "areas" "id" true];
        CreateIndex "idx_logs_user_recorded"
          {| ix_table := "logs"; ix_method := BTree;
             ix_columns := [("user_id", false); ("recorded_at", true)] |};
        CreateIndex "idx_logs_area_recorded"
          {| ix_table := "logs"; ix_method := BTree;
             ix_columns := [("area_id", false); ("recorded_at", true)] |}];
     down := [DropIndex "idx_logs_area_recorded"; DropIndex "idx_logs_user_recorded";
              DropTable "logs"] |}.

Definition CreatePresenceTable : Migration :=
  {| mg_name := "CreatePresenceTable1786110075607";
     up :=
       [CreateTable "user_area_presence"
          [not_null "user_id" (varchar 64) NoDefault; not_null "area_id" Uuid NoDefault;
           not_null "entered_at" Timestamptz Now; not_null "last_seen_at" Timestamptz Now]
          [PrimaryKey "pk_user_area_presence" ["user_id"; "area_id"];
           ForeignKey "fk_presence_area" "area_id" "areas" "id" true]];
     down := [DropTable "user_area_presence"] |}.

Definition CreateLockedPresenceReadFunction : Migration :=
  {| mg_name := "CreateLockedPresenceReadFunction1786118827443";
     up :=
       [CreateFunction "lock_user_and_read_presence"
          {| fn_arguments := [("uid", Varchar None)];
             fn_body :=
               [PerformAdvisoryXactLock "uid";
                ReturnQuerySelect "area_id" "user_area_presence" "user_id" "uid"] |}];
     down := [DropFunction "lock_user_and_read_presence"] |}.

Definition CreateLogsRecordedIdIndex : Migration :=
  {| mg_name := "CreateLogsRecordedIdIndex1786128051611";
     up :=
       [CreateIndex "idx_logs_recorded_id"
          {| ix_table := "logs"; ix_method := BTree;
             ix_columns := [("recorded_at", true); ("id", true)] |}];
     down := [DropIndex "idx_logs_recorded_id"] |}.

Definition CreateUserEventState : Migration :=
  {| mg_name := "CreateUserEventState1786247465996";
     up :=
       [CreateTable "user_event_state"
          [not_null "user_id" (varchar 64) NoDefault; not_null "device_id" (varchar 64) NoDefault;
           not_null "last_seq" Bigint NoDefault; not_null "last_event_at" Timestamptz Now]
          [PrimaryKey "pk_user_event_state" ["user_id"; "device_id"]]];
     down := [DropTable "user_event_state"] |}.

Definition RenameLogsObservedAtToCapturedAt : Migration :=
  {| mg_name := "RenameLogsObservedAtToCapturedAt1786247467078";
     up := [RenameColumn "logs" "observed_at" "captured_at"];
     down := [RenameColumn "logs" "captured_at" "observed_at"] |}.

Definition CreateAreaVersion : Migration :=
  {| mg_name := "CreateAreaVersion1786250194892";
     up :=
       [CreateTable "area_version"
          [not_null "id" Smallint (Literal 1); not_null "version" Bigint (Literal 1)]
          [PrimaryKey "pk_area_version" ["id"];
           Check_ "chk_area_version_singleton" (ColumnIs "id" 1)];
        InsertRow "area_version" [("id", 1%Z); ("version", 1%Z)]];
     down := [DropTable "area_version"] |}.

(** In the order of their time stamps. *)
Definition migrations : list Migration :=
  [EnablePostgisExtension; CreateAreasTable; CreateLogsTable; CreatePresenceTable;
   CreateLockedPresenceReadFunction; CreateLogsRecordedIdIndex; CreateUserEventState;
   RenameLogsObservedAtToCapturedAt; CreateAreaVersion].

(** ** What PostgreSQL does with a statement *)

Definition has_column (t : Table) (c : string) : bool :=
  existsb (λ col, bool_decide (col_name col = c)) (tb_columns t).

Definition constraint_columns (c : Constraint) : list string :=
  match c with
  | PrimaryKey _ columns => columns
  | ForeignKey _ column _ _ _ => [column]
  | Check_ _ (StIsValid column) | Check_ _ (ColumnIs column _) => [column]
  end.

(** A foreign key refers to the primary key of a table that exists. *)
Definition reference_ok (s : Schema) (c : Constraint) : bool :=
  match c with
  | ForeignKey _ _ target target_column _ =>
      match sc_tables s !! target with
      | Some t => existsb (λ k, match k with
                                | PrimaryKey _ columns => bool_decide (columns = [target_column])
                                | _ => false
                                end) (tb_constraints t) && has_column t target_column
      | None => false
      end
  | Check_ _ (StIsValid _) => sc_postgis s
  | _ => true
  end.

Definition type_ok (s : Schema) (t : pg_type) : bool :=
  match t with Geometry _ _ => sc_postgis s | _ => true end.

Definition references (name : string) (t : Table) : bool :=
  existsb (λ c, match c with
                | ForeignKey _ _ target _ _ => bool_decide (target = name)
                | _ => false
                end) (tb_constraints t).

Definition with_tables (f : gmap string Table) (s : Schema) : Schema :=
  {| sc_postgis := sc_postgis s; sc_tables := f; sc_indexes := sc_indexes s;
     sc_functions := sc_functions s |}.
Definition with_indexes (f : gmap string Index) (s : Schema) : Schema :=
  {| sc_postgis := sc_postgis s; sc_tables := sc_tables s; sc_indexes := f;
     sc_functions := sc_functions s |}.
Definition with_functions (f : gmap string Function_) (s : Schema) : Schema :=
  {| sc_postgis := sc_postgis s; sc_tables := sc_tables s; sc_indexes := sc_indexes s;
     sc_functions := f |}.
Definition with_postgis (b : bool) (s : Schema) : Schema :=
  {| sc_postgis := b; sc_tables := sc_tables s; sc_indexes := sc_indexes s;
     sc_functions := sc_functions s |}.

(** Renaming a column, in its table, in the constraints that name it and in indexes. *)
Definition renamed (from to x : string) : string := if decide (x = from) then to else x.

Definition rename_column (from to : string) (c : Column) : Column :=
  {| col_name := renamed from to (col_name c); col_type := col_type c;
     col_not_null := col_not_null c; col_default := col_default c |}.

Definition rename_constraint (from to : string) (c : Constraint) : Constraint :=
  match c with
  | PrimaryKey n columns => PrimaryKey n (renamed from to <$> columns)
  | ForeignKey n column t tc cascade => ForeignKey n (renamed from to column) t tc cascade
  | Check_ n (StIsValid column) => Check_ n (StIsValid (renamed from to column))
  | Check_ n (ColumnIs column z) => Check_ n (ColumnIs (renamed from to column) z)
  end.

Definition rename_target (table from to : string) (c : Constraint) : Constraint :=
  match c with
  | ForeignKey n column t tc cascade =>
      ForeignKey n column t (if decide (t = table) then renamed from to tc else tc) cascade
  | _ => c
  end.

Definition rename_row (from to : string) (row : list (string * Z)) : list (string * Z) :=
  (λ kv, (renamed from to kv.1, kv.2)) <$> row.

Definition rename_own (from to : string) (t : Table) : Table :=
  {| tb_columns := rename_column from to <$> tb_columns t;
     tb_constraints := rename_constraint from to <$> tb_constraints t;
     tb_rows := rename_row from to <$> tb_rows t |}.

Definition rename_targets (table from to : string) (t : Table) : Table :=
  {| tb_columns := tb_columns t;
     tb_constraints := rename_target table from to <$> tb_constraints t;
     tb_rows := tb_rows t |}.

Definition rename_in_table (table from to name : string) (t : Table) : Table :=
  rename_targets table from to (if decide (name = table) then rename_own from to t else t).

Definition rename_indexed (from to : string) (columns : list (string * bool)) :
    list (string * bool) := (λ cd, (renamed from to cd.1, cd.2)) <$> columns.

Definition rename_in_index (table from to : string) (ix : Index) : Index :=
  {| ix_table := ix_table ix; ix_method := ix_method ix;
     ix_columns :=
       if decide (ix_table ix = table)
       then rename_indexed from to (ix_columns ix) else ix_columns ix |}.

(** The values that a check and the primary key admit in a row of literals. *)
Definition row_ok (t : Table) (row : list (string * Z)) : bool :=
  forallb (λ kv, has_column t kv.1) row &&
  forallb (λ c, match c with
    | Check_ _ (ColumnIs column z) =>
        forallb (λ kv, negb (bool_decide (kv.1 = column)) || (kv.2 =? z)%Z) row
    | PrimaryKey _ columns =>
        negb (existsb (λ old, bool_decide
          (filter (λ kv, kv.1 ∈ columns) old = filter (λ kv, kv.1 ∈ columns) row)) (tb_rows t))
    | _ => true
    end) (tb_constraints t).

(** [None]: the statement is refused. The index behind a primary key is part of its
    constraint. *)
Definition exec_ddl (q : ddl) (s : Schema) : option Schema :=
  match q with
  | CreateExtensionPostgis => Some (with_postgis true s)
  | CreateTable name columns constraints =>
      let t := {| tb_columns := columns; tb_constraints := constraints; tb_rows := [] |} in
      match sc_tables s !! name, sc_indexes s !! name with
      | None, None =>
          if forallb (λ c, type_ok s (col_type c)) columns && forallb (reference_ok s) constraints &&
             forallb (λ c, forallb (has_column t) (constraint_columns c)) constraints
          then Some (with_tables (<[name := t]> (sc_tables s)) s) else None
      | _, _ => None
      end
  | DropTable name =>
      match sc_tables s !! name with
      | Some _ =>
          if existsb (λ kv, negb (bool_decide (kv.1 = name)) && references name kv.2)
               (map_to_list (sc_tables s))
          then None
          else Some (with_indexes (filter (λ kv, ix_table kv.2 ≠ name) (sc_indexes s))
                 (with_tables (delete name (sc_tables s)) s))
      | None => None
      end
  | CreateIndex name ix =>
      match sc_tables s !! name, sc_indexes s !! name, sc_tables s !! ix_table ix with
      | None, None, Some t =>
          if forallb (λ cd, has_column t cd.1) (ix_columns ix)
          then Some (with_indexes (<[name := ix]> (sc_indexes s)) s) else None
      | _, _, _ => None
      end
  | DropIndex name =>
      match sc_indexes s !! name with
      | Some _ => Some (with_indexes (delete name (sc_indexes s)) s)
      | None => None
      end
  | CreateFunction name f =>
      match sc_functions s !! name with
      | None => Some (with_functions (<[name := f]> (sc_functions s)) s)
      | Some _ => None
      end
  | DropFunction name =>
      match sc_functions s !! name with
      | Some _ => Some (with_functions (delete name (sc_functions s)) s)
      | None => None
      end
  | RenameColumn table from to =>
      match sc_tables s !! table with
      | Some t =>
          if has_column t from && negb (has_column t to)
          then Some (with_indexes (rename_in_index table from to <$> sc_indexes s)
                 (with_tables (map_imap (λ name t, Some (rename_in_table table from to name t))
                    (sc_tables s)) s))
          else None
      | None => None
      end
  | InsertRow table row =>
      match sc_tables s !! table with
      | Some t =>
          if row_ok t row
          then Some (with_tables (<[table :=
                 {| tb_columns := tb_columns t; tb_constraints := tb_constraints t;
                    tb_rows := tb_rows t ++ [row] |}]> (sc_tables s)) s)
          else None
      | None => None
      end
  end.

Fixpoint exec_all (qs : list ddl) (s : Schema) : option Schema :=
  match qs with
  | [] => Some s
  | q :: qs => exec_ddl q s ≫= exec_all qs
  end.

(** [migration:run] of a list of migrations, and [migration:revert] of them, the last
    one first. *)
Definition migrate (ms : list Migration) (s : Schema) : option Schema :=
  exec_all (ms ≫= up) s.
Definition revert (ms : list Migration) (s : Schema) : option Schema :=
  exec_all (reverse ms ≫= down) s.

Definition empty_database (postgis : bool) : Schema :=
  {| sc_postgis := postgis; sc_tables := ∅; sc_indexes := ∅; sc_functions := ∅ |}.

(** ** Well-formed schemas *)

(** Indexes, foreign keys, constraints and rows name columns that exist. *)
Record schema_wf (s : Schema) : Prop := {
  wf_index n ix : sc_indexes s !! n = Some ix →
    ∃ t, sc_tables s !! ix_table ix = Some t ∧
      ∀ cd, cd ∈ ix_columns ix → has_column t cd.1 = true;
  wf_reference n t name column target tc cascade :
    sc_tables s !! n = Some t → ForeignKey name column target tc cascade ∈ tb_constraints t →
    ∃ t', sc_tables s !! target = Some t' ∧ has_column t' tc = true;
  wf_columns n t c x : sc_tables s !! n = Some t → c ∈ tb_constraints t →
    x ∈ constraint_columns c → has_column t x = true;
  wf_rows n t row kv : sc_tables s !! n = Some t → row ∈ tb_rows t → kv ∈ row →
    has_column t kv.1 = true;
}.

Lemma has_column_true t x : has_column t x = true ↔ x ∈ col_name <$> tb_columns t.
Proof.
  unfold has_column. rewrite existsb_exists, list_elem_of_fmap.
  setoid_rewrite bool_decide_eq_true. setoid_rewrite <- list_elem_of_In. naive_solver.
Qed.

(** [ds] takes back what [us] did, but for the extension. *)
Definition undone (us ds : list ddl) : Prop :=
  ∀ s s', schema_wf s → exec_all us s = Some s' →
    schema_wf s' ∧ ∀ p, exec_all ds (with_postgis p s') = Some (with_postgis p s).

Lemma exec_all_app us us' s : exec_all (us ++ us') s = exec_all us s ≫= exec_all us'.
Proof.
  revert s. induction us as [|q us IH]; intros s; [done|]. simpl.
  by destruct (exec_ddl q s); simpl; [apply IH|].
Qed.

Lemma undone_nil : undone [] [].
Proof. by intros s s' Hwf [= <-]. Qed.

Lemma undone_app us ds us' ds' : undone us ds → undone us' ds' → undone (us ++ us') (ds' ++ ds).
Proof.
  intros H1 H2 s s' Hwf. rewrite exec_all_app.
  destruct (exec_all us s) as [s1|] eqn:E1; [|done]. simpl. intros E2.
  destruct (H1 s s1 Hwf E1) as [Hwf1 Hd1]. destruct (H2 s1 s' Hwf1 E2) as [Hwf2 Hd2].
  split; [done|]. intros p. rewrite exec_all_app, Hd2. apply Hd1.
Qed.

Lemma schema_wf_postgis p s : schema_wf s → schema_wf (with_postgis p s).
Proof. intros [H1 H2 H3 H4]. by split. Qed.

Lemma undone_extension : undone [CreateExtensionPostgis] [].
Proof. intros s s' Hwf [= <-]. split; [by apply schema_wf_postgis|done]. Qed.

Lemma undone_one a b :
  (∀ s s', schema_wf s → exec_ddl a s = Some s' →
     schema_wf s' ∧ ∀ p, exec_ddl b (with_postgis p s') = Some (with_postgis p s)) →
  undone [a] [b].
Proof.
  intros H s s' Hwf Hs. simpl in Hs. destruct (exec_ddl a s) as [s1|] eqn:E; [|done].
  injection Hs as ->. destruct (H s s' Hwf E) as [Hwf' Hd]. split; [done|].
  intros p. simpl. by rewrite Hd.
Qed.

Lemma undone_index name ix : undone [CreateIndex name ix] [DropIndex name].
Proof.
  apply undone_one. intros s s' [H1 H2 H3 H4]. simpl.
  destruct (sc_tables s !! name) eqn:Et; [done|]. destruct (sc_indexes s !! name) eqn:Ei; [done|].
  destruct (sc_tables s !! ix_table ix) as [t|] eqn:Etx; [|done].
  destruct (forallb _ _) eqn:Hc; [|done]. intros [= <-]. split.
  - split; simpl; try done. intros n ix'. rewrite lookup_insert_Some.
    intros [[_ <-]|[_ Hn]]; [|by eapply H1]. exists t. split; [done|].
    intros cd Hcd. rewrite forallb_forall in Hc. by apply Hc, list_elem_of_In.
  - intros p. simpl. rewrite lookup_insert_eq. f_equal. destruct s. unfold with_indexes, with_postgis.
    simpl in *. f_equal. by rewrite delete_insert_id.
Qed.

Lemma undone_function name f : undone [CreateFunction name f] [DropFunction name].
Proof.
  apply undone_one. intros s s' [H1 H2 H3 H4]. simpl.
  destruct (sc_functions s !! name) eqn:Ef; [done|]. intros [= <-]. split; [by split|].
  intros p. simpl. rewrite lookup_insert_eq. f_equal. destruct s. unfold with_functions, with_postgis.
  simpl in *. f_equal. by rewrite delete_insert_id.
Qed.

(** ** A table *)

Lemma create_table_some name columns constraints s s' :
  exec_ddl (CreateTable name columns constraints) s = Some s' →
  let t := {| tb_columns := columns; tb_constraints := constraints; tb_rows := [] |} in
  s' = with_tables (<[name := t]> (sc_tables s)) s ∧
  sc_tables s !! name = None ∧ sc_indexes s !! name = None ∧
  (∀ c, c ∈ constraints → reference_ok s c = true) ∧
  (∀ c x, c ∈ constraints → x ∈ constraint_columns c → has_column t x = true).
Proof.
  simpl. destruct (sc_tables s !! name); [done|]. destruct (sc_indexes s !! name); [done|].
  destruct (_ && _) eqn:E; [|done]. intros [= <-].
  rewrite !andb_true_iff, !forallb_forall in E. destruct E as [[_ E1] E2].
  split_and!; try done.
  - intros c Hc. by apply E1, list_elem_of_In.
  - intros c x Hc Hx. apply list_elem_of_In in Hc. specialize (E2 c Hc).
    rewrite forallb_forall in E2. by apply E2, list_elem_of_In.
Qed.

Lemma reference_ok_exists s name column target tc cascade :
  reference_ok s (ForeignKey name column target tc cascade) = true →
  ∃ t, sc_tables s !! target = Some t ∧ has_column t tc = true.
Proof.
  simpl. destruct (sc_tables s !! target) as [t|]; [|done].
  intros [_ H]%andb_true_iff. by exists t.
Qed.

(** A table with any rows in place of the fresh one. *)
Lemma fresh_table_wf s name t :
  schema_wf s → sc_tables s !! name = None →
  (∀ c, c ∈ tb_constraints t → reference_ok s c = true) →
  (∀ c x, c ∈ tb_constraints t → x ∈ constraint_columns c → has_column t x = true) →
  (∀ row kv, row ∈ tb_rows t → kv ∈ row → has_column t kv.1 = true) →
  schema_wf (with_tables (<[name := t]> (sc_tables s)) s).
Proof.
  intros [H1 H2 H3 H4] Hfresh Href Hcol Hrow.
  assert (Hkeep : ∀ n t', sc_tables s !! n = Some t' →
    <[name := t]> (sc_tables s) !! n = Some t').
  { intros n t' Hn. rewrite lookup_insert_ne; [done|]. intros ->. congruence. }
  split; simpl.
  - intros n ix Hix. destruct (H1 n ix Hix) as (t' & Ht & Hc). exists t'. auto.
  - intros n t' cn column target tc cascade. rewrite lookup_insert_Some.
    intros [[<- <-]|[_ Hn]] Hin.
    + apply Href, reference_ok_exists in Hin as (t' & ? & ?). exists t'. auto.
    + destruct (H2 _ _ _ _ _ _ _ Hn Hin) as (t'' & ? & ?). exists t''. auto.
  - intros n t' c x. rewrite lookup_insert_Some. intros [[_ <-]|[_ Hn]]; [apply Hcol|by eapply H3].
  - intros n t' row kv. rewrite lookup_insert_Some.
    intros [[_ <-]|[_ Hn]]; [apply Hrow|by eapply H4].
Qed.

(** Dropping it restores the schema. *)
Lemma drop_fresh_table s name t p :
  schema_wf s → sc_tables s !! name = None →
  exec_ddl (DropTable name) (with_postgis p (with_tables (<[name := t]> (sc_tables s)) s)) =
    Some (with_postgis p s).
Proof.
  intros [H1 H2 H3 H4] Hfresh. simpl. rewrite lookup_insert_eq.
  destruct (existsb _ _) eqn:E.
  - exfalso. apply existsb_exists in E as ([n t'] & Hin & Hr). simpl in Hr.
    apply andb_true_iff in Hr as [Hne Hr]. apply negb_true_iff, bool_decide_eq_false in Hne.
    apply list_elem_of_In, elem_of_map_to_list in Hin.
    rewrite lookup_insert_ne in Hin by congruence. unfold references in Hr.
    apply existsb_exists in Hr as (c & Hc & Ht). destruct c as [|cn column target tc cascade|]; [done| |done].
    apply bool_decide_eq_true in Ht as ->. apply list_elem_of_In in Hc.
    destruct (H2 _ _ _ _ _ _ _ Hin Hc) as (t'' & ? & _). congruence.
  - f_equal. destruct s as [g tables indexes functions].
    unfold with_indexes, with_tables, with_postgis. simpl in *.
    rewrite delete_insert_id by done. f_equal. apply map_filter_id.
    intros n ix Hix Hname. destruct (H1 n ix Hix) as (t' & ? & _). simpl in Hname; subst; congruence.
Qed.

Lemma undone_table name columns constraints :
  undone [CreateTable name columns constraints] [DropTable name].
Proof.
  apply undone_one.
  intros s s' Hwf (-> & Ht & _ & Href & Hcol)%create_table_some. split.
  - apply fresh_table_wf; [done..|]. by intros row kv ?%not_elem_of_nil.
  - intros p. by apply drop_fresh_table.
Qed.

(** A table with the row that its migration inserts. *)
Lemma undone_table_row name columns constraints row :
  undone [CreateTable name columns constraints; InsertRow name row] [DropTable name].
Proof.
  intros s s' Hwf Hs. change (exec_ddl (CreateTable name columns constraints) s ≫=
    exec_all [InsertRow name row] = Some s') in Hs.
  destruct (exec_ddl (CreateTable name columns constraints) s) as [s1|] eqn:E; [|done].
  apply create_table_some in E as (-> & Ht & _ & Href & Hcol). simpl in Hs.
  rewrite lookup_insert_eq in Hs. destruct (row_ok _ row) eqn:Hrow; [|done].
  simpl in Hs. injection Hs as <-. unfold with_tables at 1 3. simpl.
  rewrite insert_insert_eq.
  set (t := {| tb_columns := columns; tb_constraints := constraints; tb_rows := [row] |}).
  change (schema_wf (with_tables (<[name := t]> (sc_tables s)) s) ∧ ∀ p,
    exec_all [DropTable name] (with_postgis p (with_tables (<[name := t]> (sc_tables s)) s)) =
    Some (with_postgis p s)).
  split.
  - apply fresh_table_wf; [done..|]. intros row' kv ->%list_elem_of_singleton Hkv.
    apply andb_true_iff in Hrow as [Hrow _]. rewrite forallb_forall in Hrow.
    by apply Hrow, list_elem_of_In.
  - intros p. cbn [exec_all]. by rewrite drop_fresh_table.
Qed.

(** ** Renaming a column *)

Lemma renamed_back a b x : x ≠ b → renamed b a (renamed a b x) = x.
Proof. intros Hx. unfold renamed. repeat case_decide; congruence. Qed.

Lemma list_fmap_fixed {A} (f : A → A) (l : list A) : (∀ x, x ∈ l → f x = x) → f <$> l = l.
Proof.
  induction l as [|x l IH]; intros H; [done|]. rewrite fmap_cons, H by (by left).
  f_equal. apply IH. intros y Hy. apply H. by right.
Qed.

Definition own_name (table from to name x : string) : string :=
  if decide (name = table) then renamed from to x else x.

Lemma has_column_renamed table from to name t x :
  has_column t x = true →
  has_column (rename_in_table table from to name t) (own_name table from to name x) = true.
Proof.
  rewrite !has_column_true. unfold rename_in_table, own_name. case_decide; [|done]. simpl.
  rewrite <- list_fmap_compose. intros (c & -> & Hc)%list_elem_of_fmap.
  apply list_elem_of_fmap. exists c. done.
Qed.

(** The constraints after the renaming. *)
Definition rename_any (table from to name : string) (c : Constraint) : Constraint :=
  rename_target table from to (if decide (name = table) then rename_constraint from to c else c).

Lemma rename_in_table_constraints table from to name t :
  tb_constraints (rename_in_table table from to name t) =
    rename_any table from to name <$> tb_constraints t.
Proof.
  unfold rename_in_table, rename_any. case_decide; simpl; [|done].
  by rewrite <- list_fmap_compose.
Qed.

Lemma rename_in_table_rows table from to name t row kv :
  row ∈ tb_rows (rename_in_table table from to name t) → kv ∈ row →
  ∃ row0 kv0, row0 ∈ tb_rows t ∧ kv0 ∈ row0 ∧ kv.1 = own_name table from to name kv0.1.
Proof.
  unfold rename_in_table, own_name. case_decide; simpl; [|by eauto].
  rewrite list_elem_of_fmap. intros (row0 & -> & Hrow) (kv0 & -> & Hkv)%list_elem_of_fmap.
  by exists row0, kv0.
Qed.

Lemma constraint_columns_renamed table from to name c :
  constraint_columns (rename_any table from to name c) =
    own_name table from to name <$> constraint_columns c.
Proof.
  unfold rename_any, own_name. case_decide;
    destruct c as [n cs|n col tg tc cas|n [col|col z]]; simpl; try done.
  by rewrite list_fmap_id.
Qed.

(** What the renaming leaves, and that it can be taken back. *)
Section rename.
Variables (table a b : string) (s : Schema) (t0 : Table).
Hypothesis Hwf : schema_wf s.
Hypothesis Ht0 : sc_tables s !! table = Some t0.
Hypothesis Ha : has_column t0 a = true.
Hypothesis Hb : has_column t0 b = false.

Definition renamed_tables : gmap string Table :=
  map_imap (λ name t, Some (rename_in_table table a b name t)) (sc_tables s).

Definition renamed_schema : Schema :=
  with_indexes (rename_in_index table a b <$> sc_indexes s) (with_tables renamed_tables s).

Lemma renamed_lookup n :
  renamed_tables !! n = rename_in_table table a b n <$> sc_tables s !! n.
Proof. unfold renamed_tables. rewrite map_lookup_imap. by destruct (sc_tables s !! n). Qed.

Lemma column_not_new x : has_column t0 x = true → x ≠ b.
Proof. intros Hx ->. congruence. Qed.

Lemma renamed_wf : schema_wf renamed_schema.
Proof.
  destruct Hwf as [H1 H2 H3 H4]. split; simpl.
  - intros n ix. rewrite lookup_fmap. destruct (sc_indexes s !! n) as [ix0|] eqn:E; [|done].
    intros [= <-]. destruct (H1 n ix0 E) as (t & Ht & Hc). simpl.
    exists (rename_in_table table a b (ix_table ix0) t). rewrite renamed_lookup, Ht.
    split; [done|]. intros cd. pose proof (has_column_renamed table a b (ix_table ix0) t) as Hh.
    unfold own_name in Hh. case_decide; [|intros Hcd; by apply Hh, Hc].
    unfold rename_indexed. intros (cd0 & -> & Hcd)%list_elem_of_fmap. by apply Hh, Hc.
  - intros n t cn column target tc cascade. rewrite renamed_lookup.
    destruct (sc_tables s !! n) as [t'|] eqn:E; [|done]. intros [= <-].
    rewrite rename_in_table_constraints, list_elem_of_fmap. intros (c & Hc & Hin).
    assert (Hfk : ∃ cn0 column0 tc0 cas0, c = ForeignKey cn0 column0 target tc0 cas0 ∧
      tc = own_name table a b target tc0).
    { unfold rename_any, own_name in *. destruct c as [|cn0 column0 tg tc0 cas0|? []];
        case_decide; simpl in Hc; try done;
        injection Hc as -> -> -> -> ->; do 4 eexists; by split. }
    destruct Hfk as (cn0 & column0 & tc0 & cas0 & -> & ->).
    destruct (H2 _ _ _ _ _ _ _ E Hin) as (tt & Htt & Hcol).
    eexists. rewrite renamed_lookup, Htt. split; [done|]. by apply has_column_renamed.
  - intros n t c x. rewrite renamed_lookup. destruct (sc_tables s !! n) as [t'|] eqn:E; [|done].
    intros [= <-]. rewrite rename_in_table_constraints, list_elem_of_fmap.
    intros (c0 & -> & Hin). rewrite constraint_columns_renamed, list_elem_of_fmap.
    intros (x0 & -> & Hx). apply has_column_renamed. by eapply H3.
  - intros n t row kv. rewrite renamed_lookup. destruct (sc_tables s !! n) as [t'|] eqn:E; [|done].
    intros [= <-] Hrow Hkv.
    destruct (rename_in_table_rows _ _ _ _ _ _ _ Hrow Hkv) as (row0 & kv0 & Hr & Hk & ->).
    apply has_column_renamed. by eapply H4.
Qed.

Lemma own_name_back n t x :
  sc_tables s !! n = Some t → has_column t x = true →
  own_name table b a n (own_name table a b n x) = x.
Proof.
  intros Hn Hx. unfold own_name. case_decide as Hd; [|done]. subst n.
  rewrite Ht0 in Hn. injection Hn as <-. by apply renamed_back, column_not_new.
Qed.

Lemma rename_any_back n t c :
  sc_tables s !! n = Some t → c ∈ tb_constraints t →
  rename_any table b a n (rename_any table a b n c) = c.
Proof.
  intros Hn Hin. destruct Hwf as [_ H2 H3 _].
  pose proof (λ x, H3 n t c x Hn Hin) as Hcol.
  assert (Hback : ∀ x, x ∈ constraint_columns c → own_name table b a n (own_name table a b n x) = x).
  { intros x Hx. eapply own_name_back; [done|by apply Hcol]. }
  unfold rename_any, own_name in *.
  destruct c as [cn cs|cn col tg tc cas|cn [col|col z]]; simpl in *; case_decide; simpl; try done.
  - f_equal. rewrite <- list_fmap_compose. apply list_fmap_fixed. auto.
  - rewrite Hback by (by left). f_equal. case_decide as Htg; [|done].
    destruct (H2 _ _ _ _ _ _ _ Hn Hin) as (t' & Ht' & Htc). subst tg.
    rewrite Ht0 in Ht'. injection Ht' as <-. by apply renamed_back, column_not_new.
  - f_equal. case_decide as Htg; [|done].
    destruct (H2 _ _ _ _ _ _ _ Hn Hin) as (t' & Ht' & Htc). subst tg.
    rewrite Ht0 in Ht'. injection Ht' as <-. by apply renamed_back, column_not_new.
  - by rewrite Hback by (by left).
  - by rewrite Hback by (by left).
Qed.

Lemma rename_in_table_back n t :
  sc_tables s !! n = Some t →
  rename_in_table table b a n (rename_in_table table a b n t) = t.
Proof.
  intros Hn.
  assert (Hc : tb_constraints (rename_in_table table b a n (rename_in_table table a b n t)) =
    tb_constraints t).
  { rewrite !rename_in_table_constraints, <- list_fmap_compose. apply list_fmap_fixed.
    intros c Hc. by eapply rename_any_back. }
  pose proof (λ x, own_name_back n t x Hn) as Hback.
  pose proof (λ row kv, wf_rows _ Hwf n t row kv Hn) as Hrows.
  destruct t as [columns constraints rows]. unfold rename_in_table, own_name in *.
  case_decide; simpl in *; unfold rename_targets, rename_own in *; simpl in *; f_equal; try done.
  - rewrite <- list_fmap_compose. apply list_fmap_fixed. intros [cn ct cnn cd] Hin.
    unfold rename_column. simpl. f_equal. apply Hback. apply has_column_true, list_elem_of_fmap.
    by exists {| col_name := cn; col_type := ct; col_not_null := cnn; col_default := cd |}.
  - rewrite <- list_fmap_compose. apply list_fmap_fixed. intros row Hrow. unfold rename_row; simpl.
    unfold rename_row. rewrite <- list_fmap_compose. apply list_fmap_fixed. intros [k v] Hkv. simpl.
    f_equal. apply Hback. by apply (Hrows row (k, v)).
Qed.

Lemma rename_in_index_back n ix :
  sc_indexes s !! n = Some ix →
  rename_in_index table b a (rename_in_index table a b ix) = ix.
Proof.
  intros Hn. destruct (wf_index _ Hwf n ix Hn) as (t & Ht & Hc). destruct ix as [tb m cols].
  unfold rename_in_index. simpl in *. f_equal. case_decide as Hd; [|done]. subst tb.
  rewrite Ht0 in Ht. injection Ht as <-. unfold rename_indexed. rewrite <- list_fmap_compose.
  apply list_fmap_fixed. intros [c d] Hcd. simpl. f_equal.
  by apply renamed_back, column_not_new, (Hc (c, d)).
Qed.

Lemma has_old_column :
  has_column (rename_in_table table a b table t0) b = true ∧
  has_column (rename_in_table table a b table t0) a = false.
Proof.
  split.
  - pose proof (has_column_renamed table a b table t0 a Ha) as H. unfold own_name, renamed in H.
    by rewrite !decide_True in H.
  - apply not_true_iff_false. rewrite has_column_true. unfold rename_in_table.
    rewrite decide_True by done. simpl. rewrite <- list_fmap_compose.
    intros (c & Hc & Hin)%list_elem_of_fmap. simpl in Hc. unfold renamed in Hc.
    pose proof (column_not_new a Ha). case_decide; congruence.
Qed.

Lemma renamed_reverts p :
  exec_ddl (RenameColumn table b a) (with_postgis p renamed_schema) = Some (with_postgis p s).
Proof.
  destruct has_old_column as [Hnew Hold]. simpl. rewrite renamed_lookup, Ht0. simpl.
  rewrite Hnew, Hold. simpl. f_equal.
  unfold with_indexes, with_tables, with_postgis. simpl. f_equal.
  - apply map_eq. intros n. rewrite map_lookup_imap, renamed_lookup.
    destruct (sc_tables s !! n) as [t|] eqn:E; [|done]. simpl. f_equal.
    by apply rename_in_table_back.
  - apply map_eq. intros n. rewrite !lookup_fmap.
    destruct (sc_indexes s !! n) as [ix|] eqn:E; [|done].
    simpl. f_equal. by apply (rename_in_index_back n).
Qed.
End rename.

Lemma undone_rename table a b : undone [RenameColumn table a b] [RenameColumn table b a].
Proof.
  apply undone_one. intros s s' Hwf. cbn [exec_ddl].
  destruct (sc_tables s !! table) as [t|] eqn:Et; [|done].
  destruct (has_column t a) eqn:Ea; [|done]. destruct (has_column t b) eqn:Eb; [done|].
  intros [= <-]. split; [by eapply renamed_wf|]. intros p. by eapply renamed_reverts.
Qed.

(** ** The entity classes *)

(** What the decorators of an entity declare: per column its name, type, nullability and
    whether it is part of the primary key; the references with [onDelete: 'CASCADE'];
    and the named indexes. *)
Record EntityColumn := {
  ec_name : string;
  ec_type : pg_type;
  ec_nullable : bool;
  ec_primary : bool;
}.

Record Entity := {
  en_table : string;
  en_columns : list EntityColumn;
  en_references : list (string * string);
  en_indexes : list (string * list string);
}.

Definition key_column (name : string) (t : pg_type) : EntityColumn :=
  {| ec_name := name; ec_type := t; ec_nullable := false; ec_primary := true |}.
Definition plain_column (name : string) (t : pg_type) : EntityColumn :=
  {| ec_name := name; ec_type := t; ec_nullable := false; ec_primary := false |}.
Definition nullable_column (name : string) (t : pg_type) : EntityColumn :=
  {| ec_name := name; ec_type := t; ec_nullable := true; ec_primary := false |}.

Definition AreaEntity_metadata : Entity :=
  {| en_table := "areas";
     en_columns := [key_column "id" Uuid; plain_column "name" (varchar 255);
                    plain_column "created_at" Timestamptz;
                    plain_column "boundary" (Geometry "Polygon" 4326)];
     en_references := []; en_indexes := [] |}.

Definition LogEntity_metadata : Entity :=
  {| en_table := "logs";
     en_columns := [key_column "id" Uuid; plain_column "user_id" (varchar 64);
                    plain_column "area_id" Uuid; plain_column "recorded_at" Timestamptz;
                    nullable_column "captured_at" Timestamptz];
     en_references := [("area_id", "areas")];
     en_indexes := [("idx_logs_user_recorded", ["user_id"; "recorded_at"]);
                    ("idx_logs_area_recorded", ["area_id"; "recorded_at"])] |}.

Definition PresenceEntity_metadata : Entity :=
  {| en_table := "user_area_presence";
     en_columns := [key_column "user_id" (varchar 64); key_column "area_id" Uuid;
                    plain_column "entered_at" Timestamptz;
                    plain_column "last_seen_at" Timestamptz];
     en_references := [("area_id", "areas")]; en_indexes := [] |}.

Definition UserEventStateEntity_metadata : Entity :=
  {| en_table := "user_event_state";
     en_columns := [key_column "user_id" (varchar 64); key_column "device_id" (varchar 64);
                    plain_column "last_seq" Bigint; plain_column "last_event_at" Timestamptz];
     en_references := []; en_indexes := [] |}.

Definition entities : list Entity :=
  [AreaEntity_metadata; LogEntity_metadata; PresenceEntity_metadata;
   UserEventStateEntity_metadata].

(** The table of an entity has its columns, its key, its references and its indexes. *)
Definition column_view (c : Column) : string * pg_type * bool :=
  (col_name c, col_type c, negb (col_not_null c)).

Definition entity_matches (s : Schema) (e : Entity) : bool :=
  match sc_tables s !! en_table e with
  | None => false
  | Some t =>
      bool_decide (column_view <$> tb_columns t =
        (λ c, (ec_name c, ec_type c, ec_nullable c)) <$> en_columns e) &&
      existsb (λ c, match c with
        | PrimaryKey _ columns =>
            bool_decide (columns = ec_name <$> filter (λ c, ec_primary c = true) (en_columns e))
        | _ => false
        end) (tb_constraints t) &&
      forallb (λ r, existsb (λ c, match c with
        | ForeignKey _ column target _ cascade =>
            bool_decide (column = r.1) && bool_decide (target = r.2) && cascade
        | _ => false
        end) (tb_constraints t)) (en_references e) &&
      forallb (λ i, match sc_indexes s !! i.1 with
        | Some ix => bool_decide (ix_table ix = en_table e) && bool_decide ((ix_columns ix).*1 = i.2)
        | None => false
        end) (en_indexes e)
  end.

(** The constraint names that a violation of a table can report. *)
Definition constraint_name (c : Constraint) : string :=
  match c with PrimaryKey n _ | ForeignKey n _ _ _ _ | Check_ n _ => n end.

Definition constraint_names (s : Schema) (table : string) : list string :=
  from_option (λ t, constraint_name <$> tb_constraints t) [] (sc_tables s !! table).

Definition find_column (s : Schema) (table column : string) : option Column :=
  sc_tables s !! table ≫= λ t, snd <$> list_find (λ c, col_name c = column) (tb_columns t).

(** ** The guarantees *)

Lemma migration_undone m : m ∈ migrations → undone (up m) (down m).
Proof.
  assert (Hstep : ∀ us ds us' ds', undone us ds → undone us' ds' → undone (us ++ us') (ds' ++ ds)).
  { intros us ds us' ds'. apply undone_app. }
  unfold migrations. rewrite !elem_of_cons.
  intros [->|[->|[->|[->|[->|[->|[->|[->|[->|Hm]]]]]]]]].
  - apply undone_extension.
  - apply (Hstep [_] [_] [_] [_]); [apply undone_table|apply undone_index].
  - apply (Hstep [_] [_] [_; _] [_; _]); [apply undone_table|].
    apply (Hstep [_] [_] [_] [_]); apply undone_index.
  - apply undone_table.
  - apply undone_function.
  - apply undone_index.
  - apply undone_table.
  - apply undone_rename.
  - apply undone_table_row.
  - by apply not_elem_of_nil in Hm.
Qed.

Lemma undone_all ms :
  Forall (λ m, m ∈ migrations) ms → undone (ms ≫= up) (reverse ms ≫= down).
Proof.
  induction 1 as [|m ms Hm _ IH]; [apply undone_nil|].
  rewrite reverse_cons, bind_app. cbn [mbind list_bind]. rewrite app_nil_r.
  apply undone_app; [by apply migration_undone|done].
Qed.

(** C30. Every migration can be taken back: whatever well-formed schema it starts from,
    when any of the migrations, in any order, have been applied, reverting them from
    the last to the first is accepted by the database at every step and restores that
    schema, except that the PostGIS extension stays, as the first migration means it
    to; and the schema in between is well-formed. *)
Theorem migrations_revert ms s s' :
  Forall (λ m, m ∈ migrations) ms → schema_wf s → migrate ms s = Some s' →
  schema_wf s' ∧ revert ms s' = Some (with_postgis (sc_postgis s') s).
Proof.
  intros Hms Hwf Hup. destruct (undone_all ms Hms s s' Hwf Hup) as [Hwf' Hdown].
  split; [done|]. specialize (Hdown (sc_postgis s')). by destruct s'.
Qed.

(** The migrations apply to an empty database, with or without PostGIS, and give one
    schema: every entity class has its table, with the columns, types, nullability,
    primary key, cascading references and indexes that the class declares; the tables
    report exactly the constraint names that the statements of the services rely on;
    the version counter starts as the single row (1, 1); and the locking function
    takes the user's lock before it reads. *)
Theorem migrations_schema postgis :
  ∃ s, migrate migrations (empty_database postgis) = Some s ∧
    forallb (entity_matches s) entities = true ∧
    constraint_names s "user_area_presence" = ["pk_user_area_presence"; "fk_presence_area"] ∧
    constraint_names s "logs" = ["pk_logs_id"; "fk_logs_area"] ∧
    constraint_names s "areas" = ["pk_areas_id"; "chk_areas_boundary_valid"] ∧
    tb_rows <$> sc_tables s !! "area_version" = Some [[("id", 1%Z); ("version", 1%Z)]] ∧
    fn_body <$> sc_functions s !! "lock_user_and_read_presence" =
      Some [PerformAdvisoryXactLock "uid";
            ReturnQuerySelect "area_id" "user_area_presence" "user_id" "uid"].
Proof.
  exists (default (empty_database true) (migrate migrations (empty_database postgis))).
  split_and!; destruct postgis; vm_compute; reflexivity.
Qed.

(** ** Witnesses *)

Lemma empty_database_wf postgis : schema_wf (empty_database postgis).
Proof. split; simpl; intros; by simplify_map_eq. Qed.

Lemma migrations_revert_witness :
  let s := default (empty_database false) (migrate migrations (empty_database false)) in
  schema_wf s ∧ revert migrations s = Some (with_postgis (sc_postgis s) (empty_database false)).
Proof.
  apply (migrations_revert migrations (empty_database false)).
  - by apply Forall_forall.
  - apply empty_database_wf.
  - vm_compute. reflexivity.
Defined.
