(* ===== verification/Filter.v ===== *)
(** The HTTP edge: the exception filter,
    [src/src/common/filters/all-exceptions.filter.ts], and the response envelope,
    [src/src/common/interceptors/response-transform.interceptor.ts]. *)

From S2P Require Import Prelude Num Js.

(** ** Data *)

Definition POSTGRES_QUERY_CANCELED : string := "57014".
Definition POSTGRES_IDLE_TXN_KILLED : string := "25P03".
Definition PG_POOL_ACQUIRE_TIMEOUT_MESSAGE : string :=
  "timeout exceeded when trying to connect".
Definition RETRY_AFTER_SECONDS : string := "5".

Record Request := { rq_method : string; rq_url : string }.

Record Response := {
  rs_status : number;
  rs_headers : list (string * string);
  rs_body : jsval;
}.

(** What the filter writes to the log: nothing, a warning or an error. *)
Inductive log_line := LogWarn (message : string) | LogError (message : string).

(** ** Operations *)

(** [body(statusCode, path, message)]; the clock is the argument [timestamp]. *)
Definition error_body (timestamp : string) (statusCode : number) (path : string)
    (message : jsval) : jsval :=
  JObj [("statusCode", JNum statusCode); ("timestamp", JStr timestamp);
        ("path", JStr path); ("message", message)].

(** [isTransientTimeout(exception)]. *)
Definition isTransientTimeout (v : jsval) : bool :=
  if negb (is_object v) then false
  else if is_true (get_prop "transientPublishFailure" v) then true
  else
    let code := nullish (opt_prop "code" (get_prop "driverError" v)) (get_prop "code" v) in
    if is_str POSTGRES_QUERY_CANCELED code || is_str POSTGRES_IDLE_TXN_KILLED code then true
    else match get_prop "message" v with
         | JStr m => str_includes PG_POOL_ACQUIRE_TIMEOUT_MESSAGE m
         | _ => false
         end.

(** [asExposedClientError(exception)]. *)
Definition asExposedClientError (v : jsval) : option (number * string) :=
  if negb (is_object v) then None
  else
    match nullish (get_prop "statusCode" v) (get_prop "status" v), get_prop "message" v with
    | JNum statusCode, JStr message =>
        if is_true (get_prop "expose" v) && num_isInteger statusCode &&
           num_ge statusCode (num_of_Z 400) && num_lt statusCode (num_of_Z 500)
        then Some (statusCode, message) else None
    | _, _ => None
    end.

(** The payload of an [HttpException] as the filter answers it. *)
Definition http_answer (timestamp url : string) (status : Z) (payload : jsval)
    (message : string) : jsval :=
  if is_object payload && negb (has_prop "message" payload) then payload
  else
    error_body timestamp (num_of_Z status) url
      (match payload with
       | JStr _ => payload
       | _ => nullish (get_prop "message" payload) (JStr message)
       end).

(** [catch(exception, host)]. [describe] is the text of the exception for the log,
    [exception.message] or [String(exception)]. *)
Definition filter_catch (describe : jsval → string) (timestamp : string) (exception : exn)
    (request : Request) : Response * option log_line :=
  let where_ := rq_method request +:+ " " +:+ rq_url request in
  match exception with
  | HttpException status payload message =>
      ({| rs_status := num_of_Z status; rs_headers := [];
          rs_body := http_answer timestamp (rq_url request) status payload message |}, None)
  | Thrown v =>
      match asExposedClientError v with
      | Some (statusCode, message) =>
          ({| rs_status := statusCode; rs_headers := [];
              rs_body := error_body timestamp statusCode (rq_url request) (JStr message) |}, None)
      | None =>
          if isTransientTimeout v
          then ({| rs_status := num_of_Z 503; rs_headers := [("Retry-After", RETRY_AFTER_SECONDS)];
                   rs_body := error_body timestamp (num_of_Z 503) (rq_url request)
                     (JStr "Service temporarily unavailable, retry later") |},
                Some (LogWarn ("timeout on " +:+ where_ +:+ ": " +:+ describe v)))
          else ({| rs_status := num_of_Z 500; rs_headers := [];
                   rs_body := error_body timestamp (num_of_Z 500) (rq_url request)
                     (JStr "Internal server error") |},
                Some (LogError ("unhandled exception on " +:+ where_ +:+ ": " +:+ describe v)))
      end
  end.

(** [intercept]: the envelope of a successful answer; [skip] is the decorator's flag. *)
Definition intercept (timestamp : string) (skip : jsval) (statusCode : number) (data : jsval) :
    jsval :=
  if is_true skip then data
  else JObj [("statusCode", JNum statusCode); ("timestamp", JStr timestamp); ("data", data)].

(** ** The contract *)

(** How the contract of ADR 0009 and of the filter's comment classifies exceptions. *)
Inductive http_class :=
| Structured (status : Z) (payload : jsval)
| Deliberate (status : Z) (message : jsval)
| ClientError (status : number) (message : string)
| Transient
| Internal.

Definition transient (v : jsval) : Prop :=
  is_object v = true ∧
  (get_prop "transientPublishFailure" v = JBool true ∨
   (∃ code, (code = POSTGRES_QUERY_CANCELED ∨ code = POSTGRES_IDLE_TXN_KILLED) ∧
      nullish (opt_prop "code" (get_prop "driverError" v)) (get_prop "code" v) = JStr code) ∨
   ∃ m, get_prop "message" v = JStr m ∧ str_includes PG_POOL_ACQUIRE_TIMEOUT_MESSAGE m = true).

Definition exposed (v : jsval) (status : number) (message : string) : Prop :=
  is_object v = true ∧ get_prop "expose" v = JBool true ∧
  nullish (get_prop "statusCode" v) (get_prop "status" v) = JNum status ∧
  get_prop "message" v = JStr message ∧ num_isInteger status = true ∧
  num_ge status (num_of_Z 400) = true ∧ num_lt status (num_of_Z 500) = true.

Inductive classified : exn → http_class → Prop :=
| cl_structured status payload message :
    is_object payload = true → has_prop "message" payload = false →
    classified (HttpException status payload message) (Structured status payload)
| cl_text status text message :
    classified (HttpException status (JStr text) message) (Deliberate status (JStr text))
| cl_said status payload message :
    is_object payload = true → has_prop "message" payload = true →
    get_prop "message" payload ≠ JUndefined → get_prop "message" payload ≠ JNull →
    classified (HttpException status payload message)
      (Deliberate status (get_prop "message" payload))
| cl_unsaid status payload message :
    is_object payload = true → has_prop "message" payload = true →
    get_prop "message" payload = JUndefined ∨ get_prop "message" payload = JNull →
    classified (HttpException status payload message) (Deliberate status (JStr message))
| cl_exposed v status message :
    exposed v status message → classified (Thrown v) (ClientError status message)
| cl_transient v :
    (∀ status message, ¬ exposed v status message) → transient v →
    classified (Thrown v) Transient
| cl_internal v :
    (∀ status message, ¬ exposed v status message) → ¬ transient v →
    classified (Thrown v) Internal.

(** The response of an [HttpException] is a string or an object. *)
Definition well_typed (e : exn) : Prop :=
  match e with
  | HttpException _ payload _ => is_object payload = true ∨ ∃ text, payload = JStr text
  | Thrown _ => True
  end.

(** The answer the contract gives to a class. *)
Definition class_answer (timestamp url : string) (c : http_class) : Response :=
  match c with
  | Structured status payload =>
      {| rs_status := num_of_Z status; rs_headers := []; rs_body := payload |}
  | Deliberate status message =>
      {| rs_status := num_of_Z status; rs_headers := [];
         rs_body := error_body timestamp (num_of_Z status) url message |}
  | ClientError status message =>
      {| rs_status := status; rs_headers := [];
         rs_body := error_body timestamp status url (JStr message) |}
  | Transient =>
      {| rs_status := num_of_Z 503; rs_headers := [("Retry-After", RETRY_AFTER_SECONDS)];
         rs_body := error_body timestamp (num_of_Z 503) url
           (JStr "Service temporarily unavailable, retry later") |}
  | Internal =>
      {| rs_status := num_of_Z 500; rs_headers := [];
         rs_body := error_body timestamp (num_of_Z 500) url (JStr "Internal server error") |}
  end.

(** ** Lemmas *)

Lemma is_str_spec s v : is_str s v = true ↔ v = JStr s.
Proof.
  unfold is_str. destruct v; try done. rewrite bool_decide_eq_true.
  split; [by intros ->|by intros [= ->]].
Qed.

Lemma is_true_spec v : is_true v = true ↔ v = JBool true.
Proof. unfold is_true. by destruct v as [| |[]| | | |]. Qed.

Lemma transient_spec v : isTransientTimeout v = true ↔ transient v.
Proof.
  unfold isTransientTimeout, transient. destruct (is_object v); cbn [negb]; [|by split; [|intros []]].
  destruct (is_true (get_prop "transientPublishFailure" v)) eqn:Ht.
  { apply is_true_spec in Ht. split; [|done]. intros _. split; [done|]. by left. }
  set (code := nullish _ _). destruct (is_str POSTGRES_QUERY_CANCELED code) eqn:H1.
  { apply is_str_spec in H1. split; [|done]. intros _. split; [done|right; left]. eauto. }
  destruct (is_str POSTGRES_IDLE_TXN_KILLED code) eqn:H2.
  { apply is_str_spec in H2. split; [|done]. intros _. split; [done|right; left]. eauto. }
  cbn [orb]. split.
  - intros Hm. split; [done|right; right].
    destruct (get_prop "message" v) as [| | | |m| |]; try done. by exists m.
  - intros [_ [Hp|[(c & [->| ->] & Hc)|(m & Hm & Hi)]]].
    + apply is_true_spec in Hp. congruence.
    + apply is_str_spec in Hc. congruence.
    + apply is_str_spec in Hc. congruence.
    + by rewrite Hm.
Qed.

Lemma exposed_spec v status message :
  asExposedClientError v = Some (status, message) ↔ exposed v status message.
Proof.
  unfold asExposedClientError, exposed. destruct (is_object v); cbn [negb]; [|by split; [|intros []]].
  split.
  - destruct (nullish _ _) as [| | |n| | |]; try done.
    destruct (get_prop "message" v) as [| | | |m| |]; try done.
    destruct (is_true (get_prop "expose" v)) eqn:He, (num_isInteger n) eqn:Hi,
      (num_ge n (num_of_Z 400)) eqn:Hg, (num_lt n (num_of_Z 500)) eqn:Hl; try done.
    apply is_true_spec in He. intros [= <- <-]. by rewrite He.
  - intros (_ & He & Hn & Hm & Hi & Hg & Hl). rewrite Hn, Hm, Hi, Hg, Hl.
    apply is_true_spec in He. by rewrite He.
Qed.

Lemma not_exposed v :
  asExposedClientError v = None ↔ ∀ status message, ¬ exposed v status message.
Proof.
  split.
  - intros Hn s m Hx. apply exposed_spec in Hx. congruence.
  - intros Hn. destruct (asExposedClientError v) as [[s m]|] eqn:E; [|done].
    by apply exposed_spec, Hn in E.
Qed.

(** How the payload of an [HttpException] is answered. *)
Lemma http_answer_structured timestamp url status payload message :
  is_object payload = true → has_prop "message" payload = false →
  http_answer timestamp url status payload message = payload.
Proof. unfold http_answer. by intros -> ->. Qed.

Lemma http_answer_said timestamp url status payload message :
  is_object payload = true → has_prop "message" payload = true →
  http_answer timestamp url status payload message =
    error_body timestamp (num_of_Z status) url
      (nullish (get_prop "message" payload) (JStr message)).
Proof. unfold http_answer. intros Ho Hh. rewrite Ho, Hh. by destruct payload. Qed.

Lemma nullish_value v w : v ≠ JUndefined → v ≠ JNull → nullish v w = v.
Proof. by destruct v. Qed.
