(* ===== verification/Db.v ===== *)
(** The PostgreSQL tables of [src/src/migrations] and the SQL statements the
    services send: their answers, their effects on the tables, the constraint
    violations they raise, and transactions.

    A statement is named after its text in the source; the meaning given to it is
    that of SQL for the schema of the migrations. PostGIS validity, what [ST_AsGeoJSON]
    writes (nine decimals, by default), and which texts the server refuses to convert to
    an instant, are the class [PostGIS]. The name of an area is stored as a
    [varchar(255)]: too long a text, and one with U+0000, is refused. The ids of users
    and devices are taken to be texts that the server stores (no U+0000, at most 64
    characters). Rows without an [ORDER BY] come in the order of the finite map, and no
    theorem depends on it. *)

From S2P Require Import Prelude Num Js Prog Spatial.

(** ** Tables *)

Record PresenceRow := { entered_at : Z; last_seen_at : Z }.

Record LogRow := {
  log_id : string;
  log_user_id : string;
  log_area_id : string;
  log_recorded_at : Z;
  log_captured_at : option string;
}.

Record EventStateRow := { last_seq : Z; last_event_at : Z }.

Record AreaRow := { area_name : string; area_created_at : Z; area_boundary : polygon }.

(** A database: the five tables, the server clock in milliseconds, and the sequence
    of values [gen_random_uuid()] is going to return. *)
Record Db := mkDb {
  areas : gmap string AreaRow;
  area_version : Z;
  user_area_presence : gmap (string * string) PresenceRow;
  logs : list LogRow;
  user_event_state : gmap (string * string) EventStateRow;
  now : Z;
  uuids : nat → string;
  uuid_next : nat;
}.

Definition set_presence (p : gmap (string * string) PresenceRow) (db : Db) : Db :=
  {| areas := areas db; area_version := area_version db; user_area_presence := p;
     logs := logs db; user_event_state := user_event_state db; now := now db;
     uuids := uuids db; uuid_next := uuid_next db |}.

Definition set_event_state (s : gmap (string * string) EventStateRow) (db : Db) : Db :=
  {| areas := areas db; area_version := area_version db;
     user_area_presence := user_area_presence db; logs := logs db;
     user_event_state := s; now := now db;
     uuids := uuids db; uuid_next := uuid_next db |}.

Definition append_log (user area : string) (recorded : Z) (captured : option string)
    (db : Db) : Db :=
  {| areas := areas db; area_version := area_version db;
     user_area_presence := user_area_presence db;
     logs := logs db ++
       [{| log_id := uuids db (uuid_next db); log_user_id := user; log_area_id := area;
           log_recorded_at := recorded; log_captured_at := captured |}];
     user_event_state := user_event_state db; now := now db;
     uuids := uuids db; uuid_next := S (uuid_next db) |}.

(** ** Texts *)

(** The first [n] characters of a UTF-8 text, and the rest: a byte 10xxxxxx goes on with
    the character before it. *)
Definition continues_character (c : Ascii.ascii) : bool :=
  let n := Ascii.nat_of_ascii c in (128 <=? n) && (n <? 192).

Fixpoint split_characters (n : nat) (s : string) : string * string :=
  match s with
  | EmptyString => (EmptyString, EmptyString)
  | String c s' =>
      if continues_character c
      then let '(a, b) := split_characters n s' in (String c a, b)
      else match n with
           | O => (EmptyString, s)
           | S n => let '(a, b) := split_characters n s' in (String c a, b)
           end
  end.

(** The number of characters, as PostgreSQL counts them. *)
Fixpoint code_points (s : string) : nat :=
  match s with
  | EmptyString => 0
  | String c s => (if continues_character c then 0 else 1) + code_points s
  end.

Fixpoint all_bytes (p : Ascii.ascii → bool) (s : string) : bool :=
  match s with EmptyString => true | String c s => p c && all_bytes p s end.

Definition no_nul (s : string) : bool := all_bytes (λ c, negb (Ascii.eqb c Ascii.zero)) s.

(** A text as a column of type [varchar(n)] stores it: U+0000 is refused, and so are
    more than [n] characters, unless those in excess are spaces, which are cut off. *)
Definition varchar_stored (n : nat) (s : string) : string := (split_characters n s).1.

Definition varchar_refused (n : nat) (s : string) : option exn :=
  if negb (no_nul s)
  then Some (QueryFailedError "22021" None "invalid byte sequence for encoding UTF8: 0x00")
  else if all_bytes (Ascii.eqb (Ascii.ascii_of_nat 32)) (split_characters n s).2 then None
  else Some (QueryFailedError "22001" None "value too long for type character varying").

Definition AREA_NAME_COLUMN : nat := 255.

Definition insert_area_row (name : string) (boundary : polygon) (db : Db) : Db :=
  {| areas := <[ uuids db (uuid_next db) :=
                 {| area_name := varchar_stored AREA_NAME_COLUMN name;
                    area_created_at := now db; area_boundary := boundary |}
               ]> (areas db);
     area_version := area_version db; user_area_presence := user_area_presence db;
     logs := logs db; user_event_state := user_event_state db; now := now db;
     uuids := uuids db; uuid_next := S (uuid_next db) |}.

Definition bump_version (db : Db) : Db :=
  {| areas := areas db; area_version := area_version db + 1;
     user_area_presence := user_area_presence db; logs := logs db;
     user_event_state := user_event_state db; now := now db;
     uuids := uuids db; uuid_next := uuid_next db |}.

(** ** Statements *)

Inductive sql : Type → Type :=
| SelectPresence (user_id : string) : sql (list string)
| LockUserAndReadPresence (uid : string) : sql (list string)
| SelectLastSeq (user_id device_id : string) : sql (list Z)
| UpsertEventState (user_id device_id : string) (seq at_time : Z) : sql unit
| InsertPresence (user_id area_id : string) (at_time : Z) : sql (list string)
| InsertLog (user_id area_id : string) (recorded_at : Z) (captured_at : option string) : sql unit
| DeletePresence (user_id : string) (area_ids : list string) : sql unit
| SelectGeometryValidity (boundary : polygon) : sql (bool * option string)
| InsertArea (name : string) (boundary : polygon) : sql (string * AreaRow)
| BumpAreaVersion : sql unit
| SelectAreaVersion : sql Z
| SelectAreas : sql (list AreaGeometryRow).

(** The server: [ST_IsValid], [ST_IsValidReason], the boundary that [ST_AsGeoJSON] writes,
    and the conversion of a text to [timestamptz], which may be refused with an SQLSTATE
    and a message. *)
Class PostGIS := {
  st_is_valid : polygon → bool;
  st_is_valid_reason : polygon → option string;
  st_as_geojson : polygon → polygon;
  timestamptz_refused : string → option (string * string);
}.

(** What is written of a boundary has its rings, and numbers for its coordinates. *)
Class PostGISLaws `{PostGIS} : Prop := {
  st_as_geojson_wf b : boundary_wf b → boundary_wf (st_as_geojson b);
}.

(** [SELECT "area_id" FROM "user_area_presence" WHERE "user_id" = $1]. *)
Definition presence_of (user_id : string) (p : gmap (string * string) PresenceRow) :
    list string :=
  (λ kv, kv.1.2) <$> map_to_list (filter (λ kv, kv.1.1 = user_id) p).

(** [SELECT "id", ST_AsGeoJSON("boundary")::json AS "boundary" FROM "areas"]. *)
Definition area_geometry_rows `{PostGIS} (m : gmap string AreaRow) : list AreaGeometryRow :=
  (λ kv, {| row_id := kv.1; row_boundary := st_as_geojson (area_boundary kv.2) |}) <$>
    map_to_list m.

(** Constraint violations: the SQLSTATE and the constraint names of the migrations. *)
Definition fk_presence_area : exn :=
  QueryFailedError "23503" (Some "fk_presence_area")
    "insert or update on table violates foreign key constraint".
Definition fk_logs_area : exn :=
  QueryFailedError "23503" (Some "fk_logs_area")
    "insert or update on table violates foreign key constraint".
Definition chk_areas_boundary_valid : exn :=
  QueryFailedError "23514" (Some "chk_areas_boundary_valid")
    "new row violates check constraint".

(** Conversions of parameters to the types of their columns: a text to [timestamptz],
    an integer to [bigint]. *)
Definition captured_error `{PostGIS} (captured : option string) : option exn :=
  match captured with
  | None => None
  | Some s => (λ e, QueryFailedError e.1 None e.2) <$> timestamptz_refused s
  end.

Definition fits_bigint (n : Z) : bool := (- 2 ^ 63 <=? n)%Z && (n <? 2 ^ 63)%Z.

Definition bigint_out_of_range : exn :=
  QueryFailedError "22003" None "value is out of range for type bigint".

Definition exec_sql `{PostGIS} {X} (q : sql X) (db : Db) : exn + (X * Db) :=
  match q in sql X return exn + (X * Db) with
  | SelectPresence u | LockUserAndReadPresence u =>
      inr (presence_of u (user_area_presence db), db)
  | SelectLastSeq u d =>
      inr (option_list (last_seq <$> user_event_state db !! (u, d)), db)
  | UpsertEventState u d seq t =>
      if fits_bigint seq
      then inr (tt, set_event_state
        (<[ (u, d) := {| last_seq := seq; last_event_at := t |} ]> (user_event_state db)) db)
      else inl bigint_out_of_range
  | InsertPresence u a t =>
      match user_area_presence db !! (u, a) with
      | Some _ => inr ([], db)
      | None =>
          match areas db !! a with
          | None => inl fk_presence_area
          | Some _ =>
              inr ([a], set_presence
                (<[ (u, a) := {| entered_at := t; last_seen_at := t |} ]>
                   (user_area_presence db)) db)
          end
      end
  | InsertLog u a rec cap =>
      match captured_error cap, areas db !! a with
      | Some e, _ => inl e
      | None, None => inl fk_logs_area
      | None, Some _ => inr (tt, append_log u a rec cap db)
      end
  | DeletePresence u ids =>
      inr (tt, set_presence
        (filter (λ kv, ¬ (kv.1.1 = u ∧ kv.1.2 ∈ ids)) (user_area_presence db)) db)
  | SelectGeometryValidity b => inr ((st_is_valid b, st_is_valid_reason b), db)
  | InsertArea name b =>
      match varchar_refused AREA_NAME_COLUMN name with
      | Some e => inl e
      | None =>
          if st_is_valid b
          then inr ((uuids db (uuid_next db),
                     {| area_name := name; area_created_at := now db; area_boundary := b |}),
                    insert_area_row name b db)
          else inl chk_areas_boundary_valid
      end
  | BumpAreaVersion => inr (tt, bump_version db)
  | SelectAreaVersion => inr (area_version db, db)
  | SelectAreas => inr (area_geometry_rows (areas db), db)
  end.

(** One statement inside a transaction, under a fault. *)
Definition exec_statement `{PostGIS} (X : Type) (f : fault) (q : sql X) (db : Db) :
    (exn + X) * Db :=
  match f with
  | FOk =>
      match exec_sql q db with
      | inl e => (inl e, db)
      | inr (x, db') => (inr x, db')
      end
  | FFail e | FLost e | FAt _ e => (inl e, db)
  end.

(** One statement outside any transaction: it commits by itself. *)
Definition exec_query `{PostGIS} {X} (f : fault) (q : sql X) (db : Db) : (exn + X) * Db :=
  match f with
  | FOk =>
      match exec_sql q db with
      | inl e => (inl e, db)
      | inr (x, db') => (inr x, db')
      end
  | FLost e =>
      match exec_sql q db with
      | inl e' => (inl e', db)
      | inr (_, db') => (inl e, db')
      end
  | FFail e | FAt _ e => (inl e, db)
  end.

(** [dataSource.transaction(body)]: the body's statements, then COMMIT; an exception
    rolls everything back. [FFail]: no connection, or COMMIT failed; [FAt n]: the
    [n]-th statement failed; [FLost]: COMMIT was done but its answer was lost. *)
Definition exec_transaction `{PostGIS} {X} (f : fault) (body : prog sql X) (db : Db) :
    (exn + X) * Db :=
  match f with
  | FFail e => (inl e, db)
  | FOk =>
      match run exec_statement body [] db with
      | (inr x, db', _) => (inr x, db')
      | (inl e, _, _) => (inl e, db)
      end
  | FAt n e =>
      match run exec_statement body (replicate n FOk ++ [FFail e]) db with
      | (inr x, db', _) => (inr x, db')
      | (inl e, _, _) => (inl e, db)
      end
  | FLost e =>
      match run exec_statement body [] db with
      | (inr _, db', _) => (inl e, db')
      | (inl e', _, _) => (inl e', db)
      end
  end.

(** ** Lemmas *)

Lemma elem_of_presence_of u a p : a ∈ presence_of u p ↔ is_Some (p !! (u, a)).
Proof.
  unfold presence_of. rewrite list_elem_of_fmap. split.
  - intros ([[u' a'] row] & -> & Hin). apply elem_of_map_to_list in Hin.
    apply map_lookup_filter_Some in Hin as [Hin Heq]. simpl in *. subst. by eexists.
  - intros [row Hrow]. exists ((u, a), row). split; [done|].
    apply elem_of_map_to_list, map_lookup_filter_Some. done.
Qed.

Lemma NoDup_presence_of u p : NoDup (presence_of u p).
Proof.
  unfold presence_of. apply NoDup_fmap_2_strong; [|apply NoDup_map_to_list].
  intros [[u1 a1] r1] [[u2 a2] r2] H1 H2 Ha; simpl in *.
  apply elem_of_map_to_list, map_lookup_filter_Some in H1 as [H1 ?], H2 as [H2 ?].
  simpl in *. subst. by rewrite H1 in H2; injection H2 as ->.
Qed.

(** What a user's rows are determines what the SELECT answers. *)
Lemma presence_of_ext u p p' :
  (∀ a, p !! (u, a) = p' !! (u, a)) → presence_of u p = presence_of u p'.
Proof.
  intros H. unfold presence_of. do 2 f_equal. apply map_eq. intros [u' a].
  destruct (decide (u' = u)) as [->|Hne].
  - apply option_eq. intros row. rewrite !map_lookup_filter_Some. by rewrite H.
  - rewrite !(proj2 (map_lookup_filter_None _ _ _)); [done|right..]; by intros.
Qed.

Lemma presence_of_insert u a row p :
  p !! (u, a) = None → same_elements (presence_of u (<[ (u, a) := row ]> p)) (a :: presence_of u p).
Proof.
  intros Hn x. rewrite elem_of_cons, !elem_of_presence_of.
  destruct (decide (x = a)) as [->|Hne].
  - rewrite lookup_insert_eq. naive_solver.
  - rewrite lookup_insert_ne by congruence. naive_solver.
Qed.

(** A text without U+0000 and of at most [n] characters is stored as it is. *)
Lemma split_characters_all n s : code_points s ≤ n → split_characters n s = (s, ""%string).
Proof.
  revert n. induction s as [|c s IH]; intros n; simpl; [done|].
  destruct (continues_character c); simpl; [intros Hn; by rewrite (IH n Hn)|].
  destruct n as [|n]; [lia|]. intros Hn. by rewrite (IH n) by lia.
Qed.

Lemma varchar_accepts n s : no_nul s = true → code_points s ≤ n → varchar_refused n s = None.
Proof. intros H0 Hn. unfold varchar_refused. by rewrite H0, split_characters_all. Qed.

Lemma varchar_keeps n s : code_points s ≤ n → varchar_stored n s = s.
Proof. intros Hn. unfold varchar_stored. by rewrite split_characters_all. Qed.

#[export] Hint Resolve NoDup_presence_of : geo.
#[export] Hint Rewrite elem_of_presence_of : geo.
