(* ===== verification/Json.v ===== *)
(** [JSON.stringify] and [JSON.parse] on arrays of strings: the two places where
    the program stores JSON text and reads it back itself are the presence cache
    (an array of area ids) and the logs cursor (an array of two strings).

    A string is its UTF-8 bytes; an escaped lone surrogate keeps its three-byte
    form. The parser accepts exactly the JSON texts that denote an array of
    strings, and answers [None] on every other text. *)

From S2P Require Import Prelude.
From Stdlib Require Import Ascii.

(** The characters of the JSON grammar, by code. *)
Definition chr (n : N) : ascii := ascii_of_N n.
Definition is_chr (n : N) (c : ascii) : bool := (N_of_ascii c =? n)%N.
Definition str1 (n : N) : string := String (chr n) "".

Definition c_quote : N := 34.
Definition c_backslash : N := 92.
Definition c_comma : N := 44.
Definition c_open : N := 91.
Definition c_close : N := 93.
Definition c_u : N := 117.

(** ** Printing *)

Definition hex_digit (n : N) : ascii :=
  if (n <? 10)%N then ascii_of_N (48 + n) else ascii_of_N (87 + n).

(** The letter of the two-character escape of a byte, for the bytes that have one. *)
Definition escape_letter (n : N) : option N :=
  match n with
  | 34 => Some 34
  | 92 => Some 92
  | 8 => Some 98
  | 9 => Some 116
  | 10 => Some 110
  | 12 => Some 102
  | 13 => Some 114
  | _ => None
  end%N.

(** The JSON form of one byte of a string. *)
Definition quote_char (c : ascii) : string :=
  let n := N_of_ascii c in
  match escape_letter n with
  | Some l => String (chr c_backslash) (str1 l)
  | None =>
      if (n <? 32)%N
      then String (chr c_backslash) ("u00" +:+
             String (hex_digit (n / 16)) (String (hex_digit (n mod 16)) ""))
      else String c ""
  end.

Fixpoint quote_body (s : string) : string :=
  match s with
  | EmptyString => ""
  | String c s' => quote_char c +:+ quote_body s'
  end.

Definition quote (s : string) : string :=
  String (chr c_quote) (quote_body s +:+ str1 c_quote).

(** [JSON.stringify(l)] for [l : string[]]. *)
Definition JSON_stringify_strings (l : list string) : string :=
  String (chr c_open) (str_join (str1 c_comma) (quote <$> l) +:+ str1 c_close).

(** ** Parsing *)

Definition hex_value (c : ascii) : option N :=
  let n := N_of_ascii c in
  if ((48 <=? n) && (n <=? 57))%N then Some (n - 48)%N
  else if ((97 <=? n) && (n <=? 102))%N then Some (n - 87)%N
  else if ((65 <=? n) && (n <=? 70))%N then Some (n - 55)%N
  else None.

Definition hex4 (a b c d : ascii) : option N :=
  match hex_value a, hex_value b, hex_value c, hex_value d with
  | Some x, Some y, Some z, Some w => Some (((x * 16 + y) * 16 + z) * 16 + w)%N
  | _, _, _, _ => None
  end.

(** UTF-8 form of a code point. *)
Definition utf8 (n : N) : string :=
  if (n <? 128)%N then String (ascii_of_N n) ""
  else if (n <? 2048)%N then
    String (ascii_of_N (192 + n / 64)) (String (ascii_of_N (128 + n mod 64)) "")
  else if (n <? 65536)%N then
    String (ascii_of_N (224 + n / 4096))
      (String (ascii_of_N (128 + (n / 64) mod 64)) (String (ascii_of_N (128 + n mod 64)) ""))
  else
    String (ascii_of_N (240 + n / 262144))
      (String (ascii_of_N (128 + (n / 4096) mod 64))
        (String (ascii_of_N (128 + (n / 64) mod 64))
          (String (ascii_of_N (128 + n mod 64)) ""))).

Definition is_high_surrogate (n : N) : bool := ((55296 <=? n) && (n <=? 56319))%N.
Definition is_low_surrogate (n : N) : bool := ((56320 <=? n) && (n <=? 57343))%N.

(** The character a two-character escape stands for, by the code of its letter. *)
Definition simple_escape (n : N) : option N :=
  match n with
  | 34 => Some 34
  | 92 => Some 92
  | 47 => Some 47
  | 98 => Some 8
  | 102 => Some 12
  | 110 => Some 10
  | 114 => Some 13
  | 116 => Some 9
  | _ => None
  end%N.

(** Prepend to the value of a parsed literal. *)
Definition prepend (v : string) (r : option (string * string)) : option (string * string) :=
  match r with
  | Some (v', rest) => Some (v +:+ v', rest)
  | None => None
  end.

(** The second half of a surrogate pair, when it follows. *)
Definition low_surrogate_at (s : string) : option N :=
  match s with
  | String x (String y (String a (String b (String c (String d _))))) =>
      if is_chr c_backslash x && is_chr c_u y then
        match hex4 a b c d with
        | Some l => if is_low_surrogate l then Some l else None
        | None => None
        end
      else None
  | _ => None
  end.

(** The rest of a string literal after its opening quote: its value and the text
    that follows the closing quote. *)
Fixpoint unquote_body (s : string) : option (string * string) :=
  match s with
  | EmptyString => None
  | String c rest =>
      if is_chr c_quote c then Some ("", rest)
      else if is_chr c_backslash c then
        match rest with
        | EmptyString => None
        | String e rest1 =>
            if is_chr c_u e then
              match rest1 with
              | String a (String b (String c' (String d rest2))) =>
                  match hex4 a b c' d with
                  | None => None
                  | Some u =>
                      match (if is_high_surrogate u then low_surrogate_at rest2 else None) with
                      | Some l =>
                          match rest2 with
                          | String _ (String _ (String _ (String _ (String _ (String _ rest3))))) =>
                              prepend (utf8 (65536 + (u - 55296) * 1024 + (l - 56320)))
                                (unquote_body rest3)
                          | _ => None
                          end
                      | None => prepend (utf8 u) (unquote_body rest2)
                      end
                  end
              | _ => None
              end
            else
              match simple_escape (N_of_ascii e) with
              | None => None
              | Some n => prepend (str1 n) (unquote_body rest1)
              end
        end
      else if (N_of_ascii c <? 32)%N then None
      else prepend (String c "") (unquote_body rest)
  end.

Definition is_json_space (c : ascii) : bool :=
  match N_of_ascii c with 32%N | 9%N | 10%N | 13%N => true | _ => false end.

Fixpoint skip_space (s : string) : string :=
  match s with
  | String c s' => if is_json_space c then skip_space s' else s
  | EmptyString => ""
  end.

(** The elements of an array, down to its closing bracket. Every element consumes
    input, so the length of the text is fuel enough. *)
Fixpoint parse_elements (fuel : nat) (s : string) : option (list string * string) :=
  match fuel with
  | O => None
  | S fuel' =>
      match skip_space s with
      | EmptyString => None
      | String c rest =>
          if is_chr c_quote c then
            match unquote_body rest with
            | None => None
            | Some (v, rest1) =>
                match skip_space rest1 with
                | EmptyString => None
                | String c' rest2 =>
                    if is_chr c_close c' then Some ([v], rest2)
                    else if is_chr c_comma c' then
                      match parse_elements fuel' rest2 with
                      | Some (vs, rest3) => Some (v :: vs, rest3)
                      | None => None
                      end
                    else None
                end
            end
          else None
      end
  end.

(** The end of a text: only white space may remain. *)
Definition at_end {A} (r : A * string) : option A :=
  if decide (skip_space r.2 = ""%string) then Some r.1 else None.

(** [JSON.parse(s)], when it is an array of strings. *)
Definition JSON_parse_strings (s : string) : option (list string) :=
  match skip_space s with
  | EmptyString => None
  | String c rest =>
      if is_chr c_open c then
        match skip_space rest with
        | String c' rest' =>
            if is_chr c_close c' then at_end ([], rest')
            else parse_elements (String.length rest) rest ≫= at_end
        | EmptyString => None
        end
      else None
  end.

(** ** Lemmas *)

Lemma str_app_cons c (a b : string) : String c a +:+ b = String c (a +:+ b).
Proof. reflexivity. Qed.

Lemma str_app_nil_l (a : string) : "" +:+ a = a.
Proof. reflexivity. Qed.

Lemma str_app_assoc (a b c : string) : (a +:+ b) +:+ c = a +:+ (b +:+ c).
Proof. induction a as [|x a IH]; [done|]. rewrite !str_app_cons. by f_equal. Qed.

Lemma str_app_nil_r (a : string) : a +:+ "" = a.
Proof. induction a as [|x a IH]; [done|]. rewrite str_app_cons. by f_equal. Qed.

#[export] Hint Rewrite str_app_assoc str_app_cons str_app_nil_l str_app_nil_r : geo.

Lemma str_length_app (a b : string) :
  String.length (a +:+ b) = String.length a + String.length b.
Proof. induction a as [|x a IH]; [done|]. rewrite str_app_cons. simpl. by rewrite IH. Qed.

(** Reading back one printed byte. *)
Lemma unquote_quote_char c rest :
  unquote_body (quote_char c +:+ rest) = prepend (String c "") (unquote_body rest).
Proof. destruct c as [[] [] [] [] [] [] [] []]; reflexivity. Qed.

Lemma unquote_quote_body s rest :
  unquote_body (quote_body s +:+ String (chr c_quote) rest) = Some (s, rest).
Proof.
  induction s as [|c s IH]; [done|].
  cbn [quote_body]. by rewrite str_app_assoc, unquote_quote_char, IH.
Qed.

Lemma str_join_cons sep a b (l : list string) :
  str_join sep (a :: b :: l) = a +:+ sep +:+ str_join sep (b :: l).
Proof. done. Qed.

Lemma parse_elements_cons fuel v c rest :
  is_json_space c = false →
  parse_elements (S fuel) (quote v +:+ String c rest) =
    (if is_chr c_close c then Some ([v], rest)
     else if is_chr c_comma c then
       match parse_elements fuel rest with
       | Some (vs, rest3) => Some (v :: vs, rest3)
       | None => None
       end
     else None).
Proof.
  intros Hc. unfold quote, str1. autorewrite with geo. cbn [parse_elements skip_space].
  change (is_json_space (chr c_quote)) with false. cbv iota.
  change (is_chr c_quote (chr c_quote)) with true. cbv iota.
  rewrite unquote_quote_body. cbn [skip_space]. by rewrite Hc.
Qed.

Lemma parse_elements_print l x rest fuel :
  length l < fuel →
  parse_elements fuel
    (str_join (str1 c_comma) (quote <$> (x :: l)) +:+ String (chr c_close) rest)
  = Some (x :: l, rest).
Proof.
  revert x fuel. induction l as [|y l IH]; intros x fuel Hf;
    (destruct fuel as [|fuel]; [simpl in Hf; lia|]).
  - cbn [fmap list_fmap str_join]. by rewrite parse_elements_cons.
  - rewrite !fmap_cons, str_join_cons, <- fmap_cons, !str_app_assoc.
    unfold str1 at 1. rewrite str_app_cons, str_app_nil_l, parse_elements_cons by done.
    change (is_chr c_close (chr c_comma)) with false. cbv iota.
    change (is_chr c_comma (chr c_comma)) with true. cbv iota.
    rewrite IH by (simpl in Hf; lia). done.
Qed.

Lemma length_print_elements l x :
  length l < String.length (str_join (str1 c_comma) (quote <$> (x :: l))).
Proof.
  revert x. induction l as [|y l IH]; intros x.
  - cbn. lia.
  - rewrite !fmap_cons, str_join_cons, <- fmap_cons, !str_length_app.
    specialize (IH y). cbn [length String.length str1]. lia.
Qed.

(** Round trip: reading back the text of an array of strings gives the array,
    whatever bytes the strings hold. *)
Lemma JSON_parse_stringify l : JSON_parse_strings (JSON_stringify_strings l) = Some l.
Proof.
  destruct l as [|x l]; [done|].
  unfold JSON_parse_strings, JSON_stringify_strings.
  cbn [skip_space]. change (is_json_space (chr c_open)) with false. cbv iota.
  change (is_chr c_open (chr c_open)) with true. cbv iota.
  set (t := str_join _ _ +:+ _).
  assert (∃ t', t = String (chr c_quote) t') as [t' Ht']
    by (destruct l; eexists; reflexivity).
  rewrite Ht'. cbn [skip_space]. change (is_json_space (chr c_quote)) with false. cbv iota.
  change (is_chr c_close (chr c_quote)) with false. cbv iota.
  rewrite <- Ht'. subst t. change (str1 c_close) with (String (chr c_close) "").
  rewrite parse_elements_print; [done|].
  rewrite str_length_app. pose proof (length_print_elements l x). lia.
Qed.
