(* ===== verification/Logs.v ===== *)
(** The entry log, [src/src/logs/]: the keyset cursor, and the listing of the log by
    pages, newest first.

    PostgreSQL's conversions between text and [timestamptz] or [uuid] are the
    interface [PgText]; instants are microseconds since the epoch, as the server
    stores them, and a JavaScript [Date] is their milliseconds. *)

From S2P Require Import Prelude Num Js Prog Regex DateText Base64 Json.
From Stdlib Require Import Ascii.

(** ** The cursor *)

Record LogsCursor := { cur_recordedAt : string; cur_id : string }.

(** [/^\d{4}-\d{2}-\d{2}[ T]\d{2}:\d{2}:\d{2}(\.\d+)?([+-]\d{2}(:\d{2})?)?$/] *)
Definition PG_TIMESTAMPTZ_TEXT : regex :=
  Cat (Rep 4 Digit) (Cat (Lit "-") (Cat (Rep 2 Digit) (Cat (Lit "-") (Cat (Rep 2 Digit)
  (Cat (Alt (Lit " ") (Lit "T")) (Cat (Rep 2 Digit) (Cat (Lit ":") (Cat (Rep 2 Digit)
  (Cat (Lit ":") (Cat (Rep 2 Digit) (Cat (Opt (Cat (Lit ".") (Plus Digit)))
  (Opt (Cat (Alt (Lit "+") (Lit "-"))
    (Cat (Rep 2 Digit) (Opt (Cat (Lit ":") (Rep 2 Digit)))))))))))))))))%char.

(** [/^[0-9a-f]{8}-[0-9a-f]{4}-[0-9a-f]{4}-[0-9a-f]{4}-[0-9a-f]{12}$/i] *)
Definition UUID : regex :=
  Cat (Rep 8 HexDigit) (Cat (Lit "-") (Cat (Rep 4 HexDigit) (Cat (Lit "-")
  (Cat (Rep 4 HexDigit) (Cat (Lit "-") (Cat (Rep 4 HexDigit) (Cat (Lit "-")
  (Rep 12 HexDigit))))))))%char.

Definition encodeLogsCursor (cursor : LogsCursor) : string :=
  base64url_encode (JSON_stringify_strings [cur_recordedAt cursor; cur_id cursor]).

Definition malformed_cursor : exn :=
  BadRequestException
    "malformed cursor: pass the nextCursor value from a previous response, unmodified".

Definition decodeLogsCursor (raw : string) : exn + LogsCursor :=
  match JSON_parse_strings (base64url_decode raw) with
  | Some [recordedAt; id] =>
      if re_test PG_TIMESTAMPTZ_TEXT recordedAt && re_test UUID id
      then inr {| cur_recordedAt := recordedAt; cur_id := id |}
      else inl malformed_cursor
  | _ => inl malformed_cursor
  end.

(** ** PostgreSQL's text conversions *)

(** [s::timestamptz], [t::text] and [s::uuid] (a uuid is its canonical text). *)
Class PgText := {
  pg_timestamptz : string → exn + Z;
  pg_timestamptz_text : Z → string;
  pg_uuid : string → exn + string;
  pg_instant_ok : Z → Prop;
  pg_uuid_ok : string → Prop;
}.

(** For the instants whose text has a four-digit year, and canonical uuids, the text
    forms have the documented shapes and convert back to the same value. *)
Class PgTextLaws `{PgText} : Prop := {
  pg_timestamptz_round t : pg_instant_ok t → pg_timestamptz (pg_timestamptz_text t) = inr t;
  pg_timestamptz_shape t :
    pg_instant_ok t → re_test PG_TIMESTAMPTZ_TEXT (pg_timestamptz_text t) = true;
  pg_uuid_canonical u : pg_uuid_ok u → pg_uuid u = inr u;
  pg_uuid_shape u : pg_uuid_ok u → re_test UUID u = true;
}.

(** ** Rows, queries and pages *)

(** [LogEntity]. *)
Record LogEntity := {
  le_id : string;
  le_userId : string;
  le_areaId : string;
  le_recordedAt : Z;
  le_capturedAt : option Z;
}.

#[export] Instance LogEntity_eq_dec : EqDecision LogEntity.
Proof. solve_decision. Defined.

Definition DEFAULT_LOGS_PAGE_SIZE : nat := 50.
Definition MAX_LOGS_PAGE_SIZE : nat := 500.

Record ListLogsQueryDto := {
  lq_userId : option string;
  lq_areaId : option string;
  lq_from : option string;
  lq_to : option string;
  lq_cursor : option string;
  lq_limit : nat;
}.

Definition default_logs_query : ListLogsQueryDto :=
  {| lq_userId := None; lq_areaId := None; lq_from := None; lq_to := None;
     lq_cursor := None; lq_limit := DEFAULT_LOGS_PAGE_SIZE |}.

(** [@IsInt() @Min(1) @Max(MAX_LOGS_PAGE_SIZE)]. *)
Definition logs_limit_valid (q : ListLogsQueryDto) : bool :=
  (1 <=? lq_limit q) && (lq_limit q <=? MAX_LOGS_PAGE_SIZE).

Record LogItemDto := {
  li_id : string;
  li_userId : string;
  li_areaId : string;
  li_recordedAt : string;
  li_capturedAt : option string;
}.

Record LogsPageResponseDto := { items : list LogItemDto; nextCursor : option string }.

(** ** The query *)

(** One conjunct of the WHERE clause, with its bound parameters. *)
Inductive condition :=
| UserIs (userId : string)
| AreaIs (areaId : string)
| RecordedFrom (from : string)
| RecordedTo (to : string)
| PositionBefore (recordedAt id : string).

(** [if (value !== undefined) { conditions.push(...) }]. *)
Definition opt_condition (c : string → condition) (o : option string) : list condition :=
  option_list (c <$> o).

Definition filter_conditions (q : ListLogsQueryDto) : list condition :=
  opt_condition UserIs (lq_userId q) ++ opt_condition AreaIs (lq_areaId q) ++
  opt_condition RecordedFrom (lq_from q) ++ opt_condition RecordedTo (lq_to q).

Definition conditions (q : ListLogsQueryDto) : exn + list condition :=
  match lq_cursor q with
  | None => inr (filter_conditions q)
  | Some raw =>
      cursor ← decodeLogsCursor raw;
      inr (filter_conditions q ++ [PositionBefore (cur_recordedAt cursor) (cur_id cursor)])
  end.

(** [("recorded_at", "id") < (t, i)]; uuids compare as their canonical texts do. *)
Definition before (r : LogEntity) (p : Z * string) : Prop :=
  (le_recordedAt r < p.1)%Z ∨
  (le_recordedAt r = p.1 ∧ String.le (le_id r) p.2 ∧ le_id r ≠ p.2).

#[export] Instance before_dec r p : Decision (before r p).
Proof. unfold before. apply _. Defined.

(** A conjunct as a test on rows, once its parameters are converted. *)
Definition condition_test `{PgText} (c : condition) : exn + (LogEntity → bool) :=
  match c with
  | UserIs u => inr (λ r, bool_decide (le_userId r = u))
  | AreaIs a => u ← pg_uuid a; inr (λ r, bool_decide (le_areaId r = u))
  | RecordedFrom s => t ← pg_timestamptz s; inr (λ r, (t <=? le_recordedAt r)%Z)
  | RecordedTo s => t ← pg_timestamptz s; inr (λ r, (le_recordedAt r <=? t)%Z)
  | PositionBefore s i =>
      t ← pg_timestamptz s; u ← pg_uuid i; inr (λ r, bool_decide (before r (t, u)))
  end.

Fixpoint where_test `{PgText} (cs : list condition) : exn + (LogEntity → bool) :=
  match cs with
  | [] => inr (λ _, true)
  | c :: cs => p ← condition_test c; ps ← where_test cs; inr (λ r, p r && ps r)
  end.

(** [ORDER BY "recorded_at" DESC, "id" DESC]. *)
Definition newest_first (a b : LogEntity) : Prop :=
  (le_recordedAt b < le_recordedAt a)%Z ∨
  (le_recordedAt a = le_recordedAt b ∧ String.le (le_id b) (le_id a)).

#[export] Instance newest_first_dec : RelDecision newest_first.
Proof. intros a b. unfold newest_first. apply _. Defined.

Definition select_logs `{PgText} (cs : list condition) (limit : nat)
    (table : list LogEntity) : exn + list LogEntity :=
  p ← where_test cs; inr (take limit (merge_sort newest_first (filter (λ r, p r = true) table))).

Definition item_of (r : LogEntity) : LogItemDto :=
  {| li_id := le_id r; li_userId := le_userId r; li_areaId := le_areaId r;
     li_recordedAt := toISOString (le_recordedAt r / 1000);
     li_capturedAt := (λ t, toISOString (t / 1000)) <$> le_capturedAt r |}.

(** [nextCursor]: the position of the last row of the page. *)
Definition cursor_of `{PgText} (r : LogEntity) : string :=
  encodeLogsCursor
    {| cur_recordedAt := pg_timestamptz_text (le_recordedAt r); cur_id := le_id r |}.

(** [list(query)]. *)
Definition list_logs `{PgText} (q : ListLogsQueryDto) (table : list LogEntity) :
    exn + LogsPageResponseDto :=
  cs ← conditions q;
  rows ← select_logs cs (lq_limit q + 1) table;
  let hasMore := lq_limit q <? length rows in
  let page := if hasMore then take (lq_limit q) rows else rows in
  inr {| items := item_of <$> page;
         nextCursor := if hasMore then cursor_of <$> last page else None |}.

(** [list(query)] when its one query may fail: the cursor is read before. *)
Definition list_logs_under `{PgText} (f : fault) (q : ListLogsQueryDto)
    (table : list LogEntity) : exn + LogsPageResponseDto :=
  cs ← conditions q;
  match raised f with
  | Some e => inl e
  | None => list_logs q table
  end.

(** ** A walk over the pages *)

Definition with_cursor (c : option string) (q : ListLogsQueryDto) : ListLogsQueryDto :=
  {| lq_userId := lq_userId q; lq_areaId := lq_areaId q; lq_from := lq_from q;
     lq_to := lq_to q; lq_cursor := c; lq_limit := lq_limit q |}.

(** A client's walk: a request per table (the log as that request finds it), with the
    cursor of the page before; the items it collects, and whether the last page was
    reached. *)
Fixpoint walk `{PgText} (q : ListLogsQueryDto) (tables : list (list LogEntity)) :
    exn + (list LogItemDto * bool) :=
  match tables with
  | [] => inr ([], false)
  | table :: tables =>
      page ← list_logs q table;
      match nextCursor page with
      | None => inr (items page, true)
      | Some c =>
          rest ← walk (with_cursor (Some c) q) tables;
          inr (items page ++ rest.1, rest.2)
      end
  end.

(** ** Lemmas *)

#[export] Instance newest_first_total : Total newest_first.
Proof.
  intros a b. unfold newest_first.
  destruct (Z.lt_trichotomy (le_recordedAt a) (le_recordedAt b)) as [?|[He|?]];
    [by right; left| |by left; left].
  destruct (total String.le (le_id a) (le_id b)); [right|left]; by right.
Qed.

#[export] Instance newest_first_trans : Transitive newest_first.
Proof.
  intros a b c. unfold newest_first. intros [?|[? ?]] [?|[? ?]]; [left; lia..|right].
  split; [congruence|by etrans].
Qed.

(** The position of a row. *)
Definition position_of (r : LogEntity) : Z * string := (le_recordedAt r, le_id r).

(** Rows strictly past a position; every row is past no position. *)
Definition past (pos : option LogEntity) (r : LogEntity) : Prop :=
  match pos with None => True | Some r0 => before r (position_of r0) end.

#[export] Instance past_dec pos r : Decision (past pos r).
Proof. destruct pos; simpl; apply _. Defined.

Lemma newest_first_before a b :
  newest_first a b → le_id a ≠ le_id b → before b (position_of a).
Proof. unfold newest_first, before. simpl. intros [?|[? ?]] ?; [by left|right]. auto. Qed.

Lemma before_newest_first a b : before b (position_of a) → newest_first a b.
Proof. unfold newest_first, before. simpl. intros [?|(? & ? & ?)]; [by left|right]. auto. Qed.

Lemma before_trans a b c :
  before b (position_of a) → before c (position_of b) → before c (position_of a).
Proof.
  unfold before. simpl. intros [?|(Hab & Hle & Hne)] [?|(Hbc & Hle' & Hne')]; [left; lia..|].
  right. split_and!; [congruence|by etrans|]. intros He. apply Hne.
  apply (anti_symm String.le); [done|]. by rewrite <- He.
Qed.

Lemma before_irrefl a : ¬ before a (position_of a).
Proof. unfold before. simpl. intros [?|(_ & _ & ?)]; [lia|done]. Qed.

(** ** Cursors *)

Section cursor.
Context {text : PgText} {text_laws : PgTextLaws}.

Lemma decode_encode c :
  re_test PG_TIMESTAMPTZ_TEXT (cur_recordedAt c) = true → re_test UUID (cur_id c) = true →
  decodeLogsCursor (encodeLogsCursor c) = inr c.
Proof.
  intros Ht Hu. unfold decodeLogsCursor, encodeLogsCursor.
  rewrite base64url_round_trip, JSON_parse_stringify, Ht, Hu. by destruct c.
Qed.

Lemma decode_cases raw :
  decodeLogsCursor raw = inl malformed_cursor ∨
  ∃ c, decodeLogsCursor raw = inr c ∧
    re_test PG_TIMESTAMPTZ_TEXT (cur_recordedAt c) = true ∧ re_test UUID (cur_id c) = true.
Proof.
  unfold decodeLogsCursor.
  destruct (JSON_parse_strings _) as [[|t [|u [|? ?]]]|]; try by left.
  destruct (re_test PG_TIMESTAMPTZ_TEXT t) eqn:Ht; [|by left].
  destruct (re_test UUID u) eqn:Hu; [|by left]. right. by eexists.
Qed.

(** A row whose position a cursor can carry. *)
Definition row_ok (r : LogEntity) : Prop :=
  pg_instant_ok (le_recordedAt r) ∧ pg_uuid_ok (le_id r).

(** A table of the log: positions can be carried, and ids are a primary key. *)
Definition log_ok (table : list LogEntity) : Prop :=
  Forall row_ok table ∧ NoDup (le_id <$> table).

Lemma decode_cursor_of r :
  row_ok r → decodeLogsCursor (cursor_of r) =
    inr {| cur_recordedAt := pg_timestamptz_text (le_recordedAt r); cur_id := le_id r |}.
Proof.
  intros [Ht Hu]. apply decode_encode; simpl; [by apply pg_timestamptz_shape|].
  by apply pg_uuid_shape.
Qed.

(** ** One page *)

Lemma where_test_app cs cs' f g :
  where_test cs = inr f → where_test cs' = inr g →
  ∃ h, where_test (cs ++ cs') = inr h ∧ ∀ r, h r = f r && g r.
Proof.
  revert f. induction cs as [|c cs IH]; intros f; simpl.
  - intros [= <-] Hg. eexists. split; [done|]. done.
  - destruct (condition_test c) as [e|p]; [done|]. simpl.
    destruct (where_test cs) as [e|ps]; [done|]. intros [= <-] Hg.
    destruct (IH ps eq_refl Hg) as (h & -> & Hh). simpl. eexists. split; [done|].
    intros r. simpl. by rewrite Hh, andb_assoc.
Qed.

(** The rows a query selects past a position, newest first. *)
Definition selected (f : LogEntity → bool) (pos : option LogEntity)
    (table : list LogEntity) : list LogEntity :=
  merge_sort newest_first (filter (λ r, f r = true ∧ past pos r) table).

Definition page_of (limit : nat) (rows : list LogEntity) : LogsPageResponseDto :=
  {| items := item_of <$> take limit rows;
     nextCursor := if limit <? length rows then cursor_of <$> last (take limit rows) else None |}.

Lemma where_test_position q pos f :
  where_test (filter_conditions q) = inr f → (∀ r, pos = Some r → row_ok r) →
  lq_cursor q = cursor_of <$> pos →
  ∃ cs h, conditions q = inr cs ∧ where_test cs = inr h ∧
    ∀ r, h r = true ↔ f r = true ∧ past pos r.
Proof.
  intros Hf Hok Hc. unfold conditions. rewrite Hc. destruct pos as [r0|]; simpl.
  - specialize (Hok r0 eq_refl) as Hr. rewrite (decode_cursor_of r0 Hr).
    cbn [mbind exn_mbind].
    destruct (where_test_app (filter_conditions q)
      [PositionBefore (pg_timestamptz_text (le_recordedAt r0)) (le_id r0)] f
      (λ r, bool_decide (before r (position_of r0)) && true) Hf) as (h & Hh & Heq).
    { simpl. destruct Hr as [Ht Hu].
      by rewrite (pg_timestamptz_round _ Ht), (pg_uuid_canonical _ Hu). }
    do 2 eexists. split_and!; [done|exact Hh|]. intros r.
    rewrite Heq, andb_true_r, andb_true_iff, bool_decide_eq_true. done.
  - do 2 eexists. split_and!; [done|exact Hf|]. intros r. tauto.
Qed.

Lemma take_hasMore {A} n (l : list A) :
  (if n <? length (take (n + 1) l) then take n (take (n + 1) l) else take (n + 1) l) =
    take n l ∧
  (n <? length (take (n + 1) l)) = (n <? length l).
Proof.
  rewrite length_take. destruct (Nat.ltb_spec n (Nat.min (n + 1) (length l))) as [H|H].
  - rewrite take_take. split; [f_equal; lia|]. symmetry. apply Nat.ltb_lt. lia.
  - split; [|symmetry; apply Nat.ltb_ge; lia]. rewrite !take_ge by lia. done.
Qed.

Lemma list_logs_page q pos f table :
  where_test (filter_conditions q) = inr f → (∀ r, pos = Some r → row_ok r) →
  lq_cursor q = cursor_of <$> pos →
  list_logs q table = inr (page_of (lq_limit q) (selected f pos table)).
Proof.
  intros Hf Hok Hc. destruct (where_test_position q pos f Hf Hok Hc) as (cs & h & Hcs & Hh & Heq).
  unfold list_logs, select_logs. rewrite Hcs. cbn [mbind exn_mbind]. rewrite Hh.
  cbn [mbind exn_mbind].
  rewrite (list_filter_iff (λ r, h r = true) (λ r, f r = true ∧ past pos r) table Heq).
  fold (selected f pos table).
  destruct (take_hasMore (lq_limit q) (selected f pos table)) as [-> ->]. done.
Qed.

(** ** What a selection holds *)

Lemma elem_of_selected f pos table r :
  r ∈ selected f pos table ↔ r ∈ table ∧ f r = true ∧ past pos r.
Proof. unfold selected. rewrite merge_sort_Permutation, list_elem_of_filter. tauto. Qed.

Lemma selected_Sorted f pos table : StronglySorted newest_first (selected f pos table).
Proof. apply (StronglySorted_merge_sort _). Qed.

Lemma selected_NoDup f pos table :
  NoDup (le_id <$> table) → NoDup (le_id <$> selected f pos table).
Proof.
  intros Hnd. unfold selected. rewrite merge_sort_Permutation.
  eapply sublist_NoDup; [|apply fmap_sublist, sublist_filter]. done.
Qed.

(** In a page and what follows it, every later row is strictly past every earlier one. *)
Lemma strictly_sorted l :
  StronglySorted newest_first l → NoDup (le_id <$> l) →
  StronglySorted (λ a b, before b (position_of a)) l.
Proof.
  induction 1 as [|a l Hl IH Ha]; intros Hnd; constructor.
  - apply IH. by apply NoDup_cons in Hnd as [_ ?].
  - apply NoDup_cons in Hnd as [Hni _]. rewrite Forall_forall in Ha |- *.
    intros b Hb. apply newest_first_before; [by apply Ha|].
    intros He. apply Hni. rewrite He. by apply list_elem_of_fmap_2.
Qed.

Lemma selected_strict f pos table :
  log_ok table → StronglySorted (λ a b, before b (position_of a)) (selected f pos table).
Proof. intros [_ Hnd]. apply strictly_sorted; [apply selected_Sorted|by apply selected_NoDup]. Qed.

Lemma sorted_app_cross l1 l2 a b :
  StronglySorted (λ a b, before b (position_of a)) (l1 ++ l2) → a ∈ l1 → b ∈ l2 →
  before b (position_of a).
Proof.
  induction l1 as [|x l1 IH]; simpl; [by intros _ ?%not_elem_of_nil|].
  intros Hs Ha Hb. apply StronglySorted_inv in Hs as [Hs Hx].
  apply elem_of_cons in Ha as [-> |Ha]; [|auto].
  rewrite Forall_forall in Hx. apply Hx, elem_of_app. by right.
Qed.

(** A list in strict order is determined by its elements. *)
Lemma strict_NoDup l : StronglySorted (λ a b, before b (position_of a)) l → NoDup l.
Proof.
  induction 1 as [|a l _ IH Ha]; constructor; [|done]. rewrite Forall_forall in Ha.
  intros Hin. by apply (before_irrefl a), Ha.
Qed.

Lemma strict_unique l1 l2 :
  StronglySorted (λ a b, before b (position_of a)) l1 →
  StronglySorted (λ a b, before b (position_of a)) l2 →
  (∀ r, r ∈ l1 ↔ r ∈ l2) → l1 = l2.
Proof.
  intros H1 H2 Hin. apply (StronglySorted_unique_strong (λ a b, before b (position_of a))).
  - intros a b _ _ Hab Hba. exfalso. by apply (before_irrefl a), (before_trans a b a).
  - done.
  - done.
  - apply NoDup_Permutation; auto using strict_NoDup.
Qed.

Lemma strict_drop n l :
  StronglySorted (λ a b, before b (position_of a)) l →
  StronglySorted (λ a b, before b (position_of a)) (drop n l).
Proof.
  revert n. induction l as [|a l IH]; intros [|n] Hs; simpl; try done.
  apply StronglySorted_inv in Hs as [Hs _]. auto.
Qed.

Lemma elem_of_take_inv {A} (x : A) n l : x ∈ take n l → x ∈ l.
Proof. rewrite <- (take_drop n l) at 2. rewrite elem_of_app. by left. Qed.

Lemma elem_of_drop_inv {A} (x : A) n l : x ∈ drop n l → x ∈ l.
Proof. rewrite <- (take_drop n l) at 2. rewrite elem_of_app. by right. Qed.

(** In strict order, what is past the last of the first [n] is what is dropped. *)
Lemma strict_split n l r x :
  StronglySorted (λ a b, before b (position_of a)) l → last (take n l) = Some r →
  x ∈ l → x ∈ drop n l ↔ before x (position_of r).
Proof.
  intros Hs Hlast Hx. assert (Hr : r ∈ take n l) by (by apply last_Some_elem_of in Hlast).
  rewrite <- (take_drop n l) in Hs. split.
  - intros Hd. by apply (sorted_app_cross (take n l) (drop n l)).
  - intros Hb. rewrite <- (take_drop n l), elem_of_app in Hx. destruct Hx as [Hx|Hx]; [|done].
    apply last_Some in Hlast as [l' Hl']. rewrite Hl' in Hx, Hs.
    apply elem_of_app in Hx as [Hx|Hx].
    + rewrite <- app_assoc in Hs.
      assert (Hxr : before r (position_of x))
        by (apply (sorted_app_cross l' ([r] ++ drop n l)); [exact Hs|exact Hx|by left]).
      exfalso. by apply (before_irrefl r), (before_trans r x r).
    + apply list_elem_of_singleton in Hx as ->. by destruct (before_irrefl r).
Qed.

Lemma strict_append l1 l2 p :
  StronglySorted (λ a b, before b (position_of a)) l1 →
  StronglySorted (λ a b, before b (position_of a)) l2 →
  (∀ a b, a ∈ l1 → before b (position_of p) → before b (position_of a)) →
  (∀ b, b ∈ l2 → before b (position_of p)) →
  StronglySorted (λ a b, before b (position_of a)) (l1 ++ l2).
Proof.
  intros H1 H2 Ha Hb. induction H1 as [|a l1 _ IH Hl1]; [done|]. simpl. constructor.
  - apply IH. intros x b Hx. apply Ha. by right.
  - rewrite Forall_forall in Hl1 |- *. intros b [Hin|Hin]%elem_of_app; [by apply Hl1|].
    apply Ha; [by left|by apply Hb].
Qed.

(** The last row of a page is past every other row of it. *)
Lemma strict_take_last n l p a :
  StronglySorted (λ a b, before b (position_of a)) l → last (take n l) = Some p →
  a ∈ take n l → a ≠ p → before p (position_of a).
Proof.
  intros Hs [l' Hl']%last_Some Ha Hne. rewrite <- (take_drop n l), Hl' in Hs.
  rewrite Hl' in Ha. apply elem_of_app in Ha as [Ha|Ha%list_elem_of_singleton]; [|done].
  rewrite <- app_assoc in Hs.
  apply (sorted_app_cross l' ([p] ++ drop n l)); [exact Hs|exact Ha|by left].
Qed.

Lemma strict_take n l :
  StronglySorted (λ a b, before b (position_of a)) l →
  StronglySorted (λ a b, before b (position_of a)) (take n l).
Proof.
  revert n. induction l as [|a l IH]; intros [|n] Hs; simpl; try done; [constructor|].
  apply StronglySorted_inv in Hs as [Hs Ha]. constructor; [auto|].
  rewrite Forall_forall in Ha |- *. intros b Hb. apply Ha. by eapply elem_of_take_inv.
Qed.

(** The rows past the last row of a page are the rest of the selection. *)
Lemma selected_next f pos table n r :
  log_ok table → last (take n (selected f pos table)) = Some r →
  selected f (Some r) table = drop n (selected f pos table).
Proof.
  intros Hok Hlast. pose proof (selected_strict f pos table Hok) as Hs.
  apply strict_unique; [by apply selected_strict|by apply strict_drop|]. intros x.
  assert (Hr : past pos r).
  { apply last_Some_elem_of, elem_of_take_inv in Hlast. apply elem_of_selected in Hlast. tauto. }
  rewrite elem_of_selected. simpl. split.
  - intros (Hx & Hf & Hb). apply (strict_split n _ r x Hs Hlast); [|done].
    apply elem_of_selected. split_and!; [done|done|].
    destruct pos as [p|]; [|done]. simpl in *. by eapply before_trans.
  - intros Hd. pose proof Hd as Hx%elem_of_drop_inv.
    apply (strict_split n _ r x Hs Hlast) in Hd; [|done].
    apply elem_of_selected in Hx as (? & ? & _). done.
Qed.
End cursor.
