(* ===== verification/World.v ===== *)
(** Everything the asynchronous code of one process touches: the database, Redis,
    the area snapshot, and the process's own heap (presence memory, metrics,
    de-duplication map, counters, the channel). An operation of [ioop] is one call
    the code awaits, or one synchronous access to the heap.

    Redis and the area lookup are interfaces: [RedisStore] is the service, with the
    laws of its documentation; [AreaLookup] is what [AreasService] promises to its
    callers, discharged by the snapshot component. *)

From S2P Require Import Prelude Num Js Prog Spatial Db.

(** ** Interfaces *)

(** Redis with [GET], [SET key value EX ttl] and [DEL]; times in milliseconds, the
    time to live in seconds. *)
Class RedisStore := {
  redis : Type;
  redis_get : Z → string → redis → option string;
  redis_set_ex : Z → string → string → Z → redis → redis;
  redis_del : string → redis → redis;
}.

Class RedisLaws `{RedisStore} : Prop := {
  redis_get_set_live now t k v ttl r :
    (t ≤ now < t + 1000 * ttl)%Z → redis_get now k (redis_set_ex t k v ttl r) = Some v;
  redis_get_set_expired now t k v ttl r :
    (t + 1000 * ttl ≤ now)%Z → redis_get now k (redis_set_ex t k v ttl r) = None;
  redis_get_set_ne now t k k' v ttl r :
    k ≠ k' → redis_get now k (redis_set_ex t k' v ttl r) = redis_get now k r;
  redis_get_del now k r : redis_get now k (redis_del k r) = None;
  redis_get_del_ne now k k' r : k ≠ k' → redis_get now k (redis_del k' r) = redis_get now k r;
}.

(** "Which areas contain this point", or an exception when no snapshot is built. *)
Class AreaLookup := {
  area_index : Type;
  find_covering : area_index → number → number → exn + list string;
}.

(** An area is named at most once in an answer of a well-formed index. *)
Class AreaLookupLaws `{AreaLookup} := {
  area_index_ok : area_index → Prop;
  find_covering_NoDup i lng lat ids :
    area_index_ok i → find_covering i lng lat = inr ids → NoDup ids;
}.

(** ** State *)

(** The counters of [PresenceMetricsService]. *)
Record PresenceMetrics := {
  invalidateFailedGetsOkCount : Z;
  invalidateFailedGetsFailingCount : Z;
  changePathNoopCount : Z;
}.

Definition no_metrics : PresenceMetrics :=
  {| invalidateFailedGetsOkCount := 0; invalidateFailedGetsFailingCount := 0;
     changePathNoopCount := 0 |}.

(** How a delivery was settled on the channel: [ack(message)] or
    [nack(message, allUpTo, requeue)]. *)
Inductive settlement :=
| SAck (deliveryTag : nat)
| SNack (deliveryTag : nat) (allUpTo requeue : bool).

#[export] Instance settlement_eq_dec : EqDecision settlement.
Proof. solve_decision. Defined.

Section world.
Context `{RedisStore, AreaLookup}.

Record World := mkWorld {
  w_db : Db;
  w_redis : redis;
  w_clock : Z;
  w_areas : area_index;
  w_memory : gmap string (list string);
  w_metrics : PresenceMetrics;
  w_lastSeq : gmap string Z;
  w_staleAreaDropCount : Z;
  w_processedCount : Z;
  w_settled : list settlement;
}.

Definition with_db (db : Db) (w : World) : World :=
  {| w_db := db; w_redis := w_redis w; w_clock := w_clock w; w_areas := w_areas w;
     w_memory := w_memory w; w_metrics := w_metrics w; w_lastSeq := w_lastSeq w;
     w_staleAreaDropCount := w_staleAreaDropCount w;
     w_processedCount := w_processedCount w; w_settled := w_settled w |}.
Definition with_redis (r : redis) (w : World) : World :=
  {| w_db := w_db w; w_redis := r; w_clock := w_clock w; w_areas := w_areas w;
     w_memory := w_memory w; w_metrics := w_metrics w; w_lastSeq := w_lastSeq w;
     w_staleAreaDropCount := w_staleAreaDropCount w;
     w_processedCount := w_processedCount w; w_settled := w_settled w |}.
Definition with_memory (m : gmap string (list string)) (w : World) : World :=
  {| w_db := w_db w; w_redis := w_redis w; w_clock := w_clock w; w_areas := w_areas w;
     w_memory := m; w_metrics := w_metrics w; w_lastSeq := w_lastSeq w;
     w_staleAreaDropCount := w_staleAreaDropCount w;
     w_processedCount := w_processedCount w; w_settled := w_settled w |}.
Definition with_metrics (m : PresenceMetrics) (w : World) : World :=
  {| w_db := w_db w; w_redis := w_redis w; w_clock := w_clock w; w_areas := w_areas w;
     w_memory := w_memory w; w_metrics := m; w_lastSeq := w_lastSeq w;
     w_staleAreaDropCount := w_staleAreaDropCount w;
     w_processedCount := w_processedCount w; w_settled := w_settled w |}.
Definition with_lastSeq (m : gmap string Z) (w : World) : World :=
  {| w_db := w_db w; w_redis := w_redis w; w_clock := w_clock w; w_areas := w_areas w;
     w_memory := w_memory w; w_metrics := w_metrics w; w_lastSeq := m;
     w_staleAreaDropCount := w_staleAreaDropCount w;
     w_processedCount := w_processedCount w; w_settled := w_settled w |}.
Definition with_counts (stale processed : Z) (w : World) : World :=
  {| w_db := w_db w; w_redis := w_redis w; w_clock := w_clock w; w_areas := w_areas w;
     w_memory := w_memory w; w_metrics := w_metrics w; w_lastSeq := w_lastSeq w;
     w_staleAreaDropCount := stale; w_processedCount := processed;
     w_settled := w_settled w |}.
Definition settle (s : settlement) (w : World) : World :=
  {| w_db := w_db w; w_redis := w_redis w; w_clock := w_clock w; w_areas := w_areas w;
     w_memory := w_memory w; w_metrics := w_metrics w; w_lastSeq := w_lastSeq w;
     w_staleAreaDropCount := w_staleAreaDropCount w;
     w_processedCount := w_processedCount w; w_settled := w_settled w ++ [s] |}.
End world.

(** ** Operations *)

Inductive ioop : Type → Type :=
| Query {X} (q : sql X) : ioop X
| Transaction {X} (body : prog sql X) : ioop X
| RedisGet (key : string) : ioop (option string)
| RedisSetEx (key value : string) (ttlS : Z) : ioop unit
| RedisDel (key : string) : ioop unit
| FindCovering (lng lat : number) : ioop (list string)
| MemoryGet (userId : string) : ioop (option (list string))
| MemorySet (userId : string) (areaIds : list string) : ioop unit
| RecordInvalidateFailure (getsWereSucceeding : bool) : ioop unit
| RecordChangePathNoop : ioop unit
| LastSeqGet (key : string) : ioop (option Z)
| LastSeqSet (key : string) (seq : Z) : ioop unit
| CountStaleAreaDrop : ioop unit
| CountProcessed : ioop unit
| Settle (s : settlement) : ioop unit.

(** A call to Redis under a fault: [r] is its answer, [r'] the store after it. *)
Definition redis_call {R X} (f : fault) (x : X) (r r' : R) : (exn + X) * R :=
  match f with
  | FOk => (inr x, r')
  | FFail e | FAt _ e => (inl e, r)
  | FLost e => (inl e, r')
  end.

Definition recordInvalidateFailure (getsWereSucceeding : bool) (m : PresenceMetrics) :
    PresenceMetrics :=
  if getsWereSucceeding
  then {| invalidateFailedGetsOkCount := invalidateFailedGetsOkCount m + 1;
          invalidateFailedGetsFailingCount := invalidateFailedGetsFailingCount m;
          changePathNoopCount := changePathNoopCount m |}
  else {| invalidateFailedGetsOkCount := invalidateFailedGetsOkCount m;
          invalidateFailedGetsFailingCount := invalidateFailedGetsFailingCount m + 1;
          changePathNoopCount := changePathNoopCount m |}.

Definition recordChangePathNoop (m : PresenceMetrics) : PresenceMetrics :=
  {| invalidateFailedGetsOkCount := invalidateFailedGetsOkCount m;
     invalidateFailedGetsFailingCount := invalidateFailedGetsFailingCount m;
     changePathNoopCount := changePathNoopCount m + 1 |}.

(** One operation on the world. Accesses to the heap never fail; settling a delivery
    throws, and does nothing, when the channel is closed. *)
Definition exec `{PostGIS, RedisStore, AreaLookup} (X : Type) (f : fault) (op : ioop X)
    (w : World) : (exn + X) * World :=
  match op in ioop X return (exn + X) * World with
  | Query q => let '(r, db') := exec_query f q (w_db w) in (r, with_db db' w)
  | Transaction body =>
      let '(r, db') := exec_transaction f body (w_db w) in (r, with_db db' w)
  | RedisGet k =>
      let '(r, s) := redis_call f (redis_get (w_clock w) k (w_redis w)) (w_redis w) (w_redis w)
      in (r, with_redis s w)
  | RedisSetEx k v ttl =>
      let '(r, s) :=
        redis_call f tt (w_redis w) (redis_set_ex (w_clock w) k v ttl (w_redis w))
      in (r, with_redis s w)
  | RedisDel k =>
      let '(r, s) := redis_call f tt (w_redis w) (redis_del k (w_redis w))
      in (r, with_redis s w)
  | FindCovering lng lat => (find_covering (w_areas w) lng lat, w)
  | MemoryGet u => (inr (w_memory w !! u), w)
  | MemorySet u ids => (inr tt, with_memory (<[u := ids]> (w_memory w)) w)
  | RecordInvalidateFailure b =>
      (inr tt, with_metrics (recordInvalidateFailure b (w_metrics w)) w)
  | RecordChangePathNoop => (inr tt, with_metrics (recordChangePathNoop (w_metrics w)) w)
  | LastSeqGet k => (inr (w_lastSeq w !! k), w)
  | LastSeqSet k n => (inr tt, with_lastSeq (<[k := n]> (w_lastSeq w)) w)
  | CountStaleAreaDrop =>
      (inr tt, with_counts (w_staleAreaDropCount w + 1) (w_processedCount w) w)
  | CountProcessed =>
      (inr tt, with_counts (w_staleAreaDropCount w) (w_processedCount w + 1) w)
  | Settle s =>
      match f with
      | FOk => (inr tt, settle s w)
      | FFail e | FLost e | FAt _ e => (inl e, w)
      end
  end.
