(* ===== verification/Snapshot.v ===== *)
(** The versioned in-memory snapshot of the areas,
    [src/src/areas/area-snapshot.service.ts]: the rebuild (version first, then rows),
    the chain that serializes rebuilds, the poll, and the lookup that the callers of
    [AreasService] rely on.

    The service is a state machine whose steps are the awaited queries, interleaved
    with the commits of every other process. Two auxiliary components, which no
    operation reads, let the theorems speak: the version the table had when the rows
    of a snapshot were read, and the version it had when a rebuild was requested. *)

From S2P Require Import Prelude Num Js Prog Spatial Db World.

Section snapshot.
Context {gis : PostGIS} {rtree : RBush} {pip : PointInPolygon}.

(** ** Data *)

Record Snapshot := { sn_version : Z; sn_index : AreaSpatialIndex }.

(** What a rebuild awaits, and its single reference assignment. *)
Inductive snap_op : Type → Type :=
| SnapQuery {X} (q : sql X) : snap_op X
| Publish (snapshot : Snapshot) : snap_op unit.

(** ** Operations *)

(** [findCoveringAreaIds(lng, lat)]. *)
Definition lookup_areas (snapshot : option Snapshot) (lng lat : number) : exn + list string :=
  match snapshot with
  | None => inl (Error "area snapshot not built — bootstrap has not completed")
  | Some sn => inr (findCoveringAreaIds (sn_index sn) lng lat)
  end.

(** [rebuild()], from its end: with the rows, after the version, and whole. *)
Definition rebuild_with_rows (version : Z) (areaRows : list AreaGeometryRow) :
    prog snap_op unit :=
  match new_AreaSpatialIndex areaRows with
  | inl e => Throw e
  | inr index => await (Publish {| sn_version := version; sn_index := index |})
  end.

Definition rebuild_after_version (version : Z) : prog snap_op unit :=
  areaRows ← await (SnapQuery SelectAreas); rebuild_with_rows version areaRows.

Definition rebuild : prog snap_op unit :=
  version ← await (SnapQuery SelectAreaVersion); rebuild_after_version version.

(** A rebuild in the chain; [rb_since] and [rb_rows] are auxiliary. *)
Record Rebuild := { rb_left : prog snap_op unit; rb_since : Z; rb_rows : Z }.

(** The service beside its database; [sv_rows] is auxiliary. *)
Record Service := mkService {
  sv_db : Db;
  sv_snapshot : option Snapshot;
  sv_rows_version : Z;
  sv_chain : list Rebuild;
}.

Definition boot (db : Db) : Service :=
  {| sv_db := db; sv_snapshot := None; sv_rows_version := 0; sv_chain := [] |}.

(** [enqueueRebuild()], hence [refreshNow()] and the bootstrap. *)
Definition enqueueRebuild (s : Service) : Service :=
  {| sv_db := sv_db s; sv_snapshot := sv_snapshot s; sv_rows_version := sv_rows_version s;
     sv_chain := sv_chain s ++
       [{| rb_left := rebuild; rb_since := area_version (sv_db s);
           rb_rows := area_version (sv_db s) |}] |}.

(** One operation of a rebuild, under a fault. *)
Definition exec_snap (X : Type) (f : fault) (op : snap_op X) (s : Service) :
    (exn + X) * Service :=
  match op in snap_op X return (exn + X) * Service with
  | SnapQuery q =>
      let '(r, db) := exec_query f q (sv_db s) in
      (r, {| sv_db := db; sv_snapshot := sv_snapshot s; sv_rows_version := sv_rows_version s;
             sv_chain := sv_chain s |})
  | Publish sn =>
      (inr tt, {| sv_db := sv_db s; sv_snapshot := Some sn;
                  sv_rows_version := sv_rows_version s; sv_chain := sv_chain s |})
  end.

Definition with_chain (chain : list Rebuild) (s : Service) : Service :=
  {| sv_db := sv_db s; sv_snapshot := sv_snapshot s; sv_rows_version := sv_rows_version s;
     sv_chain := chain |}.

Definition with_rows_version (v : Z) (s : Service) : Service :=
  {| sv_db := sv_db s; sv_snapshot := sv_snapshot s; sv_rows_version := v;
     sv_chain := sv_chain s |}.

(** The auxiliary bookkeeping of an operation. *)
Definition rows_read {X} (op : snap_op X) (s : Service) (old : Z) : Z :=
  match op with
  | SnapQuery q => match q with SelectAreas => area_version (sv_db s) | _ => old end
  | Publish _ => old
  end.

Definition published {X} (op : snap_op X) (rows old : Z) : Z :=
  match op with SnapQuery _ => old | Publish _ => rows end.

(** The rebuild at the head of the chain goes on; when it is settled, normally or not,
    it leaves and the next one may start. *)
Definition advance (f : fault) (s : Service) : Service :=
  match sv_chain s with
  | [] => s
  | rb :: rest =>
      match rb_left rb with
      | Ret _ | Throw _ => with_chain rest s
      | Vis op k =>
          let '(r, s') := exec_snap _ f op s in
          with_rows_version (published op (rb_rows rb) (sv_rows_version s))
            (with_chain ({| rb_left := k r; rb_since := rb_since rb;
                            rb_rows := rows_read op s (rb_rows rb) |} :: rest) s')
      end
  end.

(** [poll()]: a failed query keeps the snapshot. *)
Definition poll (f : fault) (s : Service) : Service :=
  match exec_query f SelectAreaVersion (sv_db s) with
  | (inl _, _) => s
  | (inr version, _) =>
      match sv_snapshot s with
      | None => enqueueRebuild s
      | Some sn => if (version =? sn_version sn)%Z then s else enqueueRebuild s
      end
  end.

(** Another process commits: the areas change only together with the version. *)
Definition lawful_commit (db db' : Db) : Prop :=
  rows_wf (area_geometry_rows (areas db')) ∧
  (area_version db ≤ area_version db')%Z ∧
  (area_version db' = area_version db → areas db' = areas db).

Definition commit (db : Db) (s : Service) : Service :=
  {| sv_db := db; sv_snapshot := sv_snapshot s; sv_rows_version := sv_rows_version s;
     sv_chain := sv_chain s |}.

(** ** Steps and reachability *)

Inductive step : Service → Service → Prop :=
| step_refresh s : step s (enqueueRebuild s)
| step_poll f s : step s (poll f s)
| step_advance f s : step s (advance f s)
| step_commit db s : lawful_commit (sv_db s) db → step s (commit db s).

Definition reachable_service (s : Service) : Prop :=
  ∃ db, rows_wf (area_geometry_rows (areas db)) ∧ rtc step (boot db) s.

(** ** The invariant *)

(** [m] are the areas the table had at the version [v]. *)
Definition areas_at (db : Db) (v : Z) (m : gmap string AreaRow) : Prop :=
  (v ≤ area_version db)%Z ∧ rows_wf (area_geometry_rows m) ∧
  (area_version db = v → areas db = m).

(** A version and rows no older than those of the snapshot. *)
Definition newer (s : Service) (v rows : Z) : Prop :=
  ∀ sn, sv_snapshot s = Some sn → (sn_version sn ≤ v ∧ sv_rows_version s ≤ rows)%Z.

(** Where a rebuild can be: its program, and what it has read so far. *)
Inductive rebuild_at (s : Service) (rb : Rebuild) : Prop :=
| at_start :
    rb_left rb = rebuild → (rb_since rb ≤ area_version (sv_db s))%Z → rebuild_at s rb
| at_version v :
    rb_left rb = rebuild_after_version v → (rb_since rb ≤ v ≤ area_version (sv_db s))%Z →
    newer s v (area_version (sv_db s)) → rebuild_at s rb
| at_rows v m index :
    rb_left rb = await (Publish {| sn_version := v; sn_index := index |}) →
    (rb_since rb ≤ v ≤ rb_rows rb)%Z → areas_at (sv_db s) (rb_rows rb) m →
    new_AreaSpatialIndex (area_geometry_rows m) = inr index →
    newer s v (rb_rows rb) → rebuild_at s rb
| at_failed e : rb_left rb = Throw e → rebuild_at s rb
| at_done : rb_left rb = Ret tt → rebuild_at s rb.

Definition snapshot_ok (s : Service) (sn : Snapshot) : Prop :=
  ∃ m, (sn_version sn ≤ sv_rows_version s)%Z ∧ areas_at (sv_db s) (sv_rows_version s) m ∧
    new_AreaSpatialIndex (area_geometry_rows m) = inr (sn_index sn).

Record service_inv (s : Service) : Prop := {
  si_rows_wf : rows_wf (area_geometry_rows (areas (sv_db s)));
  si_snapshot sn : sv_snapshot s = Some sn → snapshot_ok s sn;
  si_head rb rest : sv_chain s = rb :: rest → rebuild_at s rb;
  si_waiting rb rest x : sv_chain s = rb :: rest → x ∈ rest →
    rb_left x = rebuild ∧ (rb_since x ≤ area_version (sv_db s))%Z;
}.

(** ** Lemmas *)

Lemma boot_inv db : rows_wf (area_geometry_rows (areas db)) → service_inv (boot db).
Proof. by split. Qed.

Lemma enqueue_inv s : service_inv s → service_inv (enqueueRebuild s).
Proof.
  intros [Hwf Hsn Hhead Hwait]. split; [done|done|..]; cbn [enqueueRebuild sv_chain sv_db].
  - intros rb rest. destruct (sv_chain s) as [|rb' rest'] eqn:E; simpl.
    + intros [= <- <-]. by apply at_start.
    + intros [= <- <-]. destruct (Hhead rb' rest' eq_refl) as [? ?|v ? ? ?|v m i ? ? ? ? ?|e ?|?].
      * by apply at_start.
      * by apply (at_version _ _ v).
      * by apply (at_rows _ _ v m i).
      * by apply (at_failed _ _ e).
      * by apply at_done.
  - intros rb rest x. destruct (sv_chain s) as [|rb' rest'] eqn:E; simpl.
    + intros [= <- <-] Hx. by apply not_elem_of_nil in Hx.
    + intros [= <- <-] [Hx|Hx%list_elem_of_singleton]%elem_of_app; [by eapply Hwait|].
      by subst x.
Qed.

Lemma poll_inv f s : service_inv s → service_inv (poll f s).
Proof.
  intros Hinv. unfold poll. destruct (exec_query f SelectAreaVersion (sv_db s)) as [[e|v] db]; [done|].
  destruct (sv_snapshot s) as [sn|]; [|by apply enqueue_inv].
  destruct (v =? sn_version sn)%Z; [done|by apply enqueue_inv].
Qed.

Lemma areas_at_commit db db' v m :
  lawful_commit db db' → areas_at db v m → areas_at db' v m.
Proof.
  intros (_ & Hv & Ha) (Hle & Hwf & Hm). split; [lia|]. split; [done|].
  intros Heq. rewrite Ha by lia. apply Hm. lia.
Qed.

Lemma commit_inv db s : lawful_commit (sv_db s) db → service_inv s → service_inv (commit db s).
Proof.
  intros Hc [Hwf Hsn Hhead Hwait]. pose proof Hc as (Hwf' & Hv & _).
  split; cbn [commit sv_db sv_chain sv_snapshot sv_rows_version]; [done|..].
  - intros sn Hs. destruct (Hsn sn Hs) as (m & Hle & Hm & Hi).
    exists m. split_and!; [done|by eapply areas_at_commit|done].
  - intros rb rest Hch. destruct (Hhead rb rest Hch) as [? ?|v ? ? Hn|v m i ? ? ? ? Hn|e ?|?].
    + apply at_start; [done|simpl; lia].
    + apply (at_version _ _ v); [done|simpl; lia|].
      intros sn Hs. specialize (Hn sn Hs). simpl in *. lia.
    + by apply (at_rows _ _ v m i); [..|by eapply areas_at_commit| |].
    + by apply (at_failed _ _ e).
    + by apply at_done.
  - intros rb rest x Hch Hx. destruct (Hwait rb rest x Hch Hx). split; [done|lia].
Qed.

(** A query of the rebuild leaves the database and the snapshot alone. *)
Lemma exec_snap_select {X} f (q : sql X) s r s' :
  (∃ x, exec_sql q (sv_db s) = inr (x, sv_db s)) →
  exec_snap X f (SnapQuery q) s = (r, s') →
  s' = s ∧ ((∃ e, r = inl e ∧ f ≠ FOk) ∨ ∃ x, r = inr x ∧ exec_sql q (sv_db s) = inr (x, sv_db s)).
Proof.
  intros [x Hx]. assert (Hs : s = with_chain (sv_chain s) s) by (by destruct s).
  unfold exec_snap, exec_query. rewrite Hx.
  destruct f; intros [= <- <-]; (split; [by destruct s|]); [by right; eauto|left; by eauto..].
Qed.

(** The chain loses its head. *)
Lemma pop_inv rb rest s : sv_chain s = rb :: rest → service_inv s → service_inv (with_chain rest s).
Proof.
  intros Hch [Hwf Hsn Hhead Hwait]. split; cbn [with_chain sv_chain sv_db]; [done|done|..].
  - intros x rest' ->. destruct (Hwait rb (x :: rest') x Hch) as [? ?]; [by left|].
    by apply at_start.
  - intros x rest' y -> Hy. apply (Hwait rb (x :: rest')); [done|by right].
Qed.

(** The head changes; the queue behind it stays. *)
Lemma head_inv s rb rest rb' sn rows :
  service_inv s → sv_chain s = rb :: rest →
  let s' := {| sv_db := sv_db s; sv_snapshot := sn; sv_rows_version := rows;
               sv_chain := rb' :: rest |} in
  (∀ x, sn = Some x → snapshot_ok s' x) → rebuild_at s' rb' → service_inv s'.
Proof.
  intros [Hwf Hsn Hhead Hwait] Hch s' Hsn' Hhead'. split; [done|done|..].
  - by intros x l [= <- <-].
  - intros x l y [= <- <-]. by apply (Hwait rb rest).
Qed.

Lemma advance_inv f s : service_inv s → service_inv (advance f s).
Proof.
  intros Hinv. pose proof Hinv as [Hwf Hsn Hhead Hwait]. unfold advance.
  destruct (sv_chain s) as [|rb rest] eqn:Hch; [done|].
  assert (Hself : ∀ rb' : Rebuild, with_rows_version (sv_rows_version s) (with_chain (rb' :: rest) s) =
    {| sv_db := sv_db s; sv_snapshot := sv_snapshot s; sv_rows_version := sv_rows_version s;
       sv_chain := rb' :: rest |}) by done.
  assert (Hkeep : ∀ rb', (let s' := {| sv_db := sv_db s; sv_snapshot := sv_snapshot s;
       sv_rows_version := sv_rows_version s; sv_chain := rb' :: rest |} in
     rebuild_at s' rb') → service_inv (with_rows_version (sv_rows_version s)
       (with_chain (rb' :: rest) s))).
  { intros rb' Hat. rewrite Hself. by apply (head_inv s rb). }
  destruct (Hhead rb rest eq_refl) as [Hl Hv|v Hl Hv Hn|v m i Hl Hv Hm Hi Hn|e Hl|Hl]; rewrite Hl.
  - unfold rebuild. cbn [mbind prog_mbind prog_bind await].
    destruct (exec_snap _ f (SnapQuery SelectAreaVersion) s) as [r s'] eqn:E.
    apply exec_snap_select in E as [-> [(e & -> & _)|(x & -> & [= <-])]]; [..|by eexists].
    + apply Hkeep. by apply (at_failed _ _ e).
    + apply Hkeep. apply (at_version _ _ (area_version (sv_db s))); [done|simpl; lia|].
      intros sn Hs. destruct (Hsn sn Hs) as (m & ? & (? & _) & _). simpl. lia.
  - unfold rebuild_after_version. cbn [mbind prog_mbind prog_bind await].
    destruct (exec_snap _ f (SnapQuery SelectAreas) s) as [r s'] eqn:E.
    apply exec_snap_select in E as [-> [(e & -> & _)|(x & -> & [= <-])]]; [..|by eexists].
    + apply Hkeep. by apply (at_failed _ _ e).
    + apply Hkeep. cbn [prog_bind]. unfold rebuild_with_rows.
      destruct (new_index_total _ Hwf) as [index Hindex]. rewrite Hindex.
      by apply (at_rows _ _ v (areas (sv_db s)) index).
  - cbn [await exec_snap published with_chain with_rows_version sv_db sv_snapshot sv_chain].
    apply (head_inv s rb); [done|done|..].
    + intros x [= <-]. exists m. split_and!; [simpl; lia|done|done].
    + by apply at_done.
  - by apply (pop_inv rb).
  - by apply (pop_inv rb).
Qed.

Lemma step_inv s s' : step s s' → service_inv s → service_inv s'.
Proof. destruct 1; auto using enqueue_inv, poll_inv, advance_inv, commit_inv. Qed.

Lemma reachable_service_inv s : reachable_service s → service_inv s.
Proof.
  intros (db & Hwf & Hrtc). assert (Hb : service_inv (boot db)) by (by apply boot_inv).
  induction Hrtc; eauto using step_inv.
Qed.

(** ** Draining the chain *)

Definition label_current (s : Service) : Prop :=
  ∃ sn, sv_snapshot s = Some sn ∧ sn_version sn = area_version (sv_db s).

Lemma label_le_version s sn :
  service_inv s → sv_snapshot s = Some sn → (sn_version sn ≤ area_version (sv_db s))%Z.
Proof. intros Hinv Hs. destruct (si_snapshot _ Hinv sn Hs) as (m & ? & (? & _) & _). lia. Qed.

(** The head of the chain leaves it within four steps; while no query fails it
    publishes the current version, unless it had failed before. *)
Lemma head_leaves s rb rest :
  service_inv s → sv_chain s = rb :: rest →
  ∃ k, k ≤ 4 ∧ let s' := Nat.iter k (advance FOk) s in
    sv_chain s' = rest ∧ sv_db s' = sv_db s ∧
    (label_current s ∨ rb_left rb = rebuild → label_current s').
Proof.
  intros Hinv Hch. pose proof (label_le_version s) as Hle.
  destruct (new_index_total _ (si_rows_wf _ Hinv)) as [index Hindex].
  assert (Hrows : ∀ v, rebuild_with_rows v (area_geometry_rows (areas (sv_db s))) =
    await (Publish {| sn_version := v; sn_index := index |})).
  { intros v. unfold rebuild_with_rows. by rewrite Hindex. }
  destruct (si_head _ Hinv rb rest Hch) as [Hl Hv|v Hl Hv Hn|v m i Hl Hv Hm Hi Hn|e Hl|Hl];
    destruct s as [db sn rows chain], rb as [p since rbrows]; simpl in *; subst.
  - exists 4. split; [lia|]. cbn -[rebuild_with_rows area_geometry_rows]. rewrite Hrows. cbn.
    split_and!; [done..|]. by eexists.
  - exists 3. split; [lia|]. cbn -[rebuild_with_rows area_geometry_rows]. rewrite Hrows. cbn.
    split_and!; [done..|].
    intros [(x & Hx & Hcur)|[=]]. eexists. split; [done|]. simpl in *.
    destruct (Hn x Hx). lia.
  - exists 2. split; [lia|]. cbn. split_and!; [done..|].
    intros [(x & Hx & Hcur)|[=]]. eexists. split; [done|]. simpl in *.
    destruct (Hn x Hx). destruct Hm as [? _]. lia.
  - exists 1. split; [lia|]. cbn. split_and!; [done..|]. by intros [?|[=]].
  - exists 1. split; [lia|]. cbn. split_and!; [done..|]. by intros [?|[=]].
Qed.

Lemma iter_inv n s : service_inv s → service_inv (Nat.iter n (advance FOk) s).
Proof. intros Hs. induction n; simpl; auto using advance_inv. Qed.

Lemma iter_empty n s : sv_chain s = [] → Nat.iter n (advance FOk) s = s.
Proof.
  intros Hs. induction n as [|n IH]; [done|]. simpl. rewrite IH. unfold advance. by rewrite Hs.
Qed.

Definition ends_fresh (chain : list Rebuild) : Prop :=
  ∃ pre rb, chain = pre ++ [rb] ∧ rb_left rb = rebuild.

(** Enough steps without faults empty the chain; the label is then current if it was,
    or if a rebuild had not started. *)
Lemma drain n s :
  service_inv s → 4 * length (sv_chain s) ≤ n →
  let s' := Nat.iter n (advance FOk) s in
  sv_chain s' = [] ∧ sv_db s' = sv_db s ∧
  (label_current s ∨ ends_fresh (sv_chain s) → label_current s').
Proof.
  remember (sv_chain s) as chain eqn:Hch. symmetry in Hch. revert n s Hch.
  induction chain as [|rb rest IH]; intros n s Hch Hinv Hn.
  { rewrite iter_empty by done. split_and!; [done..|].
    intros [?|([] & rb & [=] & _)]; done. }
  destruct (head_leaves s rb rest Hinv Hch) as (k & Hk & Hch' & Hdb & Hcur).
  cbn [length] in Hn. replace n with ((n - k) + k) by lia. rewrite Nat.iter_add.
  destruct (IH (n - k) (Nat.iter k (advance FOk) s)) as (H1 & H2 & H3);
    [done|by apply iter_inv|lia|].
  cbv zeta. split_and!; [done|by rewrite H2|]. intros [Hlab|([|x pre] & y & Heq & Hy)].
  - apply H3. left. apply Hcur. by left.
  - injection Heq as -> ->. apply H3. left. apply Hcur. by right.
  - injection Heq as -> ->. apply H3. right. by exists pre, y.
Qed.

Lemma ends_fresh_enqueue s : ends_fresh (sv_chain (enqueueRebuild s)).
Proof. unfold ends_fresh, enqueueRebuild. simpl. eauto. Qed.

(** ** Exactness *)

Lemma snapshot_exact `{!RBushLaws, !PointInPolygonLaws} s lng lat :
  service_inv s → label_current s →
  ∃ ids, lookup_areas (sv_snapshot s) lng lat = inr ids ∧
    ids ≡ₚ coveringAreaIds_reference (area_geometry_rows (areas (sv_db s))) lng lat.
Proof.
  intros Hinv (sn & Hs & Hv). rewrite Hs. eexists. split; [done|].
  destruct (si_snapshot _ Hinv sn Hs) as (m & Hle & (Hle' & Hwf & Hm) & Hi).
  rewrite Hm by lia. by apply findCoveringAreaIds_spec.
Qed.

Lemma NoDup_area_geometry_rows (m : gmap string AreaRow) :
  NoDup (row_id <$> area_geometry_rows m).
Proof.
  unfold area_geometry_rows. rewrite <- list_fmap_compose.
  apply (NoDup_fst_map_to_list m).
Qed.

Lemma NoDup_reference rows lng lat :
  NoDup (row_id <$> rows) → NoDup (coveringAreaIds_reference rows lng lat).
Proof.
  unfold coveringAreaIds_reference. induction rows as [|r rows IH]; [done|].
  rewrite fmap_cons. intros [Hni Hnd]%NoDup_cons. rewrite filter_cons. case_decide; [|auto].
  rewrite fmap_cons. apply NoDup_cons. split; [|auto].
  intros (x & Hx & [_ Hin]%list_elem_of_filter)%list_elem_of_fmap.
  apply Hni. rewrite Hx. by apply list_elem_of_fmap_2.
Qed.

(** ** The interface of the transition processor, discharged *)

#[local] Instance snapshot_lookup : AreaLookup := {|
  area_index := option Snapshot;
  find_covering := lookup_areas;
|}.

Definition snapshot_lookup_laws `{!RBushLaws, !PointInPolygonLaws} : AreaLookupLaws.
Proof.
  refine {| area_index_ok (i : area_index) := ∀ sn, i = Some sn →
    ∃ m, rows_wf (area_geometry_rows m) ∧
      new_AreaSpatialIndex (area_geometry_rows m) = inr (sn_index sn) |}.
  intros [sn|] lng lat ids Hok; simpl; [|done]. intros [= <-].
  destruct (Hok sn eq_refl) as (m & Hwf & Hi).
  rewrite (findCoveringAreaIds_spec _ _ lng lat Hwf Hi).
  apply NoDup_reference, NoDup_area_geometry_rows.
Defined.
End snapshot.
