(* ===== verification/Areas.v ===== *)
(** The areas service, [src/src/areas/areas.service.ts]: creating an area (validity
    gate, insert and version bump in one transaction, refresh of the snapshot) and
    listing the areas by pages. *)

From S2P Require Import Prelude Num Js Prog Spatial Db World Snapshot.

(** ** Data *)

Record CreateAreaDto := { ca_name : string; ca_boundary : polygon }.

Record ListAreasQueryDto := { la_limit : nat; la_offset : Z }.

Definition DEFAULT_AREAS_PAGE_SIZE : nat := 50.
Definition MAX_AREAS_PAGE_SIZE : nat := 500.

(** [@IsInt() @Min(1) @Max(500) limit] and [@IsInt() @Min(0) offset]. *)
Definition list_query_valid (q : ListAreasQueryDto) : bool :=
  (1 <=? la_limit q) && (la_limit q <=? MAX_AREAS_PAGE_SIZE) && (0 <=? la_offset q)%Z.

Definition default_list_query : ListAreasQueryDto :=
  {| la_limit := DEFAULT_AREAS_PAGE_SIZE; la_offset := 0 |}.

(** An area as the repository returns it: the id and the row. *)
Definition AreaEntity : Type := string * AreaRow.

(** What [create] awaits. *)
Inductive area_op : Type → Type :=
| AreaQuery {X} (q : sql X) : area_op X
| AreaTransaction {X} (body : prog sql X) : area_op X
| RefreshNow : area_op unit.

(** [ORDER BY "created_at" ASC, "id" ASC]. *)
Definition area_order (a b : AreaEntity) : Prop :=
  (area_created_at a.2 < area_created_at b.2)%Z ∨
  (area_created_at a.2 = area_created_at b.2 ∧ String.le a.1 b.1).

#[export] Instance area_order_dec : RelDecision area_order.
Proof. intros a b. unfold area_order. apply _. Defined.

#[export] Instance area_order_total : Total area_order.
Proof.
  intros a b. unfold area_order.
  destruct (Z.lt_trichotomy (area_created_at a.2) (area_created_at b.2)) as [?|[He|?]];
    [by left; left| |by right; left].
  destruct (total String.le a.1 b.1); [left|right]; by right.
Qed.

#[export] Instance area_order_trans : Transitive area_order.
Proof.
  intros a b c. unfold area_order. intros [?|[? ?]] [?|[? ?]]; [left; lia..|right].
  split; [congruence|by etrans].
Qed.

(** ** Operations *)

(** [create(dto)], and the body of its transaction. *)
Definition insert_area (dto : CreateAreaDto) : prog sql AreaEntity :=
  saved ← await (InsertArea (ca_name dto) (ca_boundary dto));
  await BumpAreaVersion;;
  mret saved.

Definition create (dto : CreateAreaDto) : prog area_op AreaEntity :=
  validity ← await (AreaQuery (SelectGeometryValidity (ca_boundary dto)));
  if negb validity.1
  then Throw (BadRequestException
         ("invalid polygon: " +:+ default "unknown reason" validity.2))
  else
    area ← await (AreaTransaction (insert_area dto));
    await RefreshNow;;
    mret area.

(** [findAll(query)]: the database takes an offset that fits [bigint]. *)
Definition sorted_areas (db : Db) : list AreaEntity :=
  merge_sort area_order (map_to_list (areas db)).

Definition findAll (query : ListAreasQueryDto) (db : Db) : exn + list AreaEntity :=
  if fits_bigint (la_offset query)
  then inr (take (la_limit query) (drop (Z.to_nat (la_offset query)) (sorted_areas db)))
  else inl bigint_out_of_range.

(** The same when the query may fail. *)
Definition findAll_under (f : fault) (query : ListAreasQueryDto) (db : Db) :
    exn + list AreaEntity :=
  match raised f with Some e => inl e | None => findAll query db end.

(** ** Which areas contain a point *)

(** [ST_Covers] of PostGIS, with the law that the index was written for: it decides as
    the containment test of [turf] does, a boundary included. *)
Class StCovers := { st_covers : polygon → number → number → bool }.

Class StCoversLaws `{StCovers, PointInPolygon} : Prop := {
  st_covers_turf boundary lng lat :
    st_covers boundary lng lat = booleanPointInPolygon (lng, lat) boundary;
}.

(** The hot path, and the query it replaced. *)
Definition AreasService_findCoveringAreaIds `{RBush, PointInPolygon} (s : Service)
    (lng lat : number) : exn + list string :=
  lookup_areas (sv_snapshot s) lng lat.

Definition findCoveringAreaIdsViaPostgis `{StCovers} (lng lat : number) (db : Db) :
    list string :=
  fst <$> filter (λ area : AreaEntity, st_covers (area_boundary area.2) lng lat = true)
            (map_to_list (areas db)).

(** ** The outside of the service *)

Section areas.
Context {gis : PostGIS} {rtree : RBush} {pip : PointInPolygon}.

(** The rebuild at the head runs until it is settled. *)
Fixpoint finish_rebuild (fuel : nat) (s : Service) : (exn + unit) * Service :=
  match sv_chain s with
  | [] => (inr tt, s)
  | rb :: _ =>
      match rb_left rb with
      | Throw e => (inl e, advance FOk s)
      | Ret _ => (inr tt, advance FOk s)
      | Vis _ _ =>
          match fuel with
          | 0 => (inr tt, s)
          | S fuel => finish_rebuild fuel (advance FOk s)
          end
      end
  end.

(** [await refreshNow()]: the rebuilds before it end, then its own runs; the fault
    befalls its first query. *)
Definition refreshNow (f : fault) (s : Service) : (exn + unit) * Service :=
  let drained := Nat.iter (4 * length (sv_chain s)) (advance FOk) s in
  finish_rebuild 3 (advance f (enqueueRebuild drained)).

Definition exec_area (X : Type) (f : fault) (op : area_op X) (s : Service) :
    (exn + X) * Service :=
  match op in area_op X return (exn + X) * Service with
  | AreaQuery q => let '(r, db) := exec_query f q (sv_db s) in (r, commit db s)
  | AreaTransaction body =>
      let '(r, db) := exec_transaction f body (sv_db s) in (r, commit db s)
  | RefreshNow => refreshNow f s
  end.

(** The column of the names takes the name. *)
Definition name_stored (dto : CreateAreaDto) : Prop :=
  varchar_refused AREA_NAME_COLUMN (ca_name dto) = None.

(** The tables after a creation. *)
Definition created (dto : CreateAreaDto) (db : Db) : Db :=
  bump_version (insert_area_row (ca_name dto) (ca_boundary dto) db).

(** ** Lemmas *)

Lemma insert_area_run dto db :
  st_is_valid (ca_boundary dto) = true → name_stored dto →
  exec_transaction FOk (insert_area dto) db =
    (inr (uuids db (uuid_next db),
          {| area_name := ca_name dto; area_created_at := now db;
             area_boundary := ca_boundary dto |}), created dto db).
Proof. intros Hv Hn. unfold exec_transaction, insert_area. simpl. by rewrite Hn, Hv. Qed.

(** A name that the column does not take: nothing is written. *)
Lemma insert_area_refused e dto db :
  varchar_refused AREA_NAME_COLUMN (ca_name dto) = Some e →
  exec_transaction FOk (insert_area dto) db = (inl e, db).
Proof. intros Hn. unfold exec_transaction, insert_area. simpl. by rewrite Hn. Qed.

(** Whatever fails, the transaction inserts and bumps, or does neither. *)
Lemma insert_area_atomic f dto db r db' :
  exec_transaction f (insert_area dto) db = (r, db') →
  (db' = db ∧ ∃ e, r = inl e) ∨ db' = created dto db.
Proof.
  unfold exec_transaction, insert_area. destruct f as [|e|e|n e].
  - simpl. destruct (varchar_refused _ _), (st_is_valid (ca_boundary dto)); intros [= <- <-]; eauto.
  - intros [= <- <-]. eauto.
  - simpl. destruct (varchar_refused _ _), (st_is_valid (ca_boundary dto)); intros [= <- <-]; eauto.
  - destruct n as [|[|n]]; simpl; [intros [= <- <-]; by eauto|..];
      (destruct (varchar_refused _ _); simpl; [intros [= <- <-]; by eauto|]);
      (destruct (st_is_valid (ca_boundary dto)); simpl; [|intros [= <- <-]; by eauto]).
    + intros [= <- <-]. eauto.
    + destruct n; simpl; intros [= <- <-]; by right.
Qed.

Lemma created_lawful dto db :
  rows_wf (area_geometry_rows (areas (created dto db))) → lawful_commit db (created dto db).
Proof. intros Hwf. split; [done|]. simpl. split; [lia|]. intros ?. lia. Qed.
End areas.
