(* ===== verification/Presence.v ===== *)
(** The presence services of [src/src/presence]: the Redis cache
    ([presence-cache.service.ts]), the worker's memory ([presence-memory.service.ts])
    and the metrics ([presence-metrics.service.ts]). The memory and the counters are
    state of the world; this file has the cache and the counters' snapshot. *)

From S2P Require Import Prelude Num Js Prog Json Db World.

(** ** Operations *)

(** The configuration the cache reads. *)
Record RedisConfig := { presenceTtlEmptyS : Z; presenceTtlNonEmptyS : Z }.

Inductive PresenceCacheRead :=
| CacheHit (areaIds : list string)
| CacheMiss
| CacheError.

Definition key (userId : string) : string := "presence:" +:+ userId.

(** [get(userId)]. [JSON.parse] throws on a text that is not JSON; the [catch]
    answers an error. *)
Definition cache_get (userId : string) : prog ioop PresenceCacheRead :=
  try_catch
    (raw ← await (RedisGet (key userId));
     match raw with
     | None => mret CacheMiss
     | Some text =>
         match JSON_parse_strings text with
         | Some areaIds => mret (CacheHit areaIds)
         | None => Throw (Error "Unexpected token in JSON")
         end
     end)
    (λ _, mret CacheError).

Definition populate_ttl (config : RedisConfig) (areaIds : list string) : Z :=
  if decide (length areaIds = 0) then presenceTtlEmptyS config
  else presenceTtlNonEmptyS config.

(** [populate(userId, areaIds)]. Redis refuses a time to live of 0 or less, which here is
    an entry that has expired; the schema of the environment keeps it at 1 or more. *)
Definition cache_populate (config : RedisConfig) (userId : string) (areaIds : list string) :
    prog ioop unit :=
  let ttlS := populate_ttl config areaIds in
  try_catch
    (await (RedisSetEx (key userId) (JSON_stringify_strings areaIds) ttlS))
    (λ _, mret tt).

Definition cache_invalidate (userId : string) : prog ioop bool :=
  try_catch
    (await (RedisDel (key userId));; mret true)
    (λ _, mret false).

(** [PresenceMetricsService.snapshot()]. *)
Definition metrics_snapshot (m : PresenceMetrics) : list (string * Z) :=
  [("presence_invalidate_failed_gets_ok_total", invalidateFailedGetsOkCount m);
   ("presence_invalidate_failed_gets_failing_total", invalidateFailedGetsFailingCount m);
   ("presence_change_path_noop_total", changePathNoopCount m)].

(** ** Lemmas *)

Lemma key_inj u v : key u = key v → u = v.
Proof. unfold key. apply (inj (String.append "presence:")). Qed.

Section cache.
Context `{PostGIS, RedisStore, AreaLookup}.

(** Reading never changes the world. *)
Lemma cache_get_wp ok (Q : exn + PresenceCacheRead → World → Prop) u w :
  (∀ c, Q (inr c) w) → wp exec ok (cache_get u) Q w.
Proof.
  intros HQ. unfold cache_get. wp_step. wp_step. wp_step.
  assert (Hw : with_redis (w_redis w) w = w) by (by destruct w).
  destruct f; simpl; rewrite ?Hw; auto.
  destruct (redis_get _ _ _) as [text|]; simpl; [|auto].
  destruct (JSON_parse_strings text); simpl; auto.
Qed.

(** Writing back never fails and touches nothing but the user's key. *)
Lemma cache_populate_wp ok (Q : exn + unit → World → Prop) config u ids w :
  Q (inr tt) w →
  Q (inr tt) (with_redis (redis_set_ex (w_clock w) (key u) (JSON_stringify_strings ids)
                            (populate_ttl config ids) (w_redis w)) w) →
  wp exec ok (cache_populate config u ids) Q w.
Proof.
  intros HQ1 HQ2. unfold cache_populate. wp_step. wp_step.
  assert (Hw : with_redis (w_redis w) w = w) by (by destruct w).
  destruct f; simpl; rewrite ?Hw; auto.
Qed.

(** [true] only when the key was deleted. *)
Lemma cache_invalidate_wp ok (Q : exn + bool → World → Prop) u w :
  Q (inr true) (with_redis (redis_del (key u) (w_redis w)) w) →
  Q (inr false) w →
  Q (inr false) (with_redis (redis_del (key u) (w_redis w)) w) →
  wp exec ok (cache_invalidate u) Q w.
Proof.
  intros HQ1 HQ2 HQ3. unfold cache_invalidate. wp_step. wp_step. wp_step.
  assert (Hw : with_redis (w_redis w) w = w) by (by destruct w).
  destruct f; simpl; rewrite ?Hw; auto.
Qed.
End cache.
