(* ===== verification/Locations.v ===== *)
(** The transition processor, [src/src/locations/locations.service.ts]. *)

From S2P Require Import Prelude Num Js Prog Db World Presence.

(** ** Data *)

Definition MAX_ACCURACY_METERS : number := num_of_Z 100.
Definition USER_ID_MAX_LENGTH : nat := 64.

(** [ReportLocationDto]; an absent property is [None]. A date is its ISO 8601 text. *)
Record ReportLocationDto := {
  dto_userId : string;
  dto_lat : number;
  dto_lng : number;
  dto_deviceId : option string;
  dto_seq : option Z;
  dto_capturedAt : option string;
  dto_observedAt : option string;
  dto_accuracy : option number;
}.

Record LocationReportResponseDto := { enteredAreaIds : list string; duplicate : bool }.

(** [dto.accuracy !== undefined && dto.accuracy > MAX_ACCURACY_METERS]. *)
Definition accuracy_exceeded (dto : ReportLocationDto) : bool :=
  match dto_accuracy dto with
  | Some a => num_gt a MAX_ACCURACY_METERS
  | None => false
  end.

(** [dto.capturedAt ?? dto.observedAt ?? null]. *)
Definition effective_capturedAt (dto : ReportLocationDto) : option string :=
  match dto_capturedAt dto with Some t => Some t | None => dto_observedAt dto end.

(** The message's number is printed by [Number::toString], which is a parameter. *)
Definition accuracy_error (num_to_string : number → string) (dto : ReportLocationDto) : exn :=
  UnprocessableEntityException
    ("accuracy " +:+ from_option num_to_string "undefined" (dto_accuracy dto) +:+
     "m exceeds the usable maximum of 100m: a reading this uncertain cannot be checked against area boundaries").

(** ** Operations *)

Section service.
(** Whether [PresenceMemoryService] is provided (the worker) or not (the API), the
    cache configuration, and the printing of numbers in messages. *)
Variable presenceMemory : bool.
Variable config : RedisConfig.
Variable num_to_string : number → string.

Definition readPresenceUnlocked (userId : string) : prog ioop (list string) :=
  await (Query (SelectPresence userId)).

Definition lockAndReadPresence (userId : string) : prog sql (list string) :=
  await (LockUserAndReadPresence userId).

(** [differs(currentAreaIds, previousAreaIds)]: lengths first, then membership. *)
Definition differs (currentAreaIds previousAreaIds : list string) : bool :=
  if decide (length currentAreaIds = length previousAreaIds) then
    existsb (λ areaId, bool_decide (areaId ∉ previousAreaIds)) currentAreaIds
  else true.

(** The per-device check inside the transaction: [true] for a duplicate;
    [Number(rows[0].last_seq)] is the binary64 number nearest to the bigint. *)
Definition dedup_in_transaction (dto : ReportLocationDto) (recordedAt : Z) : prog sql bool :=
  match dto_deviceId dto, dto_seq dto with
  | Some deviceId, Some seq =>
      stateRows ← await (SelectLastSeq (dto_userId dto) deviceId);
      if match stateRows with
         | last :: _ => (seq <=? round53 last)%Z
         | [] => false
         end
      then mret true
      else await (UpsertEventState (dto_userId dto) deviceId seq recordedAt);; mret false
  | _, _ => mret false
  end.

(** [for (const areaId of entered)]: insert the membership and, when the insert
    returned a row, its log. *)
Fixpoint insert_entered (userId : string) (recordedAt : Z) (capturedAt : option string)
    (entered enteredAreaIds : list string) : prog sql (list string) :=
  match entered with
  | [] => mret enteredAreaIds
  | areaId :: rest =>
      inserted ← await (InsertPresence userId areaId recordedAt);
      if decide (0 < length inserted) then
        await (InsertLog userId areaId recordedAt capturedAt);;
        insert_entered userId recordedAt capturedAt rest (enteredAreaIds ++ [areaId])
      else insert_entered userId recordedAt capturedAt rest enteredAreaIds
  end.

(** The body of the transaction: the response, and [wroteAnything]. *)
Definition transition (dto : ReportLocationDto) (recordedAt : Z)
    (capturedAt : option string) (currentAreaIds : list string) :
    prog sql (LocationReportResponseDto * bool) :=
  previousAreaIds ← lockAndReadPresence (dto_userId dto);
  dup ← dedup_in_transaction dto recordedAt;
  if dup : bool then mret ({| enteredAreaIds := []; duplicate := true |}, false)
  else
    let entered := js_sort (list_minus currentAreaIds previousAreaIds) in
    let departed := list_minus previousAreaIds currentAreaIds in
    enteredAreaIds ← insert_entered (dto_userId dto) recordedAt capturedAt entered [];
    (if decide (0 < length departed)
     then await (DeletePresence (dto_userId dto) departed) else mret tt);;
    mret ({| enteredAreaIds := enteredAreaIds; duplicate := false |},
          bool_decide (0 < length enteredAreaIds ∨ 0 < length departed)).

(** [2]: the hint, and the cache read when there was one. *)
Definition read_hint (userId : string) : prog ioop (option PresenceCacheRead * list string) :=
  remembered ← (if presenceMemory then await (MemoryGet userId) else mret None);
  match remembered with
  | Some ids => mret (None, ids)
  | None =>
      if presenceMemory then
        previousHint ← readPresenceUnlocked userId;
        await (MemorySet userId previousHint);;
        mret (None, previousHint)
      else
        cacheRead ← cache_get userId;
        match cacheRead with
        | CacheHit ids => mret (Some cacheRead, ids)
        | _ => ids ← readPresenceUnlocked userId; mret (Some cacheRead, ids)
        end
  end.

(** [5] and the bookkeeping between the commit and it. *)
Definition count_noop (result : LocationReportResponseDto) (wroteAnything : bool) :
    prog ioop unit :=
  if negb (duplicate result) && negb wroteAnything
  then await RecordChangePathNoop else mret tt.

Definition remember_presence (userId : string) (currentAreaIds : list string)
    (result : LocationReportResponseDto) : prog ioop unit :=
  if negb (duplicate result) && presenceMemory
  then await (MemorySet userId currentAreaIds) else mret tt.

Definition invalidate_cache (userId : string) (cacheRead : option PresenceCacheRead) :
    prog ioop unit :=
  invalidated ← cache_invalidate userId;
  if negb invalidated
  then await (RecordInvalidateFailure
         match cacheRead with
         | None | Some CacheError => false
         | Some _ => true
         end)
  else mret tt.

(** [4] and [5]: the change path, and what follows the commit. *)
Definition change_path (dto : ReportLocationDto) (recordedAt : Z)
    (capturedAt : option string) (currentAreaIds : list string)
    (cacheRead : option PresenceCacheRead) : prog ioop LocationReportResponseDto :=
  outcome ← await (Transaction (transition dto recordedAt capturedAt currentAreaIds));
  let '(result, wroteAnything) := outcome in
  count_noop result wroteAnything;;
  remember_presence (dto_userId dto) currentAreaIds result;;
  invalidate_cache (dto_userId dto) cacheRead;;
  mret result.

(** [report(dto, recordedAt)]. *)
Definition report (dto : ReportLocationDto) (recordedAt : Z) :
    prog ioop LocationReportResponseDto :=
  if accuracy_exceeded dto then Throw (accuracy_error num_to_string dto)
  else
    let capturedAt := effective_capturedAt dto in
    currentAreaIds ← await (FindCovering (dto_lng dto) (dto_lat dto));
    hint ← read_hint (dto_userId dto);
    let '(cacheRead, previousHint) := hint in
    if negb (differs currentAreaIds previousHint) then
      (match cacheRead with
       | Some CacheMiss => cache_populate config (dto_userId dto) previousHint
       | _ => mret tt
       end);;
      mret {| enteredAreaIds := []; duplicate := false |}
    else change_path dto recordedAt capturedAt currentAreaIds cacheRead.
End service.
