(* ===== verification/Validation.v ===== *)
(** The request types and their decorators: the [ValidationPipe] of
    [src/src/app.module.ts] with the classes of [src/src/*/dto], and the typed views of
    the requests it lets pass.

    A class is the list of its properties with their constraints. What class-validator
    and class-transformer make of such a list is the interface [ValidationPipe] with
    the laws that their documentation states; the polygon constraint is the
    repository's own and is computed. A request is a JSON object or a query string's
    object; bodies that are not objects are outside of the interface. *)

From S2P Require Import Prelude Num NumZ NumText Js Spatial GeoJson Db Locations Areas Logs.

(** ** Decorators *)

Inductive decorator :=
| IsString
| IsNotEmpty
| MaxLength (max : nat)
| IsNumber
| IsInt
| Min (min : Z)
| Max (max : Z)
| IsDateString
| IsUUID
| IsGeoJsonPolygon.

(** When the constraints of a property count: always, unless it is null or undefined,
    or when a test of the object says so. *)
Inductive condition_of :=
| Always
| IsOptional
| ValidateIf (test : jsval → bool).

(** One property: its name, its initial value, whether [@Type(() => Number)] converts
    it, and its constraints. *)
Record Property := {
  pr_name : string;
  pr_initial : jsval;
  pr_number : bool;
  pr_condition : condition_of;
  pr_checks : list decorator;
}.

Definition DtoClass : Type := list Property.

Definition required (name : string) (checks : list decorator) : Property :=
  {| pr_name := name; pr_initial := JUndefined; pr_number := false; pr_condition := Always;
     pr_checks := checks |}.
Definition optional (name : string) (checks : list decorator) : Property :=
  {| pr_name := name; pr_initial := JUndefined; pr_number := false; pr_condition := IsOptional;
     pr_checks := checks |}.
Definition optional_number (name : string) (initial : nat) (checks : list decorator) : Property :=
  {| pr_name := name; pr_initial := JNum (num_of_Z (Z.of_nat initial)); pr_number := true;
     pr_condition := IsOptional; pr_checks := checks |}.

(** ** The classes *)

Definition is_undefined (v : jsval) : bool :=
  match v with JUndefined => true | _ => false end.

(** [dto.deviceId !== undefined || dto.seq !== undefined]. *)
Definition device_or_seq (dto : jsval) : bool :=
  negb (is_undefined (get_prop "deviceId" dto)) || negb (is_undefined (get_prop "seq" dto)).

Definition ReportLocationDto_class : DtoClass :=
  [required "userId" [IsString; IsNotEmpty; MaxLength USER_ID_MAX_LENGTH];
   required "lat" [IsNumber; Min (-90); Max 90];
   required "lng" [IsNumber; Min (-180); Max 180];
   {| pr_name := "deviceId"; pr_initial := JUndefined; pr_number := false;
      pr_condition := ValidateIf device_or_seq;
      pr_checks := [IsString; IsNotEmpty; MaxLength USER_ID_MAX_LENGTH] |};
   {| pr_name := "seq"; pr_initial := JUndefined; pr_number := false;
      pr_condition := ValidateIf device_or_seq; pr_checks := [IsInt; Min 0] |};
   optional "capturedAt" [IsDateString];
   optional "observedAt" [IsDateString];
   optional "accuracy" [IsNumber; Min 0]].

Definition CreateAreaDto_class : DtoClass :=
  [required "name" [IsString; IsNotEmpty; MaxLength 255];
   required "boundary" [IsGeoJsonPolygon]].

Definition ListAreasQueryDto_class : DtoClass :=
  [optional_number "limit" DEFAULT_AREAS_PAGE_SIZE
     [IsInt; Min 1; Max (Z.of_nat MAX_AREAS_PAGE_SIZE)];
   optional_number "offset" 0 [IsInt; Min 0]].

Definition ListLogsQueryDto_class : DtoClass :=
  [optional "userId" [IsString; MaxLength USER_ID_MAX_LENGTH];
   optional "areaId" [IsUUID];
   optional "from" [IsDateString];
   optional "to" [IsDateString];
   optional "cursor" [IsString];
   optional_number "limit" DEFAULT_LOGS_PAGE_SIZE [IsInt; Min 1; Max (Z.of_nat MAX_LOGS_PAGE_SIZE)]].

(** ** The pipe *)

(** [Number(v)], and [@Type(() => Number)] on a value: each element of an array. *)
Definition Number_of (v : jsval) : number :=
  match v with
  | JNum n => n
  | JStr s => Number_of_text s
  | JBool true => num_of_Z 1
  | JBool false | JNull => num_of_Z 0
  | JUndefined | JArr _ | JObj _ => NaN
  end.

Definition Type_Number (v : jsval) : jsval :=
  match v with
  | JUndefined | JNull => v
  | JArr l => JArr ((λ x, JNum (Number_of x)) <$> l)
  | _ => JNum (Number_of v)
  end.

(** class-validator's tests of one value, class-transformer's [plainToInstance], and
    the pipe: the object it passes on, or the exception it throws. *)
Class ValidationPipe := {
  constraint : decorator → jsval → bool;
  characters : string → nat;
  iso8601 : string → bool;
  uuid : string → bool;
  plainToInstance : DtoClass → list (string * jsval) → jsval;
  validation_messages : DtoClass → list (string * jsval) → list string;
  transform : DtoClass → list (string * jsval) → exn + jsval;
}.

(** What [isLength] of validator (13.15) does not count: a variation selector, U+FE0E
    (bytes EF B8 8E) or U+FE0F (EF B8 8F), that follows another character. [after] says
    that one comes before. *)
Fixpoint presentation_sequences (after : bool) (s : string) : nat :=
  match s with
  | EmptyString => 0
  | String a ((String b (String c s')) as t) =>
      if (Ascii.nat_of_ascii a =? 239) && (Ascii.nat_of_ascii b =? 184) &&
         ((Ascii.nat_of_ascii c =? 142) || (Ascii.nat_of_ascii c =? 143))
      then (if after then 1 else 0) + presentation_sequences false s'
      else presentation_sequences true t
  | String _ t => presentation_sequences true t
  end.

Definition is_nullish (v : jsval) : bool :=
  match v with JUndefined | JNull => true | _ => false end.

(** [new BadRequestException(messages)]. *)
Definition validation_exception (messages : list string) : exn :=
  HttpException 400
    (JObj [("message", JArr (JStr <$> messages)); ("error", JStr "Bad Request");
           ("statusCode", JNum (num_of_Z 400))]) "Bad Request Exception".

Section pipe.
Context `{ValidationPipe}.
Variable num_to_string : number → string.

Definition check (d : decorator) (v : jsval) : bool :=
  match d with
  | IsGeoJsonPolygon => IsGeoJsonPolygon_validate num_to_string v
  | _ => constraint d v
  end.

Definition applies (p : Property) (instance_ : jsval) : bool :=
  match pr_condition p with
  | Always => true
  | IsOptional => negb (is_nullish (get_prop (pr_name p) instance_))
  | ValidateIf test => test instance_
  end.

Definition property_ok (instance_ : jsval) (p : Property) : bool :=
  negb (applies p instance_) ||
  forallb (λ d, check d (get_prop (pr_name p) instance_)) (pr_checks p).

(** [whitelist] with [forbidNonWhitelisted]: every key of the request is declared, but
    for the two that class-transformer drops before the whitelist sees them. *)
Definition dropped_keys : list string := ["__proto__"; "constructor"]%string.

Definition keys_declared (c : DtoClass) (request : list (string * jsval)) : bool :=
  forallb (λ kv, bool_decide (kv.1 ∈ dropped_keys) ||
                 existsb (λ p, bool_decide (pr_name p = kv.1)) c) request.

Definition conforms (c : DtoClass) (request : list (string * jsval)) : bool :=
  keys_declared c request && forallb (property_ok (plainToInstance c request)) c.

(** The documented behaviour: of the constraints; of the conversion, which keeps
    initial values and converts typed properties; and of the pipe with [transform],
    [whitelist] and [forbidNonWhitelisted]. *)
Class ValidationPipeLaws : Prop := {
  law_characters s : characters s = code_points s - presentation_sequences false s;
  law_IsString v : constraint IsString v = true ↔ ∃ s, v = JStr s;
  law_IsNotEmpty v :
    constraint IsNotEmpty v = true ↔ v ≠ JStr "" ∧ v ≠ JNull ∧ v ≠ JUndefined;
  law_MaxLength n v :
    constraint (MaxLength n) v = true ↔ ∃ s, v = JStr s ∧ characters s ≤ n;
  law_IsNumber v : constraint IsNumber v = true ↔ ∃ n, v = JNum n ∧ num_isFinite n = true;
  law_IsInt v : constraint IsInt v = true ↔ ∃ n, v = JNum n ∧ num_isInteger n = true;
  law_Min k v : constraint (Min k) v = true ↔ ∃ n, v = JNum n ∧ num_ge n (num_of_Z k) = true;
  law_Max k v : constraint (Max k) v = true ↔ ∃ n, v = JNum n ∧ num_le n (num_of_Z k) = true;
  law_IsDateString v : constraint IsDateString v = true ↔ ∃ s, v = JStr s ∧ iso8601 s = true;
  law_IsUUID v : constraint IsUUID v = true ↔ ∃ s, v = JStr s ∧ uuid s = true;
  law_instance c request p :
    p ∈ c → NoDup (pr_name <$> c) →
    get_prop (pr_name p) (plainToInstance c request) =
      match assoc_lookup (pr_name p) request with
      | Some v => if pr_number p then Type_Number v else v
      | None => pr_initial p
      end;
  law_accepts c request :
    conforms c request = true → transform c request = inr (plainToInstance c request);
  law_rejects c request :
    conforms c request = false →
    transform c request = inl (validation_exception (validation_messages c request));
}.

(** ** Typed views *)

Definition opt_text (v : jsval) : option string :=
  match v with JStr s => Some s | _ => None end.
Definition opt_num (v : jsval) : option number :=
  match v with JNum n => Some n | _ => None end.
Definition opt_int (v : jsval) : option Z := opt_num v ≫= num_to_Z.

(** What the handlers read of an instance, by the types that the classes declare;
    [null] and [undefined] are the same to them. *)
Definition report_view (v : jsval) : option ReportLocationDto :=
  match get_prop "userId" v, get_prop "lat" v, get_prop "lng" v with
  | JStr userId, JNum lat, JNum lng =>
      Some {| dto_userId := userId; dto_lat := lat; dto_lng := lng;
              dto_deviceId := opt_text (get_prop "deviceId" v);
              dto_seq := opt_int (get_prop "seq" v);
              dto_capturedAt := opt_text (get_prop "capturedAt" v);
              dto_observedAt := opt_text (get_prop "observedAt" v);
              dto_accuracy := opt_num (get_prop "accuracy" v) |}
  | _, _, _ => None
  end.

Definition create_view (v : jsval) : option CreateAreaDto :=
  match get_prop "name" v, decode_polygon (get_prop "boundary" v) with
  | JStr name, Some boundary => Some {| ca_name := name; ca_boundary := boundary |}
  | _, _ => None
  end.

Definition areas_query_view (v : jsval) : option ListAreasQueryDto :=
  limit ← opt_int (get_prop "limit" v);
  offset ← opt_int (get_prop "offset" v);
  Some {| la_limit := Z.to_nat limit; la_offset := offset |}.

Definition logs_query_view (v : jsval) : option ListLogsQueryDto :=
  limit ← opt_int (get_prop "limit" v);
  Some {| lq_userId := opt_text (get_prop "userId" v);
          lq_areaId := opt_text (get_prop "areaId" v);
          lq_from := opt_text (get_prop "from" v);
          lq_to := opt_text (get_prop "to" v);
          lq_cursor := opt_text (get_prop "cursor" v);
          lq_limit := Z.to_nat limit |}.

(** ** What the constraints promise *)

Definition id_ok (s : string) : Prop := s ≠ ""%string ∧ characters s ≤ USER_ID_MAX_LENGTH.

Definition within (n : number) (bound : Z) : Prop :=
  num_isFinite n = true ∧ num_le (num_of_Z (- bound)) n = true ∧ num_le n (num_of_Z bound) = true.

Record report_ok (dto : ReportLocationDto) : Prop := {
  ro_userId : id_ok (dto_userId dto);
  ro_lat : within (dto_lat dto) 90;
  ro_lng : within (dto_lng dto) 180;
  ro_device :
    (dto_deviceId dto = None ∧ dto_seq dto = None) ∨
    (∃ d s, dto_deviceId dto = Some d ∧ dto_seq dto = Some s ∧ id_ok d ∧ (0 ≤ s)%Z);
  ro_dates s : dto_capturedAt dto = Some s ∨ dto_observedAt dto = Some s → iso8601 s = true;
  ro_accuracy a : dto_accuracy dto = Some a →
    num_isFinite a = true ∧ num_le (num_of_Z 0) a = true;
}.

Record create_ok (dto : CreateAreaDto) : Prop := {
  co_name : ca_name dto ≠ ""%string;
  co_length : characters (ca_name dto) ≤ 255;
  co_boundary : boundary_wf (ca_boundary dto);
}.

Record logs_query_ok (q : ListLogsQueryDto) : Prop := {
  lo_limit : logs_limit_valid q = true;
  lo_userId u : lq_userId q = Some u → characters u ≤ USER_ID_MAX_LENGTH;
  lo_areaId a : lq_areaId q = Some a → uuid a = true;
  lo_dates s : lq_from q = Some s ∨ lq_to q = Some s → iso8601 s = true;
}.

(** The query string's object: texts, or arrays and objects of them. *)
Definition query_object (request : list (string * jsval)) : Prop :=
  ∀ k v, assoc_lookup k request = Some v →
    match v with JStr _ | JArr _ | JObj _ => True | _ => False end.

(** ** Lemmas *)

Context `{!ValidationPipeLaws}.

Lemma transform_accepted c request v :
  transform c request = inr v → conforms c request = true ∧ v = plainToInstance c request.
Proof.
  intros Ht. destruct (conforms c request) eqn:E.
  - rewrite law_accepts in Ht by done. by injection Ht as <-.
  - rewrite law_rejects in Ht by done. done.
Qed.

(** A property of an accepted request satisfies its constraints when they apply. *)
Lemma conforms_property c request i p :
  conforms c request = true → c !! i = Some p → applies p (plainToInstance c request) = true →
  Forall (λ d, check d (get_prop (pr_name p) (plainToInstance c request)) = true) (pr_checks p).
Proof.
  intros [_ Hall]%andb_true_iff Hp Ha. rewrite forallb_forall in Hall.
  apply list_elem_of_lookup_2, list_elem_of_In in Hp. specialize (Hall p Hp). unfold property_ok in Hall.
  rewrite Ha in Hall. cbn [negb orb] in Hall. rewrite forallb_forall in Hall.
  apply Forall_forall. intros d Hd. apply Hall. by apply list_elem_of_In.
Qed.

Definition optional_ok (P : jsval → Prop) (v : jsval) : Prop :=
  v = JNull ∨ v = JUndefined ∨ P v.

Lemma conforms_optional c request i p :
  conforms c request = true → c !! i = Some p → pr_condition p = IsOptional →
  optional_ok (λ v, Forall (λ d, check d v = true) (pr_checks p))
    (get_prop (pr_name p) (plainToInstance c request)).
Proof.
  intros Hc Hp Ho. unfold optional_ok.
  destruct (is_nullish (get_prop (pr_name p) (plainToInstance c request))) eqn:E.
  - destruct (get_prop _ _); try done; auto.
  - right; right. eapply conforms_property; [done|done|]. unfold applies. by rewrite Ho, E.
Qed.

Lemma id_checks v :
  Forall (λ d, check d v = true) [IsString; IsNotEmpty; MaxLength USER_ID_MAX_LENGTH] →
  ∃ s, v = JStr s ∧ id_ok s.
Proof.
  rewrite !Forall_cons. intros (Hs & Hn & Hl & _). cbn [check] in *.
  apply law_IsString in Hs as [s ->]. apply law_IsNotEmpty in Hn as (Hn & _).
  apply law_MaxLength in Hl as (s' & [= <-] & Hl). exists s. split; [done|].
  split; [|done]. by intros ->.
Qed.

Lemma range_checks k v :
  Forall (λ d, check d v = true) [IsNumber; Min (- k); Max k] → ∃ n, v = JNum n ∧ within n k.
Proof.
  rewrite !Forall_cons. intros (Hn & Hl & Hu & _). cbn [check] in *.
  apply law_IsNumber in Hn as (n & -> & Hf). apply law_Min in Hl as (n' & [= <-] & Hl).
  apply law_Max in Hu as (n' & [= <-] & Hu). by exists n.
Qed.

Lemma int_checks v :
  Forall (λ d, check d v = true) [IsInt; Min 0] → ∃ z, opt_int v = Some z ∧ (0 ≤ z)%Z.
Proof.
  rewrite !Forall_cons. intros (Hn & Hl & _). cbn [check] in *.
  apply law_IsInt in Hn as (n & -> & Hi). apply law_Min in Hl as (n' & [= <-] & Hl).
  unfold num_isInteger in Hi. destruct (num_to_Z n) as [z|] eqn:E; [|done].
  exists z. split; [done|]. by eapply (num_to_Z_ge n z 0).
Qed.

Lemma date_checks v : check IsDateString v = true → ∃ s, v = JStr s ∧ iso8601 s = true.
Proof. apply law_IsDateString. Qed.

Lemma optional_date c request i p s :
  conforms c request = true → c !! i = Some p → pr_condition p = IsOptional →
  pr_checks p = [IsDateString] →
  opt_text (get_prop (pr_name p) (plainToInstance c request)) = Some s → iso8601 s = true.
Proof.
  intros Hc Hp Ho Hd. pose proof (conforms_optional c request i p Hc Hp Ho) as Hv. rewrite Hd in Hv.
  destruct Hv as [-> |[-> |Hv]]; [done|done|]. apply Forall_cons in Hv as [Hv _].
  apply date_checks in Hv as (s' & -> & Hs). by intros [= <-].
Qed.

(** Both or neither. *)
Lemma device_and_seq request :
  conforms ReportLocationDto_class request = true →
  let v := plainToInstance ReportLocationDto_class request in
  (opt_text (get_prop "deviceId" v) = None ∧ opt_int (get_prop "seq" v) = None) ∨
  (∃ d s, opt_text (get_prop "deviceId" v) = Some d ∧ opt_int (get_prop "seq" v) = Some s ∧
     id_ok d ∧ (0 ≤ s)%Z).
Proof.
  intros Hc v. destruct (device_or_seq v) eqn:E.
  - right. pose proof (λ i p Hp, conforms_property _ request i p Hc Hp) as Hall. fold v in Hall.
    destruct (id_checks (get_prop "deviceId" v)) as (d & -> & Hd).
    { by apply (Hall 3 _ eq_refl). }
    destruct (int_checks (get_prop "seq" v)) as (s & -> & Hs).
    { by apply (Hall 4 _ eq_refl). }
    by exists d, s.
  - left. unfold device_or_seq in E. apply orb_false_iff in E as [E1 E2].
    by destruct (get_prop "deviceId" v), (get_prop "seq" v).
Qed.

Lemma report_accepted request v :
  transform ReportLocationDto_class request = inr v →
  ∃ dto, report_view v = Some dto ∧ report_ok dto.
Proof.
  intros [Hc ->]%transform_accepted. set (v := plainToInstance _ _).
  pose proof (λ i p Hp, conforms_property _ request i p Hc Hp) as Hall. fold v in Hall.
  destruct (id_checks (get_prop "userId" v)) as (u & Hu & Hid).
  { by apply (Hall 0 _ eq_refl). }
  destruct (range_checks 90 (get_prop "lat" v)) as (lat & Hlat & Hlatr).
  { by apply (Hall 1 _ eq_refl). }
  destruct (range_checks 180 (get_prop "lng" v)) as (lng & Hlng & Hlngr).
  { by apply (Hall 2 _ eq_refl). }
  unfold report_view. rewrite Hu, Hlat, Hlng. eexists. split; [done|]. split; try done.
  - by apply device_and_seq.
  - intros s [Hs|Hs]; cbn [dto_capturedAt dto_observedAt] in Hs.
    + by eapply (optional_date _ request 5).
    + by eapply (optional_date _ request 6).
  - intros a Ha. cbn [dto_accuracy] in Ha.
    destruct (conforms_optional _ request 7 _ Hc eq_refl eq_refl) as [Hn|[Hn|Hn]];
      cbn [pr_name pr_checks optional] in Hn; fold v in Hn; [by rewrite Hn in Ha..|].
    rewrite !Forall_cons in Hn. destruct Hn as (Hn & Hl & _). cbn [check] in *.
    apply law_IsNumber in Hn as (n & Hn & Hf). rewrite Hn in *.
    apply law_Min in Hl as (n' & [= <-] & Hl). by injection Ha as <-.
Qed.

Lemma create_accepted request v :
  transform CreateAreaDto_class request = inr v →
  ∃ dto, create_view v = Some dto ∧ create_ok dto.
Proof.
  intros [Hc ->]%transform_accepted. set (v := plainToInstance _ _).
  pose proof (λ i p Hp, conforms_property _ request i p Hc Hp) as Hall. fold v in Hall.
  pose proof (Hall 0 _ eq_refl eq_refl) as Hname. cbn [pr_name pr_checks required] in Hname.
  pose proof (Hall 1 _ eq_refl eq_refl) as Hb. cbn [pr_name pr_checks required] in Hb.
  apply Forall_cons in Hb as [Hb _]. cbn [check] in Hb.
  apply validate_failure, valid_polygon_decodes in Hb as (outer & holes & Hd & Hnan).
  rewrite !Forall_cons in Hname. destruct Hname as (Hs & Hn & Hl & _). cbn [check] in *.
  apply law_IsString in Hs as [s Hs]. rewrite Hs in *. apply law_IsNotEmpty in Hn as (Hn & _).
  apply law_MaxLength in Hl as (s' & [= <-] & Hl). unfold create_view. rewrite Hs, Hd.
  eexists. split; [done|]. split; [by intros E; destruct Hn; f_equal|done|by exists outer, holes].
Qed.

(** A typed property of a query: an initial value or what [Number] makes of a text. *)
Lemma query_number c request i p k :
  query_object request → conforms c request = true → c !! i = Some p →
  NoDup (pr_name <$> c) → pr_number p = true → pr_initial p = JNum (num_of_Z k) →
  pr_condition p = IsOptional → IsInt ∈ pr_checks p →
  ∃ n z, get_prop (pr_name p) (plainToInstance c request) = JNum n ∧ rounded n ∧
    num_to_Z n = Some z ∧ Forall (λ d, check d (JNum n) = true) (pr_checks p).
Proof.
  intros Hq Hc Hp Hnd Hnum Hinit Hopt Hint.
  pose proof (law_instance c request p (list_elem_of_lookup_2 _ _ _ Hp) Hnd) as Hv.
  rewrite Hnum, Hinit in Hv.
  assert (Hchecks : ∀ n, get_prop (pr_name p) (plainToInstance c request) = JNum n → rounded n →
    ∃ n z, get_prop (pr_name p) (plainToInstance c request) = JNum n ∧ rounded n ∧
      num_to_Z n = Some z ∧ Forall (λ d, check d (JNum n) = true) (pr_checks p)).
  { intros n Hn Hr. destruct (conforms_optional c request i p Hc Hp Hopt) as [E|[E|E]];
      [congruence..|]. rewrite Hn in E. pose proof (proj1 (Forall_forall _ _) E _ Hint) as Hi.
    apply law_IsInt in Hi as (n' & [= <-] & Hi). unfold num_isInteger in Hi.
    destruct (num_to_Z n) as [z|] eqn:Ez; [|done]. by exists n, z. }
  destruct (assoc_lookup (pr_name p) request) as [w|] eqn:Ew.
  - specialize (Hq _ _ Ew). destruct w as [| | | |s|l|fields]; try done; cbn [Type_Number] in Hv.
    + apply (Hchecks _ Hv), Number_of_text_rounded.
    + destruct (conforms_optional c request i p Hc Hp Hopt) as [E|[E|E]]; [congruence..|].
      rewrite Hv in E. pose proof (proj1 (Forall_forall _ _) E _ Hint) as Hi.
      by apply law_IsInt in Hi as (n & [=] & _).
    + by apply (Hchecks _ Hv).
  - apply (Hchecks _ Hv), num_of_Z_rounded.
Qed.

(** The constraints of a page size. *)
Lemma limit_checks n z k :
  rounded n → num_to_Z n = Some z → 0 < k < 1000 →
  Forall (λ d, check d (JNum n) = true) [IsInt; Min 1; Max (Z.of_nat k)] →
  1 ≤ Z.to_nat z ≤ k.
Proof.
  intros Hr Hz Hk. rewrite !Forall_cons. intros (_ & Hl & Hu & _). cbn [check] in *.
  apply law_Min in Hl as (n' & [= <-] & Hl). apply law_Max in Hu as (n' & [= <-] & Hu).
  apply (num_to_Z_ge _ _ 1 Hz) in Hl; [|lia].
  apply (num_to_Z_le _ _ _ Hr Hz) in Hu; [|unfold two53; lia]. lia.
Qed.

Lemma areas_query_accepted request v :
  query_object request → transform ListAreasQueryDto_class request = inr v →
  ∃ q, areas_query_view v = Some q ∧ list_query_valid q = true.
Proof.
  intros Hq [Hc ->]%transform_accepted.
  assert (Hnd : NoDup (pr_name <$> ListAreasQueryDto_class)) by (apply (bool_decide_unpack _); done).
  destruct (query_number _ request 0 _ (Z.of_nat DEFAULT_AREAS_PAGE_SIZE) Hq Hc eq_refl Hnd)
    as (n & z & Hn & Hr & Hz & Hall); [done..|by left|].
  destruct (query_number _ request 1 _ 0 Hq Hc eq_refl Hnd)
    as (n' & z' & Hn' & _ & Hz' & Hall'); [done..|by left|].
  cbn [pr_name pr_checks optional_number] in *.
  apply (limit_checks n z) in Hall; [|done|done|unfold MAX_AREAS_PAGE_SIZE; lia].
  rewrite !Forall_cons in Hall'. destruct Hall' as (_ & Hl & _). cbn [check] in Hl.
  apply law_Min in Hl as (? & [= <-] & Hl). apply (num_to_Z_ge _ _ 0 Hz') in Hl; [|lia].
  unfold areas_query_view. rewrite Hn, Hn'. unfold opt_int. cbn [opt_num mbind option_bind].
  rewrite Hz, Hz'. eexists. split; [done|]. unfold list_query_valid. cbn [la_limit la_offset].
  rewrite !andb_true_iff, !Nat.leb_le, Z.leb_le. lia.
Qed.

Lemma logs_query_accepted request v :
  query_object request → transform ListLogsQueryDto_class request = inr v →
  ∃ q, logs_query_view v = Some q ∧ logs_query_ok q.
Proof.
  intros Hq [Hc ->]%transform_accepted.
  assert (Hnd : NoDup (pr_name <$> ListLogsQueryDto_class)) by (apply (bool_decide_unpack _); done).
  destruct (query_number _ request 5 _ (Z.of_nat DEFAULT_LOGS_PAGE_SIZE) Hq Hc eq_refl Hnd)
    as (n & z & Hn & Hr & Hz & Hall); [done..|by left|].
  cbn [pr_name pr_checks optional_number] in *.
  apply (limit_checks n z) in Hall; [|done|done|unfold MAX_LOGS_PAGE_SIZE; lia].
  unfold logs_query_view. rewrite Hn. unfold opt_int. cbn [opt_num mbind option_bind].
  rewrite Hz. eexists. split; [done|]. split; cbn [lq_limit lq_userId lq_areaId lq_from lq_to].
  - unfold logs_limit_valid. cbn [lq_limit]. rewrite andb_true_iff, !Nat.leb_le. lia.
  - intros u Hu. destruct (conforms_optional _ request 0 _ Hc eq_refl eq_refl) as [E|[E|E]];
      cbn [pr_name pr_checks optional] in E; [by rewrite E in Hu..|].
    rewrite !Forall_cons in E. destruct E as (_ & E & _).
    apply law_MaxLength in E as (s & E & Hs). rewrite E in Hu. by injection Hu as <-.
  - intros a Ha. destruct (conforms_optional _ request 1 _ Hc eq_refl eq_refl) as [E|[E|E]];
      cbn [pr_name pr_checks optional] in E; [by rewrite E in Ha..|].
    apply Forall_cons in E as [E _]. apply law_IsUUID in E as (s & E & Hs).
    rewrite E in Ha. by injection Ha as <-.
  - intros s [Hs|Hs]; [by eapply (optional_date _ request 2)|by eapply (optional_date _ request 3)].
Qed.
End pipe.
