(* ===== verification/Transition.v ===== *)
(** The transaction of the transition processor: what it reads, what it writes, and
    that nothing but its authoritative read decides it. *)

From S2P Require Import Prelude Num Js Prog Db World Presence Locations.

(** ** The specification of a move *)

(** The part of a log row the program chooses; its id is PostgreSQL's. *)
Definition log_view (r : LogRow) : string * string * Z * option string :=
  (log_user_id r, log_area_id r, log_recorded_at r, log_captured_at r).

(** [userId] is now exactly in [cur]: memberships that stay keep their row, new ones
    get a row stamped [rec] and one log each, in the order of their ids; memberships
    that ended lose their row and leave no trace; nothing else changes. *)
Record moved (u : string) (rec : Z) (cap : option string) (cur : list string)
    (db db' : Db) : Prop := {
  moved_presence a :
    user_area_presence db' !! (u, a) =
      if decide (a ∈ cur)
      then Some (default {| entered_at := rec; last_seen_at := rec |}
                   (user_area_presence db !! (u, a)))
      else None;
  moved_others v a :
    v ≠ u → user_area_presence db' !! (v, a) = user_area_presence db !! (v, a);
  moved_logs :
    log_view <$> logs db' =
      (log_view <$> logs db) ++
      ((λ a, (u, a, rec, cap)) <$>
         js_sort (list_minus cur (presence_of u (user_area_presence db))));
  moved_areas : areas db' = areas db;
  moved_version : area_version db' = area_version db;
  moved_event_state : user_event_state db' = user_event_state db;
}.

(** One iteration of the loop when the insert returns a row. *)
Definition enter_area (u : string) (rec : Z) (cap : option string) (db : Db) (a : string) : Db :=
  append_log u a rec cap
    (set_presence (<[ (u, a) := {| entered_at := rec; last_seen_at := rec |} ]>
                     (user_area_presence db)) db).

(** A program that lets the exception of every operation escape. *)
Fixpoint propagates {E A} (p : prog E A) : Prop :=
  match p with
  | Ret _ | Throw _ => True
  | Vis op k => (∀ e, k (inl e) = Throw e) ∧ ∀ x, propagates (k (inr x))
  end.

(** The undisturbed execution of a transaction's body. *)
Definition tx_run `{PostGIS} {X} (body : prog sql X) (db : Db) : (exn + X) * Db :=
  (run exec_statement body [] db).1.

(** ** Propagation *)

Lemma propagates_bind {E A B} (p : prog E A) (f : A → prog E B) :
  propagates p → (∀ a, propagates (f a)) → propagates (p ≫= f).
Proof.
  intros Hp Hf. induction p as [a|e|X op k IH]; [apply Hf|done|].
  destruct Hp as [He Hx]. split.
  - intros e. simpl. by rewrite He.
  - intros x. apply IH, Hx.
Qed.

Lemma propagates_await {E X} (op : E X) : propagates (await op).
Proof. by split. Qed.

Lemma propagates_insert_entered u rec cap entered acc :
  propagates (insert_entered u rec cap entered acc).
Proof.
  revert acc. induction entered as [|a entered IH]; intros acc; simpl; [done|].
  split; [done|]. intros inserted. simpl. case_decide; [|apply IH].
  split; [done|]. intros []. apply IH.
Qed.

Lemma propagates_transition dto rec cap cur : propagates (transition dto rec cap cur).
Proof.
  unfold transition. apply propagates_bind; [apply propagates_await|]. intros prev.
  apply propagates_bind.
  - unfold dedup_in_transaction.
    destruct (dto_deviceId dto), (dto_seq dto); simpl; try done.
    split; [done|]. intros rows. simpl. by destruct (match rows with [] => _ | _ => _ end).
  - intros []; [done|]. apply propagates_bind; [apply propagates_insert_entered|].
    intros ids. apply propagates_bind; [|done]. by case_decide.
Qed.

Section tx.
Context `{PostGIS}.

Lemma run_exec_statement_ok {X} (q : sql X) db :
  exec_statement X FOk q db =
    match exec_sql q db with inl e => (inl e, db) | inr (x, db') => (inr x, db') end.
Proof. done. Qed.

Lemma exec_statement_fault {X} f (q : sql X) db x db' :
  exec_statement X f q db = (inr x, db') → exec_statement X FOk q db = (inr x, db').
Proof. destruct f; simpl; congruence. Qed.

(** A body that succeeds in spite of a schedule of statement faults did what it
    does undisturbed. *)
Lemma propagates_run {X} (body : prog sql X) fs db x db' fs' :
  propagates body → run exec_statement body fs db = (inr x, db', fs') →
  tx_run body db = (inr x, db').
Proof.
  unfold tx_run. revert fs db. induction body as [a|e|Y op k IH]; intros fs db Hp; simpl.
  - by intros [= -> -> _].
  - done.
  - destruct Hp as [He Hx].
    destruct (exec_statement _ (default FOk (head fs)) op db) as [[e|y] db1] eqn:E1.
    + rewrite He. done.
    + apply exec_statement_fault in E1. simpl in E1. rewrite E1. apply IH, Hx.
Qed.

(** One that fails failed by a fault of the schedule, or does so undisturbed. *)
Lemma propagates_run_fails {X} (body : prog sql X) fs db e db' fs' :
  propagates body → run exec_statement body fs db = (inl e, db', fs') →
  raises (λ f, f ∈ fs) e ∨ ∃ db2, tx_run body db = (inl e, db2).
Proof.
  unfold tx_run. revert fs db. induction body as [a|e'|Y op k IH]; intros fs db Hp; simpl.
  - done.
  - intros [= -> -> _]. right. by eexists.
  - destruct Hp as [He Hx]. destruct fs as [|f fs]; cbn [head tail default from_option].
    { intros Hrun. right. exists db'. simpl in Hrun.
      destruct (exec_sql op db) as [e1|[y db1]]; by rewrite Hrun. }
    unfold id.
    destruct (exec_statement _ f op db) as [[e1|y] db1] eqn:E1.
    + rewrite He. cbn [run]. intros [= -> _ _].
      destruct f as [|e2|e2|n e2]; cbn [exec_statement] in E1;
        [|left; eexists; split; [by left|]; by injection E1 as -> ..].
      right. rewrite E1, He. by eexists.
    + intros Hrun. apply exec_statement_fault in E1. simpl in E1. rewrite E1.
      destruct (IH _ fs db1 (Hx y) Hrun) as [(g & Hg & ?)|?]; [left|by right].
      exists g. split; [by right|done].
Qed.

(** What a transaction can do: nothing, or its body's undisturbed effect; and when
    its effect is kept although the caller sees an error, the answer was lost. *)
Lemma exec_transaction_cases {X} f (body : prog sql X) db r db' :
  propagates body → exec_transaction f body db = (r, db') →
  (∃ x, r = inr x ∧ tx_run body db = (inr x, db')) ∨
  (∃ e, r = inl e ∧ db' = db ∧ (raised f = Some e ∨ ∃ db2, tx_run body db = (inl e, db2))) ∨
  (∃ e x, f = FLost e ∧ r = inl e ∧ tx_run body db = (inr x, db')).
Proof.
  intros Hp. unfold exec_transaction. destruct f as [|e|e|n e].
  - destruct (run _ _ _ _) as [[[e|x] db1] fs'] eqn:E; intros [= <- <-].
    + right; left. exists e. split_and!; [done..|]. right. exists db1.
      unfold tx_run. by rewrite E.
    + left. exists x. split; [done|]. by eapply propagates_run.
  - intros [= <- <-]. right; left. exists e. split_and!; [done..|]. by left.
  - destruct (run _ _ _ _) as [[[e'|x] db1] fs'] eqn:E; intros [= <- <-].
    { right; left. exists e'. split_and!; [done..|]. right. exists db1. unfold tx_run. by rewrite E. }
    right; right. exists e, x. split_and!; [done..|]. by eapply propagates_run.
  - destruct (run _ _ _ _) as [[[e'|x] db1] fs'] eqn:E; intros [= <- <-].
    { right; left. exists e'. split_and!; [done..|].
      apply propagates_run_fails in E as [[g [Hg He]]|Htx]; [left|by right|done].
      by apply elem_of_app in Hg as [[-> _]%elem_of_replicate|Hl%list_elem_of_singleton]; subst. }
    left. exists x. split; [done|]. by eapply propagates_run.
Qed.

Lemma exec_transaction_ok {X} (body : prog sql X) db :
  exec_transaction FOk body db =
    match tx_run body db with (inr x, db') => (inr x, db') | (inl e, _) => (inl e, db) end.
Proof.
  unfold exec_transaction, tx_run. by destruct (run _ _ _ _) as [[[e|x] db'] fs'].
Qed.

(** ** The loop *)

Lemma tx_run_bind_rest {A B} (p : prog sql A) (f : A → prog sql B) db :
  tx_run (p ≫= f) db =
    match tx_run p db with
    | (inr a, db') => (run exec_statement (f a) (run exec_statement p [] db).2 db').1
    | (inl e, db') => (inl e, db')
    end.
Proof.
  unfold tx_run. rewrite run_bind.
  by destruct (run exec_statement p [] db) as [[[e|a] db'] fs'].
Qed.

Lemma run_nil_rest {X} (p : prog sql X) db : (run exec_statement p [] db).2 = [].
Proof.
  revert db. induction p as [a|e|Y op k IH]; intros db; simpl; [done..|].
  destruct (match exec_sql op db with inl e => _ | inr _ => _ end) as [r db'].
  apply IH.
Qed.

Lemma tx_run_bind {A B} (p : prog sql A) (f : A → prog sql B) db :
  tx_run (p ≫= f) db =
    match tx_run p db with
    | (inr a, db') => tx_run (f a) db'
    | (inl e, db') => (inl e, db')
    end.
Proof. rewrite tx_run_bind_rest, run_nil_rest. done. Qed.

Lemma tx_run_await {X} (q : sql X) db :
  tx_run (await q) db =
    match exec_sql q db with inl e => (inl e, db) | inr (x, db') => (inr x, db') end.
Proof.
  unfold tx_run. simpl. by destruct (exec_sql q db) as [e|[x db']].
Qed.

Lemma tx_run_ret {X} (x : X) db : tx_run (mret x) db = (inr x, db).
Proof. done. Qed.

(** The first iteration of the loop that fails, with its exception: the area is gone, or
    the server refuses the time of capture. *)
Fixpoint insert_failure (cap : option string) (entered : list string) (db : Db) : option exn :=
  match entered with
  | [] => None
  | a :: entered =>
      match areas db !! a, captured_error cap with
      | None, _ => Some fk_presence_area
      | Some _, Some e => Some e
      | Some _, None => insert_failure cap entered db
      end
  end.

Lemma insert_failure_areas cap entered db db' :
  areas db' = areas db → insert_failure cap entered db' = insert_failure cap entered db.
Proof.
  intros Ha. induction entered as [|a entered IH]; [done|]. simpl. by rewrite Ha, IH.
Qed.

Lemma insert_failure_None cap entered db :
  captured_error cap = None →
  insert_failure cap entered db = None ↔ ∀ a, a ∈ entered → is_Some (areas db !! a).
Proof.
  intros Hc. induction entered as [|a entered IH]; simpl.
  { split; [|done]. intros _ a Ha. by apply not_elem_of_nil in Ha. }
  rewrite Hc. destruct (areas db !! a) as [row|] eqn:Ha.
  - rewrite IH. split; [|intros Hall b Hb; apply Hall; by right].
    intros Hall b [->|Hb]%elem_of_cons; [by eexists|by apply Hall].
  - split; [done|]. intros Hall. destruct (Hall a) as [row Hrow]; [by left|]. congruence.
Qed.

(** The undisturbed loop: everything is inserted, or the first failure escapes. *)
Lemma insert_entered_run u rec cap entered acc db :
  NoDup entered →
  (∀ a, a ∈ entered → user_area_presence db !! (u, a) = None) →
  match insert_failure cap entered db with
  | None => tx_run (insert_entered u rec cap entered acc) db =
              (inr (acc ++ entered), foldl (enter_area u rec cap) db entered)
  | Some e => ∃ db', tx_run (insert_entered u rec cap entered acc) db = (inl e, db')
  end.
Proof.
  revert acc db. induction entered as [|a entered IH]; intros acc db Hnd Hnew.
  - cbn. by rewrite app_nil_r.
  - apply NoDup_cons in Hnd as [Hni Hnd].
    cbn [insert_entered insert_failure]. rewrite tx_run_bind, tx_run_await. cbn [exec_sql].
    rewrite (Hnew a) by (by left).
    destruct (areas db !! a) as [row|] eqn:Hrow; [|by eexists].
    rewrite decide_True by (simpl; lia).
    rewrite tx_run_bind, tx_run_await. cbn [exec_sql]. cbn [areas set_presence].
    rewrite Hrow. destruct (captured_error cap) as [e|]; [by eexists|]. cbn [foldl].
    change (append_log _ _ _ _ _) with (enter_area u rec cap db a).
    rewrite <- (insert_failure_areas cap entered db (enter_area u rec cap db a)) by done.
    specialize (IH (acc ++ [a]) (enter_area u rec cap db a) Hnd).
    rewrite <- app_assoc in IH. apply IH.
    intros b Hb. unfold enter_area; simpl. rewrite lookup_insert_ne; [|congruence].
    apply Hnew. by right.
Qed.

Lemma enter_areas_presence u rec cap entered db v a :
  NoDup entered →
  user_area_presence (foldl (enter_area u rec cap) db entered) !! (v, a) =
    if decide (v = u ∧ a ∈ entered)
    then Some {| entered_at := rec; last_seen_at := rec |}
    else user_area_presence db !! (v, a).
Proof.
  revert db. induction entered as [|b entered IH]; intros db Hnd; cbn [foldl].
  - rewrite decide_False; [done|]. intros [_ Hb]. by apply not_elem_of_nil in Hb.
  - apply NoDup_cons in Hnd as [Hni Hnd]. rewrite IH by done. unfold enter_area; simpl.
    destruct (decide (v = u ∧ a ∈ entered)) as [[-> Ha]|Hn].
    + rewrite decide_True; [done|]. split; [done|by right].
    + destruct (decide ((u, b) = (v, a))) as [[= -> ->]|Hne].
      * rewrite lookup_insert_eq, decide_True; [done|]. split; [done|by left].
      * rewrite lookup_insert_ne by done. rewrite decide_False; [done|].
        intros [-> [->|Hb]%elem_of_cons]; tauto.
Qed.

Lemma enter_areas_rest u rec cap entered db :
  let db' := foldl (enter_area u rec cap) db entered in
  log_view <$> logs db' = (log_view <$> logs db) ++ ((λ a, (u, a, rec, cap)) <$> entered) ∧
  areas db' = areas db ∧ area_version db' = area_version db ∧
  user_event_state db' = user_event_state db.
Proof.
  revert db. induction entered as [|a entered IH]; intros db; cbn [foldl].
  - by rewrite app_nil_r.
  - destruct (IH (enter_area u rec cap db a)) as (Hl & Ha & Hv & Hs).
    cbv zeta. rewrite Hl, Ha, Hv, Hs. split_and!; [|done..].
    unfold enter_area; simpl. by rewrite fmap_app, <- app_assoc.
Qed.

(** ** The transaction *)

(** The areas the move enters, from the read under the lock. *)
Definition entered_of (u : string) (cur : list string) (db : Db) : list string :=
  js_sort (list_minus cur (presence_of u (user_area_presence db))).
Definition departed_of (u : string) (cur : list string) (db : Db) : list string :=
  list_minus (presence_of u (user_area_presence db)) cur.

Lemma elem_of_entered_of u cur db a :
  a ∈ entered_of u cur db ↔ a ∈ cur ∧ user_area_presence db !! (u, a) = None.
Proof.
  unfold entered_of. rewrite elem_of_js_sort, elem_of_list_minus, elem_of_presence_of.
  by rewrite <- eq_None_not_Some.
Qed.

Lemma elem_of_departed_of u cur db a :
  a ∈ departed_of u cur db ↔ is_Some (user_area_presence db !! (u, a)) ∧ a ∉ cur.
Proof. unfold departed_of. by rewrite elem_of_list_minus, elem_of_presence_of. Qed.

Lemma NoDup_entered_of u cur db : NoDup cur → NoDup (entered_of u cur db).
Proof. intros. unfold entered_of. apply NoDup_js_sort. by apply NoDup_list_minus. Qed.

(** The end of the body, after the de-duplication. *)
Definition transition_writes (u : string) (rec : Z) (cap : option string)
    (cur : list string) (db : Db) : Db :=
  let db1 := foldl (enter_area u rec cap) db (entered_of u cur db) in
  if decide (0 < length (departed_of u cur db))
  then set_presence (filter (λ kv, ¬ (kv.1.1 = u ∧ kv.1.2 ∈ departed_of u cur db))
                       (user_area_presence db1)) db1
  else db1.

Lemma transition_writes_moved u rec cap cur db :
  NoDup cur → moved u rec cap cur db (transition_writes u rec cap cur db).
Proof.
  intros Hnd. pose proof (NoDup_entered_of u cur db Hnd) as Hent.
  pose proof (enter_areas_presence u rec cap (entered_of u cur db) db) as Hp.
  destruct (enter_areas_rest u rec cap (entered_of u cur db) db) as (Hl & Ha & Hv & Hs).
  assert (Hpres : ∀ v a, user_area_presence (transition_writes u rec cap cur db) !! (v, a) =
    if decide (v = u ∧ a ∈ departed_of u cur db) then None
    else if decide (v = u ∧ a ∈ entered_of u cur db)
      then Some {| entered_at := rec; last_seen_at := rec |}
      else user_area_presence db !! (v, a)).
  { intros v a. unfold transition_writes. rewrite <- Hp by done. case_decide as Hd.
    - simpl. rewrite map_lookup_filter.
      destruct (user_area_presence _ !! (v, a)) as [row|]; simpl; [|by case_decide].
      case_guard; case_decide; simpl; tauto.
    - destruct (departed_of u cur db) as [|d l]; [|simpl in Hd; lia].
      rewrite decide_False; [done|]. intros [_ Hb]. by apply not_elem_of_nil in Hb. }
  assert (Hrest : ∀ (T : Type) (proj : Db → T), (∀ p d, proj (set_presence p d) = proj d) →
    proj (transition_writes u rec cap cur db) =
    proj (foldl (enter_area u rec cap) db (entered_of u cur db))).
  { intros T proj Hproj. unfold transition_writes. case_decide; [apply Hproj|done]. }
  split.
  - intros a. rewrite Hpres. pose proof (elem_of_departed_of u cur db a) as Hdep.
    pose proof (elem_of_entered_of u cur db a) as Hen.
    destruct (user_area_presence db !! (u, a)) as [row|]; simpl;
      repeat case_decide; naive_solver.
  - intros v a Hv'. rewrite Hpres. rewrite !decide_False by tauto. done.
  - rewrite (Hrest _ (λ d, log_view <$> logs d)) by done. apply Hl.
  - rewrite (Hrest _ areas) by done. apply Ha.
  - rewrite (Hrest _ area_version) by done. apply Hv.
  - rewrite (Hrest _ user_event_state) by done. apply Hs.
Qed.

(** An event without a de-duplication identity (every event of the worker). *)
Definition no_dedup (dto : ReportLocationDto) : Prop :=
  dto_deviceId dto = None ∨ dto_seq dto = None.

Lemma dedup_skipped dto rec : no_dedup dto → dedup_in_transaction dto rec = mret false.
Proof.
  unfold no_dedup, dedup_in_transaction. intros [-> | ->]; [done|].
  by destruct (dto_deviceId dto).
Qed.

Definition wrote_anything (u : string) (cur : list string) (db : Db) : bool :=
  bool_decide (0 < length (entered_of u cur db) ∨ 0 < length (departed_of u cur db)).

(** The exception with which the writes of a move fail, if they do. *)
Definition move_failure (u : string) (cap : option string) (cur : list string) (db : Db) :
    option exn := insert_failure cap (entered_of u cur db) db.

(** Without a de-duplication identity the transaction moves the user, or fails with the
    first exception of its loop. *)
Lemma transition_run dto rec cap cur db :
  no_dedup dto → NoDup cur →
  match move_failure (dto_userId dto) cap cur db with
  | None => tx_run (transition dto rec cap cur) db =
      (inr ({| enteredAreaIds := entered_of (dto_userId dto) cur db; duplicate := false |},
            wrote_anything (dto_userId dto) cur db),
       transition_writes (dto_userId dto) rec cap cur db)
  | Some e => ∃ db', tx_run (transition dto rec cap cur) db = (inl e, db')
  end.
Proof.
  intros Hdd Hnd. unfold transition, lockAndReadPresence, move_failure.
  rewrite tx_run_bind, tx_run_await. cbn [exec_sql].
  rewrite tx_run_bind, dedup_skipped, tx_run_ret by done.
  rewrite tx_run_bind.
  change (js_sort _) with (entered_of (dto_userId dto) cur db).
  change (list_minus (presence_of _ _) cur) with (departed_of (dto_userId dto) cur db).
  pose proof (insert_entered_run (dto_userId dto) rec cap (entered_of (dto_userId dto) cur db) []
    db (NoDup_entered_of _ _ _ Hnd)) as Hrun.
  specialize (Hrun (λ a Ha, proj2 (proj1 (elem_of_entered_of _ _ _ _) Ha))).
  destruct (insert_failure _ _ _) as [e|]; [destruct Hrun as [db' ->]; by eexists|].
  rewrite Hrun. rewrite tx_run_bind. unfold transition_writes. cbv zeta. case_decide as Hd.
  - rewrite tx_run_await. cbn [exec_sql]. by rewrite tx_run_ret.
  - by rewrite !tx_run_ret.
Qed.

Lemma move_failure_stay u cap cur db :
  same_elements cur (presence_of u (user_area_presence db)) → move_failure u cap cur db = None.
Proof.
  intros Hs. unfold move_failure. destruct (entered_of u cur db) as [|a l] eqn:E; [done|].
  assert (Ha : a ∈ entered_of u cur db) by (rewrite E; by left).
  apply elem_of_entered_of in Ha as [Hc Hp]. apply Hs, elem_of_presence_of in Hc as [? ?].
  congruence.
Qed.

Lemma transition_commits dto rec cap cur db :
  no_dedup dto → NoDup cur → move_failure (dto_userId dto) cap cur db = None →
  tx_run (transition dto rec cap cur) db =
    (inr ({| enteredAreaIds := entered_of (dto_userId dto) cur db; duplicate := false |},
          wrote_anything (dto_userId dto) cur db),
     transition_writes (dto_userId dto) rec cap cur db).
Proof.
  intros Hdd Hnd Hf. pose proof (transition_run dto rec cap cur db Hdd Hnd) as Hrun.
  by rewrite Hf in Hrun.
Qed.

Lemma transition_fails dto rec cap cur db e :
  no_dedup dto → NoDup cur → move_failure (dto_userId dto) cap cur db = Some e →
  ∃ db', tx_run (transition dto rec cap cur) db = (inl e, db').
Proof.
  intros Hdd Hnd Hf. pose proof (transition_run dto rec cap cur db Hdd Hnd) as Hrun.
  by rewrite Hf in Hrun.
Qed.

(** A successful transaction of an event without a de-duplication identity is a move. *)
Lemma tx_run_moved dto rec cur db resp wrote db' :
  no_dedup dto → NoDup cur →
  tx_run (transition dto rec (effective_capturedAt dto) cur) db = (inr (resp, wrote), db') →
  moved (dto_userId dto) rec (effective_capturedAt dto) cur db db' ∧
  resp = {| enteredAreaIds := entered_of (dto_userId dto) cur db; duplicate := false |}.
Proof.
  intros Hdd Hnd Htx.
  pose proof (transition_run dto rec (effective_capturedAt dto) cur db Hdd Hnd) as Hrun.
  destruct (move_failure _ _ _ _) as [e|]; [destruct Hrun as [db2 Hdb2]; congruence|].
  rewrite Hrun in Htx. injection Htx as <- _ <-. split; [by apply transition_writes_moved|done].
Qed.

End tx.

(** ** The change test *)

Lemma differs_false cur prev :
  NoDup cur → NoDup prev → differs cur prev = false ↔ same_elements cur prev.
Proof.
  intros Hc Hp. unfold differs. case_decide as Hlen.
  - assert (Hex : existsb (λ a, bool_decide (a ∉ prev)) cur = false ↔
      ∀ a, a ∈ cur → a ∈ prev).
    { split.
      - intros He a Ha. destruct (decide (a ∈ prev)) as [|Hn]; [done|].
        assert (existsb (λ a, bool_decide (a ∉ prev)) cur = true); [|congruence].
        apply existsb_exists. exists a. split; [by apply list_elem_of_In|].
        by apply bool_decide_eq_true.
      - intros Hin. destruct (existsb _ cur) eqn:He; [|done].
        apply existsb_exists in He as (a & Ha & Hb). apply list_elem_of_In in Ha.
        apply bool_decide_eq_true in Hb. by destruct Hb; apply Hin. }
    rewrite Hex. split; [|intros Hs a; apply Hs].
    intros Hin a. split; [by apply Hin|].
    assert (Hperm : cur ≡ₚ prev).
    { apply submseteq_length_Permutation; [by apply NoDup_submseteq|lia]. }
    by rewrite Hperm.
  - split; [done|]. intros Hs. destruct Hlen.
    apply Permutation_length, same_elements_Permutation; done.
Qed.
