(* ===== verification/Report.v ===== *)
(** What [report] does to the world, whatever faults the database and Redis suffer:
    in the worker (presence memory provided) and in the parked API path (cache). *)

From S2P Require Import Prelude Num Js Prog Db World Presence Locations Transition.

Section report.
Context `{PostGIS, RedisStore, AreaLookup}.
Variable config : RedisConfig.
Variable num_to_string : number → string.

(** ** Vocabulary *)

Definition any_fault (f : fault) : Prop := True.
Definition no_lost (f : fault) : Prop := ∀ e, f ≠ FLost e.
Definition no_fault (f : fault) : Prop := f = FOk.

(** The memory of a user, when there is one, is the set of its memberships. *)
Definition coherent (u : string) (w : World) : Prop :=
  ∀ ids, w_memory w !! u = Some ids →
    NoDup ids ∧ same_elements ids (presence_of u (user_area_presence (w_db w))).

(** The memory after the hint was read: a cold user is seeded from the table. *)
Definition seeded (u : string) (w : World) : gmap string (list string) :=
  match w_memory w !! u with
  | Some _ => w_memory w
  | None => <[u := presence_of u (user_area_presence (w_db w))]> (w_memory w)
  end.

(** What [report] never touches. *)
Record report_frame (u : string) (w w' : World) : Prop := {
  rf_areas : w_areas w' = w_areas w;
  rf_clock : w_clock w' = w_clock w;
  rf_lastSeq : w_lastSeq w' = w_lastSeq w;
  rf_stale : w_staleAreaDropCount w' = w_staleAreaDropCount w;
  rf_processed : w_processedCount w' = w_processedCount w;
  rf_settled : w_settled w' = w_settled w;
}.

(** How a call of [report] in the worker ends. [cur] is the snapshot's answer. *)
Inductive report_outcome (ok : fault → Prop) (dto : ReportLocationDto) (rec : Z) (cur : list string) (w : World) :
    exn + LocationReportResponseDto → World → Prop :=
| report_failed e w' :
    (raises ok e ∨
     ∃ db2, tx_run (transition dto rec (effective_capturedAt dto) cur) (w_db w) =
              (inl e, db2)) →
    w_db w' = w_db w → (w_memory w' = w_memory w ∨ w_memory w' = seeded (dto_userId dto) w) →
    report_outcome ok dto rec cur w (inl e) w'
| report_unchanged w' hint :
    w_db w' = w_db w → w_memory w' = seeded (dto_userId dto) w →
    w_memory w' !! dto_userId dto = Some hint → differs cur hint = false →
    report_outcome ok dto rec cur w (inr {| enteredAreaIds := []; duplicate := false |}) w'
| report_committed resp wrote w' hint :
    tx_run (transition dto rec (effective_capturedAt dto) cur) (w_db w) =
      (inr (resp, wrote), w_db w') →
    seeded (dto_userId dto) w !! dto_userId dto = Some hint → differs cur hint = true →
    w_memory w' = (if duplicate resp then seeded (dto_userId dto) w
                   else <[dto_userId dto := cur]> (seeded (dto_userId dto) w)) →
    report_outcome ok dto rec cur w (inr resp) w'
| report_lost e resp wrote w' f :
    ok f → f = FLost e →
    tx_run (transition dto rec (effective_capturedAt dto) cur) (w_db w) =
      (inr (resp, wrote), w_db w') →
    w_memory w' = seeded (dto_userId dto) w →
    report_outcome ok dto rec cur w (inl e) w'.

(** ** Lemmas *)

Lemma exec_select_presence f u (w : World) r w' :
  exec _ f (Query (SelectPresence u)) w = (r, w') →
  w' = w ∧ (∀ ids, r = inr ids → ids = presence_of u (user_area_presence (w_db w))) ∧
  (∀ e, r = inl e → raised f = Some e).
Proof.
  destruct w; destruct f; simpl; intros [= <- <-]; split_and!; try done; by intros ? [= ->].
Qed.

Lemma seeded_lookup u w :
  seeded u w !! u = Some (default (presence_of u (user_area_presence (w_db w))) (w_memory w !! u)).
Proof.
  unfold seeded. destruct (w_memory w !! u) eqn:E; [done|]. by rewrite lookup_insert_eq.
Qed.

Lemma seeded_ne u v w : v ≠ u → seeded u w !! v = w_memory w !! v.
Proof.
  intros Hne. unfold seeded. destruct (w_memory w !! u); [done|]. by rewrite lookup_insert_ne.
Qed.

(** Step [2] in the worker: the hint is the seeded memory, or the read failed. *)
Lemma read_hint_memory_wp ok (Q : exn + (option PresenceCacheRead * list string) → World → Prop) u w :
  (∀ e, raises ok e → Q (inl e) w) →
  (∀ hint, seeded u w !! u = Some hint → Q (inr (None, hint)) (with_memory (seeded u w) w)) →
  wp exec ok (read_hint true u) Q w.
Proof.
  intros Hfail Hok. unfold read_hint. wp_step. simpl. intros f Hf.
  assert (Hw : with_memory (w_memory w) w = w) by (by destruct w).
  pose proof (seeded_lookup u w) as Hs. unfold seeded in *.
  destruct (w_memory w !! u) as [ids|]; simpl in *.
  - rewrite <- Hw. by apply Hok.
  - intros g Hg.
    destruct (exec_query g (SelectPresence u) (w_db w)) as [r db'] eqn:E.
    destruct (exec_select_presence g u w r (with_db db' w)) as (Hsame & Hids & Herr).
    { simpl. by rewrite E. }
    simpl. rewrite Hsame. destruct r as [e|ids]; simpl; [by apply Hfail; exists g; auto|].
    intros h Hh. rewrite (Hids ids) by done. by apply Hok.
Qed.

(** After the commit only the metrics, the user's key and its memory change. *)
Lemma after_commit_wp ok (Q : exn + LocationReportResponseDto → World → Prop)
    mem u cur cacheRead resp wrote w :
  (∀ m s, Q (inr resp) (with_redis s (with_metrics m
     (if negb (duplicate resp) && mem
      then with_memory (<[u := cur]> (w_memory w)) w else w)))) →
  wp exec ok
    (count_noop resp wrote;; remember_presence mem u cur resp;;
     invalidate_cache u cacheRead;; mret resp) Q w.
Proof.
  intros HQ. apply wp_bind.
  assert (Hnoop : ∀ P : exn + unit → World → Prop,
    (∀ m, P (inr tt) (with_metrics m w)) → wp exec ok (count_noop resp wrote) P w).
  { intros P HP. unfold count_noop.
    destruct (negb (duplicate resp) && negb wrote); simpl; [intros; apply HP|].
    specialize (HP (w_metrics w)). by destruct w. }
  apply Hnoop. intros m. apply wp_bind.
  assert (Hmem : ∀ (P : exn + unit → World → Prop) w0,
    P (inr tt) (if negb (duplicate resp) && mem
                then with_memory (<[u := cur]> (w_memory w0)) w0 else w0) →
    wp exec ok (remember_presence mem u cur resp) P w0).
  { intros P w0 HP. unfold remember_presence.
    destruct (negb (duplicate resp) && mem); simpl; by intros. }
  apply Hmem. set (w1 := if negb (duplicate resp) && mem
    then with_memory (<[u := cur]> (w_memory (with_metrics m w))) (with_metrics m w)
    else with_metrics m w). apply wp_bind.
  assert (Hw1 : ∀ m' s, Q (inr resp) (with_redis s (with_metrics m' w1))).
  { intros m' s. specialize (HQ m' s). subst w1.
    by destruct (negb (duplicate resp) && mem). }
  unfold invalidate_cache. apply wp_bind, cache_invalidate_wp; simpl.
  - specialize (Hw1 (w_metrics w1)). by destruct w1.
  - intros f Hf. specialize (Hw1 (recordInvalidateFailure
      (match cacheRead with None | Some CacheError => false | Some _ => true end)
      (w_metrics w1)) (w_redis w1)). by destruct w1.
  - intros f Hf. apply Hw1.
Qed.

Lemma differs_hint u cur w hint :
  NoDup cur → coherent u w → seeded u w !! u = Some hint →
  (differs cur hint = false ↔
     same_elements cur (presence_of u (user_area_presence (w_db w)))).
Proof.
  intros Hnd Hcoh. rewrite seeded_lookup. intros [= <-].
  destruct (w_memory w !! u) as [ids|] eqn:E; simpl.
  - destruct (Hcoh _ E) as [Hids Hs]. rewrite differs_false by done. by rewrite Hs.
  - by rewrite differs_false by auto using NoDup_presence_of.
Qed.

(** In the worker, under any faults, [report] ends in one of the four ways. *)
Lemma report_worker_wp (ok : fault → Prop) dto rec cur w :
  accuracy_exceeded dto = false →
  find_covering (w_areas w) (dto_lng dto) (dto_lat dto) = inr cur →
  wp exec ok (report true config num_to_string dto rec)
    (λ r w', report_outcome ok dto rec cur w r w' ∧ report_frame (dto_userId dto) w w') w.
Proof.
  intros Hacc Hfind. unfold report. rewrite Hacc. apply wp_bind, wp_await.
  intros f Hf. cbn [exec fst snd]. rewrite Hfind.
  apply wp_bind, read_hint_memory_wp.
  { intros e Hbad. split; [by apply report_failed; [left| |left]|done]. }
  intros hint Hhint. set (u := dto_userId dto) in *.
  destruct (differs cur hint) eqn:Hdiff; cbn [negb].
  - unfold change_path. apply wp_bind, wp_await. intros g Hg. cbn [exec].
    destruct (exec_transaction g _ _) as [r db'] eqn:Etx.
    apply exec_transaction_cases in Etx; [|apply propagates_transition].
    destruct Etx as [([resp wrote] & -> & Htx)|[(e & -> & -> & Hwhy)|(e & [resp wrote] & -> & -> & Htx)]];
      cbn [fst snd].
    + apply after_commit_wp. intros m s. simpl. split.
      * rewrite andb_true_r.
        apply (report_committed _ _ _ _ _ resp wrote _ hint); [|done|done|].
        -- by destruct (duplicate resp); apply Htx.
        -- by destruct (duplicate resp).
      * rewrite andb_true_r. by destruct (duplicate resp).
    + split; [|done]. apply report_failed; [|done|by right].
      destruct Hwhy as [Hg'|Htx]; [left; by exists g|by right].
    + split; [|done]. by apply (report_lost _ _ _ _ _ e resp wrote _ (FLost e)).
  - split; [|done]. by eapply report_unchanged.
Qed.

Lemma report_outcome_mono (ok ok' : fault → Prop) dto rec cur w r w' :
  (∀ f, ok f → ok' f) → report_outcome ok dto rec cur w r w' →
  report_outcome ok' dto rec cur w r w'.
Proof.
  intros Hok. destruct 1 as [e w' [(f & Hf & He)|Htx]|w' hint|resp wrote w' hint|e resp wrote w' f Hf].
  - apply report_failed; [left; exists f; auto|done..].
  - apply report_failed; [by right|done..].
  - by eapply report_unchanged.
  - by eapply report_committed.
  - by eapply report_lost; [apply Hok, Hf|..].
Qed.
End report.
