(* ===== verification/ReportAny.v ===== *)
(** [report] in either process (with the presence memory, or with the cache) and
    from any hint, however stale: what it can do to the tables, and to Redis. *)

From S2P Require Import Prelude Num Js Prog Json Db World Presence Locations Transition.
From S2P Require Import Report.

Section any.
Context `{PostGIS, RedisStore, AreaLookup}.
Variable config : RedisConfig.
Variable num_to_string : number → string.

(** The authoritative transaction of a report succeeded, from [db] to [db']. *)
Definition authoritative (dto : ReportLocationDto) (rec : Z) (cur : list string)
    (db : Db) (resp : LocationReportResponseDto) (db' : Db) : Prop :=
  ∃ wrote, tx_run (transition dto rec (effective_capturedAt dto) cur) db =
             (inr (resp, wrote), db').

Definition no_change : LocationReportResponseDto :=
  {| enteredAreaIds := []; duplicate := false |}.

(** ** Lemmas *)

(** Reading the hint changes no table. *)
Lemma read_hint_any_wp ok (Q : exn + (option PresenceCacheRead * list string) → World → Prop)
    pm u w :
  (∀ r w', w_db w' = w_db w → w_areas w' = w_areas w → w_redis w' = w_redis w →
     w_clock w' = w_clock w → Q r w') →
  wp exec ok (read_hint pm u) Q w.
Proof.
  intros HQ. unfold read_hint. destruct pm.
  - apply (read_hint_memory_wp ok); [by intros; apply HQ|]. intros hint Hh. by apply HQ.
  - apply wp_bind. cbn [wp mret prog_mret]. apply wp_bind, cache_get_wp. intros c.
    assert (Hread : wp exec ok (ids ← readPresenceUnlocked u; mret (Some c, ids)) Q w).
    { apply wp_bind, wp_await. intros f Hf.
      destruct (exec _ f (Query (SelectPresence u)) w) as [r w'] eqn:E.
      apply exec_select_presence in E as (-> & _). destruct r; simpl; by apply HQ. }
    destruct c; [|exact Hread|exact Hread]. simpl. by apply HQ.
Qed.

(** Whatever the hint, the tables are untouched or moved by the authoritative
    transaction, and the answer is the transaction's, or "nothing happened". *)
Lemma report_any_wp pm dto rec cur w :
  find_covering (w_areas w) (dto_lng dto) (dto_lat dto) = inr cur →
  wp exec any_fault (report pm config num_to_string dto rec)
    (λ r w',
       (w_db w' = w_db w ∧ match r with inl _ => True | inr resp => resp = no_change end) ∨
       (∃ resp, authoritative dto rec cur (w_db w) resp (w_db w') ∧
          match r with inl _ => True | inr resp' => resp' = resp end)) w.
Proof.
  intros Hfind. unfold report. destruct (accuracy_exceeded dto); [by left|].
  apply wp_bind, wp_await. intros f _. cbn [exec fst snd]. rewrite Hfind.
  apply wp_bind, read_hint_any_wp. intros [e|[c hint]] w1 Hdb _ _ _; [by left|].
  destruct (negb (differs cur hint)).
  - apply wp_bind. destruct c as [[]|]; try (by left).
    apply cache_populate_wp; by left.
  - unfold change_path. apply wp_bind, wp_await. intros g _. cbn [exec].
    destruct (exec_transaction g _ _) as [r db'] eqn:Etx. rewrite Hdb in Etx.
    apply exec_transaction_cases in Etx; [|apply propagates_transition].
    destruct Etx as [([resp wrote] & -> & Htx)|[(e & -> & -> & Hwhy)|(e & [resp wrote] & -> & -> & Htx)]];
      cbn [fst snd].
    + apply after_commit_wp. intros m s. right. exists resp. split; [|done].
      exists wrote. rewrite Htx. by destruct (negb (duplicate resp) && pm).
    + by left.
    + right. exists resp. split; [|done]. by exists wrote.
Qed.

Lemma authoritative_no_dedup dto rec cur db resp db' :
  no_dedup dto → NoDup cur → authoritative dto rec cur db resp db' →
  resp = {| enteredAreaIds := entered_of (dto_userId dto) cur db; duplicate := false |} ∧
  moved (dto_userId dto) rec (effective_capturedAt dto) cur db db'.
Proof.
  intros Hdd Hnd [wrote Htx]. apply tx_run_moved in Htx as [? ?]; done.
Qed.

(** ** The per-device check of the transaction *)

(** A device whose last handled sequence number is not below the event's. *)
Definition device_seen (dto : ReportLocationDto) (db : Db) : bool :=
  match dto_deviceId dto, dto_seq dto with
  | Some d, Some s =>
      match user_event_state db !! (dto_userId dto, d) with
      | Some row => (s <=? round53 (last_seq row))%Z
      | None => false
      end
  | _, _ => false
  end.

Lemma dedup_seen dto rec db :
  device_seen dto db = true → tx_run (dedup_in_transaction dto rec) db = (inr true, db).
Proof.
  unfold device_seen, dedup_in_transaction.
  destruct (dto_deviceId dto) as [d|], (dto_seq dto) as [s|]; try done.
  intros Hs. rewrite tx_run_bind, tx_run_await. cbn [exec_sql].
  destruct (user_event_state db !! (dto_userId dto, d)); [|done]. simpl. by rewrite Hs.
Qed.

Lemma dedup_fresh dto rec db d s :
  dto_deviceId dto = Some d → dto_seq dto = Some s → device_seen dto db = false →
  fits_bigint s = true →
  tx_run (dedup_in_transaction dto rec) db =
    (inr false, set_event_state
       (<[ (dto_userId dto, d) := {| last_seq := s; last_event_at := rec |} ]>
          (user_event_state db)) db).
Proof.
  unfold device_seen, dedup_in_transaction. intros -> -> Hs Hfit.
  rewrite tx_run_bind, tx_run_await. cbn [exec_sql].
  destruct (user_event_state db !! (dto_userId dto, d)) as [row|];
    simpl in *; rewrite ?Hs; unfold tx_run; simpl; by rewrite Hfit.
Qed.

(** A number that no [bigint] holds makes the transaction fail. *)
Lemma dedup_too_big dto rec db d s :
  dto_deviceId dto = Some d → dto_seq dto = Some s → device_seen dto db = false →
  fits_bigint s = false →
  tx_run (dedup_in_transaction dto rec) db = (inl bigint_out_of_range, db).
Proof.
  unfold device_seen, dedup_in_transaction. intros -> -> Hs Hfit.
  rewrite tx_run_bind, tx_run_await. cbn [exec_sql].
  destruct (user_event_state db !! (dto_userId dto, d)) as [row|];
    simpl in *; rewrite ?Hs; unfold tx_run; simpl; by rewrite Hfit.
Qed.

Lemma transition_seen dto rec cap cur db :
  device_seen dto db = true →
  tx_run (transition dto rec cap cur) db =
    (inr ({| enteredAreaIds := []; duplicate := true |}, false), db).
Proof.
  intros Hs. unfold transition, lockAndReadPresence.
  rewrite tx_run_bind, tx_run_await. cbn [exec_sql].
  by rewrite tx_run_bind, dedup_seen.
Qed.
End any.

(** ** The transaction of an event with a device *)

Section device.
Context `{PostGIS}.

(** The number of a device's event is one that the table can hold. *)
Definition numbers_fit (dto : ReportLocationDto) : bool :=
  match dto_deviceId dto, dto_seq dto with
  | Some _, Some s => fits_bigint s
  | _, _ => true
  end.

(** The tables after the per-device check let the event pass. *)
Definition recorded (dto : ReportLocationDto) (rec : Z) (db : Db) : Db :=
  match dto_deviceId dto, dto_seq dto with
  | Some d, Some s =>
      set_event_state
        (<[ (dto_userId dto, d) := {| last_seq := s; last_event_at := rec |} ]>
           (user_event_state db)) db
  | _, _ => db
  end.

Definition strip (dto : ReportLocationDto) : ReportLocationDto :=
  {| dto_userId := dto_userId dto; dto_lat := dto_lat dto; dto_lng := dto_lng dto;
     dto_deviceId := None; dto_seq := None; dto_capturedAt := dto_capturedAt dto;
     dto_observedAt := dto_observedAt dto; dto_accuracy := dto_accuracy dto |}.

Lemma transition_passed dto rec cap cur db :
  device_seen dto db = false → numbers_fit dto = true →
  tx_run (transition dto rec cap cur) db =
    tx_run (transition (strip dto) rec cap cur) (recorded dto rec db).
Proof.
  intros Hs Hfit. unfold numbers_fit in Hfit. unfold transition, lockAndReadPresence.
  rewrite !tx_run_bind, !tx_run_await. cbn [exec_sql]. rewrite !tx_run_bind.
  rewrite (dedup_skipped (strip dto)) by (by left). rewrite tx_run_ret.
  unfold recorded. destruct (dto_deviceId dto) as [d|] eqn:Hd;
    [destruct (dto_seq dto) as [s|] eqn:Hq|].
  - by rewrite (dedup_fresh _ _ _ d s) by done.
  - by rewrite dedup_skipped by (by right).
  - by rewrite dedup_skipped by (by left).
Qed.

Lemma transition_too_big dto rec cap cur db :
  device_seen dto db = false → numbers_fit dto = false →
  tx_run (transition dto rec cap cur) db = (inl bigint_out_of_range, db).
Proof.
  intros Hs Hfit. unfold numbers_fit in Hfit. unfold transition, lockAndReadPresence.
  rewrite tx_run_bind, tx_run_await. cbn [exec_sql]. rewrite tx_run_bind.
  destruct (dto_deviceId dto) as [d|] eqn:Hd; [|done].
  destruct (dto_seq dto) as [s|] eqn:Hq; [|done].
  by rewrite (dedup_too_big _ _ _ d s).
Qed.

(** What a successful transaction did: nothing, for a number already handled; or it
    recorded the number, and moved the user. *)
Lemma authoritative_cases dto rec cur db resp db' :
  NoDup cur → authoritative dto rec cur db resp db' →
  (device_seen dto db = true ∧ db' = db ∧
     resp = {| enteredAreaIds := []; duplicate := true |}) ∨
  (device_seen dto db = false ∧
     resp = {| enteredAreaIds := entered_of (dto_userId dto) cur db; duplicate := false |} ∧
     moved (dto_userId dto) rec (effective_capturedAt dto) cur (recorded dto rec db) db').
Proof.
  intros Hnd [wrote Htx]. destruct (device_seen dto db) eqn:Hs.
  - rewrite transition_seen in Htx by done. left. by injection Htx as <- _ <-.
  - right. destruct (numbers_fit dto) eqn:Hfit; [|by rewrite transition_too_big in Htx].
    rewrite transition_passed in Htx by done.
    apply (tx_run_moved (strip dto)) in Htx as [Hm ->]; [|by left|done].
    split_and!; [done| |done]. f_equal. unfold recorded, entered_of; simpl.
    by destruct (dto_deviceId dto), (dto_seq dto).
Qed.

Lemma recorded_logs dto rec db : logs (recorded dto rec db) = logs db.
Proof. unfold recorded. by destruct (dto_deviceId dto), (dto_seq dto). Qed.

Lemma recorded_presence dto rec db :
  user_area_presence (recorded dto rec db) = user_area_presence db.
Proof. unfold recorded. by destruct (dto_deviceId dto), (dto_seq dto). Qed.

(** A handled number stays handled, up to the precision of a JavaScript number. *)
Lemma authoritative_seen dto rec cur db resp db' :
  NoDup cur → authoritative dto rec cur db resp db' → is_Some (dto_deviceId dto) →
  (∃ s, dto_seq dto = Some s ∧ 0 ≤ s ≤ two53)%Z → device_seen dto db' = true.
Proof.
  intros Hnd Hauth [d Hd] (s & Hs & Hrange).
  apply authoritative_cases in Hauth as [(? & -> & _)|(_ & _ & Hm)]; [done| |done].
  unfold device_seen. rewrite Hd, Hs, (moved_event_state _ _ _ _ _ _ Hm).
  unfold recorded. rewrite Hd, Hs. simpl. rewrite lookup_insert_eq. simpl.
  rewrite round53_safe by lia. apply Z.leb_refl.
Qed.
End device.
