(* ===== verification/Ingest.v ===== *)
(** The ingestion side, [src/src/locations/location-ingest.service.ts]: gate, stamp,
    publish, acknowledge; and the event it puts on the wire. *)

From S2P Require Import Prelude Num Js Prog Presence Locations.

(** ** Data *)

Definition LOCATION_EVENT_SCHEMA_VERSION : Z := 1.
Definition LOCATION_EVENT_TYPE : string := "location.v1".

(** The wire event. [null] is [None]; a time stamp is its milliseconds (the ISO text
    [toISOString] writes is read back by [new Date] to the same instant); [v] is a
    JSON value, because a consumer checks it. *)
Record LocationEventV1 := {
  ev_v : jsval;
  ev_eventId : string;
  ev_userId : string;
  ev_deviceId : option string;
  ev_seq : option Z;
  ev_lat : number;
  ev_lng : number;
  ev_accuracy : option number;
  ev_capturedAt : option string;
  ev_receivedAt : Z;
}.

(** What [accept] calls: [randomUUID()], [new Date()], and the publisher. *)
Inductive ingest_op : Type → Type :=
| RandomUUID : ingest_op string
| CurrentTime : ingest_op Z
| Publish (routingKey : string) (payload : LocationEventV1) (messageId type : string) :
    ingest_op unit.

(** The event of a report that was accepted under [eventId] at [receivedAt]. *)
Definition event_of_dto (dto : ReportLocationDto) (eventId : string) (receivedAt : Z) :
    LocationEventV1 :=
  {| ev_v := JNum (num_of_Z LOCATION_EVENT_SCHEMA_VERSION);
     ev_eventId := eventId;
     ev_userId := dto_userId dto;
     ev_deviceId := dto_deviceId dto;
     ev_seq := dto_seq dto;
     ev_lat := dto_lat dto;
     ev_lng := dto_lng dto;
     ev_accuracy := dto_accuracy dto;
     ev_capturedAt := effective_capturedAt dto;
     ev_receivedAt := receivedAt |}.

(** [accept(dto)]: the answer is the [eventId] of [LocationAcceptedDto]. *)
Definition accept (num_to_string : number → string) (dto : ReportLocationDto) :
    prog ingest_op string :=
  if accuracy_exceeded dto then Throw (accuracy_error num_to_string dto)
  else
    eventId ← await RandomUUID;
    receivedAt ← await CurrentTime;
    await (Publish (dto_userId dto) (event_of_dto dto eventId receivedAt) eventId
             LOCATION_EVENT_TYPE);;
    mret eventId.

(** [LocationsController.report]. *)
Definition LocationsController_report (num_to_string : number → string)
    (dto : ReportLocationDto) : prog ingest_op string := accept num_to_string dto.

(** ** The outside of the service *)

(** The publisher as the service sees it: the messages it confirmed, the clock, and
    the uuids to come; a publish that is not confirmed throws. *)
Record IngestWorld := {
  iw_uuids : list string;
  iw_clock : Z;
  iw_published : list (string * LocationEventV1 * string * string);
}.

Definition exec_ingest (X : Type) (f : fault) (op : ingest_op X) (w : IngestWorld) :
    (exn + X) * IngestWorld :=
  match op in ingest_op X return (exn + X) * IngestWorld with
  | RandomUUID =>
      match iw_uuids w with
      | [] => (inl (Error "no entropy"), w)
      | x :: l => (inr x, {| iw_uuids := l; iw_clock := iw_clock w;
                             iw_published := iw_published w |})
      end
  | CurrentTime => (inr (iw_clock w), w)
  | Publish k p m t =>
      let w' := {| iw_uuids := iw_uuids w; iw_clock := iw_clock w;
                   iw_published := iw_published w ++ [(k, p, m, t)] |} in
      match f with
      | FOk => (inr tt, w')
      | FFail e | FAt _ e => (inl e, w)
      | FLost e => (inl e, w')
      end
  end.
