(* ===== verification/Worker.v ===== *)
(** The consumer of the partitions, [src/src/worker/worker-consumer.service.ts]:
    parsing, the de-duplication gate, the processing of one message and its
    settlement. The chains that order the messages are in [Chains]. *)

From S2P Require Import Prelude Num Js Prog Db World Presence Locations Ingest.

(** ** Data *)

Definition PG_FOREIGN_KEY_VIOLATION : string := "23503".

(** What [JSON.parse(message.content.toString())] gives: an exception (or [null],
    whose property [v] cannot be read), or a value read as an event. *)
Inductive content :=
| NotJson
| Json (event : LocationEventV1).

Record Message := { deliveryTag : nat; msg_content : content }.

(** The map key of a device, and the report an event stands for: [deviceId] and
    [seq] are not passed on. *)
Definition device_key (userId deviceId : string) : string := userId +:+ ":" +:+ deviceId.

Definition dto_of_event (event : LocationEventV1) : ReportLocationDto :=
  {| dto_userId := ev_userId event;
     dto_lat := ev_lat event;
     dto_lng := ev_lng event;
     dto_deviceId := None;
     dto_seq := None;
     dto_capturedAt := ev_capturedAt event;
     dto_observedAt := None;
     dto_accuracy := ev_accuracy event |}.

(** [event.v === LOCATION_EVENT_SCHEMA_VERSION]. *)
Definition version_ok (event : LocationEventV1) : bool :=
  match ev_v event with
  | JNum n => num_eq n (num_of_Z LOCATION_EVENT_SCHEMA_VERSION)
  | _ => false
  end.

(** [isStaleAreaViolation(error)]. *)
Definition isStaleAreaViolation (error : exn) : bool :=
  let v := exn_value error in
  if is_object v then
    let driver := get_prop "driverError" v in
    is_str PG_FOREIGN_KEY_VIOLATION (opt_prop "code" driver) &&
    match opt_prop "constraint" driver with
    | JStr c => str_includes "area" c
    | _ => false
    end
  else false.

(** ** Operations *)

Section worker.
Variable config : RedisConfig.
Variable num_to_string : number → string.

Definition isDuplicate (event : LocationEventV1) : prog ioop bool :=
  match ev_deviceId event, ev_seq event with
  | Some deviceId, Some seq =>
      let key := device_key (ev_userId event) deviceId in
      known ← await (LastSeqGet key);
      lastSeq ← match known with
                | Some n => mret n
                | None =>
                    rows ← await (Query (SelectLastSeq (ev_userId event) deviceId));
                    let n := match rows with r :: _ => round53 r | [] => 0%Z end in
                    await (LastSeqSet key n);; mret n
                end;
      mret (seq <=? lastSeq)%Z
  | _, _ => mret false
  end.

Definition rememberSeq (event : LocationEventV1) : prog ioop unit :=
  match ev_deviceId event, ev_seq event with
  | Some deviceId, Some seq =>
      let key := device_key (ev_userId event) deviceId in
      known ← await (LastSeqGet key);
      if (default 0 known <? seq)%Z then await (LastSeqSet key seq) else mret tt
  | _, _ => mret tt
  end.

(** The [catch] of [processEvent]. *)
Definition settle_failure (tag : nat) (error : exn) : prog ioop unit :=
  if isStaleAreaViolation error then
    await CountStaleAreaDrop;; await CountProcessed;; await (Settle (SAck tag))
  else await (Settle (SNack tag false true)).

Definition processEvent (tag : nat) (event : LocationEventV1) : prog ioop unit :=
  try_catch
    (dup ← isDuplicate event;
     if dup : bool then await (Settle (SAck tag))
     else
       report true config num_to_string (dto_of_event event) (ev_receivedAt event);;
       rememberSeq event;;
       await CountProcessed;;
       await (Settle (SAck tag)))
    (settle_failure tag).

(** [handle]: a malformed message is nacked at once; a well-formed one yields the
    user whose chain it joins and the task to run there. *)
Definition handle (message : Message) : settlement + string * prog ioop unit :=
  match msg_content message with
  | Json event =>
      if version_ok event
      then inr (ev_userId event, processEvent (deliveryTag message) event)
      else inl (SNack (deliveryTag message) false true)
  | NotJson => inl (SNack (deliveryTag message) false true)
  end.
End worker.
