(* ===== verification/WorkerCorrect.v ===== *)
(** What processing one message does: settlement, atomicity, and coherence of the
    presence memory, whatever the database, Redis and the channel do. *)

From S2P Require Import Prelude Num Js Prog Db World Presence Locations Transition.
From S2P Require Import Report Ingest Worker.

(** No colon in a user id. *)
Fixpoint no_colon (s : string) : bool :=
  match s with
  | EmptyString => true
  | String c s' => negb (Ascii.eqb c (Ascii.ascii_of_nat 58)) && no_colon s'
  end.

Section worker.
Context `{PostGIS, RedisStore, AreaLookup}.
Variable config : RedisConfig.
Variable num_to_string : number → string.

(** ** Vocabulary *)

(** The highest sequence number known for the device of an event: the map's, or on
    first sight the table's, or zero. *)
Definition known_seq (event : LocationEventV1) (deviceId : string) (w : World) : Z :=
  match w_lastSeq w !! device_key (ev_userId event) deviceId with
  | Some n => n
  | None => from_option (λ row, round53 (last_seq row)) 0%Z
              (user_event_state (w_db w) !! (ev_userId event, deviceId))
  end.

Definition duplicate_event (event : LocationEventV1) (w : World) : bool :=
  match ev_deviceId event, ev_seq event with
  | Some deviceId, Some seq => (seq <=? known_seq event deviceId w)%Z
  | _, _ => false
  end.

(** The effect an event is meant to have, when the snapshot answers [cur]. *)
Definition event_moved (event : LocationEventV1) (cur : list string) (db db' : Db) : Prop :=
  moved (ev_userId event) (ev_receivedAt event) (ev_capturedAt event) cur db db'.

(** How the processing of a message ends, from [w] to [w']: [settled] is what it
    added to the channel. *)
Record event_end (tag : nat) (event : LocationEventV1) (cur : list string) (w : World)
    (r : exn + unit) (w' : World) (settled : list settlement) : Prop := {
  ee_settled : w_settled w' = w_settled w ++ settled;
  ee_once : settled = [] ∨ settled = [SAck tag] ∨ settled = [SNack tag false true];
  ee_escaped : settled = [] ↔ ∃ e, r = inl e;
  ee_atomic : w_db w' = w_db w ∨ event_moved event cur (w_db w) (w_db w');
  ee_coherent : coherent (ev_userId event) w';
  ee_ack : settled = [SAck tag] →
    (duplicate_event event w = true ∧ w_db w' = w_db w) ∨
    event_moved event cur (w_db w) (w_db w') ∨
    (w_db w' = w_db w ∧ w_staleAreaDropCount w' = (w_staleAreaDropCount w + 1)%Z);
  ee_retry : settled ≠ [SAck tag] →
    event_moved event cur (w_db w) (w_db w') ∨
    (w_db w' = w_db w ∧ duplicate_event event w' = duplicate_event event w);
}.

(** ** Moves *)

(** Staying where one is is the move that writes nothing. *)
Lemma moved_stay u rec cap cur db :
  same_elements cur (presence_of u (user_area_presence db)) → moved u rec cap cur db db.
Proof.
  intros Hs. split; try done.
  - intros a. specialize (Hs a). rewrite elem_of_presence_of in Hs.
    destruct (user_area_presence db !! (u, a)) eqn:E; case_decide as Hd; simpl; try done.
    + destruct Hd. apply Hs. by eexists.
    + apply Hs in Hd as [? ?]. done.
  - rewrite (proj2 (list_minus_nil _ _)); [by rewrite app_nil_r|]. intros a. apply Hs.
Qed.

Lemma moved_elements u rec cap cur db db' :
  moved u rec cap cur db db' → same_elements cur (presence_of u (user_area_presence db')).
Proof.
  intros Hm a. rewrite elem_of_presence_of, (moved_presence _ _ _ _ _ _ Hm).
  case_decide; [by split; [eexists|]|]. split; [done|by intros [? ?]].
Qed.

(** ** One call of [report] *)

Lemma coherent_seeded u w w' :
  coherent u w → w_db w' = w_db w → w_memory w' = w_memory w ∨ w_memory w' = seeded u w →
  coherent u w'.
Proof.
  intros Hc Hdb Hm ids. unfold coherent in Hc. rewrite Hdb.
  destruct Hm as [-> | ->]; [apply Hc|]. rewrite seeded_lookup. intros [= <-].
  destruct (w_memory w !! u) as [ids|]; simpl; [by apply Hc|].
  split; [apply NoDup_presence_of|done].
Qed.

(** Without lost answers, [report] throws and leaves the tables alone, or returns
    and has moved the user; either way the memory stays coherent. *)
Lemma report_worker_cases dto rec cur w r w' :
  no_dedup dto → NoDup cur → coherent (dto_userId dto) w →
  report_outcome no_lost dto rec cur w r w' →
  coherent (dto_userId dto) w' ∧
  ((∃ e, r = inl e ∧ w_db w' = w_db w) ∨
   (∃ resp, r = inr resp ∧
      moved (dto_userId dto) rec (effective_capturedAt dto) cur (w_db w) (w_db w'))).
Proof.
  intros Hdd Hnd Hcoh Hout. destruct Hout as [e w' _ Hdb Hm|w' hint Hdb Hm Hh Hdiff
    |resp wrote w' hint Htx Hh Hdiff Hm|e resp wrote w' f Hok -> Htx Hm].
  - split; [by eapply coherent_seeded|]. left. by eauto.
  - split; [eapply coherent_seeded; by eauto|]. right. eexists; split; [done|].
    rewrite Hdb. apply moved_stay. rewrite Hm in Hh. by eapply differs_hint.
  - apply tx_run_moved in Htx as [Hmv ->]; [|done..].
    split; [|right; by eauto]. cbn [duplicate] in Hm. intros ids.
    rewrite Hm, lookup_insert_eq. intros [= <-].
    split; [done|]. by eapply moved_elements.
  - by destruct (Hok e).
Qed.

(** ** The de-duplication gate *)

(** The de-duplication map after the gate: the number the gate read is recorded. *)
Definition looked_up (event : LocationEventV1) (w : World) : gmap string Z :=
  match ev_deviceId event, ev_seq event with
  | Some d, Some _ =>
      <[device_key (ev_userId event) d := known_seq event d w]> (w_lastSeq w)
  | _, _ => w_lastSeq w
  end.

(** The map after a success: it remembers the event's number when that is higher. *)
Definition remembered (event : LocationEventV1) (w : World) : gmap string Z :=
  match ev_deviceId event, ev_seq event with
  | Some d, Some s =>
      let key := device_key (ev_userId event) d in
      if (default 0 (w_lastSeq w !! key) <? s)%Z
      then <[key := s]> (w_lastSeq w) else w_lastSeq w
  | _, _ => w_lastSeq w
  end.

Lemma device_key_inj u d d' : device_key u d = device_key u d' → d = d'.
Proof.
  unfold device_key. intros Hk. induction u as [|c u IH]; simpl in Hk.
  - by injection Hk.
  - injection Hk as Hk. by apply IH.
Qed.

Lemma device_key_inj2 u1 u2 d1 d2 :
  no_colon u1 = true → no_colon u2 = true →
  device_key u1 d1 = device_key u2 d2 → u1 = u2 ∧ d1 = d2.
Proof.
  unfold device_key. revert u2. induction u1 as [|c u1 IH]; intros [|c' u2] Hc1 Hc2 Hk;
    simpl in *.
  - by injection Hk.
  - injection Hk as <- _. done.
  - injection Hk as -> _. done.
  - apply andb_true_iff in Hc1 as [_ Hc1], Hc2 as [_ Hc2]. injection Hk as <- Hk.
    destruct (IH u2 Hc1 Hc2 Hk) as [-> ->]. done.
Qed.

(** Looking a number up does not change what is known. *)
Lemma known_seq_looked_up event d w :
  known_seq event d (with_lastSeq (looked_up event w) w) = known_seq event d w.
Proof.
  unfold looked_up. destruct (ev_deviceId event) as [d'|]; [|done].
  destruct (ev_seq event); [|done]. unfold known_seq at 1. simpl.
  destruct (decide (d = d')) as [->|Hne]; [by rewrite lookup_insert_eq|].
  rewrite lookup_insert_ne; [done|]. intros Hk. by apply device_key_inj in Hk.
Qed.

Lemma duplicate_event_known event w w' :
  (∀ d, known_seq event d w' = known_seq event d w) →
  duplicate_event event w' = duplicate_event event w.
Proof.
  intros Hk. unfold duplicate_event. destruct (ev_deviceId event), (ev_seq event); try done.
  by rewrite Hk.
Qed.

(** The gate reads the table at most once; it fails without a trace, or answers and
    at most records what it read. *)
Lemma isDuplicate_wp ok (Q : exn + bool → World → Prop) event w :
  (∀ e, raises ok e → Q (inl e) w) →
  Q (inr (duplicate_event event w)) (with_lastSeq (looked_up event w) w) →
  wp exec ok (isDuplicate event) Q w.
Proof.
  intros Hfail. unfold isDuplicate, looked_up, duplicate_event, known_seq.
  assert (Hw0 : with_lastSeq (w_lastSeq w) w = w) by (by destruct w).
  destruct (ev_deviceId event) as [deviceId|]; [|by rewrite Hw0].
  destruct (ev_seq event) as [seq|]; [|by rewrite Hw0].
  set (k := device_key (ev_userId event) deviceId). intros Hok. simpl. intros f _.
  destruct (w_lastSeq w !! k) as [n|] eqn:Ek.
  { rewrite insert_id in Hok by done. by rewrite Hw0 in Hok. }
  simpl. intros g Hg. assert (Hw : with_db (w_db w) w = w) by (by destruct w).
  destruct g; simpl; rewrite ?Hw; try (apply Hfail; eexists; by split). intros _ _.
  by destruct (user_event_state (w_db w) !! (ev_userId event, deviceId)).
Qed.

Lemma rememberSeq_wp ok (Q : exn + unit → World → Prop) event w :
  Q (inr tt) (with_lastSeq (remembered event w) w) → wp exec ok (rememberSeq event) Q w.
Proof.
  unfold rememberSeq, remembered.
  assert (Hw0 : with_lastSeq (w_lastSeq w) w = w) by (by destruct w).
  destruct (ev_deviceId event) as [d|]; [|by rewrite Hw0].
  destruct (ev_seq event) as [s|]; [|by rewrite Hw0]. cbv zeta.
  destruct (Z.ltb_spec (default 0%Z (w_lastSeq w !! device_key (ev_userId event) d)) s)
    as [Hlt|Hge]; intros HQ; simpl; intros f _.
  - rewrite (proj2 (Z.ltb_lt _ _)) by done. by intros g _.
  - rewrite (proj2 (Z.ltb_ge _ _)) by done. by rewrite <- Hw0.
Qed.

(** What is known after a fresh event succeeded. *)
Lemma known_seq_remembered event d w :
  duplicate_event event w = false →
  known_seq event d (with_lastSeq (remembered event (with_lastSeq (looked_up event w) w)) w) =
    if decide (ev_deviceId event = Some d) then default (known_seq event d w) (ev_seq event)
    else known_seq event d w.
Proof.
  intros Hdup. unfold remembered, looked_up, duplicate_event in *.
  destruct (ev_deviceId event) as [d'|]; [|by case_decide].
  destruct (ev_seq event) as [s|]; [|by case_decide].
  apply Z.leb_gt in Hdup. cbv zeta. cbn [w_lastSeq with_lastSeq].
  rewrite lookup_insert_eq. cbn [default from_option].
  rewrite (proj2 (Z.ltb_lt _ _)) by done. rewrite insert_insert_eq.
  unfold known_seq at 1. cbn [w_lastSeq with_lastSeq w_db].
  case_decide as Hd; [injection Hd as ->; by rewrite lookup_insert_eq|].
  rewrite lookup_insert_ne; [done|]. intros Hk. apply device_key_inj in Hk. congruence.
Qed.

(** ** Settling *)

Lemma settle_wp ok (Q : exn + unit → World → Prop) s w :
  Q (inr tt) (settle s w) → (∀ e, raises ok e → Q (inl e) w) →
  wp exec ok (await (Settle s)) Q w.
Proof. intros Hs He. simpl. intros f Hf. destruct f; simpl; [done|..]; apply He; eexists; by split. Qed.

(** The failure path settles the delivery once, or the channel is gone. *)
Lemma settle_failure_wp ok (Q : exn + unit → World → Prop) tag e w :
  (isStaleAreaViolation e = true →
     let w' := with_counts (w_staleAreaDropCount w + 1) (w_processedCount w + 1) w in
     Q (inr tt) (settle (SAck tag) w') ∧ (∀ e', raises ok e' → Q (inl e') w')) →
  (isStaleAreaViolation e = false →
     Q (inr tt) (settle (SNack tag false true) w) ∧
     (∀ e', raises ok e' → Q (inl e') w)) →
  wp exec ok (settle_failure tag e) Q w.
Proof.
  intros Hs Hn. unfold settle_failure. destruct (isStaleAreaViolation e) eqn:E.
  - destruct Hs as [Hs1 Hs2]; [done|]. apply wp_bind, wp_await. intros f _.
    apply wp_bind, wp_await. intros g _. by apply settle_wp.
  - destruct Hn as [Hn1 Hn2]; [done|]. by apply settle_wp.
Qed.

(** ** One message *)

Lemma duplicate_event_settle event s w :
  duplicate_event event (settle s w) = duplicate_event event w.
Proof. done. Qed.

Lemma end_acked tag event cur w w' :
  w_settled w' = w_settled w ++ [SAck tag] → coherent (ev_userId event) w' →
  ((duplicate_event event w = true ∧ w_db w' = w_db w) ∨
   event_moved event cur (w_db w) (w_db w') ∨
   (w_db w' = w_db w ∧ w_staleAreaDropCount w' = (w_staleAreaDropCount w + 1)%Z)) →
  event_end tag event cur w (inr tt) w' [SAck tag].
Proof.
  intros Hs Hc Ha. split; auto; try done; [by split; [|intros [? ?]]|].
  destruct Ha as [[_ ?]|[?|[? _]]]; auto.
Qed.

Lemma end_nacked tag event cur w w' :
  w_settled w' = w_settled w ++ [SNack tag false true] → coherent (ev_userId event) w' →
  (event_moved event cur (w_db w) (w_db w') ∨
   (w_db w' = w_db w ∧ duplicate_event event w' = duplicate_event event w)) →
  event_end tag event cur w (inr tt) w' [SNack tag false true].
Proof.
  intros Hs Hc Ha. split; auto; try done; [by split; [|intros [? ?]]|].
  destruct Ha as [?|[? _]]; auto.
Qed.

Lemma end_escaped tag event cur w w' e :
  w_settled w' = w_settled w → coherent (ev_userId event) w' →
  (event_moved event cur (w_db w) (w_db w') ∨
   (w_db w' = w_db w ∧ duplicate_event event w' = duplicate_event event w)) →
  event_end tag event cur w (inl e) w' [].
Proof.
  intros Hs Hc Ha. split; auto; try done; [by rewrite app_nil_r|by split; eauto|].
  destruct Ha as [?|[? _]]; auto.
Qed.

(** The failure path, after an exception that left the tables as they were. *)
Lemma failed_end_wp tag event cur e w w' :
  w_db w' = w_db w → coherent (ev_userId event) w' →
  duplicate_event event w' = duplicate_event event w →
  w_settled w' = w_settled w → w_staleAreaDropCount w' = w_staleAreaDropCount w →
  wp exec no_lost (settle_failure tag e)
    (λ r w'', ∃ settled, event_end tag event cur w r w'' settled) w'.
Proof.
  intros Hdb Hcoh Hdup Hset Hst.
  apply settle_failure_wp; intros Hstale; cbv zeta; (split; [|intros e' _]); eexists.
  - apply end_acked; [by simpl; rewrite Hset|done|]. right; right. simpl. by rewrite Hdb, Hst.
  - apply end_escaped; auto.
  - apply end_nacked; [by simpl; rewrite Hset|done|by right].
  - apply end_escaped; auto.
Qed.

(** After a successful [report] only the channel can fail. *)
Lemma moved_end_wp tag event cur w w' :
  event_moved event cur (w_db w) (w_db w') → coherent (ev_userId event) w' →
  w_settled w' = w_settled w →
  wp exec no_lost
    (try_catch (rememberSeq event;; await CountProcessed;; await (Settle (SAck tag)))
       (settle_failure tag))
    (λ r w'', ∃ settled, event_end tag event cur w r w'' settled) w'.
Proof.
  intros Hmv Hcoh Hset. apply wp_try_catch, wp_bind, rememberSeq_wp.
  apply wp_bind, wp_await. intros f _. cbn [exec fst snd].
  apply settle_wp; [|intros e _; apply settle_failure_wp; intros _; cbv zeta;
    (split; [|intros e' _])]; eexists.
  - apply end_acked; [by simpl; rewrite Hset|done|by auto].
  - apply end_acked; [by simpl; rewrite Hset|done|by auto].
  - apply end_escaped; auto.
  - apply end_nacked; [by simpl; rewrite Hset|done|by auto].
  - apply end_escaped; auto.
Qed.

Lemma no_dedup_event event : no_dedup (dto_of_event event).
Proof. by left. Qed.

Lemma effective_capturedAt_event event :
  effective_capturedAt (dto_of_event event) = ev_capturedAt event.
Proof. unfold effective_capturedAt; simpl. by destruct (ev_capturedAt event). Qed.

Lemma processEvent_wp tag event cur w :
  NoDup cur → coherent (ev_userId event) w →
  accuracy_exceeded (dto_of_event event) = false →
  find_covering (w_areas w) (ev_lng event) (ev_lat event) = inr cur →
  wp exec no_lost (processEvent config num_to_string tag event)
    (λ r w', ∃ settled, event_end tag event cur w r w' settled) w.
Proof.
  intros Hnd Hcoh Hacc Hfind. unfold processEvent. apply wp_try_catch, wp_bind, isDuplicate_wp.
  - intros e _. by apply failed_end_wp.
  - set (w1 := with_lastSeq (looked_up event w) w).
    assert (Hdup1 : duplicate_event event w1 = duplicate_event event w).
    { apply duplicate_event_known. intros d. apply known_seq_looked_up. }
    destruct (duplicate_event event w) eqn:Hdup.
    + apply settle_wp.
      * eexists. by apply end_acked; auto.
      * intros e _. apply failed_end_wp; try done; congruence.
    + apply wp_bind. eapply wp_mono; [|by apply (report_worker_wp config num_to_string
        no_lost _ _ cur)].
      intros r w2 [Hout Hframe].
      apply report_worker_cases in Hout as [Hcoh2 Hcases];
        [|apply no_dedup_event|done|done].
      destruct Hframe as [_ _ Hls Hst _ Hset].
      destruct Hcases as [(e & -> & Hdb)|(resp & -> & Hmv)].
      * apply failed_end_wp; try done. rewrite Hdup, <- Hdup1.
        unfold duplicate_event, known_seq. rewrite Hls, Hdb. done.
      * rewrite effective_capturedAt_event in Hmv.
        pose proof (moved_end_wp tag event cur w w2 Hmv Hcoh2 Hset) as Hend.
        by apply wp_try_catch in Hend.
Qed.

(** ** Without faults *)

(** The exception of a move whose time of capture the server refuses is not taken for
    a stale area; the one of a missing area is. *)
Definition event_failure (event : LocationEventV1) (cur : list string) (db : Db) : option exn :=
  move_failure (ev_userId event) (ev_capturedAt event) cur db.

Definition dropped (failure : option exn) : bool :=
  match failure with Some e => isStaleAreaViolation e | None => false end.
Definition refused (failure : option exn) : bool :=
  match failure with Some e => negb (isStaleAreaViolation e) | None => false end.

(** How a fresh, usable event ends when nothing else fails: [failure] is the exception
    of its writes, if they raise one. *)
Record clean_end (tag : nat) (event : LocationEventV1) (cur : list string)
    (failure : option exn) (w : World) (r : exn + unit) (w' : World) : Prop := {
  ce_returns : r = inr tt;
  ce_settled : w_settled w' =
    w_settled w ++ [if refused failure then SNack tag false true else SAck tag];
  ce_processed :
    w_processedCount w' = (w_processedCount w + (if refused failure then 0 else 1))%Z;
  ce_dropped : w_staleAreaDropCount w' =
                 (w_staleAreaDropCount w + (if dropped failure then 1 else 0))%Z;
  ce_tables :
    match failure with
    | Some _ => w_db w' = w_db w
    | None => event_moved event cur (w_db w) (w_db w')
    end;
  ce_coherent : coherent (ev_userId event) w';
  ce_known d : known_seq event d w' =
    if decide (failure = None ∧ ev_deviceId event = Some d)
    then default (known_seq event d w) (ev_seq event) else known_seq event d w;
}.

Lemma stale_fk_presence_area : isStaleAreaViolation fk_presence_area = true.
Proof. reflexivity. Qed.

Lemma no_fault_absurd e : ¬ raises no_fault e.
Proof. intros (f & -> & Hn). done. Qed.

(** Why a report ends as it does: what its writes raise, or a fault. *)
Lemma report_why ok event cur w r w' :
  NoDup cur → coherent (ev_userId event) w →
  report_outcome ok (dto_of_event event) (ev_receivedAt event) cur w r w' →
  match r with
  | inr _ => event_failure event cur (w_db w) = None
  | inl e => raises ok e ∨ event_failure event cur (w_db w) = Some e
  end.
Proof.
  intros Hnd Hcoh Hout.
  pose proof (transition_run (dto_of_event event) (ev_receivedAt event)
    (effective_capturedAt (dto_of_event event)) cur (w_db w) (no_dedup_event event) Hnd) as Hrun.
  rewrite effective_capturedAt_event in Hrun.
  change (move_failure _ _ _ _) with (event_failure event cur (w_db w)) in Hrun.
  destruct Hout as [e w' Hwhy Hdb _|w' hint Hdb Hm Hh Hdiff|resp wrote w' hint Htx _ _ _
    |e resp wrote w' f Hok -> _ _]; rewrite ?effective_capturedAt_event in *.
  - destruct Hwhy as [Hbad|[db3 Htx]]; [by left|right].
    destruct (event_failure event cur (w_db w)) as [e'|]; [|congruence].
    destruct Hrun as [db2 Hrun]. congruence.
  - rewrite Hm in Hh. unfold event_failure. apply move_failure_stay.
    by apply (differs_hint (ev_userId event) cur w hint).
  - destruct (event_failure event cur (w_db w)) as [e'|]; [|done].
    destruct Hrun as [db2 Hrun]. congruence.
  - left. by exists (FLost e).
Qed.

(** [report] without faults: success, or the exception of the writes. *)
Lemma report_clean event cur w r w' :
  NoDup cur → coherent (ev_userId event) w →
  report_outcome no_fault (dto_of_event event) (ev_receivedAt event) cur w r w' →
  match event_failure event cur (w_db w) with
  | Some e => r = inl e ∧ w_db w' = w_db w
  | None => ∃ resp, r = inr resp
  end.
Proof.
  intros Hnd Hcoh Hout. pose proof (report_why no_fault event cur w r w' Hnd Hcoh Hout) as Hwhy.
  destruct r as [e|resp]; [|rewrite Hwhy; by eexists].
  destruct Hwhy as [?%no_fault_absurd| ->]; [done|]. split; [done|].
  apply (report_outcome_mono no_fault no_lost) in Hout; [|by intros f -> e'].
  apply report_worker_cases in Hout as [_ [(? & _ & Hdb)|(? & [=] & _)]]; [done|apply no_dedup_event|done..].
Qed.

Lemma processEvent_clean_wp tag event cur w :
  NoDup cur → coherent (ev_userId event) w →
  accuracy_exceeded (dto_of_event event) = false →
  find_covering (w_areas w) (ev_lng event) (ev_lat event) = inr cur →
  duplicate_event event w = false →
  wp exec no_fault (processEvent config num_to_string tag event)
    (clean_end tag event cur (event_failure event cur (w_db w)) w) w.
Proof.
  intros Hnd Hcoh Hacc Hfind Hdup. unfold processEvent.
  apply wp_try_catch, wp_bind, isDuplicate_wp; [by intros ? ?%no_fault_absurd|].
  set (w1 := with_lastSeq (looked_up event w) w).
  pose proof (known_seq_looked_up event) as Hknown. specialize (λ d, Hknown d w).
  rewrite Hdup. apply wp_bind.
  eapply wp_mono; [|by apply (report_worker_wp config num_to_string no_fault _ _ cur)].
  intros r w2 [Hout Hframe]. destruct Hframe as [_ _ Hls Hst Hpc Hset].
  pose proof (report_clean event cur w1 r w2 Hnd Hcoh Hout) as Hclean.
  apply (report_outcome_mono no_fault no_lost) in Hout as Hcases; [|by intros f -> e].
  apply report_worker_cases in Hcases as [Hcoh2 Hcases]; [|apply no_dedup_event|done|done].
  change (w_db w1) with (w_db w) in *.
  destruct (event_failure event cur (w_db w)) as [e|].
  - destruct Hclean as [-> Hdb].
    assert (Hk : ∀ d, known_seq event d w2 = known_seq event d w).
    { intros d. rewrite <- (Hknown d). unfold known_seq; simpl. by rewrite Hls, Hdb. }
    apply settle_failure_wp; intros Hs; cbv zeta;
      (split; [|by intros ? ?%no_fault_absurd]);
      (split; unfold refused, dropped; rewrite ?Hs;
        cbn [negb settle with_counts w_settled w_processedCount w_staleAreaDropCount w_db];
        try done; rewrite ?Hset, ?Hpc, ?Hst, ?Z.add_0_r; try done;
        intros d; rewrite decide_False by naive_solver; apply Hk).
  - destruct Hclean as [resp ->]. destruct Hcases as [(e & [=] & _)|(resp' & _ & Hmv)].
    rewrite effective_capturedAt_event in Hmv.
    apply wp_bind, rememberSeq_wp.
    apply wp_bind, wp_await. intros f _. cbn [exec fst snd].
    apply settle_wp; [|by intros ? ?%no_fault_absurd].
    split; cbn [settle with_counts with_lastSeq w_settled w_processedCount
      w_staleAreaDropCount w_db]; try done;
      [by rewrite Hset|by rewrite Hpc|rewrite Hst; simpl; lia|].
    intros d. pose proof (known_seq_remembered event d w Hdup) as Hk.
    transitivity (if decide (ev_deviceId event = Some d)
      then default (known_seq event d w) (ev_seq event) else known_seq event d w);
      [|repeat case_decide; naive_solver].
    rewrite <- Hk. unfold known_seq, remembered. simpl. rewrite Hls. simpl.
    by rewrite (moved_event_state _ _ _ _ _ _ Hmv).
Qed.

(** A duplicate is acknowledged: nothing else happens. *)
Lemma processEvent_duplicate_wp tag event w :
  duplicate_event event w = true →
  wp exec no_fault (processEvent config num_to_string tag event)
    (λ r w', r = inr tt ∧ w' = settle (SAck tag) (with_lastSeq (looked_up event w) w)) w.
Proof.
  intros Hdup. unfold processEvent.
  apply wp_try_catch, wp_bind, isDuplicate_wp; [by intros ? ?%no_fault_absurd|].
  rewrite Hdup. apply settle_wp; [done|]. by intros ? ?%no_fault_absurd.
Qed.

(** A reading that is too uncertain is nacked: nothing else happens. *)
Lemma processEvent_inaccurate_wp tag event w :
  accuracy_exceeded (dto_of_event event) = true → duplicate_event event w = false →
  wp exec no_fault (processEvent config num_to_string tag event)
    (λ r w', r = inr tt ∧
       w' = settle (SNack tag false true) (with_lastSeq (looked_up event w) w)) w.
Proof.
  intros Hacc Hdup. unfold processEvent.
  apply wp_try_catch, wp_bind, isDuplicate_wp; [by intros ? ?%no_fault_absurd|].
  rewrite Hdup. apply wp_bind. unfold report. rewrite Hacc.
  apply settle_failure_wp; intros Hs; [done|]. split; [done|].
  by intros ? ?%no_fault_absurd.
Qed.
End worker.
