(* ===== verification/Delivery.v ===== *)
(** At-least-once delivery: one message processed any number of times, each attempt
    under any faults and possibly by a restarted worker; and the messages of one user
    processed in order, against an abstract machine of visits. *)

From S2P Require Import Prelude Num Js Prog Db World Presence Locations Transition.
From S2P Require Import Report ReportAny Ingest Worker WorkerCorrect.

(** ** The abstract machine of one user *)

(** Where a user is, the areas entered so far with the instants of the entry, and
    the highest number handled per device. *)
Record Visits := {
  v_inside : list string;
  v_log : list (string * Z * option string);
  v_seq : string → Z;
}.

(** What becomes of a message, and how its delivery is settled. *)
Inductive verdict := Repeated | Unusable | Obsolete | Applied.

Definition settlement_of (tag : nat) (o : verdict) : settlement :=
  match o with Unusable => SNack tag false true | _ => SAck tag end.

Definition entered_by (cur : list string) (v : Visits) : list string :=
  js_sort (list_minus cur (v_inside v)).

Definition visit_step (event : LocationEventV1) (cur : list string) (v : Visits) : Visits :=
  {| v_inside := cur;
     v_log := v_log v ++
       ((λ a, (a, ev_receivedAt event, ev_capturedAt event)) <$> entered_by cur v);
     v_seq d := if decide (ev_deviceId event = Some d)
                then default (v_seq v d) (ev_seq event) else v_seq v d |}.

(** What becomes of the entries of a visit, one after the other: the first area that is
    gone makes the message obsolete, a time of capture that the server does not read
    makes it unusable. *)
Fixpoint admission `{PostGIS} (known : string → bool) (captured : option string)
    (entered : list string) : verdict :=
  match entered with
  | [] => Applied
  | a :: entered =>
      if known a then
        match captured_error captured with
        | Some _ => Unusable
        | None => admission known captured entered
        end
      else Obsolete
  end.

(** One message, when the snapshot answers [cur] and [known] tells the areas that
    still exist. *)
Definition visit_event `{PostGIS} (known : string → bool) (event : LocationEventV1)
    (cur : list string) (v : Visits) : verdict * Visits :=
  if match ev_deviceId event, ev_seq event with
     | Some d, Some s => (s <=? v_seq v d)%Z
     | _, _ => false
     end then (Repeated, v)
  else if accuracy_exceeded (dto_of_event event) then (Unusable, v)
  else match admission known (ev_capturedAt event) (entered_by cur v) with
       | Applied => (Applied, visit_step event cur v)
       | refusal => (refusal, v)
       end.

(** The logs of a user, as the machine sees them. *)
Definition user_log (u : string) (db : Db) : list (string * Z * option string) :=
  (λ l, (log_area_id l, log_recorded_at l, log_captured_at l)) <$>
    filter (λ l, log_user_id l = u) (logs db).

(** The tables represent the machine's state. *)
Record represents (u : string) (v : Visits) (db : Db) : Prop := {
  rep_inside : same_elements (v_inside v) (presence_of u (user_area_presence db));
  rep_log : user_log u db = v_log v;
}.

(** ** Moves compose *)

Lemma moved_present u rec cap cur db db' a :
  moved u rec cap cur db db' → is_Some (user_area_presence db' !! (u, a)) ↔ a ∈ cur.
Proof.
  intros Hm. rewrite (moved_presence _ _ _ _ _ _ Hm). case_decide; [by split; [|eexists]|].
  split; [by intros [? ?]|done].
Qed.

(** Repeating a move adds nothing: not a log, not a row. *)
Lemma moved_again u rec cap cur db db1 db2 :
  moved u rec cap cur db db1 → moved u rec cap cur db1 db2 → moved u rec cap cur db db2.
Proof.
  intros H1 H2. pose proof (moved_elements _ _ _ _ _ _ H1) as Hs.
  destruct H1 as [P1 O1 L1 A1 V1 E1], H2 as [P2 O2 L2 A2 V2 E2]. split; try congruence.
  - intros a. rewrite P2, P1. by case_decide.
  - intros v a Hv. by rewrite O2, O1.
  - rewrite L2, L1. rewrite (proj2 (list_minus_nil cur (presence_of u (user_area_presence db1)))).
    + by rewrite app_nil_r.
    + intros a. apply Hs.
Qed.

Lemma user_log_view u db :
  user_log u db = (λ r, (r.1.1.2, r.1.2, r.2)) <$> filter (λ r, r.1.1.1 = u) (log_view <$> logs db).
Proof.
  unfold user_log. induction (logs db) as [|l ls IH]; [done|].
  rewrite fmap_cons, !filter_cons. change ((log_view l).1.1.1) with (log_user_id l).
  case_decide; [|done]. by rewrite !fmap_cons, IH.
Qed.

Lemma filter_user_all (u : string) (rec : Z) (cap : option string) (l : list string) :
  filter (λ r : string * string * Z * option string, r.1.1.1 = u)
    ((λ a, (u, a, rec, cap)) <$> l) = (λ a, (u, a, rec, cap)) <$> l.
Proof.
  induction l as [|a l IH]; [done|]. rewrite fmap_cons, filter_cons, decide_True by done.
  by rewrite IH.
Qed.

Lemma list_minus_same_r l m m' : same_elements m m' → list_minus l m = list_minus l m'.
Proof. intros Hs. unfold list_minus. apply list_filter_iff. intros x. by rewrite (Hs x). Qed.

(** The move of an event is one step of the abstract machine. *)
Lemma event_moved_visit event cur v db db' :
  event_moved event cur db db' → represents (ev_userId event) v db →
  represents (ev_userId event) (visit_step event cur v) db'.
Proof.
  intros Hm [Hin Hlog]. split; cbn [v_inside v_log visit_step]; unfold entered_by.
  - by eapply moved_elements.
  - rewrite user_log_view, (moved_logs _ _ _ _ _ _ Hm), filter_app, fmap_app, filter_user_all.
    rewrite <- user_log_view, Hlog. f_equal. rewrite <- list_fmap_compose.
    rewrite <- (list_minus_same_r _ _ _ Hin). by apply list_fmap_ext.
Qed.

Section delivery.
Context `{PostGIS, RedisStore, AreaLookup}.
Variable config : RedisConfig.
Variable num_to_string : number → string.

(** ** Attempts *)

(** A restarted worker: the heap is new, the tables and Redis remain. *)
Definition restart (w : World) : World :=
  {| w_db := w_db w; w_redis := w_redis w; w_clock := w_clock w; w_areas := w_areas w;
     w_memory := ∅; w_metrics := no_metrics; w_lastSeq := ∅; w_staleAreaDropCount := 0;
     w_processedCount := 0; w_settled := [] |}.

(** One delivery of the message: its tag, what goes wrong, and whether the worker
    was restarted before it. *)
Record attempt := { at_tag : nat; at_faults : list fault; at_restarted : bool }.

Definition deliver (event : LocationEventV1) (w : World) (a : attempt) : World :=
  (run exec (processEvent config num_to_string (at_tag a) event) (at_faults a)
     (if at_restarted a then restart w else w)).1.2.

(** ** Lemmas *)

Lemma coherent_cold u w : w_memory w = ∅ → coherent u w.
Proof. intros Hm ids. by rewrite Hm, lookup_empty. Qed.

Lemma coherent_restart u w : coherent u (restart w).
Proof. by apply coherent_cold. Qed.

Lemma exec_areas X f (op : ioop X) w : w_areas (exec X f op w).2 = w_areas w.
Proof.
  destruct op; simpl; try done; try (destruct f; done).
  - by destruct (exec_query f q (w_db w)).
  - by destruct (exec_transaction f body (w_db w)).
Qed.

Lemma run_areas {X} (p : prog ioop X) fs w : w_areas (run exec p fs w).1.2 = w_areas w.
Proof.
  revert fs w. induction p as [x|e|Y op k IH]; intros fs w; simpl; [done..|].
  pose proof (exec_areas Y (default FOk (head fs)) op w) as Ha.
  destruct (exec Y _ op w) as [r w']. simpl in Ha. by rewrite IH.
Qed.

(** Under any faults at all, the tables are untouched or moved by the event. *)
Lemma processEvent_any_wp tag event cur w :
  NoDup cur → find_covering (w_areas w) (ev_lng event) (ev_lat event) = inr cur →
  wp exec any_fault (processEvent config num_to_string tag event)
    (λ _ w', w_db w' = w_db w ∨ event_moved event cur (w_db w) (w_db w')) w.
Proof.
  intros Hnd Hfind.
  assert (Hfail : ∀ e w', w_db w' = w_db w ∨ event_moved event cur (w_db w) (w_db w') →
    wp exec any_fault (settle_failure tag e)
      (λ _ w'', w_db w'' = w_db w ∨ event_moved event cur (w_db w) (w_db w'')) w').
  { intros e w' Hw. apply settle_failure_wp; intros _; cbv zeta; done. }
  unfold processEvent. apply wp_try_catch, wp_bind, isDuplicate_wp.
  - intros e _. apply Hfail. by left.
  - set (w1 := with_lastSeq (looked_up event w) w). destruct (duplicate_event event w).
    + apply settle_wp; [by left|]. intros e _. apply Hfail. by left.
    + apply wp_bind. eapply wp_mono; [|by apply (report_any_wp config num_to_string _ _ _ cur)].
      intros r w2 Hout. assert (Hw2 : w_db w2 = w_db w ∨ event_moved event cur (w_db w) (w_db w2)).
      { destruct Hout as [[? _]|(resp & Hauth & _)]; [by left|right].
        apply authoritative_no_dedup in Hauth as [_ Hmv]; [|apply no_dedup_event|done].
        by rewrite effective_capturedAt_event in Hmv. }
      destruct r as [e|resp]; [by apply Hfail|].
      apply wp_bind, rememberSeq_wp.
      apply wp_bind, wp_await. intros f _. cbn [exec fst snd].
      apply settle_wp; [done|]. intros e _. by apply Hfail.
Qed.

Lemma deliver_any event cur w a :
  NoDup cur → find_covering (w_areas w) (ev_lng event) (ev_lat event) = inr cur →
  w_areas (deliver event w a) = w_areas w ∧
  (w_db (deliver event w a) = w_db w ∨
   event_moved event cur (w_db w) (w_db (deliver event w a))).
Proof.
  intros Hnd Hfind. unfold deliver. rewrite run_areas. set (w0 := if at_restarted a then restart w else w).
  assert (Hw0 : w_db w0 = w_db w ∧ w_areas w0 = w_areas w) by (by subst w0; destruct (at_restarted a)).
  destruct Hw0 as [Hdb Har]. split; [done|]. rewrite <- Hdb.
  apply (wp_run exec any_fault _
    (λ (_ : exn + unit) w', w_db w' = w_db w0 ∨ event_moved event cur (w_db w0) (w_db w'))); [done| |].
  - by apply Forall_true.
  - apply processEvent_any_wp; [done|]. by rewrite Har.
Qed.

Lemma deliveries_any event cur attempts w :
  NoDup cur → find_covering (w_areas w) (ev_lng event) (ev_lat event) = inr cur →
  let w' := foldl (deliver event) w attempts in
  w_areas w' = w_areas w ∧
  (w_db w' = w_db w ∨ event_moved event cur (w_db w) (w_db w')).
Proof.
  intros Hnd. revert w. induction attempts as [|a attempts IH]; intros w Hfind; [by split; [|left]|].
  cbn [foldl]. destruct (deliver_any event cur w a Hnd Hfind) as [Har Hdb].
  destruct (IH (deliver event w a)) as [Har' Hdb']; [by rewrite Har|].
  split; [by rewrite Har'|]. cbv zeta in *. destruct Hdb as [Hdb|Hm].
  - by rewrite <- Hdb.
  - right. destruct Hdb' as [->|Hm']; [done|]. by eapply moved_again.
Qed.

(** ** The worker refines the machine *)

Record rep_world (u : string) (known : string → bool) (v : Visits) (w : World) : Prop := {
  rw_tables : represents u v (w_db w);
  rw_known_seq event d : ev_userId event = u → known_seq event d w = v_seq v d;
  rw_coherent : coherent u w;
  rw_areas a : known a = bool_decide (is_Some (areas (w_db w) !! a));
}.

(** The next message of the user, processed without faults. *)
Definition process_next (w : World) (m : nat * LocationEventV1) : World :=
  (run exec (processEvent config num_to_string m.1 m.2) [] w).1.2.

Lemma stale_captured_error cap e : captured_error cap = Some e → isStaleAreaViolation e = false.
Proof.
  destruct cap as [s|]; [|done]. simpl. destruct (timestamptz_refused s) as [[code msg]|]; [|done].
  intros [= <-]. unfold isStaleAreaViolation. simpl. by rewrite andb_false_r.
Qed.

Lemma admission_failure (known : string → bool) cap entered db :
  (∀ a, known a = bool_decide (is_Some (areas db !! a))) →
  admission known cap entered =
    match insert_failure cap entered db with
    | None => Applied
    | Some e => if isStaleAreaViolation e then Obsolete else Unusable
    end.
Proof.
  intros Hk. induction entered as [|a entered IH]; [done|]. simpl. rewrite Hk.
  destruct (areas db !! a) as [row|]; [|done]. rewrite bool_decide_eq_true_2 by by eexists.
  destruct (captured_error cap) as [e|] eqn:Hc; [|done]. by rewrite (stale_captured_error _ _ Hc).
Qed.

Lemma admission_rep known event cur v w :
  rep_world (ev_userId event) known v w →
  admission known (ev_capturedAt event) (entered_by cur v) =
    match event_failure event cur (w_db w) with
    | None => Applied
    | Some e => if isStaleAreaViolation e then Obsolete else Unusable
    end.
Proof.
  intros [[Hin _] _ _ Hk]. unfold event_failure, move_failure, entered_of, entered_by.
  rewrite (list_minus_same_r _ _ _ Hin). by apply admission_failure.
Qed.

Lemma process_next_wp (Q : World → Prop) m w :
  wp exec no_fault (processEvent config num_to_string m.1 m.2) (λ _ w', Q w') w →
  Q (process_next w m).
Proof.
  intros Hwp. unfold process_next.
  by apply (wp_run exec no_fault _ (λ _ w', Q w') [] w).
Qed.

(** The gate knows what the machine knows. *)
Lemma duplicate_rep u known v w event :
  ev_userId event = u → rep_world u known v w →
  duplicate_event event w =
    match ev_deviceId event, ev_seq event with
    | Some d, Some s => (s <=? v_seq v d)%Z
    | _, _ => false
    end.
Proof.
  intros Hu Hrep. unfold duplicate_event. destruct (ev_deviceId event), (ev_seq event); try done.
  by rewrite (rw_known_seq _ _ _ _ Hrep).
Qed.

Lemma process_next_refines known m cur v w :
  NoDup cur → find_covering (w_areas w) (ev_lng m.2) (ev_lat m.2) = inr cur →
  rep_world (ev_userId m.2) known v w →
  let '(o, v') := visit_event known m.2 cur v in
  rep_world (ev_userId m.2) known v' (process_next w m) ∧
  w_settled (process_next w m) = w_settled w ++ [settlement_of m.1 o].
Proof.
  intros Hnd Hfind Hrep. destruct m as [tag event]. cbn [fst snd] in *.
  pose proof (duplicate_rep _ known v w event eq_refl Hrep) as Hdup.
  unfold visit_event. rewrite <- Hdup.
  assert (Hkept : rep_world (ev_userId event) known v (with_lastSeq (looked_up event w) w)).
  { destruct Hrep as [Ht Hk Hc Ha]. split; [done| |done|done]. intros event' d Hu.
    rewrite <- (Hk event d) by done. etransitivity; [|apply known_seq_looked_up].
    unfold known_seq. by rewrite Hu. }
  destruct (duplicate_event event w) eqn:Hd.
  { apply process_next_wp. eapply wp_mono; [|by apply processEvent_duplicate_wp].
    intros r w' [_ ->]. split; [by destruct Hkept; split|done]. }
  destruct (accuracy_exceeded (dto_of_event event)) eqn:Hacc.
  { apply process_next_wp. eapply wp_mono; [|by apply processEvent_inaccurate_wp].
    intros r w' [_ ->]. split; [by destruct Hkept; split|done]. }
  pose proof (admission_rep known event cur v w Hrep) as Hadm. rewrite Hadm.
  apply (process_next_wp (λ w', let '(o, v') := match match event_failure event cur (w_db w) with
      | None => Applied
      | Some e => if isStaleAreaViolation e then Obsolete else Unusable end with
    | Applied => (Applied, visit_step event cur v)
    | refusal => (refusal, v) end in
    rep_world (ev_userId event) known v' w' ∧
    w_settled w' = w_settled w ++ [settlement_of tag o])).
  eapply wp_mono; [|apply processEvent_clean_wp; [exact Hnd|apply Hrep|done..]].
  intros r w' [_ Hset _ _ Htab Hcoh Hknown]. cbn [fst snd] in *.
  destruct (event_failure event cur (w_db w)) as [e|].
  - assert (Hrep' : rep_world (ev_userId event) known v w').
    { destruct Hrep as [Ht Hk Hc Ha]. split; rewrite ?Htab; try done.
      intros event' d Hu. rewrite <- (Hk event d) by done.
      transitivity (known_seq event d w'); [unfold known_seq; by rewrite Hu|].
      rewrite Hknown. case_decide; naive_solver. }
    unfold refused in Hset. destruct (isStaleAreaViolation e); by split.
  - split; [|done]. destruct Hrep as [Ht Hk Hc Ha]. split; [|..|done|].
    + by eapply event_moved_visit.
    + intros event' d Hu. unfold visit_step; simpl. rewrite <- (Hk event d) by done.
      transitivity (known_seq event d w'); [unfold known_seq; by rewrite Hu|].
      rewrite Hknown. repeat case_decide; naive_solver.
    + intros a. by rewrite Ha, (moved_areas _ _ _ _ _ _ Htab).
Qed.

Lemma process_next_areas w m : w_areas (process_next w m) = w_areas w.
Proof. apply run_areas. Qed.

(** ** An event whose writes fail *)

(** The event is new to the worker, whether or not it is restarted, and its writes
    fail with an exception that is not a missing area. *)
Record unwritable (event : LocationEventV1) (cur : list string) (w : World) : Prop := {
  uw_fresh : duplicate_event event w = false;
  uw_fresh_restart : duplicate_event event (restart w) = false;
  uw_fails : ∃ e, event_failure event cur (w_db w) = Some e ∧ isStaleAreaViolation e = false;
  uw_coherent : coherent (ev_userId event) w;
  uw_find : find_covering (w_areas w) (ev_lng event) (ev_lat event) = inr cur;
}.

Lemma unwritable_kept event cur w w' :
  unwritable event cur w → w_db w' = w_db w → w_areas w' = w_areas w →
  coherent (ev_userId event) w' → duplicate_event event w' = false →
  unwritable event cur w'.
Proof.
  intros [Hd Hr He Hc Hf] Hdb Har Hc' Hd'. split; rewrite ?Hdb, ?Har; try done.
  rewrite <- Hr. unfold duplicate_event, known_seq; simpl. by rewrite Hdb.
Qed.

(** Its report fails and leaves the tables, under any faults. *)
Lemma report_unwritable event cur w r w' :
  NoDup cur → unwritable event cur w →
  report_outcome any_fault (dto_of_event event) (ev_receivedAt event) cur w r w' →
  (∃ e, r = inl e) ∧ w_db w' = w_db w ∧ coherent (ev_userId event) w'.
Proof.
  intros Hnd [_ _ (e & He & _) Hcoh _] Hout.
  pose proof (transition_fails (dto_of_event event) (ev_receivedAt event)
    (effective_capturedAt (dto_of_event event)) cur (w_db w) e (no_dedup_event event) Hnd) as Htx.
  rewrite effective_capturedAt_event in Htx. specialize (Htx He) as [db2 Htx].
  destruct Hout as [e' w' _ Hdb Hm|w' hint Hdb Hm Hh Hdiff|resp wrote w' hint Htx' _ _ _
    |e' resp wrote w' f _ _ Htx' _]; rewrite ?effective_capturedAt_event in *; [| |congruence..].
  - split_and!; [by eexists|done|by eapply coherent_seeded].
  - rewrite Hm in Hh. unfold event_failure in He. rewrite move_failure_stay in He; [done|].
    by apply (differs_hint (ev_userId event) cur w hint).
Qed.

Lemma processEvent_unwritable_wp tag event cur w :
  NoDup cur → unwritable event cur w →
  wp exec any_fault (processEvent config num_to_string tag event)
    (λ _ w', w_db w' = w_db w ∧ unwritable event cur w') w.
Proof.
  intros Hnd Hu.
  assert (Hfail : ∀ e w', w_db w' = w_db w → unwritable event cur w' →
    wp exec any_fault (settle_failure tag e)
      (λ _ w'', w_db w'' = w_db w ∧ unwritable event cur w'') w').
  { intros e w' Hdb Hu'. assert (Hu2 : ∀ w'', w_db w'' = w_db w' → w_areas w'' = w_areas w' →
      w_memory w'' = w_memory w' → w_lastSeq w'' = w_lastSeq w' →
      w_db w'' = w_db w ∧ unwritable event cur w'').
    { intros w'' Hdb2 Har Hm Hl. split; [congruence|]. eapply unwritable_kept; try done.
      - intros ids. rewrite Hdb2, Hm. apply (uw_coherent _ _ _ Hu').
      - rewrite <- (uw_fresh _ _ _ Hu'). unfold duplicate_event, known_seq. by rewrite Hl, Hdb2. }
    apply settle_failure_wp; intros _; cbv zeta; (split; [|intros e' _]); by apply Hu2. }
  unfold processEvent. apply wp_try_catch, wp_bind, isDuplicate_wp; [by intros e _; apply Hfail|].
  rewrite (uw_fresh _ _ _ Hu). set (w1 := with_lastSeq (looked_up event w) w).
  assert (Hu1 : unwritable event cur w1).
  { eapply unwritable_kept; try done; [apply Hu|]. rewrite <- (uw_fresh _ _ _ Hu).
    apply duplicate_event_known. intros d. apply known_seq_looked_up. }
  destruct (accuracy_exceeded (dto_of_event event)) eqn:Hacc.
  { unfold report. rewrite Hacc. by apply Hfail. }
  apply wp_bind. eapply wp_mono; [|by apply (report_worker_wp config num_to_string
    any_fault _ _ cur w1), Hu1].
  intros r w2 [Hout [Har _ Hls _ _ _]].
  apply report_unwritable in Hout as ([e ->] & Hdb & Hcoh); [|done..].
  apply Hfail; [done|]. eapply unwritable_kept; try done.
  rewrite <- (uw_fresh _ _ _ Hu1). unfold duplicate_event, known_seq. by rewrite Hls, Hdb.
Qed.

Lemma deliveries_unwritable event cur attempts w :
  NoDup cur → unwritable event cur w →
  w_db (foldl (deliver event) w attempts) = w_db w ∧
  unwritable event cur (foldl (deliver event) w attempts).
Proof.
  intros Hnd. revert w. induction attempts as [|a attempts IH]; intros w Hu; [done|].
  cbn [foldl]. set (w0 := if at_restarted a then restart w else w).
  assert (Hu0 : w_db w0 = w_db w ∧ unwritable event cur w0).
  { subst w0. destruct (at_restarted a); [|done]. split; [done|].
    eapply unwritable_kept; [done..|apply coherent_restart|apply Hu]. }
  destruct Hu0 as [Hdb0 Hu0].
  pose proof (wp_run exec any_fault _ (λ (_ : exn + unit) w', w_db w' = w_db w0 ∧
    unwritable event cur w') (at_faults a) w0 I (Forall_true _ _ (λ _, I))
    (processEvent_unwritable_wp (at_tag a) event cur w0 Hnd Hu0)) as [Hdb1 Hu1].
  destruct (IH _ Hu1) as [Hdb2 Hu2]. split; [|done]. unfold deliver at 2. fold w0.
  rewrite Hdb2. congruence.
Qed.
End delivery.
