(* ===== verification/Interleave.v ===== *)
(** The worker with many messages in flight: one lane per user (the queue that the
    promise chains implement), the lanes interleaved at every awaited operation. The
    users' lanes do not interfere, so each user's messages are processed as if the
    worker handled nobody else, one after the other. *)

From S2P Require Import Prelude Num Js Prog Db World Presence Locations Transition.
From S2P Require Import Report Ingest Worker WorkerCorrect Delivery.

Section interleave.
Context {gis : PostGIS} {store : RedisStore} {lookup : AreaLookup}.
Variable config : RedisConfig.
Variable num_to_string : number → string.

(** ** The concurrent worker *)

(** What is left of a user's messages: the head is the one being processed. *)
Definition lane : Type := list (prog ioop unit).

Inductive event_loop :=
| Deliver (message : Message)
| Resume (userId : string) (f : fault).

(** A task whose promise is settled leaves the lane. *)
Fixpoint norm (ps : lane) : lane :=
  match ps with
  | Ret _ :: ps | Throw _ :: ps => norm ps
  | _ => ps
  end.

(** The head of a lane performs its next operation, under the fault [f]. *)
Definition resume (f : fault) (ps : lane) (w : World) : lane * World :=
  match norm ps with
  | Vis op k :: rest => let '(r, w') := exec _ f op w in (norm (k r :: rest), w')
  | other => (other, w)
  end.

Record Worker := { lanes : gmap string lane; world : World }.

Definition lane_of (u : string) (s : Worker) : lane := default [] (lanes s !! u).

(** One turn: a delivery is nacked or joins its user's lane; or a lane goes on. *)
Definition turn (s : Worker) (a : event_loop) : Worker :=
  match a with
  | Deliver message =>
      match handle config num_to_string message with
      | inl nack => {| lanes := lanes s; world := settle nack (world s) |}
      | inr (u, task) =>
          {| lanes := <[u := lane_of u s ++ [task]]> (lanes s); world := world s |}
      end
  | Resume u f =>
      let '(ps, w) := resume f (lane_of u s) (world s) in
      {| lanes := <[u := ps]> (lanes s); world := w |}
  end.

(** ** Vocabulary *)

Definition message_user (message : Message) : option string :=
  match msg_content message with
  | Json event => if version_ok event then Some (ev_userId event) else None
  | NotJson => None
  end.

Definition settlement_tag (s : settlement) : nat :=
  match s with SAck tag | SNack tag _ _ => tag end.

(** Delivery tags identify deliveries, hence their users. *)
Variable tag_owner : nat → option string.

(** The turns that concern a user. *)
Definition concerns (u : string) (a : event_loop) : bool :=
  match a with
  | Deliver message => bool_decide (message_user message = Some u)
  | Resume v _ => bool_decide (v = u)
  end.

Definition honest (a : event_loop) : Prop :=
  match a with
  | Deliver message => tag_owner (deliveryTag message) = message_user message
  | Resume _ _ => True
  end.

(** What a user can see of the tables, and of the world. *)
Record same_rows (u : string) (db1 db2 : Db) : Prop := {
  sr_presence a : user_area_presence db1 !! (u, a) = user_area_presence db2 !! (u, a);
  sr_state d : user_event_state db1 !! (u, d) = user_event_state db2 !! (u, d);
  sr_log : user_log u db1 = user_log u db2;
  sr_areas : areas db1 = areas db2;
}.

Definition settled_for (u : string) (w : World) : list settlement :=
  filter (λ s, tag_owner (settlement_tag s) = Some u) (w_settled w).

Record same_view (u : string) (w1 w2 : World) : Prop := {
  sv_rows : same_rows u (w_db w1) (w_db w2);
  sv_memory : w_memory w1 !! u = w_memory w2 !! u;
  sv_lastSeq d : w_lastSeq w1 !! device_key u d = w_lastSeq w2 !! device_key u d;
  sv_index : w_areas w1 = w_areas w2;
  sv_settled : settled_for u w1 = settled_for u w2;
}.

(** The statements and operations that belong to a user. *)
Definition own_sql (u : string) (X : Type) (q : sql X) : Prop :=
  match q with
  | SelectPresence v | LockUserAndReadPresence v | SelectLastSeq v _
  | UpsertEventState v _ _ _ | InsertPresence v _ _ | InsertLog v _ _ _
  | DeletePresence v _ => v = u
  | _ => False
  end.

Definition own (u : string) (X : Type) (op : ioop X) : Prop :=
  match op with
  | Query q => own_sql u _ q
  | Transaction body => all_ops (own_sql u) body
  | RedisGet _ => False
  | MemoryGet v | MemorySet v _ => v = u
  | LastSeqGet k | LastSeqSet k _ => ∃ d, k = device_key u d
  | Settle s => tag_owner (settlement_tag s) = Some u
  | _ => True
  end.

(** ** Equivalence *)

#[export] Instance same_rows_equiv u : Equivalence (same_rows u).
Proof.
  split.
  - by intros db.
  - intros db1 db2 [? ? ? ?]. by split.
  - intros db1 db2 db3 [H1 H2 H3 H4] [K1 K2 K3 K4].
    split; intros; [by rewrite H1|by rewrite H2|by rewrite H3|by rewrite H4].
Qed.

#[export] Instance same_view_equiv u : Equivalence (same_view u).
Proof.
  split.
  - by intros w.
  - intros w1 w2 [? ? ? ? ?]. by split.
  - intros w1 w2 w3 [H1 H2 H3 H4 H5] [K1 K2 K3 K4 K5].
    split; intros; [by etrans|by rewrite H2|by rewrite H3|by rewrite H4|by rewrite H5].
Qed.

(** ** One user's statements *)

Lemma user_log_append u v a rec cap db :
  user_log u (append_log v a rec cap db) =
    user_log u db ++ (if decide (v = u) then [(a, rec, cap)] else []).
Proof.
  unfold user_log. simpl. rewrite filter_app, fmap_app. f_equal.
  rewrite filter_cons, filter_nil. simpl. by case_decide.
Qed.

Lemma delete_rows_lookup (v : string) (ids : list string) (m : gmap (string * string) PresenceRow) u a :
  filter (λ kv, ¬ (kv.1.1 = v ∧ kv.1.2 ∈ ids)) m !! (u, a) =
    if decide (u = v ∧ a ∈ ids) then None else m !! (u, a).
Proof.
  rewrite map_lookup_filter. destruct (m !! (u, a)); simpl; [|by case_decide].
  case_guard; case_decide; simpl; tauto.
Qed.

(** Both fail with the same exception, or both answer the same and stay alike. *)
Definition alike {S X} (R : S → S → Prop) (r1 r2 : (exn + X) * S) : Prop :=
  r1.1 = r2.1 ∧ R r1.2 r2.2.

Lemma own_sql_alike u X (q : sql X) db1 db2 :
  own_sql u X q → same_rows u db1 db2 →
  alike (same_rows u) (exec_statement X FOk q db1) (exec_statement X FOk q db2).
Proof.
  intros Hown [Hp Hs Hl Ha]. unfold alike.
  destruct q; simpl in *; try done; subst.
  - split; [|done]. simpl. by rewrite (presence_of_ext u _ _ Hp).
  - split; [|done]. simpl. by rewrite (presence_of_ext u _ _ Hp).
  - split; [|done]. simpl. by rewrite Hs.
  - destruct (fits_bigint seq); [|done]. split; [done|]. split; try done. simpl. intros d.
    destruct (decide (device_id = d)) as [->|Hne];
      [by rewrite !lookup_insert_eq|rewrite !lookup_insert_ne by congruence; done].
  - rewrite Hp, Ha. destruct (user_area_presence db2 !! (u, area_id)); [done|].
    destruct (areas db2 !! area_id); [|done]. split; [done|]. split; try done. simpl. intros x.
    destruct (decide (area_id = x)) as [->|Hne];
      [by rewrite !lookup_insert_eq|rewrite !lookup_insert_ne by congruence; done].
  - rewrite Ha. destruct (captured_error captured_at); [done|].
    destruct (areas db2 !! area_id); [|done]. split; [done|].
    split; try done. cbn [fst snd]. rewrite !user_log_append. by rewrite Hl.
  - split; [done|]. split; try done. simpl. intros x. by rewrite !delete_rows_lookup, Hp.
Qed.

Lemma own_sql_other u v X (q : sql X) db :
  own_sql v X q → v ≠ u → same_rows u db (exec_statement X FOk q db).2.
Proof.
  intros Hown Hne. destruct q; simpl in *; try done; subst.
  - destruct (fits_bigint _); [|done]. split; try done. intros d. simpl.
    by rewrite lookup_insert_ne by congruence.
  - destruct (user_area_presence db !! _); [done|].
    destruct (areas db !! _); [|done]. split; try done. intros x. simpl.
    by rewrite lookup_insert_ne by congruence.
  - destruct (captured_error _); [done|]. destruct (areas db !! _); [|done].
    split; try done. cbn [fst snd]. rewrite user_log_append, decide_False by done. by rewrite app_nil_r.
  - split; try done. intros x. simpl. rewrite delete_rows_lookup.
    by rewrite decide_False by (intros [? _]; congruence).
Qed.

Lemma own_statement_alike u X f (q : sql X) db1 db2 :
  own_sql u X q → same_rows u db1 db2 →
  alike (same_rows u) (exec_statement X f q db1) (exec_statement X f q db2).
Proof. intros Hown Hs. destruct f; try (by split); by apply own_sql_alike. Qed.

Lemma own_statement_other u v X f (q : sql X) db :
  own_sql v X q → v ≠ u → same_rows u db (exec_statement X f q db).2.
Proof. intros Hown Hne. destruct f; try done; by apply (own_sql_other u v). Qed.

Lemma own_run_alike u X (p : prog sql X) fs db1 db2 :
  all_ops (own_sql u) p → same_rows u db1 db2 →
  (run exec_statement p fs db1).1.1 = (run exec_statement p fs db2).1.1 ∧
  same_rows u (run exec_statement p fs db1).1.2 (run exec_statement p fs db2).1.2.
Proof.
  revert fs db1 db2. induction p as [x|e|Y op k IH]; intros fs db1 db2 Hown Hs; [done|done|].
  destruct Hown as [Hop Hk]. cbn [run].
  pose proof (own_statement_alike u Y (default FOk (head fs)) op db1 db2 Hop Hs) as [Hr Hs'].
  destruct (exec_statement _ _ op db1) as [r1 d1], (exec_statement _ _ op db2) as [r2 d2].
  simpl in Hr, Hs'. subst r2. by apply IH.
Qed.

Lemma own_run_other u v X (p : prog sql X) fs db :
  all_ops (own_sql v) p → v ≠ u → same_rows u db (run exec_statement p fs db).1.2.
Proof.
  intros Hown Hne. revert fs db Hown.
  induction p as [x|e|Y op k IH]; intros fs db Hown; [done|done|].
  destruct Hown as [Hop Hk]. cbn [run].
  pose proof (own_statement_other u v Y (default FOk (head fs)) op db Hop Hne) as Hs.
  destruct (exec_statement _ _ op db) as [r d]. simpl in Hs. etrans; [done|]. by apply IH.
Qed.

Lemma own_transaction_alike u X f (p : prog sql X) db1 db2 :
  all_ops (own_sql u) p → same_rows u db1 db2 →
  alike (same_rows u) (exec_transaction f p db1) (exec_transaction f p db2).
Proof.
  intros Hown Hs. unfold alike, exec_transaction. destruct f as [|e|e|n e]; [|done|..].
  1,2: pose proof (own_run_alike u X p [] db1 db2 Hown Hs) as Hrun.
  3: pose proof (own_run_alike u X p (replicate n FOk ++ [FFail e]) db1 db2 Hown Hs) as Hrun.
  all: destruct (run exec_statement p _ db1) as [[r1 d1] fs1],
         (run exec_statement p _ db2) as [[r2 d2] fs2]; simpl in *.
  all: destruct Hrun as [-> Hd]; by destruct r2.
Qed.

Lemma own_transaction_other u v X f (p : prog sql X) db :
  all_ops (own_sql v) p → v ≠ u → same_rows u db (exec_transaction f p db).2.
Proof.
  intros Hown Hne. unfold exec_transaction. destruct f as [|e|e|n e]; [|done|..].
  3: pose proof (own_run_other u v X p (replicate n FOk ++ [FFail e]) db Hown Hne) as Hs.
  1,2: pose proof (own_run_other u v X p [] db Hown Hne) as Hs.
  all: destruct (run exec_statement p _ db) as [[[e'|x] d] fs]; simpl in *; done.
Qed.

Lemma own_query_alike u X f (q : sql X) db1 db2 :
  own_sql u X q → same_rows u db1 db2 →
  alike (same_rows u) (exec_query f q db1) (exec_query f q db2).
Proof.
  intros Hown Hs. pose proof (own_sql_alike u X q db1 db2 Hown Hs) as [Hr Hs'].
  unfold alike. destruct f; simpl in *; try done;
    destruct (exec_sql q db1) as [e1|[x1 d1]], (exec_sql q db2) as [e2|[x2 d2]];
    simpl in *; done || (split; [congruence|done]).
Qed.

Lemma own_query_other u v X f (q : sql X) db :
  own_sql v X q → v ≠ u → same_rows u db (exec_query f q db).2.
Proof.
  intros Hown Hne. pose proof (own_sql_other u v X q db Hown Hne) as Hs.
  destruct f; simpl in *; try done; by destruct (exec_sql q db) as [e1|[x1 d1]].
Qed.

(** ** One user's operations *)

Lemma settled_for_settle u s w :
  settled_for u (settle s w) =
    settled_for u w ++ (if decide (tag_owner (settlement_tag s) = Some u) then [s] else []).
Proof.
  unfold settled_for. simpl. rewrite filter_app, filter_cons, filter_nil. done.
Qed.

Lemma same_view_db u w1 w2 db1 db2 :
  same_view u w1 w2 → same_rows u db1 db2 → same_view u (with_db db1 w1) (with_db db2 w2).
Proof. intros [? ? ? ? ?] ?. by split. Qed.

(** An operation of the user answers, and acts on the user's view, by that view. *)
Lemma own_alike u X f (op : ioop X) w1 w2 :
  own u X op → same_view u w1 w2 → alike (same_view u) (exec X f op w1) (exec X f op w2).
Proof.
  intros Hown Hs. pose proof Hs as [Hr Hm Hq Hi Hst]. unfold alike.
  destruct op; cbn [exec own] in *; try done; subst.
  - destruct (own_query_alike u X f q _ _ Hown Hr) as [Hres Hrows].
    destruct (exec_query f q (w_db w1)) as [r1 d1], (exec_query f q (w_db w2)) as [r2 d2].
    simpl in *. split; [done|by apply same_view_db].
  - destruct (own_transaction_alike u X f body _ _ Hown Hr) as [Hres Hrows].
    destruct (exec_transaction f body (w_db w1)) as [r1 d1],
      (exec_transaction f body (w_db w2)) as [r2 d2].
    simpl in *. split; [done|by apply same_view_db].
  - by destruct f.
  - by destruct f.
  - simpl. split; [congruence|done].
  - simpl. split; [congruence|done].
  - split; [done|]. split; try done. simpl. by rewrite !lookup_insert_eq.
  - destruct Hown as [d ->]. simpl. split; [by rewrite Hq|done].
  - destruct Hown as [d ->]. split; [done|]. split; try done. simpl. intros d'.
    destruct (decide (device_key u d = device_key u d')) as [->|Hne];
      [by rewrite !lookup_insert_eq|by rewrite !lookup_insert_ne].
  - destruct f; try done. split; [done|]. split; try done. cbn [fst snd].
    rewrite !settled_for_settle. by rewrite Hst.
Qed.

(** An operation of another user does not touch the user's view. *)
Lemma own_other u v X f (op : ioop X) w :
  no_colon u = true → no_colon v = true → own v X op → v ≠ u →
  same_view u w (exec X f op w).2.
Proof.
  intros Hcu Hcv Hown Hne. destruct op; cbn [exec own] in *; try done; subst.
  - pose proof (own_query_other u v X f q (w_db w) Hown Hne) as Hrows.
    destruct (exec_query f q (w_db w)) as [r d]. by split.
  - pose proof (own_transaction_other u v X f body (w_db w) Hown Hne) as Hrows.
    destruct (exec_transaction f body (w_db w)) as [r d]. by split.
  - by destruct f.
  - by destruct f.
  - split; try done. simpl. by rewrite lookup_insert_ne.
  - destruct Hown as [d ->]. split; try done. simpl. intros d'.
    rewrite lookup_insert_ne; [done|]. intros Hk.
    by apply device_key_inj2 in Hk as [-> _].
  - destruct f; try done. split; try done. cbn [snd].
    rewrite settled_for_settle, decide_False; [by rewrite app_nil_r|]. congruence.
Qed.

(** ** Every operation of a message is its user's *)

Lemma own_insert_entered u rec cap entered acc :
  all_ops (own_sql u) (insert_entered u rec cap entered acc).
Proof.
  revert acc. induction entered as [|a entered IH]; intros acc; simpl; [done|].
  split; [done|]. intros [e|ids]; simpl; [done|]. case_decide; [|apply IH].
  split; [done|]. intros [e|[]]; [done|apply IH].
Qed.

Lemma own_transition dto rec cap cur :
  all_ops (own_sql (dto_userId dto)) (transition dto rec cap cur).
Proof.
  unfold transition, lockAndReadPresence.
  apply all_ops_bind; [by apply all_ops_await|]. intros prev. apply all_ops_bind.
  - unfold dedup_in_transaction. destruct (dto_deviceId dto), (dto_seq dto); try done.
    apply all_ops_bind; [by apply all_ops_await|]. intros rows.
    destruct (match rows with [] => _ | _ => _ end); [done|].
    apply all_ops_bind; [by apply all_ops_await|done].
  - intros []; [done|]. apply all_ops_bind; [apply own_insert_entered|]. intros ids.
    apply all_ops_bind; [|done]. case_decide; [by apply all_ops_await|done].
Qed.

Lemma own_report dto rec :
  all_ops (own (dto_userId dto)) (report true config num_to_string dto rec).
Proof.
  unfold report. destruct (accuracy_exceeded dto); [done|].
  apply all_ops_bind; [by apply all_ops_await|]. intros cur. apply all_ops_bind.
  { unfold read_hint. apply all_ops_bind; [by apply all_ops_await|]. intros [ids|]; [done|].
    apply all_ops_bind; [by apply all_ops_await|]. intros ids.
    apply all_ops_bind; [by apply all_ops_await|done]. }
  intros [c hint]. destruct (negb (differs cur hint)).
  - apply all_ops_bind; [|done]. destruct c as [[]|]; try done.
    unfold cache_populate. apply all_ops_try_catch; [|done]. by apply all_ops_await.
  - unfold change_path. apply all_ops_bind; [apply all_ops_await, own_transition|].
    intros [resp wrote]. apply all_ops_bind.
    { unfold count_noop. by destruct (negb (duplicate resp) && negb wrote); simpl;
        [split; [done|intros []]|]. }
    intros _. apply all_ops_bind.
    { unfold remember_presence. by destruct (negb (duplicate resp) && true); simpl;
        [split; [done|intros []]|]. }
    intros _. apply all_ops_bind; [|done]. unfold invalidate_cache. apply all_ops_bind.
    { unfold cache_invalidate. apply all_ops_try_catch; [|done].
      apply all_ops_bind; [by apply all_ops_await|done]. }
    intros []; [done|]. by apply (all_ops_await _ (RecordInvalidateFailure _)).
Qed.

Lemma own_processEvent tag event :
  tag_owner tag = Some (ev_userId event) →
  all_ops (own (ev_userId event)) (processEvent config num_to_string tag event).
Proof.
  intros Htag. unfold processEvent. apply all_ops_try_catch.
  - apply all_ops_bind.
    { unfold isDuplicate. destruct (ev_deviceId event) as [d|], (ev_seq event); try done.
      apply all_ops_bind; [apply all_ops_await; by exists d|]. intros known.
      apply all_ops_bind; [|done]. destruct known; [done|].
      apply all_ops_bind; [by apply all_ops_await|]. intros rows.
      apply all_ops_bind; [apply all_ops_await; by exists d|done]. }
    intros []; [by apply all_ops_await|]. apply all_ops_bind; [apply (own_report (dto_of_event event))|]. intros _.
    apply all_ops_bind.
    { unfold rememberSeq. destruct (ev_deviceId event) as [d|], (ev_seq event); try done.
      apply all_ops_bind; [apply all_ops_await; by exists d|]. intros known.
      destruct (_ <? _)%Z; [|done]. apply all_ops_await. by exists d. }
    intros _. apply all_ops_bind; [by apply all_ops_await|]. intros _. by apply all_ops_await.
  - intros e. unfold settle_failure. destruct (isStaleAreaViolation e); [|by apply all_ops_await].
    apply all_ops_bind; [by apply all_ops_await|]. intros _.
    apply all_ops_bind; [by apply all_ops_await|]. intros _. by apply all_ops_await.
Qed.
(** ** Lanes *)

Definition colon_free (a : event_loop) : Prop :=
  match a with
  | Deliver message => ∀ v, message_user message = Some v → no_colon v = true
  | Resume v _ => no_colon v = true
  end.

(** Every task in a lane is the lane's user's. *)
Definition lanes_own (s : Worker) : Prop := ∀ v, Forall (all_ops (own v)) (lane_of v s).

Definition same_to (u : string) (s1 s2 : Worker) : Prop :=
  lane_of u s1 = lane_of u s2 ∧ same_view u (world s1) (world s2).

Lemma lane_of_insert u v ps (m : gmap string lane) w :
  lane_of u {| lanes := <[v := ps]> m; world := w |} =
    if decide (v = u) then ps else default [] (m !! u).
Proof.
  unfold lane_of. simpl. case_decide; [subst; by rewrite lookup_insert_eq|].
  by rewrite lookup_insert_ne.
Qed.

Lemma norm_Forall (P : prog ioop unit → Prop) ps : Forall P ps → Forall P (norm ps).
Proof.
  induction 1 as [|[x|e|X op k] ps Hp Hps IH]; simpl; auto using Forall_cons.
Qed.

Lemma handle_spec message :
  match message_user message with
  | None => handle config num_to_string message = inl (SNack (deliveryTag message) false true)
  | Some u => ∃ event, msg_content message = Json event ∧ ev_userId event = u ∧
      version_ok event = true ∧
      handle config num_to_string message =
        inr (u, processEvent config num_to_string (deliveryTag message) event)
  end.
Proof.
  unfold message_user, handle. destruct (msg_content message) as [|event]; [done|].
  destruct (version_ok event) eqn:E; [|done]. by exists event.
Qed.

(** A turn, seen from the user it concerns. *)
Lemma resume_alike u f ps w1 w2 :
  Forall (all_ops (own u)) ps → same_view u w1 w2 →
  (resume f ps w1).1 = (resume f ps w2).1 ∧
  same_view u (resume f ps w1).2 (resume f ps w2).2 ∧
  Forall (all_ops (own u)) (resume f ps w1).1.
Proof.
  intros Hps Hs. unfold resume. apply norm_Forall in Hps.
  destruct (norm ps) as [|[x|e|X op k] rest]; try done.
  apply Forall_cons in Hps as [[Hop Hk] Hrest].
  destruct (own_alike u X f op w1 w2 Hop Hs) as [Hr Hs'].
  destruct (exec X f op w1) as [r1 w1'], (exec X f op w2) as [r2 w2']. simpl in Hr, Hs'. subst r2.
  split_and!; [done|done|]. by apply (norm_Forall _ (k r1 :: rest)), Forall_cons.
Qed.

Lemma resume_other u v f ps w :
  no_colon u = true → no_colon v = true → v ≠ u →
  Forall (all_ops (own v)) ps → same_view u w (resume f ps w).2.
Proof.
  intros Hcu Hcv Hne Hps. unfold resume. apply norm_Forall in Hps.
  destruct (norm ps) as [|[x|e|X op k] rest]; try done.
  apply Forall_cons in Hps as [[Hop Hk] Hrest].
  pose proof (own_other u v X f op w Hcu Hcv Hop Hne) as Hs.
  by destruct (exec X f op w) as [r w'].
Qed.

Lemma turn_own s a : honest a → lanes_own s → lanes_own (turn s a).
Proof.
  intros Hh Ho v. destruct a as [message|u f]; simpl.
  - pose proof (handle_spec message) as Hm. simpl in Hh. destruct (message_user message) as [u|].
    + destruct Hm as (event & _ & <- & _ & ->). rewrite lane_of_insert. case_decide; [subst v|apply Ho].
      apply Forall_app. split; [apply Ho|]. apply Forall_singleton.
      by apply own_processEvent.
    + rewrite Hm. apply Ho.
  - destruct (resume_alike u f (lane_of u s) (world s) (world s) (Ho u)) as (_ & _ & Hl); [done|].
    destruct (resume f (lane_of u s) (world s)) as [ps w]. rewrite lane_of_insert.
    case_decide; [by subst v|apply Ho].
Qed.

Lemma turn_concerned u s1 s2 a :
  honest a → lanes_own s1 → concerns u a = true → same_to u s1 s2 →
  same_to u (turn s1 a) (turn s2 a).
Proof.
  intros Hh Ho Hc [Hl Hv]. destruct a as [message|v f]; simpl in *; apply bool_decide_eq_true in Hc.
  - pose proof (handle_spec message) as Hm. rewrite Hc in Hm.
    destruct Hm as (event & _ & <- & _ & ->).
    split; [|done]. by rewrite !lane_of_insert, !decide_True, Hl.
  - subst v. rewrite <- Hl.
    destruct (resume_alike u f (lane_of u s1) (world s1) (world s2) (Ho u) Hv) as (Hr & Hs & _).
    destruct (resume f (lane_of u s1) (world s1)) as [ps1 w1].
    destruct (resume f (lane_of u s1) (world s2)) as [ps2 w2]. simpl in Hr, Hs. subst ps2.
    split; [|done]. by rewrite !lane_of_insert, !decide_True.
Qed.

(** A turn that concerns somebody else is invisible. *)
Lemma turn_unconcerned u s a :
  honest a → lanes_own s → no_colon u = true → colon_free a → concerns u a = false →
  same_to u (turn s a) s.
Proof.
  intros Hh Ho Hcu Hcf Hc.
  destruct a as [message|v f]; simpl in *; apply bool_decide_eq_false in Hc.
  - pose proof (handle_spec message) as Hm. destruct (message_user message) as [v|].
    + destruct Hm as (event & _ & <- & _ & ->). split; [|done].
      rewrite lane_of_insert, decide_False; [done|congruence].
    + rewrite Hm. split; [done|]. split; try done. cbn [world].
      rewrite settled_for_settle, decide_False; [by rewrite app_nil_r|]. simpl. congruence.
  - pose proof (resume_other u v f (lane_of v s) (world s) Hcu Hcf Hc (Ho v)) as Hs.
    destruct (resume f (lane_of v s) (world s)) as [ps w].
    split; [by rewrite lane_of_insert, decide_False|by symmetry].
Qed.

Lemma turns_same u acts s1 s2 :
  Forall honest acts → Forall colon_free acts → no_colon u = true →
  lanes_own s1 → same_to u s1 s2 →
  same_to u (foldl turn s1 acts) (foldl turn s2 (filter (λ a, concerns u a = true) acts)).
Proof.
  intros Hh Hcf Hcu. revert s1 s2. induction acts as [|a acts IH]; intros s1 s2 Ho Hs; [done|].
  apply Forall_cons in Hh as [Hha Hh], Hcf as [Hca Hcf]. rewrite filter_cons. case_decide as Hc.
  - apply IH; [done|done|by apply turn_own|by apply turn_concerned].
  - apply not_true_is_false in Hc. apply IH; [done|done|by apply turn_own|].
    destruct (turn_unconcerned u s1 a) as [Hl Hv]; [done..|]. destruct Hs as [Hl' Hv'].
    split; [congruence|by etrans].
Qed.

(** ** A lane alone is sequential *)

(** The tasks of a lane, one after the other; the faults that are left. *)
Fixpoint seq_all (ps : lane) (fs : list fault) (w : World) : World * list fault :=
  match ps with
  | [] => (w, fs)
  | p :: ps => let '(_, w', fs') := run exec p fs w in seq_all ps fs' w'
  end.

Definition delivered (u : string) (acts : list event_loop) : list (nat * LocationEventV1) :=
  omap (λ a,
    match a with
    | Deliver message =>
        match msg_content message with
        | Json event =>
            if bool_decide (message_user message = Some u)
            then Some (deliveryTag message, event) else None
        | NotJson => None
        end
    | Resume _ _ => None
    end) acts.

Definition task_of (m : nat * LocationEventV1) : prog ioop unit :=
  processEvent config num_to_string m.1 m.2.

Definition act_fault (P : fault → Prop) (a : event_loop) : Prop :=
  match a with Deliver _ => True | Resume _ f => P f end.

Lemma seq_all_norm ps qs fs w : seq_all (norm ps ++ qs) fs w = seq_all (ps ++ qs) fs w.
Proof. induction ps as [|[x|e|X op k] ps IH]; simpl; done. Qed.

Lemma resume_seq f ps qs w :
  norm ps = [] ∧ resume f ps w = ([], w) ∨
  ∀ fs, seq_all (ps ++ qs) (f :: fs) w =
          seq_all ((resume f ps w).1 ++ qs) fs (resume f ps w).2.
Proof.
  unfold resume. destruct (norm ps) as [|[x|e|X op k] rest] eqn:E; [by left|exfalso|exfalso|right].
  - clear -E. induction ps as [|[]]; simpl in *; congruence.
  - clear -E. induction ps as [|[]]; simpl in *; congruence.
  - intros fs. rewrite <- seq_all_norm, E. cbn [app seq_all run head default tail].
    destruct (exec X f op w) as [r w'] eqn:Ex. cbn [from_option id fst snd].
    by rewrite (seq_all_norm (k r :: rest)), Ex.
Qed.

Lemma solo_sequential u acts s :
  Forall (λ a, concerns u a = true) acts →
  ∃ fs, (∀ P, Forall (act_fault P) acts → Forall P fs) ∧
    ∀ fs', seq_all (lane_of u s ++ (task_of <$> delivered u acts)) (fs ++ fs') (world s) =
           seq_all (lane_of u (foldl turn s acts)) fs' (world (foldl turn s acts)).
Proof.
  revert s. induction acts as [|a acts IH]; intros s Hc.
  { exists []. split; [done|]. intros fs'. by rewrite app_nil_r. }
  apply Forall_cons in Hc as [Ha Hc]. destruct (IH (turn s a) Hc) as (fs & HP & Hfs).
  clear IH. destruct a as [message|v f]; cbn [foldl concerns] in *; apply bool_decide_eq_true in Ha.
  - exists fs. split; [intros P [_ ?]%Forall_cons; auto|]. intros fs'. rewrite <- Hfs. clear Hfs.
    pose proof (handle_spec message) as Hm. rewrite Ha in Hm.
    destruct Hm as (event & Hcont & <- & _ & Hh). cbn [turn]. rewrite Hh, lane_of_insert.
    rewrite decide_True by done. cbn [world]. unfold delivered. cbn [omap list_omap].
    rewrite Hcont, bool_decide_true by done. rewrite fmap_cons, <- app_assoc. done.
  - subst v. cbn [turn] in *.
    destruct (resume_seq f (lane_of u s) (task_of <$> delivered u acts) (world s))
      as [[Hn Hr]|Hr].
    + rewrite Hr in *. exists fs. split; [intros P [_ ?]%Forall_cons; auto|].
      intros fs'. rewrite <- Hfs, lane_of_insert, decide_True by done.
      rewrite <- seq_all_norm, Hn. done.
    + exists (f :: fs). split; [intros P [? ?]%Forall_cons; constructor; auto|].
      intros fs'. cbn [app]. change (delivered u (Resume u f :: acts)) with (delivered u acts).
      rewrite Hr. destruct (resume f (lane_of u s) (world s)) as [ps w].
      rewrite <- Hfs, lane_of_insert, decide_True by done. done.
Qed.
End interleave.
