(* ===== verification/ChainWorker.v ===== *)
(** The worker as it is built: the promise chains of [Chains] with the message programs
    of [Worker] as their tasks. It refines the worker with a lane per user
    ([Interleave]); its own steps always come to an end, and then every chain is drained
    and every delivery is settled. *)

From S2P Require Import Prelude Num Js Prog Db World Presence Locations Transition.
From S2P Require Import Report Ingest Worker WorkerCorrect Delivery Interleave.
From S2P Require Import Chains.

Section chain_worker.
Context {gis : PostGIS} {store : RedisStore} {lookup : AreaLookup}.
Variable config : RedisConfig.
Variable num_to_string : number → string.

(** ** The machine *)

(** The task of a running link is what is left of its program. *)
Record ChainWorker := {
  cw_chains : Chains (T := prog ioop unit);
  cw_world : World;
}.

(** A delivery; the task of a link starts, performs its next operation under a fault,
    or ends; a clean-up callback runs. *)
Inductive chain_event :=
| Receive (message : Message)
| Begin (n : nat)
| Step (n : nat) (f : fault)
| End (n : nat)
| Clean (n : nat).

Definition with_task (p : prog ioop unit) (l : Link (T := prog ioop unit)) : Link :=
  {| link_user := link_user l; link_task := p; link_prev := link_prev l;
     link_phase := link_phase l; link_cleaned := link_cleaned l |}.

(** How the promise of a task is settled, once nothing is left of its program. *)
Definition ending (p : prog ioop unit) : option outcome :=
  match p with Ret _ => Some Resolves | Throw _ => Some Rejects | Vis _ _ => None end.

Definition finished (p : prog ioop unit) : bool := bool_decide (is_Some (ending p)).

(** The next operation of a program: what is left of it, and the world after. *)
Definition perform (f : fault) (p : prog ioop unit) (w : World) :
    option (prog ioop unit * World) :=
  match p with
  | Vis op k => let '(r, w') := exec _ f op w in Some (k r, w')
  | Ret _ | Throw _ => None
  end.

Definition chain_turn (s : ChainWorker) (e : chain_event) : option ChainWorker :=
  match e with
  | Receive message =>
      match handle config num_to_string message with
      | inl nack => Some {| cw_chains := cw_chains s; cw_world := settle nack (cw_world s) |}
      | inr (u, task) =>
          Some {| cw_chains := enqueue u task (cw_chains s); cw_world := cw_world s |}
      end
  | Begin n =>
      c ← fire (Start n) (cw_chains s); Some {| cw_chains := c; cw_world := cw_world s |}
  | Step n f =>
      l ← links (cw_chains s) !! n;
      if bool_decide (link_phase l = Running)
      then '(p, w) ← perform f (link_task l) (cw_world s);
        Some {| cw_chains :=
                  {| userChains := userChains (cw_chains s);
                     links := <[n := with_task p l]> (links (cw_chains s)) |};
                cw_world := w |}
      else None
  | End n =>
      l ← links (cw_chains s) !! n;
      o ← ending (link_task l);
      c ← fire (Finish n o) (cw_chains s); Some {| cw_chains := c; cw_world := cw_world s |}
  | Clean n =>
      c ← fire (Cleanup n) (cw_chains s); Some {| cw_chains := c; cw_world := cw_world s |}
  end.

Fixpoint chain_turns (es : list chain_event) (s : ChainWorker) : option ChainWorker :=
  match es with
  | [] => Some s
  | e :: es => s' ← chain_turn s e; chain_turns es s'
  end.

(** A worker that has not received anything. *)
Definition fresh (w : World) : ChainWorker := {| cw_chains := no_chains; cw_world := w |}.

(** The turns of the worker with lanes that a turn of this worker amounts to. *)
Definition lane_events (s : ChainWorker) (e : chain_event) : list event_loop :=
  match e with
  | Receive message => [Deliver message]
  | Step n f =>
      match links (cw_chains s) !! n with
      | Some l => [Resume (link_user l) f]
      | None => []
      end
  | Begin _ | End _ | Clean _ => []
  end.

Fixpoint lane_trace (es : list chain_event) (s : ChainWorker) : list event_loop :=
  match es with
  | [] => []
  | e :: es =>
      lane_events s e ++
      match chain_turn s e with Some s' => lane_trace es s' | None => [] end
  end.

(** ** The simulation *)

(** The unsettled tasks of a user are its lane, finished heads aside. *)
Record simulates (s : ChainWorker) (l : Worker) : Prop := {
  sm_inv : chains_inv (cw_chains s);
  sm_world : world l = cw_world s;
  sm_lanes u : norm (lane_of u l) = norm (pending u (cw_chains s));
}.

Lemma norm_app ps qs : norm (ps ++ qs) = norm (norm ps ++ qs).
Proof. induction ps as [|[x|e|X op k] ps IH]; simpl; [done|apply IH|apply IH|done]. Qed.

Lemma norm_idemp ps : norm (norm ps) = norm ps.
Proof. pose proof (norm_app ps []) as Hn. by rewrite !app_nil_r in Hn. Qed.

Lemma task_step_inv s n l p :
  chains_inv (T := prog ioop unit) s → links s !! n = Some l → link_phase l = Running →
  chains_inv {| userChains := userChains s; links := <[n := with_task p l]> (links s) |}.
Proof.
  intros Hinv Hl Hph. apply (update_link_inv s _ n l); try done.
  - intros _. apply (ci_started _ Hinv n l Hl). by rewrite Hph.
  - by apply (ci_cleaned _ Hinv n l Hl).
  - by apply (ci_caught _ Hinv n l Hl).
  - intros u k Hk. split; [done|]. intros ->.
    destruct (ci_tail _ Hinv u n Hk) as (l' & Hl' & _ & Hc & _). simpl. congruence.
  - apply (ci_none _ Hinv).
Qed.

(** Changing the task of a running link changes the head of its user's queue only. *)
Lemma pending_step s n l p u :
  chains_inv (T := prog ioop unit) s → links s !! n = Some l → link_phase l = Running →
  ∃ rest, pending (link_user l) s = link_task l :: rest ∧
    pending u {| userChains := userChains s; links := <[n := with_task p l]> (links s) |} =
      if decide (link_user l = u) then p :: rest else pending u s.
Proof.
  intros Hinv Hl Hph.
  assert (He : earlier_settled s (link_user l) n)
    by (apply (ci_started _ Hinv n l Hl); by rewrite Hph).
  exists (tasks (link_user l) (drop (S n) (links s))). split.
  - by apply pending_head; [..|rewrite Hph|].
  - rewrite pending_tasks. cbn [links].
    destruct (tasks_insert u n l (with_task p l) (links s) Hl) as [H1 H2].
    case_decide as Hu.
    + subst u. rewrite H2, tasks_take_settled, tasks_cons, decide_True; [done| |done].
      split; [done|]. simpl. by rewrite Hph.
    + rewrite H2, pending_tasks, H1. do 2 f_equal. rewrite !tasks_cons.
      rewrite !decide_False by (by intros [? _]). done.
Qed.

(** One turn of the chains is matched by the turns of the lanes. *)
Lemma turn_simulated s e s' l :
  simulates s l → chain_turn s e = Some s' →
  simulates s' (foldl (turn config num_to_string) l (lane_events s e)).
Proof.
  intros [Hinv Hw Hl] Ht. destruct e as [message|n|n f|n|n]; cbn [chain_turn lane_events foldl] in *.
  - destruct (handle config num_to_string message) as [nack|[v task]] eqn:Hh;
      injection Ht as <-; cbn [turn]; rewrite Hh.
    + split; cbn [cw_chains cw_world world]; [done|by rewrite Hw|done].
    + split; cbn [cw_chains cw_world world]; [by apply chain_enqueue_inv|done|]. intros u.
      rewrite lane_of_insert, pending_enqueue. case_decide as Hv; [subst v|apply Hl].
      by rewrite norm_app, Hl, <- norm_app.
  - destruct (fire (Start n) (cw_chains s)) as [c|] eqn:Hf; [|done]. injection Ht as <-.
    pose proof (fire_inv _ _ _ Hinv Hf) as Hinv'.
    split; cbn [cw_chains cw_world]; [done|done|]. intros u. rewrite Hl. f_equal.
    apply fire_start in Hf as (x & Hx & Hph & _ & ->). symmetry.
    eapply pending_same; [done|done|]. unfold counts. simpl. rewrite Hph.
    by split; intros [? _].
  - destruct (links (cw_chains s) !! n) as [x|] eqn:Hx; [|done]. cbn [mbind option_bind] in Ht.
    case_bool_decide as Hph; [|done]. destruct (link_task x) as [a|a|X op k] eqn:Htask; [done..|].
    cbn [perform] in Ht.
    destruct (exec X f op (cw_world s)) as [r w] eqn:Hex. injection Ht as <-.
    cbn [turn foldl]. unfold resume. rewrite Hl, Hw.
    destruct (pending_step (cw_chains s) n x (k r) (link_user x) Hinv Hx Hph) as (rest & Hp & _).
    rewrite Hp, Htask. cbn [norm]. rewrite Hex.
    split; cbn [cw_chains cw_world world]; [by eapply task_step_inv|done|]. intros u.
    destruct (pending_step (cw_chains s) n x (k r) u Hinv Hx Hph) as (rest' & Hp' & ->).
    rewrite Hp in Hp'. injection Hp' as <-. rewrite lane_of_insert.
    case_decide as Hu; [apply (norm_idemp (k r :: rest))|apply Hl].
  - destruct (links (cw_chains s) !! n) as [x|] eqn:Hx; [|done]. cbn [mbind option_bind] in Ht.
    destruct (ending (link_task x)) as [o|] eqn:Hfin; [|done]. cbn [mbind option_bind] in Ht.
    destruct (fire (Finish n o) (cw_chains s)) as [c|] eqn:Hf; [|done]. injection Ht as <-.
    pose proof (fire_inv _ _ _ Hinv Hf) as Hinv'.
    split; cbn [cw_chains cw_world]; [done|done|]. intros u. rewrite Hl.
    apply fire_finish in Hf as (y & Hy & Hph & ->). assert (y = x) as -> by congruence.
    rewrite (pending_finish _ n x u Hinv Hx Hph). case_decide as Hu; [|done]. subst u.
    destruct (pending_step (cw_chains s) n x (link_task x) (link_user x) Hinv Hx Hph)
      as (rest & -> & _). by destruct (link_task x).
  - destruct (fire (Cleanup n) (cw_chains s)) as [c|] eqn:Hf; [|done]. injection Ht as <-.
    pose proof (fire_inv _ _ _ Hinv Hf) as Hinv'.
    split; cbn [cw_chains cw_world]; [done|done|]. intros u. rewrite Hl. f_equal. symmetry.
    apply fire_cleanup in Hf as (x & Hx & _ & _ & ->). by eapply pending_same.
Qed.

Lemma turns_simulated es s s' l :
  simulates s l → chain_turns es s = Some s' →
  simulates s' (foldl (turn config num_to_string) l (lane_trace es s)).
Proof.
  revert s l. induction es as [|e es IH]; intros s l Hs; simpl; [by intros [= <-]|].
  destruct (chain_turn s e) as [s1|] eqn:Ht; [|done]. intros Hts.
  rewrite foldl_app. eapply IH; [|done]. by eapply turn_simulated.
Qed.

(** ** What a trace of the lanes keeps *)

(** The deliveries among the events, and the faults of the steps. *)
Definition arrivals (es : list chain_event) : list event_loop :=
  omap (λ e, match e with Receive message => Some (Deliver message) | _ => None end) es.

Definition event_fault (P : fault → Prop) (e : chain_event) : Prop :=
  match e with Step _ f => P f | _ => True end.

Lemma delivered_app u acts acts' :
  delivered u (acts ++ acts') = delivered u acts ++ delivered u acts'.
Proof. apply omap_app. Qed.

Lemma delivered_trace u es s s' :
  chain_turns es s = Some s' → delivered u (lane_trace es s) = delivered u (arrivals es).
Proof.
  revert s. induction es as [|e es IH]; intros s; [done|]. cbn [chain_turns lane_trace].
  destruct (chain_turn s e) as [s1|] eqn:Ht; [|done]. intros Hs. rewrite delivered_app, (IH s1 Hs).
  destruct e as [message|n|n f|n|n]; try done; cbn [lane_events].
  - by rewrite <- delivered_app.
  - by destruct (links (cw_chains s) !! n).
Qed.

(** A turn adds links of the received message's user only. *)
Lemma turn_link_user s e s' m l :
  chain_turn s e = Some s' → links (cw_chains s') !! m = Some l →
  (∃ l0, links (cw_chains s) !! m = Some l0 ∧ link_user l0 = link_user l) ∨
  (∃ message event, e = Receive message ∧ message_user message = Some (link_user l) ∧
     msg_content message = Json event).
Proof.
  destruct e as [message|n|n f|n|n]; cbn [chain_turn]; intros Ht Hm.
  - pose proof (handle_spec config num_to_string message) as Hh.
    destruct (message_user message) as [u|] eqn:Hu.
    + destruct Hh as (event & Hc & <- & _ & Hh). rewrite Hh in Ht. injection Ht as <-.
      simpl in Hm. apply lookup_app_Some in Hm as [Hm|[_ Hm]]; [left; by eexists|right].
      apply list_lookup_singleton_Some in Hm as [_ <-]. by exists message, event.
    + rewrite Hh in Ht. injection Ht as <-. left. by eexists.
  - left. destruct (fire (Start n) (cw_chains s)) as [c|] eqn:Hf; [|done]. injection Ht as <-.
    by eapply fire_link_user.
  - left. destruct (links (cw_chains s) !! n) as [x|] eqn:Hx; [|done]. cbn [mbind option_bind] in Ht.
    case_bool_decide; [|done]. destruct (perform f (link_task x) (cw_world s)) as [[p w]|]; [|done].
    injection Ht as <-. simpl in Hm.
    apply (links_insert_lookup _ _ x) in Hm as [[-> ->]|[_ Hm]]; [by eexists|by eexists|done].
  - left. destruct (links (cw_chains s) !! n) as [x|] eqn:Hx; [|done]. cbn [mbind option_bind] in Ht.
    destruct (ending (link_task x)) as [o|]; [|done]. cbn [mbind option_bind] in Ht.
    destruct (fire (Finish n o) (cw_chains s)) as [c|] eqn:Hf; [|done]. injection Ht as <-.
    by eapply fire_link_user.
  - left. destruct (fire (Cleanup n) (cw_chains s)) as [c|] eqn:Hf; [|done]. injection Ht as <-.
    by eapply fire_link_user.
Qed.

(** A property of deliveries and of steps holds of the trace's events: [U] is what the
    users of the deliveries satisfy. *)
Lemma trace_Forall (Q : event_loop → Prop) (P : fault → Prop) (U : string → Prop) es s s' :
  (∀ u f, U u → P f → Q (Resume u f)) →
  (∀ u message, message_user message = Some u → Q (Deliver message) → U u) →
  (∀ n l, links (cw_chains s) !! n = Some l → U (link_user l)) →
  Forall Q (arrivals es) → Forall (event_fault P) es → chain_turns es s = Some s' →
  Forall Q (lane_trace es s).
Proof.
  intros HQ HU. revert s. induction es as [|e es IH]; intros s Hs Hq Hp; [done|].
  apply Forall_cons in Hp as [Hpe Hp]. cbn [chain_turns lane_trace].
  destruct (chain_turn s e) as [s1|] eqn:Ht; [|done]. intros Hts.
  assert (Hqes : Forall Q (arrivals es)).
  { destruct e; [|exact Hq..]. by apply Forall_cons in Hq as [_ ?]. }
  apply Forall_app. split.
  - destruct e as [message|n|n f|n|n]; cbn [lane_events]; try (by constructor).
    + apply Forall_cons in Hq as [? _]. by constructor.
    + destruct (links (cw_chains s) !! n) as [l|] eqn:Hl; [|constructor].
      apply Forall_singleton, HQ; [by eapply Hs|done].
  - apply IH; [|done..]. intros m l Hm.
    destruct (turn_link_user s e s1 m l Ht Hm) as [(l0 & Hl0 & <-)|(message & event & -> & Hu & _)];
      [by eapply Hs|]. apply Forall_cons in Hq as [Hqm _]. by eapply HU.
Qed.

(** The three properties the theorems ask of a trace, from those of the events. *)
Lemma trace_faults (P : fault → Prop) es w s :
  chain_turns es (fresh w) = Some s → Forall (event_fault P) es →
  Forall (act_fault P) (lane_trace es (fresh w)).
Proof.
  intros Hs Hes. apply (trace_Forall _ P (λ _, True) es (fresh w) s); try done.
  clear. induction es as [|[]]; simpl; [constructor|by constructor|done..].
Qed.

Lemma trace_honest tag_owner es w s :
  chain_turns es (fresh w) = Some s → Forall (honest tag_owner) (arrivals es) →
  Forall (honest tag_owner) (lane_trace es (fresh w)).
Proof.
  intros Hs Hes. apply (trace_Forall _ (λ _, True) (λ _, True) es (fresh w) s); try done.
  apply Forall_forall. by intros [].
Qed.

Lemma trace_colon_free es w s :
  chain_turns es (fresh w) = Some s → Forall colon_free (arrivals es) →
  Forall colon_free (lane_trace es (fresh w)).
Proof.
  intros Hs Hes.
  apply (trace_Forall _ (λ _, True) (λ u, no_colon u = true) es (fresh w) s); try done.
  - intros u message Hu Hf. by apply Hf.
  - apply Forall_forall. by intros [].
Qed.

(** ** The steps of the worker end *)

(** The events that nobody outside has to send, whatever fails in them. *)
Definition internal (e : chain_event) : Prop :=
  match e with Receive _ => False | _ => True end.

Definition internal_step (s' s : ChainWorker) : Prop :=
  ∃ e, internal e ∧ chain_turn s e = Some s'.

(** A link gets closer to its end by its phase or clean-up, or by its program. *)
Definition link_rank (l : Link (T := prog ioop unit)) : nat :=
  turns_left l + if link_cleaned l then 0 else 1.

Definition task_next (q p : prog ioop unit) : Prop :=
  match p with Vis op k => ∃ r, q = k r | Ret _ | Throw _ => False end.

Definition link_next (l' l : Link) : Prop :=
  link_rank l' < link_rank l ∨ ∃ q, task_next q (link_task l) ∧ l' = with_task q l.

Lemma link_next_acc l : Acc link_next l.
Proof.
  remember (link_rank l) as k eqn:Hk. revert l Hk.
  induction (lt_wf k) as [k _ IHk]. intros l ->. remember (link_task l) as p eqn:Hp.
  revert l Hp IHk. induction p as [a|e|X op k IH]; intros l Hp IHk;
    constructor; intros l' [Hr|(q & Hq & ->)]; try (by eapply IHk);
    rewrite <- Hp in Hq; simpl in Hq; [done..|].
  destruct Hq as [r ->]. by apply (IH r).
Qed.

(** One element of a list gets smaller. *)
Definition one_next {A} (R : A → A → Prop) (l' l : list A) : Prop :=
  ∃ n x y, l !! n = Some x ∧ R y x ∧ l' = <[n := y]> l.

Lemma one_next_acc {A} (R : A → A → Prop) l : Forall (Acc R) l → Acc (one_next R) l.
Proof.
  induction 1 as [|x l Hx _ IHl]; [constructor; by intros ? (n & x & y & ? & _)|].
  revert l IHl. induction Hx as [x _ IHx]. intros l Hl.
  induction Hl as [l Hl IHl]. constructor.
  intros l' ([|n] & x' & y & Hx' & HR & ->); simpl in *.
  - injection Hx' as <-. apply IHx; [done|by constructor].
  - apply IHl. by exists n, x', y.
Qed.

Lemma internal_step_links s' s :
  internal_step s' s → one_next link_next (links (cw_chains s')) (links (cw_chains s)).
Proof.
  intros ([message|n|n f|n|n] & Hi & Ht); [done|..]; cbn [chain_turn] in Ht.
  - destruct (fire (Start n) (cw_chains s)) as [c|] eqn:Hf; [|done]. injection Ht as <-.
    apply fire_start in Hf as (x & Hx & Hph & _ & ->). exists n, x. eexists.
    split; [done|split; [left|done]]. unfold link_rank, turns_left. simpl. rewrite Hph. lia.
  - destruct (links (cw_chains s) !! n) as [x|] eqn:Hx; [|done]. cbn [mbind option_bind] in Ht.
    case_bool_decide; [|done]. destruct (link_task x) as [a|a|X op k] eqn:Htask; [done..|].
    cbn [perform] in Ht. destruct (exec X f op (cw_world s)) as [r w]. injection Ht as <-.
    exists n, x. eexists. split; [done|split; [right|done]]. eexists. split; [|done].
    rewrite Htask. by exists r.
  - destruct (links (cw_chains s) !! n) as [y|] eqn:Hy; [|done]. cbn [mbind option_bind] in Ht.
    destruct (ending (link_task y)) as [o|]; [|done]. cbn [mbind option_bind] in Ht.
    destruct (fire (Finish n o) (cw_chains s)) as [c|] eqn:Hf; [|done]. injection Ht as <-.
    apply fire_finish in Hf as (x & Hx & Hph & ->). exists n, x. eexists.
    split; [done|split; [left|done]]. unfold link_rank, turns_left. simpl. rewrite Hph. lia.
  - destruct (fire (Cleanup n) (cw_chains s)) as [c|] eqn:Hf; [|done]. injection Ht as <-.
    apply fire_cleanup in Hf as (x & Hx & Hph & Hc & ->). exists n, x. eexists.
    split; [done|split; [left|done]]. unfold link_rank, turns_left. simpl. rewrite Hph, Hc. lia.
Qed.

(** Whatever fails, the worker cannot go on for ever without a new message. *)
Lemma internal_steps_end s : Acc internal_step s.
Proof.
  remember (links (cw_chains s)) as ls eqn:Hls. assert (Ha : Acc (one_next link_next) ls)
    by (apply one_next_acc, Forall_forall; intros; apply link_next_acc).
  revert s Hls. induction Ha as [ls _ IH]. intros s ->. constructor. intros s' Hs.
  by apply (IH (links (cw_chains s'))); [apply internal_step_links|].
Qed.

(** Where it cannot go on, every chain has been drained and cleaned up. *)
Lemma at_rest_drained s :
  chains_inv (cw_chains s) → (∀ e, internal e → chain_turn s e = None) →
  all_links_settled (cw_chains s) ∧ userChains (cw_chains s) = ∅.
Proof.
  intros Hinv Hrest. assert (Hall : all_links_settled (cw_chains s)).
  { intros n l Hl. destruct (decide (link_phase l = Fulfilled)) as [|Hph]; [done|exfalso].
    destruct (inv_progress _ n l Hinv Hl Hph) as (m & l' & _ & Hl' & _ & [[c Hc]|Hf]).
    - specialize (Hrest (Begin m) I). cbn [chain_turn] in Hrest. by rewrite Hc in Hrest.
    - destruct (Hf Resolves) as [c (x & Hx & Hpx & _)%fire_finish].
      destruct (ending (link_task x)) as [o|] eqn:He.
      + specialize (Hrest (End m) I). cbn [chain_turn] in Hrest. destruct (Hf o) as [c' Hc'].
        rewrite Hx in Hrest. cbn [mbind option_bind] in Hrest. rewrite He in Hrest.
        cbn [mbind option_bind] in Hrest. by rewrite Hc' in Hrest.
      + specialize (Hrest (Step m FOk) I). cbn [chain_turn] in Hrest. rewrite Hx in Hrest.
        cbn [mbind option_bind] in Hrest. rewrite bool_decide_true in Hrest by done.
        destruct (link_task x) as [a|a|X op k]; [done..|]. cbn [perform] in Hrest.
        by destruct (exec X FOk op (cw_world s)). }
  split; [done|]. apply map_eq. intros u. rewrite lookup_empty.
  destruct (userChains (cw_chains s) !! u) as [k|] eqn:Hk; [|done].
  destruct (ci_tail _ Hinv _ _ Hk) as (l & Hl & _ & Hc & _).
  specialize (Hrest (Clean k) I). cbn [chain_turn] in Hrest.
  assert (Hf : ∃ c, fire (Cleanup k) (cw_chains s) = Some c)
    by (eexists; apply fire_cleanup; exists l; split_and!; [done|by apply (Hall k)|done..]).
  destruct Hf as [c Hf]. by rewrite Hf in Hrest.
Qed.

Lemma settled_pending s u : all_links_settled s → pending (T := prog ioop unit) u s = [].
Proof.
  intros Hall. unfold pending. destruct (filter _ (links s)) as [|l ls] eqn:E; [done|exfalso].
  assert (Hl : l ∈ filter (λ l, link_user l = u ∧ link_phase l ≠ Fulfilled) (links s))
    by (rewrite E; left).
  apply list_elem_of_filter in Hl as [[_ Hph] [n Hn]%list_elem_of_lookup].
  by destruct Hph; apply (Hall n).
Qed.

(** Where every tail is fulfilled and cleaned up, nothing is left to do. *)
Lemma cleaned_at_rest s :
  Forall (λ l, link_phase l = Fulfilled ∧ link_cleaned l = true) (links (cw_chains s)) →
  ∀ e, internal e → chain_turn s e = None.
Proof.
  rewrite Forall_lookup. intros Hall [message|n|n f|n|n]; [done|..]; intros _;
    cbn [chain_turn fire]; destruct (links (cw_chains s) !! n) as [l|] eqn:Hl;
    cbn [mbind option_bind]; try done; destruct (Hall n l Hl) as [Hph Hc]; rewrite Hph, ?Hc; simpl;
    try done. by destruct (ending (link_task l)).
Qed.
End chain_worker.
