(* ===== verification/Settling.v ===== *)
(** Every delivery is settled once: what the program of a message still owes to its
    delivery tag, and the accounts of the worker with promise chains, whose settlements
    and open tags make up the deliveries it has received. *)

From S2P Require Import Prelude Num Js Prog Db World Presence Locations Transition.
From S2P Require Import Report Ingest Worker WorkerCorrect Delivery Interleave.
From S2P Require Import Chains ChainWorker.

(** The settlement an operation makes. *)
Definition settles {X} (op : ioop X) : option settlement :=
  match op with Settle st => Some st | _ => None end.

Definition next_settlement (p : prog ioop unit) : option settlement :=
  match p with Vis op _ => settles op | Ret _ | Throw _ => None end.

Section settling.
Context {gis : PostGIS} {store : RedisStore} {lookup : AreaLookup}.
Variable config : RedisConfig.
Variable num_to_string : number → string.

(** ** What a program owes *)

(** The answers an operation can get. *)
Definition answers {X} (op : ioop X) (r : exn + X) : Prop := ∃ f w, r = (exec X f op w).1.

(** Every path of the program comes to a settlement of [tag], after which nothing is
    left of it; where the settlement throws, the program ends or still owes it. A
    program whose exceptions are [handled] may also end in one before. *)
Fixpoint owes (handled : bool) (tag : nat) (p : prog ioop unit) : Prop :=
  match p with
  | Ret _ => False
  | Throw _ => handled = true
  | Vis op k =>
      match settles op with
      | Some st => settlement_tag st = tag ∧ (∀ x, ∃ a, k (inr x) = Ret a) ∧
          ∀ e, ending (k (inl e)) = None → owes handled tag (k (inl e))
      | None => ∀ r, answers op r → owes handled tag (k r)
      end
  end.

Lemma owes_try_catch tag p h :
  owes true tag p → (∀ e, owes false tag (h e)) → owes false tag (try_catch p h).
Proof.
  intros Hp Hh. induction p as [a|e|X op k IH]; [done|by apply Hh|]. cbn [owes try_catch] in *.
  destruct (settles op) as [st|]; [|by auto]. destruct Hp as (Ht & Hr & He). split_and!; [done|..].
  - intros x. destruct (Hr x) as [a ->]. by exists a.
  - intros e Hn. destruct (ending (k (inl e))) eqn:Hk; [|by apply IH, He].
    destruct (k (inl e)); [done|by apply Hh|done].
Qed.

(** A program that settles nothing leaves the debt to what comes after it. *)
Definition quiet {A} (p : prog ioop A) : Prop := all_ops (λ X op, settles op = None) p.

Lemma owes_bind {A} tag (p : prog ioop A) f :
  quiet p → (∀ a, owes true tag (f a)) → owes true tag (p ≫= f).
Proof.
  intros Hp Hf. induction p as [a|e|X op k IH]; [by apply Hf|done|].
  destruct Hp as [Hop Hk]. cbn [mbind prog_mbind prog_bind owes]. rewrite Hop.
  intros r _. apply IH, Hk.
Qed.

Lemma owes_settle handled st : owes handled (settlement_tag st) (await (Settle st)).
Proof. split; [done|split; [intros x; by exists x|done]]. Qed.

Lemma quiet_own {A} u (p : prog ioop A) : all_ops (own (λ _, None) u) p → quiet p.
Proof.
  unfold quiet. induction p as [a|e|X op k IH]; [done|done|]. intros [Hop Hk].
  split; [by destruct op|]. intros r. apply IH, Hk.
Qed.

Lemma settle_failure_owes tag e : owes false tag (settle_failure tag e).
Proof.
  unfold settle_failure. destruct (isStaleAreaViolation e);
    [|apply (owes_settle false (SNack tag false true))].
  intros r (f & w & ->). intros r (f' & w' & ->).
  apply (owes_settle false (SAck tag)).
Qed.

Lemma processEvent_owes tag event : owes false tag (processEvent config num_to_string tag event).
Proof.
  unfold processEvent. apply owes_try_catch; [|apply settle_failure_owes]. apply owes_bind.
  { unfold isDuplicate. destruct (ev_deviceId event), (ev_seq event); try done.
    split; [done|]. intros [|[n|]]; [done|done|]. split; [done|]. intros [|rows]; [done|].
    split; [done|by intros []]. }
  intros []; [apply (owes_settle true (SAck tag))|].
  apply owes_bind; [apply (quiet_own _ _ (own_report config num_to_string _ _ _))|]. intros _.
  apply owes_bind.
  { unfold rememberSeq. destruct (ev_deviceId event), (ev_seq event); try done.
    apply all_ops_bind; [by apply all_ops_await|]. intros known.
    destruct (_ <? _)%Z; [|done]. by apply all_ops_await. }
  intros _. apply owes_bind; [by apply all_ops_await|]. intros _.
  apply (owes_settle true (SAck tag)).
Qed.

Lemma handle_owes message :
  match handle config num_to_string message with
  | inl st => settlement_tag st = deliveryTag message
  | inr (_, task) => owes false (deliveryTag message) task
  end.
Proof.
  unfold handle. destruct (msg_content message) as [|event]; [done|].
  destruct (version_ok event); [apply processEvent_owes|done].
Qed.

(** ** The accounts *)

(** The deliveries received, and those settled. *)
Definition received (es : list chain_event) : list nat :=
  omap (λ e, match e with Receive message => Some (deliveryTag message) | _ => None end) es.

Definition settled_tags (w : World) : list nat := settlement_tag <$> w_settled w.

(** No settlement of a running task throws: the channel is open. *)
Definition ack_arrives (s : ChainWorker) (e : chain_event) : Prop :=
  match e with
  | Step n f =>
      match links (cw_chains s) !! n with
      | Some l => is_Some (next_settlement (link_task l)) → f = FOk
      | None => True
      end
  | _ => True
  end.

Fixpoint acks_arrive (es : list chain_event) (s : ChainWorker) : Prop :=
  match es with
  | [] => True
  | e :: es => ack_arrives s e ∧
      match chain_turn config num_to_string s e with
      | Some s' => acks_arrive es s'
      | None => True
      end
  end.

(** A link with the tag of its message: it owes the settlement, or nothing is left of
    its program. *)
Definition owing (x : nat * Link (T := prog ioop unit)) : Prop :=
  match ending (link_task x.2) with
  | None => owes false x.1 (link_task x.2) ∧ link_phase x.2 ≠ Fulfilled
  | Some _ => link_phase x.2 ≠ Waiting
  end.

Definition open_tag (x : nat * Link (T := prog ioop unit)) : option nat :=
  match ending (link_task x.2) with None => Some x.1 | Some _ => None end.

(** Settled, open and lost make up what was there before and what has been received. *)
Definition accounts (base rcv lost : list nat) (s : ChainWorker) : Prop :=
  ∃ gl, gl.*2 = links (cw_chains s) ∧ Forall owing gl ∧
    settled_tags (cw_world s) ++ omap open_tag gl ++ lost ≡ₚ base ++ rcv.

Lemma omap_insert_perm {A B} (f : A → option B) (l : list A) n x y :
  l !! n = Some x →
  omap f (<[n := y]> l) ++ option_list (f x) ≡ₚ omap f l ++ option_list (f y).
Proof.
  revert n. induction l as [|z l IH]; intros [|n]; [done|done|intros [= ->]|]; simpl.
  - destruct (f x), (f y); simpl; rewrite ?app_nil_r; try done.
    + by rewrite (Permutation_app_comm _ [_]), (Permutation_app_comm _ [_]); simpl;
        rewrite Permutation_swap.
    + by rewrite (Permutation_app_comm _ [_]).
    + by rewrite (Permutation_app_comm _ [_]).
  - intros Hl. specialize (IH n Hl). destruct (f z); simpl; [by rewrite IH|done].
Qed.

(** One link of the accounts is updated. *)
Lemma accounts_lookup gl (s : Chains (T := prog ioop unit)) n l :
  gl.*2 = links s → Forall owing gl → links s !! n = Some l →
  ∃ t, owing (t, l) ∧ ∀ l', owing (t, l') →
    (<[n := (t, l')]> gl).*2 = <[n := l']> (links s) ∧ Forall owing (<[n := (t, l')]> gl) ∧
    omap open_tag (<[n := (t, l')]> gl) ++ option_list (open_tag (t, l)) ≡ₚ
      omap open_tag gl ++ option_list (open_tag (t, l')).
Proof.
  intros Hgl Ho Hl. rewrite <- Hgl, list_lookup_fmap_Some in Hl.
  destruct Hl as ([t l0] & -> & Hn). exists t. rewrite Forall_lookup in Ho.
  split; [by apply (Ho n)|]. intros l' Ho'. split_and!.
  - by rewrite list_fmap_insert, Hgl.
  - apply Forall_insert; [by apply Forall_lookup|done].
  - by apply omap_insert_perm.
Qed.

Lemma accounts_same base rcv lost s n l l' m w :
  accounts base rcv lost s → links (cw_chains s) !! n = Some l → link_task l' = link_task l →
  (∀ t, owing (t, l) → owing (t, l')) → w = cw_world s →
  accounts base rcv lost {| cw_chains := {| userChains := m;
    links := <[n := l']> (links (cw_chains s)) |}; cw_world := w |}.
Proof.
  intros (gl & Hgl & Ho & Hp) Hl Ht Hk ->.
  destruct (accounts_lookup gl _ n l Hgl Ho Hl) as (t & Hot & Hup).
  destruct (Hup l' (Hk t Hot)) as (Hgl' & Ho' & Hp'). eexists. split_and!; [done|done|].
  replace (open_tag (t, l')) with (open_tag (t, l)) in Hp' by (unfold open_tag; simpl; by rewrite Ht).
  apply Permutation_app_inv_r in Hp'. cbn [cw_world]. by rewrite Hp'.
Qed.

Lemma exec_unsettling X f (op : ioop X) w :
  settles op = None → w_settled (exec X f op w).2 = w_settled w.
Proof.
  destruct op; simpl; try done; intros _.
  - by destruct (exec_query f q (w_db w)).
  - by destruct (exec_transaction f body (w_db w)).
  - by destruct f.
  - by destruct f.
  - by destruct f.
Qed.

Lemma perm_settled (S S' O O' L B new : list nat) t :
  O' ++ [t] ≡ₚ O → S' ++ new ≡ₚ S ++ [t] → S ++ O ++ L ≡ₚ B → S' ++ O' ++ new ++ L ≡ₚ B.
Proof.
  intros H1 H2 <-. rewrite <- H1. transitivity ((S' ++ new) ++ O' ++ L).
  - rewrite <- !app_assoc. f_equiv. rewrite !app_assoc. f_equiv. apply Permutation_app_comm.
  - rewrite H2, <- !app_assoc. f_equiv. rewrite !app_assoc. f_equiv. apply Permutation_app_comm.
Qed.

(** The task of a link goes on: either nothing is left of it, and its tag has been
    settled or is lost, or it still owes the settlement. *)
Lemma task_accounts base rcv lost s n l p w new :
  accounts base rcv lost s → links (cw_chains s) !! n = Some l → link_phase l = Running →
  ending (link_task l) = None →
  (∀ t, owes false t (link_task l) →
     match ending p with
     | Some _ => settled_tags w ++ new ≡ₚ settled_tags (cw_world s) ++ [t]
     | None => owes false t p ∧ new = [] ∧ settled_tags w = settled_tags (cw_world s)
     end) →
  accounts base rcv (new ++ lost) {| cw_chains := {| userChains := userChains (cw_chains s);
    links := <[n := with_task p l]> (links (cw_chains s)) |}; cw_world := w |}.
Proof.
  intros (gl & Hgl & Ho & Hp) Hl Hph Hend Hnew.
  destruct (accounts_lookup gl _ n l Hgl Ho Hl) as (t & Hot & Hup).
  unfold owing in Hot. cbn [fst snd] in Hot. rewrite Hend in Hot. specialize (Hnew t (proj1 Hot)).
  assert (Hopen : open_tag (t, l) = Some t) by (unfold open_tag; cbn [snd]; by rewrite Hend).
  assert (Hopen' : open_tag (t, with_task p l) =
    match ending p with None => Some t | Some _ => None end) by done.
  destruct (Hup (with_task p l)) as (Hgl' & Ho' & Hp').
  { unfold owing. cbn [fst snd link_task link_phase with_task]. rewrite Hph.
    destruct (ending p); [done|]. by split; [apply Hnew|]. }
  rewrite Hopen, Hopen' in Hp'. eexists. split_and!; [done|done|]. cbn [cw_world].
  destruct (ending p).
  - cbn [option_list] in Hp'. rewrite app_nil_r in Hp'. by eapply perm_settled.
  - destruct Hnew as (_ & -> & ->). apply Permutation_app_inv_r in Hp'. simpl. by rewrite Hp'.
Qed.

(** A running task performs an operation. *)
Lemma step_accounts base rcv lost s n l X (op : ioop X) k f r w :
  accounts base rcv lost s → links (cw_chains s) !! n = Some l → link_phase l = Running →
  link_task l = Vis op k → exec X f op (cw_world s) = (r, w) →
  ∃ new, ((is_Some (settles op) → f = FOk) → new = []) ∧
    accounts base rcv (new ++ lost) {| cw_chains := {| userChains := userChains (cw_chains s);
      links := <[n := with_task (k r) l]> (links (cw_chains s)) |}; cw_world := w |}.
Proof.
  intros Ha Hl Hph Ht Hex. destruct (settles op) as [st|] eqn:Hst.
  - destruct op as [| | | | | | | | | | | | | |st']; simplify_eq/=. destruct f; simplify_eq/=.
    { exists []. split; [done|]. eapply task_accounts; [done..|by rewrite Ht|]. rewrite Ht.
      intros t (<- & Hok & _). destruct (Hok tt) as [a ->]. cbn [ending].
      unfold settled_tags. cbn [settle w_settled]. by rewrite app_nil_r, fmap_app. }
    all: exists (match ending (k (inl e)) with Some _ => [settlement_tag st] | None => [] end).
    all: split; [by intros Hf; discriminate Hf; eexists|].
    all: eapply task_accounts; [done..|by rewrite Ht|]; rewrite Ht; intros t (<- & _ & He).
    all: destruct (ending (k (inl e))) eqn:Hk; [done|by split; [apply He|]].
  - exists []. split; [done|]. eapply task_accounts; [done..|by rewrite Ht|]. rewrite Ht.
    cbn [owes]. rewrite Hst. intros t Hk. specialize (Hk r (ex_intro _ f (ex_intro _ (cw_world s)
      (eq_sym (f_equal fst Hex))))).
    assert (Hw : settled_tags w = settled_tags (cw_world s)).
    { unfold settled_tags. f_equal. by rewrite <- (exec_unsettling X f op (cw_world s) Hst), Hex. }
    by destruct (k r).
Qed.

Lemma received_accounts base rcv lost s tag u task :
  accounts base rcv lost s → owes false tag task →
  accounts base (rcv ++ [tag]) lost
    {| cw_chains := enqueue u task (cw_chains s); cw_world := cw_world s |}.
Proof.
  intros (gl & Hgl & Ho & Hp) Htask.
  assert (Hend : ending task = None) by by destruct task.
  exists (gl ++ [(tag, {| link_user := u; link_task := task;
    link_prev := userChains (cw_chains s) !! u; link_phase := Waiting; link_cleaned := false |})]).
  split_and!.
  - by rewrite fmap_app, Hgl.
  - apply Forall_app. split; [done|]. apply Forall_singleton. unfold owing. simpl. by rewrite Hend.
  - rewrite omap_app. cbn [omap list_omap cw_world]. unfold open_tag at 2. simpl. rewrite Hend.
    rewrite (app_assoc base), <- Hp, <- !app_assoc. do 2 f_equiv. apply Permutation_app_comm.
Qed.

(** Every turn keeps the accounts: only a settlement that throws loses a tag. *)
Lemma turn_accounts base rcv lost s e s' :
  accounts base rcv lost s → chain_turn config num_to_string s e = Some s' →
  ∃ new, (ack_arrives s e → new = []) ∧ accounts base (rcv ++ received [e]) (new ++ lost) s'.
Proof.
  intros Ha. destruct e as [message|n|n f|n|n]; cbn [chain_turn received omap list_omap ack_arrives];
    rewrite ?app_nil_r; intros Ht.
  - exists []. split; [done|]. pose proof (handle_owes message) as Hm.
    destruct (handle config num_to_string message) as [st|[u task]]; injection Ht as <-;
      [|by apply received_accounts].
    destruct Ha as (gl & Hgl & Ho & Hp). exists gl. split_and!; [done|done|].
    unfold settled_tags in *. cbn [cw_world settle w_settled app]. rewrite fmap_app. simpl.
    rewrite Hm, (app_assoc base), <- Hp, <- !app_assoc. f_equiv. simpl.
    etransitivity; [apply Permutation_cons_append|by rewrite <- app_assoc].
  - destruct (fire (Start n) (cw_chains s)) as [c|] eqn:Hf; [|done]. injection Ht as <-.
    apply fire_start in Hf as (x & Hx & Hph & _ & ->). exists []. split; [done|].
    eapply accounts_same; [done..| |done]. intros t. unfold owing. simpl. rewrite Hph.
    destruct (ending (link_task x)); [done|]. by intros [? _].
  - destruct (links (cw_chains s) !! n) as [x|] eqn:Hx; [|done]. cbn [mbind option_bind] in Ht.
    case_bool_decide as Hph; [|done]. destruct (link_task x) as [a|a|X op k] eqn:Htask; [done..|].
    cbn [perform] in Ht. destruct (exec X f op (cw_world s)) as [r w] eqn:Hex. injection Ht as <-.
    by eapply step_accounts.
  - destruct (links (cw_chains s) !! n) as [y|] eqn:Hy; [|done]. cbn [mbind option_bind] in Ht.
    destruct (ending (link_task y)) as [o|] eqn:He; [|done]. cbn [mbind option_bind] in Ht.
    destruct (fire (Finish n o) (cw_chains s)) as [c|] eqn:Hf; [|done]. injection Ht as <-.
    apply fire_finish in Hf as (x & Hx & Hph & ->). assert (y = x) as -> by congruence.
    exists []. split; [done|]. eapply accounts_same; [done..| |done].
    intros t. unfold owing. simpl. by rewrite He.
  - destruct (fire (Cleanup n) (cw_chains s)) as [c|] eqn:Hf; [|done]. injection Ht as <-.
    apply fire_cleanup in Hf as (x & Hx & Hph & _ & ->). exists []. split; [done|].
    by eapply accounts_same.
Qed.

Lemma turns_accounts base rcv lost es s s' :
  accounts base rcv lost s → chain_turns config num_to_string es s = Some s' →
  ∃ lost', accounts base (rcv ++ received es) lost' s' ∧
    (lost = [] → acks_arrive es s → lost' = []).
Proof.
  revert rcv lost s. induction es as [|e es IH]; intros rcv lost s Ha; cbn [chain_turns acks_arrive].
  { intros [= <-]. exists lost. unfold received. simpl. by rewrite app_nil_r. }
  destruct (chain_turn config num_to_string s e) as [s1|] eqn:Ht; [|done]. intros Hs.
  destruct (turn_accounts _ _ _ _ _ _ Ha Ht) as (new & Hnew & Ha1).
  destruct (IH _ _ _ Ha1 Hs) as (lost' & Hl & Hnil). exists lost'. split.
  - replace (received (e :: es)) with (received [e] ++ received es)
      by (unfold received; by rewrite <- omap_app). by rewrite app_assoc.
  - intros -> [He Hes]. apply Hnil; [|done]. by rewrite (Hnew He).
Qed.

Lemma fresh_accounts w : accounts (settled_tags w) [] [] (fresh w).
Proof. exists []. split_and!; [done|constructor|by rewrite !app_nil_r]. Qed.

(** Where every link has ended, everything received has been settled or is lost. *)
Lemma accounts_settled base rcv lost s :
  accounts base rcv lost s → all_links_settled (cw_chains s) →
  settled_tags (cw_world s) ++ lost ≡ₚ base ++ rcv.
Proof.
  intros (gl & Hgl & Ho & <-) Hall.
  assert (Hopen : omap open_tag gl = []); [|by rewrite Hopen].
  assert (Hph : Forall (λ x, link_phase x.2 = Fulfilled) gl).
  { apply Forall_lookup. intros n x Hx. apply (Hall n). by rewrite <- Hgl, list_lookup_fmap, Hx. }
  clear Hgl. induction gl as [|x gl IH]; [done|]. apply Forall_cons in Ho as [Hx Ho].
  apply Forall_cons in Hph as [Hp Hph]. unfold owing in Hx. cbn [omap list_omap]. unfold open_tag at 1.
  destruct (ending (link_task x.2)); [by apply IH|by destruct Hx].
Qed.
End settling.
