(* ===== verification/Fixtures.v ===== *)
(** Concrete instances of the interfaces, and sample states and events: a validity
    test, a Redis that is a map with expiry times, an area lookup over rectangles,
    an R-tree that is a list, and a containment test by extent. The witnesses of the
    theorems evaluate the model on them. *)

From S2P Require Import Prelude Num Js Prog Spatial Db World Presence Locations Ingest.
From S2P Require Import Worker.

Local Open Scope Z_scope.

(** ** Instances *)

(** Every polygon with a ring of four positions or more is valid; the server knows no
    thirtieth of February. *)
Definition fx_postgis : PostGIS := {|
  st_is_valid p := match p with r :: _ => (4 <=? length r)%nat | [] => false end;
  st_is_valid_reason p := Some "Too few points";
  st_as_geojson p := p;
  timestamptz_refused s :=
    if bool_decide (s = "2026-02-30T12:00:00Z")
    then Some ("22008", "date/time field value out of range") else None;
|}.

(** Redis as a map from keys to values with their expiry time. *)
Definition fx_redis : RedisStore := {|
  redis := gmap string (string * Z);
  redis_get now k r :=
    match r !! k with
    | Some (v, expiry) => if decide (now < expiry) then Some v else None
    | None => None
    end;
  redis_set_ex now k v ttl r := <[k := (v, now + 1000 * ttl)]> r;
  redis_del k r := delete k r;
|}.

(** An R-tree that is a list, and containment by extent (exact for rectangles). *)
Definition fx_rbush : RBush := {|
  rb_tree := list IndexedArea;
  rb_load items := items;
  rb_search b t := filter (λ i, intersects (ia_box i) b = true) t;
|}.

Definition extent_test (p : position) (r : ring) : bool :=
  existsb (λ q, num_le q.1 p.1) r && existsb (λ q, num_le p.1 q.1) r &&
  existsb (λ q, num_le q.2 p.2) r && existsb (λ q, num_le p.2 q.2) r.

Definition fx_pip : PointInPolygon := {|
  booleanPointInPolygon p polygon :=
    match polygon with outer :: _ => extent_test p outer | [] => false end;
|}.

(** Areas as named rectangles; an answer names a rectangle once. *)
Definition rectangle : Type := string * Box.

Definition box_has (lng lat : number) (b : Box) : bool :=
  num_le (minX b) lng && num_le lng (maxX b) && num_le (minY b) lat && num_le lat (maxY b).

Definition fx_lookup : AreaLookup := {|
  area_index := list rectangle;
  find_covering i lng lat := inr (fst <$> filter (λ r, box_has lng lat r.2 = true) i);
|}.

(** ** Sample data *)

Definition zbox (x0 y0 x1 y1 : Z) : Box :=
  {| minX := num_of_Z x0; minY := num_of_Z y0; maxX := num_of_Z x1; maxY := num_of_Z y1 |}.

Definition zring (x0 y0 x1 y1 : Z) : ring :=
  [(num_of_Z x0, num_of_Z y0); (num_of_Z x1, num_of_Z y0); (num_of_Z x1, num_of_Z y1);
   (num_of_Z x0, num_of_Z y1); (num_of_Z x0, num_of_Z y0)].

(** Two areas that overlap between longitudes 5 and 10. *)
Definition fx_areas : list rectangle := [("area-b", zbox 5 0 15 10); ("area-a", zbox 0 0 10 10)].

Definition fx_area_row : AreaRow :=
  {| area_name := "warehouse"; area_created_at := 0; area_boundary := [zring 0 0 10 10] |}.

Definition fx_uuid (n : nat) : string :=
  "log-" +:+ String (Ascii.ascii_of_nat (48 + n)) "".

Definition fx_db : Db :=
  {| areas := {[ "area-a" := fx_area_row; "area-b" := fx_area_row ]};
     area_version := 3; user_area_presence := ∅; logs := [];
     user_event_state := ∅; now := 1000; uuids := fx_uuid; uuid_next := 0 |}.

Definition fx_world_of (R : redis (RedisStore := fx_redis)) (db : Db)
    (memory : gmap string (list string)) : @World fx_redis fx_lookup :=
  @mkWorld fx_redis fx_lookup db R 0 fx_areas memory no_metrics ∅ 0 0 [].

Definition fx_world : @World fx_redis fx_lookup := fx_world_of ∅ fx_db ∅.

Definition fx_config : RedisConfig :=
  {| presenceTtlEmptyS := 300; presenceTtlNonEmptyS := 15 |}.

Definition fx_num_to_string (n : number) : string := "n".

(** An event of user "u" at (lng, lat), of device "phone" with number [seq]. *)
Definition fx_event (lng lat : Z) (device : option string) (seq : option Z) (t : Z) :
    LocationEventV1 :=
  {| ev_v := JNum (num_of_Z 1); ev_eventId := "e"; ev_userId := "u";
     ev_deviceId := device; ev_seq := seq; ev_lat := num_of_Z lat; ev_lng := num_of_Z lng;
     ev_accuracy := Some (num_of_Z 10); ev_capturedAt := None; ev_receivedAt := t |}.

(** ** The instances satisfy the laws of their interfaces *)

Lemma fx_redis_laws : @RedisLaws fx_redis.
Proof.
  split; simpl.
  - intros. rewrite lookup_insert_eq. by rewrite decide_True by lia.
  - intros. rewrite lookup_insert_eq. by rewrite decide_False by lia.
  - intros. by rewrite lookup_insert_ne.
  - intros. by rewrite lookup_delete_eq.
  - intros. by rewrite lookup_delete_ne.
Qed.

Lemma fx_rbush_laws : @RBushLaws fx_rbush.
Proof. by split. Qed.

Lemma fx_pip_laws : @PointInPolygonLaws fx_pip.
Proof.
  split. intros p outer holes. simpl. unfold extent_test.
  rewrite !andb_true_iff, !existsb_exists.
  setoid_rewrite <- list_elem_of_In. unfold within_extent. tauto.
Qed.

Lemma fx_answer_NoDup (i : list rectangle) lng lat :
  NoDup (fst <$> i) → NoDup (fst <$> filter (λ r, box_has lng lat r.2 = true) i).
Proof.
  intros Hi. induction i as [|r i IH]; [done|]. rewrite fmap_cons in Hi.
  apply NoDup_cons in Hi as [Hni Hi]. rewrite filter_cons. case_decide; [|auto].
  rewrite fmap_cons. apply NoDup_cons. split; [|auto].
  rewrite list_elem_of_fmap. intros (x & Hx & Hin). apply list_elem_of_filter in Hin as [_ Hin].
  apply Hni. rewrite Hx. by apply list_elem_of_fmap_2.
Qed.

Definition fx_lookup_laws : @AreaLookupLaws fx_lookup.
Proof.
  refine (@Build_AreaLookupLaws fx_lookup (λ i : list rectangle, NoDup (fst <$> i)) _).
  simpl. intros i lng lat ids Hi [= <-]. by apply fx_answer_NoDup.
Qed.
