(* ===== verification/Harness.v ===== *)
(** The load harness, [src/scripts/measure-presence.mjs]: its polling loops, the tracers,
    the closed loop of the load, the warm-up that one hundred workers share, and the
    order in which [main] does things.

    Time is in nanoseconds; an awaited operation takes what the outside makes it take,
    and [setTimeout] no less than asked. What the pipeline shows of a user (rows of the
    log, rows of presence) and of a queue are functions of time: any behaviour of the
    system under test is one. *)

From S2P Require Import Prelude Num NumZ NumText Js Prog Stats.

Local Open Scope Z_scope.

(** ** Constants *)

Definition USERS : Z := 10000.
Definition WARM_WORKERS : nat := 100.
Definition TRACERS : nat := 8.
Definition TRACER_POLL_MS : Z := 25.
Definition DRAIN_POLL_MS : Z := 200.

(** [RUN_MS] and [WARMUP_MS] for a run of [seconds]. *)
Definition RUN_MS (seconds : Z) : Z := seconds * 1000.
Definition WARMUP_MS (seconds : Z) : Z := Z.min 2000 (RUN_MS seconds / 4).

Definition ACCEPTED : Z := 202.

(** ** The outside *)

Inductive lab_op : Type → Type :=
| DateNow : lab_op Z
| HrtimeBigint : lab_op Z
| Sleep (ms : Z) : lab_op unit
| PostLocation (user : string) (inside : bool) : lab_op Z
| LogCount (user : string) : lab_op Z
| PresenceCount (user : string) : lab_op Z
| CheckQueue (partition : nat) : lab_op (Z * Z)
| PurgeQueue (partition : nat) : lab_op unit.

Record Lab := {
  lb_now : Z;
  lb_costs : list Z;
  lb_statuses : list Z;
  lb_log : string → Z → Z;
  lb_presence : string → Z → Z;
  lb_queue : nat → Z → Z * Z;
  lb_sent : list (string * bool);
}.

Definition ms_of (ns : Z) : Z := ns / 1000000.

(** An operation ends: at least [least] nanoseconds, and its cost, have passed. *)
Definition elapse (least : Z) (w : Lab) : Lab :=
  {| lb_now := lb_now w + least + Z.max 0 (default 0 (head (lb_costs w)));
     lb_costs := tail (lb_costs w); lb_statuses := lb_statuses w; lb_log := lb_log w;
     lb_presence := lb_presence w; lb_queue := lb_queue w; lb_sent := lb_sent w |}.

(** A request leaves; its status is the next one of the schedule, 202 at the end of it. *)
Definition post (user : string) (inside : bool) (w : Lab) : Z * Lab :=
  (default ACCEPTED (head (lb_statuses w)),
   {| lb_now := lb_now w; lb_costs := lb_costs w; lb_statuses := tail (lb_statuses w);
      lb_log := lb_log w; lb_presence := lb_presence w; lb_queue := lb_queue w;
      lb_sent := lb_sent w ++ [(user, inside)] |}).

(** A query that fails throws; a request that fails has the status 0. *)
Definition asked {X} (f : fault) (answer : Z → X) (w : Lab) : (exn + X) * Lab :=
  match f with
  | FOk => (inr (answer (lb_now (elapse 1 w))), elapse 1 w)
  | FFail e | FLost e | FAt _ e => (inl e, elapse 1 w)
  end.

Definition exec_lab (X : Type) (f : fault) (op : lab_op X) (w : Lab) : (exn + X) * Lab :=
  match op in lab_op X return (exn + X) * Lab with
  | DateNow => (inr (ms_of (lb_now w)), w)
  | HrtimeBigint => (inr (lb_now w), w)
  | Sleep ms => (inr tt, elapse (ms * 1000000) w)
  | PostLocation user inside =>
      let '(status, w') := post user inside w in
      (inr (match f with FOk => status | _ => 0 end), elapse 1 w')
  | LogCount user => asked f (lb_log w user) w
  | PresenceCount user => asked f (lb_presence w user) w
  | CheckQueue i => asked f (lb_queue w i) w
  | PurgeQueue i => asked f (λ _, tt) w
  end.

(** ** Loops

    A loop that has no bound of its own takes fuel; [out_of_fuel] is the exception of a
    model that stops early, and the theorems show that it is never thrown. *)

Definition out_of_fuel : exn := Thrown (JStr "out of fuel").

(** The queue plane. *)
Fixpoint queueTotals (partitions : list nat) (messages consumers : Z) : prog lab_op (Z * Z) :=
  match partitions with
  | [] => mret (messages, consumers)
  | i :: rest =>
      q ← await (CheckQueue i);
      queueTotals rest (messages + q.1) (consumers + q.2)
  end.

Fixpoint purgeAllPartitions (partitions : list nat) : prog lab_op unit :=
  match partitions with
  | [] => mret tt
  | i :: rest => await (PurgeQueue i);; purgeAllPartitions rest
  end.

Fixpoint drain_loop (fuel : nat) (partitions : nat) (started timeoutMs : Z) : prog lab_op Z :=
  match fuel with
  | O => Throw out_of_fuel
  | S fuel =>
      totals ← queueTotals (seq 0 partitions) 0 0;
      if totals.1 =? 0 then now ← await DateNow; mret (now - started)
      else
        now ← await DateNow;
        if timeoutMs <? now - started then mret (-1)
        else await (Sleep DRAIN_POLL_MS);; drain_loop fuel partitions started timeoutMs
  end.

Definition waitForDrain (fuel partitions : nat) (timeoutMs : Z) : prog lab_op Z :=
  started ← await DateNow; drain_loop fuel partitions started timeoutMs.

(** [pollUntil(async () => test(await q), timeoutMs)]. *)
Fixpoint poll_loop (fuel : nat) (q : lab_op Z) (test : Z → bool) (deadline : Z) :
    prog lab_op bool :=
  match fuel with
  | O => Throw out_of_fuel
  | S fuel =>
      now ← await DateNow;
      if now <? deadline then
        n ← await q;
        if test n : bool then mret true
        else await (Sleep TRACER_POLL_MS);; poll_loop fuel q test deadline
      else mret false
  end.

Definition pollUntil (fuel : nat) (q : lab_op Z) (test : Z → bool) (timeoutMs : Z) :
    prog lab_op bool :=
  now ← await DateNow; poll_loop fuel q test (now + timeoutMs).

(** ** Tracers *)

Record TracerOut := {
  entryMs : list number;
  exitMs : list number;
  tr_errors : Z;
  tr_timeouts : Z;
}.

Definition no_samples : TracerOut :=
  {| entryMs := []; exitMs := []; tr_errors := 0; tr_timeouts := 0 |}.

Definition an_error (out : TracerOut) : TracerOut :=
  {| entryMs := entryMs out; exitMs := exitMs out; tr_errors := tr_errors out + 1;
     tr_timeouts := tr_timeouts out |}.

(** [Number(hrtime.bigint() - t0) / 1e6]. *)
Definition elapsed_ms (ns : Z) : number := num_div (num_of_Z ns) (num_of_Z 1000000).

(** The end of a measurement: a sample of an entry or of an exit, or a time-out. *)
Definition a_sample (entry seen : bool) (ns : Z) (out : TracerOut) : TracerOut :=
  {| entryMs := if entry && seen then entryMs out ++ [elapsed_ms ns] else entryMs out;
     exitMs := if negb entry && seen then exitMs out ++ [elapsed_ms ns] else exitMs out;
     tr_errors := tr_errors out;
     tr_timeouts := if seen then tr_timeouts out else tr_timeouts out + 1 |}.

(** After an accepted event: wait for its effect, take the time. *)
Definition measure (fuel : nat) (entry : bool) (q : lab_op Z) (test : Z → bool)
    (out : TracerOut) : prog lab_op TracerOut :=
  t0 ← await HrtimeBigint;
  seen ← pollUntil fuel q test 15000;
  t1 ← await HrtimeBigint;
  mret (a_sample entry seen (t1 - t0) out).

(** The [while] loop: [polls] is the fuel of each poll. *)
Fixpoint tracer_rounds (fuel polls : nat) (userId : string) (deadline : Z) (inside : bool)
    (out : TracerOut) : prog lab_op TracerOut :=
  match fuel with
  | O => Throw out_of_fuel
  | S fuel =>
      now ← await DateNow;
      if now <? deadline then
        if negb inside then
          before ← await (LogCount userId);
          status ← await (PostLocation userId true);
          if negb (status =? ACCEPTED)
          then tracer_rounds fuel polls userId deadline inside (an_error out)
          else
            out ← measure polls true (LogCount userId) (λ n, before <? n) out;
            tracer_rounds fuel polls userId deadline true out
        else
          status ← await (PostLocation userId false);
          if negb (status =? ACCEPTED)
          then tracer_rounds fuel polls userId deadline inside (an_error out)
          else
            out ← measure polls false (PresenceCount userId) (λ n, n =? 0) out;
            tracer_rounds fuel polls userId deadline false out
      else mret out
  end.

Definition tracerLoop (fuel polls : nat) (userId : string) (deadline : Z) :
    prog lab_op TracerOut :=
  await (PostLocation userId false);;
  pollUntil polls (PresenceCount userId) (λ n, n =? 0) 10000;;
  tracer_rounds fuel polls userId deadline false no_samples.

(** ** The closed loop *)

(** One worker of [runLoad]: what it counted after the warm-up, a status and a latency
    per request. *)
Fixpoint load_worker (fuel : nat) (makeRequest : prog lab_op Z) (warmupEnd end_ : Z)
    (out : list (Z * number)) : prog lab_op (list (Z * number)) :=
  match fuel with
  | O => Throw out_of_fuel
  | S fuel =>
      now ← await DateNow;
      if now <? end_ then
        t0 ← await HrtimeBigint;
        status ← makeRequest;
        t1 ← await HrtimeBigint;
        now ← await DateNow;
        load_worker fuel makeRequest warmupEnd end_
          (if warmupEnd <? now then out ++ [(status, elapsed_ms (t1 - t0))] else out)
      else mret out
  end.

(** [errors.set(status, (errors.get(status) ?? 0) + 1)]: a [Map] in insertion order. *)
Fixpoint bump_error (status : Z) (errors : list (Z * Z)) : list (Z * Z) :=
  match errors with
  | [] => [(status, 1)]
  | (s, n) :: rest => if s =? status then (s, n + 1) :: rest else (s, n) :: bump_error status rest
  end.

(** [+x.toFixed(0)] of a non-negative number. *)
Definition to_fixed0 (x : number) : number :=
  match x with
  | S754_finite false m e =>
      num_of_Z (if 0 <=? e then Z.shiftl (Zpos m) e else (2 * Zpos m + 2 ^ (- e)) / 2 ^ (1 - e))
  | _ => x
  end.

Record LoadResult := {
  lr_concurrency : Z;
  lr_requests : Z;
  lr_ingestThroughput : number;
  lr_requestLatency : option Stats;
  lr_errors : list (Z * Z);
}.

(** The result, from the samples of all the workers in the order they were counted. *)
Definition load_result (seconds concurrency okStatus : Z) (samples : list (Z * number)) :
    LoadResult :=
  let count := Z.of_nat (length samples) in
  {| lr_concurrency := concurrency;
     lr_requests := count;
     lr_ingestThroughput := to_fixed0 (num_div (num_of_Z count)
       (num_div (num_of_Z (RUN_MS seconds - WARMUP_MS seconds)) (num_of_Z 1000)));
     lr_requestLatency := stats (snd <$> filter (λ s, s.1 = okStatus) samples);
     lr_errors := foldl (λ errors s, if s.1 =? okStatus then errors else bump_error s.1 errors)
       [] samples |}.

(** ** The warm-up

    The workers share the counter [next]: the test of it and its increment are one
    synchronous step, and a worker then waits for the answer of its request. *)

Inductive warm_worker := Checking | Posting (uid : nat) | Finished.

Record Warm := { wm_next : nat; wm_workers : list warm_worker; wm_posted : list nat }.

Definition set_worker (i : nat) (x : warm_worker) (s : Warm) : Warm :=
  {| wm_next := wm_next s; wm_workers := <[i := x]> (wm_workers s); wm_posted := wm_posted s |}.

Inductive warm_step (users : nat) : Warm → Warm → Prop :=
| warm_take i s :
    wm_workers s !! i = Some Checking → (wm_next s < users)%nat →
    warm_step users s
      {| wm_next := S (wm_next s); wm_workers := <[i := Posting (wm_next s)]> (wm_workers s);
         wm_posted := wm_posted s ++ [wm_next s] |}
| warm_answer i uid s :
    wm_workers s !! i = Some (Posting uid) → warm_step users s (set_worker i Checking s)
| warm_finish i s :
    wm_workers s !! i = Some Checking → (users <= wm_next s)%nat →
    warm_step users s (set_worker i Finished s).

Definition warm_start (workers : nat) : Warm :=
  {| wm_next := 0; wm_workers := replicate workers Checking; wm_posted := [] |}.

(** ** The main program *)

Inductive main_op : Type → Type :=
| ConnectAmqp : main_op unit
| SelectLoadArea : main_op nat
| QueueTotals : main_op (Z * Z)
| TruncateTables : main_op unit
| PurgePartitions : main_op unit
| WarmAllUsersInside : main_op unit
| WaitForDrain (timeoutMs : Z) : main_op Z
| RunFloor (name : string) (concurrency : Z) : main_op unit
| MeasureRun (workload : string) (concurrency : Z) (tracers : bool) : main_op unit
| PrintRow (workload : string) (concurrency : Z) (drained : option Z) : main_op unit
| ExitProcess (code : Z) : main_op unit
| SetExitCode (code : Z) : main_op unit
| CloseClients : main_op unit.

(** [for (const x of xs) await f(x)]. *)
Fixpoint for_each {E A} (f : A → prog E unit) (xs : list A) : prog E unit :=
  match xs with [] => mret tt | x :: xs => f x;; for_each f xs end.

(** [ensurePrerequisites]: [None] when the process was ended. *)
Definition ensurePrerequisites : prog main_op (option bool) :=
  rows ← await SelectLoadArea;
  if bool_decide (rows = 0%nat) then await (ExitProcess 1);; mret None
  else
    totals ← await QueueTotals;
    mret (Some (0 <? totals.2)).

Definition warmAllUsersInside (workerPresent : bool) : prog main_op unit :=
  await WarmAllUsersInside;;
  if workerPresent then await (WaitForDrain 180000);; mret tt else mret tt.

Definition one_measurement (workload : string) (workerPresent : bool) (c : Z) :
    prog main_op unit :=
  await PurgePartitions;;
  await (MeasureRun workload c workerPresent);;
  drained ← (if workerPresent then ms ← await (WaitForDrain 120000); mret (Some ms)
             else mret None);
  await (PrintRow workload c drained).

Definition one_workload (concurrencies : list Z) (workerPresent : bool) (workload : string) :
    prog main_op unit :=
  (if bool_decide (workload = "transition"%string) then warmAllUsersInside workerPresent
   else mret tt);;
  for_each (one_measurement workload workerPresent) concurrencies.

Definition CONCURRENCIES (quick : bool) : list Z := if quick then [50] else [10; 50; 200; 500].

Definition main (mode : string) (quick : bool) : prog main_op unit :=
  if bool_decide (mode = "floors"%string) then
    for_each (λ name, for_each (λ c, await (RunFloor name c)) (CONCURRENCIES quick))
      ["floor-404 (pure Node, no broker)"; "floor-health (1 DB ping)"]%string;;
    await CloseClients
  else if bool_decide (mode = "measure"%string) then
    await ConnectAmqp;;
    prerequisites ← ensurePrerequisites;
    match prerequisites with
    | None => mret tt
    | Some workerPresent =>
        await TruncateTables;;
        await PurgePartitions;;
        warmAllUsersInside workerPresent;;
        for_each (one_workload (CONCURRENCIES quick) workerPresent) ["static"; "transition"]%string;;
        await CloseClients
    end
  else await (SetExitCode 1);; await CloseClients.

(** [main().catch(...)]. *)
Definition main_process (mode : string) (quick : bool) : prog main_op unit :=
  try_catch (main mode quick) (λ _, await (ExitProcess 1)).

(** What [main] finds outside: the number of areas named load-area, the consumers, what
    the waits for a drained queue return; and the trace of what it did. *)
Inductive main_event :=
| Did {X : Type} (op : main_op X).

Record Site := {
  si_areas : nat;
  si_messages : Z;
  si_consumers : Z;
  si_drains : list Z;
  si_trace : list main_event;
}.

Definition did {X} (op : main_op X) (s : Site) : Site :=
  {| si_areas := si_areas s; si_messages := si_messages s; si_consumers := si_consumers s;
     si_drains := match op with WaitForDrain _ => tail (si_drains s) | _ => si_drains s end;
     si_trace := si_trace s ++ [Did op] |}.

(** The operations that touch a server can fail; printing and ending the process cannot. *)
Definition exec_main (X : Type) (f : fault) (op : main_op X) (s : Site) : (exn + X) * Site :=
  let remote {Y} (y : Y) : exn + Y :=
    match f with FOk => inr y | FFail e | FLost e | FAt _ e => inl e end in
  (match op in main_op X return exn + X with
   | SelectLoadArea => remote (si_areas s)
   | QueueTotals => remote (si_messages s, si_consumers s)
   | WaitForDrain _ => remote (default (-1) (head (si_drains s)))
   | ConnectAmqp | TruncateTables | PurgePartitions | WarmAllUsersInside | CloseClients => remote tt
   | RunFloor _ _ | MeasureRun _ _ _ => remote tt
   | PrintRow _ _ _ | ExitProcess _ | SetExitCode _ => inr tt
   end, did op s).

(** ** Lemmas: time *)

(** The exceptions of the outside are not the model's own. *)
Definition lab_fault (f : fault) : Prop :=
  match f with FOk => True | FFail e | FLost e | FAt _ e => e ≠ out_of_fuel end.

(** The system under test is the same, and no event was sent. *)
Record same_lab (w w' : Lab) : Prop := {
  sl_log : lb_log w' = lb_log w;
  sl_presence : lb_presence w' = lb_presence w;
  sl_queue : lb_queue w' = lb_queue w;
  sl_sent : lb_sent w' = lb_sent w;
  sl_now : lb_now w <= lb_now w';
}.

#[export] Instance same_lab_preorder : PreOrder same_lab.
Proof.
  split; [by split|]. intros a b c [? ? ? ? ?] [? ? ? ? ?]. split; try congruence. lia.
Qed.

Lemma elapse_same least w : 0 <= least → same_lab w (elapse least w).
Proof. intros H. split; simpl; try done. lia. Qed.

Lemma elapse_now least w : lb_now w + least <= lb_now (elapse least w).
Proof. simpl. lia. Qed.

Lemma ms_of_mono a b : a <= b → ms_of a <= ms_of b.
Proof. intros H. unfold ms_of. by apply Z.div_le_mono. Qed.

Lemma ms_of_add a k : ms_of (a + k * 1000000) = ms_of a + k.
Proof. unfold ms_of. by rewrite Z.div_add. Qed.

Lemma ms_of_after_sleep k w : ms_of (lb_now w) + k <= ms_of (lb_now (elapse (k * 1000000) w)).
Proof.
  rewrite <- ms_of_add. apply ms_of_mono, elapse_now.
Qed.

(** A question about a user: its answer over time. *)
Definition question (q : lab_op Z) : Prop :=
  ∃ u, q = LogCount u ∨ q = PresenceCount u.

Definition shown (q : lab_op Z) (w : Lab) : Z → Z :=
  match q in lab_op X return Z → Z with
  | LogCount u => lb_log w u
  | PresenceCount u => lb_presence w u
  | _ => λ _, 0
  end.

Lemma exec_question q f w : question q → exec_lab Z f q w = asked f (shown q w) w.
Proof. by intros [u [->| ->]]. Qed.

Lemma shown_same q w w' : same_lab w w' → shown q w' = shown q w.
Proof. intros [H1 H2 _ _ _]. unfold shown. by rewrite H1, H2. Qed.

(** ** Polling *)

Definition poll_outcome (q : lab_op Z) (test : Z → bool) (deadline : Z) (w : Lab)
    (r : exn + bool) (w' : Lab) : Prop :=
  same_lab w w' ∧
  match r with
  | inr true => test (shown q w (lb_now w')) = true
  | inr false => deadline <= ms_of (lb_now w')
  | inl e => e ≠ out_of_fuel
  end.

Lemma poll_loop_wp fuel q test deadline w :
  question q → (1 <= fuel)%nat →
  deadline - ms_of (lb_now w) <= TRACER_POLL_MS * (Z.of_nat fuel - 1) →
  wp exec_lab lab_fault (poll_loop fuel q test deadline) (poll_outcome q test deadline w) w.
Proof.
  intros Hq. revert w. induction fuel as [|fuel IH]; intros w H1 Hfuel; [lia|].
  cbn [poll_loop]. apply wp_bind, wp_await. intros f0 _. cbn [exec_lab fst snd].
  destruct (Z.ltb_spec (ms_of (lb_now w)) deadline) as [Hlt|Hge]; [|by split].
  apply wp_bind, wp_await. intros f Hf. rewrite (exec_question _ _ _ Hq).
  pose proof (elapse_same 1 w ltac:(lia)) as Hs1.
  destruct f as [|e|e|n e]; cbn [asked fst snd]; [|by split..].
  destruct (test (shown q w (lb_now (elapse 1 w)))) eqn:Ht.
  - split; [done|exact Ht].
  - apply wp_bind, wp_await. intros g _. cbn [exec_lab fst snd].
    set (w1 := elapse 1 w). set (w2 := elapse (TRACER_POLL_MS * 1000000) w1).
    assert (Hs2 : same_lab w1 w2) by (apply elapse_same; unfold TRACER_POLL_MS; lia).
    pose proof (ms_of_after_sleep TRACER_POLL_MS w1) as Hms. fold w2 in Hms.
    pose proof (ms_of_mono _ _ (sl_now _ _ Hs1)) as Hms1. fold w1 in Hms1.
    assert (Hs : same_lab w w2) by (by etrans).
    eapply wp_mono; [|apply IH; unfold TRACER_POLL_MS in *; lia].
    intros r w' [Hsame Hr]. split; [by etrans|]. by destruct r as [e|[]].
Qed.

(** The fuel that a poll of [timeoutMs] needs, and more. *)
Definition enough_polls (fuel : nat) (timeoutMs : Z) : Prop :=
  timeoutMs <= TRACER_POLL_MS * (Z.of_nat fuel - 1) ∧ (1 <= fuel)%nat.

Lemma pollUntil_wp fuel q test timeoutMs w :
  question q → enough_polls fuel timeoutMs →
  wp exec_lab lab_fault (pollUntil fuel q test timeoutMs)
    (poll_outcome q test (ms_of (lb_now w) + timeoutMs) w) w.
Proof.
  intros Hq [Hf H1]. unfold pollUntil. apply wp_bind, wp_await. intros f _.
  cbn [exec_lab fst snd]. apply poll_loop_wp; [done|done|lia].
Qed.

(** The number of operations of a poll: three per interval. *)
Lemma poll_loop_length fuel q test deadline fs w k :
  question q → deadline - ms_of (lb_now w) <= TRACER_POLL_MS * Z.of_nat k →
  (run_length exec_lab (poll_loop fuel q test deadline) fs w <= 3 * k + 1)%nat.
Proof.
  intros Hq. revert fs w k. induction fuel as [|fuel IH]; intros fs w k Hk; [simpl; lia|].
  simpl. destruct (Z.ltb_spec (ms_of (lb_now w)) deadline) as [Hlt|Hge]; [|simpl; lia].
  destruct k as [|k]; [unfold TRACER_POLL_MS in Hk; lia|]. simpl.
  rewrite (exec_question _ _ _ Hq).
  destruct (default FOk (head (tail fs))) as [|e|e|n e]; cbn [asked]; [|simpl; lia..]. simpl.
  match goal with |- context [test ?v] => destruct (test v) end; [simpl; lia|]. simpl.
  set (w1 := elapse 1 w). set (w2 := elapse (TRACER_POLL_MS * 1000000) w1).
  pose proof (ms_of_after_sleep TRACER_POLL_MS w1) as Hms. fold w2 in Hms.
  pose proof (ms_of_mono _ _ (sl_now _ _ (elapse_same 1 w ltac:(lia)))) as Hms1. fold w1 in Hms1.
  specialize (IH (tail (tail (tail fs))) w2 k). unfold TRACER_POLL_MS in *.
  change (elapse (25 * 1000000) w1) with w2. lia.
Qed.

(** ** Tracers *)

(** How many events the tracer has an outcome for. *)
Definition outcomes (out : TracerOut) : Z :=
  Z.of_nat (length (entryMs out)) + Z.of_nat (length (exitMs out)) + tr_errors out +
  tr_timeouts out.

Definition sent_count (w : Lab) : Z := Z.of_nat (length (lb_sent w)).

Lemma outcomes_error out : outcomes (an_error out) = outcomes out + 1.
Proof. unfold outcomes. simpl. lia. Qed.

Lemma outcomes_sample entry seen ns out :
  outcomes (a_sample entry seen ns out) = outcomes out + 1.
Proof. unfold outcomes. destruct entry, seen; simpl; rewrite ?length_app; simpl; lia. Qed.

Lemma measure_wp fuel entry q test out w :
  question q → enough_polls fuel 15000 →
  wp exec_lab lab_fault (measure fuel entry q test out)
    (λ r w', same_lab w w' ∧
       match r with inr out' => outcomes out' = outcomes out + 1 | inl e => e ≠ out_of_fuel end) w.
Proof.
  intros Hq Hf. unfold measure. apply wp_bind, wp_await. intros f _. cbn [exec_lab fst snd].
  apply wp_bind. eapply wp_mono; [|by apply pollUntil_wp].
  intros r w' [Hsame Hr]. destruct r as [e|seen]; [by split|].
  apply wp_bind, wp_await. intros g _. cbn [exec_lab fst snd]. simpl.
  split; [done|]. apply outcomes_sample.
Qed.

Lemma post_wp user inside (Q : exn + Z → Lab → Prop) w :
  (∀ status w', sent_count w' = sent_count w + 1 → lb_now w + 1 <= lb_now w' → Q (inr status) w') →
  wp exec_lab lab_fault (await (PostLocation user inside)) Q w.
Proof.
  intros HQ. apply wp_await. intros f _. simpl. apply HQ.
  - unfold sent_count. simpl. rewrite length_app. simpl. lia.
  - simpl. lia.
Qed.

(** How the rounds of a tracer end. *)
Definition rounds_outcome (deadline : Z) (out : TracerOut) (w : Lab) (r : exn + TracerOut)
    (w' : Lab) : Prop :=
  match r with
  | inl e => e ≠ out_of_fuel
  | inr out' =>
      deadline <= ms_of (lb_now w') ∧
      outcomes out' - outcomes out = sent_count w' - sent_count w
  end.

Lemma rounds_outcome_step deadline out out1 w w1 r w' :
  outcomes out1 = outcomes out + 1 → sent_count w1 = sent_count w + 1 →
  rounds_outcome deadline out1 w1 r w' → rounds_outcome deadline out w r w'.
Proof. unfold rounds_outcome. destruct r; [done|]. intros ? ? []. split; [done|lia]. Qed.

Lemma tracer_rounds_wp fuel polls userId deadline inside out w :
  enough_polls polls 15000 → (1 <= fuel)%nat →
  deadline * 1000000 - lb_now w <= Z.of_nat fuel - 1 →
  wp exec_lab lab_fault (tracer_rounds fuel polls userId deadline inside out)
    (rounds_outcome deadline out w) w.
Proof.
  intros Hp. revert inside out w. induction fuel as [|fuel IH]; intros inside out w H1 Hfuel; [lia|].
  cbn [tracer_rounds]. apply wp_bind, wp_await. intros f0 _. cbn [exec_lab fst snd].
  destruct (Z.ltb_spec (ms_of (lb_now w)) deadline) as [Hlt|Hge]; [|by split; [|lia]].
  assert (Hbig : lb_now w + 1 <= deadline * 1000000).
  { unfold ms_of in Hlt. pose proof (Z.div_mod (lb_now w) 1000000 ltac:(lia)).
    pose proof (Z.mod_pos_bound (lb_now w) 1000000 ltac:(lia)). lia. }
  assert (Hnext : ∀ inside' out1 w1, outcomes out1 = outcomes out + 1 →
    sent_count w1 = sent_count w + 1 → lb_now w + 1 <= lb_now w1 →
    wp exec_lab lab_fault (tracer_rounds fuel polls userId deadline inside' out1)
      (rounds_outcome deadline out w) w1).
  { intros inside' out1 w1 Ho Hs Hn. eapply wp_mono; [|apply IH; lia].
    intros r w'. by apply rounds_outcome_step. }
  assert (Hmeasure : ∀ entry q test w1, question q → sent_count w1 = sent_count w + 1 →
    lb_now w + 1 <= lb_now w1 →
    wp exec_lab lab_fault (out' ← measure polls entry q test out;
      tracer_rounds fuel polls userId deadline entry out') (rounds_outcome deadline out w) w1).
  { intros entry q test w1 Hq Hs Hn. apply wp_bind. eapply wp_mono; [|by apply measure_wp].
    intros [e|out'] w2 [Hsame Hr]; [done|]. destruct Hsame as [_ _ _ Hsent Hnow].
    apply Hnext; [done| |lia]. unfold sent_count in *. by rewrite Hsent. }
  assert (Hpost : ∀ w0, sent_count w0 = sent_count w → lb_now w <= lb_now w0 →
    ∀ event q test, question q →
    wp exec_lab lab_fault (status ← await (PostLocation userId event);
      if negb (status =? ACCEPTED)
      then tracer_rounds fuel polls userId deadline inside (an_error out)
      else out' ← measure polls event q test out;
           tracer_rounds fuel polls userId deadline event out')
      (rounds_outcome deadline out w) w0).
  { intros w0 Hs0 Hn0 event q test Hq. apply wp_bind, post_wp. intros status w1 Hs Hn.
    destruct (negb (status =? ACCEPTED)).
    - apply Hnext; [apply outcomes_error|lia|lia].
    - apply Hmeasure; [done|lia|lia]. }
  destruct inside; cbn [negb].
  - apply Hpost; [done|lia|]. exists userId. by right.
  - apply wp_bind, wp_await. intros f Hf. cbn [exec_lab].
    destruct f as [|e|e|n e]; cbn [asked fst snd]; [|done..].
    apply Hpost; [done|simpl; lia|]. exists userId. by left.
Qed.

(** ** Draining *)

(** The queues never hold a negative number of messages. *)
Definition counts_ok (w : Lab) : Prop := ∀ i t, 0 <= (lb_queue w i t).1.

(** A partition was seen empty between two instants. *)
Definition seen_empty (w : Lab) (t1 t2 : Z) (i : nat) : Prop :=
  ∃ t, t1 <= t <= t2 ∧ (lb_queue w i t).1 = 0.

Lemma queueTotals_wp partitions messages consumers w :
  counts_ok w →
  wp exec_lab lab_fault (queueTotals partitions messages consumers)
    (λ r w', same_lab w w' ∧
       match r with
       | inl e => e ≠ out_of_fuel
       | inr totals => messages <= totals.1 ∧
           (totals.1 = messages → Forall (seen_empty w (lb_now w) (lb_now w')) partitions)
       end) w.
Proof.
  revert messages consumers w. induction partitions as [|i rest IH]; intros messages consumers w Hok.
  { simpl. split; [done|]. split; [lia|done]. }
  cbn [queueTotals]. apply wp_bind, wp_await. intros f Hf. cbn [exec_lab].
  pose proof (elapse_same 1 w ltac:(lia)) as Hs1. set (w1 := elapse 1 w) in *.
  destruct f as [|e|e|n e]; cbn [asked fst snd]; [|by split..]. fold w1.
  eapply wp_mono; [|by apply IH]. intros r w' [Hs Hr]. split; [by etrans|].
  destruct r as [e|totals]; [done|]. destruct Hr as [Hle Heq].
  pose proof (Hok i (lb_now w1)) as H0. split; [lia|]. intros Ht. constructor.
  - exists (lb_now w1). pose proof (sl_now _ _ Hs1). pose proof (sl_now _ _ Hs). split; lia.
  - eapply Forall_impl; [apply Heq; lia|]. intros j (t & Ht1 & Hj). exists t. split; [|done].
    pose proof (sl_now _ _ Hs1). lia.
Qed.

Definition drain_outcome (partitions : nat) (started timeoutMs : Z) (w : Lab) (r : exn + Z)
    (w' : Lab) : Prop :=
  same_lab w w' ∧
  match r with
  | inl e => e ≠ out_of_fuel
  | inr ms =>
      (ms = ms_of (lb_now w') - started ∧
       Forall (seen_empty w (lb_now w) (lb_now w')) (seq 0 partitions)) ∨
      (ms = -1 ∧ timeoutMs < ms_of (lb_now w') - started)
  end.

Lemma drain_loop_wp fuel partitions started timeoutMs w :
  counts_ok w → (1 <= fuel)%nat →
  started + timeoutMs - ms_of (lb_now w) < DRAIN_POLL_MS * (Z.of_nat fuel - 1) →
  wp exec_lab lab_fault (drain_loop fuel partitions started timeoutMs)
    (drain_outcome partitions started timeoutMs w) w.
Proof.
  revert w. induction fuel as [|fuel IH]; intros w Hok H1 Hfuel; [lia|].
  cbn [drain_loop]. apply wp_bind. eapply wp_mono; [|by apply queueTotals_wp].
  intros [e|totals] w1 [Hs1 Hr]; [by split|]. destruct Hr as [Hle Heq].
  destruct (Z.eqb_spec totals.1 0) as [Hz|Hnz].
  { apply wp_bind, wp_await. intros f _. cbn [exec_lab fst snd]. split; [done|]. left.
    split; [done|]. by apply Heq. }
  apply wp_bind, wp_await. intros f _. cbn [exec_lab fst snd].
  pose proof (ms_of_mono _ _ (sl_now _ _ Hs1)) as Hms1.
  destruct (Z.ltb_spec timeoutMs (ms_of (lb_now w1) - started)) as [Hlt|Hge].
  { split; [done|]. by right. }
  apply wp_bind, wp_await. intros g _. cbn [exec_lab fst snd].
  set (w2 := elapse (DRAIN_POLL_MS * 1000000) w1).
  assert (Hs2 : same_lab w1 w2) by (apply elapse_same; unfold DRAIN_POLL_MS; lia).
  pose proof (ms_of_after_sleep DRAIN_POLL_MS w1) as Hms. fold w2 in Hms.
  assert (Hs : same_lab w w2) by (by etrans).
  assert (Hq : lb_queue w2 = lb_queue w) by apply (sl_queue _ _ Hs).
  eapply wp_mono; [|apply IH; unfold DRAIN_POLL_MS, counts_ok in *; rewrite ?Hq; (done || lia)].
  intros r w' [Hsame Hr']. split; [by etrans|]. destruct r as [e|ms]; [done|].
  destruct Hr' as [[-> Hall]|[-> Hlate]]; [left|right; by split]. split; [done|].
  eapply Forall_impl; [exact Hall|]. intros i (t & Ht & Hi). exists t.
  unfold seen_empty in *. rewrite Hq in Hi. pose proof (sl_now _ _ Hs). split; [lia|done].
Qed.

(** ** The guarantees *)

(** Polling ends: with the time-outs of the harness, [pollUntil] makes at most one
    question per interval (three operations each, two more for the clock), whatever
    the outside does; it answers [true] only at an instant when the condition held,
    and [false] only when its time is over. *)
Theorem poll_ends q test timeoutMs fuel fs w :
  question q → 0 <= timeoutMs → enough_polls fuel timeoutMs → Forall lab_fault fs →
  let '(r, w', _) := run exec_lab (pollUntil fuel q test timeoutMs) fs w in
  match r with
  | inr true => test (shown q w (lb_now w')) = true
  | inr false => ms_of (lb_now w) + timeoutMs <= ms_of (lb_now w')
  | inl e => e ≠ out_of_fuel
  end ∧
  Z.of_nat (run_length exec_lab (pollUntil fuel q test timeoutMs) fs w) <=
    3 * (timeoutMs / TRACER_POLL_MS + 1) + 2.
Proof.
  intros Hq Ht Hf Hfs.
  pose proof (wp_run exec_lab lab_fault _ _ fs w I Hfs (pollUntil_wp fuel q test timeoutMs w Hq Hf))
    as [_ Hr].
  destruct (run exec_lab _ fs w) as [[r w'] fs']. cbn [fst snd] in Hr.
  split; [by destruct r as [e|[]]|].
  unfold pollUntil. simpl. pose proof (poll_loop_length fuel q test
    (ms_of (lb_now w) + timeoutMs) (tail fs) w (Z.to_nat (timeoutMs / TRACER_POLL_MS + 1)) Hq) as Hl.
  unfold TRACER_POLL_MS in *.
  pose proof (Z.div_mod timeoutMs 25 ltac:(lia)). pose proof (Z.mod_pos_bound timeoutMs 25 ltac:(lia)).
  assert (0 <= timeoutMs / 25) by (apply Z.div_pos; lia). lia.
Qed.

Example poll_ends_witness :
  let '(r, w', _) := run exec_lab (pollUntil 5 (PresenceCount "trace-0") (λ n, n =? 0) 100)
    [] {| lb_now := 0; lb_costs := []; lb_statuses := []; lb_log := λ _ _, 0;
          lb_presence := λ _ t, if t <? 40000000 then 1 else 0;
          lb_queue := λ _ _, (0, 0); lb_sent := [] |} in
  match r with
  | inr true => (if lb_now w' <? 40000000 then 1 else 0) = 0
  | inr false => 100 <= ms_of (lb_now w')
  | inl e => e ≠ out_of_fuel
  end.
Proof.
  pose proof (poll_ends (PresenceCount "trace-0") (λ n, n =? 0) 100 5 []
    {| lb_now := 0; lb_costs := []; lb_statuses := []; lb_log := λ _ _, 0;
       lb_presence := λ _ t, if t <? 40000000 then 1 else 0;
       lb_queue := λ _ _, (0, 0); lb_sent := [] |}) as H.
  specialize (H ltac:(exists "trace-0"%string; by right) ltac:(lia)
    ltac:(unfold enough_polls, TRACER_POLL_MS; lia) ltac:(constructor)).
  destruct (run exec_lab _ _ _) as [[[e|[]] w'] fs']; [apply H| |apply H].
  by apply Z.eqb_eq, H.
Defined.

(** A tracer ends and loses no event: once its deadline has passed it returns, and
    every event it posted after the first is accounted for exactly once, as a sample
    of an entry or an exit, a time-out or an error; when it fails, the failure is one
    of the outside. *)
Theorem tracer_ends fuel polls userId deadline fs w :
  enough_polls polls 15000 → deadline * 1000000 - lb_now w <= Z.of_nat fuel - 1 →
  (1 <= fuel)%nat → Forall lab_fault fs →
  let '(r, w', _) := run exec_lab (tracerLoop fuel polls userId deadline) fs w in
  match r with
  | inl e => e ≠ out_of_fuel
  | inr out => deadline <= ms_of (lb_now w') ∧ outcomes out + 1 = sent_count w' - sent_count w
  end.
Proof.
  intros Hp Hfuel H1 Hfs.
  assert (Hwp : wp exec_lab lab_fault (tracerLoop fuel polls userId deadline)
    (λ r w', match r with
       | inl e => e ≠ out_of_fuel
       | inr out => deadline <= ms_of (lb_now w') ∧ outcomes out + 1 = sent_count w' - sent_count w
       end) w).
  { unfold tracerLoop. apply wp_bind, post_wp. intros status w1 Hs Hn. apply wp_bind.
    eapply wp_mono; [|apply pollUntil_wp; [exists userId; by right|]].
    2:{ destruct Hp. split; [lia|done]. }
    intros [e|b] w2 [Hsame Hr]; [done|]. destruct Hsame as [_ _ _ Hsent Hnow].
    eapply wp_mono; [|apply tracer_rounds_wp; [done|done|lia]].
    intros [e|out] w3; [done|]. intros [Hd Ho]. split; [done|].
    unfold outcomes, sent_count in *. rewrite Hsent in Ho. simpl in Ho. unfold outcomes in *. lia. }
  pose proof (wp_run exec_lab lab_fault _ _ fs w I Hfs Hwp) as Hr.
  by destruct (run exec_lab _ fs w) as [[r w'] fs'].
Qed.

Example tracer_ends_witness :
  let '(r, w', _) := run exec_lab (tracerLoop 1001 601 "trace-0" 10) []
    {| lb_now := 9999000; lb_costs := []; lb_statuses := [202; 503]; lb_log := λ _ t, t;
       lb_presence := λ _ _, 0; lb_queue := λ _ _, (0, 0); lb_sent := [] |} in
  match r with
  | inl e => e ≠ out_of_fuel
  | inr out => 10 <= ms_of (lb_now w') ∧ outcomes out + 1 = sent_count w'
  end.
Proof.
  pose proof (tracer_ends 1001 601 "trace-0" 10 []
    {| lb_now := 9999000; lb_costs := []; lb_statuses := [202; 503]; lb_log := λ _ t, t;
       lb_presence := λ _ _, 0; lb_queue := λ _ _, (0, 0); lb_sent := [] |}) as H.
  specialize (H ltac:(unfold enough_polls, TRACER_POLL_MS; lia) ltac:(simpl; lia) ltac:(lia)
    ltac:(constructor)).
  destruct (run exec_lab _ _ _) as [[[e|out] w'] fs']; [done|].
  destruct H as [H1 H2]. split; [done|]. rewrite H2. unfold sent_count at 2. simpl. lia.
Defined.

(** Waiting for the queues to drain ends: it reports a time only after every partition
    was seen empty, and -1 only after its time-out. *)
Lemma drain_ends fuel partitions timeoutMs fs w :
  counts_ok w → 0 <= timeoutMs → timeoutMs < DRAIN_POLL_MS * (Z.of_nat fuel - 1) →
  Forall lab_fault fs →
  let '(r, w', _) := run exec_lab (waitForDrain fuel partitions timeoutMs) fs w in
  drain_outcome partitions (ms_of (lb_now w)) timeoutMs w r w'.
Proof.
  intros Hok Ht Hf Hfs.
  assert (Hwp : wp exec_lab lab_fault (waitForDrain fuel partitions timeoutMs)
    (drain_outcome partitions (ms_of (lb_now w)) timeoutMs w) w).
  { unfold waitForDrain. apply wp_bind, wp_await. intros f _. cbn [exec_lab fst snd].
    apply drain_loop_wp; [done|unfold DRAIN_POLL_MS in Hf; lia|lia]. }
  pose proof (wp_run exec_lab lab_fault _ _ fs w I Hfs Hwp) as Hr.
  by destruct (run exec_lab _ fs w) as [[r w'] fs'].
Qed.
