(* ===== verification/HarnessCorrect.v ===== *)
(** The load harness, continued: the warm-up posts every user once and ends, the closed
    loop counts every answer once, and [main] never destroys data or measures out of
    order. The definitions are in [Harness]. *)

From S2P Require Import Prelude Num NumZ NumText Js Prog Stats Harness.

Local Open Scope Z_scope.

(** ** The warm-up *)

(** What a worker has left to do, in steps, when no user is left. *)
Definition worker_left (x : warm_worker) : nat :=
  match x with Checking => 1 | Posting _ => 2 | Finished => 0 end.

Definition workers_left (ws : list warm_worker) : nat := foldr (λ x n, (worker_left x + n)%nat) 0%nat ws.

Definition warm_left (users : nat) (s : Warm) : nat :=
  2 * (users - wm_next s) + workers_left (wm_workers s).

Definition all_finished (s : Warm) : Prop := Forall (λ x, x = Finished) (wm_workers s).

#[export] Instance warm_worker_eq_dec : EqDecision warm_worker.
Proof. solve_decision. Defined.

#[export] Instance all_finished_dec s : Decision (all_finished s).
Proof. unfold all_finished. apply _. Defined.

Lemma workers_left_insert ws i x y :
  ws !! i = Some x → (workers_left (<[i := y]> ws) + worker_left x = workers_left ws + worker_left y)%nat.
Proof.
  revert i. induction ws as [|w ws IH]; intros [|i] Hi; simplify_eq/=; [lia|].
  specialize (IH _ Hi). lia.
Qed.

(** Every step uses up one. *)
Lemma warm_step_left users s s' :
  warm_step users s s' → warm_left users s = S (warm_left users s').
Proof.
  unfold warm_left. intros [i s0 Hi Hn|i uid s0 Hi|i s0 Hi Hn]; simpl.
  - pose proof (workers_left_insert _ _ _ (Posting (wm_next s0)) Hi) as H. simpl in H. lia.
  - pose proof (workers_left_insert _ _ _ Checking Hi) as H. simpl in H. lia.
  - pose proof (workers_left_insert _ _ _ Finished Hi) as H. simpl in H. lia.
Qed.

Lemma warm_steps_left users n s s' :
  nsteps (warm_step users) n s s' → warm_left users s = (n + warm_left users s')%nat.
Proof. induction 1 as [|n s s1 s' Hs _ IH]; [done|]. rewrite (warm_step_left _ _ _ Hs), IH. lia. Qed.

Lemma start_workers_left n : workers_left (replicate n Checking) = n.
Proof. induction n as [|n IH]; [done|]. simpl. by rewrite IH. Qed.

(** The users posted are the first ones, in order, and a worker that has finished saw
    the counter at its end. *)
Record warm_inv (users workers : nat) (s : Warm) : Prop := {
  wi_posted : wm_posted s = seq 0 (wm_next s);
  wi_bound : (wm_next s <= users)%nat;
  wi_workers : length (wm_workers s) = workers;
  wi_finished : ∀ i, wm_workers s !! i = Some Finished → wm_next s = users;
}.

Lemma warm_start_inv users workers : warm_inv users workers (warm_start workers).
Proof.
  split; simpl; [done|lia|by rewrite length_replicate|].
  intros i [? _]%lookup_replicate. done.
Qed.

Lemma warm_step_inv users workers s s' :
  warm_step users s s' → warm_inv users workers s → warm_inv users workers s'.
Proof.
  intros [i s0 Hi Hn|i uid s0 Hi|i s0 Hi Hn] [Hp Hb Hw Hf];
    split; simpl; rewrite ?length_insert; try done; try lia.
  - rewrite Hp. symmetry. apply (seq_S (wm_next s0) 0).
  - intros j [[_ [? _]]|[_ Hj]]%list_lookup_insert_Some; [done|]. apply Hf in Hj. lia.
  - intros j [[_ [? _]]|[_ Hj]]%list_lookup_insert_Some; [done|]. by apply Hf in Hj.
Qed.

Lemma warm_steps_inv users workers n s s' :
  nsteps (warm_step users) n s s' → warm_inv users workers s → warm_inv users workers s'.
Proof. induction 1; eauto using warm_step_inv. Qed.

Lemma warm_progress users s :
  all_finished s ∨ ∃ s', warm_step users s s'.
Proof.
  destruct (decide (all_finished s)) as [|Hn]; [by left|right].
  unfold all_finished in Hn. apply not_Forall_Exists in Hn; [|apply _].
  apply Exists_exists in Hn as (x & (i & Hi)%list_elem_of_lookup & Hx). destruct x as [|uid|].
  - destruct (decide (wm_next s < users)%nat).
    + eexists. by apply (warm_take _ i).
    + eexists. apply (warm_finish _ i); [done|lia].
  - eexists. by apply (warm_answer _ i uid).
  - by destruct Hx.
Qed.

Lemma all_finished_left ws : Forall (λ x, x = Finished) ws ↔ workers_left ws = 0%nat.
Proof.
  induction ws as [|x ws IH]; simpl; [by split|]. rewrite Forall_cons, IH.
  split; [intros [-> ->]; done|]. destruct x; simpl; [lia..|]. done.
Qed.

(** ** The closed loop *)

(** A request of a workload: it sends one event, takes time, and ends. *)
Definition one_request (makeRequest : prog lab_op Z) : Prop :=
  ∀ w, wp exec_lab lab_fault makeRequest
    (λ r w', lb_now w + 1 <= lb_now w' ∧
       match r with inl e => e ≠ out_of_fuel | inr _ => sent_count w' = sent_count w + 1 end) w.

Lemma post_one_request user inside : one_request (await (PostLocation user inside)).
Proof. intros w. apply post_wp. intros status w' Hs Hn. by split. Qed.

(** What a worker of the load returns: it stops at the end, and counts every request
    that was answered after the warm-up. *)
Definition load_outcome (warmupEnd end_ : Z) (out : list (Z * number)) (w : Lab)
    (r : exn + list (Z * number)) (w' : Lab) : Prop :=
  lb_now w <= lb_now w' ∧
  match r with
  | inl e => e ≠ out_of_fuel
  | inr out' =>
      end_ <= ms_of (lb_now w') ∧
      ∃ more, out' = out ++ more ∧ Z.of_nat (length more) <= sent_count w' - sent_count w ∧
        (warmupEnd < ms_of (lb_now w) → Z.of_nat (length more) = sent_count w' - sent_count w)
  end.

Lemma load_outcome_step warmupEnd end_ out s out1 w w1 r w' :
  lb_now w <= lb_now w1 → sent_count w1 = sent_count w + 1 →
  out1 = (if warmupEnd <? ms_of (lb_now w1) then out ++ [s] else out) →
  load_outcome warmupEnd end_ out1 w1 r w' → load_outcome warmupEnd end_ out w r w'.
Proof.
  intros Hn Hs -> [Hn' Hr]. split; [lia|]. destruct r as [e|out']; [done|].
  destruct Hr as (Hd & more & -> & Hle & Hall). split; [done|].
  pose proof (ms_of_mono _ _ Hn).
  destruct (Z.ltb_spec warmupEnd (ms_of (lb_now w1))) as [Hw|Hw].
  - exists (s :: more). rewrite <- app_assoc. simpl. split; [done|]. split; [lia|].
    intros _. specialize (Hall Hw). lia.
  - exists more. split; [done|]. split; [lia|]. lia.
Qed.

Lemma load_worker_wp fuel makeRequest warmupEnd end_ out w :
  one_request makeRequest → (1 <= fuel)%nat →
  end_ * 1000000 - lb_now w <= Z.of_nat fuel - 1 →
  wp exec_lab lab_fault (load_worker fuel makeRequest warmupEnd end_ out)
    (load_outcome warmupEnd end_ out w) w.
Proof.
  intros Hreq. revert out w. induction fuel as [|fuel IH]; intros out w H1 Hfuel; [lia|].
  cbn [load_worker]. apply wp_bind, wp_await. intros f0 _. cbn [exec_lab fst snd].
  destruct (Z.ltb_spec (ms_of (lb_now w)) end_) as [Hlt|Hge].
  2:{ split; [done|]. split; [done|]. exists []. rewrite app_nil_r. simpl. split; [done|lia]. }
  assert (Hbig : lb_now w + 1 <= end_ * 1000000).
  { unfold ms_of in Hlt. pose proof (Z.div_mod (lb_now w) 1000000 ltac:(lia)).
    pose proof (Z.mod_pos_bound (lb_now w) 1000000 ltac:(lia)). lia. }
  apply wp_bind, wp_await. intros f1 _. cbn [exec_lab fst snd].
  apply wp_bind. eapply wp_mono; [|apply Hreq]. intros [e|status] w1 [Hn Hs]; [by split; [lia|]|].
  apply wp_bind, wp_await. intros f2 _. cbn [exec_lab fst snd].
  apply wp_bind, wp_await. intros f3 _. cbn [exec_lab fst snd].
  eapply wp_mono; [|apply IH; lia]. intros r w'. by eapply load_outcome_step; [lia|..].
Qed.

(** *** The result of a run *)

Lemma stats_count values st : stats values = Some st → st_count st = length values.
Proof.
  unfold stats. destruct values as [|v values]; [done|]. set (l := v :: values).
  destruct (percentile _ 50); [|done]. destruct (percentile _ 95); [|done].
  destruct (percentile _ 99); [|done]. destruct (last _); [|done]. intros [= <-].
  apply Permutation_length, merge_sort_Permutation.
Qed.

(** The number of samples with a status. *)
Definition status_count (status : Z) (samples : list (Z * number)) : Z :=
  Z.of_nat (length (filter (λ s, s.1 = status) samples)).

Definition errors_of (okStatus : Z) (samples : list (Z * number)) (errors : list (Z * Z)) :=
  foldl (λ errors s, if s.1 =? okStatus then errors else bump_error s.1 errors) errors samples.

Definition total_errors (errors : list (Z * Z)) : Z := foldr (λ e n, e.2 + n) 0 errors.

(** [errors.get(status) ?? 0]. *)
Fixpoint error_count (status : Z) (errors : list (Z * Z)) : Z :=
  match errors with
  | [] => 0
  | (s, n) :: rest => if s =? status then n else error_count status rest
  end.

Lemma bump_error_total status errors :
  total_errors (bump_error status errors) = total_errors errors + 1.
Proof.
  induction errors as [|[s n] errors IH]; simpl; [done|].
  destruct (s =? status); simpl; lia.
Qed.

Lemma bump_error_count status status' errors :
  error_count status' (bump_error status errors) =
  error_count status' errors + (if status =? status' then 1 else 0).
Proof.
  induction errors as [|[s n] errors IH]; simpl; [lia|].
  destruct (Z.eqb_spec s status) as [->|Hs]; simpl.
  - destruct (status =? status'); lia.
  - destruct (Z.eqb_spec s status'); [|apply IH].
    destruct (Z.eqb_spec status status'); [congruence|lia].
Qed.

Lemma bump_error_keys status errors :
  (bump_error status errors).*1 =
  if bool_decide (status ∈ errors.*1) then errors.*1 else errors.*1 ++ [status].
Proof.
  induction errors as [|[s n] errors IH]; [done|]. cbn [bump_error].
  destruct (Z.eqb_spec s status) as [->|Hs]; rewrite !fmap_cons; cbn [fst].
  - rewrite bool_decide_true; [done|]. left.
  - rewrite IH. repeat case_bool_decide; set_solver.
Qed.

Lemma bump_error_NoDup status errors : NoDup errors.*1 → NoDup (bump_error status errors).*1.
Proof.
  intros H. rewrite bump_error_keys. case_bool_decide; [done|].
  apply NoDup_app. split; [done|]. split; [set_solver|]. apply NoDup_singleton.
Qed.

Lemma errors_of_total okStatus samples errors :
  total_errors (errors_of okStatus samples errors) + status_count okStatus samples =
  total_errors errors + Z.of_nat (length samples).
Proof.
  unfold status_count, errors_of. revert errors.
  induction samples as [|[s x] samples IH]; intros errors; [done|]. simpl foldl.
  rewrite filter_cons. simpl. destruct (Z.eqb_spec s okStatus).
  - rewrite decide_True by done. simpl. specialize (IH errors). lia.
  - rewrite decide_False by done. specialize (IH (bump_error s errors)).
    rewrite bump_error_total in IH. lia.
Qed.

Lemma errors_of_count okStatus status samples errors :
  status ≠ okStatus →
  error_count status (errors_of okStatus samples errors) =
  error_count status errors + status_count status samples.
Proof.
  unfold status_count, errors_of. intros Hne. revert errors.
  induction samples as [|[s x] samples IH]; intros errors; [simpl; lia|]. simpl foldl.
  rewrite filter_cons. simpl. destruct (Z.eqb_spec s okStatus) as [->|].
  - rewrite decide_False by done. apply IH.
  - rewrite IH, bump_error_count. destruct (Z.eqb_spec s status) as [->|].
    + rewrite decide_True by done. simpl. lia.
    + rewrite decide_False by done. lia.
Qed.

Lemma errors_of_keys okStatus samples errors :
  NoDup errors.*1 → okStatus ∉ errors.*1 →
  NoDup (errors_of okStatus samples errors).*1 ∧ okStatus ∉ (errors_of okStatus samples errors).*1.
Proof.
  unfold errors_of. revert errors. induction samples as [|[s x] samples IH]; intros errors Hd Hk; [done|].
  simpl. destruct (Z.eqb_spec s okStatus) as [|Hne]; [by apply IH|].
  apply IH; [by apply bump_error_NoDup|]. rewrite bump_error_keys.
  case_bool_decide; [done|]. rewrite elem_of_app, list_elem_of_singleton. naive_solver.
Qed.

(** ** The order of [main] *)

(** What must be so for [main] to do [op], after the trace [before]: it empties tables
    and queues only to measure and when the area of the load exists; a measurement
    directly follows a purge; tracers and waits need a consumer; a row is printed of
    the measurement just made. *)
Definition allowed (mode : string) (areas : nat) (consumers : Z) (before : list main_event)
    {X} (op : main_op X) : Prop :=
  let measuring := mode = "measure"%string ∧ areas ≠ 0%nat in
  match op with
  | TruncateTables | PurgePartitions | WarmAllUsersInside => measuring
  | MeasureRun _ _ tracers =>
      measuring ∧ last before = Some (Did PurgePartitions) ∧ tracers = (0 <? consumers)
  | WaitForDrain _ => measuring ∧ 0 < consumers
  | PrintRow _ _ drained => measuring ∧ (is_Some drained ↔ 0 < consumers)
  | RunFloor _ _ => mode = "floors"%string
  | _ => True
  end.

Fixpoint orderly_after (mode : string) (areas : nat) (consumers : Z)
    (before trace : list main_event) : Prop :=
  match trace with
  | [] => True
  | (Did op) as e :: trace =>
      allowed mode areas consumers before op ∧
      orderly_after mode areas consumers (before ++ [e]) trace
  end.

Definition orderly (mode : string) (areas : nat) (consumers : Z) (trace : list main_event) :=
  orderly_after mode areas consumers [] trace.

(** The rows printed. *)
Definition rows (trace : list main_event) : list (string * Z) :=
  omap (λ e, match e with Did (PrintRow workload c _) => Some (workload, c) | _ => None end) trace.

Lemma orderly_after_snoc mode areas consumers before trace {X} (op : main_op X) :
  orderly_after mode areas consumers before trace →
  allowed mode areas consumers (before ++ trace) op →
  orderly_after mode areas consumers before (trace ++ [Did op]).
Proof.
  revert before. induction trace as [|[Y o] trace IH]; intros before Ho Ha; simpl.
  - by rewrite app_nil_r in Ha.
  - destruct Ho as [Hop Ho]. split; [done|]. apply IH; [done|]. by rewrite <- app_assoc.
Qed.

(** What a part of [main] keeps. *)
Record on_site (mode : string) (areas : nat) (consumers : Z) (s : Site) : Prop := {
  os_areas : si_areas s = areas;
  os_consumers : si_consumers s = consumers;
  os_orderly : orderly mode areas consumers (si_trace s);
}.

Lemma on_site_did mode areas consumers {X} (op : main_op X) s :
  on_site mode areas consumers s → allowed mode areas consumers (si_trace s) op →
  on_site mode areas consumers (did op s).
Proof.
  intros [Ha Hc Ho] Hop. split; [done|done|]. by apply orderly_after_snoc.
Qed.

Definition keeps (mode : string) (areas : nat) (consumers : Z) {A} (p : prog main_op A) : Prop :=
  ∀ s, on_site mode areas consumers s →
  wp exec_main (λ _, True) p (λ _, on_site mode areas consumers) s.

Section order.
Context (mode : string) (areas : nat) (consumers : Z).

Lemma keeps_await {X} (op : main_op X) :
  (∀ before, allowed mode areas consumers before op) → keeps mode areas consumers (await op).
Proof. intros Hop s Hs. apply wp_await. intros f _. by apply on_site_did. Qed.

Lemma keeps_bind {A B} (p : prog main_op A) (g : A → prog main_op B) :
  keeps mode areas consumers p → (∀ a, keeps mode areas consumers (g a)) →
  keeps mode areas consumers (p ≫= g).
Proof.
  intros Hp Hg s Hs. apply wp_bind. eapply wp_mono; [|by apply Hp].
  intros [e|a] s' Hs'; [done|by apply Hg].
Qed.

Lemma keeps_ret {A} (a : A) : keeps mode areas consumers (Ret a).
Proof. by intros s Hs. Qed.

Lemma keeps_for_each {A} (g : A → prog main_op unit) xs :
  (∀ x, keeps mode areas consumers (g x)) → keeps mode areas consumers (for_each g xs).
Proof.
  intros Hg. induction xs as [|x xs IH]; [by apply keeps_ret|]. by apply keeps_bind.
Qed.
End order.

#[export] Hint Resolve keeps_await keeps_bind keeps_ret keeps_for_each : geo.

Section measuring.
Context (areas : nat) (consumers : Z) (Hareas : areas ≠ 0%nat).

Local Abbreviation kept := (keeps "measure" areas consumers).

Lemma drain_keeps ms : (0 <? consumers) = true → kept (await (WaitForDrain ms)).
Proof. intros H%Z.ltb_lt. by apply keeps_await. Qed.

Lemma warmAllUsersInside_keeps : kept (warmAllUsersInside (0 <? consumers)).
Proof.
  apply keeps_bind; [by apply keeps_await|]. intros [].
  destruct (0 <? consumers) eqn:H; [|apply keeps_ret].
  apply keeps_bind; [by apply drain_keeps|]. intros _. apply keeps_ret.
Qed.

(** The purge, the measurement and the rest of the row. *)
Lemma one_measurement_keeps workload c : kept (one_measurement workload (0 <? consumers) c).
Proof.
  intros s Hs. apply wp_bind, wp_await. intros f _.
  assert (Hp : on_site "measure" areas consumers (did PurgePartitions s)) by by apply on_site_did.
  assert (Hrest : kept (drained ← (if (0 <? consumers) then ms ← await (WaitForDrain 120000); mret (Some ms)
    else mret None); await (PrintRow workload c drained))).
  { intros s1 Hs1. apply wp_bind. destruct (Z.ltb_spec 0 consumers) as [Hc|Hc].
    - apply wp_bind, wp_await. intros g _. cbn [exec_main snd].
      assert (Hd : on_site "measure" areas consumers (did (WaitForDrain 120000) s1))
        by (apply on_site_did; [done|by split]).
      destruct (fst _) as [e|ms]; [done|]. intros h _. apply on_site_did; [done|].
      split; [done|]. split; [done|]. by eexists.
    - intros h _. apply on_site_did; [done|]. split; [done|]. split; [by intros [? [=]]|lia]. }
  cbn [exec_main snd]. destruct (fst _) as [e|[]]; [done|].
  apply wp_bind, wp_await. intros g _. cbn [exec_main snd].
  assert (Hm : on_site "measure" areas consumers
    (did (MeasureRun workload c (0 <? consumers)) (did PurgePartitions s))).
  { apply on_site_did; [done|]. split; [done|]. split; [|done]. simpl. by rewrite last_snoc. }
  destruct (fst _) as [e|[]]; [done|]. by apply Hrest.
Qed.

Lemma one_workload_keeps concurrencies workload :
  kept (one_workload concurrencies (0 <? consumers) workload).
Proof.
  apply keeps_bind.
  - case_bool_decide; [apply warmAllUsersInside_keeps|apply keeps_ret].
  - intros _. apply keeps_for_each. intros c. apply one_measurement_keeps.
Qed.

(** All that follows the check of the prerequisites. *)
Lemma measurements_keep quick :
  kept (await TruncateTables;; await PurgePartitions;; warmAllUsersInside (0 <? consumers);;
    for_each (one_workload (CONCURRENCIES quick) (0 <? consumers)) ["static"; "transition"]%string;;
    await CloseClients).
Proof.
  apply keeps_bind; [by apply keeps_await|]. intros _.
  apply keeps_bind; [by apply keeps_await|]. intros _.
  apply keeps_bind; [apply warmAllUsersInside_keeps|]. intros _.
  apply keeps_bind; [|intros _; by apply keeps_await].
  apply keeps_for_each. intros workload. apply one_workload_keeps.
Qed.
End measuring.

(** The check goes on only when the area exists, and tells whether there is a consumer. *)
Lemma ensurePrerequisites_wp mode areas consumers s :
  on_site mode areas consumers s →
  wp exec_main (λ _, True) ensurePrerequisites
    (λ r s', on_site mode areas consumers s' ∧
       match r with
       | inr (Some workerPresent) => areas ≠ 0%nat ∧ workerPresent = (0 <? consumers)
       | _ => True
       end) s.
Proof.
  intros Hs. unfold ensurePrerequisites. apply wp_bind, wp_await. intros f _.
  assert (H1 : on_site mode areas consumers (did SelectLoadArea s)) by by apply on_site_did.
  destruct Hs as [Ha Hc _]. destruct f; cbn [exec_main fst snd]; try by split.
  rewrite Ha. case_bool_decide as Hz.
  { apply wp_bind, wp_await. intros g _. split; [|done]. by apply on_site_did. }
  apply wp_bind, wp_await. intros g _.
  assert (H2 : on_site mode areas consumers (did QueueTotals (did SelectLoadArea s)))
    by by apply on_site_did.
  destruct g; cbn [exec_main fst snd]; try by split.
  split; [done|]. split; [done|]. simpl. by rewrite Hc.
Qed.

Lemma main_keeps mode quick areas consumers : keeps mode areas consumers (main mode quick).
Proof.
  unfold main. case_bool_decide as Hf.
  { apply keeps_bind; [|intros []; by apply keeps_await].
    apply keeps_for_each. intros name. apply keeps_for_each. intros c. by apply keeps_await. }
  case_bool_decide as Hm.
  2:{ apply keeps_bind; [by apply keeps_await|]. intros []. by apply keeps_await. }
  subst mode. apply keeps_bind; [by apply keeps_await|]. intros [] s Hs.
  apply wp_bind. eapply wp_mono; [|by apply ensurePrerequisites_wp].
  intros [e|[workerPresent|]] s' [Hs' Hr]; [done| |done].
  destruct Hr as [Hz ->]. by apply measurements_keep.
Qed.

(** When nothing fails every workload has a row for every concurrency, in order. *)
Lemma measure_reports_every_pair quick areas messages consumers drains :
  areas ≠ 0%nat →
  rows (si_trace (run exec_main (main_process "measure" quick) []
    {| si_areas := areas; si_messages := messages; si_consumers := consumers;
       si_drains := drains; si_trace := [] |}).1.2) =
    list_prod ["static"; "transition"]%string (CONCURRENCIES quick).
Proof.
  destruct areas as [|areas]; [done|]. intros _.
  destruct consumers, quick; vm_compute; reflexivity.
Qed.

(** ** The guarantees *)

(** The warm-up posts every user exactly once and ends, whatever the order in which
    the answers come: at any time the users posted are the first ones, in order; there
    are at most [2 * users + workers] steps, and as long as a worker has not finished
    another one can be made; once all have finished every user was posted. *)
Theorem warm_up_complete users workers n s :
  workers ≠ 0%nat → nsteps (warm_step users) n (warm_start workers) s →
  wm_posted s = seq 0 (wm_next s) ∧
  (n <= 2 * users + workers)%nat ∧
  (all_finished s ∨ ∃ s', warm_step users s s') ∧
  (all_finished s → n = (2 * users + workers)%nat ∧ wm_posted s = seq 0 users).
Proof.
  intros Hw Hn. pose proof (warm_steps_left _ _ _ _ Hn) as Hleft.
  destruct (warm_steps_inv _ workers _ _ _ Hn (warm_start_inv users workers)) as [Hp Hb Hl Hf].
  unfold warm_left in Hleft. simpl wm_next in Hleft. simpl wm_workers in Hleft.
  rewrite start_workers_left in Hleft. split; [done|]. split; [lia|].
  split; [apply warm_progress|]. intros Hall.
  assert (Hnext : wm_next s = users).
  { destruct (wm_workers s) as [|x ws] eqn:Hws; [simpl in Hl; lia|]. apply (Hf 0%nat).
    unfold all_finished in Hall. rewrite Hws in Hall.
    apply Forall_cons in Hall as [-> _]. done. }
  apply all_finished_left in Hall. rewrite Hp, Hnext. split; [lia|done].
Qed.

(** The one user of one worker. *)
Example warm_up_complete_witness :
  ∃ s, all_finished s ∧ wm_posted s = seq 0 1.
Proof.
  assert (H : nsteps (warm_step 1) 3 (warm_start 1)
    {| wm_next := 1; wm_workers := [Finished]; wm_posted := [0%nat] |}).
  { econstructor; [apply (warm_take 1 0); [done|simpl; lia]|].
    econstructor; [by apply (warm_answer 1 0 0)|].
    econstructor; [apply (warm_finish 1 0); [done|simpl; lia]|constructor]. }
  eexists. assert (Ha : all_finished {| wm_next := 1; wm_workers := [Finished]; wm_posted := [0%nat] |})
    by by repeat constructor.
  split; [exact Ha|]. apply (warm_up_complete 1 1 3 _ ltac:(done) H), Ha.
Defined.

(** The closed loop ends and counts every answer once: a worker stops at the end of
    the run, having counted every request that was answered after the warm-up; of the
    requests counted, the result gives as many latencies as had the expected status,
    and each other status once with the number of its answers. *)
Theorem load_accounts fuel makeRequest seconds concurrency okStatus warmupEnd end_ fs w :
  one_request makeRequest → (1 <= fuel)%nat → end_ * 1000000 - lb_now w <= Z.of_nat fuel - 1 →
  Forall lab_fault fs →
  let '(r, w', _) := run exec_lab (load_worker fuel makeRequest warmupEnd end_ []) fs w in
  match r with
  | inl e => e ≠ out_of_fuel
  | inr samples =>
      let result := load_result seconds concurrency okStatus samples in
      end_ <= ms_of (lb_now w') ∧
      lr_requests result <= sent_count w' - sent_count w ∧
      (warmupEnd < ms_of (lb_now w) → lr_requests result = sent_count w' - sent_count w) ∧
      lr_requests result =
        status_count okStatus samples + total_errors (lr_errors result) ∧
      (∀ latency, lr_requestLatency result = Some latency →
        Z.of_nat (st_count latency) = status_count okStatus samples) ∧
      NoDup ((lr_errors result).*1) ∧ (okStatus ∉ (lr_errors result).*1) ∧
      ∀ status, status ≠ okStatus → error_count status (lr_errors result) = status_count status samples
  end.
Proof.
  intros Hreq H1 Hfuel Hfs.
  pose proof (wp_run exec_lab lab_fault _ _ fs w I Hfs
    (load_worker_wp fuel makeRequest warmupEnd end_ [] w Hreq H1 Hfuel)) as [_ Hr].
  destruct (run exec_lab _ fs w) as [[[e|samples] w'] fs']; [done|]. cbn [fst snd] in Hr.
  destruct Hr as (Hd & more & -> & Hle & Hall). rewrite app_nil_l. simpl.
  fold (errors_of okStatus more []).
  pose proof (errors_of_total okStatus more []) as Ht.
  destruct (errors_of_keys okStatus more [] ltac:(constructor) ltac:(set_solver)) as [Hk1 Hk2].
  simpl in Ht. split; [done|]. split; [lia|]. split; [done|]. split; [lia|].
  split. { intros latency Hl. by rewrite (stats_count _ _ Hl), length_fmap. }
  split; [done|]. split; [done|]. intros status Hs. by rewrite errors_of_count.
Qed.

(** A system under test that shows nothing, and answers 202 or what the list says. *)
Definition idle_lab (now : Z) (statuses : list Z) : Lab :=
  {| lb_now := now; lb_costs := []; lb_statuses := statuses; lb_log := λ _ _, 0;
     lb_presence := λ _ _, 0; lb_queue := λ _ _, (0, 0); lb_sent := [] |}.

Example load_accounts_witness :
  let '(r, w', _) := run exec_lab
    (load_worker 1001 (await (PostLocation "load-7" true)) 0 1 [])
    [FOk; FOk; FFail (Thrown (JStr "refused")); FOk; FOk; FOk] (idle_lab 999000 [202; 503]) in
  match r with
  | inl e => e ≠ out_of_fuel
  | inr samples =>
      lr_requests (load_result 12 10 202 samples) =
        status_count 202 samples + total_errors (lr_errors (load_result 12 10 202 samples))
  end.
Proof.
  pose proof (load_accounts 1001 (await (PostLocation "load-7" true)) 12 10 202 0 1
    [FOk; FOk; FFail (Thrown (JStr "refused")); FOk; FOk; FOk] (idle_lab 999000 [202; 503])
    (post_one_request _ _) ltac:(lia) ltac:(simpl; lia)
    ltac:(repeat constructor; done)) as H.
  destruct (run exec_lab _ _ _) as [[[e|samples] w'] fs']; [done|]. apply H.
Defined.

(** The throughput counts the requests that failed: a server that only refuses has one. *)
Example refusals_are_throughput :
  let result := load_result 12 10 202 (replicate 20 (503, num_of_Z 1)) in
  lr_requestLatency result = None ∧ lr_errors result = [(503, 20)] ∧
  lr_ingestThroughput result = num_of_Z 2.
Proof. vm_compute. done. Qed.

(** A tracer whose entries are not processed in time: the exit that follows finds no
    presence row at once, and its latency is reported although nothing left. *)
Example exit_without_entry :
  (run exec_lab (tracerLoop 4 601 "trace-0" 15010) [] (idle_lab 0 [])).1.1 =
    inr {| entryMs := []; exitMs := [elapsed_ms 1]; tr_errors := 0; tr_timeouts := 2 |}.
Proof. vm_compute. reflexivity. Qed.

(** [main] never destroys data or measures out of order, whatever fails: tables and
    queues are emptied, and users posted, only in the mode "measure" and once the area
    of the load was found; every measurement directly follows a purge of the queues,
    and has tracers exactly when there is a consumer; a wait for the queues to drain
    and a drain time in a row need a consumer. The process never ends in an exception:
    it was caught and the last thing done is to exit with code 1. *)
Theorem main_is_orderly mode quick areas messages consumers drains fs :
  let '(r, s, _) := run exec_main (main_process mode quick) fs
    {| si_areas := areas; si_messages := messages; si_consumers := consumers;
       si_drains := drains; si_trace := [] |} in
  r = inr tt ∧ orderly mode areas consumers (si_trace s).
Proof.
  assert (Hwp : wp exec_main (λ _, True) (main_process mode quick)
    (λ r s, r = inr tt ∧ orderly mode areas consumers (si_trace s))
    {| si_areas := areas; si_messages := messages; si_consumers := consumers;
       si_drains := drains; si_trace := [] |}).
  { unfold main_process. apply wp_try_catch.
    eapply wp_mono; [|apply main_keeps; by split].
    intros [e|[]] s Hs; [|by split; [|apply Hs]].
    apply wp_await. intros f _. split; [done|]. by apply (os_orderly mode areas consumers), on_site_did. }
  assert (Hfs : Forall (λ _, True) fs) by by apply Forall_true.
  pose proof (wp_run exec_main (λ _, True) _ _ fs _ I Hfs Hwp) as Hr.
  by destruct (run exec_main _ fs _) as [[r s] fs'].
Qed.
