(* ===== verification/Samplers.v ===== *)
(** What runs beside each other in the load harness, [src/scripts/measure-presence.mjs]:
    the workers of the closed loop, the sampler of the queue depth and the sampler of
    the database's activity, and the request each worker awaits. *)

From S2P Require Import Prelude Num NumZ NumText Js Prog Stats Harness.

Local Open Scope Z_scope.

Definition DEPTH_SAMPLE_MS : Z := 500.

(** ** The queue depth, beside a promise

    The callback that sets [stop] runs when the promise is fulfilled: whether it is set
    is a function of time, as all of the outside is. *)

Inductive sampler_op : Type → Type :=
| OnLab {X} (op : lab_op X) : sampler_op X
| ReadStop : sampler_op bool.

Fixpoint on_lab {A} (p : prog lab_op A) : prog sampler_op A :=
  match p with
  | Ret a => Ret a
  | Throw e => Throw e
  | Vis op k => Vis (OnLab op) (λ r, on_lab (k r))
  end.

(** [fulfilled] is the instant the promise is fulfilled; [None] when it never is. *)
Definition exec_sampler (fulfilled : option Z) (X : Type) (f : fault) (op : sampler_op X)
    (w : Lab) : (exn + X) * Lab :=
  match op in sampler_op X return (exn + X) * Lab with
  | OnLab op => exec_lab _ f op w
  | ReadStop => (inr match fulfilled with Some t => t <=? lb_now w | None => false end, w)
  end.

(** One sample; a failure of the broker is swallowed. *)
Definition take_sample (partitions : nat) (series : list Sample) :
    prog sampler_op (list Sample) :=
  try_catch
    (totals ← on_lab (queueTotals (seq 0 partitions) 0 0);
     t ← await (OnLab DateNow);
     mret (series ++ [{| sm_t := t; sm_messages := totals.1 |}]))
    (λ _, mret series).

Fixpoint sample_loop (fuel partitions : nat) (series : list Sample) :
    prog sampler_op (list Sample) :=
  match fuel with
  | O => Throw out_of_fuel
  | S fuel =>
      stop ← await ReadStop;
      if stop : bool then mret series
      else
        series ← take_sample partitions series;
        await (OnLab (Sleep DEPTH_SAMPLE_MS));;
        sample_loop fuel partitions series
  end.

(** [sampleDepthDuring(promise)], when the promise is fulfilled: the loop has started
    with the call, and is awaited to its end. *)
Definition sampleDepthDuring {R} (fuel partitions : nat) (result : R) :
    prog sampler_op (R * list Sample) :=
  series ← sample_loop fuel partitions []; mret (result, series).

(** ** The activity of the database, beside a promise *)

(** A row of the query, as the driver gives it: texts. *)
Record ActivityRow := {
  ar_active : string;
  ar_idle_in_txn : string;
  ar_total : string;
  ar_max_xact_s : string;
}.

Definition num_add (x y : number) : number := SFadd num_prec num_emax x y.

(** [+x.toFixed(2)]. *)
Definition hundredths (m : positive) (e : Z) : Z :=
  if 0 <=? e then 100 * Z.shiftl (Zpos m) e
  else (200 * Zpos m + 2 ^ (- e)) / 2 ^ (1 - e).

Definition to_fixed2 (x : number) : number :=
  match x with
  | S754_zero _ => S754_zero false
  | S754_finite s m e =>
      if num_ge (num_abs x) (number_of_decimal false 1 21) then x
      else number_of_decimal s (hundredths m e) (-2)
  | _ => x
  end.

(** [Math.max(...values)]: NaN when one is. *)
Definition math_max2 (x y : number) : number :=
  if is_nan x || is_nan y then NaN else if num_lt x y then y else x.

Definition math_max (values : list number) : number := foldl math_max2 neg_Infinity values.

Definition column (k : ActivityRow → string) (samples : list ActivityRow) : list number :=
  (λ s, Number_of_text (k s)) <$> samples.

Definition max_of (k : ActivityRow → string) (samples : list ActivityRow) : number :=
  match samples with [] => num_of_Z 0 | _ => math_max (column k samples) end.

Definition avg_of (k : ActivityRow → string) (samples : list ActivityRow) : number :=
  match samples with
  | [] => num_of_Z 0
  | _ => to_fixed2 (num_div (foldl num_add (num_of_Z 0) (column k samples))
                      (num_of_Z (Z.of_nat (length samples))))
  end.

Record Pool := {
  avgActive : number;
  avgIdleInTxn : number;
  maxConnections : number;
  maxXactMs : number;
}.

Definition pool_of (samples : list ActivityRow) : Pool :=
  {| avgActive := avg_of ar_active samples;
     avgIdleInTxn := avg_of ar_idle_in_txn samples;
     maxConnections := max_of ar_total samples;
     maxXactMs := to_fixed1 (num_mul (max_of ar_max_xact_s samples) (num_of_Z 1000)) |}.

Section pg_sampling.
Context {R : Type}.

(** The timer fires and a query leaves; a query is answered or fails; the promise is
    fulfilled or rejected. *)
Inductive pg_event :=
| Tick
| Answered (answer : exn + ActivityRow)
| Fulfilled (result : R)
| Rejected (e : exn).

Record PgSampling := {
  pg_timer : bool;
  pg_in_flight : nat;
  pg_samples : list ActivityRow;
  pg_outcome : option (exn + R * Pool);
}.

Definition pg_start : PgSampling :=
  {| pg_timer := true; pg_in_flight := 0; pg_samples := []; pg_outcome := None |}.

(** One turn of the event loop, when it can happen. *)
Definition pg_turn (s : PgSampling) (e : pg_event) : option PgSampling :=
  match e with
  | Tick =>
      if pg_timer s
      then Some {| pg_timer := true; pg_in_flight := S (pg_in_flight s);
                   pg_samples := pg_samples s; pg_outcome := pg_outcome s |}
      else None
  | Answered answer =>
      match pg_in_flight s with
      | O => None
      | S n =>
          Some {| pg_timer := pg_timer s; pg_in_flight := n;
                  pg_samples := match answer with
                                | inr row => pg_samples s ++ [row]
                                | inl _ => pg_samples s
                                end;
                  pg_outcome := pg_outcome s |}
      end
  | Fulfilled result =>
      match pg_outcome s with
      | Some _ => None
      | None =>
          Some {| pg_timer := false; pg_in_flight := pg_in_flight s;
                  pg_samples := pg_samples s;
                  pg_outcome := Some (inr (result, pool_of (pg_samples s))) |}
      end
  | Rejected e =>
      match pg_outcome s with
      | Some _ => None
      | None =>
          Some {| pg_timer := pg_timer s; pg_in_flight := pg_in_flight s;
                  pg_samples := pg_samples s; pg_outcome := Some (inl e) |}
      end
  end.

Fixpoint pg_turns (es : list pg_event) (s : PgSampling) : option PgSampling :=
  match es with [] => Some s | e :: es => s' ← pg_turn s e; pg_turns es s' end.

(** The rows that were answered. *)
Definition rows_answered (es : list pg_event) : list ActivityRow :=
  omap (λ e, match e with Answered (inr row) => Some row | _ => None end) es.
End pg_sampling.
Arguments pg_event : clear implicits.
Arguments PgSampling : clear implicits.

(** ** One request

    The promise of [request] is settled once, by whichever comes first: the end of the
    answer, with its status, or an error, with 0. *)

Inductive http_event :=
| ResponseEnd (statusCode : Z)
| RequestError.

Definition status_of (e : http_event) : Z :=
  match e with ResponseEnd statusCode => statusCode | RequestError => 0 end.

Definition request_settles (es : list http_event) : option Z := status_of <$> head es.

(** ** The closed loop

    The workers of [runLoad] share the clock and the list of what was counted: [count],
    [latencies] and [errors] are what [load_result] makes of it. *)

Inductive load_phase := Looping | Requesting (t0 : Z) | Ended.

Record Load := {
  ld_now : Z;
  ld_workers : list load_phase;
  ld_samples : list (Z * number);
}.

(** Time passes; a worker tests the clock and sends its next request, or ends; the
    request of a worker is answered. *)
Inductive load_event :=
| Pass (ns : Z)
| Turn (i : nat)
| Respond (i : nat) (status : Z).

Definition with_worker (i : nat) (x : load_phase) (s : Load) : Load :=
  {| ld_now := ld_now s; ld_workers := <[i := x]> (ld_workers s); ld_samples := ld_samples s |}.

Section load.
Variable warmupEnd end_ : Z.

Definition counted (t0 now status : Z) : list (Z * number) :=
  if warmupEnd <? ms_of now then [(status, elapsed_ms (now - t0))] else [].

Definition load_turn (s : Load) (e : load_event) : option Load :=
  match e with
  | Pass ns =>
      if 0 <=? ns
      then Some {| ld_now := ld_now s + ns; ld_workers := ld_workers s;
                   ld_samples := ld_samples s |}
      else None
  | Turn i =>
      match ld_workers s !! i with
      | Some Looping =>
          Some (with_worker i (if ms_of (ld_now s) <? end_ then Requesting (ld_now s) else Ended) s)
      | _ => None
      end
  | Respond i status =>
      match ld_workers s !! i with
      | Some (Requesting t0) =>
          Some {| ld_now := ld_now s; ld_workers := <[i := Looping]> (ld_workers s);
                  ld_samples := ld_samples s ++ counted t0 (ld_now s) status |}
      | _ => None
      end
  end.

Fixpoint load_turns (es : list load_event) (s : Load) : option Load :=
  match es with [] => Some s | e :: es => s' ← load_turn s e; load_turns es s' end.

Definition load_start (concurrency : nat) (now : Z) : Load :=
  {| ld_now := now; ld_workers := replicate concurrency Looping; ld_samples := [] |}.
End load.

(** [runLoad], from the end of all its workers. *)
Definition runLoad_result (seconds okStatus : Z) (s : Load) : LoadResult :=
  load_result seconds (Z.of_nat (length (ld_workers s))) okStatus (ld_samples s).

(** ** Lemmas: the depth sampler *)

(** What [queueTotals] adds up: for each partition, what it held at some instant of
    the call. *)
Definition held_between (w : Lab) (lo hi : Z) (partitions : list nat) (n : Z) : Prop :=
  ∃ held, length held = length partitions ∧ n = foldr Z.add 0 held ∧
    ∀ k i m, partitions !! k = Some i → held !! k = Some m →
      ∃ t, lo <= t <= hi ∧ m = (lb_queue w i t).1.

Lemma queueTotals_sum_wp partitions messages consumers w :
  wp exec_lab lab_fault (queueTotals partitions messages consumers)
    (λ r w', same_lab w w' ∧
       match r with
       | inl e => e ≠ out_of_fuel
       | inr totals => held_between w (lb_now w) (lb_now w') partitions (totals.1 - messages)
       end) w.
Proof.
  revert messages consumers w. induction partitions as [|i rest IH]; intros messages consumers w.
  { simpl. split; [done|]. exists []. split_and!; [done|simpl; lia|done]. }
  cbn [queueTotals]. apply wp_bind, wp_await. intros f Hf. cbn [exec_lab].
  pose proof (elapse_same 1 w ltac:(lia)) as Hs1. set (w1 := elapse 1 w) in *.
  destruct f as [|e|e|n e]; cbn [asked fst snd]; [|by split..]. fold w1.
  eapply wp_mono; [|by apply IH]. intros r w' [Hs Hr]. split; [by etrans|].
  destruct r as [e|totals]; [done|]. destruct Hr as (held & Hlen & Hsum & Hat).
  exists ((lb_queue w i (lb_now w1)).1 :: held).
  split_and!; [by simpl; rewrite Hlen|cbn [foldr]; rewrite <- Hsum; cbn [fst]; lia|].
  pose proof (sl_now _ _ Hs1). pose proof (sl_now _ _ Hs).
  intros [|k] j m Hj Hm; simpl in Hj, Hm.
  - injection Hj as <-. injection Hm as <-. exists (lb_now w1). split; [lia|done].
  - destruct (Hat k j m Hj Hm) as (t & Ht & ->). exists t. split; [lia|done].
Qed.

Lemma wp_on_lab {A} t ok (p : prog lab_op A) Q w :
  wp exec_lab ok p Q w → wp (exec_sampler t) ok (on_lab p) Q w.
Proof.
  revert w. induction p as [a|e|X op k IH]; intros w; simpl; [done..|].
  intros Hp f Hf. by apply IH, Hp.
Qed.

(** A sample, taken between two instants. *)
Definition sampled (w : Lab) (partitions : nat) (lo hi : Z) (s : Sample) : Prop :=
  sm_t s = ms_of hi ∧ held_between w lo hi (seq 0 partitions) (sm_messages s).

Lemma take_sample_wp t partitions series w :
  wp (exec_sampler t) lab_fault (take_sample partitions series)
    (λ r w', same_lab w w' ∧
       (r = inr series ∨ ∃ s, r = inr (series ++ [s]) ∧
          sampled w partitions (lb_now w) (lb_now w') s)) w.
Proof.
  unfold take_sample. apply wp_try_catch, wp_bind, wp_on_lab.
  eapply wp_mono; [|apply queueTotals_sum_wp]. intros [e|totals] w' [Hs Hr].
  { simpl. split; [done|by left]. }
  apply wp_bind, wp_await. intros f _. cbn [exec_sampler exec_lab fst snd]. simpl.
  split; [done|]. right. eexists. split; [done|]. split; [done|]. simpl.
  by rewrite Z.sub_0_r in Hr.
Qed.

(** The samples of a loop that began at [lo]: spaced by the interval, and every one
    that another follows was taken an interval before the end. *)
Record series_ok (w : Lab) (partitions : nat) (lo hi stop : Z) (series : list Sample) : Prop := {
  so_sampled : Forall (λ s, ∃ t1 t2, lo <= t1 <= t2 ∧ t2 <= hi ∧ sampled w partitions t1 t2 s) series;
  so_spaced : StronglySorted (λ a b, sm_t a + DEPTH_SAMPLE_MS <= sm_t b ∧
    sm_t a + DEPTH_SAMPLE_MS <= ms_of stop) series;
  so_count : DEPTH_SAMPLE_MS * (Z.of_nat (length series) - 1) <= Z.max 0 (ms_of stop - ms_of lo);
  so_none : stop <= lo → series = [];
}.

Lemma sampled_same w w' partitions lo hi s :
  same_lab w w' → sampled w' partitions lo hi s → sampled w partitions lo hi s.
Proof.
  intros Hs [Ht (held & Hl & Hn & Hat)]. split; [done|]. exists held. split_and!; [done..|].
  intros k i m Hk Hm. destruct (Hat k i m Hk Hm) as (t & Hr & ->). exists t.
  split; [done|]. by rewrite (sl_queue _ _ Hs).
Qed.

Lemma ms_of_lt a b : a < b → ms_of a <= ms_of b.
Proof. intros H. apply ms_of_mono. lia. Qed.

(** A loop whose next turn comes later: at most one sample more. *)
Lemma series_ok_cons w w1 w2 partitions stop hi new rest :
  same_lab w w1 → lb_now w < stop → same_lab w1 w2 →
  ms_of (lb_now w1) + DEPTH_SAMPLE_MS <= ms_of (lb_now w2) → lb_now w2 <= hi →
  new = [] ∨ (∃ s, new = [s] ∧ sampled w partitions (lb_now w) (lb_now w1) s) →
  series_ok w2 partitions (lb_now w2) hi stop rest →
  series_ok w partitions (lb_now w) hi stop (new ++ rest).
Proof.
  intros H1 Hlt H2 Hsleep Hhi Hnew [Hsam Hsp Hcount Hnone].
  pose proof (sl_now _ _ H1). pose proof (sl_now _ _ H2). pose proof (ms_of_lt _ _ Hlt).
  pose proof (ms_of_mono _ _ (sl_now _ _ H1)).
  assert (Hsame : same_lab w w2) by (by etrans).
  assert (Hlate : rest ≠ [] → ms_of (lb_now w2) <= ms_of stop).
  { intros Hr. destruct (Z.lt_ge_cases (lb_now w2) stop); [by apply ms_of_lt|].
    by destruct Hr; apply Hnone. }
  assert (Hafter : Forall (λ s, ms_of (lb_now w2) <= sm_t s) rest).
  { eapply Forall_impl; [exact Hsam|]. intros s (t1 & t2 & Ht & _ & [-> _]). apply ms_of_mono. lia. }
  split.
  - apply Forall_app. split.
    + destruct Hnew as [->|(s & -> & Hs)]; constructor; [|done].
      exists (lb_now w), (lb_now w1). split_and!; [lia|lia|lia|done].
    + eapply Forall_impl; [exact Hsam|]. intros s (t1 & t2 & Ht & Ht2 & Hs).
      exists t1, t2. split_and!; [lia|lia|lia|by eapply sampled_same].
  - destruct Hnew as [->|(s & -> & [Hs _])]; [done|]. simpl. constructor; [done|].
    destruct rest as [|x rest]; [constructor|]. specialize (Hlate ltac:(done)).
    eapply Forall_impl; [exact Hafter|]. simpl. intros y Hy. split; lia.
  - destruct rest as [|x rest].
    + destruct Hnew as [->|(s & -> & _)]; simpl; unfold DEPTH_SAMPLE_MS in *; lia.
    + specialize (Hlate ltac:(done)). rewrite length_app.
      assert (Z.of_nat (length new) <= 1) by (destruct Hnew as [->|(s & -> & _)]; simpl; lia).
      rewrite Nat2Z.inj_add. unfold DEPTH_SAMPLE_MS in *. lia.
  - lia.
Qed.

Lemma sample_loop_wp fuel partitions t series w :
  (1 <= fuel)%nat → ms_of t - ms_of (lb_now w) < DEPTH_SAMPLE_MS * (Z.of_nat fuel - 1) →
  wp (exec_sampler (Some t)) lab_fault (sample_loop fuel partitions series)
    (λ r w', same_lab w w' ∧ t <= lb_now w' ∧ ∃ taken, r = inr (series ++ taken) ∧
       series_ok w partitions (lb_now w) (lb_now w') t taken) w.
Proof.
  revert series w. induction fuel as [|fuel IH]; intros series w H1 Hfuel; [lia|].
  cbn [sample_loop]. apply wp_bind, wp_await. intros f0 _. cbn [exec_sampler fst snd].
  destruct (Z.leb_spec t (lb_now w)) as [Hle|Hlt].
  { simpl. split; [done|]. split; [done|]. exists []. rewrite app_nil_r. split; [done|].
    split; [constructor|constructor|unfold DEPTH_SAMPLE_MS; simpl; lia|done]. }
  apply wp_bind. eapply wp_mono; [|apply take_sample_wp]. intros r w1 [Hs1 Hr].
  assert (Hnew : ∃ new, r = inr (series ++ new) ∧
    (new = [] ∨ ∃ s, new = [s] ∧ sampled w partitions (lb_now w) (lb_now w1) s)).
  { destruct Hr as [->|(s & -> & Hs)]; [exists []; rewrite app_nil_r; by auto|].
    exists [s]. split; [done|]. right. by exists s. }
  destruct Hnew as (new & -> & Hnew). apply wp_bind, wp_await. intros f _.
  cbn [exec_sampler exec_lab fst snd]. set (w2 := elapse (DEPTH_SAMPLE_MS * 1000000) w1).
  assert (Hs2 : same_lab w1 w2) by (apply elapse_same; unfold DEPTH_SAMPLE_MS; lia).
  pose proof (ms_of_after_sleep DEPTH_SAMPLE_MS w1) as Hms. fold w2 in Hms.
  pose proof (ms_of_mono _ _ (sl_now _ _ Hs1)). pose proof (ms_of_lt _ _ Hlt).
  eapply wp_mono; [|apply IH; unfold DEPTH_SAMPLE_MS in *; lia].
  intros r w' (Hs & Hend & rest & -> & Hok). pose proof (sl_now _ _ Hs).
  split; [by repeat (etrans; [eassumption|])|]. split; [done|].
  exists (new ++ rest). split; [by rewrite app_assoc|].
  by apply (series_ok_cons w w1 w2).
Qed.

(** C40. The sampler of the queue depth never disturbs the run and ends with it: once the
    promise is fulfilled, whatever the broker does to the samples, it returns the
    promise's result and its samples; each holds what every partition held at some
    instant of its turn, they are at least the interval apart, at most one is later
    than the promise, and there are at most one per interval and one more. *)
Theorem depth_sampler_ends {R} fuel partitions t (result : R) fs w :
  (1 <= fuel)%nat → ms_of t - ms_of (lb_now w) < DEPTH_SAMPLE_MS * (Z.of_nat fuel - 1) →
  Forall lab_fault fs →
  let '(r, w', _) := run (exec_sampler (Some t)) (sampleDepthDuring fuel partitions result) fs w in
  t <= lb_now w' ∧ lb_sent w' = lb_sent w ∧
  ∃ series, r = inr (result, series) ∧
    series_ok w partitions (lb_now w) (lb_now w') t series.
Proof.
  intros H1 Hfuel Hfs.
  assert (Hwp : wp (exec_sampler (Some t)) lab_fault (sampleDepthDuring fuel partitions result)
    (λ r w', t <= lb_now w' ∧ lb_sent w' = lb_sent w ∧ ∃ series, r = inr (result, series) ∧
       series_ok w partitions (lb_now w) (lb_now w') t series) w).
  { apply wp_bind. eapply wp_mono; [|by apply sample_loop_wp].
    intros r w' (Hs & Hend & taken & -> & Hok). simpl.
    split_and!; [done|apply (sl_sent _ _ Hs)|by exists taken]. }
  pose proof (wp_run _ lab_fault _ _ fs w I Hfs Hwp) as Hr.
  by destruct (run (exec_sampler (Some t)) _ fs w) as [[r w'] fs'].
Qed.

(** A promise that is rejected leaves its sampler running for good. *)
Lemma depth_sampler_outlives_failure fuel partitions series fs w :
  Forall lab_fault fs →
  (run (exec_sampler None) (sample_loop fuel partitions series) fs w).1.1 = inl out_of_fuel.
Proof.
  intros Hfs.
  assert (Hwp : ∀ series w, wp (exec_sampler None) lab_fault (sample_loop fuel partitions series)
    (λ r _, r = inl out_of_fuel) w).
  { clear. induction fuel as [|fuel IH]; intros series w; [done|].
    cbn [sample_loop]. apply wp_bind, wp_await. intros f0 _. cbn [exec_sampler fst snd].
    apply wp_bind. eapply wp_mono; [|apply take_sample_wp].
    intros r w1 [_ [->|(s & -> & _)]]; apply wp_bind, wp_await; intros f _; apply IH. }
  by apply (wp_run (exec_sampler None) lab_fault _ (λ r _, r = inl out_of_fuel) fs w).
Qed.

Definition fx_lab : Lab :=
  {| lb_now := 0; lb_costs := []; lb_statuses := []; lb_log := λ _ _, 0;
     lb_presence := λ _ _, 0; lb_queue := λ i t, (Z.of_nat i + ms_of t, 1); lb_sent := [] |}.

(** Three turns, the second of which fails; the promise is fulfilled after 1.2 seconds. *)
Definition fx_sampled : exn + string * list Sample :=
  (run (exec_sampler (Some 1200000000)) (sampleDepthDuring 5 2 "done"%string)
    [FOk; FOk; FOk; FOk; FOk; FOk; FFail (Error "channel closed")] fx_lab).1.1.

Lemma depth_sampler_ends_witness :
  (let '(r, w', _) := run (exec_sampler (Some 1200000000)) (sampleDepthDuring 5 2 "done"%string)
     [FOk; FOk; FOk; FOk; FOk; FOk; FFail (Error "channel closed")] fx_lab in
   1200000000 <= lb_now w' ∧ lb_sent w' = [] ∧
   ∃ series, r = inr ("done"%string, series) ∧
     series_ok fx_lab 2 0 (lb_now w') 1200000000 series) ∧
  fx_sampled = inr ("done"%string,
    [{| sm_t := 0; sm_messages := 1 |}; {| sm_t := 1000; sm_messages := 2001 |}]).
Proof.
  split; [|vm_compute; reflexivity].
  apply (depth_sampler_ends 5 2 1200000000 "done"%string
    [FOk; FOk; FOk; FOk; FOk; FOk; FFail (Error "channel closed")] fx_lab); [lia|vm_compute; reflexivity|].
  repeat (constructor; [done|]). constructor.
Defined.

(** ** The activity sampler *)

Lemma pg_turns_app {R} (es es' : list (pg_event R)) s :
  pg_turns (es ++ es') s = s' ← pg_turns es s; pg_turns es' s'.
Proof.
  revert s. induction es as [|e es IH]; intros s; [done|]. cbn [app pg_turns].
  destruct (pg_turn s e); cbn [mbind option_bind]; [apply IH|done].
Qed.

Definition is_tick {R} (e : pg_event R) : bool := match e with Tick => true | _ => false end.

Lemma pg_turns_rows {R} (es : list (pg_event R)) s s' :
  pg_turns es s = Some s' → pg_samples s' = pg_samples s ++ rows_answered es.
Proof.
  revert s. induction es as [|e es IH]; intros s; cbn [pg_turns].
  { intros [= <-]. by rewrite app_nil_r. }
  destruct (pg_turn s e) as [s1|] eqn:E; [|done]. intros Ht. rewrite (IH s1 Ht). clear IH Ht.
  destruct e as [|[x|row]|r|x]; cbn [pg_turn] in E; repeat case_match; simplify_eq/=; try done.
  by rewrite <- app_assoc.
Qed.

(** Once the promise is fulfilled, the timer is off and the outcome stays. *)
Lemma pg_turns_settled {R} (es : list (pg_event R)) s s' o :
  pg_timer s = false → pg_outcome s = Some o → pg_turns es s = Some s' →
  pg_timer s' = false ∧ pg_outcome s' = Some o ∧ Forall (λ e, is_tick e = false) es.
Proof.
  revert s. induction es as [|e es IH]; intros s Ht Ho; cbn [pg_turns]; [by intros [= <-]|].
  destruct (pg_turn s e) as [s1|] eqn:E; [|done]. intros Hs.
  destruct e as [|answer|r|x]; cbn [pg_turn] in E; rewrite ?Ht, ?Ho in E; try done.
  destruct (pg_in_flight s); [done|]. injection E as <-.
  cbn [mbind option_bind] in Hs.
  edestruct IH as (? & ? & ?); [| |exact Hs|]; [done..|]. split_and!; [done..|by constructor].
Qed.

(** The pool's figures are those of the rows answered by the time the load ended, in
    the order of their answers: a failing query leaves no trace, an answer that comes
    later is ignored, and no query leaves any more. *)
Lemma pool_is_what_was_answered {R} before (result : R) after s :
  pg_turns (before ++ Fulfilled result :: after) pg_start = Some s →
  pg_outcome s = Some (inr (result, pool_of (rows_answered before))) ∧
  pg_timer s = false ∧ Forall (λ e, is_tick e = false) after.
Proof.
  rewrite pg_turns_app. destruct (pg_turns before pg_start) as [s1|] eqn:E1; [|done].
  cbn [mbind option_bind pg_turns pg_turn]. pose proof (pg_turns_rows _ _ _ E1) as Hrows.
  cbn [pg_start pg_samples app] in Hrows.
  destruct (pg_outcome s1) eqn:Ho; [done|]. cbn [mbind option_bind]. rewrite Hrows. intros Hs.
  apply (pg_turns_settled _ _ _ (inr (result, pool_of (rows_answered before)))) in Hs; tauto || done.
Qed.

Lemma pg_timer_on {R} (es : list (pg_event R)) s s' :
  (pg_outcome s = None → pg_timer s = true) → pg_turns es s = Some s' →
  pg_outcome s' = None → pg_timer s' = true.
Proof.
  revert s. induction es as [|e es IH]; intros s Hon; cbn [pg_turns]; [by intros [= <-]|].
  destruct (pg_turn s e) as [s1|] eqn:E; [|done]. apply IH.
  destruct e as [|answer|r|x]; cbn [pg_turn] in E; repeat case_match; by simplify_eq/=.
Qed.

(** A promise that is rejected leaves the timer on: queries go on leaving for good. *)
Lemma pg_timer_outlives_failure {R} before e n s :
  pg_turns (before ++ [Rejected e]) (pg_start (R := R)) = Some s →
  ∃ s', pg_turns (replicate n Tick) s = Some s' ∧ pg_in_flight s' = (n + pg_in_flight s)%nat.
Proof.
  intros Hs. assert (Ht : pg_timer s = true).
  { rewrite pg_turns_app in Hs. destruct (pg_turns before pg_start) as [s1|] eqn:E; [|done].
    cbn [mbind option_bind pg_turns pg_turn] in Hs. destruct (pg_outcome s1) eqn:Ho; [done|].
    injection Hs as <-. by apply (pg_timer_on before pg_start s1). }
  clear Hs. revert s Ht. induction n as [|n IH]; intros s Ht; [by eexists|].
  cbn [replicate pg_turns pg_turn]. rewrite Ht. cbn [mbind option_bind].
  edestruct IH as (s' & Hs & Hf); [|exists s'; split; [exact Hs|rewrite Hf; simpl; lia]]. done.
Qed.

Example pool_of_rows :
  pool_of [{| ar_active := "3"; ar_idle_in_txn := "0"; ar_total := "9"; ar_max_xact_s := "0.0123" |};
           {| ar_active := "4"; ar_idle_in_txn := "1"; ar_total := "11"; ar_max_xact_s := "0.002" |};
           {| ar_active := "4"; ar_idle_in_txn := "0"; ar_total := "10"; ar_max_xact_s := "0" |}] =
  {| avgActive := Number_of_text "3.67"; avgIdleInTxn := Number_of_text "0.33";
     maxConnections := num_of_Z 11; maxXactMs := Number_of_text "12.3" |}.
Proof. vm_compute. reflexivity. Qed.

(** ** The closed loop *)

Section closed_loop.
Variable warmupEnd end_ : Z.

(** The answers of a run, with the instants they came at. *)
Fixpoint answers (now : Z) (es : list load_event) : list (Z * Z) :=
  match es with
  | [] => []
  | Pass ns :: es => answers (now + ns) es
  | Turn _ :: es => answers now es
  | Respond _ status :: es => (now, status) :: answers now es
  end.

Definition began_in_time (x : load_phase) : Prop :=
  match x with Requesting t0 => ms_of t0 < end_ | _ => True end.

Lemma load_turns_spec es s s' :
  load_turns warmupEnd end_ es s = Some s' → Forall began_in_time (ld_workers s) →
  Forall began_in_time (ld_workers s') ∧ length (ld_workers s') = length (ld_workers s) ∧
  (ld_samples s').*1 =
    (ld_samples s).*1 ++ (filter (λ a, warmupEnd < ms_of a.1) (answers (ld_now s) es)).*2.
Proof.
  revert s. induction es as [|e es IH]; intros s; cbn [load_turns].
  { intros [= <-] ?. by rewrite app_nil_r. }
  destruct (load_turn warmupEnd end_ s e) as [s1|] eqn:E; [|done].
  intros Hs Hin. cbn [mbind option_bind] in Hs. specialize (IH s1 Hs).
  destruct e as [ns|i|i status]; cbn [load_turn answers] in *.
  - destruct (0 <=? ns); [|done]. injection E as <-. by apply IH.
  - destruct (ld_workers s !! i) as [[]|] eqn:Hi; try done. injection E as <-.
    cbn [with_worker ld_workers ld_samples ld_now] in IH. rewrite length_insert in IH. apply IH.
    apply Forall_insert; [done|]. simpl.
    destruct (Z.ltb_spec (ms_of (ld_now s)) end_); done.
  - destruct (ld_workers s !! i) as [[|t0|]|] eqn:Hi; try done. injection E as <-.
    cbn [ld_workers ld_samples ld_now] in IH. rewrite length_insert in IH.
    destruct IH as (? & ? & Hsam); [by apply Forall_insert|]. split_and!; [done..|].
    rewrite Hsam, fmap_app, <- app_assoc. f_equal. unfold counted.
    rewrite filter_cons. cbn [fst]. destruct (Z.ltb_spec warmupEnd (ms_of (ld_now s))).
    + by rewrite decide_True.
    + by rewrite decide_False by lia.
Qed.

(** What the workers have left to do when the time is over. *)
Definition left_to_do (x : load_phase) : nat :=
  match x with Looping => 1 | Requesting _ => 2 | Ended => 0 end.

Definition potential (s : Load) : nat := sum_list (left_to_do <$> ld_workers s).

Definition is_pass (e : load_event) : bool := match e with Pass _ => true | _ => false end.

Lemma potential_insert i x y l :
  l !! i = Some x →
  (sum_list (left_to_do <$> <[i := y]> l) + left_to_do x =
     sum_list (left_to_do <$> l) + left_to_do y)%nat.
Proof.
  revert i. induction l as [|z l IH]; intros [|i] Hi; simplify_eq/=; [lia|].
  specialize (IH i Hi). lia.
Qed.

Lemma potential_bound l : (sum_list (left_to_do <$> l) <= 2 * length l)%nat.
Proof.
  induction l as [|x l IH]; [simpl; lia|].
  change (sum_list (left_to_do <$> x :: l)) with
    (left_to_do x + sum_list (left_to_do <$> l))%nat.
  destruct x; cbn [left_to_do length]; lia.
Qed.

Lemma late_turn e s s' :
  end_ <= ms_of (ld_now s) → load_turn warmupEnd end_ s e = Some s' →
  end_ <= ms_of (ld_now s') ∧
  (potential s' + (if is_pass e then 0 else 1) = potential s)%nat.
Proof.
  intros Hlate E. assert (Hlt : (ms_of (ld_now s) <? end_) = false) by (by apply Z.ltb_ge).
  unfold potential. destruct e as [ns|i|i status]; cbn [load_turn] in E.
  - destruct (Z.leb_spec 0 ns); [|done]. injection E as <-. cbn [ld_now ld_workers is_pass].
    pose proof (ms_of_mono (ld_now s) (ld_now s + ns) ltac:(lia)). split; [lia|apply Nat.add_0_r].
  - destruct (ld_workers s !! i) as [[]|] eqn:Hi; try done. rewrite Hlt in E. injection E as <-.
    cbn [with_worker ld_now ld_workers is_pass].
    pose proof (potential_insert i Looping Ended _ Hi) as Hp. cbn [left_to_do] in Hp.
    split; [done|]. rewrite Hp. apply Nat.add_0_r.
  - destruct (ld_workers s !! i) as [[|t0|]|] eqn:Hi; try done. injection E as <-.
    cbn [ld_now ld_workers is_pass].
    pose proof (potential_insert i (Requesting t0) Looping _ Hi) as Hp. cbn [left_to_do] in Hp.
    split; [done|]. lia.
Qed.

Lemma late_turns es s s' :
  end_ <= ms_of (ld_now s) → load_turns warmupEnd end_ es s = Some s' →
  (potential s' + length (filter (λ e, is_pass e = false) es) = potential s)%nat.
Proof.
  revert s. induction es as [|e es IH]; intros s Hlate; cbn [load_turns].
  { intros [= <-]. simpl. lia. }
  destruct (load_turn warmupEnd end_ s e) as [s1|] eqn:E; [|done]. intros Hs.
  destruct (late_turn e s s1 Hlate E) as [Hlate1 Hp]. specialize (IH s1 Hlate1 Hs).
  rewrite filter_cons. destruct (is_pass e).
  - rewrite decide_False by done. lia.
  - rewrite decide_True by done. cbn [length]. lia.
Qed.

(** When no worker can go on, all have ended. *)
Definition at_rest (s : Load) : Prop :=
  ∀ e, is_pass e = false → load_turn warmupEnd end_ s e = None.

Lemma at_rest_ended s :
  at_rest s → ld_workers s = replicate (length (ld_workers s)) Ended.
Proof.
  intros Hrest. symmetry. apply replicate_as_Forall_2; [done|]. apply Forall_forall. intros x Hx.
  apply list_elem_of_lookup in Hx as [i Hi]. destruct x as [|t0|]; [| |done].
  - specialize (Hrest (Turn i) eq_refl). cbn [load_turn] in Hrest. by rewrite Hi in Hrest.
  - specialize (Hrest (Respond i 0) eq_refl). cbn [load_turn] in Hrest. by rewrite Hi in Hrest.
Qed.
End closed_loop.

(** The load is a closed loop: whatever the answers and their order, there are never
    more requests in flight than workers, none began after the end, and the result
    counts exactly the answers that came after the warm-up, of every status; once the
    time is over, the load is done within two more turns of each worker, and when no
    worker can go on every one has ended. *)
Theorem load_is_closed_loop seconds okStatus warmupEnd end_ concurrency now es s :
  load_turns warmupEnd end_ es (load_start concurrency now) = Some s →
  Forall (began_in_time end_) (ld_workers s) ∧ length (ld_workers s) = concurrency ∧
  lr_requests (runLoad_result seconds okStatus s) =
    Z.of_nat (length (filter (λ a, warmupEnd < ms_of a.1) (answers now es))) ∧
  (end_ <= ms_of (ld_now s) → ∀ es' s', load_turns warmupEnd end_ es' s = Some s' →
     (length (filter (λ e, is_pass e = false) es') <= 2 * concurrency)%nat) ∧
  (at_rest warmupEnd end_ s → ld_workers s = replicate concurrency Ended).
Proof.
  intros Hs. destruct (load_turns_spec warmupEnd end_ es _ s Hs) as (Hin & Hlen & Hsam).
  { by apply Forall_replicate. }
  cbn [load_start ld_workers ld_samples ld_now] in Hlen, Hsam. rewrite length_replicate in Hlen.
  split_and!; [done|done| | |].
  - unfold runLoad_result, load_result. cbn [lr_requests].
    f_equal.
    rewrite <- (length_fmap fst (ld_samples s)), Hsam. apply length_fmap.
  - intros Hlate es' s' Hs'. pose proof (late_turns _ _ es' s s' Hlate Hs').
    pose proof (potential_bound (ld_workers s)). unfold potential in *. lia.
  - intros Hrest. rewrite <- Hlen. by eapply at_rest_ended.
Qed.

(** Two workers, a second of load of which a quarter is warm-up. *)
Definition fx_load : list load_event :=
  [Turn 0; Turn 1; Pass 200000000; Respond 1 202; Turn 1; Pass 300000000; Respond 0 202;
   Turn 0; Respond 1 503; Pass 600000000; Turn 1; Respond 0 202; Turn 0].

Definition fx_loaded : Load :=
  default (load_start 2 0) (load_turns 250 1000 fx_load (load_start 2 0)).

Lemma load_is_closed_loop_witness :
  (Forall (began_in_time 1000) (ld_workers fx_loaded) ∧ length (ld_workers fx_loaded) = 2%nat ∧
   lr_requests (runLoad_result 1 202 fx_loaded) =
     Z.of_nat (length (filter (λ a, 250 < ms_of a.1) (answers 0 fx_load))) ∧
   (1000 <= ms_of (ld_now fx_loaded) → ∀ es' s', load_turns 250 1000 es' fx_loaded = Some s' →
      (length (filter (λ e, is_pass e = false) es') <= 2 * 2)%nat) ∧
   (at_rest 250 1000 fx_loaded → ld_workers fx_loaded = replicate 2 Ended)) ∧
  lr_requests (runLoad_result 1 202 fx_loaded) = 3 ∧
  lr_errors (runLoad_result 1 202 fx_loaded) = [(503, 1)] ∧ ld_workers fx_loaded = [Ended; Ended].
Proof.
  split.
  - apply (load_is_closed_loop 1 202 250 1000 2 0 fx_load). vm_compute. reflexivity.
  - vm_compute. done.
Defined.
