(* ===== verification/HarnessProbes.v ===== *)
(** What the load harness, [src/scripts/measure-presence.mjs], asks of the system it
    measures: the names of the queues, the requests of its workloads, the two counts
    that its tracers poll; and that these counts tell what the tracers take them for. *)

From stdpp Require Import pretty.
From S2P Require Import Prelude Num Js Prog Db World Locations Transition Ingest Worker.
From S2P Require Import WorkerCorrect Delivery Chains Lifecycle Stats Harness Samplers Fixtures.

(** ** Queues and requests *)

Definition queueName (i : Z) : string := "loc.events.p" +:+ pretty i.

(** [Math.floor(random * n)]. *)
Definition num_floor (x : number) : Z :=
  match x with
  | S754_finite s m e =>
      let v := if s then Zneg m else Zpos m in
      (if 0 <=? e then Z.shiftl v e else Z.shiftr v (- e))%Z
  | _ => 0%Z
  end.

Definition rand (random : number) (n : Z) : Z := num_floor (num_mul random (num_of_Z n)).

(** A point of a square of four degrees: [base + random * 4], twice. *)
Definition random_point (base : Z) (random1 random2 : number) : number * number :=
  (num_add (num_of_Z base) (num_mul random1 (num_of_Z 4)),
   num_add (num_of_Z base) (num_mul random2 (num_of_Z 4))).

Definition insidePoint : number → number → number * number := random_point 13.
Definition outsidePoint : number → number → number * number := random_point 58.

Definition one_half : number := num_div (num_of_Z 1) (num_of_Z 2).

(** The bodies the workloads send: the user, the longitude and the latitude. *)
Definition load_user (random : number) : string := "load-" +:+ pretty (rand random USERS).

Definition static_request (random r1 r2 : number) : string * (number * number) :=
  (load_user random, insidePoint r1 r2).

Definition transition_request (random coin r1 r2 : number) : string * (number * number) :=
  (load_user random, if num_lt coin one_half then insidePoint r1 r2 else outsidePoint r1 r2).

(** ** Counts *)

(** [SELECT count( * )::int AS n FROM logs WHERE user_id = $1]. *)
Definition logCount (userId : string) (db : Db) : nat :=
  length (filter (λ l, log_user_id l = userId) (logs db)).

(** [SELECT count( * )::int AS n FROM user_area_presence WHERE user_id = $1]. *)
Definition presenceCount (userId : string) (db : Db) : nat :=
  size (filter (λ kv, kv.1.1 = userId) (user_area_presence db)).

(** ** Lemmas *)

(** The harness asks about the queues the workers consume. *)
Lemma queueName_is_workers i : queueName i = queue_of i.
Proof. done. Qed.

Lemma logCount_user_log u db : logCount u db = length (user_log u db).
Proof. unfold user_log. by rewrite length_fmap. Qed.

Lemma presenceCount_presence_of u db :
  presenceCount u db = length (presence_of u (user_area_presence db)).
Proof.
  unfold presenceCount, presence_of. by rewrite length_fmap, length_map_to_list.
Qed.

(** The corners of the squares: the one lies in the fixture's area, the other does not. *)
Definition below_one : number := num_div (num_of_Z (two53 - 1)) (num_of_Z two53).

Example points_of_corners :
  insidePoint (num_of_Z 0) (num_of_Z 0) = (num_of_Z 13, num_of_Z 13) ∧
  (let '(x, y) := insidePoint below_one below_one in
   num_le x (num_of_Z 17) = true ∧ num_le y (num_of_Z 17) = true) ∧
  outsidePoint (num_of_Z 0) (num_of_Z 0) = (num_of_Z 58, num_of_Z 58) ∧
  rand below_one USERS = 9999%Z ∧ rand (num_of_Z 0) USERS = 0%Z.
Proof. vm_compute. done. Qed.

(** ** What the counts tell *)

Lemma same_elements_length (l m : list string) :
  NoDup l → NoDup m → same_elements l m → length l = length m.
Proof. intros Hl Hm Hs. apply Permutation_length, NoDup_Permutation; [done..|exact Hs]. Qed.

(** The tracers measure what they say: when a message of the user takes effect, the
    count of rows of presence is the number of areas that cover the point, and the
    count of logs grows by the number of areas newly entered; so a tracer that waits
    for zero rows sees an exit, and one that waits for a log sees an entry, exactly
    when there is one. *)
Theorem tracer_counts_are_right event cur db db' :
  NoDup cur → event_moved event cur db db' →
  presenceCount (ev_userId event) db' = length cur ∧
  logCount (ev_userId event) db' =
    logCount (ev_userId event) db +
    length (list_minus cur (presence_of (ev_userId event) (user_area_presence db))) ∧
  (presenceCount (ev_userId event) db' = 0 ↔ cur = []) ∧
  (logCount (ev_userId event) db < logCount (ev_userId event) db' ↔
     ∃ a, a ∈ cur ∧ a ∉ presence_of (ev_userId event) (user_area_presence db)).
Proof.
  intros Hnd Hm. set (u := ev_userId event) in *.
  assert (Hp : presenceCount u db' = length cur).
  { rewrite presenceCount_presence_of. symmetry.
    apply same_elements_length; [done|apply NoDup_presence_of|by eapply moved_elements]. }
  assert (Hl : logCount u db' = logCount u db +
    length (list_minus cur (presence_of u (user_area_presence db)))).
  { rewrite !logCount_user_log, !user_log_view, (moved_logs _ _ _ _ _ _ Hm).
    rewrite filter_app, fmap_app, length_app, filter_user_all, !length_fmap.
    by rewrite js_sort_Permutation. }
  split_and!; [done|done| |].
  - rewrite Hp. by destruct cur.
  - rewrite Hl. split.
    + intros Hlt. destruct (list_minus cur _) as [|a l] eqn:E; [simpl in Hlt; lia|].
      exists a. apply elem_of_list_minus. rewrite E. by left.
    + intros [a Ha%elem_of_list_minus]. destruct (list_minus cur _); [by apply elem_of_nil in Ha|].
      simpl. lia.
Qed.
