(* ===== verification/PresenceCorrect.v ===== *)
(** The guarantee of the presence cache ([presence-cache.service.ts]): what a read can
    answer after any history of write-backs and invalidations, by any users and under
    any failures, and how stale it can be. *)

From S2P Require Import Prelude Num Js Prog Json Spatial Db World Presence Fixtures.

Section cache.
Context {gis : PostGIS} {store : RedisStore} {lookup : AreaLookup} {laws : RedisLaws}.
Variable config : RedisConfig.

(** ** Histories *)

(** Time passes, a write-back, or an invalidation; the last two under a fault. *)
Inductive cache_event :=
| Tick (ms : nat)
| Populate (userId : string) (areaIds : list string) (f : fault)
| Invalidate (userId : string) (f : fault).

Definition tick (ms : nat) (w : World) : World :=
  {| w_db := w_db w; w_redis := w_redis w; w_clock := w_clock w + Z.of_nat ms;
     w_areas := w_areas w; w_memory := w_memory w; w_metrics := w_metrics w;
     w_lastSeq := w_lastSeq w; w_staleAreaDropCount := w_staleAreaDropCount w;
     w_processedCount := w_processedCount w; w_settled := w_settled w |}.

Definition cache_step (w : World) (ev : cache_event) : World :=
  match ev with
  | Tick ms => tick ms w
  | Populate u ids f => (run exec (cache_populate config u ids) [f] w).1.2
  | Invalidate u f => (run exec (cache_invalidate u) [f] w).1.2
  end.

(** ** The specification: what was last written for each user, and when *)

Definition applied (f : fault) : bool :=
  match f with FOk | FLost _ => true | FFail _ | FAt _ _ => false end.

Definition memo : Type := Z * gmap string (list string * Z).

Definition memo_step (m : memo) (ev : cache_event) : memo :=
  match ev with
  | Tick ms => (m.1 + Z.of_nat ms, m.2)%Z
  | Populate u ids f => if applied f then (m.1, <[u := (ids, m.1)]> m.2) else m
  | Invalidate u f => if applied f then (m.1, delete u m.2) else m
  end.

(** The answer about a user at time [t]. *)
Definition memo_live (m : memo) (u : string) (t : Z) : option (list string) :=
  match m.2 !! u with
  | Some (ids, written) =>
      if (t <? written + 1000 * populate_ttl config ids)%Z then Some ids else None
  | None => None
  end.

Definition memo_read (m : memo) (u : string) : PresenceCacheRead :=
  match memo_live m u m.1 with Some ids => CacheHit ids | None => CacheMiss end.

(** Redis agrees with the specification, now and at any later time. *)
Definition represents (m : memo) (w : World) : Prop :=
  w_clock w = m.1 ∧
  ∀ u t, (m.1 ≤ t)%Z →
    redis_get t (key u) (w_redis w) = JSON_stringify_strings <$> memo_live m u t.

(** ** Lemmas *)

Lemma with_redis_self w : with_redis (w_redis w) w = w.
Proof. by destruct w. Qed.

Lemma populate_step u ids f w :
  cache_step w (Populate u ids f) =
    if applied f
    then with_redis (redis_set_ex (w_clock w) (key u) (JSON_stringify_strings ids)
                       (populate_ttl config ids) (w_redis w)) w
    else w.
Proof. destruct f; simpl; by rewrite ?with_redis_self. Qed.

Lemma invalidate_step u f w :
  cache_step w (Invalidate u f) =
    if applied f then with_redis (redis_del (key u) (w_redis w)) w else w.
Proof. destruct f; simpl; by rewrite ?with_redis_self. Qed.

Lemma represents_step m w ev : represents m w → represents (memo_step m ev) (cache_step w ev).
Proof using laws.
  intros [Hclock Hrep]. destruct ev as [ms|u ids f|u f].
  - split; simpl; [by rewrite Hclock|]. intros u t Ht. apply Hrep. lia.
  - rewrite populate_step. cbn [memo_step]. destruct (applied f); [|done].
    split; [done|]. intros v t Ht. cbn [w_redis with_redis fst] in *. unfold memo_live.
    cbn [snd]. rewrite Hclock. destruct (decide (v = u)) as [->|Hne].
    + rewrite lookup_insert_eq. destruct (Z.ltb_spec t (m.1 + 1000 * populate_ttl config ids)).
      * apply redis_get_set_live. lia.
      * by apply redis_get_set_expired.
    + rewrite lookup_insert_ne by done.
      rewrite redis_get_set_ne by (intros He; by apply Hne, key_inj). by apply Hrep.
  - rewrite invalidate_step. cbn [memo_step]. destruct (applied f); [|done].
    split; [done|]. intros v t Ht. cbn [w_redis with_redis fst] in *. unfold memo_live.
    cbn [snd]. destruct (decide (v = u)) as [->|Hne].
    + rewrite lookup_delete_eq. apply redis_get_del.
    + rewrite lookup_delete_ne by done.
      rewrite redis_get_del_ne by (intros He; by apply Hne, key_inj). by apply Hrep.
Qed.

Lemma represents_history m w evs :
  represents m w → represents (foldl memo_step m evs) (foldl cache_step w evs).
Proof using laws. revert m w. induction evs; intros m w Hrep; simpl; auto using represents_step. Qed.

Lemma represents_get m w u :
  represents m w → run exec (cache_get u) [] w = (inr (memo_read m u), w, []).
Proof.
  intros [Hclock Hrep]. unfold cache_get, memo_read. cbn. rewrite Hclock, Hrep by lia.
  destruct (memo_live m u m.1) as [ids|]; cbn; [|by rewrite with_redis_self].
  rewrite JSON_parse_stringify. cbn. by rewrite with_redis_self.
Qed.

(** ** Properties *)

(** C29. The cache is its specification, failures included: after any history over an
    empty Redis, reading a user answers exactly the areas of the last write-back that
    took effect for that user, provided no invalidation took effect since and the time
    to live of that value has not passed; otherwise a miss; and a read that fails
    answers an error. A stale answer is thus never older than its time to live. *)
Theorem cache_bounded_staleness w evs :
  (∀ u t, redis_get t (key u) (w_redis w) = None) →
  let m := foldl memo_step (w_clock w, ∅) evs in
  let w' := foldl cache_step w evs in
  ∀ u, run exec (cache_get u) [] w' = (inr (memo_read m u), w', []) ∧
    ∀ e, run exec (cache_get u) [FFail e] w' = (inr CacheError, w', []).
Proof using laws.
  intros Hempty m w' u.
  assert (Hrep : represents m w').
  { apply represents_history. split; [done|]. intros v t _. by rewrite Hempty. }
  split; [by apply represents_get|]. intros e. cbn. by rewrite with_redis_self.
Qed.
End cache.

(** ** Witness *)

#[local] Existing Instances fx_postgis fx_redis fx_lookup fx_redis_laws.

(** A write-back whose answer was lost, an invalidation that failed, fourteen seconds. *)
Definition fx_history : list cache_event :=
  [Populate "u" ["area-a"] (FLost (Error "reset")); Populate "v" [] FOk;
   Invalidate "u" (FFail (Error "down")); Tick 14999].

Lemma cache_bounded_staleness_witness :
  let m := foldl memo_step (w_clock fx_world, ∅) fx_history in
  let w' := foldl (cache_step fx_config) fx_world fx_history in
  memo_read fx_config m "u" = CacheHit ["area-a"] ∧
  run exec (cache_get "u") [] w' = (inr (memo_read fx_config m "u"), w', []) ∧
  ∀ e, run exec (cache_get "u") [FFail e] w' = (inr CacheError, w', []).
Proof.
  cbv zeta. split; [by vm_compute|].
  by apply (cache_bounded_staleness fx_config fx_world fx_history).
Defined.

(** The stale areas of "u" are still answered, and one millisecond later no more. *)
Example fx_history_reads :
  (memo_read fx_config (foldl memo_step (0%Z, ∅) fx_history) "u",
   memo_read fx_config (foldl memo_step (0%Z, ∅) (fx_history ++ [Tick 1])) "u",
   memo_read fx_config (foldl memo_step (0%Z, ∅) (fx_history ++ [Tick 1])) "v") =
  (CacheHit ["area-a"], CacheMiss, CacheHit []).
Proof. vm_compute. reflexivity. Qed.
