(* ===== verification/LogsCorrect.v ===== *)
(** The guarantees of the entry log's listing: cursors, complete walks, stability of a
    walk while the log changes, and what a hand-crafted cursor can still reach. *)

From S2P Require Import Prelude Num Js Regex DateText Base64 Json Logs Filter.
From Stdlib Require Import Ascii.

Section logs.
Context {text : PgText}.

(** ** Definitions *)

(** The parameters of the filters are texts PostgreSQL converts. *)
Definition filters_ok (q : ListLogsQueryDto) : Prop :=
  (∀ a, lq_areaId q = Some a → ∃ u, pg_uuid a = inr u) ∧
  (∀ s, lq_from q = Some s → ∃ t, pg_timestamptz s = inr t) ∧
  (∀ s, lq_to q = Some s → ∃ t, pg_timestamptz s = inr t).

(** A row that a query's filters admit. *)
Definition matching (q : ListLogsQueryDto) (r : LogEntity) : Prop :=
  (∀ u, lq_userId q = Some u → le_userId r = u) ∧
  (∀ a, lq_areaId q = Some a → pg_uuid a = inr (le_areaId r)) ∧
  (∀ s, lq_from q = Some s → ∃ t, pg_timestamptz s = inr t ∧ (t ≤ le_recordedAt r)%Z) ∧
  (∀ s, lq_to q = Some s → ∃ t, pg_timestamptz s = inr t ∧ (le_recordedAt r ≤ t)%Z).

(** ** Lemmas *)

(** One optional filter: its test is [true] exactly on the rows that satisfy [P]. *)
Lemma opt_condition_test (c : string → condition) (o : option string)
    (P : string → LogEntity → Prop) :
  (∀ s, o = Some s → ∃ p, condition_test (c s) = inr p ∧ ∀ r, p r = true ↔ P s r) →
  ∃ p, where_test (opt_condition c o) = inr p ∧
    ∀ r, p r = true ↔ ∀ s, o = Some s → P s r.
Proof.
  intros Ho. destruct o as [s|]; simpl.
  - destruct (Ho s eq_refl) as (p & -> & Hp). eexists. split; [done|]. intros r. simpl.
    rewrite andb_true_r, Hp. split; [by intros ? ? [= <-]|auto].
  - eexists. split; [done|]. by intros r.
Qed.

Lemma filters_test q :
  filters_ok q →
  ∃ f, where_test (filter_conditions q) = inr f ∧ ∀ r, f r = true ↔ matching q r.
Proof.
  intros (Ha & Hfrom & Hto). unfold filter_conditions, matching.
  destruct (opt_condition_test UserIs (lq_userId q) (λ u r, le_userId r = u))
    as (p1 & H1 & E1).
  { intros u _. eexists. split; [done|]. intros r. apply bool_decide_eq_true. }
  destruct (opt_condition_test AreaIs (lq_areaId q) (λ a r, pg_uuid a = inr (le_areaId r)))
    as (p2 & H2 & E2).
  { intros a (u & Hu)%Ha. simpl. rewrite Hu. eexists. split; [done|]. intros r.
    rewrite bool_decide_eq_true. split; [by intros ->|by intros [= ->]]. }
  destruct (opt_condition_test RecordedFrom (lq_from q)
    (λ s r, ∃ t, pg_timestamptz s = inr t ∧ (t ≤ le_recordedAt r)%Z)) as (p3 & H3 & E3).
  { intros s (t & Ht)%Hfrom. simpl. rewrite Ht. eexists. split; [done|]. intros r.
    rewrite Z.leb_le. split; [by eexists|by intros (? & [= <-] & ?)]. }
  destruct (opt_condition_test RecordedTo (lq_to q)
    (λ s r, ∃ t, pg_timestamptz s = inr t ∧ (le_recordedAt r ≤ t)%Z)) as (p4 & H4 & E4).
  { intros s (t & Ht)%Hto. simpl. rewrite Ht. eexists. split; [done|]. intros r.
    rewrite Z.leb_le. split; [by eexists|by intros (? & [= <-] & ?)]. }
  destruct (where_test_app _ _ _ _ H3 H4) as (h34 & H34 & E34).
  destruct (where_test_app _ _ _ _ H2 H34) as (h234 & H234 & E234).
  destruct (where_test_app _ _ _ _ H1 H234) as (h & H & E).
  exists h. split; [exact H|]. intros r.
  by rewrite E, E234, E34, !andb_true_iff, E1, E2, E3, E4.
Qed.

Lemma with_cursor_filters c q : filter_conditions (with_cursor c q) = filter_conditions q.
Proof. done. Qed.

(** ** Cursors *)

(** C37. A cursor the service issued is read back unchanged, at full precision; and
    whatever text a client sends, decoding yields a pair of the two documented shapes
    or the shared 400, nothing else. *)
Theorem cursor_contract :
  (∀ c, re_test PG_TIMESTAMPTZ_TEXT (cur_recordedAt c) = true →
     re_test UUID (cur_id c) = true → decodeLogsCursor (encodeLogsCursor c) = inr c) ∧
  ∀ raw,
    decodeLogsCursor raw = inl malformed_cursor ∨
    ∃ c, decodeLogsCursor raw = inr c ∧
      matches PG_TIMESTAMPTZ_TEXT (cur_recordedAt c) ∧ matches UUID (cur_id c).
Proof.
  split; [apply decode_encode|]. intros raw.
  destruct (decode_cases raw) as [?|(c & Hc & Ht & Hu)]; [by left|right].
  exists c. by rewrite <- !re_test_spec.
Qed.

Context {text_laws : PgTextLaws}.

(** ** Walks *)

(** From a position, a walk over an unchanged log collects the selection past it. *)
Lemma walk_static q pos f n table :
  log_ok table → where_test (filter_conditions q) = inr f →
  (∀ r, pos = Some r → row_ok r) → lq_cursor q = cursor_of <$> pos →
  1 ≤ n → 1 ≤ lq_limit q → length (selected f pos table) ≤ n * lq_limit q →
  walk q (replicate n table) = inr (item_of <$> selected f pos table, true).
Proof.
  intros Hok Hf. revert q Hf pos.
  induction n as [|n IH]; intros q Hf pos Hpos Hc Hn Hl Hlen; [lia|].
  cbn [replicate walk]. rewrite (list_logs_page q pos f table Hf Hpos Hc).
  cbn [mbind exn_mbind page_of nextCursor items].
  destruct (Nat.ltb_spec (lq_limit q) (length (selected f pos table))) as [Hm|Hm];
    [|by rewrite take_ge by lia].
  destruct (last (take (lq_limit q) (selected f pos table))) as [r|] eqn:Hlast.
  - cbn [fmap option_fmap option_map].
    rewrite (IH (with_cursor (Some (cursor_of r)) q) Hf (Some r)); [| |done|nia|done|].
    + cbn [mbind exn_mbind fst snd]. rewrite (selected_next f pos table _ r Hok Hlast).
      by rewrite <- fmap_app, take_drop.
    + intros ? [= <-]. apply last_Some_elem_of, elem_of_take_inv, elem_of_selected in Hlast.
      destruct Hok as [Hrows _]. rewrite Forall_forall in Hrows. apply Hrows. tauto.
    + rewrite (selected_next f pos table _ r Hok Hlast), length_drop. simpl. lia.
  - apply last_None in Hlast. apply (f_equal length) in Hlast.
    rewrite length_take in Hlast. simpl in Hlast. lia.
Qed.

(** C21. Walking the pages of an unchanged log ends and delivers every matching row,
    each once, newest first, in as many requests as the page size needs. *)
Theorem walk_complete q n table :
  log_ok table → filters_ok q → lq_cursor q = None → logs_limit_valid q = true →
  1 ≤ n → length table ≤ n * lq_limit q →
  ∃ rows, walk q (replicate n table) = inr (item_of <$> rows, true) ∧
    (∀ r, r ∈ rows ↔ r ∈ table ∧ matching q r) ∧
    NoDup (le_id <$> rows) ∧ StronglySorted newest_first rows.
Proof.
  intros Hok Hq Hc Hl Hn Hlen. destruct (filters_test q Hq) as (f & Hf & Hm).
  unfold logs_limit_valid in Hl. apply andb_true_iff in Hl as [Hl%Nat.leb_le _].
  exists (selected f None table). split_and!.
  - apply walk_static; try done. unfold selected. rewrite merge_sort_Permutation.
    etrans; [apply length_filter|done].
  - intros r. rewrite elem_of_selected, Hm. simpl. tauto.
  - apply selected_NoDup, Hok.
  - apply selected_Sorted.
Qed.

Lemma walk_dynamic q pos f tables :
  Forall log_ok tables → where_test (filter_conditions q) = inr f →
  (∀ r, pos = Some r → row_ok r) → lq_cursor q = cursor_of <$> pos → 1 ≤ lq_limit q →
  ∃ rows fin, walk q tables = inr (item_of <$> rows, fin) ∧
    StronglySorted (λ a b, before b (position_of a)) rows ∧
    (∀ r, r ∈ rows → past pos r ∧ f r = true ∧ ∃ t, t ∈ tables ∧ r ∈ t) ∧
    (fin = true → ∀ r, (∀ t, t ∈ tables → r ∈ t) → f r = true → past pos r → r ∈ rows).
Proof.
  intros Hok Hf. revert q Hf pos.
  induction Hok as [|t ts Ht _ IH]; intros q Hf pos Hpos Hc Hl.
  { exists [], false. split_and!; [done|constructor|by intros r ?%not_elem_of_nil|done]. }
  cbn [walk]. rewrite (list_logs_page q pos f t Hf Hpos Hc).
  cbn [mbind exn_mbind page_of nextCursor items].
  pose proof (selected_strict f pos t Ht) as Hs.
  assert (Hpage : ∀ r, r ∈ take (lq_limit q) (selected f pos t) → past pos r ∧ f r = true ∧ r ∈ t)
    by (intros r Hr%elem_of_take_inv%elem_of_selected; tauto).
  destruct (Nat.ltb_spec (lq_limit q) (length (selected f pos t))) as [Hm|Hm].
  - destruct (last (take (lq_limit q) (selected f pos t))) as [p|] eqn:Hlast.
    + cbn [fmap option_fmap option_map].
      assert (Hp : p ∈ take (lq_limit q) (selected f pos t)) by by apply last_Some_elem_of in Hlast.
      destruct (Hpage p Hp) as (Hpp & _ & Hpt).
      destruct (IH (with_cursor (Some (cursor_of p)) q) Hf (Some p))
        as (rows & fin & -> & Hrs & Hin & Hall); [|done|done|].
      { intros ? [= <-]. destruct Ht as [Hrows _]. rewrite Forall_forall in Hrows. auto. }
      exists (take (lq_limit q) (selected f pos t) ++ rows), fin.
      cbn [mbind exn_mbind fst snd]. rewrite fmap_app.
      assert (Hcross : ∀ a b, a ∈ take (lq_limit q) (selected f pos t) →
        before b (position_of p) → before b (position_of a)).
      { intros a b Ha Hb. destruct (decide (a = p)) as [->|Hne]; [done|].
        apply (before_trans a p b); [|done]. by apply (strict_take_last _ _ _ _ Hs Hlast). }
      split_and!; [done| |..].
      * eapply strict_append; [by apply strict_take|done|done|]. intros b Hb. by apply Hin.
      * intros r [Hr|Hr]%elem_of_app.
        -- destruct (Hpage r Hr) as (? & ? & ?). split_and!; [done|done|].
           exists t. split; [by left|done].
        -- destruct (Hin r Hr) as (Hb & Hfr & t' & ? & ?). split_and!; [|done|].
           ++ destruct pos as [p0|]; [|done]. simpl in *. by eapply before_trans.
           ++ exists t'. split; [by right|done].
      * intros Hfin r Hr Hfr Hpr. apply elem_of_app.
        assert (Hsel : r ∈ selected f pos t)
          by (apply elem_of_selected; split_and!; [apply Hr; by left|done|done]).
        rewrite <- (take_drop (lq_limit q) (selected f pos t)), elem_of_app in Hsel.
        destruct Hsel as [Hsel|Hsel]; [by left|right].
        apply Hall; [done|intros t' Ht'; apply Hr; by right|done|].
        apply (strict_split _ _ p r Hs Hlast); [|done]. by apply elem_of_drop_inv in Hsel.
    + apply last_None in Hlast. apply (f_equal length) in Hlast.
      rewrite length_take in Hlast. simpl in Hlast. lia.
  - rewrite take_ge in * by lia. exists (selected f pos t), true. split_and!; [done|done|..].
    + intros r Hr. destruct (Hpage r Hr) as (? & ? & ?). split_and!; [done|done|].
      exists t. split; [by left|done].
    + intros _ r Hr Hfr Hpr. apply elem_of_selected. split_and!; [apply Hr; by left|done|done].
Qed.

(** C20. A walk is stable while the log changes under it: whatever rows appear or vanish
    between its requests, no row is delivered twice, every delivered row is a matching
    row of some request's log and later ones are strictly older, and when the last page
    is reached every matching row that was there throughout has been delivered. *)
Theorem walk_stable q tables :
  Forall log_ok tables → filters_ok q → lq_cursor q = None → logs_limit_valid q = true →
  ∃ rows fin, walk q tables = inr (item_of <$> rows, fin) ∧
    NoDup rows ∧ StronglySorted (λ a b, before b (position_of a)) rows ∧
    (∀ r, r ∈ rows → matching q r ∧ ∃ t, t ∈ tables ∧ r ∈ t) ∧
    (fin = true → ∀ r, (∀ t, t ∈ tables → r ∈ t) → matching q r → r ∈ rows).
Proof.
  intros Hok Hq Hc Hl. destruct (filters_test q Hq) as (f & Hf & Hm).
  unfold logs_limit_valid in Hl. apply andb_true_iff in Hl as [Hl%Nat.leb_le _].
  destruct (walk_dynamic q None f tables Hok Hf) as (rows & fin & Hw & Hs & Hin & Hall);
    [done|done|done|].
  exists rows, fin. split_and!; [done|by apply strict_NoDup|done|..].
  - intros r (_ & Hfr & ?)%Hin. by rewrite <- Hm.
  - intros Hfin r Hr Hmr. apply Hall; [done|done|by apply Hm|done].
Qed.

(** ** Hand-crafted cursors *)

(** A cursor of the right shape is not refused with 400 for what it says: when its
    text is no instant for PostgreSQL, the client gets the 500 of an internal error. *)
Theorem crafted_cursor_is_internal q c describe timestamp request message :
  lq_cursor q = Some (encodeLogsCursor c) →
  re_test PG_TIMESTAMPTZ_TEXT (cur_recordedAt c) = true → re_test UUID (cur_id c) = true →
  pg_timestamptz (cur_recordedAt c) = inl (QueryFailedError "22008" None message) →
  str_includes PG_POOL_ACQUIRE_TIMEOUT_MESSAGE message = false →
  filters_ok q →
  ∀ table, ∃ e, list_logs q table = inl e ∧
    rs_status (filter_catch describe timestamp e request).1 = num_of_Z 500.
Proof.
  intros Hc Ht Hu Hpg Hmsg Hq table. exists (QueryFailedError "22008" None message). split.
  - unfold list_logs, conditions, select_logs. rewrite Hc, (decode_encode c Ht Hu).
    cbn [mbind exn_mbind].
    destruct (filters_test q Hq) as (f & Hf & _).
    assert (Hw : where_test (filter_conditions q ++
        [PositionBefore (cur_recordedAt c) (cur_id c)]) =
      inl (QueryFailedError "22008" None message)).
    { revert f Hf. induction (filter_conditions q) as [|x l IH]; intros f; simpl.
      - by rewrite Hpg.
      - destruct (condition_test x); [done|]. simpl.
        destruct (where_test l) as [|g]; [done|]. intros _. by rewrite (IH g eq_refl). }
    by rewrite Hw.
  - simpl. unfold isTransientTimeout. simpl. by rewrite Hmsg.
Qed.
End logs.

(** ** Witnesses *)

(** A server whose instants are the sixty microseconds from 17:50:52.845100 of
    2026-08-07 on. *)
Definition fx_instant_text (t : Z) : string :=
  "2026-08-07 17:50:52.8451" +:+ digits 2 (t mod 100) +:+ "+00".

Definition fx_instants : list Z := Z.of_nat <$> seq 0 60.

Definition fx_out_of_range : exn :=
  QueryFailedError "22008" None "date/time field value out of range".

Definition fx_text : PgText := {|
  pg_timestamptz s :=
    match list_find (λ t, fx_instant_text t = s) fx_instants with
    | Some (_, t) => inr t
    | None => inl fx_out_of_range
    end;
  pg_timestamptz_text := fx_instant_text;
  pg_uuid s := inr s;
  pg_instant_ok t := t ∈ fx_instants;
  pg_uuid_ok u := re_test UUID u = true;
|}.

Lemma fx_instants_all (P : Z → bool) :
  forallb P fx_instants = true → ∀ t, t ∈ fx_instants → P t = true.
Proof. intros H t Ht%list_elem_of_In. rewrite forallb_forall in H. by apply H. Qed.

Lemma fx_text_laws : @PgTextLaws fx_text.
Proof.
  split; cbn [pg_timestamptz pg_timestamptz_text pg_uuid pg_instant_ok pg_uuid_ok fx_text].
  - intros t Ht. pose proof (fx_instants_all (λ t,
      match list_find (λ t', fx_instant_text t' = fx_instant_text t) fx_instants with
      | Some (_, t') => (t' =? t)%Z | None => false end)) as Hall.
    specialize (Hall ltac:(vm_compute; reflexivity) t Ht). cbv beta in Hall.
    destruct (list_find _ _) as [[_ t']|]; [|done]. by apply Z.eqb_eq in Hall as ->.
  - apply fx_instants_all. vm_compute. reflexivity.
  - reflexivity.
  - intros u Hu. exact Hu.
Qed.

Definition fx_entity (n : Ascii.ascii) (user : string) (t : Z) : LogEntity :=
  {| le_id := "6f1a2b3c-0000-4000-8000-00000000000" +:+ String n ""; le_userId := user;
     le_areaId := "area"; le_recordedAt := t; le_capturedAt := None |}.

Definition fx_log : list LogEntity :=
  [fx_entity "1"%char "u" 10; fx_entity "2"%char "u" 20; fx_entity "3"%char "v" 20; fx_entity "4"%char "u" 20;
   fx_entity "5"%char "u" 30]%Z.

(** The same log after two insertions: one ahead of every row, one far behind. *)
Definition fx_log_later : list LogEntity :=
  fx_log ++ [fx_entity "6"%char "u" 40; fx_entity "7"%char "u" 5]%Z.

Definition fx_log_query : ListLogsQueryDto :=
  {| lq_userId := Some "u"; lq_areaId := None; lq_from := Some (fx_instant_text 10);
     lq_to := None; lq_cursor := None; lq_limit := 2 |}.

Lemma fx_query_ok : @filters_ok fx_text fx_log_query.
Proof.
  split_and!; simpl; [done| |done]. intros s [= <-]. exists 10%Z. by vm_compute.
Qed.

Lemma fx_log_ok (table : list LogEntity) :
  forallb (λ r, bool_decide (le_recordedAt r ∈ fx_instants) && re_test UUID (le_id r)) table =
    true → NoDup (le_id <$> table) → @log_ok fx_text table.
Proof.
  intros H Hnd. split; [|done]. rewrite forallb_forall in H. apply Forall_forall.
  intros r Hr%list_elem_of_In%H. apply andb_true_iff in Hr as [?%bool_decide_eq_true ?].
  done.
Qed.

Lemma fx_log_is_ok : @log_ok fx_text fx_log.
Proof. apply fx_log_ok; [by vm_compute|by apply (bool_decide_unpack _); vm_compute]. Qed.

Lemma fx_log_later_ok : @log_ok fx_text fx_log_later.
Proof. apply fx_log_ok; [by vm_compute|by apply (bool_decide_unpack _); vm_compute]. Qed.

Lemma walk_complete_witness :
  ∃ rows, @walk fx_text fx_log_query (replicate 3 fx_log) = inr (item_of <$> rows, true) ∧
    (∀ r, r ∈ rows ↔ r ∈ fx_log ∧ @matching fx_text fx_log_query r) ∧
    NoDup (le_id <$> rows) ∧ StronglySorted newest_first rows.
Proof.
  apply (@walk_complete fx_text fx_text_laws fx_log_query 3 fx_log).
  - apply fx_log_is_ok.
  - apply fx_query_ok.
  - reflexivity.
  - reflexivity.
  - lia.
  - vm_compute. lia.
Defined.

(** The first page is read from the log, the next two from the later one. *)
Lemma walk_stable_witness :
  ∃ rows fin, @walk fx_text fx_log_query [fx_log; fx_log_later; fx_log_later] =
      inr (item_of <$> rows, fin) ∧
    NoDup rows ∧ StronglySorted (λ a b, before b (position_of a)) rows ∧
    (∀ r, r ∈ rows → @matching fx_text fx_log_query r ∧
       ∃ t, t ∈ [fx_log; fx_log_later; fx_log_later] ∧ r ∈ t) ∧
    (fin = true → ∀ r, (∀ t, t ∈ [fx_log; fx_log_later; fx_log_later] → r ∈ t) →
       @matching fx_text fx_log_query r → r ∈ rows).
Proof.
  apply (@walk_stable fx_text fx_text_laws fx_log_query).
  - pose proof fx_log_later_ok as Hlater. apply Forall_cons_2; [apply fx_log_is_ok|].
    apply Forall_cons_2; [done|]. by apply Forall_cons_2.
  - apply fx_query_ok.
  - reflexivity.
  - reflexivity.
Defined.

(** The four rows of user "u" arrive on two pages, newest first. *)
Example walk_example :
  (λ r : list LogItemDto * bool, (li_id <$> r.1, r.2)) <$>
    (match @walk fx_text fx_log_query [fx_log; fx_log_later; fx_log_later] with
     | inr r => Some r | inl _ => None end) =
  Some (le_id <$> [fx_entity "5"%char "u" 30; fx_entity "4"%char "u" 20; fx_entity "2"%char "u" 20;
                   fx_entity "1"%char "u" 10]%Z, true).
Proof. vm_compute. reflexivity. Qed.

Definition fx_crafted : LogsCursor :=
  {| cur_recordedAt := "2026-99-99 00:00:00";
     cur_id := "6f1a2b3c-0000-4000-8000-000000000001" |}.

Lemma crafted_cursor_is_internal_witness :
  ∃ e,
    @list_logs fx_text (with_cursor (Some (encodeLogsCursor fx_crafted)) fx_log_query) fx_log =
      inl e ∧
    rs_status (filter_catch (λ _, "") "now" e {| rq_method := "GET"; rq_url := "/logs" |}).1 =
      num_of_Z 500.
Proof.
  apply (@crafted_cursor_is_internal fx_text _ fx_crafted (λ _, "") "now" _
    "date/time field value out of range"); [reflexivity|by vm_compute|by vm_compute|
    by vm_compute|reflexivity|apply fx_query_ok].
Defined.
