(* ===== verification/AreasCorrect.v ===== *)
(** The guarantees of the areas side: the index is exact, the snapshot never claims a
    version it does not have, catches up, survives failures; creation is atomic and
    takes effect at once on the instance that created; listing covers every area. *)

From S2P Require Import Prelude Num Js Prog Spatial Db World Snapshot Areas Fixtures.

Section areas.
Context {gis : PostGIS} {rtree : RBush} {pip : PointInPolygon}.

(** ** Lemmas *)

Lemma exec_area_transaction X f (body : prog sql X) s :
  exec_area X f (AreaTransaction body) s =
    ((exec_transaction f body (sv_db s)).1, commit (exec_transaction f body (sv_db s)).2 s).
Proof. simpl. by destruct (exec_transaction f body (sv_db s)). Qed.

(** A refresh without faults ends with an up-to-date label. *)
Lemma refreshNow_ok s r s' :
  service_inv s → refreshNow FOk s = (r, s') →
  r = inr tt ∧ label_current s' ∧ sv_db s' = sv_db s ∧ sv_chain s' = [] ∧ service_inv s'.
Proof.
  intros Hinv. unfold refreshNow.
  set (d := Nat.iter (4 * length (sv_chain s)) (advance FOk) s).
  destruct (drain (4 * length (sv_chain s)) s Hinv (le_n _)) as (Hch & Hdb & _).
  fold d in Hch, Hdb. assert (Hd : service_inv d) by (by apply iter_inv).
  pose proof (enqueue_inv d Hd) as He.
  destruct (new_index_total _ (si_rows_wf _ Hd)) as [index Hindex].
  assert (Hrows : ∀ v, rebuild_with_rows v (area_geometry_rows (areas (sv_db d))) =
    await (Publish {| sn_version := v; sn_index := index |})).
  { intros v. unfold rebuild_with_rows. by rewrite Hindex. }
  assert (Hfin : finish_rebuild 3 (advance FOk (enqueueRebuild d)) =
    (inr tt, Nat.iter 4 (advance FOk) (enqueueRebuild d))).
  { clear - Hch Hrows. destruct d as [db sn rows chain]. simpl in Hch, Hrows. subst chain.
    cbn -[rebuild_with_rows area_geometry_rows]. by rewrite Hrows. }
  rewrite Hfin. intros [<- <-]%pair_equal_spec.
  destruct (drain 4 (enqueueRebuild d) He) as (Hch' & Hdb' & Hlab).
  { simpl. rewrite Hch. simpl. lia. }
  split_and!; [done| |by etransitivity; [apply Hdb'|]|done|by apply iter_inv].
  apply Hlab. right. apply ends_fresh_enqueue.
Qed.

Lemma refreshNow_db f s : service_inv s → sv_db (refreshNow f s).2 = sv_db s.
Proof.
  assert (Hadv : ∀ g s0, service_inv s0 → sv_db (advance g s0) = sv_db s0).
  { intros g s0 Hinv. unfold advance. destruct (sv_chain s0) as [|rb rest] eqn:Hch; [done|].
    destruct (si_head _ Hinv rb rest Hch) as [Hl _|v Hl _ _|v m i Hl _ _ _ _|e Hl|Hl];
      rewrite Hl; [..|done|done|done].
    - unfold rebuild. cbn [mbind prog_mbind prog_bind await].
      destruct (exec_snap _ g (SnapQuery SelectAreaVersion) s0) as [r s'] eqn:E.
      apply exec_snap_select in E as [-> _]; [done|by eexists].
    - unfold rebuild_after_version. cbn [mbind prog_mbind prog_bind await].
      destruct (exec_snap _ g (SnapQuery SelectAreas) s0) as [r s'] eqn:E.
      apply exec_snap_select in E as [-> _]; [done|by eexists]. }
  assert (Hiter : ∀ n s0, service_inv s0 → sv_db (Nat.iter n (advance FOk) s0) = sv_db s0).
  { induction n as [|n IH]; intros s0 Hinv; simpl; [done|]. rewrite Hadv; auto using iter_inv. }
  assert (Hfin : ∀ n s0, service_inv s0 → sv_db (finish_rebuild n s0).2 = sv_db s0).
  { induction n as [|n IH]; intros s0 Hinv; simpl; destruct (sv_chain s0) as [|rb rest]; try done;
      destruct (rb_left rb); simpl; auto.
    rewrite IH; auto using advance_inv. }
  intros Hinv. unfold refreshNow.
  rewrite Hfin, Hadv; auto using enqueue_inv, iter_inv, advance_inv. simpl. auto.
Qed.

(** ** The index *)

(** C22. The two-stage index answers exactly as testing every polygon: the bounding-box
    stage never loses an area, and the index is built for all rows whose rings are
    made of comparable numbers. *)
Theorem index_is_exact `{!RBushLaws, !PointInPolygonLaws} rows :
  rows_wf rows →
  ∃ idx, new_AreaSpatialIndex rows = inr idx ∧ areaCount idx = length rows ∧
    ∀ lng lat, findCoveringAreaIds idx lng lat ≡ₚ coveringAreaIds_reference rows lng lat.
Proof.
  intros Hwf. destruct (new_index_total rows Hwf) as [idx Hidx]. exists idx.
  split_and!; [done| |intros; by apply findCoveringAreaIds_spec].
  unfold new_AreaSpatialIndex in Hidx. destruct (map_throwing toIndexedArea rows); [done|].
  by injection Hidx as <-.
Qed.

(** ** The snapshot *)

(** The label never runs ahead of the data: in every reachable state of the
    service, whatever commits and failures were interleaved with its queries, a
    snapshot that carries the table's version answers exactly as the table would. *)
Theorem label_never_ahead `{!RBushLaws, !PointInPolygonLaws} s lng lat :
  reachable_service s → label_current s →
  ∃ ids, lookup_areas (sv_snapshot s) lng lat = inr ids ∧
    ids ≡ₚ coveringAreaIds_reference (area_geometry_rows (areas (sv_db s))) lng lat.
Proof. intros Hr. by apply snapshot_exact, reachable_service_inv. Qed.

(** The hot path answers as the PostGIS query it replaced, when the label is current and
    the boundaries are written to the snapshot as they are stored (they have no more
    decimals than [ST_AsGeoJSON] writes). *)
Theorem postgis_equivalent `{!RBushLaws, !PointInPolygonLaws} `{!StCovers, !StCoversLaws}
    s lng lat :
  reachable_service s → label_current s →
  (∀ id row, areas (sv_db s) !! id = Some row →
     st_as_geojson (area_boundary row) = area_boundary row) →
  ∃ ids, AreasService_findCoveringAreaIds s lng lat = inr ids ∧
    ids ≡ₚ findCoveringAreaIdsViaPostgis lng lat (sv_db s).
Proof.
  intros Hr Hl Hexact. destruct (snapshot_exact s lng lat) as (ids & Hids & Hperm);
    [by apply reachable_service_inv|done|].
  exists ids. split; [done|]. rewrite Hperm. unfold coveringAreaIds_reference,
    findCoveringAreaIdsViaPostgis, area_geometry_rows.
  assert (Hall : Forall (λ kv, st_as_geojson (area_boundary kv.2) = area_boundary kv.2)
    (map_to_list (areas (sv_db s)))).
  { apply Forall_forall. intros [id row] Hin%elem_of_map_to_list. by eapply Hexact. }
  induction Hall as [|[id row] l Hrow Hall IH]; [done|].
  rewrite fmap_cons, !filter_cons. cbn [fst snd row_boundary] in *.
  rewrite Hrow, st_covers_turf. case_decide; [|done]. rewrite !fmap_cons. by rewrite IH.
Qed.

(** Once built, the snapshot is never lost and never goes back: no step, a failing
    query included, removes it or replaces it by one with an older label. *)
Theorem snapshot_monotone s s' sn :
  reachable_service s → step s s' → sv_snapshot s = Some sn →
  ∃ sn', sv_snapshot s' = Some sn' ∧ (sn_version sn ≤ sn_version sn')%Z.
Proof.
  intros Hr Hstep Hs. pose proof (reachable_service_inv s Hr) as Hinv.
  destruct Hstep as [s|f s|f s|db s Hc]; [eauto with lia..| |eauto with lia].
  - exists sn. split; [|lia]. unfold poll.
    destruct (exec_query f SelectAreaVersion (sv_db s)) as [[e|v] db]; [done|].
    rewrite Hs. by destruct (v =? sn_version sn)%Z.
  - unfold advance. destruct (sv_chain s) as [|rb rest] eqn:Hch; [by eauto with lia|].
    destruct (si_head _ Hinv rb rest Hch) as [Hl _|v Hl _ _|v m i Hl _ _ _ Hn|e Hl|Hl];
      rewrite Hl; [..|by eauto with lia|by eauto with lia].
    + exists sn. split; [|lia]. unfold rebuild. cbn [mbind prog_mbind prog_bind await].
      destruct (exec_snap _ f (SnapQuery SelectAreaVersion) s) as [r s'] eqn:E.
      apply exec_snap_select in E as [-> _]; [done|by eexists].
    + exists sn. split; [|lia]. unfold rebuild_after_version.
      cbn [mbind prog_mbind prog_bind await].
      destruct (exec_snap _ f (SnapQuery SelectAreas) s) as [r s'] eqn:E.
      apply exec_snap_select in E as [-> _]; [done|by eexists].
    + eexists. split; [done|]. simpl. by apply Hn.
Qed.

(** A rebuild publishes what was committed before it was requested: its label is
    at least the version the table had when [refreshNow()] was called. *)
Theorem refresh_sees_commits s rb rest sn :
  reachable_service s → sv_chain s = rb :: rest → rb_left rb = await (Publish sn) →
  (rb_since rb ≤ sn_version sn ≤ area_version (sv_db s))%Z ∧
  ∀ f, sv_snapshot (advance f s) = Some sn.
Proof.
  intros Hr Hch Hl. pose proof (reachable_service_inv s Hr) as Hinv.
  destruct (si_head _ Hinv rb rest Hch) as [Hl'|v Hl'|v m i Hl' Hv (Hle & _) _ _|e Hl'|Hl'];
    rewrite Hl in Hl'; try done.
  injection Hl' as ->. split; [simpl; lia|]. intros f. unfold advance. by rewrite Hch, Hl.
Qed.

(** The poll catches up: from any reachable state, one poll and the rebuilds in
    the chain, when no query fails, leave a snapshot whose label is the table's
    version, whatever was missed before; four steps per rebuild are enough. *)
Theorem poll_catches_up s :
  reachable_service s →
  let polled := poll FOk s in
  let s' := Nat.iter (4 * length (sv_chain polled)) (advance FOk) polled in
  label_current s' ∧ sv_chain s' = [] ∧ sv_db s' = sv_db s.
Proof.
  intros Hr. pose proof (reachable_service_inv s Hr) as Hinv. cbv zeta.
  pose proof (poll_inv FOk s Hinv) as Hp.
  destruct (drain _ (poll FOk s) Hp (le_n _)) as (Hch & Hdb & Hlab).
  assert (Hpoll : sv_db (poll FOk s) = sv_db s ∧
    (label_current (poll FOk s) ∨ ends_fresh (sv_chain (poll FOk s)))).
  { unfold poll. simpl. destruct (sv_snapshot s) as [sn|] eqn:Hs.
    - destruct (Z.eqb_spec (area_version (sv_db s)) (sn_version sn)) as [He|_].
      + split; [done|left]. by exists sn.
      + split; [done|right; apply ends_fresh_enqueue].
    - split; [done|right; apply ends_fresh_enqueue]. }
  destruct Hpoll as [Hdb' Hor]. split_and!; [by apply Hlab|done|congruence].
Qed.

(** ** Creation *)

Lemma refreshNow_inv f s : service_inv s → service_inv (refreshNow f s).2.
Proof.
  intros Hinv. unfold refreshNow. assert (Hfin : ∀ n s0, service_inv s0 → service_inv (finish_rebuild n s0).2).
  { induction n as [|n IH]; intros s0 H0; simpl; destruct (sv_chain s0) as [|rb rest]; try done;
      destruct (rb_left rb); simpl; auto using advance_inv. }
  apply Hfin, advance_inv, enqueue_inv, iter_inv, Hinv.
Qed.

(** What a creation can do under any faults. *)
Lemma create_run dto s fs r s' fs' :
  service_inv s → rows_wf (area_geometry_rows (areas (created dto (sv_db s)))) →
  run exec_area (create dto) fs s = (r, s', fs') →
  service_inv s' ∧ (sv_db s' = sv_db s ∨ sv_db s' = created dto (sv_db s)) ∧
  (∀ area, r = inr area → sv_db s' = created dto (sv_db s)) ∧
  (st_is_valid (ca_boundary dto) = false →
     sv_db s' = sv_db s ∧
     (fs = [] → r = inl (BadRequestException ("invalid polygon: " +:+
        default "unknown reason" (st_is_valid_reason (ca_boundary dto)))))).
Proof.
  intros Hinv Hwf. unfold create. rewrite run_bind, run_await. cbn [exec_area].
  assert (Hcommit : commit (sv_db s) s = s) by (by destruct s).
  destruct (default FOk (head fs)) as [|e|e|n e] eqn:Hf; cbn [exec_query exec_sql];
    rewrite ?Hcommit;
    try (intros [= <- <- <-]; split_and!; [done|by left|done|]; intros _; split; [done|];
         by intros ->).
  cbn [fst snd]. destruct (st_is_valid (ca_boundary dto)) eqn:Hv; cbn [negb];
    [|intros [= <- <- <-]; split_and!; [done|by left|done|done]].
  intros Hrun.
  assert (H : service_inv s' ∧ (sv_db s' = sv_db s ∧ (∃ e, r = inl e) ∨
    sv_db s' = created dto (sv_db s))).
  { revert Hrun. rewrite run_bind, run_await, exec_area_transaction.
    destruct (exec_transaction (default FOk (head (tail fs))) (insert_area dto) (sv_db s))
      as [r1 db1] eqn:E. apply insert_area_atomic in E. cbn [fst snd].
    assert (Hs1 : service_inv (commit db1 s)).
    { destruct E as [[-> _]| ->]; [by rewrite Hcommit|].
      apply commit_inv; [by apply created_lawful|done]. }
    destruct r1 as [e|area]; [intros [= <- <- <-]; split; [done|]; simpl; naive_solver|].
    rewrite run_bind, run_await. cbn [exec_area].
    pose proof (refreshNow_db (default FOk (head (tail (tail fs)))) (commit db1 s) Hs1) as Hdb.
    pose proof (refreshNow_inv (default FOk (head (tail (tail fs)))) (commit db1 s) Hs1) as Hi.
    destruct (refreshNow _ (commit db1 s)) as [[e|[]] s2]; cbn [fst snd] in *;
      intros [= <- <- <-]; rewrite Hdb; naive_solver. }
  destruct H as [Hi Hdb]. split_and!; [done|naive_solver|naive_solver|done].
Qed.

Lemma create_undisturbed dto s r s' fs' :
  service_inv s → st_is_valid (ca_boundary dto) = true → name_stored dto →
  rows_wf (area_geometry_rows (areas (created dto (sv_db s)))) →
  run exec_area (create dto) [] s = (r, s', fs') →
  r = inr (uuids (sv_db s) (uuid_next (sv_db s)),
           {| area_name := ca_name dto; area_created_at := now (sv_db s);
              area_boundary := ca_boundary dto |}) ∧
  sv_db s' = created dto (sv_db s) ∧ label_current s' ∧ service_inv s'.
Proof.
  intros Hinv Hv Hn Hwf. unfold create. rewrite run_bind, run_await.
  cbn [exec_area default head tail from_option id exec_query exec_sql]. rewrite Hv. cbn [negb fst].
  rewrite run_bind, run_await, exec_area_transaction.
  cbn [default head tail from_option id]. rewrite insert_area_run by done. cbn [fst snd].
  rewrite run_bind, run_await. cbn [exec_area default head tail from_option id].
  assert (Hs1 : service_inv (commit (created dto (sv_db s)) s))
    by (apply commit_inv; [by apply created_lawful|done]).
  assert (Hcommit : commit (sv_db s) s = s) by (by destruct s). rewrite Hcommit.
  destruct (refreshNow FOk (commit (created dto (sv_db s)) s)) as [r2 s2] eqn:Er.
  apply refreshNow_ok in Er as (-> & Hlab & Hdb & _ & Hinv2); [|done].
  intros [= <- <- _]. by split_and!.
Qed.

(** A name that its column does not take ends the creation, and nothing is written. *)
Lemma create_name_refused dto e s r s' fs' :
  st_is_valid (ca_boundary dto) = true →
  varchar_refused AREA_NAME_COLUMN (ca_name dto) = Some e →
  run exec_area (create dto) [] s = (r, s', fs') → r = inl e ∧ sv_db s' = sv_db s.
Proof.
  intros Hv Hn. unfold create. rewrite run_bind, run_await.
  cbn [exec_area default head tail from_option id exec_query exec_sql]. rewrite Hv. cbn [negb fst].
  rewrite run_bind, run_await, exec_area_transaction.
  cbn [default head tail from_option id]. erewrite insert_area_refused by done. cbn [fst snd].
  by intros [= <- <- _].
Qed.

(** A valid area, whose name its column takes, is created with its version bump, and the creating instance sees
    it at once: without failures [create] returns the new row, and from then on the
    lookups of this instance are those of the table with the new area in it. *)
Theorem create_takes_effect `{!RBushLaws, !PointInPolygonLaws} dto s r s' fs' :
  service_inv s → st_is_valid (ca_boundary dto) = true → name_stored dto →
  rows_wf (area_geometry_rows (areas (created dto (sv_db s)))) →
  run exec_area (create dto) [] s = (r, s', fs') →
  r = inr (uuids (sv_db s) (uuid_next (sv_db s)),
           {| area_name := ca_name dto; area_created_at := now (sv_db s);
              area_boundary := ca_boundary dto |}) ∧
  sv_db s' = created dto (sv_db s) ∧ label_current s' ∧
  ∀ lng lat, ∃ ids, lookup_areas (sv_snapshot s') lng lat = inr ids ∧
    ids ≡ₚ coveringAreaIds_reference
             (area_geometry_rows (areas (created dto (sv_db s)))) lng lat.
Proof.
  intros Hinv Hv Hn Hwf Hrun.
  apply create_undisturbed in Hrun as (Hr & Hdb & Hlab & Hinv'); [|done..].
  split_and!; [done..|]. intros lng lat. rewrite <- Hdb. by apply snapshot_exact.
Qed.

(** C23. Creation is atomic: whatever fails, the tables have gained the area together
    with its version bump, or nothing; and an invalid polygon is refused with the
    reason PostGIS gives, before anything is written. *)
Theorem create_atomic dto s fs r s' fs' :
  service_inv s → rows_wf (area_geometry_rows (areas (created dto (sv_db s)))) →
  run exec_area (create dto) fs s = (r, s', fs') →
  (sv_db s' = sv_db s ∨ sv_db s' = created dto (sv_db s)) ∧
  (st_is_valid (ca_boundary dto) = false →
     sv_db s' = sv_db s ∧
     (fs = [] → r = inl (BadRequestException ("invalid polygon: " +:+
        default "unknown reason" (st_is_valid_reason (ca_boundary dto)))))).
Proof. intros Hinv Hwf Hrun. by apply create_run in Hrun as (_ & Hdb & _ & Hbad). Qed.

(** ** Listing *)

Lemma sorted_areas_order db :
  sorted_areas db ≡ₚ map_to_list (areas db) ∧ StronglySorted area_order (sorted_areas db).
Proof. split; [apply merge_sort_Permutation|apply (StronglySorted_merge_sort _)]. Qed.

Lemma findAll_page db limit i :
  (Z.of_nat i < 2 ^ 63)%Z →
  findAll {| la_limit := limit; la_offset := Z.of_nat i |} db =
    inr (take limit (drop i (sorted_areas db))).
Proof.
  intros Hi. unfold findAll, fits_bigint. cbn [la_limit la_offset]. rewrite Nat2Z.id.
  rewrite (proj2 (Z.leb_le _ _)) by lia. by rewrite (proj2 (Z.ltb_lt _ _)).
Qed.

(** Pages of the list put together are the whole list, each area once, ordered by
    creation time and id: consecutive pages of any size leave nothing out. *)
Lemma pages_cover_list db limit k :
  (Z.of_nat (k * limit) < 2 ^ 63)%Z →
  mapM (λ i, findAll {| la_limit := limit; la_offset := Z.of_nat (i * limit) |} db) (seq 0 k) =
    inr ((λ i, take limit (drop (i * limit) (sorted_areas db))) <$> seq 0 k) ∧
  mjoin ((λ i, take limit (drop (i * limit) (sorted_areas db))) <$> seq 0 k) =
    take (k * limit) (sorted_areas db).
Proof.
  intros Hk. split.
  - assert (Hall : ∀ i, i ∈ seq 0 k → (Z.of_nat (i * limit) < 2 ^ 63)%Z).
    { intros i Hi%elem_of_seq. nia. }
    clear Hk. induction (seq 0 k) as [|i l IH]; [done|]. cbn [mapM].
    rewrite findAll_page by (apply Hall; by left). cbn [mbind exn_mbind].
    rewrite IH by (intros j Hj; apply Hall; by right). done.
  - induction k as [|k IH]; [done|]. rewrite seq_S, fmap_app, join_app, IH by lia.
    cbn [fmap list_fmap mjoin list_join]. rewrite app_nil_r, take_take_drop. f_equal. lia.
Qed.
End areas.

(** ** Witnesses *)

#[local] Existing Instances fx_postgis fx_rbush fx_pip fx_rbush_laws fx_pip_laws.

Lemma index_is_exact_witness :
  ∃ idx, new_AreaSpatialIndex (area_geometry_rows (areas fx_db)) = inr idx ∧ areaCount idx = 2 ∧
    ∀ lng lat, findCoveringAreaIds idx lng lat ≡ₚ
      coveringAreaIds_reference (area_geometry_rows (areas fx_db)) lng lat.
Proof.
  apply (index_is_exact (area_geometry_rows (areas fx_db))).
  apply rows_wfb_true. vm_compute. reflexivity.
Defined.

(** A service that booted, and one whose table moved on while a rebuild was running. *)
Definition fx_new_area : CreateAreaDto :=
  {| ca_name := "yard"; ca_boundary := [zring 20 20 30 30] |}.

Definition fx_booted : Service := Nat.iter 4 (advance FOk) (enqueueRebuild (boot fx_db)).

Definition fx_raced : Service :=
  commit (created fx_new_area fx_db) (advance FOk (enqueueRebuild fx_booted)).

(** The rebuild that read the old version and the new rows is about to publish. *)
Definition fx_publishing : Service := advance FOk fx_raced.

Lemma fx_rows_wf : rows_wf (area_geometry_rows (areas fx_db)).
Proof. apply rows_wfb_true. vm_compute. reflexivity. Qed.

Lemma fx_created_wf : rows_wf (area_geometry_rows (areas (created fx_new_area fx_db))).
Proof. apply rows_wfb_true. vm_compute. reflexivity. Qed.

Lemma fx_booted_reachable : reachable_service fx_booted.
Proof.
  exists fx_db. split; [apply fx_rows_wf|]. unfold fx_booted. simpl.
  eapply rtc_l; [apply step_refresh|]. do 4 (eapply rtc_l; [apply (step_advance FOk)|]).
  apply rtc_refl.
Qed.

Lemma fx_raced_reachable : reachable_service fx_raced.
Proof.
  destruct fx_booted_reachable as (db & Hwf & Hrtc). exists db. split; [done|].
  etrans; [exact Hrtc|]. unfold fx_raced.
  eapply rtc_l; [apply step_refresh|]. eapply rtc_l; [apply (step_advance FOk)|].
  eapply rtc_l; [|apply rtc_refl]. apply step_commit.
  replace (sv_db (advance FOk (enqueueRebuild fx_booted))) with fx_db by (by vm_compute).
  apply created_lawful, fx_created_wf.
Qed.

Lemma fx_publishing_reachable : reachable_service fx_publishing.
Proof.
  destruct fx_raced_reachable as (db & Hwf & Hrtc). exists db. split; [done|].
  eapply rtc_r; [exact Hrtc|]. apply step_advance.
Qed.

Lemma label_never_ahead_witness :
  ∃ ids, lookup_areas (sv_snapshot fx_booted) (num_of_Z 7) (num_of_Z 5) = inr ids ∧
    ids ≡ₚ coveringAreaIds_reference (area_geometry_rows (areas (sv_db fx_booted)))
      (num_of_Z 7) (num_of_Z 5).
Proof.
  apply (label_never_ahead fx_booted); [apply fx_booted_reachable|].
  eexists. split; vm_compute; reflexivity.
Defined.

Lemma snapshot_monotone_witness :
  ∃ sn sn', sv_snapshot fx_publishing = Some sn ∧
    sv_snapshot (advance FOk fx_publishing) = Some sn' ∧ (sn_version sn ≤ sn_version sn')%Z.
Proof.
  eexists. destruct (snapshot_monotone fx_publishing (advance FOk fx_publishing)
    {| sn_version := 3; sn_index := match sv_snapshot fx_publishing with
       | Some sn => sn_index sn
       | None => {| index_tree := rb_load []; areaCount := 0 |} end |}) as (sn' & Hsn' & Hle);
    [apply fx_publishing_reachable|apply step_advance|vm_compute; reflexivity|].
  exists sn'. split; [|split; [exact Hsn'|exact Hle]]. vm_compute. reflexivity.
Defined.

(** It publishes the rows of version 4 under the label 3; the next poll repairs that. *)
Lemma refresh_sees_commits_witness :
  ∃ rb sn, sv_chain fx_publishing = [rb] ∧ rb_left rb = await (Publish sn) ∧
    sn_version sn = 3%Z ∧ areaCount (sn_index sn) = 3 ∧
    ((rb_since rb ≤ sn_version sn ≤ area_version (sv_db fx_publishing))%Z ∧
     ∀ f, sv_snapshot (advance f fx_publishing) = Some sn).
Proof.
  eexists _, _. split; [vm_compute; reflexivity|]. split; [vm_compute; reflexivity|].
  split; [vm_compute; reflexivity|]. split; [vm_compute; reflexivity|].
  eapply (refresh_sees_commits fx_publishing);
    [apply fx_publishing_reachable|vm_compute; reflexivity|vm_compute; reflexivity].
Defined.

Lemma poll_catches_up_witness :
  let polled := poll FOk fx_publishing in
  let s' := Nat.iter (4 * length (sv_chain polled)) (advance FOk) polled in
  (label_current s' ∧ sv_chain s' = [] ∧ sv_db s' = sv_db fx_publishing) ∧
  sn_version <$> sv_snapshot s' = Some 4%Z.
Proof.
  cbv zeta. split.
  - apply (poll_catches_up fx_publishing), fx_publishing_reachable.
  - vm_compute. reflexivity.
Defined.

Lemma create_takes_effect_witness :
  let s' := (run exec_area (create fx_new_area) [] fx_booted).1.2 in
  ∃ ids, lookup_areas (sv_snapshot s') (num_of_Z 25) (num_of_Z 25) = inr ids ∧
    ids ≡ₚ coveringAreaIds_reference
      (area_geometry_rows (areas (created fx_new_area (sv_db fx_booted))))
      (num_of_Z 25) (num_of_Z 25).
Proof.
  cbv zeta.
  apply (create_takes_effect fx_new_area fx_booted
    (run exec_area (create fx_new_area) [] fx_booted).1.1 _
    (run exec_area (create fx_new_area) [] fx_booted).2).
  - apply reachable_service_inv, fx_booted_reachable.
  - reflexivity.
  - reflexivity.
  - apply rows_wfb_true. vm_compute. reflexivity.
  - by rewrite <- !surjective_pairing.
Defined.

Lemma create_atomic_witness :
  let ended := run exec_area (create fx_new_area) [FOk; FOk; FFail (Error "down")] fx_booted in
  (sv_db ended.1.2 = sv_db fx_booted ∨ sv_db ended.1.2 = created fx_new_area (sv_db fx_booted)) ∧
  ended.1.1 = inl (Error "down") ∧ area_version (sv_db ended.1.2) = 4%Z.
Proof.
  cbv zeta. split; [|split; vm_compute; reflexivity].
  apply (create_atomic fx_new_area fx_booted [FOk; FOk; FFail (Error "down")]
    (run exec_area (create fx_new_area) [FOk; FOk; FFail (Error "down")] fx_booted).1.1 _
    (run exec_area (create fx_new_area) [FOk; FOk; FFail (Error "down")] fx_booted).2).
  - apply reachable_service_inv, fx_booted_reachable.
  - apply rows_wfb_true. vm_compute. reflexivity.
  - by rewrite <- !surjective_pairing.
Defined.
