(* ===== verification/SnapshotLife.v ===== *)
(** The life of the snapshot service, [src/src/areas/area-snapshot.service.ts]: the
    bootstrap hook, the interval timer with polls that may overlap, and the destroy
    hook, around the machine of [Snapshot].

    A poll is three moments, between which anything may happen: its timer fires, its
    query is answered, and it goes on with the answer. The same holds of the bootstrap
    hook, which goes on after its own rebuild has settled. *)

From S2P Require Import Prelude Num Js Prog Spatial Db World Snapshot Areas Fixtures AreasCorrect.

Section life.
Context {gis : PostGIS} {rtree : RBush} {pip : PointInPolygon}.

(** ** State *)

(** The bootstrap hook: not called yet, waiting for the rebuild at a position of the
    chain, about to go on with its outcome, or over. *)
Inductive boot_phase :=
| BootIdle
| BootWaiting (position : nat)
| BootSettled (r : exn + unit)
| BootOver (r : exn + unit).

(** A poll in flight: its query is on the way, or was answered. *)
Inductive poll_phase := PollAsked | PollAnswered (r : exn + Z).

Record Life := {
  lf_service : Service;
  lf_boot : boot_phase;
  lf_timer : bool;
  lf_polls : list poll_phase;
}.

Definition unborn (db : Db) : Life :=
  {| lf_service := boot db; lf_boot := BootIdle; lf_timer := false; lf_polls := [] |}.

Definition with_service (s : Service) (l : Life) : Life :=
  {| lf_service := s; lf_boot := lf_boot l; lf_timer := lf_timer l; lf_polls := lf_polls l |}.

Definition with_polls (polls : list poll_phase) (l : Life) : Life :=
  {| lf_service := lf_service l; lf_boot := lf_boot l; lf_timer := lf_timer l; lf_polls := polls |}.

(** ** Operations *)

(** [onApplicationBootstrap()], up to its [await]. *)
Definition onApplicationBootstrap (l : Life) : Life :=
  {| lf_service := enqueueRebuild (lf_service l);
     lf_boot := BootWaiting (length (sv_chain (lf_service l)));
     lf_timer := lf_timer l; lf_polls := lf_polls l |}.

(** Its rest: the timer is set, unless the rebuild failed. *)
Definition bootstrap_resumes (r : exn + unit) (l : Life) : Life :=
  {| lf_service := lf_service l; lf_boot := BootOver r;
     lf_timer := match r with inr _ => true | inl _ => lf_timer l end;
     lf_polls := lf_polls l |}.

Definition onModuleDestroy (l : Life) : Life :=
  {| lf_service := lf_service l; lf_boot := lf_boot l; lf_timer := false; lf_polls := lf_polls l |}.

(** The timer fires: [poll()] sends its query. *)
Definition timer_fires (l : Life) : Life := with_polls (lf_polls l ++ [PollAsked]) l.

Definition poll_answered (i : nat) (f : fault) (l : Life) : Life :=
  with_polls (<[i := PollAnswered (exec_query f SelectAreaVersion (sv_db (lf_service l))).1]>
    (lf_polls l)) l.

(** [poll()] goes on: it compares the answer with the snapshot there is now. What it
    awaits then changes nothing more: an error is logged. *)
Definition poll_continues (r : exn + Z) (s : Service) : Service :=
  match r with
  | inl _ => s
  | inr version =>
      match sv_snapshot s with
      | None => enqueueRebuild s
      | Some sn => if (version =? sn_version sn)%Z then s else enqueueRebuild s
      end
  end.

Definition poll_resumes (i : nat) (r : exn + Z) (l : Life) : Life :=
  {| lf_service := poll_continues r (lf_service l); lf_boot := lf_boot l; lf_timer := lf_timer l;
     lf_polls := delete i (lf_polls l) |}.

(** What the hook learns when the rebuild at the head of the chain is settled. *)
Definition boot_advances (s : Service) (b : boot_phase) : boot_phase :=
  match sv_chain s, b with
  | rb :: _, BootWaiting position =>
      match rb_left rb, position with
      | Ret _, O => BootSettled (inr tt)
      | Throw e, O => BootSettled (inl e)
      | Ret _, S position | Throw _, S position => BootWaiting position
      | Vis _ _, _ => b
      end
  | _, _ => b
  end.

Definition chain_advances (f : fault) (l : Life) : Life :=
  {| lf_service := advance f (lf_service l); lf_boot := boot_advances (lf_service l) (lf_boot l);
     lf_timer := lf_timer l; lf_polls := lf_polls l |}.

(** ** Steps

    The rebuilds suffer only faults that [ok] allows. *)

Inductive life_step (ok : fault → Prop) : Life → Life → Prop :=
| ls_bootstrap l : lf_boot l = BootIdle → life_step ok l (onApplicationBootstrap l)
| ls_resume r l : lf_boot l = BootSettled r → life_step ok l (bootstrap_resumes r l)
| ls_destroy l : life_step ok l (onModuleDestroy l)
| ls_fire l : lf_timer l = true → life_step ok l (timer_fires l)
| ls_answer i f l : lf_polls l !! i = Some PollAsked → life_step ok l (poll_answered i f l)
| ls_continue i r l : lf_polls l !! i = Some (PollAnswered r) → life_step ok l (poll_resumes i r l)
| ls_refresh l : life_step ok l (with_service (enqueueRebuild (lf_service l)) l)
| ls_advance f l : ok f → life_step ok l (chain_advances f l)
| ls_commit db l : lawful_commit (sv_db (lf_service l)) db →
    life_step ok l (with_service (commit db (lf_service l)) l).

Definition any_fault (f : fault) : Prop := True.
Definition no_fault (f : fault) : Prop := f = FOk.

Definition life_reachable (l : Life) : Prop :=
  ∃ db, rows_wf (area_geometry_rows (areas db)) ∧ rtc (life_step any_fault) (unborn db) l.

(** ** The machine of single steps *)

Lemma poll_continues_steps r s : rtc step s (poll_continues r s).
Proof.
  unfold poll_continues. destruct r as [e|v]; [done|].
  destruct (sv_snapshot s) as [sn|]; [|apply rtc_once, step_refresh].
  destruct (v =? sn_version sn)%Z; [done|apply rtc_once, step_refresh].
Qed.

Lemma life_step_steps ok l l' : life_step ok l l' → rtc step (lf_service l) (lf_service l').
Proof.
  destruct 1; simpl; try done;
    [apply rtc_once, step_refresh|apply poll_continues_steps|apply rtc_once, step_refresh|
     apply rtc_once, step_advance|by apply rtc_once, step_commit].
Qed.

Lemma life_reachable_service l : life_reachable l → reachable_service (lf_service l).
Proof.
  intros (db & Hwf & Hl). exists db. split; [done|].
  change (boot db) with (lf_service (unborn db)). induction Hl as [|a b c Hab _ IH]; [done|].
  etrans; [by apply (life_step_steps any_fault)|done].
Qed.

(** ** The invariant *)

Lemma enqueue_head s rb rest :
  sv_chain (enqueueRebuild s) = rb :: rest → rb_left rb = Ret tt →
  ∃ rest', sv_chain s = rb :: rest'.
Proof.
  simpl. destruct (sv_chain s) as [|rb' rest']; simpl; intros [= <- <-]; [done|by eauto].
Qed.

(** A rebuild that is done has left a snapshot. *)
Definition done_built (s : Service) : Prop :=
  ∀ rb rest, sv_chain s = rb :: rest → rb_left rb = Ret tt → is_Some (sv_snapshot s).

Lemma enqueue_done s : done_built s → done_built (enqueueRebuild s).
Proof. intros Hs rb rest Hch Hl. destruct (enqueue_head _ _ _ Hch Hl) as [rest' ?]. by eapply Hs. Qed.

Lemma poll_continues_done r s : done_built s → done_built (poll_continues r s).
Proof.
  intros Hs. unfold poll_continues. destruct r; [done|].
  destruct (sv_snapshot s) as [sn|]; [case_match; [done|]|]; by apply enqueue_done.
Qed.

Lemma poll_done f s : done_built s → done_built (poll f s).
Proof.
  intros Hs. unfold poll. destruct (exec_query f SelectAreaVersion (sv_db s)) as [[e|v] db]; [done|].
  by apply (poll_continues_done (inr v)).
Qed.

Lemma advance_done f s : service_inv s → done_built s → done_built (advance f s).
Proof.
  intros Hinv Hs rb rest. pose proof (si_waiting _ Hinv) as Hwait.
  unfold advance. destruct (sv_chain s) as [|rb0 rest0] eqn:Hch; [by rewrite Hch|].
  assert (Hpop : sv_chain (with_chain rest0 s) = rb :: rest → rb_left rb = Ret tt →
    is_Some (sv_snapshot (with_chain rest0 s))).
  { simpl. intros -> Hl. destruct (Hwait rb0 (rb :: rest) rb eq_refl) as [Hr _]; [by left|].
    by rewrite Hr in Hl. }
  destruct (si_head _ Hinv rb0 rest0 Hch) as [Hl _|v Hl _ _|v m i Hl _ _ _ _|e Hl|Hl]; rewrite Hl;
    [..|exact Hpop|exact Hpop].
  - unfold rebuild. cbn [mbind prog_mbind prog_bind await].
    destruct (exec_snap _ f (SnapQuery SelectAreaVersion) s) as [r s'] eqn:E.
    apply exec_snap_select in E as [-> [(e & -> & _)|(x & -> & _)]]; [..|by eexists];
      by intros [= <- <-].
  - unfold rebuild_after_version. cbn [mbind prog_mbind prog_bind await].
    destruct (exec_snap _ f (SnapQuery SelectAreas) s) as [r s'] eqn:E.
    apply exec_snap_select in E as [-> [(e & -> & _)|(x & -> & _)]]; [..|by eexists];
      intros [= <- <-]; [done|]. simpl. unfold rebuild_with_rows. by case_match.
  - intros _ _. by eexists.
Qed.

Lemma step_done s s' : step s s' → service_inv s → done_built s → done_built s'.
Proof. destruct 1; auto using enqueue_done, poll_done, advance_done. Qed.

Lemma reachable_done s : reachable_service s → done_built s.
Proof.
  intros (db & Hwf & Hs).
  assert (H0 : done_built (boot db)) by done. pose proof (boot_inv db Hwf) as Hi.
  induction Hs as [|a b c Hab _ IH]; [done|]. eauto using step_inv, step_done.
Qed.

(** The rebuild that the bootstrap hook awaits is in the chain, once it is done there
    is a snapshot, and the timer is set only after that. *)
Record life_inv (l : Life) : Prop := {
  li_service : reachable_service (lf_service l);
  li_waiting n : lf_boot l = BootWaiting n → n < length (sv_chain (lf_service l));
  li_built : lf_boot l = BootSettled (inr tt) ∨ lf_boot l = BootOver (inr tt) →
    is_Some (sv_snapshot (lf_service l));
  li_timer : lf_timer l = true → lf_boot l = BootOver (inr tt);
  li_polls i v : lf_polls l !! i = Some (PollAnswered (inr v)) →
    (v ≤ area_version (sv_db (lf_service l)))%Z;
}.

(** A snapshot stays, and its label does not go back. *)
Lemma steps_monotone s s' sn :
  reachable_service s → rtc step s s' → sv_snapshot s = Some sn →
  ∃ sn', sv_snapshot s' = Some sn' ∧ (sn_version sn ≤ sn_version sn')%Z.
Proof.
  intros Hr Hs. revert sn Hr. induction Hs as [s|a b c Hab Hbc IH]; intros sn Hr Hsn; [eauto with lia|].
  destruct (snapshot_monotone a b sn Hr Hab Hsn) as (sn1 & H1 & Hle).
  destruct (IH sn1) as (sn2 & H2 & Hle2); [|done|].
  - destruct Hr as (db & Hwf & Hdb). exists db. split; [done|]. by eapply rtc_r.
  - exists sn2. split; [done|lia].
Qed.

Lemma steps_built s s' :
  reachable_service s → rtc step s s' → is_Some (sv_snapshot s) → is_Some (sv_snapshot s').
Proof. intros Hr Hs [sn Hsn]. destruct (steps_monotone s s' sn Hr Hs Hsn) as (sn' & -> & _). by eexists. Qed.

Lemma advance_db f s : service_inv s → sv_db (advance f s) = sv_db s.
Proof.
  intros Hinv. unfold advance. destruct (sv_chain s) as [|rb rest] eqn:Hch; [done|].
  destruct (si_head _ Hinv rb rest Hch) as [Hl _|v Hl _ _|v m i Hl _ _ _ _|e Hl|Hl]; rewrite Hl; try done.
  - unfold rebuild. cbn [mbind prog_mbind prog_bind await].
    destruct (exec_snap _ f (SnapQuery SelectAreaVersion) s) as [r s'] eqn:E.
    by apply exec_snap_select in E as [-> _]; [|by eexists].
  - unfold rebuild_after_version. cbn [mbind prog_mbind prog_bind await].
    destruct (exec_snap _ f (SnapQuery SelectAreas) s) as [r s'] eqn:E.
    by apply exec_snap_select in E as [-> _]; [|by eexists].
Qed.

Lemma poll_continues_db r s : sv_db (poll_continues r s) = sv_db s.
Proof. unfold poll_continues. by repeat case_match. Qed.

(** The chain of a service whose head was advanced, as the bootstrap hook sees it. *)
Lemma boot_advances_waiting f s b n :
  service_inv s → (∀ n, b = BootWaiting n → n < length (sv_chain s)) →
  boot_advances s b = BootWaiting n → n < length (sv_chain (advance f s)).
Proof.
  intros Hinv Hb. unfold boot_advances, advance.
  destruct (sv_chain s) as [|rb rest] eqn:Hch; [rewrite Hch; apply Hb|].
  destruct b as [|k|r|r]; try done. specialize (Hb k eq_refl). simpl in Hb.
  destruct (rb_left rb) as [a|e|X op g].
  - destruct k; [done|]. intros [= <-]. simpl. lia.
  - destruct k; [done|]. intros [= <-]. simpl. lia.
  - intros [= <-]. destruct (exec_snap X f op s) as [r s']. simpl. lia.
Qed.

Lemma boot_advances_settled s b :
  boot_advances s b = BootSettled (inr tt) →
  b = BootSettled (inr tt) ∨ ∃ rb rest, sv_chain s = rb :: rest ∧ rb_left rb = Ret tt.
Proof.
  unfold boot_advances. destruct (sv_chain s) as [|rb rest]; [by left|].
  destruct b as [|k|r|r]; [by left| |by left|by left].
  destruct (rb_left rb) as [[]|e|X op g] eqn:E; [|by destruct k|done].
  intros _. right. eauto.
Qed.

Lemma boot_advances_over s b r : boot_advances s b = BootOver r → b = BootOver r.
Proof. unfold boot_advances. repeat case_match; done. Qed.

Lemma boot_advances_keeps s r : boot_advances s (BootOver r) = BootOver r.
Proof. unfold boot_advances. by case_match. Qed.

Lemma life_step_version ok l l' :
  life_step ok l l' → service_inv (lf_service l) →
  (area_version (sv_db (lf_service l)) ≤ area_version (sv_db (lf_service l')))%Z.
Proof.
  intros Hs Hinv. destruct Hs as [| | | | |i r l| |f l ?|db l Hc]; simpl; try lia.
  - by rewrite poll_continues_db.
  - by rewrite advance_db.
  - by destruct Hc as (_ & ? & _).
Qed.

(** The answers on the way are of versions the table has had. *)
Lemma life_step_polls ok l l' :
  life_step ok l l' → life_inv l → ∀ i v, lf_polls l' !! i = Some (PollAnswered (inr v)) →
  (v ≤ area_version (sv_db (lf_service l')))%Z.
Proof.
  intros Hs [Hr _ _ _ Hp]. pose proof (reachable_service_inv _ Hr) as Hinv.
  pose proof (life_step_version _ _ _ Hs Hinv) as Hle.
  destruct Hs as [l| r l|l|l|j f l Hj|j r l Hj|l|f l ?|db l Hc]; simpl in *; intros i v Hi;
    try (by etrans; [by eapply Hp|]).
  - apply lookup_app_Some in Hi as [Hi|[_ [_ ?]%list_lookup_singleton_Some]]; [by eapply Hp|done].
  - apply list_lookup_insert_Some in Hi as [(_ & Hi & _)|[_ Hi]]; [|by eapply Hp].
    injection Hi as Hi. destruct f; simplify_eq/=. lia.
  - rewrite poll_continues_db. destruct (decide (i < j)) as [Hlt|Hge].
    + rewrite list_lookup_delete_lt in Hi by done. by eapply Hp.
    + rewrite list_lookup_delete_ge in Hi by lia. by eapply Hp.
Qed.

Lemma life_step_inv ok l l' : life_step ok l l' → life_inv l → life_inv l'.
Proof.
  intros Hs Hl. pose proof (life_step_polls _ _ _ Hs Hl) as Hpolls.
  pose proof (life_step_steps _ _ _ Hs) as Hsteps. destruct Hl as [Hr Hw Hb Ht Hp].
  pose proof (steps_built _ _ Hr Hsteps) as Hkeep.
  assert (Hr' : reachable_service (lf_service l')).
  { destruct Hr as (db & Hwf & Hdb). exists db. split; [done|]. by etrans. }
  split; [done|..|exact Hpolls]; clear Hpolls Hp.
  - intros n. destruct Hs as [l Hi|r l Hi|l|l Hi|i f l Hi|i r l Hi|l|f l ?|db l Hc]; simpl;
      intros Hn; try (by apply Hw); try done.
    + injection Hn as <-. rewrite length_app. simpl. lia.
    + apply Hw in Hn. unfold poll_continues. repeat case_match; simpl; rewrite ?length_app; simpl; lia.
    + apply Hw in Hn. rewrite length_app. lia.
    + apply (boot_advances_waiting f (lf_service l) (lf_boot l)); [by apply reachable_service_inv|done|done].
  - intros Hd. destruct Hs as [l Hi|r l Hi|l|l Hi|i f l Hi|i r l Hi|l|f l ?|db l Hc]; simpl in *;
      try (by apply Hkeep, Hb); try (by apply Hb); try (by destruct Hd).
    + apply Hb. left. rewrite Hi. by destruct Hd as [|[= ->]].
    + destruct Hd as [Hd|Hd].
      * apply boot_advances_settled in Hd as [Hd|(rb & rest & Hch & Hrb)]; [by apply Hkeep, Hb; left|].
        apply Hkeep. by eapply (reachable_done _ Hr).
      * apply boot_advances_over in Hd. apply Hkeep, Hb. by right.
  - intros Htm. destruct Hs as [l Hi|r l Hi|l|l Hi|i f l Hi|i r l Hi|l|f l ?|db l Hc]; simpl in *;
      try (by apply Ht); try done.
    + apply Ht in Htm. congruence.
    + destruct r as [e|[]]; [|done]. apply Ht in Htm. congruence.
    + apply Ht in Htm. rewrite Htm. apply boot_advances_keeps.
Qed.

Lemma life_reachable_inv l : life_reachable l → life_inv l.
Proof.
  intros (db & Hwf & Hl).
  assert (H0 : life_inv (unborn db)).
  { split; simpl; try done; [by exists db|]. by intros [|]. }
  induction Hl; eauto using life_step_inv.
Qed.

(** ** What a poll's answer brings about *)

Definition pending (rb : Rebuild) : Prop :=
  match rb_left rb with Vis _ _ => True | _ => False end.

(** The label has reached [v], or a rebuild that will publish at least [v] is pending. *)
Definition owed (v : Z) (s : Service) : Prop :=
  (∃ sn, sv_snapshot s = Some sn ∧ (v ≤ sn_version sn)%Z) ∨
  (∃ rb, rb ∈ sv_chain s ∧ (v ≤ rb_since rb)%Z ∧ pending rb).

Lemma owed_enqueue v s : owed v s → owed v (enqueueRebuild s).
Proof.
  intros [H|(rb & Hrb & Hv & Hp)]; [by left|right]. exists rb. split; [|done].
  simpl. apply elem_of_app. by left.
Qed.

Lemma owed_continues v r s : owed v s → owed v (poll_continues r s).
Proof.
  intros H. unfold poll_continues. destruct r; [done|].
  destruct (sv_snapshot s); [case_match; [done|]|]; by apply owed_enqueue.
Qed.

(** The answer itself creates the debt. *)
Lemma answer_owes v s :
  (v ≤ area_version (sv_db s))%Z → owed v (poll_continues (inr v) s).
Proof.
  intros Hv. assert (He : owed v (enqueueRebuild s)).
  { right. eexists. split; [apply elem_of_app; right; by left|]. by split. }
  unfold poll_continues. destruct (sv_snapshot s) as [sn|] eqn:Hsn; [|done].
  destruct (Z.eqb_spec v (sn_version sn)) as [->|_]; [|done]. left. by exists sn.
Qed.

Lemma owed_advance v s : reachable_service s → owed v s → owed v (advance FOk s).
Proof.
  intros Hr [(sn & Hsn & Hv)|(rb & Hrb & Hv & Hp)].
  { destruct (snapshot_monotone s (advance FOk s) sn Hr (step_advance FOk s) Hsn) as (sn' & ? & ?).
    left. exists sn'. split; [done|lia]. }
  pose proof (reachable_service_inv _ Hr) as Hinv. unfold advance.
  destruct (sv_chain s) as [|rb0 rest] eqn:Hch; [by apply not_elem_of_nil in Hrb|].
  destruct (new_index_total _ (si_rows_wf _ Hinv)) as [index Hindex].
  destruct (si_head _ Hinv rb0 rest Hch) as [Hl _|w Hl _ _|w m j Hl Hw _ _ _|e Hl|Hl]; rewrite Hl.
  - unfold rebuild. cbn [mbind prog_mbind prog_bind await exec_snap exec_query exec_sql].
    right. apply elem_of_cons in Hrb as [->|Hrb]; [|exists rb; by split; [right|]].
    eexists. split; [by left|]. by split.
  - unfold rebuild_after_version. cbn [mbind prog_mbind prog_bind await exec_snap exec_query exec_sql].
    right. apply elem_of_cons in Hrb as [->|Hrb]; [|exists rb; by split; [right|]].
    eexists. split; [by left|]. split; [done|]. unfold pending. simpl.
    unfold rebuild_with_rows. by rewrite Hindex.
  - apply elem_of_cons in Hrb as [->|Hrb]; [|right; exists rb; by split; [right|]].
    left. eexists. split; [done|]. simpl. lia.
  - right. apply elem_of_cons in Hrb as [->|Hrb]; [|by exists rb].
    unfold pending in Hp. by rewrite Hl in Hp.
  - right. apply elem_of_cons in Hrb as [->|Hrb]; [|by exists rb].
    unfold pending in Hp. by rewrite Hl in Hp.
Qed.

Lemma owed_life v l l' :
  life_step no_fault l l' → life_inv l → owed v (lf_service l) → owed v (lf_service l').
Proof.
  intros Hs Hl Ho. destruct Hs as [l|r l|l|l|i f l|i r l|l|f l Hf|db l Hc]; simpl; try done;
    auto using owed_enqueue, owed_continues.
  rewrite Hf. apply owed_advance; [apply Hl|done].
Qed.

(** ** The timer *)

(** Once the bootstrap hook is over, a timer that is off stays off. *)
Lemma timer_stays_off ok r l l' :
  rtc (life_step ok) l l' → lf_boot l = BootOver r → lf_timer l = false →
  lf_boot l' = BootOver r ∧ lf_timer l' = false.
Proof.
  induction 1 as [l|l l1 l2 Hs _ IH]; [done|]. intros Hb Ht. apply IH; clear IH.
  - destruct Hs; simpl; try congruence. rewrite Hb. apply boot_advances_keeps.
  - destruct Hs; simpl; congruence.
Qed.

Lemma life_steps_inv ok l l' : rtc (life_step ok) l l' → life_inv l → life_inv l'.
Proof. induction 1; eauto using life_step_inv. Qed.

(** ** The guarantees *)

(** C8. Lookups of a booted service: whatever polls overlap, queries fail, processes
    commit and hooks run, once the bootstrap hook has ended normally a lookup never
    throws, and while the snapshot carries the table's version it answers exactly as
    the table would. The timer is on only after such an end; a boot that failed never
    has one; and after the destroy hook of a service whose boot is over no poll starts
    again. *)
Theorem booted_lookups `{!RBushLaws, !PointInPolygonLaws} l :
  life_reachable l →
  (lf_boot l = BootOver (inr tt) → ∀ lng lat, ∃ ids,
     lookup_areas (sv_snapshot (lf_service l)) lng lat = inr ids ∧
     (label_current (lf_service l) →
        ids ≡ₚ coveringAreaIds_reference
          (area_geometry_rows (areas (sv_db (lf_service l)))) lng lat)) ∧
  (lf_timer l = true → lf_boot l = BootOver (inr tt)) ∧
  (∀ e l', lf_boot l = BootOver (inl e) → rtc (life_step any_fault) l l' → lf_timer l' = false) ∧
  (∀ r l', lf_boot l = BootOver r → rtc (life_step any_fault) (onModuleDestroy l) l' →
     lf_timer l' = false).
Proof.
  intros Hl. pose proof (life_reachable_inv _ Hl) as [Hr _ Hb Ht _]. split_and!; [|done|..].
  - intros Hover lng lat. destruct (Hb (or_intror Hover)) as [sn Hsn].
    exists (findCoveringAreaIds (sn_index sn) lng lat). rewrite Hsn. split; [done|]. intros Hcur.
    destruct (snapshot_exact _ lng lat (reachable_service_inv _ Hr) Hcur) as (ids & Hi & Hp).
    rewrite Hsn in Hi. by injection Hi as <-.
  - intros e l' He Hs. eapply timer_stays_off; [done..|].
    destruct (lf_timer l) eqn:E; [|done]. specialize (Ht eq_refl). congruence.
  - intros r l' Hr' Hs. by eapply timer_stays_off.
Qed.

(** C27. The answer of a poll takes effect: of polls in flight, however they overlap,
    each that was answered with a version brings the snapshot at least to it: once it
    has gone on and the rebuilds have run without failures, whatever else happened
    meanwhile (other polls, commits, requests), there is a snapshot with that version
    or a later one. *)
Theorem poll_answer_takes_effect l i v l' :
  life_reachable l → lf_polls l !! i = Some (PollAnswered (inr v)) →
  rtc (life_step no_fault) (poll_resumes i (inr v) l) l' →
  sv_chain (lf_service l') = [] →
  ∃ sn, sv_snapshot (lf_service l') = Some sn ∧ (v ≤ sn_version sn)%Z.
Proof.
  intros Hl Hi Hs Hch. pose proof (life_reachable_inv _ Hl) as Hinv.
  assert (H1 : life_inv (poll_resumes i (inr v) l)).
  { by eapply life_step_inv; [apply (ls_continue no_fault)|]. }
  assert (H2 : owed v (lf_service (poll_resumes i (inr v) l))).
  { apply answer_owes. by eapply li_polls. }
  assert (Ho : owed v (lf_service l')).
  { clear Hch Hi Hinv Hl. induction Hs as [|a b c Hab _ IH]; [done|].
    apply IH; [by eapply life_step_inv|by eapply owed_life]. }
  destruct Ho as [Ho|(rb & Hrb & _)]; [done|]. rewrite Hch in Hrb. by apply not_elem_of_nil in Hrb.
Qed.
End life.

(** ** Witnesses *)

#[local] Existing Instances fx_postgis fx_rbush fx_pip fx_rbush_laws fx_pip_laws.

(** A service that booted, whose timer fired twice; an area was created between the
    answers of the two polls. *)
Definition fx_life_settled : Life :=
  Nat.iter 4 (chain_advances FOk) (onApplicationBootstrap (unborn fx_db)).

Definition fx_life_booted : Life := bootstrap_resumes (inr tt) fx_life_settled.

Definition fx_life_fired : Life := poll_answered 0 FOk (timer_fires (timer_fires fx_life_booted)).

Definition fx_life_polled : Life :=
  poll_answered 1 FOk (with_service (commit (created fx_new_area fx_db) (lf_service fx_life_fired)) fx_life_fired).

Lemma fx_life_settled_reachable : life_reachable fx_life_settled.
Proof.
  exists fx_db. split; [apply fx_rows_wf|]. unfold fx_life_settled. simpl.
  eapply rtc_l; [by apply ls_bootstrap|]. do 4 (eapply rtc_l; [by apply (ls_advance any_fault FOk)|]).
  apply rtc_refl.
Qed.

Lemma life_reachable_step `{PostGIS, RBush, PointInPolygon} l l' :
  life_reachable l → life_step any_fault l l' → life_reachable l'.
Proof. intros (db & Hwf & Hl) Hs. exists db. split; [done|]. by eapply rtc_r. Qed.

Lemma fx_life_booted_reachable : life_reachable fx_life_booted.
Proof.
  eapply life_reachable_step; [apply fx_life_settled_reachable|]. apply ls_resume. by vm_compute.
Qed.

Lemma fx_life_polled_reachable : life_reachable fx_life_polled.
Proof.
  assert (Hf : life_reachable fx_life_fired).
  { eapply life_reachable_step; [|by apply ls_answer; vm_compute].
    do 2 (eapply life_reachable_step; [|by apply ls_fire; vm_compute]).
    apply fx_life_booted_reachable. }
  eapply life_reachable_step; [|by apply ls_answer; vm_compute].
  eapply life_reachable_step; [exact Hf|]. apply ls_commit.
  replace (sv_db (lf_service fx_life_fired)) with fx_db by (by vm_compute).
  apply created_lawful, fx_created_wf.
Qed.

Lemma booted_lookups_witness :
  ∃ ids, lookup_areas (sv_snapshot (lf_service fx_life_booted)) (num_of_Z 7) (num_of_Z 5) = inr ids ∧
    ids ≡ₚ coveringAreaIds_reference (area_geometry_rows (areas (sv_db (lf_service fx_life_booted))))
      (num_of_Z 7) (num_of_Z 5).
Proof.
  destruct (booted_lookups fx_life_booted fx_life_booted_reachable) as (H & _).
  destruct (H eq_refl (num_of_Z 7) (num_of_Z 5)) as (ids & Hi & Hp). exists ids. split; [exact Hi|].
  apply Hp. eexists. split; vm_compute; reflexivity.
Defined.

(** The second poll saw the new area's version; the first one, older, goes on later. *)
Lemma poll_answer_takes_effect_witness :
  let l' := Nat.iter 8 (chain_advances FOk)
    (poll_resumes 0 (inr 3%Z) (poll_resumes 1 (inr 4%Z) fx_life_polled)) in
  ∃ sn, sv_snapshot (lf_service l') = Some sn ∧ (4 ≤ sn_version sn)%Z.
Proof.
  cbv zeta. apply (poll_answer_takes_effect fx_life_polled 1 4).
  - apply fx_life_polled_reachable.
  - vm_compute. reflexivity.
  - eapply rtc_l; [apply (ls_continue no_fault 0); by vm_compute|].
    do 8 (eapply rtc_l; [by apply (ls_advance no_fault FOk)|]). apply rtc_refl.
  - vm_compute. reflexivity.
Defined.

(** A destroy hook that runs while the bootstrap hook still waits has no timer to clear;
    the bootstrap then sets one, and polls go on after the destruction. *)
Example destroy_races_with_boot :
  let l := bootstrap_resumes (inr tt) (onModuleDestroy fx_life_settled) in
  life_reachable l ∧ lf_timer l = true.
Proof.
  split; [|reflexivity].
  eapply life_reachable_step; [|apply ls_resume; by vm_compute].
  eapply life_reachable_step; [apply fx_life_settled_reachable|apply ls_destroy].
Qed.
