(* ===== verification/HttpEdge.v ===== *)
(** The guarantees of the HTTP edge: the error contract of the filter, and what a
    client of [POST /locations] is told and what the queue then holds. *)

From S2P Require Import Prelude Num Js Prog Db World Presence Locations Ingest Worker.
From S2P Require Import Filter Fixtures.

(** ** Definitions *)

(** An answer of a handler: the envelope, or the filter's. *)
Definition respond (describe : jsval → string) (timestamp : string) (request : Request)
    (statusCode : Z) (r : exn + jsval) : Response :=
  match r with
  | inr data =>
      {| rs_status := num_of_Z statusCode; rs_headers := [];
         rs_body := intercept timestamp JUndefined (num_of_Z statusCode) data |}
  | inl e => (filter_catch describe timestamp e request).1
  end.

(** [POST /locations]: [LocationAcceptedDto] with status 202, or the filter's answer;
    and the world after it. *)
Definition post_locations (describe : jsval → string) (num_to_string : number → string)
    (timestamp : string) (request : Request) (dto : ReportLocationDto) (fs : list fault)
    (w : IngestWorld) : Response * IngestWorld :=
  let '(r, w', _) := run exec_ingest (LocationsController_report num_to_string dto) fs w in
  (respond describe timestamp request 202
     match r with inr eventId => inr (JObj [("eventId", JStr eventId)]) | inl e => inl e end, w').

(** A publish that fails rejects with [MqUnavailableError], as [MqPublisherService]
    promises; a [FLost] publish is one the broker kept although it was not confirmed. *)
Definition publisher_fault (f : fault) : Prop :=
  match f with
  | FOk => True
  | FFail e | FLost e | FAt _ e => ∃ reason, e = MqUnavailableError reason
  end.

Definition unavailable (timestamp url : string) : Response :=
  {| rs_status := num_of_Z 503; rs_headers := [("Retry-After", RETRY_AFTER_SECONDS)];
     rs_body := error_body timestamp (num_of_Z 503) url
       (JStr "Service temporarily unavailable, retry later") |}.

(** ** Lemmas *)

Lemma exposed_unique v s m s' m' : exposed v s m → exposed v s' m' → s = s' ∧ m = m'.
Proof. intros Hx%exposed_spec Hy%exposed_spec. split; congruence. Qed.

Lemma classified_unique e c c' : classified e c → classified e c' → c = c'.
Proof.
  intros Hc Hc'. destruct Hc; inversion Hc'; subst; try done; try congruence; try naive_solver;
    repeat match goal with
    | Hx : exposed ?v ?s ?m, Hn : ∀ s m, ¬ exposed ?v s m |- _ => by destruct (Hn s m Hx)
    | Hx : exposed ?v ?s ?m, Hy : exposed ?v ?s' ?m' |- _ =>
        by destruct (exposed_unique v s m s' m' Hx Hy) as [-> ->]
    end.
Qed.

Lemma classified_total e : well_typed e → ∃ c, classified e c.
Proof.
  destruct e as [status payload message|v]; simpl.
  - intros [Ho|[text ->]]; [|by eexists; constructor].
    destruct (has_prop "message" payload) eqn:Hp; [|by eexists; apply cl_structured].
    destruct (get_prop "message" payload) eqn:Hg;
      try (by eexists; apply cl_said; [done..| |]; rewrite Hg);
      eexists; apply cl_unsaid; rewrite ?Hg; auto.
  - intros _. destruct (asExposedClientError v) as [[status message]|] eqn:Hx.
    + apply exposed_spec in Hx. by eexists; constructor.
    + pose proof (proj1 (not_exposed v) Hx) as Hn. destruct (isTransientTimeout v) eqn:Ht.
      * apply transient_spec in Ht. by eexists; apply cl_transient.
      * exists Internal. constructor; [done|]. intros Htr%transient_spec. congruence.
Qed.

Lemma classified_answer describe timestamp request e c :
  classified e c →
  (filter_catch describe timestamp e request).1 = class_answer timestamp (rq_url request) c.
Proof.
  destruct 1 as [status payload message Ho Hp|status text message|status payload message Ho Hp H1 H2
    |status payload message Ho Hp Hn|v status message Hx|v Hx Ht|v Hx Ht];
    cbn [filter_catch fst class_answer].
  - by rewrite http_answer_structured.
  - done.
  - by rewrite http_answer_said, nullish_value.
  - rewrite http_answer_said by done. by destruct Hn as [-> | ->].
  - apply exposed_spec in Hx. by rewrite Hx.
  - apply (proj2 (not_exposed v)) in Hx. apply transient_spec in Ht. by rewrite Hx, Ht.
  - apply (proj2 (not_exposed v)) in Hx. rewrite Hx. destruct (isTransientTimeout v) eqn:E; [|done].
    by apply transient_spec in E.
Qed.

Section edge.
Variable describe : jsval → string.
Variable num_to_string : number → string.
Variable timestamp : string.
Variable request : Request.

(** ** The error contract *)

(** C34. Every exception falls in exactly one class, and the answer is the class's: the
    payload itself, with its status, for an [HttpException] that carries an object
    without a [message]; the house shape with the exception's own status and message for
    any other [HttpException]; the client's own message for an exposed 4xx; 503 with
    [Retry-After] for a transient failure; and otherwise a 500 in which nothing of the
    exception appears, so that any two internal errors are answered alike. *)
Theorem filter_contract e :
  well_typed e →
  ∃ c, classified e c ∧ (∀ c', classified e c' → c' = c) ∧
    (filter_catch describe timestamp e request).1 = class_answer timestamp (rq_url request) c.
Proof.
  intros Ht. destruct (classified_total e Ht) as [c Hc]. exists c. split; [done|].
  split; [intros c' Hc'; by eapply classified_unique|]. by apply classified_answer.
Qed.

(** A deliberate HTTP exception keeps its status; its payload is passed on verbatim
    when it is an object without a [message] (health results), and otherwise its
    message is put into the house shape. *)
Theorem deliberate_answers status payload message :
  let answer := (filter_catch describe timestamp (HttpException status payload message) request).1 in
  rs_status answer = num_of_Z status ∧
  (is_object payload = true → has_prop "message" payload = false → rs_body answer = payload) ∧
  (∀ text, payload = JStr text ∨
     (has_prop "message" payload = true ∧ get_prop "message" payload = JStr text) →
   rs_body answer = error_body timestamp (num_of_Z status) (rq_url request) (JStr text)).
Proof.
  cbv zeta. cbn [filter_catch fst rs_status rs_body]. unfold http_answer. split_and!; [done|..].
  - intros -> ->. done.
  - intros text [->|[Hh Hm]]; [done|]. rewrite Hh, andb_false_r, Hm.
    by destruct payload.
Qed.

(** ** POST /locations *)

(** What a client of [POST /locations] is told is true of the queue: 202 with the
    event id means exactly one event, this client's, was confirmed under its user's
    routing key; a reading that is too uncertain is refused with 422 and nothing is
    published; otherwise the answer is 503 with [Retry-After], and the queue holds at
    most that one event. *)
Theorem post_locations_outcomes dto fs w eventId uuids :
  iw_uuids w = eventId :: uuids → Forall publisher_fault fs →
  let event := event_of_dto dto eventId (iw_clock w) in
  let sent := (dto_userId dto, event, eventId, LOCATION_EVENT_TYPE) in
  let '(answer, w') := post_locations describe num_to_string timestamp request dto fs w in
  if accuracy_exceeded dto then rs_status answer = num_of_Z 422 ∧ w' = w
  else
    (rs_status answer = num_of_Z 202 ∧
     rs_body answer = intercept timestamp JUndefined (num_of_Z 202)
       (JObj [("eventId", JStr eventId)]) ∧
     iw_published w' = iw_published w ++ [sent]) ∨
    (answer = unavailable timestamp (rq_url request) ∧
     (iw_published w' = iw_published w ∨ iw_published w' = iw_published w ++ [sent])).
Proof.
  intros Hu Hfs. cbv zeta. unfold post_locations, LocationsController_report, accept.
  destruct (accuracy_exceeded dto); [done|].
  rewrite run_bind, run_await. cbn [exec_ingest]. rewrite Hu.
  rewrite run_bind, run_await. cbn [exec_ingest iw_clock].
  rewrite run_bind, run_await. cbn [exec_ingest iw_uuids iw_published iw_clock].
  assert (Hf : publisher_fault (default FOk (head (tail (tail fs))))).
  { destruct Hfs as [|? ? _ Hfs]; [done|]. destruct Hfs as [|? ? _ Hfs]; [done|].
    by destruct Hfs. }
  destruct (default FOk (head (tail (tail fs)))) as [|e|e|n e]; cbn [publisher_fault] in Hf.
  - left. split_and!; done.
  - destruct Hf as [reason ->]. right. split; [done|]. by left.
  - destruct Hf as [reason ->]. right. split; [done|]. by right.
  - destruct Hf as [reason ->]. right. split; [done|]. by left.
Qed.

(** ** From the API to the worker *)

(** The queue path is the direct path, later: the event the API publishes for a
    report is accepted by the worker on the chain of the report's user, and what the
    worker then runs is the transition processor on that very report, at the instant
    the API received it, with the device left out. *)
Theorem queue_path_is_direct_path config dto eventId receivedAt tag :
  let event := event_of_dto dto eventId receivedAt in
  handle config num_to_string {| deliveryTag := tag; msg_content := Json event |} =
    inr (dto_userId dto, processEvent config num_to_string tag event) ∧
  ∀ pm, report pm config num_to_string (dto_of_event event) (ev_receivedAt event) =
    report pm config num_to_string
      {| dto_userId := dto_userId dto; dto_lat := dto_lat dto; dto_lng := dto_lng dto;
         dto_deviceId := None; dto_seq := None; dto_capturedAt := dto_capturedAt dto;
         dto_observedAt := dto_observedAt dto; dto_accuracy := dto_accuracy dto |}
      receivedAt.
Proof.
  split; [done|]. intros pm. unfold report. destruct dto as [u lat lng d s [c|] [o|] acc]; done.
Qed.
End edge.

(** ** Witnesses *)

Definition fx_request : Request := {| rq_method := "POST"; rq_url := "/locations" |}.

Definition fx_ingest : IngestWorld :=
  {| iw_uuids := ["e1"; "e2"]; iw_clock := 1000; iw_published := [] |}.

Definition fx_report_dto : ReportLocationDto :=
  {| dto_userId := "u"; dto_lat := num_of_Z 5; dto_lng := num_of_Z 7; dto_deviceId := None;
     dto_seq := None; dto_capturedAt := None; dto_observedAt := Some "2026-08-09T12:00:00Z";
     dto_accuracy := Some (num_of_Z 12) |}.

(** The confirm is late: the client is told 503, and the event is in the queue. *)
Lemma post_locations_outcomes_witness :
  let late := [FOk; FOk; FLost (MqUnavailableError "confirm not received within 5000ms")] in
  let ended := post_locations (λ _, "") fx_num_to_string "now" fx_request fx_report_dto late
                 fx_ingest in
  let event := event_of_dto fx_report_dto "e1" 1000 in
  ((rs_status ended.1 = num_of_Z 202 ∧
    rs_body ended.1 = intercept "now" JUndefined (num_of_Z 202) (JObj [("eventId", JStr "e1")]) ∧
    iw_published ended.2 = [("u", event, "e1", LOCATION_EVENT_TYPE)]) ∨
   (ended.1 = unavailable "now" "/locations" ∧
    (iw_published ended.2 = [] ∨
     iw_published ended.2 = [("u", event, "e1", LOCATION_EVENT_TYPE)]))) ∧
  rs_status ended.1 = num_of_Z 503 ∧ length (iw_published ended.2) = 1.
Proof.
  cbv zeta. split; [|split; vm_compute; reflexivity].
  apply (post_locations_outcomes (λ _, "") fx_num_to_string "now" fx_request fx_report_dto
    [FOk; FOk; FLost (MqUnavailableError "confirm not received within 5000ms")]
    fx_ingest "e1" ["e2"]); [reflexivity|].
  repeat constructor. by exists "confirm not received within 5000ms".
Defined.

(** The result of a failing health check, an object without a [message]. *)
Definition fx_health_error : exn :=
  HttpException 503 (JObj [("status", JStr "error");
    ("details", JObj [("database", JObj [("status", JStr "down")])])])
    "Service Unavailable Exception".

Lemma filter_contract_witness :
  (∃ c, classified fx_health_error c ∧ (∀ c', classified fx_health_error c' → c' = c) ∧
     (filter_catch (λ _, "") "now" fx_health_error fx_request).1 =
       class_answer "now" (rq_url fx_request) c) ∧
  rs_body (filter_catch (λ _, "") "now" fx_health_error fx_request).1 =
    JObj [("status", JStr "error");
          ("details", JObj [("database", JObj [("status", JStr "down")])])].
Proof.
  split; [|reflexivity].
  apply (filter_contract (λ _, "") "now" fx_request fx_health_error). by left.
Defined.
