(* ===== verification/Endpoints.v ===== *)
(** The controllers, from the raw request to the answer: the pipe, the handler, and
    the envelope or the error filter ([src/src/*/*.controller.ts]). *)

From Stdlib Require Import Ascii.
From S2P Require Import Prelude Num Js Prog DateText Spatial Db World Filter Logs Snapshot Areas.
From S2P Require Import Presence Locations Validation Ingest HttpEdge AreasCorrect LogsCorrect.
From S2P Require Import Schema Regex Fixtures.

(** ** Controllers *)

Inductive Controller := AreasController | LocationsController | LogsController
  | MetricsController | HealthController.

(** [@SkipResponseTransform()], as the interceptor reads it. *)
Definition skip_metadata (c : Controller) : jsval :=
  match c with HealthController => JBool true | _ => JUndefined end.

Definition AreasController_create (dto : CreateAreaDto) : prog area_op AreaEntity := create dto.
Definition AreasController_findAll (f : fault) (query : ListAreasQueryDto) (db : Db) :
    exn + list AreaEntity := findAll_under f query db.
Definition LogsController_list `{PgText} (f : fault) (query : ListLogsQueryDto)
    (table : list LogEntity) : exn + LogsPageResponseDto := list_logs_under f query table.
Definition MetricsController_metrics (m : PresenceMetrics) : list (string * Z) :=
  metrics_snapshot m.

(** Terminus: [pingCheck] says that an indicator is up, or what is wrong with it; and
    [check] makes the result or the exception of it. *)
Class Terminus := { health_check : list (jsval + jsval) → exn + jsval }.

Class TerminusLaws `{Terminus} : Prop := {
  health_up r : health_check [inr r] =
    inr (JObj [("status", JStr "ok"); ("info", r); ("error", JObj []); ("details", r)]);
  health_down causes : health_check [inl causes] =
    inl (HttpException 503
      (JObj [("status", JStr "error"); ("info", JObj []); ("error", causes);
             ("details", causes)]) "Service Unavailable Exception");
}.

Definition HEALTH_INDICATOR_DATABASE : string := "database".

Definition HealthController_check `{Terminus} (pingCheck : string → jsval + jsval) :
    exn + jsval := health_check [pingCheck HEALTH_INDICATOR_DATABASE].

(** ** Answers as JSON *)

Definition item_json (i : LogItemDto) : jsval :=
  JObj [("id", JStr (li_id i)); ("userId", JStr (li_userId i)); ("areaId", JStr (li_areaId i));
        ("recordedAt", JStr (li_recordedAt i));
        ("capturedAt", from_option JStr JNull (li_capturedAt i))].

Definition page_json (p : LogsPageResponseDto) : jsval :=
  JObj [("items", JArr (item_json <$> items p));
        ("nextCursor", from_option JStr JNull (nextCursor p))].

Definition metrics_json (counters : list (string * Z)) : jsval :=
  JObj ((λ kv, (kv.1, JNum (num_of_Z kv.2))) <$> counters).

(** An answer of a controller: the envelope unless it is skipped, or the filter's. *)
Definition answer (describe : jsval → string) (timestamp : string) (request : Request)
    (c : Controller) (statusCode : Z) (r : exn + jsval) : Response :=
  match r with
  | inr data =>
      {| rs_status := num_of_Z statusCode; rs_headers := [];
         rs_body := intercept timestamp (skip_metadata c) (num_of_Z statusCode) data |}
  | inl e => (filter_catch describe timestamp e request).1
  end.

Definition exn_map {A B} (f : A → B) (r : exn + A) : exn + B := a ← r; inr (f a).

(** ** The body parser *)

(** Express's body parser, which reads the body of a request before any route does: the
    object that a JSON text denotes, or an exception. An array is parsed too, and is
    outside of this interface. *)
Class BodyParser := {
  body_limit : Z;
  json_array : string → bool;
  parse_body : string → exn + list (string * jsval);
}.

(** An exception that refuses a request with a status below 500 and a text of its own:
    an exposed one of Express's middleware, or the exception Nest makes of it. *)
Definition refusal (status : Z) (message : string) (e : exn) : Prop :=
  (∃ v, e = Thrown v ∧ exposed v (num_of_Z status) message) ∨
  ∃ reason, e = nest_exception status reason message.

(** Its documented behaviour: a body over the limit is refused with 413, and a text that
    is not JSON with 400. *)
Class BodyParserLaws `{BodyParser} : Prop := {
  law_too_large raw : (body_limit < Z.of_nat (String.length raw))%Z →
    ∃ e message, parse_body raw = inl e ∧ refusal 413 message e;
  law_json raw : (Z.of_nat (String.length raw) ≤ body_limit)%Z → json_array raw = false →
    (∃ body, parse_body raw = inr body) ∨
    ∃ e message, parse_body raw = inl e ∧ refusal 400 message e;
}.

(** ** Endpoints *)

Section endpoints.
Context `{ValidationPipe} `{BodyParser}.
Context {gis : PostGIS} {rtree : RBush} {pip : PointInPolygon} {text : PgText}.
Variable describe : jsval → string.
Variable num_to_string : number → string.
Variable timestamp : string.
Variable request : Request.
(** The object that TypeORM hydrates for an area. *)
Variable area_json : AreaEntity → jsval.

Definition respond_to : Controller → Z → exn + jsval → Response :=
  answer describe timestamp request.

(** The pipe, then the handler on the typed request. A request that passes the pipe and
    has no typed view has no answer here: that none exists is a theorem. *)
Definition piped {A B} (c : DtoClass) (view : jsval → option A) (rejected : exn → B)
    (handler : A → B) (arguments : list (string * jsval)) : option B :=
  match transform c arguments with
  | inl e => Some (rejected e)
  | inr v => handler <$> view v
  end.

(** A request with a body: the parser, then the route. *)
Definition with_body {B} (rejected : exn → B) (route : list (string * jsval) → option B)
    (raw : string) : option B :=
  match parse_body raw with inl e => Some (rejected e) | inr body => route body end.

Definition POST_locations (raw : string) (fs : list fault) (w : IngestWorld) :
    option (Response * IngestWorld) :=
  let rejected e := (respond_to LocationsController 202 (inl e), w) in
  with_body rejected
    (piped ReportLocationDto_class report_view rejected
      (λ dto,
         let '(r, w', _) := run exec_ingest (LocationsController_report num_to_string dto) fs w in
         (respond_to LocationsController 202
            (exn_map (λ eventId, JObj [("eventId", JStr eventId)]) r), w'))) raw.

Definition POST_areas (raw : string) (fs : list fault) (s : Service) :
    option (Response * Service) :=
  let rejected e := (respond_to AreasController 201 (inl e), s) in
  with_body rejected
    (piped CreateAreaDto_class create_view rejected
      (λ dto,
         let '(r, s', _) := run exec_area (AreasController_create dto) fs s in
         (respond_to AreasController 201 (exn_map area_json r), s'))) raw.

(** The listings make one query, which may fail. *)
Definition GET_areas (query : list (string * jsval)) (f : fault) (db : Db) : option Response :=
  piped ListAreasQueryDto_class areas_query_view
    (λ e, respond_to AreasController 200 (inl e))
    (λ q, respond_to AreasController 200
       (exn_map (λ l, JArr (area_json <$> l)) (AreasController_findAll f q db))) query.

Definition GET_logs (query : list (string * jsval)) (f : fault) (table : list LogEntity) :
    option Response :=
  piped ListLogsQueryDto_class logs_query_view
    (λ e, respond_to LogsController 200 (inl e))
    (λ q, respond_to LogsController 200 (exn_map page_json (LogsController_list f q table))) query.

Definition GET_metrics (m : PresenceMetrics) : Response :=
  respond_to MetricsController 200 (inr (metrics_json (MetricsController_metrics m))).

Definition GET_health `{Terminus} (pingCheck : string → jsval + jsval) : Response :=
  respond_to HealthController 200 (HealthController_check pingCheck).

(** ** Lemmas *)

Context `{!ValidationPipeLaws num_to_string} `{!BodyParserLaws}.

(** A refusal in the house shape. *)
Definition refused (status : Z) (message : string) : Response :=
  {| rs_status := num_of_Z status; rs_headers := [];
     rs_body := error_body timestamp (num_of_Z status) (rq_url request) (JStr message) |}.

Lemma refusal_answered c status code message e :
  refusal status message e → respond_to c code (inl e) = refused status message.
Proof.
  intros [(v & -> & Hx%exposed_spec)|[reason ->]]; unfold respond_to, answer;
    cbn [filter_catch nest_exception fst]; [by rewrite Hx|done].
Qed.

(** What becomes of a body that is no array. *)
Lemma with_body_cases raw :
  json_array raw = false →
  (∃ status message,
     ((Z.of_nat (String.length raw) ≤ body_limit)%Z ∧ status = 400%Z ∨
      (body_limit < Z.of_nat (String.length raw))%Z ∧ status = 413%Z) ∧
     (∀ body, parse_body raw ≠ inr body) ∧
     ∀ c code B (f : Response → B) route,
       with_body (λ e, f (respond_to c code (inl e))) route raw = Some (f (refused status message))) ∨
  ((Z.of_nat (String.length raw) ≤ body_limit)%Z ∧ ∃ body, parse_body raw = inr body ∧
     ∀ B (rejected : exn → B) route, with_body rejected route raw = route body).
Proof.
  intros Ha. unfold with_body. destruct (Z.leb_spec (Z.of_nat (String.length raw)) body_limit) as [Hl|Hl].
  - destruct (law_json raw Hl Ha) as [[body Hb]|(e & m & He & Hr)].
    + right. split; [done|]. exists body. split; [done|]. intros B rejected route. by rewrite Hb.
    + left. exists 400%Z, m. split; [by left|]. split; [by rewrite He|].
      intros c code B f route. by rewrite He, (refusal_answered _ _ _ _ _ Hr).
  - destruct (law_too_large raw Hl) as (e & m & He & Hr). left. exists 413%Z, m.
    split; [by right|]. split; [by rewrite He|].
    intros c code B f route. by rewrite He, (refusal_answered _ _ _ _ _ Hr).
Qed.

(** The 400 of a rejected request lists the messages in the house shape. *)
Definition rejection (c : DtoClass) (arguments : list (string * jsval)) : Response :=
  {| rs_status := num_of_Z 400; rs_headers := [];
     rs_body := error_body timestamp (num_of_Z 400) (rq_url request)
       (JArr (JStr <$> validation_messages c arguments)) |}.

Lemma piped_cases {A} c (view : jsval → option A) (P : A → Prop) arguments :
  (∀ v, transform c arguments = inr v → ∃ a, view v = Some a ∧ P a) →
  (conforms num_to_string c arguments = false ∧
     ∀ B (rejected : exn → B) handler, piped c view rejected handler arguments =
       Some (rejected (validation_exception (validation_messages c arguments)))) ∨
  (conforms num_to_string c arguments = true ∧ ∃ a, P a ∧
     ∀ B (rejected : exn → B) handler,
       piped c view rejected handler arguments = Some (handler a)).
Proof.
  intros Hview. unfold piped. destruct (conforms num_to_string c arguments) eqn:E.
  - right. split; [done|]. pose proof (law_accepts _ c arguments E) as Ht. rewrite Ht.
    destruct (Hview _ Ht) as (a & Hv & Ha). exists a. by rewrite Hv.
  - left. by rewrite (law_rejects num_to_string).
Qed.

Lemma rejected_answer controller status c arguments :
  respond_to controller status
    (inl (validation_exception (validation_messages c arguments))) = rejection c arguments.
Proof. done. Qed.

(** An exception of the driver, and how the filter answers it. *)
Definition driver_exn (e : exn) : Prop := ∃ v, e = Thrown v ∧ asExposedClientError v = None.

Definition internal_error : Response :=
  {| rs_status := num_of_Z 500; rs_headers := [];
     rs_body := error_body timestamp (num_of_Z 500) (rq_url request)
       (JStr "Internal server error") |}.

Definition query_failed (e : exn) : Response :=
  if isTransientTimeout (exn_value e) then unavailable timestamp (rq_url request)
  else internal_error.

Lemma driver_answered c code e :
  driver_exn e → respond_to c code (inl e) = query_failed e.
Proof.
  intros (v & -> & Hx). unfold respond_to, answer, query_failed. cbn [filter_catch exn_value].
  rewrite Hx. by destruct (isTransientTimeout v).
Qed.

Lemma refused_text_internal n name e :
  varchar_refused n name = Some e → driver_exn e ∧ query_failed e = internal_error.
Proof.
  unfold varchar_refused. repeat case_match; try done; intros [= <-];
    (split; [eexists; split; reflexivity|reflexivity]).
Qed.

(** The conversions of the parameters of a query. *)
Lemma where_test_fails cs e :
  where_test cs = inl e → ∃ c, c ∈ cs ∧ condition_test c = inl e.
Proof.
  induction cs as [|c cs IH]; [done|]. simpl. destruct (condition_test c) as [e'|p] eqn:E.
  - intros [= ->]. exists c. by split; [left|].
  - simpl. destruct (where_test cs) as [e'|q]; [|done]. intros [= ->].
    destruct (IH eq_refl) as (c' & Hin & Hc). exists c'. by split; [right|].
Qed.

Lemma condition_test_fails c e :
  condition_test c = inl e → ∃ s, pg_timestamptz s = inl e ∨ pg_uuid s = inl e.
Proof.
  intros E. destruct c as [u|a|s|s|s i]; simpl in E; [done|..].
  - exists a. right. by destruct (pg_uuid a); simplify_eq/=.
  - exists s. left. by destruct (pg_timestamptz s); simplify_eq/=.
  - exists s. left. by destruct (pg_timestamptz s); simplify_eq/=.
  - destruct (pg_timestamptz s) eqn:Es; [exists s; left; by simplify_eq/=|].
    exists i. right. by destruct (pg_uuid i); simplify_eq/=.
Qed.

Lemma decode_fails raw e : decodeLogsCursor raw = inl e → e = malformed_cursor.
Proof. unfold decodeLogsCursor. repeat case_match; congruence. Qed.

(** Why a query of the listing fails: with the exception of its fault, or because the
    server refuses to convert one of the texts of the query. *)
Definition query_fails (q : ListLogsQueryDto) (f : fault) (e : exn) : Prop :=
  raised f = Some e ∨
  (raised f = None ∧ ∃ cs c, conditions q = inr cs ∧ c ∈ cs ∧ condition_test c = inl e).

(** How a listing ends. *)
Lemma list_logs_cases q table :
  match list_logs q table with
  | inr page => length (items page) ≤ lq_limit q
  | inl e =>
      (∃ raw, lq_cursor q = Some raw ∧ decodeLogsCursor raw = inl malformed_cursor ∧
         e = malformed_cursor) ∨
      ∃ cs c, conditions q = inr cs ∧ c ∈ cs ∧ condition_test c = inl e
  end.
Proof.
  unfold list_logs. destruct (conditions q) as [e|cs] eqn:Hc.
  - simpl. left. unfold conditions in Hc. destruct (lq_cursor q) as [raw|]; [|done].
    destruct (decodeLogsCursor raw) as [e'|c] eqn:Hd; simpl in Hc; [|done]. injection Hc as ->.
    pose proof (decode_fails _ _ Hd) as ->. by exists raw.
  - cbn [mbind exn_mbind]. unfold select_logs. destruct (where_test cs) as [e|f] eqn:Hw.
    + cbn [mbind exn_mbind]. right. exists cs.
      destruct (where_test_fails cs e Hw) as (c & Hin & Ht). by exists c.
    + cbn [mbind exn_mbind items]. rewrite length_fmap. set (rows := take (lq_limit q + 1) _).
      destruct (Nat.ltb_spec (lq_limit q) (length rows)) as [Hlt|Hge]; [|done].
      rewrite length_take. lia.
Qed.

Lemma list_logs_under_cases q f table :
  match list_logs_under f q table with
  | inr page => raised f = None ∧ list_logs q table = inr page ∧ length (items page) ≤ lq_limit q
  | inl e =>
      (∃ raw, lq_cursor q = Some raw ∧ decodeLogsCursor raw = inl malformed_cursor ∧
         e = malformed_cursor) ∨ query_fails q f e
  end.
Proof.
  pose proof (list_logs_cases q table) as Hcases. unfold list_logs_under, query_fails.
  destruct (conditions q) as [e|cs] eqn:Hc.
  - cbn [mbind exn_mbind]. unfold list_logs in Hcases. rewrite Hc in Hcases.
    cbn [mbind exn_mbind] in Hcases. destruct Hcases as [?|(cs & c & ? & _)]; [by left|done].
  - cbn [mbind exn_mbind]. destruct (raised f) as [e|]; [right; by left|].
    destruct (list_logs q table) as [e|page]; [|done].
    destruct Hcases as [?|(cs' & c & Hc' & ?)]; [by left|right; right]. split; [done|].
    exists cs', c. by split; [congruence|].
Qed.

Lemma created_rows_wf `{!PostGISLaws} dto db :
  create_ok dto → rows_wf (area_geometry_rows (areas db)) →
  rows_wf (area_geometry_rows (areas (created dto db))).
Proof.
  intros [_ _ Hb] Hwf row. unfold area_geometry_rows. rewrite list_elem_of_fmap.
  intros ([id a] & -> & Hin). apply elem_of_map_to_list in Hin. simpl in Hin.
  apply lookup_insert_Some in Hin as [[_ <-]|[_ Hin]].
  - by apply st_as_geojson_wf.
  - apply Hwf. unfold area_geometry_rows. rewrite list_elem_of_fmap. exists (id, a).
    split; [done|]. by apply elem_of_map_to_list.
Qed.

(** ** POST /locations *)

(** What a client of [POST /locations] is told of the body [raw], with [eventId] the next
    uuid: the response, and the world after. *)
Definition report_answered (eventId raw : string) (w : IngestWorld) (response : Response)
    (w' : IngestWorld) : Prop :=
  ((body_limit < Z.of_nat (String.length raw))%Z ∧
   (∃ message, response = refused 413 message) ∧ w' = w) ∨
  ((Z.of_nat (String.length raw) ≤ body_limit)%Z ∧ (∀ body, parse_body raw ≠ inr body) ∧
   (∃ message, response = refused 400 message) ∧ w' = w) ∨
  ((Z.of_nat (String.length raw) ≤ body_limit)%Z ∧ ∃ body, parse_body raw = inr body ∧
   ((conforms num_to_string ReportLocationDto_class body = false ∧
     response = rejection ReportLocationDto_class body ∧ w' = w) ∨
    (conforms num_to_string ReportLocationDto_class body = true ∧
     ∃ dto, report_ok dto ∧
       let sent := (dto_userId dto, event_of_dto dto eventId (iw_clock w), eventId,
                    LOCATION_EVENT_TYPE) in
       (accuracy_exceeded dto = true ∧ rs_status response = num_of_Z 422 ∧ w' = w) ∨
       (accuracy_exceeded dto = false ∧ rs_status response = num_of_Z 202 ∧
        rs_body response = intercept timestamp JUndefined (num_of_Z 202)
          (JObj [("eventId", JStr eventId)]) ∧
        iw_published w' = iw_published w ++ [sent]) ∨
       (accuracy_exceeded dto = false ∧ response = unavailable timestamp (rq_url request) ∧
        (iw_published w' = iw_published w ∨ iw_published w' = iw_published w ++ [sent]))))).

(** C24. What a client of [POST /locations] is told, whatever body it sends as JSON, an
    array apart: a body over the parser's limit is answered 413 and one that is no JSON
    object 400, a body that breaks a constraint 400 with the messages, and nothing is
    published; any other body is a report whose ids, coordinates, dates and accuracy
    are in the declared ranges, with a device exactly when it has a number. Of such a
    report 202 means that exactly its one event was confirmed under its user's key, 422
    that nothing was published, and otherwise the answer is 503 with [Retry-After], and
    the queue holds at most that one event. *)
Theorem post_locations_any_body raw fs w eventId uuids :
  json_array raw = false → iw_uuids w = eventId :: uuids → Forall publisher_fault fs →
  ∃ response w', POST_locations raw fs w = Some (response, w') ∧
    report_answered eventId raw w response w'.
Proof.
  intros Ha Hu Hfs. unfold POST_locations, report_answered.
  destruct (with_body_cases raw Ha) as [(status & m & Hst & Hno & Hw)|(Hlen & body & Hb & Hw)].
  { rewrite (Hw LocationsController 202%Z _ (λ r, (r, w))). do 2 eexists. split; [done|].
    destruct Hst as [[Hl ->]|[Hl ->]]; [right; left|left]; split_and?; eauto. }
  rewrite Hw.
  destruct (piped_cases ReportLocationDto_class report_view report_ok body)
    as [[Hc ->]|(Hc & dto & Hok & ->)]; [by apply (report_accepted num_to_string)|..].
  { do 2 eexists. split; [done|]. right; right. split; [done|]. exists body. split; [done|]. by left. }
  pose proof (post_locations_outcomes describe num_to_string timestamp request dto fs w eventId
    uuids Hu Hfs) as Hout. unfold post_locations, respond, respond_to, answer in *.
  destruct (run exec_ingest (LocationsController_report num_to_string dto) fs w) as [[r w'] fs'].
  do 2 eexists. split; [done|]. right; right. split; [done|]. exists body. split; [done|].
  right. split; [done|]. exists dto. split; [done|]. cbv zeta in *.
  destruct (accuracy_exceeded dto); destruct r as [e|id]; naive_solver.
Qed.

(** ** POST /areas *)

(** What a client of [POST /areas] is told of the body [raw], and the service after. *)
Definition creation_answered (raw : string) (fs : list fault) (s : Service)
    (response : Response) (s' : Service) : Prop :=
  ((body_limit < Z.of_nat (String.length raw))%Z ∧
   (∃ message, response = refused 413 message) ∧ s' = s) ∨
  ((Z.of_nat (String.length raw) ≤ body_limit)%Z ∧ (∀ body, parse_body raw ≠ inr body) ∧
   (∃ message, response = refused 400 message) ∧ s' = s) ∨
  ((Z.of_nat (String.length raw) ≤ body_limit)%Z ∧ ∃ body, parse_body raw = inr body ∧
   ((conforms num_to_string CreateAreaDto_class body = false ∧
     response = rejection CreateAreaDto_class body ∧ s' = s) ∨
    (conforms num_to_string CreateAreaDto_class body = true ∧
     ∃ dto, create_ok dto ∧
       (sv_db s' = sv_db s ∨ sv_db s' = created dto (sv_db s)) ∧
       ((∃ area, response = respond_to AreasController 201 (inr (area_json area)) ∧
           sv_db s' = created dto (sv_db s)) ∨
        (∃ e, response = (filter_catch describe timestamp e request).1)) ∧
       (fs = [] →
          if st_is_valid (ca_boundary dto)
          then match varchar_refused AREA_NAME_COLUMN (ca_name dto) with
               | None => sv_db s' = created dto (sv_db s) ∧ rs_status response = num_of_Z 201
               | Some _ => sv_db s' = sv_db s ∧ response = internal_error
               end
          else sv_db s' = sv_db s ∧ rs_status response = num_of_Z 400)))).

(** C25. What a client of [POST /areas] is told, whatever body it sends as JSON, an array
    apart: a body over the parser's limit is answered 413 and one that is no JSON object
    400, a body that breaks a constraint 400 with the messages, and nothing changes; under
    any failures of the database the tables gain the area of the body together with its
    version bump or stay as they are, the new area is returned only when they gained it,
    any other answer is the filter's, and the service keeps its invariant. Undisturbed,
    the answer is 201 for a valid polygon with a name that its column takes; 400, with
    nothing written, for a polygon that PostGIS finds invalid; and the 500 of an internal
    error, with nothing written, for a name that passes the constraints and that
    PostgreSQL refuses. *)
Theorem post_areas_any_body `{!PostGISLaws} raw fs s :
  json_array raw = false → service_inv s →
  ∃ response s', POST_areas raw fs s = Some (response, s') ∧ service_inv s' ∧
    creation_answered raw fs s response s'.
Proof.
  intros Ha Hinv. unfold POST_areas, creation_answered.
  destruct (with_body_cases raw Ha) as [(status & m & Hst & Hno & Hw)|(Hlen & body & Hb & Hw)].
  { rewrite (Hw AreasController 201%Z _ (λ r, (r, s))). do 2 eexists. split; [done|]. split; [done|].
    destruct Hst as [[Hl ->]|[Hl ->]]; [right; left|left]; split_and?; eauto. }
  rewrite Hw.
  destruct (piped_cases CreateAreaDto_class create_view create_ok body)
    as [[Hc ->]|(Hc & dto & Hok & ->)]; [by apply (create_accepted num_to_string)|..].
  { do 2 eexists. split; [done|]. split; [done|]. right; right. split; [done|]. exists body.
    split; [done|]. by left. }
  assert (Hwf : rows_wf (area_geometry_rows (areas (created dto (sv_db s))))).
  { apply created_rows_wf; [done|]. apply (si_rows_wf _ Hinv). }
  destruct (run exec_area (AreasController_create dto) fs s) as [[r s'] fs'] eqn:Hrun.
  pose proof (create_run dto s fs r s' fs' Hinv Hwf Hrun) as (Hinv' & Hdb & Hin & Hbad).
  do 2 eexists. split; [done|]. split; [done|]. right; right. split; [done|]. exists body.
  split; [done|]. right. split; [done|]. exists dto. split_and!; [done|done|..].
  - destruct r as [e|area]; [right; by exists e|left; exists area]. split; [done|by eapply Hin].
  - intros ->. destruct (st_is_valid (ca_boundary dto)) eqn:Hv.
    + destruct (varchar_refused AREA_NAME_COLUMN (ca_name dto)) as [e|] eqn:Hn.
      * destruct (create_name_refused dto e s r s' fs' Hv Hn Hrun) as [-> Hsame].
        split; [done|]. destruct (refused_text_internal _ _ _ Hn) as [Hd <-].
        by apply (driver_answered AreasController 201).
      * by apply create_undisturbed in Hrun as (-> & Hdb' & _).
    + destruct (Hbad eq_refl) as [Hsame Hr]. by rewrite (Hr eq_refl).
Qed.
(** ** The columns *)

(** A text fits a column of a bounded length, as PostgreSQL counts its characters. *)
Definition fits_column (s : Schema) (table column value : string) : Prop :=
  ∃ c n, find_column s table column = Some c ∧ col_type c = varchar n ∧ code_points value ≤ n.

(** Sixty-four letters, each with the variation selector U+FE0F. *)
Definition letters_with_selectors : string :=
  let byte n := Ascii.ascii_of_nat n in
  Nat.iter 64 (λ s, String "a" (String (byte 239) (String (byte 184) (String (byte 143) s)))) ""%string.

Lemma migrated_columns postgis s :
  migrate migrations (empty_database postgis) = Some s →
  Forall (λ tc, col_type <$> find_column s tc.1 tc.2 = Some (varchar USER_ID_MAX_LENGTH))
    [("logs", "user_id"); ("user_area_presence", "user_id"); ("user_event_state", "user_id");
     ("user_event_state", "device_id")]%string ∧
  col_type <$> find_column s "areas" "name" = Some (varchar 255).
Proof.
  intros Hs.
  assert (E : s = default (empty_database true) (migrate migrations (empty_database postgis)))
    by (by rewrite Hs).
  subst s. clear Hs. destruct postgis; (split; [repeat constructor|]); by vm_compute.
Qed.

(** C26. What the pipe accepts fits the columns that the migrations make, texts with
    variation selectors apart: the user id of a report fits the three tables it is
    written to, its device id fits the table of the devices, and the name of an area fits
    its column, so that no accepted request without such a selector fails for the length
    of a text. With them one may: the pipe's length does not count a selector that
    follows another character, PostgreSQL's does. *)
Theorem accepted_texts_fit postgis s :
  migrate migrations (empty_database postgis) = Some s →
  (∀ body v, transform ReportLocationDto_class body = inr v →
     ∃ dto, report_view v = Some dto ∧
       (presentation_sequences false (dto_userId dto) = 0 →
          fits_column s "logs" "user_id" (dto_userId dto) ∧
          fits_column s "user_area_presence" "user_id" (dto_userId dto) ∧
          fits_column s "user_event_state" "user_id" (dto_userId dto)) ∧
       ∀ d, dto_deviceId dto = Some d → presentation_sequences false d = 0 →
         fits_column s "user_event_state" "device_id" d) ∧
  (∀ body v, transform CreateAreaDto_class body = inr v →
     ∃ dto, create_view v = Some dto ∧
       (presentation_sequences false (ca_name dto) = 0 →
          fits_column s "areas" "name" (ca_name dto))) ∧
  (constraint (MaxLength USER_ID_MAX_LENGTH) (JStr letters_with_selectors) = true ∧
   ¬ fits_column s "logs" "user_id" letters_with_selectors).
Proof.
  intros Hs. apply migrated_columns in Hs as [Hids Hname]. rewrite !Forall_cons in Hids.
  destruct Hids as (Hlog & Hpres & Hstate & Hdevice & _).
  assert (Hfit : ∀ t c n x, col_type <$> find_column s t c = Some (varchar n) →
    characters x ≤ n → presentation_sequences false x = 0 → fits_column s t c x).
  { intros t c n x Hc Hx Hp. rewrite (law_characters num_to_string), Hp, Nat.sub_0_r in Hx.
    destruct (find_column s t c) as [col|] eqn:E; [|done]. injection Hc as Hc. by exists col, n. }
  split_and!.
  - intros body v Hv. apply (report_accepted num_to_string) in Hv as (dto & Hd & Hok). exists dto.
    destruct (ro_userId _ Hok) as [_ Hu]. split; [done|]. split.
    { intros Hp. split_and!; by eapply Hfit. }
    intros d Hdev Hp. destruct (ro_device _ Hok) as [[? _]|(d' & q & Hd' & _ & [_ Hid] & _)];
      [congruence|]. assert (d = d') as -> by congruence. by eapply Hfit.
  - intros body v Hv. apply (create_accepted num_to_string) in Hv as (dto & Hd & [_ Hl _]). exists dto.
    split; [done|]. intros Hp. by eapply Hfit.
  - apply (law_MaxLength num_to_string). eexists. split; [done|]. rewrite (law_characters num_to_string).
    apply Nat.leb_le. by vm_compute.
  - intros (c & n & Hc & Ht & Hn). simpl in Hlog. rewrite Hc in Hlog. simpl in Hlog. rewrite Ht in Hlog.
    injection Hlog as ->. revert Hn. apply Nat.lt_nge, Nat.ltb_lt. by vm_compute.
Qed.

(** ** The listings *)

(** [GET /areas], whatever the query string: a query that breaks a constraint is
    answered 400; any other has a page size between 1 and 500, its default included,
    and is answered with that many areas at most, the ones at its offset in the order
    of creation, unless its query fails. An offset beyond the range of [bigint] passes
    the constraints and ends in an internal error. *)
Theorem get_areas_outcomes query f db :
  query_object query → (∀ e, raised f = Some e → driver_exn e) →
  ∃ response, GET_areas query f db = Some response ∧
    ((conforms num_to_string ListAreasQueryDto_class query = false ∧
      response = rejection ListAreasQueryDto_class query) ∨
     (conforms num_to_string ListAreasQueryDto_class query = true ∧
      ∃ q, 1 ≤ la_limit q ≤ 500 ∧ (0 ≤ la_offset q)%Z ∧
        match raised f with
        | Some e => response = query_failed e
        | None =>
            if fits_bigint (la_offset q)
            then ∃ l, response = respond_to AreasController 200 (inr (JArr (area_json <$> l))) ∧
              l = take (la_limit q) (drop (Z.to_nat (la_offset q)) (sorted_areas db)) ∧
              length l ≤ 500
            else response = internal_error
        end)).
Proof.
  intros Hq Hf. unfold GET_areas.
  destruct (piped_cases ListAreasQueryDto_class areas_query_view
    (λ q, list_query_valid q = true) query) as [[Hc ->]|(Hc & q & Hok & ->)];
    [intros v; by apply (areas_query_accepted num_to_string)|by eexists; split; [|left]|].
  eexists. split; [done|]. right. split; [done|]. exists q.
  unfold list_query_valid in Hok. rewrite !andb_true_iff, !Nat.leb_le, Z.leb_le in Hok.
  unfold MAX_AREAS_PAGE_SIZE in Hok. split; [tauto|]. split; [tauto|].
  unfold AreasController_findAll, findAll_under. destruct (raised f) as [e|] eqn:Hr.
  { by apply (driver_answered AreasController 200), Hf. }
  unfold findAll. destruct (fits_bigint (la_offset q)).
  - eexists. split_and!; [done|done|]. rewrite length_take. lia.
  - apply (driver_answered AreasController 200 bigint_out_of_range). eexists. split; reflexivity.
Qed.

(** C32. [GET /logs], whatever the query string and whatever befalls the database: a query
    that breaks a constraint is answered 400; any other is answered 400 when its cursor is
    not one, with a page of at most its limit, itself at most 500, or, when the statement
    fails or one of the query's own texts is refused by PostgreSQL, 503 with [Retry-After]
    for a timeout and otherwise the 500 of an internal error. With readable filters, no
    cursor and no failure it is answered 200. *)
Theorem get_logs_outcomes query f table :
  query_object query → (∀ e, raised f = Some e → driver_exn e) →
  (∀ t e, pg_timestamptz t = inl e ∨ pg_uuid t = inl e → driver_exn e) →
  ∃ response, GET_logs query f table = Some response ∧
    ((conforms num_to_string ListLogsQueryDto_class query = false ∧
      response = rejection ListLogsQueryDto_class query) ∨
     (conforms num_to_string ListLogsQueryDto_class query = true ∧
      ∃ q, logs_query_ok q ∧
        ((rs_status response = num_of_Z 400 ∧ ∃ raw, lq_cursor q = Some raw ∧
            decodeLogsCursor raw = inl malformed_cursor) ∨
         (raised f = None ∧ ∃ page, list_logs q table = inr page ∧
            response = respond_to LogsController 200 (inr (page_json page)) ∧
            length (items page) ≤ lq_limit q ≤ 500) ∨
         (∃ e, query_fails q f e ∧ response = query_failed e)) ∧
        (raised f = None → filters_ok q → lq_cursor q = None →
           rs_status response = num_of_Z 200))).
Proof.
  intros Hq Hf Hpg. unfold GET_logs.
  destruct (piped_cases ListLogsQueryDto_class logs_query_view logs_query_ok query)
    as [[Hc ->]|(Hc & q & Hok & ->)];
    [intros v; by apply (logs_query_accepted num_to_string)|by eexists; split; [|left]|].
  eexists. split; [done|]. right. split; [done|]. exists q. split; [done|].
  pose proof (list_logs_under_cases q f table) as Hcases. unfold LogsController_list.
  pose proof (lo_limit _ Hok) as Hlim. unfold logs_limit_valid, MAX_LOGS_PAGE_SIZE in Hlim.
  rewrite andb_true_iff, !Nat.leb_le in Hlim. split.
  - destruct (list_logs_under f q table) as [e|page].
    + destruct Hcases as [(raw & Hr & Hd & ->)|He]; [left|right; right].
      * split; [done|]. by exists raw.
      * exists e. split; [done|]. apply (driver_answered LogsController 200).
        destruct He as [He|(_ & cs & c & _ & _ & Ht)]; [by apply Hf|].
        destruct (condition_test_fails c e Ht) as [t Hte]. by apply (Hpg t).
    + right; left. destruct Hcases as (Hr & Hl & Hlen). split; [done|].
      exists page. split_and!; [done|done|lia|lia].
  - intros Hr Hfo Hnone. destruct (filters_test q Hfo) as (p & Hw & _).
    unfold list_logs_under, list_logs, conditions, select_logs. rewrite Hnone, Hr.
    cbn [mbind exn_mbind]. rewrite Hw. cbn [mbind exn_mbind]. done.
Qed.

(** A bound that the pipe accepts and PostgreSQL does not read is an internal error. *)
Lemma unreadable_bound_is_internal q s message table :
  lq_userId q = None → lq_areaId q = None → lq_from q = Some s → lq_cursor q = None →
  pg_timestamptz s = inl (QueryFailedError "22008" None message) →
  str_includes PG_POOL_ACQUIRE_TIMEOUT_MESSAGE message = false →
  rs_status (respond_to LogsController 200
    (exn_map page_json (LogsController_list FOk q table))) = num_of_Z 500.
Proof.
  intros Hu Ha Hf Hc Hpg Hm. unfold LogsController_list, list_logs_under, list_logs, conditions, select_logs.
  rewrite Hc. unfold filter_conditions. rewrite Hu, Ha, Hf. cbn [mbind exn_mbind].
  simpl where_test. rewrite Hpg. simpl. unfold isTransientTimeout. simpl. by rewrite Hm.
Qed.

(** ** Health and metrics *)

(** [GET /health] is Terminus's own object, without the envelope and without the house
    shape of errors: 200 when the database answers, and otherwise a 503 that keeps the
    detail of the indicator. *)
Lemma health_answers `{TerminusLaws} pingCheck :
  GET_health pingCheck =
    match pingCheck HEALTH_INDICATOR_DATABASE with
    | inr r =>
        {| rs_status := num_of_Z 200; rs_headers := [];
           rs_body := JObj [("status", JStr "ok"); ("info", r); ("error", JObj []);
                            ("details", r)] |}
    | inl causes =>
        {| rs_status := num_of_Z 503; rs_headers := [];
           rs_body := JObj [("status", JStr "error"); ("info", JObj []); ("error", causes);
                            ("details", causes)] |}
    end.
Proof.
  unfold GET_health, HealthController_check.
  destruct (pingCheck HEALTH_INDICATOR_DATABASE) as [causes|r].
  - by rewrite health_down.
  - by rewrite health_up.
Qed.
End endpoints.

(** ** A pipe *)

Definition fx_date : regex :=
  Cat (Rep 4 Digit) (Cat (Lit "-"%char)
    (Cat (Rep 2 Digit) (Cat (Lit "-"%char)
      (Cat (Rep 2 Digit)
        (Star (Alt Digit (Cls (λ c,
          existsb (Ascii.eqb c) ["T"; ":"; "Z"; "."]%char)))))))).

Definition fx_characters (s : string) : nat := code_points s - presentation_sequences false s.

Definition fx_constraint (d : decorator) (v : jsval) : bool :=
  match d, v with
  | IsString, JStr _ => true
  | IsNotEmpty, (JNull | JUndefined) => false
  | IsNotEmpty, JStr s => negb (bool_decide (s = ""%string))
  | IsNotEmpty, _ => true
  | MaxLength n, JStr s => fx_characters s <=? n
  | IsNumber, JNum n => num_isFinite n
  | IsInt, JNum n => num_isInteger n
  | Min k, JNum n => num_ge n (num_of_Z k)
  | Max k, JNum n => num_le n (num_of_Z k)
  | IsDateString, JStr s => re_test fx_date s
  | IsUUID, JStr s => re_test UUID s
  | _, _ => false
  end.

Definition fx_instance (c : DtoClass) (request : list (string * jsval)) : jsval :=
  JObj ((λ p, (pr_name p,
    match assoc_lookup (pr_name p) request with
    | Some v => if pr_number p then Type_Number v else v
    | None => pr_initial p
    end)) <$> c).

Definition fx_pipe_with (f : DtoClass → list (string * jsval) → exn + jsval) : ValidationPipe := {|
  constraint := fx_constraint; characters := fx_characters;
  iso8601 := re_test fx_date; uuid := re_test UUID;
  plainToInstance := fx_instance; validation_messages _ _ := ["rejected"%string];
  transform := f;
|}.

Definition fx_pipe : ValidationPipe :=
  fx_pipe_with (λ c request,
    if @conforms (fx_pipe_with (λ _ _, inr JUndefined)) (λ _, "n") c request
    then inr (fx_instance c request) else inl (validation_exception ["rejected"%string])).

Lemma fx_pipe_laws : @ValidationPipeLaws fx_pipe (λ _, "n").
Proof.
  split; cbn [constraint fx_pipe fx_pipe_with plainToInstance transform characters iso8601 uuid];
    try (intros v; destruct v; simpl; naive_solver).
  - intros v. destruct v; simpl; rewrite ?negb_true_iff, ?bool_decide_eq_false; naive_solver.
  - intros n v. destruct v; simpl; rewrite ?Nat.leb_le; naive_solver.
  - intros k v. destruct v; simpl; naive_solver.
  - intros k v. destruct v; simpl; naive_solver.
  - intros c request p Hp Hnd. unfold fx_instance. cbn [get_prop].
    induction c as [|p' c IH]; [by apply not_elem_of_nil in Hp|].
    rewrite fmap_cons in Hnd. apply NoDup_cons in Hnd as [Hni Hnd]. simpl.
    apply elem_of_cons in Hp as [->|Hp]; [by rewrite decide_True|].
    rewrite decide_False; [by apply IH|]. intros E. apply Hni. rewrite <- E.
    by apply list_elem_of_fmap_2.
  - intros c request Hc.
    change (@conforms (fx_pipe_with (λ _ _, inr JUndefined)) (λ _, "n") c request = true) in Hc.
    by rewrite Hc.
  - intros c request Hc.
    change (@conforms (fx_pipe_with (λ _ _, inr JUndefined)) (λ _, "n") c request = false) in Hc.
    by rewrite Hc.
Qed.

(** ** Witnesses *)

#[local] Existing Instances fx_pipe fx_pipe_laws fx_postgis fx_rbush fx_pip fx_text.

Definition fx_body : list (string * jsval) :=
  [("userId", JStr "u"); ("lat", JNum (num_of_Z 5)); ("lng", JNum (num_of_Z 7));
   ("deviceId", JStr "phone"); ("seq", JNum (num_of_Z 42));
   ("capturedAt", JStr "2026-08-09T12:00:00Z"); ("accuracy", JNum (num_of_Z 12))].

(** Bodies that break a constraint: a device without a number, an unknown property, a
    latitude out of range, a user id that is no text. *)
Definition fx_bad_bodies : list (list (string * jsval)) :=
  [[("userId", JStr "u"); ("lat", JNum (num_of_Z 5)); ("lng", JNum (num_of_Z 7));
    ("deviceId", JStr "phone")];
   [("userId", JStr "u"); ("lat", JNum (num_of_Z 5)); ("lng", JNum (num_of_Z 7));
    ("admin", JBool true)];
   [("userId", JStr "u"); ("lat", JNum (num_of_Z 91)); ("lng", JNum (num_of_Z 7))];
   [("userId", JNum (num_of_Z 3)); ("lat", JNum (num_of_Z 5)); ("lng", JNum (num_of_Z 7))]].

Example bodies_checked :
  conforms (λ _, "n") ReportLocationDto_class fx_body = true ∧
  forallb (λ b, negb (conforms (λ _, "n") ReportLocationDto_class b)) fx_bad_bodies = true ∧
  conforms (λ _, "n") CreateAreaDto_class
    [("name", JStr "yard"); ("boundary", GeoJson.fx_polygon)] = true ∧
  conforms (λ _, "n") ListAreasQueryDto_class [("offset", JStr "1e300")] = true ∧
  conforms (λ _, "n") ListAreasQueryDto_class [("limit", JStr "501")] = false ∧
  conforms (λ _, "n") ListAreasQueryDto_class
    [("limit", JArr [JStr "1"; JStr "2"])] = false ∧
  conforms (λ _, "n") ListLogsQueryDto_class [("from", JStr "2026-02-30")] = true.
Proof. vm_compute. done. Qed.

Definition fx_text_of (_ : jsval) : string := "".
Definition fx_number (_ : number) : string := "n".
Definition fx_area_json (a : AreaEntity) : jsval :=
  JObj [("id", JStr a.1); ("name", JStr (area_name a.2))].
Definition fx_area_body : list (string * jsval) :=
  [("name", JStr "yard"); ("boundary", GeoJson.fx_polygon)].

(** Its limit is 100 kB; it knows three texts. *)
Definition fx_parser : BodyParser := {|
  body_limit := 102400;
  json_array raw := bool_decide (raw = "[]");
  parse_body raw :=
    if (102400 <? Z.of_nat (String.length raw))%Z
    then inl (Thrown (JObj [("expose", JBool true); ("statusCode", JNum (num_of_Z 413));
                            ("message", JStr "request entity too large")]))
    else if bool_decide (raw = "{report}") then inr fx_body
    else if bool_decide (raw = "{area}") then inr fx_area_body
    else if bool_decide (raw = "{}") then inr []
    else inl (BadRequestException "Unexpected token in JSON");
|}.

Lemma fx_parser_laws : @BodyParserLaws fx_parser.
Proof.
  split; cbn [body_limit json_array parse_body fx_parser]; intros raw Hl.
  - exists (Thrown (JObj [("expose", JBool true); ("statusCode", JNum (num_of_Z 413));
                          ("message", JStr "request entity too large")])), "request entity too large"%string.
    rewrite (proj2 (Z.ltb_lt _ _)) by done. split; [done|]. left. eexists. split; [done|].
    apply exposed_spec. by vm_compute.
  - intros _. rewrite (proj2 (Z.ltb_ge _ _)) by done.
    repeat case_bool_decide; [left; by eexists..|]. right.
    do 2 eexists. split; [done|]. right. by eexists.
Qed.

Lemma fx_postgis_laws : @PostGISLaws fx_postgis.
Proof. by split. Qed.

#[local] Existing Instances fx_parser fx_parser_laws fx_postgis_laws.

Lemma post_locations_any_body_witness :
  ∃ response w', POST_locations fx_text_of fx_number "now" fx_request "{report}" [] fx_ingest =
      Some (response, w') ∧
    report_answered fx_number "now" fx_request "e1" "{report}" fx_ingest response w'.
Proof.
  apply (post_locations_any_body fx_text_of fx_number "now" fx_request "{report}" []
    fx_ingest "e1" ["e2"]%string); [reflexivity|reflexivity|]. apply Forall_nil_2.
Defined.

Lemma post_areas_any_body_witness :
  ∃ response s', POST_areas fx_text_of "now" fx_request fx_area_json "{area}" []
      fx_booted = Some (response, s') ∧ service_inv s' ∧
    creation_answered fx_text_of fx_number "now" fx_request fx_area_json "{area}" [] fx_booted
      response s'.
Proof.
  apply (post_areas_any_body fx_text_of fx_number "now" fx_request fx_area_json "{area}" []
    fx_booted); [reflexivity|]. apply reachable_service_inv, fx_booted_reachable.
Defined.

Definition fx_query : list (string * jsval) := [("limit", JStr "1"); ("offset", JStr "1")].

Lemma fx_query_object k v : assoc_lookup k fx_query = Some v →
  match v with JStr _ | JArr _ | JObj _ => True | _ => False end.
Proof. unfold fx_query. simpl. repeat case_decide; by intros [= <-]. Qed.

Lemma get_areas_outcomes_witness :
  ∃ response, GET_areas fx_text_of "now" fx_request fx_area_json fx_query FOk fx_db = Some response ∧
    conforms fx_number ListAreasQueryDto_class fx_query = true ∧
    rs_status response = num_of_Z 200.
Proof.
  destruct (get_areas_outcomes fx_text_of fx_number "now" fx_request fx_area_json fx_query FOk fx_db)
    as (response & Hr & _); [exact fx_query_object|done|].
  exists response. split; [exact Hr|]. split; [vm_compute; reflexivity|].
  revert Hr. vm_compute. intros Hr. injection Hr as <-. reflexivity.
Defined.

Definition fx_logs_query : list (string * jsval) := [("userId", JStr "u"); ("limit", JStr "2")].

Lemma fx_logs_query_object k v : assoc_lookup k fx_logs_query = Some v →
  match v with JStr _ | JArr _ | JObj _ => True | _ => False end.
Proof. unfold fx_logs_query. simpl. repeat case_decide; by intros [= <-]. Qed.

Lemma fx_refusals_driver t e : pg_timestamptz t = inl e ∨ pg_uuid t = inl e → driver_exn e.
Proof.
  simpl. repeat case_match; intros [Hx|Hx]; try discriminate Hx; injection Hx as <-;
    eexists; (split; [reflexivity|reflexivity]).
Qed.

(** The statement is cancelled by the server. *)
Definition fx_canceled : exn :=
  QueryFailedError "57014" None "canceling statement due to statement timeout".

Lemma get_logs_outcomes_witness :
  (∃ response, GET_logs fx_text_of "now" fx_request fx_logs_query (FFail fx_canceled) fx_log =
       Some response ∧
     ((conforms fx_number ListLogsQueryDto_class fx_logs_query = false ∧
       response = rejection "now" fx_request ListLogsQueryDto_class fx_logs_query) ∨
      (conforms fx_number ListLogsQueryDto_class fx_logs_query = true ∧
       ∃ q, logs_query_ok q ∧
         ((rs_status response = num_of_Z 400 ∧ ∃ raw, lq_cursor q = Some raw ∧
             decodeLogsCursor raw = inl malformed_cursor) ∨
          (raised (FFail fx_canceled) = None ∧ ∃ page, list_logs q fx_log = inr page ∧
             response = respond_to fx_text_of "now" fx_request LogsController 200
               (inr (page_json page)) ∧
             length (items page) ≤ lq_limit q ≤ 500) ∨
          (∃ e, query_fails q (FFail fx_canceled) e ∧
             response = query_failed "now" fx_request e)) ∧
         (raised (FFail fx_canceled) = None → filters_ok q → lq_cursor q = None →
            rs_status response = num_of_Z 200)))) ∧
  query_failed "now" fx_request fx_canceled = unavailable "now" "/locations".
Proof.
  split; [|vm_compute; reflexivity].
  apply (get_logs_outcomes fx_text_of fx_number "now" fx_request fx_logs_query (FFail fx_canceled)
    fx_log); [exact fx_logs_query_object| |exact fx_refusals_driver].
  intros e [= <-]. eexists. split; reflexivity.
Defined.

Lemma accepted_texts_fit_witness :
  let s := default (empty_database false) (migrate migrations (empty_database false)) in
  ∃ dto, report_view (fx_instance ReportLocationDto_class fx_body) = Some dto ∧
    (presentation_sequences false (dto_userId dto) = 0 →
       fits_column s "logs" "user_id" (dto_userId dto) ∧
       fits_column s "user_area_presence" "user_id" (dto_userId dto) ∧
       fits_column s "user_event_state" "user_id" (dto_userId dto)) ∧
    ∀ d, dto_deviceId dto = Some d → presentation_sequences false d = 0 →
      fits_column s "user_event_state" "device_id" d.
Proof.
  apply (proj1 (accepted_texts_fit fx_number false
    (default (empty_database false) (migrate migrations (empty_database false)))
    ltac:(vm_compute; reflexivity)) fx_body).
  vm_compute. reflexivity.
Defined.
