(* ===== verification/ApiDocs.v ===== *)
(** What the API documents about itself: the response classes and decorators of
    [src/src/common/dto], [src/src/common/decorators], [src/src/*/dto] and of the
    controllers as OpenAPI schemas, with the judgement that a JSON value conforms to a
    schema; and that what the endpoints answer is what they document. *)

From S2P Require Import Prelude Num NumZ Js Prog DateText Spatial Db World Filter Logs Snapshot.
From S2P Require Import Areas Presence Locations Validation Ingest HttpEdge AreasCorrect.
From S2P Require Import LogsCorrect Schema Regex Fixtures Endpoints.

(** ** Schemas *)

(** The schemas the decorators build. [TAny] is an object of any properties. *)
Inductive schema :=
| TString
| TNumber
| TAny
| Nullable (s : schema)
| ArrayOf (items : schema)
| OneOf (alternatives : list schema)
| AllOf (parts : list schema)
| Properties (properties : list (string * schema)) (required : list string).

(** Whether a value conforms, as OpenAPI reads schemas: a property is checked when it is
    there, those that are required must be, others are admitted; [oneOf] means exactly
    one. A number is one that JSON can write. *)
Fixpoint valid (s : schema) (v : jsval) : bool :=
  match s with
  | TString => match v with JStr _ => true | _ => false end
  | TNumber => match v with JNum n => num_isFinite n | _ => false end
  | TAny => match v with JObj _ => true | _ => false end
  | Nullable s => match v with JNull => true | _ => valid s v end
  | ArrayOf items => match v with JArr l => forallb (valid items) l | _ => false end
  | OneOf alternatives => length (List.filter (λ s, valid s v) alternatives) =? 1
  | AllOf parts => forallb (λ s, valid s v) parts
  | Properties properties required =>
      match v with
      | JObj _ =>
          forallb (λ k, has_prop k v) required &&
          forallb (λ p, negb (has_prop p.1 v) || valid p.2 (get_prop p.1 v)) properties
      | _ => false
      end
  end.

(** A class of [@ApiProperty] members: every one is required. *)
Definition class_of (properties : list (string * schema)) : schema :=
  Properties properties properties.*1.

(** ** The documented classes *)

Definition ErrorResponseDto : schema := class_of
  [("statusCode", TNumber); ("timestamp", TString); ("path", TString);
   ("message", OneOf [TString; ArrayOf TString])].

Definition ResponseEnvelopeDto : schema :=
  class_of [("statusCode", TNumber); ("timestamp", TString)].

Definition LocationAcceptedDto : schema := class_of [("eventId", TString)].

Definition AreaResponseDto : schema := class_of
  [("id", TString); ("name", TString); ("createdAt", TString); ("boundary", TAny)].

Definition LogItemDto_doc : schema := class_of
  [("id", TString); ("userId", TString); ("areaId", TString); ("recordedAt", TString);
   ("capturedAt", Nullable TString)].

Definition LogsPageResponseDto_doc : schema := class_of
  [("items", ArrayOf LogItemDto_doc); ("nextCursor", Nullable TString)].

(** ** The documented responses *)

(** One response of an operation: its status, its schema and the headers it has. *)
Record ApiResponse := mkApiResponse {
  doc_status : Z;
  doc_schema : schema;
  doc_headers : list string;
}.

(** [ApiEnvelopedResponse(model, { status, isArray })]. *)
Definition ApiEnvelopedResponse (model : schema) (status : option Z) (isArray : bool) :
    ApiResponse :=
  mkApiResponse (default 200%Z status)
    (AllOf [ResponseEnvelopeDto;
       Properties [("data", if isArray then ArrayOf model else model)] ["data"]]) [].

(** The decorators of the operations, in their order: [ApiBadRequestResponse],
    [ApiUnprocessableEntityResponse] and [ApiServiceUnavailableResponse] carry the
    statuses of their names. *)
Definition report_responses : list ApiResponse :=
  [ApiEnvelopedResponse LocationAcceptedDto (Some 202%Z) false;
   mkApiResponse 400 ErrorResponseDto [];
   mkApiResponse 422 ErrorResponseDto [];
   mkApiResponse 503 ErrorResponseDto ["Retry-After"]].

Definition create_responses : list ApiResponse :=
  [ApiEnvelopedResponse AreaResponseDto (Some 201%Z) false; mkApiResponse 400 ErrorResponseDto []].

Definition findAll_responses : list ApiResponse :=
  [ApiEnvelopedResponse AreaResponseDto None true; mkApiResponse 400 ErrorResponseDto []].

Definition list_responses : list ApiResponse :=
  [ApiEnvelopedResponse LogsPageResponseDto_doc None false; mkApiResponse 400 ErrorResponseDto []].

(** ** The judgement *)

(** An answer is the documented one. *)
Definition matches (response : Response) (d : ApiResponse) : bool :=
  num_eq (rs_status response) (num_of_Z (doc_status d)) &&
  valid (doc_schema d) (rs_body response) &&
  forallb (λ h, existsb (λ kv, bool_decide (kv.1 = h)) (rs_headers response)) (doc_headers d).

Definition documented (responses : list ApiResponse) (response : Response) : bool :=
  existsb (matches response) responses.

(** An answer that says it is an error, in the house shape. *)
Definition error_answer (response : Response) : bool :=
  num_ge (rs_status response) (num_of_Z 400) && valid ErrorResponseDto (rs_body response).

(** An exception that the filter puts into the house shape: a driver's or any other
    thrown value, or an HTTP exception with a text or texts for its message. *)
Definition message_ok (m : jsval) : bool := valid (OneOf [TString; ArrayOf TString]) m.

Definition house_exn (e : exn) : Prop :=
  match e with
  | Thrown _ => True
  | HttpException status payload _ =>
      (400 ≤ status < 600)%Z ∧ has_prop "message" payload = true ∧
      message_ok (get_prop "message" payload) = true
  end.

(** What befalls an operation of the database is an exception of the driver. *)
Definition driver_fault (f : fault) : Prop :=
  match f with
  | FOk => True
  | FFail e | FLost e | FAt _ e => ∃ v, e = Thrown v
  end.

Lemma driver_fault_raised f e : driver_fault f → raised f = Some e → ∃ v, e = Thrown v.
Proof. destruct f; simpl; naive_solver. Qed.

(** ** Lemmas on shapes *)

Lemma forallb_fmap_JStr l : forallb (valid TString) (JStr <$> l) = true.
Proof. by induction l. Qed.

Lemma message_ok_text s : message_ok (JStr s) = true.
Proof. done. Qed.

Lemma message_ok_texts l : message_ok (JArr (JStr <$> l)) = true.
Proof. unfold message_ok. simpl. by rewrite forallb_fmap_JStr. Qed.

#[export] Hint Resolve message_ok_text message_ok_texts : geo.

Lemma error_body_valid timestamp status url message :
  num_isFinite status = true → message_ok message = true →
  valid ErrorResponseDto (error_body timestamp status url message) = true.
Proof. unfold message_ok. intros Hs Hm. simpl in *. by rewrite Hs, Hm. Qed.

Lemma envelope_valid timestamp status model data :
  num_isFinite status = true → valid model data = true →
  valid (AllOf [ResponseEnvelopeDto; Properties [("data", model)] ["data"]])
    (intercept timestamp JUndefined status data) = true.
Proof. intros Hs Hd. simpl. by rewrite Hs, Hd. Qed.

(** Statuses are small integers: binary64 keeps them and their order. *)
Lemma status_facts status : (400 ≤ status < 600)%Z →
  num_isFinite (num_of_Z status) = true ∧ num_ge (num_of_Z status) (num_of_Z 400) = true.
Proof.
  intros H. assert (Hs : safe_integer status) by (unfold safe_integer, two53; lia).
  split; [by apply num_isFinite_of_Z|]. unfold num_ge. rewrite num_le_of_Z; [lia|done..].
Qed.

Lemma isInteger_isFinite n : num_isInteger n = true → num_isFinite n = true.
Proof. by destruct n. Qed.

(** ** Exceptions are answered in the house shape *)

Section shapes.
Variable describe : jsval → string.
Variable timestamp : string.
Variable request : Request.

Lemma house_exn_answer e :
  house_exn e → error_answer (filter_catch describe timestamp e request).1 = true.
Proof.
  unfold error_answer. destruct e as [status payload message|v];
    cbn [house_exn filter_catch fst rs_status rs_body].
  - intros (Hs & Hp & Hm). destruct (status_facts status Hs) as [Hf Hg]. rewrite Hg.
    unfold http_answer. rewrite Hp, andb_false_r.
    apply error_body_valid; [done|]. destruct payload; try done.
    by destruct (get_prop "message" (JObj fields)).
  - intros _. destruct (asExposedClientError v) as [[status message]|] eqn:Hx.
    + apply exposed_spec in Hx as (_ & _ & _ & _ & Hi & Hg & _). cbn [fst rs_status rs_body].
      rewrite Hg. by apply error_body_valid; [apply isInteger_isFinite|].
    + by destruct (isTransientTimeout v).
Qed.

Definition answered := answer describe timestamp request.

(** An enveloped answer conforms when its data does; any exception of the house makes an
    error answer. *)
Lemma answered_data c status responses model data :
  skip_metadata c = JUndefined → num_isFinite (num_of_Z status) = true →
  num_eq (num_of_Z status) (num_of_Z status) = true →
  mkApiResponse status
    (AllOf [ResponseEnvelopeDto; Properties [("data", model)] ["data"]]) [] ∈ responses →
  valid model data = true →
  documented responses (answered c status (inr data)) = true.
Proof.
  intros Hc Hs He Hin Hd. unfold documented. apply existsb_exists. eexists.
  split; [by apply list_elem_of_In|]. unfold matches, answered, answer. rewrite Hc.
  cbn [rs_status rs_body doc_status doc_schema doc_headers forallb].
  by rewrite He, envelope_valid.
Qed.

Lemma answered_error c status e : house_exn e → error_answer (answered c status (inl e)) = true.
Proof. apply house_exn_answer. Qed.

Lemma house_thrown v : house_exn (Thrown v).
Proof. done. Qed.

Lemma house_nest status reason message :
  (400 ≤ status < 600)%Z → house_exn (nest_exception status reason message).
Proof. intros Hs. split; [done|by split]. Qed.

Lemma house_validation messages : house_exn (validation_exception messages).
Proof. unfold house_exn, validation_exception. split_and!; [lia..|done|]. apply message_ok_texts. Qed.
End shapes.

(** ** Exceptions of the handlers *)

Definition thrown (e : exn) : Prop := ∃ v, e = Thrown v.

(** The outcome of an operation is a value or a driver's exception. *)
Definition throws {A} (P : exn → Prop) (r : exn + A) : Prop := ∀ e, r = inl e → P e.

(** A program throws nothing but exceptions of [P], while those are all it is answered. *)
Fixpoint only_throws {E A} (P : exn → Prop) (p : prog E A) : Prop :=
  match p with
  | Ret _ => True
  | Throw e => P e
  | Vis op k => ∀ r, throws P r → only_throws P (k r)
  end.

Section handlers.
Context {gis : PostGIS} {rtree : RBush} {pip : PointInPolygon}.

Lemma varchar_refused_thrown n name e : varchar_refused n name = Some e → thrown e.
Proof. unfold varchar_refused. repeat case_match; intros [= <-]; by eexists. Qed.

Lemma exec_sql_throws {X} (q : sql X) db : throws thrown (exec_sql q db).
Proof.
  intros e. destruct q; simpl; repeat case_match; intros [= <-]; try by eexists.
  2: by eapply varchar_refused_thrown.
  unfold captured_error in *. by destruct captured_at as [t|]; simplify_option_eq; eexists.
Qed.

Lemma exec_query_throws {X} f (q : sql X) db :
  driver_fault f → throws thrown (exec_query f q db).1.
Proof.
  intros Hf e. pose proof (exec_sql_throws q db) as Hq. unfold exec_query.
  destruct f as [|e'|e'|n e']; simpl in *; [|by intros [= <-]| |by intros [= <-]];
    destruct (exec_sql q db) as [e''|[x db']]; simpl; intros [= <-]; try done; by apply Hq.
Qed.

Lemma exec_statement_throws {X} f (q : sql X) db :
  driver_fault f → throws thrown (exec_statement X f q db).1.
Proof.
  intros Hf e. pose proof (exec_sql_throws q db) as Hq. unfold exec_statement.
  destruct f; simpl in *; [|by intros [= <-]..].
  destruct (exec_sql q db) as [e''|[x db']]; simpl; intros [= <-]. by apply Hq.
Qed.

Lemma only_throws_bind {E A B} P (p : prog E A) (f : A → prog E B) :
  only_throws P p → (∀ a, only_throws P (f a)) → only_throws P (p ≫= f).
Proof.
  intros Hp Hf. induction p as [a|e|X op k IH]; simpl in *; [done..|]. intros r Hr. by apply IH, Hp.
Qed.

Lemma only_throws_await {E X} P (op : E X) : only_throws P (await op).
Proof. intros [e|x] Hr; simpl; [by apply Hr|done]. Qed.

Lemma run_throws {E S A} (exec : ∀ X, fault → E X → S → (exn + X) * S) (P : exn → Prop)
    (I : S → Prop) (p : prog E A) fs s :
  (∀ X f (op : E X) s, driver_fault f → I s → throws P (exec X f op s).1 ∧ I (exec X f op s).2) →
  Forall driver_fault fs → I s → only_throws P p → throws P (run exec p fs s).1.1.
Proof.
  intros Hexec. revert fs s. induction p as [a|e|X op k IH]; intros fs s Hfs Hs Hp; simpl in *.
  - done.
  - by intros e' [= <-].
  - assert (Hf : driver_fault (default FOk (head fs))) by (by destruct Hfs).
    destruct (Hexec X _ op s Hf Hs) as [Hr Hs']. destruct (exec X _ op s) as [r s'].
    apply IH; [by destruct Hfs|done|]. by apply Hp.
Qed.

Lemma exec_transaction_throws {X} f (body : prog sql X) db :
  driver_fault f → only_throws thrown body → throws thrown (exec_transaction f body db).1.
Proof.
  intros Hf Hbody.
  assert (Hrun : ∀ fs, Forall driver_fault fs → throws thrown (run exec_statement body fs db).1.1).
  { intros fs Hfs. apply (run_throws _ _ (λ _, True)); [|done..]. split; [|done].
    by apply exec_statement_throws. }
  unfold exec_transaction. destruct f as [|e|e|n e]; simpl in Hf.
  - specialize (Hrun [] (Forall_nil_2 _)). by destruct (run _ _ _ _) as [[[]?]?].
  - by intros e' [= <-].
  - specialize (Hrun [] (Forall_nil_2 _)). destruct (run _ _ _ _) as [[[]?]?]; [done|].
    by intros e' [= <-].
  - assert (Hfs : Forall driver_fault (replicate n FOk ++ [FFail e])).
    { apply Forall_app_2; [by apply Forall_replicate|by apply Forall_singleton]. }
    specialize (Hrun _ Hfs). by destruct (run _ _ _ _) as [[[]?]?].
Qed.

(** A refresh fails only with the fault of its own first query. *)
Lemma refreshNow_throws f s :
  service_inv s → driver_fault f → throws thrown (refreshNow f s).1.
Proof.
  intros Hinv Hf e. destruct f as [|e'|e'|n e']; simpl in Hf.
  { destruct (refreshNow FOk s) as [r s'] eqn:E. apply refreshNow_ok in E as [-> _]; done. }
  all: unfold refreshNow; set (d := Nat.iter (4 * length (sv_chain s)) (advance FOk) s);
    destruct (drain (4 * length (sv_chain s)) s Hinv (le_n _)) as (Hch & _); fold d in Hch;
    clearbody d; destruct d as [db sn rows chain]; simpl in Hch; subst chain;
    cbn; by intros [= <-].
Qed.

Lemma create_throws dto s fs r s' fs' :
  service_inv s → rows_wf (area_geometry_rows (areas (created dto (sv_db s)))) →
  Forall driver_fault fs → run exec_area (create dto) fs s = (r, s', fs') → throws house_exn r.
Proof.
  intros Hinv Hwf Hfs. unfold create. rewrite run_bind, run_await.
  assert (Hcommit : commit (sv_db s) s = s) by (by destruct s).
  assert (Hf : ∀ n, driver_fault (default FOk (head (Nat.iter n tail fs)))).
  { intros n. assert (Hn : Forall driver_fault (Nat.iter n tail fs)).
    { induction n as [|n IH]; [done|]. simpl. by destruct IH. }
    by destruct Hn. }
  pose proof (exec_query_throws _ (SelectGeometryValidity (ca_boundary dto)) (sv_db s) (Hf 0)) as Hq.
  cbn [exec_area Nat.iter] in *.
  destruct (exec_query _ _ (sv_db s)) as [[e|validity] db] eqn:Eq.
  { intros [= <- _ _] e' [= <-]. by destruct (Hq e eq_refl) as [v ->]. }
  assert (db = sv_db s) as -> by (unfold exec_query in Eq; simpl in Eq; destruct (default FOk (head fs)); congruence).
  rewrite Hcommit. destruct (negb validity.1).
  { intros [= <- _ _] e' [= <-]. by apply house_nest. }
  rewrite run_bind, run_await, exec_area_transaction. pose proof (Hf 1) as Hf1. simpl in Hf1.
  pose proof (exec_transaction_throws _ (insert_area dto) (sv_db s) Hf1) as Ht.
  destruct (exec_transaction _ (insert_area dto) (sv_db s)) as [r1 db1] eqn:E.
  apply insert_area_atomic in E. cbn [fst snd] in *.
  assert (Hs1 : service_inv (commit db1 s)).
  { destruct E as [[-> _]| ->]; [by rewrite Hcommit|].
    apply commit_inv; [by apply created_lawful|done]. }
  destruct r1 as [e|area].
  { intros [= <- _ _] e' [= <-]. destruct Ht with (e := e) as [v ->]; [|done..].
    by repeat (apply only_throws_bind; [apply only_throws_await|intros ?]). }
  rewrite run_bind, run_await. cbn [exec_area].
  pose proof (refreshNow_throws _ _ Hs1 (Hf 2)) as Hr. simpl in Hr.
  destruct (refreshNow _ (commit db1 s)) as [[e|[]] s2]; intros [= <- _ _] e' [= <-].
  by destruct (Hr e eq_refl) as [v ->].
Qed.
End handlers.

(** ** The answers of the endpoints *)

(** The listing items and the page they make. *)
Lemma item_json_valid i : valid LogItemDto_doc (item_json i) = true.
Proof. by destruct i as [id u a r [c|]]. Qed.

Lemma page_json_valid p : valid LogsPageResponseDto_doc (page_json p) = true.
Proof.
  assert (Hitems : forallb (valid LogItemDto_doc) (item_json <$> items p) = true).
  { apply forallb_forall. intros v Hv%list_elem_of_In%list_elem_of_fmap.
    destruct Hv as (i & -> & _). apply item_json_valid. }
  unfold page_json. revert Hitems. generalize (item_json <$> items p). intros l Hl.
  destruct (nextCursor p); simpl in *; by rewrite Hl.
Qed.

(** What TypeORM and [JSON.stringify] make of an area: an object with the properties of
    the entity, its date as [toISOString] writes it. *)
Record hydrates (area_json : AreaEntity → jsval) : Prop := {
  hy_id a : get_prop "id" (area_json a) = JStr a.1;
  hy_name a : get_prop "name" (area_json a) = JStr (area_name a.2);
  hy_createdAt a : get_prop "createdAt" (area_json a) = JStr (toISOString (area_created_at a.2));
  hy_boundary a : ∃ fields, get_prop "boundary" (area_json a) = JObj fields;
}.

Lemma get_prop_has k v w : get_prop k v = w → w ≠ JUndefined → has_prop k v = true.
Proof.
  destruct v; simpl; try by intros <-. intros Hw Hne. destruct (assoc_lookup k fields) eqn:E;
    [by apply bool_decide_eq_true|by simplify_eq/=].
Qed.

Lemma area_json_valid area_json a :
  hydrates area_json → valid AreaResponseDto (area_json a) = true.
Proof.
  intros [Hi Hn Hc Hb]. specialize (Hi a). specialize (Hn a). specialize (Hc a).
  destruct (Hb a) as [fields Hf]. destruct (area_json a) as [| | | | | |l] eqn:E; try done.
  unfold AreaResponseDto, class_of. cbn [valid fmap list_fmap fst snd forallb].
  rewrite (get_prop_has "id" _ _ Hi), (get_prop_has "name" _ _ Hn), (get_prop_has _ _ _ Hc),
    (get_prop_has _ _ _ Hf) by done. by rewrite Hi, Hn, Hc, Hf.
Qed.

Section endpoints.
Context `{ValidationPipe} `{BodyParser}.
Context {gis : PostGIS} {rtree : RBush} {pip : PointInPolygon} {text : PgText}.
Variable describe : jsval → string.
Variable num_to_string : number → string.
Variable timestamp : string.
Variable request : Request.
Context `{!ValidationPipeLaws num_to_string} `{!BodyParserLaws} `{!PostGISLaws}.

Lemma rejection_documented c responses arguments :
  mkApiResponse 400 ErrorResponseDto [] ∈ responses →
  documented responses (rejection timestamp request c arguments) = true.
Proof.
  intros Hin. unfold documented. apply existsb_exists. eexists.
  split; [by apply list_elem_of_In|]. unfold matches, rejection.
  cbn [rs_status rs_body rs_headers doc_status doc_schema doc_headers forallb].
  by rewrite error_body_valid by (done || apply message_ok_texts).
Qed.

Lemma published_documented response eventId :
  (rs_status response = num_of_Z 202 ∧
   rs_body response = intercept timestamp JUndefined (num_of_Z 202)
     (JObj [("eventId", JStr eventId)])) ∨
  response = unavailable timestamp (rq_url request) →
  documented report_responses response = true.
Proof.
  intros [[Hs Hb]| ->]; [|done]. apply existsb_exists. eexists. split; [by left|].
  unfold matches. by rewrite Hs, Hb.
Qed.

(** A refusal is an error in the house shape. *)
Lemma refused_error status message :
  (400 ≤ status < 600)%Z → error_answer (refused timestamp request status message) = true.
Proof.
  intros Hs. destruct (status_facts status Hs) as [Hf Hg]. unfold error_answer, refused.
  cbn [rs_status rs_body]. by rewrite Hg, error_body_valid.
Qed.

Lemma refused_documented responses message :
  mkApiResponse 400 ErrorResponseDto [] ∈ responses →
  documented responses (refused timestamp request 400 message) = true.
Proof.
  intros Hin. unfold documented. apply existsb_exists. eexists.
  split; [by apply list_elem_of_In|]. unfold matches, refused.
  cbn [rs_status rs_body rs_headers doc_status doc_schema doc_headers forallb].
  by rewrite error_body_valid.
Qed.

(** C17. Which answers of [POST /locations] are documented: whatever body a client sends
    as JSON, an array apart, and whatever befalls the publish, the status is one of 202,
    400, 422 and 503, the body conforms to the schema documented for it, the 202 in its
    envelope, and the 503 has its [Retry-After], unless the body is over the parser's
    limit: that is answered 413, which is not documented, in the house shape of errors. *)
Theorem post_locations_documented raw fs w eventId uuids :
  json_array raw = false → iw_uuids w = eventId :: uuids → Forall publisher_fault fs →
  ∃ response w', POST_locations describe num_to_string timestamp request raw fs w =
      Some (response, w') ∧
    if (Z.of_nat (String.length raw) <=? body_limit)%Z
    then documented report_responses response = true
    else rs_status response = num_of_Z 413 ∧ error_answer response = true ∧
      documented report_responses response = false.
Proof.
  intros Ha Hu Hfs. unfold POST_locations.
  destruct (with_body_cases describe timestamp request raw Ha)
    as [(status & m & Hst & _ & Hw)|(Hlen & body & Hb & Hw)].
  { rewrite (Hw LocationsController 202%Z _ (λ r, (r, w))). do 2 eexists. split; [done|].
    destruct Hst as [[Hl ->]|[Hl ->]].
    - rewrite (proj2 (Z.leb_le _ _)) by done. apply refused_documented. by right; left.
    - rewrite (proj2 (Z.leb_gt _ _)) by done. split; [done|]. by split; [apply refused_error|]. }
  rewrite Hw, (proj2 (Z.leb_le _ _)) by done.
  destruct (piped_cases num_to_string ReportLocationDto_class report_view report_ok body)
    as [[Hc ->]|(Hc & dto & Hok & ->)]; [by apply (report_accepted num_to_string)|..].
  { do 2 eexists. split; [done|]. apply rejection_documented. by right; left. }
  pose proof (post_locations_outcomes describe num_to_string timestamp request dto fs w eventId
    uuids Hu Hfs) as Hout. unfold post_locations, respond, respond_to, answer in *.
  destruct (accuracy_exceeded dto) eqn:Hacc.
  { unfold LocationsController_report, accept. rewrite Hacc. do 2 eexists. by split. }
  destruct (run exec_ingest (LocationsController_report num_to_string dto) fs w) as [[r w'] fs'].
  do 2 eexists. split; [done|].
  cbv zeta in Hout. apply (published_documented _ eventId).
  destruct r as [e|id]; cbn [exn_map mbind exn_mbind] in *; naive_solver.
Qed.

(** The answer of a handler, from its outcome: documented when its data conforms, an
    error answer when its exception is one of the house. *)
Lemma respond_shape c status responses model (r : exn + jsval) :
  skip_metadata c = JUndefined → num_isFinite (num_of_Z status) = true →
  num_eq (num_of_Z status) (num_of_Z status) = true →
  mkApiResponse status
    (AllOf [ResponseEnvelopeDto; Properties [("data", model)] ["data"]]) [] ∈ responses →
  match r with inl e => house_exn e | inr data => valid model data = true end →
  documented responses (respond_to describe timestamp request c status r) = true ∨
  error_answer (respond_to describe timestamp request c status r) = true.
Proof.
  intros ? ? ? ? Hr. destruct r as [e|data]; [right; by apply house_exn_answer|left].
  by eapply answered_data.
Qed.

Variable area_json : AreaEntity → jsval.
Hypothesis area_json_ok : hydrates area_json.

Lemma create_shape raw fs s :
  json_array raw = false → service_inv s → Forall driver_fault fs →
  ∃ response s', POST_areas describe timestamp request area_json raw fs s =
      Some (response, s') ∧
    (documented create_responses response = true ∨ error_answer response = true).
Proof.
  intros Ha Hinv Hfs. unfold POST_areas.
  destruct (with_body_cases describe timestamp request raw Ha)
    as [(status & m & Hst & _ & Hw)|(Hlen & body & Hb & Hw)].
  { rewrite (Hw AreasController 201%Z _ (λ r, (r, s))). do 2 eexists. split; [done|]. right.
    apply refused_error. lia. }
  rewrite Hw.
  destruct (piped_cases num_to_string CreateAreaDto_class create_view create_ok body)
    as [[Hc ->]|(Hc & dto & Hok & ->)]; [by apply (create_accepted num_to_string)|..].
  { do 2 eexists. split; [done|]. left. apply rejection_documented. by right; left. }
  destruct (run exec_area (AreasController_create dto) fs s) as [[r s'] fs'] eqn:Hrun.
  do 2 eexists. split; [done|]. apply (respond_shape _ _ _ AreaResponseDto); [done..|by left|].
  apply create_throws in Hrun; [|done| |done].
  - destruct r as [e|area]; [by apply Hrun|]. by apply area_json_valid.
  - apply created_rows_wf; [done|]. apply (si_rows_wf _ Hinv).
Qed.

Lemma findAll_shape query f db :
  query_object query → driver_fault f →
  ∃ response, GET_areas describe timestamp request area_json query f db = Some response ∧
    (documented findAll_responses response = true ∨ error_answer response = true).
Proof.
  intros Hq Hf. unfold GET_areas.
  destruct (piped_cases num_to_string ListAreasQueryDto_class areas_query_view
    (λ q, list_query_valid q = true) query) as [[Hc ->]|(Hc & q & Hok & ->)];
    [intros v; by apply (areas_query_accepted num_to_string)|..].
  { eexists. split; [done|]. left. apply rejection_documented. by right; left. }
  eexists. split; [done|].
  apply (respond_shape _ _ _ (ArrayOf AreaResponseDto)); [done..|by left|].
  unfold AreasController_findAll, findAll_under. destruct (raised f) as [e|] eqn:Hr.
  { by destruct (driver_fault_raised f e Hf Hr) as [v ->]. }
  unfold findAll. destruct (fits_bigint (la_offset q)); [|done].
  cbn [exn_map mbind exn_mbind valid]. apply forallb_forall.
  intros v Hv%list_elem_of_In%list_elem_of_fmap. destruct Hv as (a & -> & _).
  by apply area_json_valid.
Qed.

Lemma list_shape query f table :
  (∀ t e, pg_timestamptz t = inl e ∨ pg_uuid t = inl e → thrown e) → query_object query →
  driver_fault f →
  ∃ response, GET_logs describe timestamp request query f table = Some response ∧
    (documented list_responses response = true ∨ error_answer response = true).
Proof.
  intros Hpg Hq Hf. unfold GET_logs.
  destruct (piped_cases num_to_string ListLogsQueryDto_class logs_query_view logs_query_ok query)
    as [[Hc ->]|(Hc & q & Hok & ->)]; [intros v; by apply (logs_query_accepted num_to_string)|..].
  { eexists. split; [done|]. left. apply rejection_documented. by right; left. }
  eexists. split; [done|].
  apply (respond_shape _ _ _ LogsPageResponseDto_doc); [done..|by left|].
  pose proof (list_logs_under_cases q f table) as Hcases. unfold LogsController_list.
  destruct (list_logs_under f q table) as [e|page]; cbn [exn_map mbind exn_mbind];
    [|apply page_json_valid].
  destruct Hcases as [(raw & _ & _ & ->)|[Hr|(_ & cs & c & _ & _ & Ht)]]; [by apply house_nest|..].
  - by destruct (driver_fault_raised f e Hf Hr) as [v ->].
  - destruct (condition_test_fails c e Ht) as [t Hte]. by destruct (Hpg t e Hte) as [v ->].
Qed.

(** C18. What [POST /areas], [GET /areas] and [GET /logs] answer has the documented shape,
    whatever a client sends (a JSON array for a body apart) and whatever befalls the
    database: the documented response of a success or a rejection, in its envelope or in
    the house shape of errors; and an answer with a status that is not documented is an
    error, of status 400 or above, in the house shape all the same. *)
Theorem answers_have_documented_shape :
  (∀ t e, pg_timestamptz t = inl e ∨ pg_uuid t = inl e → thrown e) →
  (∀ raw fs s, json_array raw = false → service_inv s → Forall driver_fault fs →
     ∃ response s', POST_areas describe timestamp request area_json raw fs s =
         Some (response, s') ∧
       (documented create_responses response = true ∨ error_answer response = true)) ∧
  (∀ query f db, query_object query → driver_fault f →
     ∃ response, GET_areas describe timestamp request area_json query f db = Some response ∧
       (documented findAll_responses response = true ∨ error_answer response = true)) ∧
  (∀ query f table, query_object query → driver_fault f →
     ∃ response, GET_logs describe timestamp request query f table = Some response ∧
       (documented list_responses response = true ∨ error_answer response = true)).
Proof.
  intros Hpg. split_and!; [apply create_shape|apply findAll_shape|].
  intros query f table. by apply list_shape.
Qed.

(** A statement that the server cancels is answered 503 with [Retry-After]; the areas'
    endpoints document neither. *)
Lemma timeout_of_areas_undocumented raw body s v :
  parse_body raw = inr body →
  conforms num_to_string CreateAreaDto_class body = true → isTransientTimeout v = true →
  asExposedClientError v = None →
  ∃ response s', POST_areas describe timestamp request area_json raw [FFail (Thrown v)] s =
      Some (response, s') ∧
    response = unavailable timestamp (rq_url request) ∧
    documented create_responses response = false.
Proof.
  intros Hb Hc Ht Hx. unfold POST_areas, with_body. rewrite Hb.
  destruct (piped_cases num_to_string CreateAreaDto_class create_view create_ok body)
    as [[Hc' _]|(_ & dto & Hok & ->)];
    [by apply (create_accepted num_to_string)|congruence|].
  unfold AreasController_create, create. rewrite run_bind, run_await. cbn [exec_area exec_query head
    default tail from_option id]. do 2 eexists. split; [done|].
  unfold respond_to, answer. cbn [exn_map mbind exn_mbind filter_catch]. rewrite Hx, Ht. by split.
Qed.
End endpoints.

(** ** Witnesses *)

#[local] Existing Instances fx_pipe fx_pipe_laws fx_parser fx_parser_laws fx_postgis
  fx_postgis_laws fx_rbush fx_pip fx_text.

(** An area as it is sent, with one property the documentation does not name. *)
Definition fx_area_object (a : AreaEntity) : jsval :=
  JObj [("id", JStr a.1); ("name", JStr (area_name a.2));
        ("createdAt", JStr (toISOString (area_created_at a.2)));
        ("boundary", JObj [("type", JStr "Polygon")]); ("note", JNull)].

Lemma fx_area_object_hydrates : hydrates fx_area_object.
Proof. split; intros a; [done..|by eexists]. Qed.

(** Values that do not conform: a bare object outside of the envelope, an error body that
    lacks its path, an area that is [null], a message that is a number. *)
Example nonconforming_values :
  let timestamp := ("timestamp", JStr "now") in
  forallb (λ p, negb (valid p.1 p.2))
    [(doc_schema (ApiEnvelopedResponse LocationAcceptedDto (Some 202%Z) false),
      JObj [("eventId", JStr "e1")]);
     (ErrorResponseDto, JObj [("statusCode", JNum (num_of_Z 400)); timestamp; ("message", JStr "")]);
     (ArrayOf AreaResponseDto, JArr [JNull]);
     (ErrorResponseDto, error_body "now" (num_of_Z 400) "/" (JNum (num_of_Z 1)))] = true.
Proof. vm_compute. done. Qed.

Lemma post_locations_documented_witness :
  ∃ response w', POST_locations fx_text_of fx_number "now" fx_request "{report}"
      [FOk; FOk; FLost (MqUnavailableError "confirm not received within 5000ms")] fx_ingest =
      Some (response, w') ∧
    documented report_responses response = true.
Proof.
  destruct (post_locations_documented fx_text_of fx_number "now" fx_request "{report}"
    [FOk; FOk; FLost (MqUnavailableError "confirm not received within 5000ms")] fx_ingest
    "e1" ["e2"]%string) as (response & w' & Hp & Hd); [reflexivity|reflexivity| |].
  - repeat constructor. by exists "confirm not received within 5000ms".
  - exists response, w'. split; [exact Hp|].
    assert (Hlen : (Z.of_nat (String.length "{report}") <=? body_limit)%Z = true)
      by (vm_compute; reflexivity).
    rewrite Hlen in Hd. exact Hd.
Defined.

Lemma fx_refusals_thrown t e : pg_timestamptz t = inl e ∨ pg_uuid t = inl e → thrown e.
Proof. intros Ht. destruct (fx_refusals_driver t e Ht) as (v & -> & _). by exists v. Qed.

Lemma answers_have_documented_shape_witness :
  ∃ response s', POST_areas fx_text_of "now" fx_request fx_area_object "{area}"
      [FOk; FAt 1 (QueryFailedError "57014" None "canceling statement")] fx_booted =
      Some (response, s') ∧
    (documented create_responses response = true ∨ error_answer response = true).
Proof.
  apply (proj1 (answers_have_documented_shape fx_text_of fx_number "now" fx_request
    fx_area_object fx_area_object_hydrates fx_refusals_thrown)); [reflexivity|..].
  - apply reachable_service_inv, fx_booted_reachable.
  - repeat constructor. by eexists.
Defined.
