(* ===== verification/Wiring.v ===== *)
(** The wiring of the two processes: the modules of [src/src] with the constructors of
    what they provide, how Nest resolves the dependencies and orders the hooks, and the
    entry points [src/src/main.ts] and [src/src/worker-main.ts].

    What a package's module exports, and whether it has hooks, is the class [Packages]
    with the laws of their documentation. *)

From S2P Require Import Prelude Js Prog Chains Lifecycle.

(** ** Tokens and injectables *)

(** [ConfigNamespace]. *)
Inductive ConfigNamespace := NsApp | NsAreas | NsDatabase | NsMq | NsRedis | NsWorker.

(** What a constructor can ask for: a class of the application, the key of a
    configuration namespace, a repository, or a token of a package. *)
Inductive token :=
| Class_ (name : string)
| ConfigKey (namespace : ConfigNamespace)
| RepositoryOf (entity : string)
| DataSource
| HealthCheckService
| TypeOrmHealthIndicator
| REDIS_CLIENT
| APP_FILTER
| APP_INTERCEPTOR
| APP_PIPE
| Reflector.

#[export] Instance ConfigNamespace_eq_dec : EqDecision ConfigNamespace.
Proof. solve_decision. Defined.
#[export] Instance token_eq_dec : EqDecision token.
Proof. solve_decision. Defined.

(** One parameter of a constructor; [@Optional()] ones may stay undefined. *)
Record Dependency := { dep_token : token; dep_optional : bool }.

Definition needs (t : token) : Dependency := {| dep_token := t; dep_optional := false |}.
Definition may_have (t : token) : Dependency := {| dep_token := t; dep_optional := true |}.

Inductive Hook := onApplicationBootstrap | onModuleDestroy | onApplicationShutdown.

#[export] Instance Hook_eq_dec : EqDecision Hook.
Proof. solve_decision. Defined.

(** A class or a factory under its token, with its parameters and its hooks. *)
Record Injectable := {
  inj_token : token;
  inj_dependencies : list Dependency;
  inj_hooks : list Hook;
}.

Definition class (name : string) (dependencies : list Dependency) (hooks : list Hook) :
    Injectable :=
  {| inj_token := Class_ name; inj_dependencies := dependencies; inj_hooks := hooks |}.

(** The constructors of the application. *)
Definition AreasController : Injectable :=
  class "AreasController" [needs (Class_ "AreasService")] [].
Definition AreasService : Injectable :=
  class "AreasService" [needs (RepositoryOf "AreaEntity"); needs (Class_ "AreaSnapshotService")] [].
Definition AreaSnapshotService : Injectable :=
  class "AreaSnapshotService" [needs DataSource; needs (ConfigKey NsAreas)]
    [onApplicationBootstrap; onModuleDestroy].
Definition HealthController : Injectable :=
  class "HealthController" [needs HealthCheckService; needs TypeOrmHealthIndicator] [].
Definition LocationsController : Injectable :=
  class "LocationsController" [needs (Class_ "LocationIngestService")] [].
Definition LocationIngestService : Injectable :=
  class "LocationIngestService" [needs (Class_ "MqPublisherService")] [].
Definition LocationsService : Injectable :=
  class "LocationsService"
    [needs (Class_ "AreasService"); needs (Class_ "PresenceCacheService");
     needs (Class_ "PresenceMetricsService"); needs DataSource;
     may_have (Class_ "PresenceMemoryService")] [].
Definition LogsController : Injectable :=
  class "LogsController" [needs (Class_ "LogsService")] [].
Definition LogsService : Injectable := class "LogsService" [needs DataSource] [].
Definition MqPublisherService : Injectable :=
  class "MqPublisherService" [needs (ConfigKey NsMq)]
    [onApplicationBootstrap; onApplicationShutdown].
Definition MetricsController : Injectable :=
  class "MetricsController" [needs (Class_ "PresenceMetricsService")] [].
Definition PresenceCacheService : Injectable :=
  class "PresenceCacheService" [needs REDIS_CLIENT; needs (ConfigKey NsRedis)] [].
Definition PresenceMetricsService : Injectable := class "PresenceMetricsService" [] [].
Definition PresenceMemoryService : Injectable := class "PresenceMemoryService" [] [].
Definition WorkerConsumerService : Injectable :=
  class "WorkerConsumerService"
    [needs (Class_ "LocationsService"); needs (ConfigKey NsMq); needs (ConfigKey NsWorker);
     needs DataSource] [onApplicationBootstrap; onApplicationShutdown].

(** ** Modules *)

(** A module of the application, the class with its parameters and hooks first; or a
    package's module: what it exports, what its factory injects, whether it has hooks. *)
Inductive NestModule :=
| Module_ (module_class : Injectable) (global : bool) (imports : list NestModule)
    (controllers providers : list Injectable) (exports : list token)
| Package (name : string) (global : bool) (exports : token → bool) (inject : list Dependency)
    (hooks : list Hook).

Definition m_imports (m : NestModule) : list NestModule :=
  match m with Module_ _ _ imports _ _ _ => imports | Package _ _ _ _ _ => [] end.
Definition m_global (m : NestModule) : bool :=
  match m with Module_ _ global _ _ _ _ | Package _ global _ _ _ => global end.
Definition m_controllers (m : NestModule) : list Injectable :=
  match m with Module_ _ _ _ controllers _ _ => controllers | Package _ _ _ _ _ => [] end.
Definition m_providers (m : NestModule) : list Injectable :=
  match m with Module_ _ _ _ _ providers _ => providers | Package _ _ _ _ _ => [] end.
Definition m_exports (m : NestModule) (t : token) : bool :=
  match m with
  | Module_ _ _ _ _ _ exports => bool_decide (t ∈ exports)
  | Package _ _ exports _ _ => exports t
  end.

(** What Nest instantiates for a module: its class, its providers, its controllers. *)
Definition m_injectables (m : NestModule) : list Injectable :=
  match m with
  | Module_ module_class _ _ controllers providers _ => module_class :: providers ++ controllers
  | Package name _ _ inject hooks =>
      [{| inj_token := Class_ name; inj_dependencies := inject; inj_hooks := hooks |}]
  end.

(** The modules of a process, from its root; a module that is imported often is one. *)
Fixpoint modules_of (m : NestModule) : list NestModule :=
  m :: match m with
       | Module_ _ _ imports _ _ _ => flat_map modules_of imports
       | Package _ _ _ _ _ => []
       end.

(** *** Packages *)

Class Packages := {
  config_exports : list ConfigNamespace → token → bool;
  typeorm_exports : token → bool;
  feature_exports : list string → token → bool;
  terminus_exports : token → bool;
  package_hooks : string → list Hook;
}.

(** Of the tokens the application names: [ConfigModule] exports the keys of the
    namespaces it loads, [TypeOrmModule.forRootAsync] the data source, to everyone,
    [forFeature] the repositories of its entities, and [TerminusModule] its two
    services. *)
Class PackagesLaws `{Packages} : Prop := {
  config_law load t : config_exports load t =
    match t with ConfigKey n => bool_decide (n ∈ load) | _ => false end;
  typeorm_law t : typeorm_exports t = match t with DataSource => true | _ => false end;
  feature_law entities t : feature_exports entities t =
    match t with RepositoryOf e => bool_decide (e ∈ entities) | _ => false end;
  terminus_law t : terminus_exports t =
    match t with HealthCheckService | TypeOrmHealthIndicator => true | _ => false end;
}.

Section modules.
Context `{Packages}.

Definition ConfigModule_forRoot (load : list ConfigNamespace) : NestModule :=
  Package "ConfigModule" true (config_exports load) [] (package_hooks "ConfigModule").
Definition TypeOrmModule_forRootAsync (inject : list Dependency) : NestModule :=
  Package "TypeOrmCoreModule" true typeorm_exports inject (package_hooks "TypeOrmCoreModule").
Definition TypeOrmModule_forFeature (entities : list string) : NestModule :=
  Package "TypeOrmModule" false (feature_exports entities) [] (package_hooks "TypeOrmModule").
Definition TerminusModule : NestModule :=
  Package "TerminusModule" false terminus_exports [] (package_hooks "TerminusModule").

(** *** The modules of the application *)

Definition AreasModule : NestModule :=
  Module_ (class "AreasModule" [] []) false [TypeOrmModule_forFeature ["AreaEntity"]]
    [AreasController] [AreasService; AreaSnapshotService] [Class_ "AreasService"].

Definition HealthModule : NestModule :=
  Module_ (class "HealthModule" [] []) false [TerminusModule] [HealthController] [] [].

Definition LogsModule : NestModule :=
  Module_ (class "LogsModule" [] []) false [] [LogsController] [LogsService] [].

Definition MqModule : NestModule :=
  Module_ (class "MqModule" [] []) false [] [] [MqPublisherService] [Class_ "MqPublisherService"].

Definition PresenceModule : NestModule :=
  Module_ (class "PresenceModule" [] []) false [] [MetricsController]
    [PresenceCacheService; PresenceMetricsService]
    [Class_ "PresenceCacheService"; Class_ "PresenceMetricsService"].

Definition RedisModule : NestModule :=
  Module_ (class "RedisModule" [needs REDIS_CLIENT] [onApplicationShutdown]) true [] []
    [{| inj_token := REDIS_CLIENT; inj_dependencies := [needs (ConfigKey NsRedis)];
        inj_hooks := [] |}] [REDIS_CLIENT].

Definition LocationsModule : NestModule :=
  Module_ (class "LocationsModule" [] []) false [AreasModule; PresenceModule; MqModule]
    [LocationsController] [LocationIngestService; LocationsService] [Class_ "LocationsService"].

Definition AppModule : NestModule :=
  Module_ (class "AppModule" [] []) false
    [ConfigModule_forRoot [NsApp; NsAreas; NsDatabase; NsMq; NsRedis];
     TypeOrmModule_forRootAsync [needs (ConfigKey NsDatabase)];
     RedisModule; AreasModule; LocationsModule; LogsModule; HealthModule]
    [] [{| inj_token := APP_FILTER; inj_dependencies := []; inj_hooks := [] |};
        {| inj_token := APP_INTERCEPTOR; inj_dependencies := [needs Reflector]; inj_hooks := [] |};
        {| inj_token := APP_PIPE; inj_dependencies := []; inj_hooks := [] |}] [].

Definition WorkerModule : NestModule :=
  Module_ (class "WorkerModule" [] []) false
    [ConfigModule_forRoot [NsApp; NsAreas; NsDatabase; NsMq; NsRedis; NsWorker];
     TypeOrmModule_forRootAsync [needs (ConfigKey NsDatabase)];
     RedisModule; AreasModule; PresenceModule]
    [] [LocationsService; WorkerConsumerService; PresenceMemoryService] [].

(** ** Resolution *)

(** Where a module of a process finds a token: in itself, in what its imports export, in
    what global modules export. The reflector is Nest's own and everywhere. *)
Definition own (m : NestModule) (t : token) : bool :=
  existsb (λ i, bool_decide (inj_token i = t)) (m_providers m).

Definition sources (process m : NestModule) (t : token) : list NestModule :=
  (if own m t then [m] else []) ++
  List.filter (λ i, m_exports i t) (m_imports m) ++
  List.filter (λ g, m_global g && m_exports g t) (modules_of process).

Definition built_in (t : token) : bool := bool_decide (t = Reflector).

(** Exactly one module provides the token. *)
Definition resolves (process m : NestModule) (t : token) : Prop :=
  built_in t = true ∨ ∃ p l, sources process m t = p :: l ∧ Forall (p =.) l.

(** The module whose instance is injected; [None] leaves an optional one undefined. *)
Definition injected (process m : NestModule) (t : token) : option NestModule :=
  head (sources process m t).

(** [presenceMemory] of the [LocationsService] that a module provides. *)
Definition presence_memory (process m : NestModule) : bool :=
  match injected process m (Class_ "PresenceMemoryService") with Some _ => true | None => false end.

(** The classes of a process that ask for a token. *)
Definition dependents (process : NestModule) (t : token) : list token :=
  inj_token <$> List.filter
    (λ i, existsb (λ d, bool_decide (dep_token d = t)) (inj_dependencies i))
    (flat_map m_injectables (modules_of process)).

(** One class uses another, directly or through others. *)
Definition depends (process : NestModule) (t t' : token) : Prop := t ∈ dependents process t'.
End modules.

Lemma import_in_modules i m : i ∈ m_imports m → i ∈ modules_of m.
Proof.
  destruct m as [c g imports cs ps ex|n g ex inj hs]; simpl; [|by intros ?%not_elem_of_nil].
  intros Hi. right. apply list_elem_of_In, in_flat_map. exists i.
  split; [by apply list_elem_of_In|]. destruct i; by left.
Qed.

Lemma modules_of_Forall (P : NestModule → Prop) m :
  P m → Forall (λ i, Forall P (modules_of i)) (m_imports m) → Forall P (modules_of m).
Proof.
  intros Hm Hi. destruct m as [c g imports cs ps ex|n g ex inj hs]; simpl in *;
    (apply Forall_cons_2; [done|]); [|apply Forall_nil_2].
  clear Hm. induction Hi; simpl; [apply Forall_nil_2|]. by apply Forall_app_2.
Qed.

(** ** Every dependency resolves *)

Section resolution.
Context `{PackagesLaws}.

(** Evaluate where a token comes from; the packages answer by their laws. *)
Ltac decide_tests :=
  repeat match goal with
  | |- context [bool_decide ?P] =>
      let b := eval vm_compute in (bool_decide P) in change (bool_decide P) with b
  end.

Ltac evaluate_sources :=
  repeat ((progress cbn -[config_exports typeorm_exports feature_exports terminus_exports
                          package_hooks bool_decide])
          || (progress rewrite ?config_law, ?typeorm_law, ?feature_law, ?terminus_law)
          || (progress decide_tests)).

Ltac resolve_dependency :=
  first [left; reflexivity
        | right; unfold sources, own; evaluate_sources;
          eexists _, _; split; [reflexivity|];
          repeat (apply Forall_cons_2; [reflexivity|]); apply Forall_nil_2].

Definition well_wired (process m : NestModule) : Prop :=
  Forall (λ i, Forall (λ d, dep_optional d = false → resolves process m (dep_token d))
    (inj_dependencies i)) (m_injectables m) ∧
  ∀ t, match m with
       | Module_ _ _ _ _ _ exports => t ∈ exports → own m t = true
       | Package _ _ _ _ _ => True
       end.

Ltac wire :=
  split;
  [repeat (apply Forall_cons_2 || apply Forall_nil_2);
   let Ho := fresh in intros Ho; first [discriminate Ho|resolve_dependency]
  |intros t; cbn;
   first [exact I
         | let Ht := fresh in intros Ht;
           repeat (apply elem_of_cons in Ht as [->|Ht]; [reflexivity|]);
           by apply not_elem_of_nil in Ht]].

(** Every module of a process is well wired, one by one. *)
Definition process_wired (process : NestModule) : Prop :=
  Forall (well_wired process) (modules_of process).

Ltac wire_all :=
  apply modules_of_Forall;
  [wire|cbn [m_imports]; repeat (apply Forall_cons_2; [wire_all|]); apply Forall_nil_2].

Lemma api_wired : process_wired AppModule.
Proof. wire_all. Qed.

Lemma worker_wired : process_wired WorkerModule.
Proof. wire_all. Qed.

(** C19. The two processes are wired: every parameter that a class or a factory of theirs
    requires is provided by exactly one module it can see, so that nothing is missing at
    boot and every class shares the one instance; and every module exports only what it
    provides. *)
Theorem processes_wired process m :
  process = AppModule ∨ process = WorkerModule → m ∈ modules_of process → well_wired process m.
Proof.
  intros [->| ->]; revert m; apply Forall_forall; [apply api_wired|apply worker_wired].
Qed.

(** ** The presence memory *)

Ltac no_memory := apply modules_of_Forall;
  [unfold presence_memory, injected, sources, own; evaluate_sources; reflexivity
  |cbn [m_imports]; repeat (apply Forall_cons_2; [no_memory|]); apply Forall_nil_2].

(** The presence memory is in the worker and nowhere else: the [LocationsService] of
    the worker is given one, and no module of the API process can see any, so that the
    processor of the worker runs with the memory and that of the API without. *)
Theorem memory_only_in_worker :
  presence_memory WorkerModule WorkerModule = true ∧
  ∀ m, m ∈ modules_of AppModule → presence_memory AppModule m = false.
Proof.
  split; [unfold presence_memory, injected, sources, own; by evaluate_sources|].
  apply Forall_forall. no_memory.
Qed.
End resolution.

(** ** The entry points *)

(** The statements of [bootstrap()] of the two entry points, in their order. *)
Inductive boot_step :=
| CreateApplication (root : string)
| CreateApplicationContext (root : string)
| UseMiddleware (name : string)
| SetupDocs (path : string)
| EnableShutdownHooks
| ReadPort (namespace : ConfigNamespace)
| Listen.

Definition SWAGGER_PATH : string := "docs".

Definition main : list boot_step :=
  [CreateApplication "AppModule"; UseMiddleware "helmet"; UseMiddleware "compression";
   SetupDocs SWAGGER_PATH; EnableShutdownHooks; ReadPort NsApp; Listen].

Definition worker_main : list boot_step :=
  [CreateApplicationContext "WorkerModule"; EnableShutdownHooks].

(** The step that initializes the modules and calls the bootstrap hooks: listening, or
    creating a context. *)
Definition initializes (s : boot_step) : bool :=
  match s with Listen | CreateApplicationContext _ => true | _ => false end.

(** Whether a signal that comes during the [i]-th statement, or after the last, calls the
    shutdown hooks: they have been enabled by then. *)
Definition signal_handled (steps : list boot_step) (i : nat) : Prop :=
  EnableShutdownHooks ∈ take i steps.

Definition booted_before (steps : list boot_step) (i : nat) : Prop :=
  Exists (λ s, initializes s = true) (take i steps).

(** ** The hooks *)

Section hooks.
Context `{PackagesLaws}.

(** The classes of a module that implement a hook. *)
Definition hook_classes (h : Hook) (m : NestModule) : list token :=
  inj_token <$> List.filter (λ i, bool_decide (h ∈ inj_hooks i)) (m_injectables m).

(** [x] stands before [y]. *)
Definition before {A} (x y : A) (l : list A) : Prop :=
  ∃ l1 l2 l3, l = l1 ++ x :: l2 ++ y :: l3.

(** The order in which Nest 11 calls the bootstrap hooks of the modules of a process:
    what a module imports comes before it, and global modules come before all others. *)
Record lawful_order (process : NestModule) (order : list NestModule) : Prop := {
  lo_modules m : m ∈ order ↔ m ∈ modules_of process;
  lo_NoDup : NoDup order;
  lo_imports m i : m ∈ order → i ∈ m_imports m → before i m order;
  lo_globals g m : g ∈ order → m ∈ order → m_global g = true → m_global m = false →
    before g m order;
}.

(** Module after module: the hooks of a module are called together, the next module waits
    until they have resolved, and one that rejects ends the matter. [ok] says which
    classes' hooks resolve. The classes called, and whether all resolved. *)
Fixpoint call_hooks (h : Hook) (ok : token → bool) (order : list NestModule) :
    list token * bool :=
  match order with
  | [] => ([], true)
  | m :: order =>
      if forallb ok (hook_classes h m)
      then let '(called, all) := call_hooks h ok order in (hook_classes h m ++ called, all)
      else (hook_classes h m, false)
  end.

(** Booting calls the bootstrap hooks; closing calls the destroy hooks and then the
    shutdown hooks, both in the reversed order. *)
Definition boot (ok : token → bool) (order : list NestModule) : list token * bool :=
  call_hooks onApplicationBootstrap ok order.

Definition close (destroyed ok : token → bool) (order : list NestModule) :
    list (Hook * token) * bool :=
  let '(d, all) := call_hooks onModuleDestroy destroyed (reverse order) in
  if all then
    let '(s, all) := call_hooks onApplicationShutdown ok (reverse order) in
    (((onModuleDestroy,.) <$> d) ++ ((onApplicationShutdown,.) <$> s), all)
  else ((onModuleDestroy,.) <$> d, false).

(** *** Lemmas *)

Lemma before_reverse {A} (x y : A) l : before x y l → before y x (reverse l).
Proof.
  intros (l1 & l2 & l3 & ->). exists (reverse l3), (reverse l2), (reverse l1).
  rewrite !reverse_app, !reverse_cons, !reverse_app, !reverse_cons. by simplify_list_eq.
Qed.

Lemma split_unique {A} (y : A) q r pre post :
  NoDup (q ++ y :: r) → q ++ y :: r = pre ++ y :: post → q = pre.
Proof.
  revert pre. induction q as [|w q IH]; intros [|z pre] Hnd Heq; simplify_eq/=; [done|..].
  - apply NoDup_cons in Hnd as [Hn _]. destruct Hn. apply elem_of_app. right. left.
  - apply NoDup_cons in Hnd as [Hn _]. destruct Hn. apply elem_of_app. right. left.
  - apply NoDup_cons in Hnd as [_ Hnd]. f_equal. by apply IH.
Qed.

Lemma before_pre {A} (x y : A) l pre post :
  NoDup l → before x y l → l = pre ++ y :: post → x ∈ pre.
Proof.
  intros Hnd (l1 & l2 & l3 & ->) Hpre.
  change (x :: l2 ++ y :: l3) with ((x :: l2) ++ y :: l3) in *.
  rewrite app_assoc in *. apply split_unique in Hpre as <-; [|done].
  apply elem_of_app. right. left.
Qed.

(** A hook is called when those of all the modules before its own have resolved. *)
Lemma called_after h ok order t :
  t ∈ (call_hooks h ok order).1 →
  ∃ pre m post, order = pre ++ m :: post ∧ t ∈ hook_classes h m ∧
    ∀ i t', i ∈ pre → t' ∈ hook_classes h i → ok t' = true.
Proof.
  induction order as [|m order IH]; simpl; [by intros ?%not_elem_of_nil|].
  destruct (forallb ok (hook_classes h m)) eqn:Hm; simpl.
  - destruct (call_hooks h ok order) as [called all]. simpl in *.
    intros [Ht|Ht]%elem_of_app.
    { exists [], m, order. split_and!; [done..|]. by intros ? ? ?%not_elem_of_nil. }
    destruct (IH Ht) as (pre & m' & post & -> & Hm' & Hpre).
    exists (m :: pre), m', post. split_and!; [done|done|].
    intros i t' [->|Hi]%elem_of_cons Ht'; [|by eapply Hpre].
    rewrite forallb_forall in Hm. by apply Hm, list_elem_of_In.
  - intros Ht. exists [], m, order. split_and!; [done..|]. by intros ? ? ?%not_elem_of_nil.
Qed.

(** A module's hook waits for the hooks of a module before it. *)
Lemma hook_waits h ok order m i t t' :
  NoDup order → before i m order → (∀ m', m' ∈ order → t ∈ hook_classes h m' → m' = m) →
  t' ∈ hook_classes h i → t ∈ (call_hooks h ok order).1 → ok t' = true.
Proof.
  intros Hnd Hb Huniq Ht' (pre & m' & post & He & Hm & Hpre)%called_after.
  assert (m' = m) as -> by (apply Huniq; [rewrite He; set_solver|done]).
  eapply Hpre; [|done]. by eapply before_pre.
Qed.

Lemma all_called h ok order :
  (call_hooks h ok order).2 = true → ∀ m t, m ∈ order → t ∈ hook_classes h m → ok t = true.
Proof.
  induction order as [|m order IH]; simpl; [by intros _ ? ? ?%not_elem_of_nil|].
  destruct (forallb ok (hook_classes h m)) eqn:Hm; [|done].
  destruct (call_hooks h ok order) as [called all]. simpl in *. intros -> m' t [->|Hin]%elem_of_cons Ht.
  - rewrite forallb_forall in Hm. by apply Hm, list_elem_of_In.
  - by eapply IH.
Qed.

End hooks.

(** *** What the order means for the processes *)

Section processes.
Context `{PackagesLaws}.

Lemma hook_class_injectable h m t :
  t ∈ hook_classes h m → t ∈ inj_token <$> m_injectables m.
Proof.
  unfold hook_classes. rewrite !list_elem_of_fmap. intros (i & -> & Hi).
  exists i. split; [done|]. apply list_elem_of_In, filter_In in Hi as [Hi _].
  by apply list_elem_of_In.
Qed.

Ltac only_module := apply modules_of_Forall;
  [let Hin := fresh in intros Hin%hook_class_injectable; cbn in Hin;
   repeat (apply elem_of_cons in Hin as [Hin|Hin]; [first [discriminate Hin|reflexivity]|]);
   by apply not_elem_of_nil in Hin
  |cbn [m_imports]; repeat (apply Forall_cons_2; [only_module|]); apply Forall_nil_2].

Lemma consumer_only_there h :
  Forall (λ m, Class_ "WorkerConsumerService" ∈ hook_classes h m → m = WorkerModule)
    (modules_of WorkerModule).
Proof. only_module. Qed.

Lemma redis_only_there h :
  Forall (λ m, Class_ "RedisModule" ∈ hook_classes h m → m = RedisModule)
    (modules_of WorkerModule).
Proof. only_module. Qed.

Lemma pool_only_there h :
  Forall (λ m, Class_ "TypeOrmCoreModule" ∈ hook_classes h m →
    m = TypeOrmModule_forRootAsync [needs (ConfigKey NsDatabase)]) (modules_of WorkerModule).
Proof. only_module. Qed.

Lemma worker_imports i order :
  lawful_order WorkerModule order → i ∈ m_imports WorkerModule → before i WorkerModule order.
Proof. intros Hl Hi. apply (lo_imports _ _ Hl); [|done]. apply (lo_modules _ _ Hl). by left. Qed.

(** C16. The worker takes no message before it can evaluate it: in every order of the hooks
    that Nest promises, the hook that connects to the broker and starts the consumers is
    called only after the one that builds the first snapshot of the areas has resolved;
    and when that one rejects the boot fails. *)
Theorem worker_boots_in_order order ok :
  lawful_order WorkerModule order →
  (Class_ "WorkerConsumerService" ∈ (boot ok order).1 → ok (Class_ "AreaSnapshotService") = true) ∧
  (ok (Class_ "AreaSnapshotService") = false → (boot ok order).2 = false).
Proof.
  intros Hl. assert (Ha : AreasModule ∈ m_imports WorkerModule) by (cbn; set_solver).
  assert (Hs : Class_ "AreaSnapshotService" ∈ hook_classes onApplicationBootstrap AreasModule)
    by (vm_compute; left).
  split.
  - intros Hc. eapply hook_waits; [apply (lo_NoDup _ _ Hl)|exact (worker_imports _ _ Hl Ha)| |exact Hs|exact Hc].
    intros m Hm%(lo_modules _ _ Hl).
    exact (proj1 (Forall_forall _ _) (consumer_only_there _) m Hm).
  - intros Hno. destruct (boot ok order).2 eqn:E; [|done].
    enough (ok (Class_ "AreaSnapshotService") = true) by congruence.
    eapply all_called; [exact E| |exact Hs]. by apply (lo_modules _ _ Hl), import_in_modules.
Qed.

Lemma close_called destroyed ok order t :
  (onApplicationShutdown, t) ∈ (close destroyed ok order).1 →
  (call_hooks onModuleDestroy destroyed (reverse order)).2 = true ∧
  t ∈ (call_hooks onApplicationShutdown ok (reverse order)).1.
Proof.
  unfold close. destruct (call_hooks onModuleDestroy _ _) as [d []];
    [destruct (call_hooks onApplicationShutdown _ _) as [l all]|]; cbn [fst snd].
  - rewrite elem_of_app, !list_elem_of_fmap. naive_solver.
  - rewrite list_elem_of_fmap. naive_solver.
Qed.

(** C15. The worker drains before it disconnects: when, closing the worker, Nest calls the
    hook that quits the Redis client or the one that ends the pool of connections, the
    polling of the areas has been stopped, and the consumer's own shutdown hook has ended;
    in every reachable state of the consumer in which it has, the broker delivers nothing
    any more and every message that ever arrived is settled. *)
Theorem worker_drains_before_disconnecting {T} order destroyed ok t partitions prefetch
    (s : Life (T := T)) :
  lawful_order WorkerModule order →
  t = Class_ "RedisModule" ∨ t = Class_ "TypeOrmCoreModule" →
  (onApplicationShutdown, t) ∈ (close destroyed ok order).1 →
  reachable_life partitions prefetch s →
  (ok (Class_ "WorkerConsumerService") = true →
     lf_closing s = true ∧ lf_exited s = false ∧ lf_flow s = None) →
  destroyed (Class_ "AreaSnapshotService") = true ∧
  lf_active s = [] ∧ all_links_settled (lf_chains s).
Proof.
  intros Hl Ht [Hd Hc]%close_called [_ _ Hid _]%reachable_life_inv Hended. split.
  { eapply all_called; [exact Hd| |].
    - apply elem_of_reverse, (lo_modules _ _ Hl), (import_in_modules AreasModule). cbn. set_solver.
    - by vm_compute; left. }
  assert (Hok : ok (Class_ "WorkerConsumerService") = true).
  { assert (Hw : Class_ "WorkerConsumerService" ∈ hook_classes onApplicationShutdown WorkerModule)
      by (vm_compute; left).
    assert (Hrev : ∀ h t' g m, Forall (λ m, t' ∈ hook_classes h m → m = g) (modules_of WorkerModule) →
      m ∈ reverse order → t' ∈ hook_classes h m → m = g).
    { intros h t' g m Hall Hm. rewrite Forall_forall in Hall. apply Hall.
      by apply (lo_modules _ _ Hl), elem_of_reverse. }
    assert (Hnd : NoDup (reverse order)) by (rewrite reverse_Permutation; apply Hl).
    destruct Ht as [-> | ->].
    - eapply (hook_waits _ _ _ RedisModule WorkerModule); [done| | |exact Hw|exact Hc].
      + apply before_reverse, worker_imports; [done|]. cbn. set_solver.
      + intros m. by apply Hrev, redis_only_there.
    - eapply (hook_waits _ _ _ _ WorkerModule); [done| | |exact Hw|exact Hc].
      + apply before_reverse, worker_imports; [done|]. cbn. right; left.
      + intros m. by apply Hrev, pool_only_there. }
  destruct (Hended Hok) as (Hcl & He & Hf). specialize (Hid Hf He). by rewrite Hcl in Hid.
Qed.

(** The API never runs the transition processor: no class of the API process uses
    [LocationsService], directly or through others, and besides it only the controller
    of the metrics uses the counters, so that in the process that answers [GET /metrics]
    nothing ever counts; and the worker, which counts, does not listen. *)
Theorem api_never_reports t :
  (rtc (depends AppModule) t (Class_ "LocationsService") → t = Class_ "LocationsService") ∧
  (depends AppModule t (Class_ "PresenceMetricsService") →
     t = Class_ "LocationsService" ∨ t = Class_ "MetricsController") ∧
  Listen ∉ worker_main.
Proof.
  split_and!.
  - intros [->|(t' & _ & Hd)]%rtc_inv_r; [done|]. unfold depends in Hd.
    assert (E : dependents AppModule (Class_ "LocationsService") = []) by by vm_compute.
    rewrite E in Hd. by apply not_elem_of_nil in Hd.
  - unfold depends. assert (E : dependents AppModule (Class_ "PresenceMetricsService") =
      [Class_ "LocationsService"; Class_ "MetricsController"]) by by vm_compute.
    rewrite E. set_solver.
  - unfold worker_main. set_solver.
Qed.
End processes.

(** *** Signals *)

(** In the worker a shutdown hook is never called before the boot has ended: the hooks are
    enabled once the context is there. In the API they are enabled before it listens, and
    listening is what boots: a signal then calls the shutdown hooks of services whose
    bootstrap hooks are still running. Nothing is registered after listening began. *)
Theorem signals_and_boot :
  (∀ i, signal_handled worker_main i → booted_before worker_main i) ∧
  (main !! 6 = Some Listen ∧ signal_handled main 6 ∧ ¬ booted_before main 6) ∧
  ∀ i s, main !! i = Some s → s ≠ Listen → s ∈ take 6 main.
Proof.
  unfold signal_handled, booted_before. split_and!; try done.
  - intros [|[|i]]; simpl; [set_solver..|]. intros _. by left.
  - cbn. set_solver.
  - rewrite Exists_exists. cbn. intros (s & Hs & Hi). set_unfold. naive_solver.
  - intros i s Hi Hs. do 7 (destruct i as [|i]; [cbn in *; simplify_eq/=; set_solver|]).
    by apply lookup_lt_Some in Hi; cbn in Hi; lia.
Qed.

(** ** Witnesses *)

#[local] Instance fx_packages : Packages := {|
  config_exports load t := match t with ConfigKey n => bool_decide (n ∈ load) | _ => false end;
  typeorm_exports t := match t with DataSource => true | _ => false end;
  feature_exports entities t :=
    match t with RepositoryOf e => bool_decide (e ∈ entities) | _ => false end;
  terminus_exports t :=
    match t with HealthCheckService | TypeOrmHealthIndicator => true | _ => false end;
  package_hooks name :=
    if bool_decide (name = "TypeOrmCoreModule") then [onApplicationShutdown] else [];
|}.

#[local] Instance fx_packages_laws : PackagesLaws.
Proof. by split. Qed.

(** An order of the worker's modules that Nest may choose. *)
Definition fx_order : list NestModule :=
  [RedisModule; ConfigModule_forRoot [NsApp; NsAreas; NsDatabase; NsMq; NsRedis; NsWorker];
   TypeOrmModule_forRootAsync [needs (ConfigKey NsDatabase)];
   TypeOrmModule_forFeature ["AreaEntity"]; PresenceModule; AreasModule; WorkerModule].

Lemma lookup_before {A} a b (x y : A) l :
  a < b → l !! a = Some x → l !! b = Some y → before x y l.
Proof.
  intros Hab Hx Hy. exists (take a l), (drop (S a) (take b l)), (drop (S b) l).
  rewrite <- (take_drop b l) at 1. rewrite (drop_S _ _ _ Hy).
  rewrite <- (take_drop a (take b l)) at 1. rewrite (drop_S (take b l) x a).
  - rewrite take_take, Nat.min_l by lia. by rewrite <- app_assoc.
  - by rewrite lookup_take_lt.
Qed.

(** Try every pair of positions below [n]. *)
Ltac before_from a b n :=
  first [eapply (lookup_before a b); [lia|reflexivity|reflexivity]
        |match n with S ?n' => before_from a (S b) n' end].
Ltac solve_before_from a n :=
  first [before_from a (S a) n|match n with S ?n' => solve_before_from (S a) n' end].
Ltac solve_before := solve_before_from 0 6.

Ltac each_of H := repeat (apply elem_of_cons in H as [->|H]); [..|by apply not_elem_of_nil in H].

Lemma fx_order_lawful : lawful_order WorkerModule fx_order.
Proof.
  split.
  - intros m. unfold fx_order. cbn. set_solver.
  - unfold fx_order. repeat (apply NoDup_cons; split; [|]); [..|apply NoDup_nil_2];
      rewrite ?elem_of_cons, ?elem_of_nil; naive_solver.
  - intros m i Hm Hi. each_of Hm; cbn in Hi; each_of Hi; solve_before.
  - intros g m Hg Hm. each_of Hg; each_of Hm; try discriminate; intros _ _; solve_before.
Qed.

Lemma processes_wired_witness : well_wired AppModule LocationsModule.
Proof.
  apply (processes_wired AppModule LocationsModule); [by left|].
  apply import_in_modules. cbn. do 4 right. by left.
Defined.

Lemma memory_only_in_worker_witness :
  presence_memory WorkerModule WorkerModule = true ∧
  ∀ m, m ∈ modules_of AppModule → presence_memory AppModule m = false.
Proof. apply memory_only_in_worker. Defined.

(** The queue does not exist: the consumer's hook rejects, after that of the snapshot. *)
Definition fx_no_topology (t : token) : bool :=
  negb (bool_decide (t = Class_ "WorkerConsumerService")).

Lemma worker_boots_in_order_witness :
  Class_ "WorkerConsumerService" ∈ (boot fx_no_topology fx_order).1 ∧
  (boot fx_no_topology fx_order).2 = false ∧
  fx_no_topology (Class_ "AreaSnapshotService") = true.
Proof.
  assert (Hc : Class_ "WorkerConsumerService" ∈ (boot fx_no_topology fx_order).1)
    by (vm_compute; right; left).
  split; [exact Hc|]. split; [by vm_compute|].
  apply (proj1 (worker_boots_in_order fx_order fx_no_topology fx_order_lawful)). exact Hc.
Defined.

Example close_calls :
  close (λ _, true) (λ _, true) fx_order =
    ([(onModuleDestroy, Class_ "AreaSnapshotService");
      (onApplicationShutdown, Class_ "WorkerConsumerService");
      (onApplicationShutdown, Class_ "TypeOrmCoreModule");
      (onApplicationShutdown, Class_ "RedisModule")], true).
Proof. by vm_compute. Qed.

Lemma worker_drains_before_disconnecting_witness :
  let s := life_after (fx_stopped ++ [Flow FOk; Flow FOk; Flow FOk]) in
  lf_flow s = None ∧ lf_active s = [] ∧ all_links_settled (lf_chains s).
Proof.
  cbv zeta. split; [by vm_compute|].
  apply (worker_drains_before_disconnecting fx_order (λ _, true) (λ _, true)
    (Class_ "RedisModule") [0; 1]%Z 16
    (life_after (fx_stopped ++ [Flow FOk; Flow FOk; Flow FOk])) fx_order_lawful).
  - by left.
  - vm_compute. do 3 right. by left.
  - exists (fx_stopped ++ [Flow FOk; Flow FOk; Flow FOk]). by vm_compute.
  - intros _. by vm_compute.
Defined.

Lemma api_never_reports_witness :
  depends AppModule (Class_ "MetricsController") (Class_ "PresenceMetricsService") ∧
  ¬ rtc (depends AppModule) (Class_ "MetricsController") (Class_ "LocationsService").
Proof.
  split; [by vm_compute; right; left|]. intros Hd.
  by apply (proj1 (api_never_reports (Class_ "MetricsController"))) in Hd.
Defined.
