(* ===== verification/Pipeline.v ===== *)
(** The guarantees of the worker and of the transition processor: what a message, a
    redelivered message, a stream of messages and a report do to the tables. *)

From S2P Require Import Prelude Num Js Prog Spatial Db World Presence Locations.
From S2P Require Import Transition Report ReportAny Ingest Worker WorkerCorrect.
From S2P Require Import Delivery Fixtures.

(** ** Definitions *)

(** The reference for [report]: always the locked transaction, never a hint. *)
Definition report_always (num_to_string : number → string) (dto : ReportLocationDto)
    (recordedAt : Z) : prog ioop LocationReportResponseDto :=
  if accuracy_exceeded dto then Throw (accuracy_error num_to_string dto)
  else
    currentAreaIds ← await (FindCovering (dto_lng dto) (dto_lat dto));
    outcome ← await (Transaction
      (transition dto recordedAt (effective_capturedAt dto) currentAreaIds));
    mret outcome.1.

(** The messages of a stream, with the snapshot's answer for each, as the abstract
    machine sees them: the final state and the settlements. *)
Definition visit_all `{PostGIS} (known : string → bool) (v : Visits)
    (ms : list (nat * LocationEventV1 * list string)) : Visits * list settlement :=
  foldl (λ acc m, let '(o, v') := visit_event known m.1.2 m.2 acc.1 in
                  (v', acc.2 ++ [settlement_of m.1.1 o])) (v, []) ms.

(** The state of a device and its user before anything was seen. *)
Definition fx_visits : Visits := {| v_inside := []; v_log := []; v_seq _ := 0%Z |}.

(** ** Lemmas *)

Section lemmas.
Context `{PostGIS, RedisStore, AreaLookup}.
Variable config : RedisConfig.
Variable num_to_string : number → string.

Lemma transition_stay dto rec cur db :
  no_dedup dto → NoDup cur →
  same_elements cur (presence_of (dto_userId dto) (user_area_presence db)) →
  tx_run (transition dto rec (effective_capturedAt dto) cur) db =
    (inr ({| enteredAreaIds := []; duplicate := false |}, false), db).
Proof.
  intros Hdd Hnd Hs.
  assert (He : entered_of (dto_userId dto) cur db = []).
  { unfold entered_of. rewrite (proj2 (list_minus_nil _ _)); [done|]. intros a. apply Hs. }
  assert (Hd : departed_of (dto_userId dto) cur db = []).
  { unfold departed_of. apply list_minus_nil. intros a. apply Hs. }
  rewrite transition_commits; [|done..|].
  - unfold transition_writes, wrote_anything. by rewrite He, Hd.
  - by apply move_failure_stay.
Qed.

Lemma visit_all_refines u known ms v acc w w0 :
  rep_world u known v w → w_settled w = w_settled w0 ++ acc →
  Forall (λ m, ev_userId m.1.2 = u ∧ NoDup m.2 ∧
    find_covering (w_areas w) (ev_lng m.1.2) (ev_lat m.1.2) = inr m.2) ms →
  let r := foldl (λ acc m, let '(o, v') := visit_event known m.1.2 m.2 acc.1 in
             (v', acc.2 ++ [settlement_of m.1.1 o])) (v, acc) ms in
  let w' := foldl (process_next config num_to_string) w ms.*1 in
  rep_world u known r.1 w' ∧ w_settled w' = w_settled w0 ++ r.2.
Proof.
  revert v acc w. induction ms as [|m ms IH]; intros v acc w Hrep Hset Hms; [done|].
  apply Forall_cons in Hms as [(Hu & Hnd & Hfind) Hms]. cbn [fmap list_fmap foldl]. subst u.
  pose proof (process_next_refines config num_to_string known m.1 m.2 v w Hnd Hfind Hrep)
    as Hstep. cbn [fst snd].
  destruct (visit_event known m.1.2 m.2 v) as [o v']. destruct Hstep as [Hrep' Hset'].
  apply IH; [done| |].
  - by rewrite Hset', Hset, <- app_assoc.
  - by rewrite process_next_areas.
Qed.
End lemmas.

Section properties.
Context `{PostGIS, RedisStore, AreaLookup}.
Variable config : RedisConfig.
Variable num_to_string : number → string.

(** ** One message *)

(** C1. Processing one message, under any schedule of failures of the database, of
    Redis and of the channel (except a lost answer to COMMIT), is atomic and settles
    the delivery at most once, with the message's own tag: the tables are untouched
    or moved exactly as the event says; an [ack] means the event was a duplicate, or
    took effect, or was dropped because its area is gone; anything else leaves a
    retry possible; and the presence memory stays equal to the table. *)
Theorem process_message_atomic tag event cur w fs r w' fs' :
  NoDup cur → coherent (ev_userId event) w →
  accuracy_exceeded (dto_of_event event) = false →
  find_covering (w_areas w) (ev_lng event) (ev_lat event) = inr cur →
  Forall no_lost fs →
  run exec (processEvent config num_to_string tag event) fs w = (r, w', fs') →
  ∃ settled, event_end tag event cur w r w' settled.
Proof.
  intros Hnd Hcoh Hacc Hfind Hfs Hrun.
  pose proof (wp_run exec no_lost _ _ fs w (λ e, ltac:(done)) Hfs
    (processEvent_wp config num_to_string tag event cur w Hnd Hcoh Hacc Hfind)) as Hend.
  by rewrite Hrun in Hend.
Qed.

(** Without failures a fresh, usable message is settled and counted, once: its user
    is moved to the areas that cover the point and the message is acknowledged; or one
    of these areas was deleted meanwhile, and the message is dropped and counted as
    such; or the server does not read its time of capture, and the message is given
    back although nothing will ever make it pass. *)
Theorem process_message_clean tag event cur w r w' fs' :
  NoDup cur → coherent (ev_userId event) w →
  accuracy_exceeded (dto_of_event event) = false →
  find_covering (w_areas w) (ev_lng event) (ev_lat event) = inr cur →
  duplicate_event event w = false →
  run exec (processEvent config num_to_string tag event) [] w = (r, w', fs') →
  clean_end tag event cur (event_failure event cur (w_db w)) w r w'.
Proof.
  intros Hnd Hcoh Hacc Hfind Hdup Hrun.
  pose proof (wp_run exec no_fault _ _ [] w eq_refl (Forall_nil_2 _)
    (processEvent_clean_wp config num_to_string tag event cur w Hnd Hcoh Hacc Hfind Hdup))
    as Hend.
  by rewrite Hrun in Hend.
Qed.

(** ** Redelivery *)

(** C12. A message that is retried has the effect of one delivery at most: of any number
    of attempts of one message in a row, with the same snapshot, under any failures (lost
    COMMIT answers included) and restarts of the worker in between, the tables end
    untouched or moved exactly once. Other messages of the user between two attempts can
    make the message take effect again; [Replay] says exactly when. *)
Theorem redelivery_at_most_once event cur attempts w :
  NoDup cur → find_covering (w_areas w) (ev_lng event) (ev_lat event) = inr cur →
  let w' := foldl (deliver config num_to_string event) w attempts in
  w_db w' = w_db w ∨ event_moved event cur (w_db w) (w_db w').
Proof. intros Hnd Hfind. by apply deliveries_any. Qed.

(** ** A stream of messages *)

(** The worker refines the abstract machine of visits: the messages of one user,
    processed in order, leave in the tables exactly the machine's memberships and its
    log of entries, settle every delivery as the machine says, and keep the
    de-duplication numbers and the presence memory in step with it. *)
Theorem worker_refines_visits u known v ms w :
  rep_world u known v w →
  Forall (λ m, ev_userId m.1.2 = u ∧ NoDup m.2 ∧
    find_covering (w_areas w) (ev_lng m.1.2) (ev_lat m.1.2) = inr m.2) ms →
  let w' := foldl (process_next config num_to_string) w ms.*1 in
  rep_world u known (visit_all known v ms).1 w' ∧
  w_settled w' = w_settled w ++ (visit_all known v ms).2.
Proof.
  intros Hrep Hms. apply visit_all_refines; [done| |done]. by rewrite app_nil_r.
Qed.

(** ** Reports *)

(** C9. The hint is transparent where nothing fails and the presence memory is equal to
    the table: a report of the worker answers and leaves the tables exactly as if every
    report ran the locked transaction, although a report that changes nothing never opens
    one. Processing keeps the memory so through every failure but a lost COMMIT answer;
    [Divergences] shows what a stale memory does. *)
Theorem hint_is_transparent dto rec cur w r w' fs' :
  no_dedup dto → NoDup cur → coherent (dto_userId dto) w →
  find_covering (w_areas w) (dto_lng dto) (dto_lat dto) = inr cur →
  run exec (report true config num_to_string dto rec) [] w = (r, w', fs') →
  (r, w_db w') = prod_map id w_db (run exec (report_always num_to_string dto rec) [] w).1.
Proof.
  intros Hdd Hnd Hcoh Hfind. unfold report_always.
  destruct (accuracy_exceeded dto) eqn:Hacc.
  { unfold report. rewrite Hacc. by intros [= <- <- _]. }
  intros Hrun. pose proof (wp_run exec no_fault _ _ [] w eq_refl (Forall_nil_2 _)
    (report_worker_wp config num_to_string no_fault dto rec cur w Hacc Hfind)) as [Hout _].
  rewrite Hrun in Hout. cbn [fst snd] in Hout.
  rewrite !run_bind. cbn [await run exec default head]. rewrite Hfind. cbn [tail run exec].
  rewrite run_bind. cbn [await run exec default head]. rewrite exec_transaction_ok.
  destruct Hout as [e w' Hwhy Hdb _|w' hint Hdb Hm Hh Hdiff|resp wrote w' hint Htx _ _ _
    |e resp wrote w' f Hok -> _ _]; [|..|by destruct (no_fault_absurd e); exists (FLost e)].
  - destruct Hwhy as [Hbad|[db2 Htx]]; [by apply no_fault_absurd in Hbad|].
    rewrite Htx. simpl. by rewrite Hdb.
  - rewrite transition_stay; [|done..|].
    + simpl. by rewrite Hdb.
    + rewrite Hm in Hh. by eapply differs_hint.
  - by rewrite Htx.
Qed.

(** C10. Whatever the hint says, however stale the cache or the memory is and whatever
    fails, a report leaves the tables untouched (and claims no entry), or its
    authoritative transaction decided: a number already handled writes nothing, and
    otherwise exactly the entries it reports are in the log, one each. *)
Theorem report_never_trusts_hint pm dto rec cur w fs r w' fs' :
  NoDup cur → find_covering (w_areas w) (dto_lng dto) (dto_lat dto) = inr cur →
  run exec (report pm config num_to_string dto rec) fs w = (r, w', fs') →
  (w_db w' = w_db w ∧
     ∀ resp, r = inr resp → resp = no_change ∨
       (device_seen dto (w_db w) = true ∧
        resp = {| enteredAreaIds := []; duplicate := true |})) ∨
  (device_seen dto (w_db w) = false ∧
   moved (dto_userId dto) rec (effective_capturedAt dto) cur
     (recorded dto rec (w_db w)) (w_db w') ∧
   ∀ resp, r = inr resp → duplicate resp = false ∧
     log_view <$> logs (w_db w') =
       (log_view <$> logs (w_db w)) ++
       ((λ a, (dto_userId dto, a, rec, effective_capturedAt dto)) <$> enteredAreaIds resp)).
Proof.
  intros Hnd Hfind Hrun.
  pose proof (wp_run exec any_fault _ _ fs w I (proj2 (Forall_forall _ _) (λ _ _, I))
    (report_any_wp config num_to_string pm dto rec cur w Hfind)) as Hout.
  rewrite Hrun in Hout. cbn [fst snd] in Hout.
  destruct Hout as [[Hdb Hr]|(resp & Hauth & Hr)].
  { left. split; [done|]. intros resp ->. by left. }
  apply authoritative_cases in Hauth as [(Hs & Hdb & ->)|(Hs & -> & Hm)]; [| |done].
  - left. split; [done|]. intros resp ->. by right.
  - right. split_and!; [done..|]. intros resp ->. subst resp. split; [done|].
    rewrite (moved_logs _ _ _ _ _ _ Hm), recorded_logs. unfold entered_of. simpl.
    by rewrite recorded_presence.
Qed.

(** In the parked API path the sequence number of a device makes a report
    idempotent: once a transaction with the number [s] succeeded, a later report of
    that device with a number up to [s] writes nothing, whatever it says, whatever
    hint it starts from and whatever fails. Numbers beyond the precision of a
    JavaScript number are outside of the guarantee. *)
Theorem device_retry_writes_nothing pm dto dto2 rec rec2 cur cur2 db resp w fs r w' fs' s s2 d :
  NoDup cur → authoritative dto rec cur db resp (w_db w) →
  dto_deviceId dto = Some d → dto_seq dto = Some s → (0 ≤ s ≤ two53)%Z →
  dto_userId dto2 = dto_userId dto → dto_deviceId dto2 = Some d →
  dto_seq dto2 = Some s2 → (s2 ≤ s)%Z → NoDup cur2 →
  find_covering (w_areas w) (dto_lng dto2) (dto_lat dto2) = inr cur2 →
  run exec (report pm config num_to_string dto2 rec2) fs w = (r, w', fs') →
  w_db w' = w_db w ∧ ∀ resp, r = inr resp → enteredAreaIds resp = [].
Proof.
  intros Hnd Hauth Hd Hs Hrange Hu Hd2 Hs2 Hle Hnd2 Hfind Hrun.
  assert (Hseen : device_seen dto2 (w_db w) = true).
  { pose proof (authoritative_seen _ _ _ _ _ _ Hnd Hauth) as Hseen.
    rewrite Hd, Hs in Hseen. specialize (Hseen ltac:(by eexists) ltac:(by eexists)).
    revert Hseen. unfold device_seen. rewrite Hd, Hs, Hu, Hd2, Hs2.
    destruct (user_event_state _ !! _); [|done]. rewrite !Z.leb_le. lia. }
  pose proof (wp_run exec any_fault _ _ fs w I (proj2 (Forall_forall _ _) (λ _ _, I))
    (report_any_wp config num_to_string pm dto2 rec2 cur2 w Hfind)) as Hout.
  rewrite Hrun in Hout. cbn [fst snd] in Hout.
  destruct Hout as [[Hdb Hr]|(resp2 & Hauth2 & Hr)].
  { split; [done|]. intros resp2 ->. by rewrite Hr. }
  apply authoritative_cases in Hauth2 as [(_ & Hdb & ->)|(Hn & _)]; [|congruence|done].
  split; [done|]. intros resp2 ->. by rewrite Hr.
Qed.
End properties.

(** ** Witnesses *)

#[local] Existing Instances fx_postgis fx_redis fx_lookup.

(** User "u" at (7, 5), inside both areas; the phone's event number 1. *)
Definition fx_inside : LocationEventV1 := fx_event 7 5 (Some "phone") (Some 1%Z) 5000.
(** The same user, later, in "area-b" only; and outside of everything. *)
Definition fx_leaving : LocationEventV1 := fx_event 12 5 (Some "phone") (Some 2%Z) 6000.
Definition fx_outside : LocationEventV1 := fx_event 40 40 (Some "phone") (Some 3%Z) 7000.

Definition fx_process (event : LocationEventV1) (fs : list fault) (w : World) :
    (exn + unit) * World * list fault :=
  run exec (processEvent fx_config fx_num_to_string 7 event) fs w.

Definition fx_dto (seq : Z) : ReportLocationDto :=
  {| dto_userId := "u"; dto_lat := num_of_Z 5; dto_lng := num_of_Z 7;
     dto_deviceId := Some "phone"; dto_seq := Some seq; dto_capturedAt := None;
     dto_observedAt := None; dto_accuracy := None |}.

Definition fx_report (pm : bool) (dto : ReportLocationDto) (fs : list fault) (w : World) :
    (exn + LocationReportResponseDto) * World * list fault :=
  run exec (report pm fx_config fx_num_to_string dto 5000) fs w.

(** A user the tables already know: it is in "area-b". *)
Definition fx_known_db : Db :=
  set_presence {[ ("u", "area-b") := {| entered_at := 10; last_seen_at := 10 |} ]} fx_db.

(** The database fails in the middle of the transaction: a retry; then Redis fails. *)
Lemma process_message_atomic_witness :
  let broken := fx_process fx_inside [FOk; FOk; FOk; FOk; FOk; FOk; FOk; FAt 2 (Error "gone")] fx_world in
  (∃ settled, event_end 7 fx_inside ["area-b"; "area-a"] fx_world broken.1.1 broken.1.2 settled) ∧
  w_settled broken.1.2 = [SNack 7 false true] ∧ logs (w_db broken.1.2) = [] ∧
  w_settled (fx_process fx_inside [] fx_world).1.2 = [SAck 7] ∧
  length (logs (w_db (fx_process fx_inside [] fx_world).1.2)) = 2.
Proof.
  cbv zeta. split.
  - apply (process_message_atomic fx_config fx_num_to_string 7 fx_inside ["area-b"; "area-a"]
      fx_world [FOk; FOk; FOk; FOk; FOk; FOk; FOk; FAt 2 (Error "gone")] _ _
      (fx_process fx_inside [FOk; FOk; FOk; FOk; FOk; FOk; FOk; FAt 2 (Error "gone")] fx_world).2);
      [by apply (bool_decide_unpack _); vm_compute|by apply coherent_cold|reflexivity|vm_compute; reflexivity| |].
    + repeat constructor; intros e; discriminate.
    + by rewrite <- !surjective_pairing.
  - vm_compute. done.
Defined.

Lemma process_message_clean_witness :
  let ended := fx_process fx_inside [] fx_world in
  clean_end 7 fx_inside ["area-b"; "area-a"] None fx_world ended.1.1 ended.1.2.
Proof.
  cbv zeta.
  apply (process_message_clean fx_config fx_num_to_string 7 fx_inside ["area-b"; "area-a"]
    fx_world _ _ (fx_process fx_inside [] fx_world).2);
    [by apply (bool_decide_unpack _); vm_compute|by apply coherent_cold|reflexivity|vm_compute; reflexivity
    |vm_compute; reflexivity|by rewrite <- !surjective_pairing].
Defined.

(** The answer to COMMIT is lost, the worker dies, the message comes again. *)
Definition fx_attempts : list attempt :=
  [ {| at_tag := 1; at_faults := replicate 7 FOk ++ [FLost (Error "reset")]; at_restarted := false |};
    {| at_tag := 1; at_faults := []; at_restarted := true |} ].

Lemma redelivery_at_most_once_witness :
  let w' := foldl (deliver fx_config fx_num_to_string fx_inside) fx_world fx_attempts in
  (w_db w' = w_db fx_world ∨ event_moved fx_inside ["area-b"; "area-a"] fx_db (w_db w')) ∧
  log_area_id <$> logs (w_db w') = ["area-a"; "area-b"].
Proof.
  cbv zeta. split.
  - apply (redelivery_at_most_once fx_config fx_num_to_string fx_inside ["area-b"; "area-a"]
      fx_attempts fx_world); [by apply (bool_decide_unpack _); vm_compute|].
    vm_compute; reflexivity.
  - vm_compute. reflexivity.
Defined.

(** The known areas, and the three messages; the last one is repeated. *)
Definition fx_exists (a : string) : bool := bool_decide (is_Some (areas fx_db !! a)).
Definition fx_stream : list (nat * LocationEventV1 * list string) :=
  [(1, fx_inside, ["area-b"; "area-a"]); (2, fx_leaving, ["area-b"]);
   (3, fx_outside, []); (4, fx_outside, [])].

Lemma worker_refines_visits_witness :
  let w' := foldl (process_next fx_config fx_num_to_string) fx_world fx_stream.*1 in
  let r := visit_all fx_exists fx_visits fx_stream in
  (rep_world "u" fx_exists r.1 w' ∧ w_settled w' = [] ++ r.2) ∧
  w_settled w' = [SAck 1; SAck 2; SAck 3; SAck 4] ∧
  user_log "u" (w_db w') = [("area-a", 5000%Z, None); ("area-b", 5000%Z, None)].
Proof.
  cbv zeta. split.
  - apply (worker_refines_visits fx_config fx_num_to_string "u" fx_exists fx_visits
      fx_stream fx_world).
    + split; [by split|reflexivity|by apply coherent_cold|done].
    + repeat constructor; try (vm_compute; reflexivity);
        by apply (bool_decide_unpack _); vm_compute.
  - vm_compute. done.
Defined.

Lemma hint_is_transparent_witness :
  let w := fx_world_of ∅ fx_known_db ∅ in
  let dto := dto_of_event fx_leaving in
  let ended := fx_report true dto [] w in
  (ended.1.1, w_db ended.1.2) =
    prod_map id w_db (run exec (report_always fx_num_to_string dto 5000) [] w).1 ∧
  w_db ended.1.2 = fx_known_db.
Proof.
  cbv zeta. split.
  - apply (hint_is_transparent fx_config fx_num_to_string (dto_of_event fx_leaving) 5000
      ["area-b"] (fx_world_of ∅ fx_known_db ∅) _ _
      (fx_report true (dto_of_event fx_leaving) [] (fx_world_of ∅ fx_known_db ∅)).2);
      [by left|by apply (bool_decide_unpack _); vm_compute|by apply coherent_cold|vm_compute; reflexivity|].
    by rewrite <- !surjective_pairing.
  - vm_compute. reflexivity.
Defined.

(** A cache that claims the user is in "area-a" only, while the table knows "area-b". *)
Definition fx_stale_world : World :=
  fx_world_of {[ "presence:u" := ("[" +:+ String (Ascii.ascii_of_nat 34) "area-a" +:+
    String (Ascii.ascii_of_nat 34) "]", 100000%Z) ]} fx_known_db ∅.

Lemma report_never_trusts_hint_witness :
  let ended := fx_report false (fx_dto 1) [] fx_stale_world in
  ((w_db ended.1.2 = fx_known_db ∧
     ∀ resp, ended.1.1 = inr resp → resp = no_change ∨
       (device_seen (fx_dto 1) fx_known_db = true ∧
        resp = {| enteredAreaIds := []; duplicate := true |})) ∨
   (device_seen (fx_dto 1) fx_known_db = false ∧
    moved "u" 5000 None ["area-b"; "area-a"] (recorded (fx_dto 1) 5000 fx_known_db)
      (w_db ended.1.2) ∧
    ∀ resp, ended.1.1 = inr resp → duplicate resp = false ∧
      log_view <$> logs (w_db ended.1.2) =
        (log_view <$> logs fx_known_db) ++
        ((λ a, ("u", a, 5000%Z, None)) <$> enteredAreaIds resp))) ∧
  ended.1.1 = inr {| enteredAreaIds := ["area-a"]; duplicate := false |}.
Proof.
  cbv zeta. split.
  - apply (report_never_trusts_hint fx_config fx_num_to_string false (fx_dto 1) 5000
      ["area-b"; "area-a"] fx_stale_world [] _ _ (fx_report false (fx_dto 1) [] fx_stale_world).2);
      [by apply (bool_decide_unpack _); vm_compute|vm_compute; reflexivity|].
    by rewrite <- !surjective_pairing.
  - vm_compute. reflexivity.
Defined.

Definition fx_reported : World := (fx_report false (fx_dto 4) [] fx_world).1.2.

Lemma device_retry_writes_nothing_witness :
  let ended := fx_report false (fx_dto 3) [FOk; FOk; FOk; FOk; FFail (Error "redis")] fx_reported in
  (w_db ended.1.2 = w_db fx_reported ∧ ∀ resp, ended.1.1 = inr resp → enteredAreaIds resp = []) ∧
  length (logs (w_db fx_reported)) = 2.
Proof.
  cbv zeta. split.
  - apply (device_retry_writes_nothing fx_config fx_num_to_string false (fx_dto 4) (fx_dto 3)
      5000 5000 ["area-b"; "area-a"] ["area-b"; "area-a"] fx_db
      {| enteredAreaIds := ["area-a"; "area-b"]; duplicate := false |} fx_reported
      [FOk; FOk; FOk; FOk; FFail (Error "redis")] _ _
      (fx_report false (fx_dto 3) [FOk; FOk; FOk; FOk; FFail (Error "redis")] fx_reported).2
      4 3 "phone");
      [by apply (bool_decide_unpack _); vm_compute| |reflexivity|reflexivity
      |unfold two53; lia|reflexivity|reflexivity|reflexivity|lia
      |by apply (bool_decide_unpack _); vm_compute|vm_compute; reflexivity|].
    + exists true. vm_compute. reflexivity.
    + by rewrite <- !surjective_pairing.
  - vm_compute. reflexivity.
Defined.
