(* ===== verification/EndToEnd.v ===== *)
(** From [POST /locations] to [GET /logs]: the event that an accepted request publishes,
    what the worker makes of it, and the rows that a client's walk of the log then
    collects. The log's listing ([Logs]) reads the table that the worker ([Db])
    writes: [entity_of] is one row of it as the listing sees it, with its instants in
    microseconds. *)

From S2P Require Import Prelude Num Js Prog DateText Spatial Db World Presence Locations Ingest.
From S2P Require Import Filter Transition Report Worker WorkerCorrect Logs LogsCorrect.
From S2P Require Import Delivery Validation HttpEdge Endpoints Pipeline Fixtures.

Section end_to_end.
Context `{ValidationPipe} `{BodyParser}.
Context {gis : PostGIS} {store : RedisStore} {lookup : AreaLookup} {text : PgText}.
Variable describe : jsval → string.
Variable num_to_string : number → string.
Variable timestamp : string.
Variable request : Request.
Variable config : RedisConfig.

(** ** Rows of the log *)

Definition entity_of (r : LogRow) : LogEntity :=
  {| le_id := log_id r; le_userId := log_user_id r; le_areaId := log_area_id r;
     le_recordedAt := log_recorded_at r * 1000;
     le_capturedAt := log_captured_at r ≫= λ s,
       match pg_timestamptz s with inr t => Some t | inl _ => None end |}.

Definition log_table (db : Db) : list LogEntity := entity_of <$> logs db.

(** What an item says of a visit: who entered where, and when it was recorded. *)
Definition visit_of (i : LogItemDto) : string * string * string :=
  (li_userId i, li_areaId i, li_recordedAt i).

(** The query of a client that wants the visits of one user. *)
Definition of_user (u : string) (limit : nat) : ListLogsQueryDto :=
  {| lq_userId := Some u; lq_areaId := None; lq_from := None; lq_to := None;
     lq_cursor := None; lq_limit := limit |}.

(** The visits of a user in a log, as a walk reports them. *)
Definition visits (u : string) (db : Db) : list (string * string * string) :=
  visit_of ∘ item_of <$> filter (λ r, le_userId r = u) (log_table db).

(** A fresh event that finds its areas, and whose writes the tables admit. *)
Record undisturbed (event : LocationEventV1) (cur : list string) (w : World) : Prop := {
  ud_nodup : NoDup cur;
  ud_coherent : coherent (ev_userId event) w;
  ud_found : find_covering (w_areas w) (ev_lng event) (ev_lat event) = inr cur;
  ud_fresh : duplicate_event event w = false;
  ud_admitted : event_failure event cur (w_db w) = None;
}.

(** ** Lemmas *)

Definition view_visit (v : string * string * Z * option string) : string * string * string :=
  let '(u, a, t, _) := v in (u, a, toISOString t).

Lemma visit_of_entity r : visit_of (item_of (entity_of r)) = view_visit (log_view r).
Proof. unfold visit_of. simpl. by rewrite Z.div_mul. Qed.

Lemma visits_view u db :
  visits u db = view_visit <$> filter (λ v, v.1.1.1 = u) (log_view <$> logs db).
Proof.
  unfold visits, log_table. induction (logs db) as [|r rows IH]; [done|].
  rewrite !fmap_cons, !filter_cons. simpl. case_decide; [|done].
  by rewrite !fmap_cons, IH, <- visit_of_entity.
Qed.

(** The visits that a move adds. *)
Lemma moved_visits u rec cap cur db db' :
  moved u rec cap cur db db' →
  visits u db' = visits u db ++
    ((λ a, (u, a, toISOString rec)) <$>
       js_sort (list_minus cur (presence_of u (user_area_presence db)))).
Proof.
  intros Hm. rewrite !visits_view, (moved_logs _ _ _ _ _ _ Hm), filter_app, fmap_app. f_equal.
  induction (js_sort _) as [|a l IH]; [done|]. rewrite !fmap_cons, filter_cons. simpl.
  by rewrite decide_True, fmap_cons, IH.
Qed.

(** What a walk collects is what the log holds. *)
Lemma walk_of_user {text_laws : PgTextLaws} u limit n db :
  log_ok (log_table db) → 1 ≤ limit → 1 ≤ n → length (logs db) ≤ n * limit →
  ∃ collected, walk (of_user u limit) (replicate n (log_table db)) = inr (collected, true) ∧
    visit_of <$> collected ≡ₚ visits u db.
Proof.
  intros Hok Hl Hn Hlen.
  destruct (filters_test (of_user u limit)) as (f & Hf & Hm); [by split_and!|].
  exists (item_of <$> selected f None (log_table db)). split.
  - apply walk_static; try done. unfold selected. rewrite merge_sort_Permutation.
    etrans; [apply length_filter|]. unfold log_table. by rewrite length_fmap.
  - unfold selected, visits. rewrite merge_sort_Permutation, <- list_fmap_compose.
    rewrite (list_filter_iff _ (λ r, le_userId r = u)); [done|]. intros r. rewrite Hm.
    unfold matching. simpl. naive_solver.
Qed.

Context `{!ValidationPipeLaws num_to_string} `{!BodyParserLaws}.

(** The event of a request that was answered 202. *)
Lemma accepted_event raw fs w eventId uuids response w' :
  json_array raw = false → iw_uuids w = eventId :: uuids → Forall publisher_fault fs →
  POST_locations describe num_to_string timestamp request raw fs w = Some (response, w') →
  rs_status response = num_of_Z 202 →
  ∃ dto, report_ok dto ∧ accuracy_exceeded dto = false ∧
    iw_published w' = iw_published w ++
      [(dto_userId dto, event_of_dto dto eventId (iw_clock w), eventId, LOCATION_EVENT_TYPE)].
Proof.
  intros Hraw Hu Hfs. unfold POST_locations.
  destruct (with_body_cases describe timestamp request raw Hraw)
    as [(status & m & Hst & _ & Hw)|(_ & body & _ & ->)].
  { rewrite (Hw LocationsController 202%Z _ (λ r, (r, w))). intros [= <- <-] Hs.
    destruct Hst as [[_ ->]|[_ ->]]; by vm_compute in Hs. }
  destruct (piped_cases num_to_string ReportLocationDto_class report_view report_ok body)
    as [[Hc ->]|(Hc & dto & Hok & ->)]; [by apply (report_accepted num_to_string)|by intros [= <- <-]|].
  pose proof (post_locations_outcomes describe num_to_string timestamp request dto fs w eventId
    uuids Hu Hfs) as Hout. unfold post_locations, respond, respond_to, answer in *.
  destruct (run exec_ingest (LocationsController_report num_to_string dto) fs w) as [[r w1] fs'].
  intros [= <- <-] Hs. exists dto. split; [done|]. cbv zeta in Hout.
  assert (H422 : num_of_Z 202 ≠ num_of_Z 422) by by vm_compute.
  assert (H503 : num_of_Z 202 ≠ num_of_Z 503) by by vm_compute.
  destruct (accuracy_exceeded dto) eqn:Ha.
  - destruct Hout as [Hst _]. exfalso. apply H422. rewrite <- Hs, <- Hst. by destruct r.
  - split; [done|]. destruct Hout as [(_ & _ & Hp)|[Hx _]]; [done|]. exfalso. apply H503.
    apply (f_equal rs_status) in Hx. rewrite <- Hs. by destruct r.
Qed.

(** What the worker does with an event of an accepted report, undisturbed. *)
Lemma delivered_event dto eventId t tag cur w :
  let event := event_of_dto dto eventId t in
  accuracy_exceeded dto = false → undisturbed event cur w →
  ∃ body, handle config num_to_string {| deliveryTag := tag; msg_content := Json event |} =
      inr (dto_userId dto, body) ∧
    ∀ r w' fs', run exec body [] w = (r, w', fs') →
      w_settled w' = w_settled w ++ [SAck tag] ∧
      moved (dto_userId dto) t (ev_capturedAt event) cur (w_db w) (w_db w').
Proof.
  intros event Hacc [Hnd Hcoh Hfind Hdup Hadm]. eexists. split; [done|]. intros r w' fs' Hrun.
  destruct (process_message_clean config num_to_string tag event cur w r w' fs' Hnd Hcoh Hacc
    Hfind Hdup Hrun) as [_ Hset _ _ Htab _ _].
  rewrite Hadm in Hset, Htab. by split.
Qed.

(** ** The guarantee *)

(** C4. An accepted report reaches the log. A request (its body no JSON array) that
    [POST /locations] answers 202 has published one event under its user's key. When that
    event is delivered to a worker that processes it undisturbed (the snapshot names the
    areas that cover the point, the event is fresh, the tables admit its writes, its ids
    are texts that PostgreSQL stores), it is acknowledged, the user's memberships become these areas, and a client that walks [GET /logs] for the
    user to its end collects the visits there were before and one more, with the
    instant of receipt, for each area the user was not in: no other, none twice, and
    none is missing. *)
Theorem accepted_report_is_listed {text_laws : PgTextLaws} raw fs iw eventId uuids response iw' :
  json_array raw = false → iw_uuids iw = eventId :: uuids → Forall publisher_fault fs →
  POST_locations describe num_to_string timestamp request raw fs iw = Some (response, iw') →
  rs_status response = num_of_Z 202 →
  ∃ event, let u := ev_userId event in
    iw_published iw' = iw_published iw ++ [(u, event, eventId, LOCATION_EVENT_TYPE)] ∧
    ∀ tag cur w, undisturbed event cur w →
      ∃ body, handle config num_to_string {| deliveryTag := tag; msg_content := Json event |} =
          inr (u, body) ∧
        ∀ r w' fs', run exec body [] w = (r, w', fs') →
          w_settled w' = w_settled w ++ [SAck tag] ∧
          same_elements cur (presence_of u (user_area_presence (w_db w'))) ∧
          ∀ limit n, log_ok (log_table (w_db w')) → 1 ≤ limit → 1 ≤ n →
            length (logs (w_db w')) ≤ n * limit →
            ∃ collected, walk (of_user u limit) (replicate n (log_table (w_db w'))) =
                inr (collected, true) ∧
              visit_of <$> collected ≡ₚ visits u (w_db w) ++
                ((λ a, (u, a, toISOString (iw_clock iw))) <$>
                   list_minus cur (presence_of u (user_area_presence (w_db w)))).
Proof.
  intros Hraw Hu Hfs Hpost Hs.
  destruct (accepted_event raw fs iw eventId uuids response iw' Hraw Hu Hfs Hpost Hs)
    as (dto & _ & Hacc & Hpub).
  exists (event_of_dto dto eventId (iw_clock iw)). split; [done|]. intros tag cur w Hud.
  destruct (delivered_event dto eventId (iw_clock iw) tag cur w Hacc Hud) as (p & Hp & Hrun).
  exists p. split; [done|]. intros r w' fs' Hr. destruct (Hrun r w' fs' Hr) as [Hset Hm].
  split; [done|]. split; [by apply moved_elements in Hm|]. intros limit n Hok Hl Hn Hlen.
  destruct (walk_of_user (dto_userId dto) limit n (w_db w') Hok Hl Hn Hlen) as (l & Hw & Hv).
  exists l. split; [done|]. rewrite Hv, (moved_visits _ _ _ _ _ _ Hm). apply Permutation_app_head.
  apply fmap_Permutation, js_sort_Permutation.
Qed.
End end_to_end.

(** ** Witness *)

#[local] Existing Instances fx_pipe fx_pipe_laws fx_parser fx_parser_laws fx_postgis fx_redis fx_lookup fx_text fx_text_laws.

Definition fx_log_uuid (n : nat) : string :=
  "6f1a2b3c-0000-4000-8000-00000000000" +:+ String (Ascii.ascii_of_nat (48 + n)) "".

(** The worker's tables, where ids of the log are uuids. *)
Definition fx_fresh_db : Db :=
  {| areas := areas fx_db; area_version := 3; user_area_presence := ∅; logs := [];
     user_event_state := ∅; now := 0; uuids := fx_log_uuid; uuid_next := 0 |}.

Definition fx_midnight : IngestWorld :=
  {| iw_uuids := ["e1"]; iw_clock := 0; iw_published := [] |}.

Definition fx_posted : option (Response * IngestWorld) :=
  POST_locations fx_text_of fx_number "now" fx_request "{report}" [] fx_midnight.

Definition fx_posted_event : LocationEventV1 :=
  match fx_posted with
  | Some (_, {| iw_published := [(_, event, _, _)] |}) => event
  | _ => fx_event 0 0 None None 0
  end.

Definition fx_handled : World :=
  (run exec (processEvent fx_config fx_number 7 fx_posted_event) [] (fx_world_of ∅ fx_fresh_db ∅)).1.2.

Lemma fx_undisturbed event :
  event = fx_posted_event → undisturbed event ["area-b"; "area-a"] (fx_world_of ∅ fx_fresh_db ∅).
Proof.
  intros ->. split.
  - by apply (bool_decide_unpack _); vm_compute.
  - by apply coherent_cold.
  - by vm_compute.
  - by vm_compute.
  - by vm_compute.
Qed.

Lemma accepted_report_is_listed_witness :
  ∃ collected, walk (of_user "u" 10) (replicate 1 (log_table (w_db fx_handled))) =
      inr (collected, true) ∧
    visit_of <$> collected ≡ₚ
      [("u", "area-b", "1970-01-01T00:00:00.000Z"); ("u", "area-a", "1970-01-01T00:00:00.000Z")]%string.
Proof.
  destruct (accepted_report_is_listed fx_text_of fx_number "now" fx_request fx_config "{report}" []
    fx_midnight "e1" [] (default {| rs_status := num_of_Z 0; rs_headers := []; rs_body := JNull |}
      (fst <$> fx_posted)) (default fx_midnight (snd <$> fx_posted)))
    as (event & Hpub & H); [reflexivity|reflexivity|apply Forall_nil_2|vm_compute; reflexivity|
      vm_compute; reflexivity|].
  assert (He : event = fx_posted_event).
  { revert Hpub. vm_compute. intros Hpub. by injection Hpub. }
  destruct (H 7 _ _ (fx_undisturbed event He)) as (p & Hp & Hrun). clear H Hpub. subst event.
  assert (Hpe : p = processEvent fx_config fx_number 7 fx_posted_event).
  { symmetry. injection Hp as Hp. exact Hp. }
  subst p. destruct (run exec (processEvent fx_config fx_number 7 fx_posted_event) []
    (fx_world_of ∅ fx_fresh_db ∅)) as [[r w'] fs'] eqn:E.
  destruct (Hrun r w' fs' eq_refl) as (_ & _ & H).
  assert (Hw : fx_handled = w') by (unfold fx_handled; by rewrite E). rewrite <- Hw in H.
  destruct (H 10 1) as (l & Hl & Hv); [| lia | lia | vm_compute; lia |].
  - apply fx_log_ok; [by vm_compute|by apply (bool_decide_unpack _); vm_compute].
  - exists l. split; [exact Hl|]. rewrite Hv. by vm_compute.
Defined.
