(* ===== verification/Concurrent.v ===== *)
(** The guarantees of the worker with many users' messages in flight: for the worker
    with a lane per user, and, by refinement, for the worker with promise chains. *)

From S2P Require Import Prelude Num Js Prog Db World Presence Locations Transition.
From S2P Require Import Report Ingest Worker WorkerCorrect Delivery Interleave Fixtures.
From S2P Require Import Chains ChainWorker Settling Pipeline.

Lemma filter_all {A} (P : A → Prop) `{∀ x, Decision (P x)} (l : list A) :
  Forall P l → filter P l = l.
Proof.
  induction 1 as [|x l Hx Hl IH]; [done|]. by rewrite filter_cons, decide_True, IH.
Qed.

Section concurrent.
Context {gis : PostGIS} {store : RedisStore} {lookup : AreaLookup}.
Variable config : RedisConfig.
Variable num_to_string : number → string.
Variable tag_owner : nat → option string.

(** A worker that has not received anything. *)
Definition idle (w : World) : Worker := {| lanes := ∅; world := w |}.

Definition serve (w : World) (acts : list event_loop) : Worker :=
  foldl (turn config num_to_string) (idle w) acts.

(** ** Lemmas *)

Lemma lane_of_idle u w : lane_of u (idle w) = [].
Proof. unfold lane_of, idle. simpl. by rewrite lookup_empty. Qed.

Lemma lanes_own_idle w : lanes_own tag_owner (idle w).
Proof. intros v. by rewrite lane_of_idle. Qed.

Lemma filter_concerned u acts :
  Forall (λ a, concerns u a = true) (filter (λ a, concerns u a = true) acts).
Proof. apply Forall_forall. by intros a [? _]%list_elem_of_filter. Qed.

Lemma act_fault_filter (P : fault → Prop) u acts :
  Forall (act_fault P) acts → Forall (act_fault P) (filter (λ a, concerns u a = true) acts).
Proof.
  rewrite !Forall_forall. intros HP a [_ Ha]%list_elem_of_filter. by apply HP.
Qed.

Lemma delivered_filter u acts :
  delivered u (filter (λ a, concerns u a = true) acts) = delivered u acts.
Proof.
  induction acts as [|a acts IH]; [done|]. rewrite filter_cons. case_decide as Hc.
  - unfold delivered in *. cbn [omap list_omap]. by rewrite IH.
  - rewrite IH. unfold delivered. cbn [omap list_omap]. destruct a as [m|v f]; [|done].
    simpl in Hc. apply not_true_is_false in Hc. rewrite Hc. by destruct (msg_content m).
Qed.

Lemma serve_same u acts w :
  Forall (honest tag_owner) acts → Forall colon_free acts → no_colon u = true →
  same_to tag_owner u (serve w acts) (serve w (filter (λ a, concerns u a = true) acts)).
Proof. intros Hh Hc Hu. apply turns_same; [done..|apply lanes_own_idle|done]. Qed.

(** Without faults a schedule is as good as none. *)
Lemma run_no_faults {X} (p : prog ioop X) fs w :
  Forall no_fault fs →
  (run exec p fs w).1 = (run exec p [] w).1 ∧ Forall no_fault (run exec p fs w).2.
Proof.
  revert fs w. induction p as [x|e|Y op k IH]; intros fs w Hfs; [done|done|]. cbn [run].
  assert (Hf : default FOk (head fs) = FOk) by (by destruct Hfs as [|? ? ->]). rewrite Hf.
  cbn [head tail default from_option]. destruct (exec Y FOk op w) as [r w'].
  apply IH. by destruct Hfs.
Qed.

Lemma seq_all_no_faults ms fs w :
  Forall no_fault fs →
  (seq_all (task_of config num_to_string <$> ms) fs w).1 =
    foldl (process_next config num_to_string) w ms.
Proof.
  revert fs w. induction ms as [|m ms IH]; intros fs w Hfs; [done|]. rewrite fmap_cons.
  cbn [seq_all foldl]. unfold process_next at 2. fold (task_of config num_to_string m).
  destruct (run_no_faults (task_of config num_to_string m) fs w Hfs) as [Hrun Hrest].
  destruct (run exec _ fs w) as [[r w'] fs']. simpl in *. rewrite <- Hrun. by apply IH.
Qed.

Lemma rep_world_same_view u known v w1 w2 :
  same_view tag_owner u w1 w2 → rep_world u known v w1 → rep_world u known v w2.
Proof.
  intros [[Hp Hs Hl Ha] Hm Hq Hi _] [[Hin Hlog] Hk Hc Har].
  pose proof (presence_of_ext u _ _ Hp) as Hpres. split.
  - split; [by rewrite <- Hpres|by rewrite <- Hl].
  - intros event d Hu. rewrite <- (Hk event d Hu). unfold known_seq. rewrite Hu.
    by rewrite Hq, Hs.
  - intros ids. rewrite <- Hm, <- Hpres. apply Hc.
  - intros a. by rewrite <- Ha.
Qed.

Lemma visit_all_tags u known ms v acc :
  Forall (λ m, tag_owner m.1.1 = Some u) ms →
  Forall (λ s, tag_owner (settlement_tag s) = Some u) acc →
  Forall (λ s, tag_owner (settlement_tag s) = Some u)
    (foldl (λ acc m, let '(o, v') := visit_event known m.1.2 m.2 acc.1 in
       (v', acc.2 ++ [settlement_of m.1.1 o])) (v, acc) ms).2.
Proof.
  intros Hms. revert v acc. induction Hms as [|m ms Hm Hms IH]; intros v acc Hacc; [done|].
  cbn [foldl fst snd]. destruct (visit_event known m.1.2 m.2 v) as [o v']. apply IH.
  apply Forall_app. split; [done|]. apply Forall_singleton. by destruct o.
Qed.

Lemma delivered_owned u acts :
  Forall (honest tag_owner) acts → Forall (λ m, tag_owner m.1 = Some u) (delivered u acts).
Proof.
  intros Hh. apply Forall_forall. intros m Hm. unfold delivered in Hm.
  apply list_elem_of_omap in Hm as (a & Ha & Hm). rewrite Forall_forall in Hh.
  apply Hh in Ha. destruct a as [message|]; [|done].
  destruct (msg_content message) as [|event]; [done|]. case_bool_decide as Hu; [|done].
  injection Hm as <-. simpl in *. congruence.
Qed.

(** ** The guarantees *)

(** C7. Users whose ids hold no colon do not interfere: whatever the interleaving of
    deliveries and of the awaited operations of all users, and whatever faults occur, a
    user's lane and everything the user can see (memberships, log, device numbers,
    memory, settlements of its messages) are as if the worker had served that user
    alone. With a colon in their ids two users can share a device key, and then they do
    interfere ([colliding_device_dropped] of [Divergences]). *)
Theorem lanes_do_not_interfere u acts w :
  Forall (honest tag_owner) acts → Forall colon_free acts → no_colon u = true →
  lane_of u (serve w acts) = lane_of u (serve w (filter (λ a, concerns u a = true) acts)) ∧
  same_view tag_owner u (world (serve w acts))
    (world (serve w (filter (λ a, concerns u a = true) acts))).
Proof. apply serve_same. Qed.

(** Once the lane of a user has drained, what the user can see is sequential. *)
Lemma serve_sequential u acts w :
  Forall (honest tag_owner) acts → Forall colon_free acts → no_colon u = true →
  norm (lane_of u (serve w acts)) = [] →
  ∃ fs, (∀ P, Forall (act_fault P) acts → Forall P fs) ∧
    same_view tag_owner u (world (serve w acts))
      (seq_all (task_of config num_to_string <$> delivered u acts) fs w).1.
Proof.
  intros Hh Hc Hu Hdrained. destruct (serve_same u acts w Hh Hc Hu) as [Hlane Hview].
  destruct (solo_sequential config num_to_string u _ (idle w) (filter_concerned u acts))
    as (fs & HP & Hfs).
  exists fs. split; [intros P HacP; by apply HP, act_fault_filter|].
  specialize (Hfs []). rewrite lane_of_idle, delivered_filter, app_nil_r in Hfs.
  cbn [app world idle] in Hfs. rewrite Hfs.
  change (foldl _ (idle w) ?l) with (serve w l). rewrite <- Hlane.
  by rewrite <- (app_nil_r (lane_of u (serve w acts))), <- seq_all_norm, Hdrained.
Qed.

(** What the messages processed in sequence leave, without failures. *)
Lemma sequential_refines_visits u known v ms fs w w' :
  Forall no_fault fs → rep_world u known v w →
  Forall (λ m, tag_owner m.1.1 = Some u) ms →
  Forall (λ m, ev_userId m.1.2 = u ∧ NoDup m.2 ∧
    find_covering (w_areas w) (ev_lng m.1.2) (ev_lat m.1.2) = inr m.2) ms →
  same_view tag_owner u w' (seq_all (task_of config num_to_string <$> ms.*1) fs w).1 →
  rep_world u known (visit_all known v ms).1 w' ∧
  settled_for tag_owner u w' = settled_for tag_owner u w ++ (visit_all known v ms).2.
Proof.
  intros Hfs Hrep Hown Hall Hview. rewrite seq_all_no_faults in Hview by done.
  destruct (visit_all_refines config num_to_string u known ms v [] w w Hrep) as [Hr Hset];
    [by rewrite app_nil_r|done|].
  split; [eapply rep_world_same_view; [by symmetry|done]|].
  rewrite (sv_settled _ _ _ _ Hview). unfold settled_for. rewrite Hset, filter_app. f_equal.
  by apply filter_all, visit_all_tags.
Qed.

(** ** The worker with promise chains *)

Lemma fresh_simulates w : simulates (fresh w) (idle w).
Proof. split; [apply no_chains_inv|done|]. intros u. by rewrite lane_of_idle. Qed.

Lemma chain_trace_serve u es w s :
  chain_turns config num_to_string es (fresh w) = Some s →
  pending u (cw_chains s) = [] →
  norm (lane_of u (serve w (lane_trace config num_to_string es (fresh w)))) = [] ∧
  world (serve w (lane_trace config num_to_string es (fresh w))) = cw_world s.
Proof.
  intros Hs Hp.
  pose proof (turns_simulated config num_to_string es (fresh w) s (idle w) (fresh_simulates w) Hs)
    as [_ Hw Hl].
  split; [|exact Hw]. specialize (Hl u). by rewrite Hp in Hl.
Qed.

(** Concurrency is invisible to a user of the worker as it is built: many messages
    in flight on promise chains, interleaved at every awaited operation, under any
    faults; once a user's chain has drained, what the user can see (memberships, log,
    device numbers, memory, settlements) is the result of processing its messages one
    after the other in the order of their arrival, under some of those faults. *)
Theorem interleaving_is_sequential u es w s :
  chain_turns config num_to_string es (fresh w) = Some s →
  Forall (honest tag_owner) (arrivals es) → Forall colon_free (arrivals es) →
  no_colon u = true → pending u (cw_chains s) = [] →
  ∃ fs, (∀ P, Forall (event_fault P) es → Forall P fs) ∧
    same_view tag_owner u (cw_world s)
      (seq_all (task_of config num_to_string <$> delivered u (arrivals es)) fs w).1.
Proof.
  intros Hs Hh Hc Hu Hp. destruct (chain_trace_serve u es w s Hs Hp) as [Hn Hw].
  destruct (serve_sequential u (lane_trace config num_to_string es (fresh w)) w)
    as (fs & HP & Hview); [by eapply trace_honest|by eapply trace_colon_free|done|done|].
  exists fs. split; [intros P HPes; by apply HP; eapply trace_faults|].
  by rewrite <- Hw, <- (delivered_trace config num_to_string u es (fresh w) s Hs).
Qed.

(** C2. The worker as it is built refines the abstract machine of visits, for every
    user at once: while nothing fails and no user id holds a colon, when a user's chain
    has drained, the tables hold exactly the machine's memberships and log for the user's
    messages in order of arrival, and each of these deliveries is settled, once, as the
    machine says. The ids matter because the keys of the de-duplication are joined with a
    colon: two users whose ids hold one can share a device key. *)
Theorem concurrent_worker_refines_visits u known v ms es w s :
  chain_turns config num_to_string es (fresh w) = Some s →
  Forall (honest tag_owner) (arrivals es) → Forall colon_free (arrivals es) →
  no_colon u = true → pending u (cw_chains s) = [] →
  Forall (event_fault no_fault) es → rep_world u known v w →
  delivered u (arrivals es) = ms.*1 →
  Forall (λ m, ev_userId m.1.2 = u ∧ NoDup m.2 ∧
    find_covering (w_areas w) (ev_lng m.1.2) (ev_lat m.1.2) = inr m.2) ms →
  rep_world u known (visit_all known v ms).1 (cw_world s) ∧
  settled_for tag_owner u (cw_world s) =
    settled_for tag_owner u w ++ (visit_all known v ms).2.
Proof.
  intros Hs Hh Hc Hu Hp Hok Hrep Hms Hall.
  destruct (chain_trace_serve u es w s Hs Hp) as [Hn Hw].
  destruct (serve_sequential u (lane_trace config num_to_string es (fresh w)) w)
    as (fs & HP & Hview); [by eapply trace_honest|by eapply trace_colon_free|done|done|].
  rewrite (delivered_trace config num_to_string u es (fresh w) s Hs), Hms, Hw in Hview.
  eapply sequential_refines_visits; [by apply HP; eapply trace_faults|done| |done|done].
  pose proof (delivered_owned u (arrivals es) Hh) as Hown. rewrite Hms in Hown.
  by apply Forall_fmap in Hown.
Qed.

(** C6. The worker never gets stuck, and finishes what it took: from every state it can
    reach, whatever fails then and later, it comes to the end of its own steps unless a
    new message arrives; where it has none left every chain is drained and the map of
    the chains is empty, and the deliveries received have been settled, each at most
    once with its own tag, and exactly once when no acknowledgement ran into a closed
    channel. *)
Theorem worker_drains es w s :
  chain_turns config num_to_string es (fresh w) = Some s →
  Acc (internal_step config num_to_string) s ∧
  ((∀ e, internal e → chain_turn config num_to_string s e = None) →
   (∀ u, pending u (cw_chains s) = []) ∧ userChains (cw_chains s) = ∅ ∧
   ∃ lost, settled_tags (cw_world s) ++ lost ≡ₚ settled_tags w ++ received es ∧
     (acks_arrive config num_to_string es (fresh w) → lost = [])).
Proof.
  intros Hs. split; [apply internal_steps_end|]. intros Hrest.
  destruct (turns_simulated config num_to_string es (fresh w) s (idle w) (fresh_simulates w) Hs)
    as [Hinv _ _].
  destruct (at_rest_drained config num_to_string s Hinv Hrest) as [Hall Hmap].
  destruct (turns_accounts config num_to_string _ _ _ _ _ _ (fresh_accounts w) Hs)
    as (lost & Ha & Hnil).
  split_and!; [intros u; by apply settled_pending|done|].
  exists lost. split; [by apply (accounts_settled _ _ _ _ Ha Hall)|by apply Hnil].
Qed.
End concurrent.

(** ** Witnesses *)

#[local] Existing Instances fx_postgis fx_redis fx_lookup.

(** Users "u" and "v"; deliveries 1 and 2 are of "u", 3 is of "v", 9 is not JSON. *)
Definition fx_owner (tag : nat) : option string :=
  match tag with 1 | 2 => Some "u" | 3 => Some "v" | _ => None end.

Definition fx_message (tag : nat) (event : LocationEventV1) : Message :=
  {| deliveryTag := tag; msg_content := Json event |}.

Definition fx_inside_v : LocationEventV1 :=
  {| ev_v := JNum (num_of_Z 1); ev_eventId := "v1"; ev_userId := "v"; ev_deviceId := None;
     ev_seq := None; ev_lat := num_of_Z 5; ev_lng := num_of_Z 2; ev_accuracy := None;
     ev_capturedAt := None; ev_receivedAt := 5500 |}.

Definition fx_schedule : list event_loop :=
  [Deliver (fx_message 1 fx_inside); Deliver (fx_message 3 fx_inside_v);
   Deliver {| deliveryTag := 9; msg_content := NotJson |}] ++
  replicate 4 (Resume "u" FOk) ++ replicate 6 (Resume "v" FOk) ++
  [Deliver (fx_message 2 fx_outside)] ++
  replicate 20 (Resume "u" FOk) ++ replicate 6 (Resume "v" FOk) ++ replicate 9 (Resume "u" FOk).

Definition fx_served : Worker := serve fx_config fx_num_to_string fx_world fx_schedule.

Lemma fx_schedule_honest : Forall (honest fx_owner) fx_schedule.
Proof. repeat (constructor; [done|]). constructor. Qed.

Lemma fx_schedule_colon_free : Forall colon_free fx_schedule.
Proof.
  repeat (constructor; [first [done|intros v Hv; vm_compute in Hv; by simplify_eq]|]).
  constructor.
Qed.

Lemma fx_schedule_no_fault : Forall (act_fault no_fault) fx_schedule.
Proof. repeat (constructor; [done|]). constructor. Qed.

Lemma lanes_do_not_interfere_witness :
  (lane_of "u" fx_served = lane_of "u" (serve fx_config fx_num_to_string fx_world
     (filter (λ a, concerns "u" a = true) fx_schedule)) ∧
   same_view fx_owner "u" (world fx_served) (world (serve fx_config fx_num_to_string fx_world
     (filter (λ a, concerns "u" a = true) fx_schedule)))) ∧
  w_settled (world fx_served) = [SNack 9 false true; SAck 1; SAck 2; SAck 3].
Proof.
  split.
  - unfold fx_served. apply (lanes_do_not_interfere fx_config fx_num_to_string fx_owner "u" fx_schedule fx_world);
      [apply fx_schedule_honest|apply fx_schedule_colon_free|reflexivity].
  - vm_compute. reflexivity.
Defined.

(** The same deliveries on promise chains: [fx_steps n k] is [k] operations of link [n]. *)
Definition fx_steps (n k : nat) : list chain_event := replicate k (Step n FOk).

Definition fx_events : list chain_event :=
  [Receive (fx_message 1 fx_inside); Receive (fx_message 3 fx_inside_v);
   Receive {| deliveryTag := 9; msg_content := NotJson |}; Begin 0] ++ fx_steps 0 4 ++
  [Begin 1] ++ fx_steps 1 6 ++ [Receive (fx_message 2 fx_outside)] ++ fx_steps 0 10 ++
  [End 0; Begin 2; Clean 0] ++ fx_steps 2 5 ++ fx_steps 1 3 ++ fx_steps 2 5 ++ [End 2; Clean 2].

Definition fx_chained : ChainWorker :=
  default (fresh fx_world) (chain_turns fx_config fx_num_to_string fx_events (fresh fx_world)).

Lemma fx_chained_run :
  chain_turns fx_config fx_num_to_string fx_events (fresh fx_world) = Some fx_chained.
Proof.
  unfold fx_chained.
  assert (Hrun : match chain_turns fx_config fx_num_to_string fx_events (fresh fx_world) with
                 | Some _ => true | None => false end = true) by (vm_compute; reflexivity).
  destruct (chain_turns fx_config fx_num_to_string fx_events (fresh fx_world)); [done|].
  discriminate.
Qed.

Lemma fx_arrivals_honest : Forall (honest fx_owner) (arrivals fx_events).
Proof. repeat (constructor; [done|]). constructor. Qed.

Lemma fx_arrivals_colon_free : Forall colon_free (arrivals fx_events).
Proof. repeat (constructor; [intros v Hv; vm_compute in Hv; by simplify_eq|]). constructor. Qed.

Lemma fx_events_no_fault : Forall (event_fault no_fault) fx_events.
Proof. repeat (constructor; [done|]). constructor. Qed.

Lemma interleaving_is_sequential_witness :
  delivered "u" (arrivals fx_events) = [(1, fx_inside); (2, fx_outside)] ∧
  ∃ fs, (∀ P, Forall (event_fault P) fx_events → Forall P fs) ∧
    same_view fx_owner "u" (cw_world fx_chained)
      (seq_all (task_of fx_config fx_num_to_string <$> delivered "u" (arrivals fx_events))
         fs fx_world).1.
Proof.
  split; [vm_compute; reflexivity|].
  apply (interleaving_is_sequential fx_config fx_num_to_string fx_owner "u" fx_events fx_world
    fx_chained); [apply fx_chained_run|apply fx_arrivals_honest|apply fx_arrivals_colon_free
    |reflexivity|vm_compute; reflexivity].
Defined.

Definition fx_served_messages : list (nat * LocationEventV1 * list string) :=
  [(1, fx_inside, ["area-b"; "area-a"]); (2, fx_outside, [])].

Lemma concurrent_worker_refines_visits_witness :
  (rep_world "u" fx_exists (visit_all fx_exists fx_visits fx_served_messages).1
     (cw_world fx_chained) ∧
   settled_for fx_owner "u" (cw_world fx_chained) =
     [] ++ (visit_all fx_exists fx_visits fx_served_messages).2) ∧
  user_log "u" (w_db (cw_world fx_chained)) =
    [("area-a", 5000%Z, None); ("area-b", 5000%Z, None)].
Proof.
  split.
  - apply (concurrent_worker_refines_visits fx_config fx_num_to_string fx_owner "u" fx_exists
      fx_visits fx_served_messages fx_events fx_world fx_chained);
      [apply fx_chained_run|apply fx_arrivals_honest|apply fx_arrivals_colon_free|reflexivity
      |vm_compute; reflexivity|apply fx_events_no_fault| |vm_compute; reflexivity|].
    + split; [by split|reflexivity|by apply coherent_cold|done].
    + repeat constructor; try (vm_compute; reflexivity);
        by apply (bool_decide_unpack _); vm_compute.
  - vm_compute. reflexivity.
Defined.

(** A failed query and a failed Redis call on the way; then everything is drained. *)
Definition fx_busy : list chain_event :=
  [Receive (fx_message 1 fx_inside); Receive (fx_message 3 fx_inside_v); Begin 0; Begin 1;
   Step 0 FOk; Step 1 (FFail (Error "reset")); Receive (fx_message 2 fx_outside)].

Definition fx_at_rest : list chain_event :=
  fx_busy ++ fx_steps 1 8 ++ fx_steps 0 13 ++ [End 0; Begin 2] ++ fx_steps 2 10 ++
  [End 1; End 2; Clean 0; Clean 1; Clean 2].

Definition fx_rested : ChainWorker :=
  default (fresh fx_world) (chain_turns fx_config fx_num_to_string fx_at_rest (fresh fx_world)).

Lemma fx_rested_run :
  chain_turns fx_config fx_num_to_string fx_at_rest (fresh fx_world) = Some fx_rested.
Proof.
  unfold fx_rested.
  assert (Hrun : match chain_turns fx_config fx_num_to_string fx_at_rest (fresh fx_world) with
                 | Some _ => true | None => false end = true) by (vm_compute; reflexivity).
  destruct (chain_turns fx_config fx_num_to_string fx_at_rest (fresh fx_world)); [done|].
  discriminate.
Qed.

Lemma worker_drains_witness :
  w_settled (cw_world fx_rested) = [SAck 3; SAck 1; SAck 2] ∧
  (∀ e, internal e → chain_turn fx_config fx_num_to_string fx_rested e = None) ∧
  Acc (internal_step fx_config fx_num_to_string) fx_rested ∧
  (∀ u, pending u (cw_chains fx_rested) = []) ∧ userChains (cw_chains fx_rested) = ∅ ∧
  ∃ lost, settled_tags (cw_world fx_rested) ++ lost ≡ₚ
      settled_tags fx_world ++ received fx_at_rest ∧
    (acks_arrive fx_config fx_num_to_string fx_at_rest (fresh fx_world) → lost = []).
Proof.
  assert (Hrest : ∀ e, internal e → chain_turn fx_config fx_num_to_string fx_rested e = None).
  { apply cleaned_at_rest. apply (bool_decide_unpack _). vm_compute. reflexivity. }
  split; [vm_compute; reflexivity|]. split; [exact Hrest|].
  destruct (worker_drains fx_config fx_num_to_string fx_at_rest fx_world fx_rested)
    as [Hacc Hdone]; [apply fx_rested_run|].
  split; [exact Hacc|]. by apply Hdone.
Defined.

Lemma fx_acks_arrive :
  acks_arrive fx_config fx_num_to_string fx_at_rest (fresh fx_world).
Proof. vm_compute. repeat (split; [try done; by intros []|]); done. Qed.
