(* ===== verification/Redelivery.v ===== *)
(** At-least-once delivery as the worker meets it: the messages of all users in flight,
    disturbed by failures, the worker killed at any moment and restarted, unacknowledged
    messages delivered again. The worker refines the machine of visits with disturbed
    messages and crashes; what a replay of unacknowledged messages after a crash does,
    and a retry that comes late. *)

From S2P Require Import Prelude Num Js Prog Db World Presence Locations Transition.
From S2P Require Import Report Ingest Worker WorkerCorrect Delivery Interleave Chains.
From S2P Require Import ChainWorker Pipeline Concurrent Fixtures.

(** A failure as the machine sees it: no COMMIT loses its answer, and no failure claims
    to be a violation of the area's foreign key, which the worker trusts. *)
Definition plain (f : fault) : Prop :=
  no_lost f ∧ ∀ e, raised f = Some e → isStaleAreaViolation e = false.

Section redelivery.
Context {gis : PostGIS} {store : RedisStore} {lookup : AreaLookup}.
Variable config : RedisConfig.
Variable num_to_string : number → string.

(** ** The machine with disturbed messages and crashes *)

(** How a message ends when something may have failed: it had no effect and was given
    back or not settled; or it had all the effect it has undisturbed, whether it was
    settled as undisturbed, given back, or not settled. *)
Inductive disturbed_end (known : string → bool) (m : nat * LocationEventV1 * list string)
    (v : Visits) : Visits → list settlement → Prop :=
| de_nothing new :
    new = [] ∨ new = [SNack m.1.1 false true] → disturbed_end known m v v new
| de_effect o v' new :
    visit_event known m.1.2 m.2 v = (o, v') →
    new = [] ∨ new = [SNack m.1.1 false true] ∨ new = [settlement_of m.1.1 o] →
    disturbed_end known m v v' new.

(** The messages of a user between two starts of the worker, with the settlements. *)
Inductive visit_life (known : string → bool) :
    Visits → list (nat * LocationEventV1 * list string) → Visits → list settlement → Prop :=
| vl_done v : visit_life known v [] v []
| vl_next v m v1 new ms v2 more :
    disturbed_end known m v v1 new → visit_life known v1 ms v2 more →
    visit_life known v (m :: ms) v2 (new ++ more).

(** The numbers that the table keeps for the user's devices. *)
Definition stored_seq (u : string) (db : Db) (d : string) : Z :=
  from_option (λ row, round53 (last_seq row)) 0%Z (user_event_state db !! (u, d)).

(** After a crash the machine knows the numbers of the table again. *)
Definition crash_visits (stored : string → Z) (v : Visits) : Visits :=
  {| v_inside := v_inside v; v_log := v_log v; v_seq := stored |}.

(** Lives of the worker, each ended by a crash. *)
Inductive visit_lives (known : string → bool) (stored : string → Z) :
    Visits → list (list (nat * LocationEventV1 * list string)) → Visits →
    list (list settlement) → Prop :=
| vls_done v : visit_lives known stored v [] v []
| vls_next v ms v1 settled mss v2 more :
    visit_life known v ms v1 settled →
    visit_lives known stored (crash_visits stored v1) mss v2 more →
    visit_lives known stored v (ms :: mss) v2 (settled :: more).

(** ** A disturbed message *)

(** What becomes of the message undisturbed, from the tables. *)
Definition event_fate (event : LocationEventV1) (cur : list string) (w : World) : verdict :=
  if duplicate_event event w then Repeated
  else if accuracy_exceeded (dto_of_event event) then Unusable
  else match event_failure event cur (w_db w) with
       | None => Applied
       | Some e => if isStaleAreaViolation e then Obsolete else Unusable
       end.

Definition untouched (event : LocationEventV1) (w w' : World) : Prop :=
  w_db w' = w_db w ∧ ∀ d, known_seq event d w' = known_seq event d w.

Definition took_effect (event : LocationEventV1) (cur : list string) (w w' : World) : Prop :=
  event_moved event cur (w_db w) (w_db w') ∧
  ∀ d, known_seq event d w' =
    if decide (ev_deviceId event = Some d) then default (known_seq event d w) (ev_seq event)
    else known_seq event d w.

Record attempted (tag : nat) (event : LocationEventV1) (cur : list string) (w w' : World) : Prop := {
  at_coherent : coherent (ev_userId event) w';
  at_end : ∃ new, w_settled w' = w_settled w ++ new ∧
    (untouched event w w' ∧ (new = [] ∨ new = [SNack tag false true]) ∨
     match event_fate event cur w with
     | Applied => took_effect event cur w w'
     | _ => untouched event w w'
     end ∧
     (new = [] ∨ new = [SNack tag false true] ∨ new = [settlement_of tag (event_fate event cur w)]));
}.

(** Only the settlements and the counters changed. *)
Definition only_settled (new : list settlement) (w w' : World) : Prop :=
  w_db w' = w_db w ∧ w_memory w' = w_memory w ∧ w_lastSeq w' = w_lastSeq w ∧
  w_settled w' = w_settled w ++ new.

Lemma only_settled_facts event new w w' :
  only_settled new w w' →
  (coherent (ev_userId event) w → coherent (ev_userId event) w') ∧
  w_db w' = w_db w ∧ (∀ d, known_seq event d w' = known_seq event d w).
Proof.
  intros (Hdb & Hm & Hl & _). split_and!; [|done|].
  - intros Hc ids. rewrite Hm, Hdb. apply Hc.
  - intros d. unfold known_seq. by rewrite Hl, Hdb.
Qed.

(** The [catch] settles by what it caught; or the channel is gone. *)
Lemma settle_failure_end (Q : World → Prop) tag e w :
  (∀ new w', only_settled new w w' →
     new = [] ∨ new = [if isStaleAreaViolation e then SAck tag else SNack tag false true] → Q w') →
  wp exec plain (settle_failure tag e) (λ _ w', Q w') w.
Proof.
  intros HQ. apply settle_failure_wp; intros Hst; rewrite Hst in HQ; cbv zeta;
    (split; [eapply HQ; [|by right]|intros e' _; eapply HQ; [|by left]]);
    split_and!; try done; by rewrite app_nil_r.
Qed.

Lemma settle_end (Q : exn + unit → World → Prop) s w :
  (∀ w', only_settled [s] w w' → Q (inr tt) w') → (∀ e, isStaleAreaViolation e = false → Q (inl e) w) →
  wp exec plain (await (Settle s)) Q w.
Proof.
  intros Hs He. apply settle_wp; [by apply Hs|]. intros e (f & [_ Hf] & Hr). by apply He, Hf.
Qed.

(** An exception that is no stale area, while nothing has changed. *)
Lemma nothing_happened tag event cur e w w1 :
  coherent (ev_userId event) w1 → untouched event w w1 → w_settled w1 = w_settled w →
  isStaleAreaViolation e = false →
  wp exec plain (settle_failure tag e) (λ _ w', attempted tag event cur w w') w1.
Proof.
  intros Hc [Hdb Hk] Hs He. apply settle_failure_end. rewrite He. intros new w' Hw' Hnew.
  destruct (only_settled_facts event new w1 w' Hw') as (Hc' & Hdb' & Hk').
  split; [by apply Hc'|]. exists new. split; [by rewrite <- Hs; apply Hw'|]. left.
  split; [|done]. split; [congruence|]. intros d. by rewrite Hk'.
Qed.

(** The fate of the message has come over the tables; what is left is to settle. *)
Lemma fate_settled tag event cur w w1 w' new :
  coherent (ev_userId event) w1 → w_settled w1 = w_settled w →
  match event_fate event cur w with
  | Applied => took_effect event cur w w1
  | _ => untouched event w w1
  end →
  only_settled new w1 w' →
  new = [] ∨ new = [SNack tag false true] ∨ new = [settlement_of tag (event_fate event cur w)] →
  attempted tag event cur w w'.
Proof.
  intros Hc Hs Hf Hw' Hnew. destruct (only_settled_facts event new w1 w' Hw') as (Hc' & Hdb & Hk).
  split; [by apply Hc'|]. exists new. split; [by rewrite <- Hs; apply Hw'|]. right.
  split; [|done]. assert (Hu : untouched event w w1 → untouched event w w').
  { intros [Hdb1 Hk1]. split; [congruence|]. intros d. by rewrite Hk. }
  destruct (event_fate event cur w); auto. destruct Hf as [Hmv Hk1]. split; [by rewrite Hdb|].
  intros d. by rewrite Hk.
Qed.

(** After a report that went well only the channel can fail. *)
Lemma effect_settled_wp tag event cur w w2 :
  event_fate event cur w = Applied → coherent (ev_userId event) w2 →
  w_settled w2 = w_settled w → w_lastSeq w2 = w_lastSeq (with_lastSeq (looked_up event w) w) →
  event_moved event cur (w_db w) (w_db w2) →
  wp exec plain
    (try_catch (rememberSeq event;; await CountProcessed;; await (Settle (SAck tag)))
       (settle_failure tag))
    (λ _ w', attempted tag event cur w w') w2.
Proof.
  intros Hfate Hcoh Hset Hls Hmv.
  assert (Hdup : duplicate_event event w = false)
    by (unfold event_fate in Hfate; by destruct (duplicate_event event w)).
  assert (Hdone : took_effect event cur w (with_lastSeq (remembered event w2) w2)).
  { split; [done|]. intros d. rewrite <- (known_seq_remembered event d w Hdup).
    unfold known_seq, remembered. simpl. rewrite Hls. simpl.
    by rewrite (moved_event_state _ _ _ _ _ _ Hmv). }
  apply wp_try_catch, wp_bind, rememberSeq_wp. set (w3 := with_lastSeq _ w2) in *.
  apply wp_bind, wp_await. intros f _. cbn [exec fst snd].
  assert (Hend : ∀ new w', only_settled new w3 w' →
    new = [] ∨ new = [SNack tag false true] ∨ new = [SAck tag] → attempted tag event cur w w').
  { intros new w' Hw' Hnew. eapply (fate_settled tag event cur w w3); [done|done| |done|];
      by rewrite Hfate. }
  apply settle_end.
  - intros w' Hw'. by apply (Hend _ _ Hw'); auto.
  - intros e He. apply settle_failure_end. rewrite He. intros new w' Hw' Hnew.
    apply (Hend _ _ Hw'). naive_solver.
Qed.

Lemma attempted_wp tag event cur w :
  NoDup cur → coherent (ev_userId event) w →
  find_covering (w_areas w) (ev_lng event) (ev_lat event) = inr cur →
  wp exec plain (processEvent config num_to_string tag event)
    (λ _ w', attempted tag event cur w w') w.
Proof.
  intros Hnd Hcoh Hfind. unfold processEvent. apply wp_try_catch, wp_bind, isDuplicate_wp.
  { intros e (f & [_ Hf] & Hr). apply nothing_happened; auto. by split. }
  set (w1 := with_lastSeq (looked_up event w) w).
  assert (Hw1 : untouched event w w1) by (split; [done|intros d; apply known_seq_looked_up]).
  destruct (duplicate_event event w) eqn:Hdup.
  { assert (Hfate : event_fate event cur w = Repeated) by (unfold event_fate; by rewrite Hdup).
    apply settle_end; [|intros e He; by apply nothing_happened].
    intros w' Hw'. eapply (fate_settled tag event cur w w1); rewrite ?Hfate; try done. by right; right. }
  apply wp_bind. destruct (accuracy_exceeded (dto_of_event event)) eqn:Hacc.
  { unfold report. rewrite Hacc. by apply nothing_happened. }
  assert (Hfate : event_fate event cur w = match event_failure event cur (w_db w) with
    | None => Applied | Some e => if isStaleAreaViolation e then Obsolete else Unusable end)
    by (unfold event_fate; by rewrite Hdup, Hacc).
  eapply wp_mono; [|by apply (report_worker_wp config num_to_string plain _ _ cur)].
  intros r w2 [Hout [_ _ Hls _ _ Hset]].
  pose proof (report_why plain event cur w1 r w2 Hnd Hcoh Hout) as Hwhy.
  apply (report_outcome_mono plain no_lost) in Hout; [|by intros f [? _]].
  apply report_worker_cases in Hout as [Hcoh2 Hcases]; [|apply no_dedup_event|done|done].
  destruct Hcases as [(e & -> & Hdb)|(resp & -> & Hmv)].
  - assert (Hw2 : untouched event w w2).
    { split; [done|]. intros d. rewrite <- (known_seq_looked_up event d w). unfold known_seq.
      by rewrite Hls, Hdb. }
    destruct (isStaleAreaViolation e) eqn:He; [|by apply nothing_happened].
    destruct Hwhy as [(f & [_ Hf] & Hr)|Hfail]; [apply Hf in Hr; congruence|].
    change (w_db w1) with (w_db w) in Hfail. rewrite Hfail, He in Hfate.
    apply settle_failure_end. rewrite He. intros new w' Hw' Hnew.
    eapply (fate_settled tag event cur w w2); rewrite ?Hfate; try done. naive_solver.
  - change (w_db w1) with (w_db w) in Hwhy. rewrite Hwhy in Hfate.
    rewrite effective_capturedAt_event in Hmv.
    pose proof (effect_settled_wp tag event cur w w2 Hfate Hcoh2 Hset Hls Hmv) as Hend.
    by apply wp_try_catch in Hend.
Qed.

(** ** The refinement *)

(** The tables keep the machine's stored numbers: the worker never writes them. *)
Definition rep_stored (u : string) (stored : string → Z) (w : World) : Prop :=
  ∀ d, stored_seq u (w_db w) d = stored d.

(** The snapshot's answers for the messages of the user. *)
Definition answered (u : string) (i : area_index) (m : nat * LocationEventV1 * list string) : Prop :=
  ev_userId m.1.2 = u ∧ NoDup m.2 ∧ find_covering i (ev_lng m.1.2) (ev_lat m.1.2) = inr m.2.

Lemma fate_visits u known v w event cur :
  ev_userId event = u → rep_world u known v w →
  visit_event known event cur v =
    (event_fate event cur w,
     match event_fate event cur w with Applied => visit_step event cur v | _ => v end).
Proof.
  intros Hu Hrep. subst u. unfold visit_event, event_fate.
  pose proof (duplicate_rep _ known v w event eq_refl Hrep) as Hdup.
  rewrite <- Hdup. destruct (duplicate_event event w); [done|].
  destruct (accuracy_exceeded (dto_of_event event)); [done|].
  rewrite (admission_rep known event cur v w Hrep).
  destruct (event_failure event cur (w_db w)) as [e|]; [|done]. by destruct (isStaleAreaViolation e).
Qed.

Lemma known_seq_user e1 e2 d w : ev_userId e1 = ev_userId e2 → known_seq e1 d w = known_seq e2 d w.
Proof. unfold known_seq. by intros ->. Qed.

Lemma untouched_rep u known v event w w' :
  ev_userId event = u → untouched event w w' → coherent u w' →
  rep_world u known v w → rep_world u known v w'.
Proof.
  intros Hu [Hdb Hk] Hc [Ht Hkn _ Ha]. split; rewrite ?Hdb; try done.
  intros event' d Hu'. rewrite <- (Hkn event' d Hu').
  rewrite !(known_seq_user event' event) by congruence. apply Hk.
Qed.

Lemma took_effect_rep u known v event cur w w' :
  ev_userId event = u → took_effect event cur w w' → coherent u w' →
  rep_world u known v w → rep_world u known (visit_step event cur v) w'.
Proof.
  intros Hu [Hmv Hk] Hc [Ht Hkn _ Ha]. subst u. split; [|..|done|].
  - by eapply event_moved_visit.
  - intros event' d Hu'. rewrite (known_seq_user event' event) by done. rewrite Hk.
    cbn [visit_step v_seq]. by rewrite (Hkn event d).
  - intros a. by rewrite Ha, (moved_areas _ _ _ _ _ _ Hmv).
Qed.

(** One message under a schedule of failures. *)
Lemma disturbed_refines u known stored v m fs w :
  Forall plain fs → answered u (w_areas w) m → rep_world u known v w → rep_stored u stored w →
  let w' := (run exec (processEvent config num_to_string m.1.1 m.1.2) fs w).1.2 in
  rep_stored u stored w' ∧ ∃ v' new, disturbed_end known m v v' new ∧
    rep_world u known v' w' ∧ w_settled w' = w_settled w ++ new.
Proof.
  intros Hfs (Hu & Hnd & Hfind) Hrep Hst w'.
  assert (Hatt : attempted m.1.1 m.1.2 m.2 w w').
  { apply (wp_run exec plain _ (λ _ w', attempted m.1.1 m.1.2 m.2 w w')); [by split|done|].
    apply attempted_wp; [done| |done]. rewrite Hu. apply Hrep. }
  destruct Hatt as [Hc (new & Hset & Hend)]. rewrite Hu in Hc.
  assert (Hun : untouched m.1.2 w w' → rep_stored u stored w' ∧ rep_world u known v w').
  { intros Hw'. split; [|by eapply untouched_rep].
    intros d. destruct Hw' as [Hdb _]. unfold stored_seq. rewrite Hdb. apply Hst. }
  destruct Hend as [[Hw' Hnew]|[Hw' Hnew]].
  { destruct (Hun Hw') as [? ?]. split; [done|]. exists v, new. by split_and!; [apply de_nothing|..]. }
  pose proof (fate_visits u known v w m.1.2 m.2 Hu Hrep) as Hfate.
  destruct (event_fate m.1.2 m.2 w) eqn:Ef.
  1,2,3: destruct (Hun Hw') as [? ?]; (split; [done|]); exists v, new;
    by split_and!; [eapply de_effect|..].
  split.
  - intros d. unfold stored_seq. rewrite (moved_event_state _ _ _ _ _ _ (proj1 Hw')). apply Hst.
  - exists (visit_step m.1.2 m.2 v), new. split_and!; [by eapply de_effect|by eapply took_effect_rep|done].
Qed.

(** The messages of a life, one after the other. *)
Lemma life_refines u known stored v ms fs w :
  Forall plain fs → Forall (answered u (w_areas w)) ms → rep_world u known v w →
  rep_stored u stored w →
  let w' := (seq_all (task_of config num_to_string <$> ms.*1) fs w).1 in
  w_areas w' = w_areas w ∧ rep_stored u stored w' ∧
  ∃ v' new, visit_life known v ms v' new ∧ rep_world u known v' w' ∧
    w_settled w' = w_settled w ++ new.
Proof.
  revert v fs w. induction ms as [|m ms IH]; intros v fs w Hfs Hms Hrep Hst.
  { split_and!; [done|done|]. exists v, []. rewrite app_nil_r. by split_and!; [constructor|..]. }
  apply Forall_cons in Hms as [Hm Hms]. rewrite !fmap_cons. cbn [seq_all].
  destruct (disturbed_refines u known stored v m fs w Hfs Hm Hrep Hst)
    as (Hst1 & v1 & new1 & Hend & Hrep1 & Hset1).
  pose proof (run_areas (processEvent config num_to_string m.1.1 m.1.2) fs w) as Ha.
  pose proof (run_rest exec plain (processEvent config num_to_string m.1.1 m.1.2) fs w Hfs) as Hrest.
  unfold task_of at 1. destruct (run exec _ fs w) as [[r w1] fs1]. cbn [fst snd] in *.
  destruct (IH v1 fs1 w1 Hrest) as (Ha2 & Hst2 & v2 & new2 & Hlife & Hrep2 & Hset2);
    [by rewrite Ha|done|done|].
  split_and!; [congruence|done|]. exists v2, (new1 ++ new2).
  split_and!; [by econstructor|done|]. by rewrite Hset2, Hset1, app_assoc.
Qed.

(** The settlements of a life are those of its messages. *)
Lemma disturbed_end_tags known m v v' new :
  disturbed_end known m v v' new → Forall (λ s, settlement_tag s = m.1.1) new.
Proof.
  destruct 1 as [new Hnew|o v' new _ Hnew].
  - destruct Hnew as [->| ->]; repeat constructor.
  - destruct Hnew as [->|[->| ->]]; repeat constructor. by destruct o.
Qed.

Lemma life_tags (P : nat → Prop) known v ms v' new :
  visit_life known v ms v' new → Forall (λ m, P m.1.1) ms →
  Forall (λ s, P (settlement_tag s)) new.
Proof.
  induction 1 as [|v m v1 new ms v2 more Hend Hlife IH]; [done|].
  intros [Hm Hms]%Forall_cons. apply Forall_app. split; [|by apply IH].
  eapply Forall_impl; [by eapply disturbed_end_tags|]. by intros s ->.
Qed.

Lemma restart_rep u known stored v w :
  rep_stored u stored w → rep_world u known v w →
  rep_world u known (crash_visits stored v) (restart w).
Proof.
  intros Hst [[Hin Hlog] Hk Hc Ha]. split; [by split| |apply coherent_restart|done].
  intros event d <-. cbn [crash_visits v_seq]. rewrite <- Hst. unfold known_seq, stored_seq.
  cbn [restart w_lastSeq w_db]. by rewrite lookup_empty.
Qed.

(** ** Killing the worker *)

(** The fault of every operation that a killed worker does not perform. *)
Definition killed : fault := FFail (Error "killed").

Lemma plain_killed : plain killed.
Proof. split; [done|]. by intros e [= <-]. Qed.

Lemma killed_exec X (op : ioop X) w :
  restart (exec X killed op w).2 = restart w ∧ w_settled (exec X killed op w).2 = w_settled w.
Proof. destruct w, op; by split. Qed.

(** What was not performed when the worker died is as if each operation of it failed. *)
Lemma killed_run {X} (p : prog ioop X) w :
  ∃ fs r w', Forall plain fs ∧ (∀ more, run exec p (fs ++ more) w = (r, w', more)) ∧
    restart w' = restart w ∧ w_settled w' = w_settled w.
Proof.
  revert w. induction p as [x|e|Y op k IH]; intros w; [by exists [], (inr x), w|by exists [], (inl e), w|].
  destruct (killed_exec Y op w) as [Hr Hs]. destruct (exec Y killed op w) as [r w1] eqn:E.
  destruct (IH r w1) as (fs & r' & w' & Hfs & Hrun & Hr' & Hs').
  exists (killed :: fs), r', w'. split_and!; cbn [fst snd] in *; try congruence.
  - by constructor; [apply plain_killed|].
  - intros more. cbn [app run head tail default from_option]. unfold id. by rewrite E.
Qed.

Lemma killed_lane (ps : lane) w :
  ∃ fs, Forall plain fs ∧ let w' := (seq_all ps fs w).1 in
    restart w' = restart w ∧ w_settled w' = w_settled w.
Proof.
  revert w. induction ps as [|p ps IH]; intros w; [by exists []|].
  destruct (killed_run p w) as (fs1 & r & w1 & Hfs1 & Hrun & Hr1 & Hs1).
  destruct (IH w1) as (fs2 & Hfs2 & Hr2 & Hs2).
  exists (fs1 ++ fs2). split; [by apply Forall_app|]. cbn [seq_all]. rewrite Hrun.
  cbv zeta in *. split; congruence.
Qed.

(** ** Lives *)

Variable tag_owner : nat → option string.

(** The worker is started, and killed whenever it may be; and started again. The
    settlements of a user in each of its lives are collected. *)
Fixpoint live (u : string) (lives : list (list chain_event)) (w : World) :
    option (World * list (list settlement)) :=
  match lives with
  | [] => Some (w, [])
  | es :: lives =>
      match chain_turns config num_to_string es (fresh w) with
      | None => None
      | Some s =>
          match live u lives (restart (cw_world s)) with
          | None => None
          | Some (w', settled) => Some (w', settled_for tag_owner u (cw_world s) :: settled)
          end
      end
  end.

Lemma same_view_restart u w1 w2 :
  same_view tag_owner u w1 w2 → same_view tag_owner u (restart w1) (restart w2).
Proof. intros [? ? ? ? ?]. by split. Qed.

(** A life of the worker, seen by a user: its messages one after the other, under some
    of the failures and others that stand for what was not done any more. *)
Lemma life_sequential u es w s :
  chain_turns config num_to_string es (fresh w) = Some s →
  Forall (honest tag_owner) (arrivals es) → Forall colon_free (arrivals es) →
  no_colon u = true → Forall (event_fault plain) es →
  ∃ fs, Forall plain fs ∧
    let w' := (seq_all (task_of config num_to_string <$> delivered u (arrivals es)) fs w).1 in
    same_view tag_owner u (restart (cw_world s)) (restart w') ∧
    settled_for tag_owner u (cw_world s) = settled_for tag_owner u w'.
Proof.
  intros Hs Hh Hc Hu Hes. set (acts := lane_trace config num_to_string es (fresh w)).
  pose proof (turns_simulated config num_to_string es (fresh w) s (idle w) (fresh_simulates w) Hs)
    as [_ Hw _]. change (foldl _ (idle w) _) with (serve config num_to_string w acts) in Hw.
  destruct (serve_same config num_to_string tag_owner u acts w) as [_ Hview];
    [by eapply trace_honest|by eapply trace_colon_free|done|].
  destruct (solo_sequential config num_to_string u _ (idle w) (filter_concerned u acts))
    as (fs & HP & Hseq).
  change (foldl _ (idle w) ?l) with (serve config num_to_string w l) in Hseq.
  set (s1 := serve config num_to_string w (filter _ acts)) in *.
  destruct (killed_lane (lane_of u s1) (world s1)) as (fs' & Hfs' & Hr & Hset).
  exists (fs ++ fs'). split.
  { apply Forall_app. split; [|done]. by apply HP, act_fault_filter; eapply trace_faults. }
  specialize (Hseq fs'). rewrite lane_of_idle, delivered_filter in Hseq. cbn [app world idle] in Hseq.
  unfold acts in Hseq. rewrite (delivered_trace config num_to_string u es (fresh w) s Hs) in Hseq.
  cbv zeta. rewrite Hseq. unfold settled_for in *. split.
  - rewrite Hr, <- Hw. by apply same_view_restart.
  - rewrite Hset, <- Hw. apply (sv_settled _ _ _ _ Hview).
Qed.

(** What is asked of a life: delivery tags tell their users, users have no colon in their
    names, and the failures are plain. *)
Definition life_ok (es : list chain_event) : Prop :=
  Forall (honest tag_owner) (arrivals es) ∧ Forall colon_free (arrivals es) ∧
  Forall (event_fault plain) es.

(** The messages of the user that arrived in the life, with the snapshot's answers. *)
Definition life_messages (u : string) (i : area_index) (es : list chain_event)
    (ms : list (nat * LocationEventV1 * list string)) : Prop :=
  delivered u (arrivals es) = ms.*1 ∧ Forall (answered u i) ms.

Lemma one_life_refines u known stored v es ms w s :
  chain_turns config num_to_string es (fresh w) = Some s → no_colon u = true → life_ok es →
  life_messages u (w_areas w) es ms → rep_world u known v w → rep_stored u stored w →
  settled_for tag_owner u w = [] →
  w_areas (cw_world s) = w_areas w ∧ rep_stored u stored (restart (cw_world s)) ∧
  ∃ v', visit_life known v ms v' (settled_for tag_owner u (cw_world s)) ∧
    rep_world u known (crash_visits stored v') (restart (cw_world s)).
Proof.
  intros Hs Hu (Hh & Hc & Hes) [Hms Hall] Hrep Hst Hset0.
  destruct (life_sequential u es w s Hs Hh Hc Hu Hes) as (fs & Hfs & Hview & Hset).
  rewrite Hms in Hview, Hset.
  destruct (life_refines u known stored v ms fs w Hfs Hall Hrep Hst)
    as (Ha & Hst1 & v1 & new & Hlife & Hrep1 & Hset1).
  set (w1 := (seq_all _ fs w).1) in *. split_and!.
  - pose proof (sv_index _ _ _ _ Hview) as Hi. cbn [restart w_areas] in Hi. congruence.
  - intros d. unfold stored_seq. rewrite (sr_state _ _ _ (sv_rows _ _ _ _ Hview) d). apply Hst1.
  - exists v1. split.
    + rewrite Hset. unfold settled_for in *. rewrite Hset1, filter_app, Hset0. cbn [app].
      rewrite filter_all; [done|]. apply (life_tags (λ t, tag_owner t = Some u) _ _ _ _ _ Hlife).
      pose proof (delivered_owned tag_owner u (arrivals es) Hh) as Hown. rewrite Hms in Hown.
      by apply Forall_fmap in Hown.
    + eapply rep_world_same_view; [by symmetry|]. by apply restart_rep.
Qed.

(** At-least-once delivery refines the machine of visits. Whatever the worker goes
    through, with the messages of all users in flight on their promise chains, any
    failures short of a lost COMMIT answer, and lives that end with the process killed at
    any moment, what a user sees follows the machine over the user's messages as they
    were delivered in each life: every message has all of its effect or none, it is
    acknowledged only if it had the effect that it has undisturbed, and a crash costs
    the numbers that were remembered and nothing else. *)
Theorem lives_refine_visits u known stored v lives mss w w' settled :
  live u lives w = Some (w', settled) → no_colon u = true → Forall life_ok lives →
  Forall2 (life_messages u (w_areas w)) lives mss →
  rep_world u known v w → rep_stored u stored w → settled_for tag_owner u w = [] →
  ∃ v', visit_lives known stored v mss v' settled ∧
    rep_world u known v' w' ∧ rep_stored u stored w'.
Proof.
  intros Hlive Hu Hok Hms. revert v w settled Hlive Hms.
  revert mss. induction Hok as [|es lives Hes Hok IH]; intros mss v w settled Hlive Hms Hrep Hst Hset.
  { apply Forall2_nil_inv_l in Hms as ->. injection Hlive as -> <-.
    exists v. split; [constructor|done]. }
  apply Forall2_cons_inv_l in Hms as (ms & mss' & Hm & Hms & ->). cbn [live] in Hlive.
  destruct (chain_turns config num_to_string es (fresh w)) as [s|] eqn:Hs; [|done].
  destruct (live u lives (restart (cw_world s))) as [[w2 more]|] eqn:Hl; [|done].
  injection Hlive as -> <-.
  destruct (one_life_refines u known stored v es ms w s Hs Hu Hes Hm Hrep Hst Hset)
    as (Ha & Hst1 & v1 & Hlife & Hrep1).
  destruct (IH mss' (crash_visits stored v1) _ more Hl) as (v2 & Hlives & Hrep2);
    [by rewrite <- Ha in Hms|done..|].
  exists v2. split; [by econstructor|done].
Qed.

(** ** What the machine never does *)

(** An acknowledged message had the effect that it has undisturbed. *)
Lemma acknowledged_took_effect known m v v' new :
  disturbed_end known m v v' new → SAck m.1.1 ∈ new →
  ∃ o, o ≠ Unusable ∧ visit_event known m.1.2 m.2 v = (o, v').
Proof.
  destruct 1 as [new Hnew|o v' new Hv Hnew]; intros Hin.
  - destruct Hnew as [->| ->]; [by apply not_elem_of_nil in Hin|].
    by apply list_elem_of_singleton in Hin.
  - exists o. split; [|done]. intros ->. destruct Hnew as [->|[->| ->]];
      [by apply not_elem_of_nil in Hin|by apply list_elem_of_singleton in Hin..].
Qed.

(** An entry of the log comes from a delivered message: its area covers the message's
    point, and the times are the message's. *)
Definition entry_of (ms : list (nat * LocationEventV1 * list string))
    (x : string * Z * option string) : Prop :=
  ∃ m, m ∈ ms ∧ x.1.1 ∈ m.2 ∧ x.1.2 = ev_receivedAt m.1.2 ∧ x.2 = ev_capturedAt m.1.2.

(** The machine has moved by the messages: its log grew by their entries, and the
    memberships are those it had, or the areas of one of them. *)
Definition moved_by (ms : list (nat * LocationEventV1 * list string)) (v v' : Visits) : Prop :=
  (∃ new, v_log v' = v_log v ++ new ∧ Forall (entry_of ms) new) ∧
  (v_inside v' = v_inside v ∨ ∃ m, m ∈ ms ∧ v_inside v' = m.2).

Lemma moved_by_refl ms v v' : v_inside v' = v_inside v → v_log v' = v_log v → moved_by ms v v'.
Proof. intros Hi Hl. split; [exists []; by rewrite app_nil_r|by left]. Qed.

Lemma moved_by_trans ms1 ms2 v v1 v2 :
  moved_by ms1 v v1 → moved_by ms2 v1 v2 → moved_by (ms1 ++ ms2) v v2.
Proof.
  intros [(n1 & Hl1 & Hn1) Hi1] [(n2 & Hl2 & Hn2) Hi2]. split.
  - exists (n1 ++ n2). rewrite Hl2, Hl1, app_assoc. split; [done|]. apply Forall_app.
    split; (eapply Forall_impl; [eassumption|]); intros x (m & Hm & ?); exists m;
      (split; [apply elem_of_app; auto|done]).
  - destruct Hi2 as [->|(m & Hm & ->)]; [|right; exists m; split; [apply elem_of_app; auto|done]].
    destruct Hi1 as [->|(m & Hm & ->)]; [by left|].
    right. exists m. split; [apply elem_of_app; auto|done].
Qed.

Lemma visit_event_cases known event cur v :
  (visit_event known event cur v).2 = v ∨ (visit_event known event cur v).2 = visit_step event cur v.
Proof.
  unfold visit_event. destruct (match ev_deviceId event with Some _ => _ | None => _ end); [by left|].
  destruct (accuracy_exceeded _); [by left|]. destruct (admission _ _ _); by auto.
Qed.

Lemma disturbed_end_moved known m v v' new : disturbed_end known m v v' new → moved_by [m] v v'.
Proof.
  destruct 1 as [new _|o v' new Hv _]; [by apply moved_by_refl|].
  destruct (visit_event_cases known m.1.2 m.2 v) as [E|E]; rewrite Hv in E; cbn [snd] in E; subst v';
    [by apply moved_by_refl|].
  split; [|right; exists m; split; [by left|done]]. eexists. split; [done|].
  apply Forall_forall. intros x (a & -> & Ha)%list_elem_of_fmap. exists m.
  split_and!; [by left| |done|done]. by apply elem_of_js_sort, elem_of_list_minus in Ha as [? _].
Qed.

Lemma visit_life_moved known v ms v' new : visit_life known v ms v' new → moved_by ms v v'.
Proof.
  induction 1 as [v|v m v1 new ms v2 more Hend Hlife IH]; [by apply moved_by_refl|].
  apply (moved_by_trans [m] ms v v1 v2); [by eapply disturbed_end_moved|done].
Qed.

(** The machine invents nothing: its log grows by entries of delivered messages in areas
    that covered them, and the memberships are those it had, or the areas that covered
    the point of one of the messages. *)
Theorem lives_invent_nothing known stored v mss v' settled :
  visit_lives known stored v mss v' settled → moved_by (concat mss) v v'.
Proof.
  induction 1 as [v|v ms v1 new mss v2 more Hlife Hlives IH]; [by apply moved_by_refl|].
  cbn [concat]. apply (moved_by_trans ms (concat mss) v v1 v2); [by eapply visit_life_moved|].
  destruct IH as [(n & Hl & Hn) Hi]. split; [by exists n|done].
Qed.
End redelivery.

(** ** Witnesses *)

#[local] Existing Instances fx_postgis fx_redis fx_lookup.

(** Nothing is known of the user. *)
Lemma fx_rep_world : rep_world "u" fx_exists fx_visits fx_world.
Proof. split; [by split|reflexivity|by apply coherent_cold|done]. Qed.

Lemma fx_rep_stored : rep_stored "u" (λ _, 0%Z) fx_world.
Proof. done. Qed.

(** The worker dies after the transaction of "u", before it acknowledges; "v" is not
    finished either. It is started again, the message of "u" comes again, and is
    given back once because the database fails. *)
Definition fx_lives : list (list chain_event) :=
  [ [Receive (fx_message 1 fx_inside); Receive (fx_message 3 fx_inside_v); Begin 0] ++
    fx_steps 0 4 ++ [Begin 1] ++ fx_steps 1 2 ++ fx_steps 0 5;
    [Receive (fx_message 1 fx_inside); Begin 0; Step 0 FOk; Step 0 (FFail (Error "gone"));
     Step 0 FOk; End 0; Clean 0; Receive (fx_message 2 fx_inside); Begin 1] ++ fx_steps 1 11 ++
    [End 1; Clean 1] ].

Definition fx_lived : option (World * list (list settlement)) :=
  live fx_config fx_num_to_string fx_owner "u" fx_lives fx_world.

Definition fx_delivered : list (list (nat * LocationEventV1 * list string)) :=
  [ [(1, fx_inside, ["area-b"; "area-a"])];
    [(1, fx_inside, ["area-b"; "area-a"]); (2, fx_inside, ["area-b"; "area-a"])] ].

Lemma fx_lives_ok : Forall (life_ok fx_owner) fx_lives.
Proof.
  repeat (constructor; [split_and!|]); [..|constructor].
  1,4: repeat (constructor; [done|]); constructor.
  1,3: repeat (constructor; [intros v Hv; vm_compute in Hv; by simplify_eq|]); constructor.
  all: repeat (constructor; [first [exact I|split; [done|by intros e [= <-]]]|]); constructor.
Qed.

Lemma fx_lives_messages :
  Forall2 (life_messages "u" (w_areas fx_world)) fx_lives fx_delivered.
Proof.
  repeat (constructor; [split; [vm_compute; reflexivity|]|]); [..|constructor];
    repeat constructor; try (vm_compute; reflexivity);
    by apply (bool_decide_unpack _); vm_compute.
Qed.

(** Its messages have their effect once, although the one that had it was not settled. *)
Lemma lives_refine_visits_witness :
  match fx_lived with
  | Some (w', settled) =>
      (∃ v', visit_lives fx_exists (λ _, 0%Z) fx_visits fx_delivered v' settled ∧
        rep_world "u" fx_exists v' w' ∧ rep_stored "u" (λ _, 0%Z) w') ∧
      settled = [[]; [SNack 1 false true; SAck 2]] ∧
      user_log "u" (w_db w') = [("area-a", 5000%Z, None); ("area-b", 5000%Z, None)]
  | None => False
  end.
Proof.
  assert (Hrun : match fx_lived with
    | Some (w', settled) => settled = [[]; [SNack 1 false true; SAck 2]] ∧
        user_log "u" (w_db w') = [("area-a", 5000%Z, None); ("area-b", 5000%Z, None)]
    | None => False
    end) by (vm_compute; by split).
  destruct fx_lived as [[w' settled]|] eqn:Hl; [|destruct Hrun]. split; [|exact Hrun].
  unfold fx_lived in Hl. by apply (lives_refine_visits fx_config fx_num_to_string fx_owner "u" fx_exists (λ _, 0%Z)
    fx_visits fx_lives fx_delivered fx_world w' settled Hl eq_refl fx_lives_ok fx_lives_messages
    fx_rep_world fx_rep_stored).
Defined.
