(* ===== verification/Replay.v ===== *)
(** What a crash costs and what a late retry does, exactly: unacknowledged messages that
    are delivered again after a crash are walked through a second time, and a message
    given back that comes after a newer one is absorbed only by its number. *)

From S2P Require Import Prelude Num Js Prog Db World Presence Locations Transition.
From S2P Require Import Report Ingest Worker WorkerCorrect Delivery Pipeline Redelivery Fixtures.

Section replay.
Context {gis : PostGIS} {store : RedisStore} {lookup : AreaLookup}.
Variable config : RedisConfig.
Variable num_to_string : number → string.

Lemma process_next_state event cur w m :
  m.2 = event → NoDup cur → find_covering (w_areas w) (ev_lng event) (ev_lat event) = inr cur →
  user_event_state (w_db (process_next config num_to_string w m)) = user_event_state (w_db w).
Proof.
  intros <- Hnd Hfind. destruct (deliver_any config num_to_string m.2 cur w
    {| at_tag := m.1; at_faults := []; at_restarted := false |} Hnd Hfind) as [_ Hdb].
  change (w_db (deliver config num_to_string m.2 w _)) with
    (w_db (process_next config num_to_string w m)) in Hdb.
  destruct Hdb as [->|Hmv]; [done|]. by apply (moved_event_state _ _ _ _ _ _ Hmv).
Qed.

(** ** A replay after a crash *)

(** Undisturbed, the messages have their effect one after the other. *)
Definition visit_steps (v : Visits) (ms : list (nat * LocationEventV1 * list string)) : Visits :=
  foldl (λ v m, visit_step m.1.2 m.2 v) v ms.

(** The entries the steps log, from the areas one is inside of. *)
Fixpoint entries_from (inside : list string) (ms : list (nat * LocationEventV1 * list string)) :
    list (string * Z * option string) :=
  match ms with
  | [] => []
  | (m, cur) :: ms =>
      ((λ a, (a, ev_receivedAt m.2, ev_capturedAt m.2)) <$> js_sort (list_minus cur inside)) ++
      entries_from cur ms
  end.

(** Every message of the stream is usable: accurate, in areas that exist, captured at a
    time the server reads, and its number is higher than those before it. *)
Fixpoint fresh_stream (known : string → bool) (seq : string → Z)
    (ms : list (nat * LocationEventV1 * list string)) : Prop :=
  match ms with
  | [] => True
  | (m, cur) :: ms =>
      (∀ d s, ev_deviceId m.2 = Some d → ev_seq m.2 = Some s → (seq d < s)%Z) ∧
      accuracy_exceeded (dto_of_event m.2) = false ∧
      captured_error (ev_capturedAt m.2) = None ∧ (∀ a, a ∈ cur → known a = true) ∧
      fresh_stream known (λ d, if decide (ev_deviceId m.2 = Some d)
                               then default (seq d) (ev_seq m.2) else seq d) ms
  end.

Lemma admission_known known captured entered :
  captured_error captured = None → (∀ a, a ∈ entered → known a = true) →
  admission known captured entered = Applied.
Proof.
  intros Hc. induction entered as [|a entered IH]; intros Hk; [done|]. cbn [admission].
  rewrite Hk, Hc by by left. apply IH. intros b Hb. apply Hk. by right.
Qed.

Lemma fresh_stream_mono known seq seq' ms :
  (∀ d, (seq' d <= seq d)%Z) → fresh_stream known seq ms → fresh_stream known seq' ms.
Proof.
  revert seq seq'. induction ms as [|[m cur] ms IH]; intros seq seq' Hle; [done|].
  intros (Hs & Hacc & Hc & Hk & Hms). cbn [fresh_stream]. split_and!; [|done..|].
  - intros d s Hd Hse. specialize (Hs d s Hd Hse). specialize (Hle d). lia.
  - eapply IH; [|exact Hms]. intros d. cbv beta. case_decide; [|apply Hle].
    destruct (ev_seq m.2); [done|apply Hle].
Qed.

Lemma fresh_applied known seq m cur v :
  (∀ d, v_seq v d = seq d) → fresh_stream known seq [(m, cur)] →
  visit_event known m.2 cur v = (Applied, visit_step m.2 cur v).
Proof.
  intros Hseq (Hs & Hacc & Hc & Hk & _). unfold visit_event.
  replace (match ev_deviceId m.2 with Some _ => _ | None => _ end) with false.
  - rewrite Hacc, admission_known; [done|done|].
    intros a Ha. apply Hk. by apply elem_of_js_sort, elem_of_list_minus in Ha as [? _].
  - destruct (ev_deviceId m.2) as [d|] eqn:Hd; [|done].
    destruct (ev_seq m.2) as [s|] eqn:Hse; [|done].
    symmetry. apply Z.leb_gt. rewrite Hseq. by apply Hs.
Qed.

Lemma fresh_steps_acc known ms v acc :
  fresh_stream known (v_seq v) ms →
  foldl (λ acc m, let '(o, v') := visit_event known m.1.2 m.2 acc.1 in
                  (v', acc.2 ++ [settlement_of m.1.1 o])) (v, acc) ms =
    (visit_steps v ms, acc ++ ((λ m, SAck m.1.1) <$> ms)).
Proof.
  revert v acc. induction ms as [|[m cur] ms IH]; intros v acc Hf; [by rewrite app_nil_r|].
  pose proof Hf as (Hs & Hacc & Hc & Hk & Hms). cbn [foldl fst snd].
  rewrite (fresh_applied known (v_seq v) m cur v); [|done|by split_and!].
  rewrite IH by done. by rewrite fmap_cons, <- app_assoc.
Qed.

Lemma fresh_steps known ms v :
  fresh_stream known (v_seq v) ms →
  visit_all known v ms = (visit_steps v ms, (λ m, SAck m.1.1) <$> ms).
Proof. intros Hf. unfold visit_all. by rewrite fresh_steps_acc. Qed.

Lemma visit_steps_spec ms v :
  v_inside (visit_steps v ms) = default (v_inside v) (snd <$> last ms) ∧
  v_log (visit_steps v ms) = v_log v ++ entries_from (v_inside v) ms.
Proof.
  unfold visit_steps. revert v. induction ms as [|[m cur] ms IH]; intros v; [by rewrite app_nil_r|].
  cbn [foldl fst snd entries_from]. destruct (IH (visit_step m.2 cur v)) as [-> ->]. split.
  - cbn [visit_step v_inside]. destruct ms as [|m' ms]; [done|].
    change (last ((m, cur) :: m' :: ms)) with (last (m' :: ms)).
    by destruct (last (m' :: ms)) eqn:E; [|apply last_None in E].
  - cbn [visit_step v_log v_inside]. unfold entered_by. by rewrite <- app_assoc.
Qed.

Lemma fresh_stream_suffix known seq ps rs : fresh_stream known seq (ps ++ rs) → fresh_stream known seq rs.
Proof.
  revert seq. induction ps as [|[m cur] ps IH]; intros seq; [done|].
  cbn [app fresh_stream]. intros (Hs & _ & _ & _ & Hms). apply IH.
  eapply fresh_stream_mono; [|exact Hms]. intros d. cbv beta. case_decide as Hd; [|lia].
  destruct (ev_seq m.2) as [s|] eqn:Hse; cbn [default from_option]; [|unfold id; lia].
  specialize (Hs d s Hd eq_refl). unfold id. lia.
Qed.

(** What a message says and where it is; the broker numbers the deliveries anew. *)
Definition payload (m : nat * LocationEventV1 * list string) : LocationEventV1 * list string :=
  (m.1.2, m.2).

(** The same messages, delivered again. *)
Definition same_payloads (rs' rs : list (nat * LocationEventV1 * list string)) : Prop :=
  payload <$> rs' = payload <$> rs.

Lemma same_payloads_ind (P : list (nat * LocationEventV1 * list string) →
    list (nat * LocationEventV1 * list string) → Prop) :
  P [] [] → (∀ t t' e cur rs' rs, same_payloads rs' rs → P rs' rs →
    P ((t', e, cur) :: rs') ((t, e, cur) :: rs)) →
  ∀ rs' rs, same_payloads rs' rs → P rs' rs.
Proof.
  intros Hnil Hcons rs'. induction rs' as [|[[t' e'] c'] rs' IH]; intros [|[[t e] c] rs]; try done.
  intros [= -> -> Hrs]. apply Hcons; [done|]. by apply IH.
Qed.

Lemma same_payloads_entries rs' rs inside :
  same_payloads rs' rs → entries_from inside rs' = entries_from inside rs.
Proof.
  intros Hrs. revert rs' rs Hrs inside. apply (same_payloads_ind (λ rs' rs, ∀ inside, _)); [done|].
  intros t t' e cur rs' rs _ IH inside. cbn. by rewrite IH.
Qed.

Lemma same_payloads_fresh known rs' rs seq :
  same_payloads rs' rs → fresh_stream known seq rs → fresh_stream known seq rs'.
Proof.
  intros Hrs. revert rs' rs Hrs seq.
  apply (same_payloads_ind (λ rs' rs, ∀ seq, fresh_stream _ _ rs → fresh_stream _ _ rs')); [done|].
  intros t t' e cur rs' rs _ IH seq (Hs & Hacc & Hc & Hk & Hms). cbn. split_and!; [done..|]. by apply IH.
Qed.


Lemma same_payloads_answered u i rs' rs :
  same_payloads rs' rs → Forall (answered u i) rs → Forall (answered u i) rs'.
Proof.
  revert rs' rs. apply (same_payloads_ind (λ rs' rs, Forall _ rs → Forall _ rs')); [done|].
  intros t t' e cur rs' rs _ IH [Hm Hms]%Forall_cons. constructor; [done|]. by apply IH.
Qed.

(** A fresh stream processed undisturbed: its steps, and the tables keep their numbers. *)
Lemma process_fresh u known stored v ms w :
  rep_world u known v w → rep_stored u stored w → Forall (answered u (w_areas w)) ms →
  fresh_stream known (v_seq v) ms →
  let w' := foldl (process_next config num_to_string) w ms.*1 in
  rep_world u known (visit_steps v ms) w' ∧ rep_stored u stored w' ∧ w_areas w' = w_areas w.
Proof.
  revert v w. induction ms as [|[m cur] ms IH]; intros v w Hrep Hst Hms Hf; [done|].
  apply Forall_cons in Hms as [(Hu & Hnd & Hfind) Hms]. cbn [fst snd] in Hu, Hnd, Hfind.
  cbn [fmap list_fmap foldl fst]. pose proof (process_next_areas config num_to_string w m) as Ha.
  pose proof (process_next_refines config num_to_string known m cur v w Hnd Hfind
    ltac:(by rewrite Hu)) as Hstep.
  rewrite (fresh_applied known (v_seq v) m cur v) in Hstep; [|done|].
  - destruct Hstep as [Hrep1 _]. rewrite Hu in Hrep1. destruct (IH (visit_step m.2 cur v) _ Hrep1) as (Hrep2 & Hst2 & Ha2).
    + intros d. unfold stored_seq. rewrite (process_next_state m.2 cur) by done. apply Hst.
    + by rewrite Ha.
    + apply Hf.
    + split_and!; [done..|]. by rewrite Ha2.
  - destruct Hf as (? & ? & ? & ? & _). by split_and!.
Qed.

(** The machines before the crash and after the replay. *)
Lemma crash_replay_rep u known stored v ps rs rs' w :
  rep_world u known v w → rep_stored u stored w → (∀ d, v_seq v d = stored d) →
  Forall (answered u (w_areas w)) (ps ++ rs) → fresh_stream known stored (ps ++ rs) →
  same_payloads rs' rs →
  let w1 := foldl (process_next config num_to_string) w (ps ++ rs).*1 in
  let v1 := visit_steps v (ps ++ rs) in
  rep_world u known v1 w1 ∧
  rep_world u known (visit_steps (crash_visits stored v1) rs')
    (foldl (process_next config num_to_string) (restart w1) rs'.*1).
Proof.
  intros Hrep Hst Hseq Hms Hf Hrs w1 v1.
  assert (Hf0 : fresh_stream known (v_seq v) (ps ++ rs))
    by (eapply fresh_stream_mono; [|exact Hf]; intros d; by rewrite Hseq).
  destruct (process_fresh u known stored v (ps ++ rs) w Hrep Hst Hms Hf0) as (Hrep1 & Hst1 & Ha1).
  split; [done|]. apply Forall_app in Hms as [_ Hms].
  apply (same_payloads_answered _ _ rs' rs Hrs) in Hms.
  destruct (process_fresh u known stored (crash_visits stored v1) rs' (restart w1)) as (Hrep2 & _).
  - by apply restart_rep.
  - done.
  - cbn [restart w_areas]. by subst w1; rewrite Ha1.
  - apply (same_payloads_fresh known rs' rs); [done|]. by apply fresh_stream_suffix in Hf.
  - done.
Qed.


(** The second delivery of an entry is not absorbed: two unacknowledged messages, the
    first in an area that the second is outside of, and the replay logs the entry of
    the first into that area again, with the same times. *)
Theorem replay_logs_again u known stored v ps m1 m2 c1 c2 rs' a w :
  rep_world u known v w → rep_stored u stored w → (∀ d, v_seq v d = stored d) →
  Forall (answered u (w_areas w)) (ps ++ [(m1, c1); (m2, c2)]) →
  fresh_stream known stored (ps ++ [(m1, c1); (m2, c2)]) →
  same_payloads rs' [(m1, c1); (m2, c2)] → a ∈ c1 → a ∉ c2 →
  a ∉ v_inside (visit_steps v ps) →
  let w1 := foldl (process_next config num_to_string) w (ps ++ [(m1, c1); (m2, c2)]).*1 in
  let w2 := foldl (process_next config num_to_string) (restart w1) rs'.*1 in
  let entry := (a, ev_receivedAt m1.2, ev_capturedAt m1.2) in
  entry ∈ user_log u (w_db w1) ∧
  ∃ again, user_log u (w_db w2) = user_log u (w_db w1) ++ again ∧ entry ∈ again.
Proof.
  intros Hrep Hst Hseq Hms Hf Hrs Ha1 Ha2 Ha0 w1 w2 entry.
  destruct (crash_replay_rep u known stored v ps _ rs' w Hrep Hst Hseq Hms Hf Hrs)
    as [[[_ Hl1] _ _ _] [[_ Hl2] _ _ _]].
  fold w1 in Hl1, Hl2. fold w2 in Hl2. set (v1 := visit_steps v _) in Hl1, Hl2.
  destruct (visit_steps_spec rs' (crash_visits stored v1)) as [_ Hvl2].
  rewrite (same_payloads_entries _ _ _ Hrs) in Hvl2. cbn [crash_visits v_inside v_log] in Hvl2.
  assert (Hentry : ∀ inside, a ∉ inside → entry ∈ entries_from inside [(m1, c1); (m2, c2)]).
  { intros inside Hn. cbn [entries_from]. apply elem_of_app. left. subst entry.
    apply (list_elem_of_fmap_2 (λ a, (a, ev_receivedAt m1.2, ev_capturedAt m1.2))).
    by apply elem_of_js_sort, elem_of_list_minus. }
  assert (Hv1 : v1 = visit_steps (visit_steps v ps) [(m1, c1); (m2, c2)])
    by (subst v1; unfold visit_steps; by rewrite foldl_app).
  split.
  - rewrite Hl1, Hv1, (proj2 (visit_steps_spec _ _)). apply elem_of_app. right. by apply Hentry.
  - eexists. rewrite Hl2, Hvl2, Hl1. split; [done|]. by apply Hentry; rewrite Hv1.
Qed.

(** ** A retry that comes late *)

(** The message was given back, and a newer one of the user was processed before it came
    again. Numbered by the same device it is acknowledged and changes nothing; without
    a number it is applied: the user is back in the areas of the older point, which are
    logged again after the newer ones. *)
Theorem late_retry u known v m1 m2 c1 c2 w :
  rep_world u known v w → Forall (answered u (w_areas w)) [(m2, c2); (m1, c1)] →
  fresh_stream known (v_seq v) [(m2, c2)] → fresh_stream known (v_seq v) [(m1, c1)] →
  let w2 := process_next config num_to_string w m2 in
  let w1 := process_next config num_to_string w2 m1 in
  let v2 := visit_step m2.2 c2 v in
  (∀ d s1 s2, ev_deviceId m1.2 = Some d → ev_deviceId m2.2 = Some d →
     ev_seq m1.2 = Some s1 → ev_seq m2.2 = Some s2 → (s1 ≤ s2)%Z →
     rep_world u known v2 w1 ∧ w_settled w1 = w_settled w2 ++ [SAck m1.1]) ∧
  (ev_deviceId m1.2 = None ∨ ev_seq m1.2 = None →
     rep_world u known (visit_step m1.2 c1 v2) w1 ∧ w_settled w1 = w_settled w2 ++ [SAck m1.1]).
Proof.
  intros Hrep Hms Hf2 Hf1 w2 w1 v2.
  apply Forall_cons in Hms as [(Hu2 & Hnd2 & Hfind2) Hms].
  apply Forall_singleton in Hms as (Hu1 & Hnd1 & Hfind1). cbn [fst snd] in *.
  pose proof (process_next_refines config num_to_string known m2 c2 v w Hnd2 Hfind2
    ltac:(by rewrite Hu2)) as Hstep2.
  rewrite (fresh_applied known (v_seq v)) in Hstep2 by done.
  destruct Hstep2 as [Hrep2 Hset2]. fold w2 v2 in Hrep2, Hset2. rewrite Hu2 in Hrep2.
  pose proof (process_next_refines config num_to_string known m1 c1 v2 w2 Hnd1
    ltac:(subst w2; by rewrite process_next_areas) ltac:(by rewrite Hu1)) as Hstep1.
  fold w1 in Hstep1. rewrite Hu1 in Hstep1. split.
  - intros d s1 s2 Hd1 Hd2 Hs1 Hs2 Hle. unfold visit_event in Hstep1.
    rewrite Hd1, Hs1 in Hstep1. cbn [v2 visit_step v_seq] in Hstep1.
    rewrite decide_True, Hs2 in Hstep1 by done. cbn [default from_option] in Hstep1.
    rewrite (proj2 (Z.leb_le _ _)) in Hstep1 by done. exact Hstep1.
  - intros Hno. rewrite (fresh_applied known (λ d, (v_seq v2 d))) in Hstep1; [exact Hstep1|done|].
    destruct Hf1 as (_ & ? & ? & ? & _). split_and!; [|done..].
    intros d s Hd Hs. by destruct Hno; congruence.
Qed.
End replay.

(** ** Witnesses *)

#[local] Existing Instances fx_postgis fx_redis fx_lookup.

Definition fx_next (w : World) (m : nat * LocationEventV1) : World :=
  process_next fx_config fx_num_to_string w m.

(** The two messages that were not yet acknowledged. *)
Definition fx_unacknowledged : list (nat * LocationEventV1 * list string) :=
  [(1, fx_inside, ["area-b"; "area-a"]); (2, fx_leaving, ["area-b"])].
Definition fx_delivered_again : list (nat * LocationEventV1 * list string) :=
  [(3, fx_inside, ["area-b"; "area-a"]); (4, fx_leaving, ["area-b"])].

Lemma fx_answered : Forall (answered "u" (w_areas fx_world)) ([] ++ fx_unacknowledged).
Proof.
  repeat constructor; try (vm_compute; reflexivity); by apply (bool_decide_unpack _); vm_compute.
Qed.

Lemma fx_known a : a ∈ ["area-b"; "area-a"] → fx_exists a = true.
Proof. by intros [->|[->|[]%not_elem_of_nil]%elem_of_cons]%elem_of_cons. Qed.

Lemma fx_fresh : fresh_stream fx_exists (λ _, 0%Z) ([] ++ fx_unacknowledged).
Proof.
  cbn. split_and!; try done; try (by intros d s [= <-] [= <-]; vm_compute); [exact fx_known|].
  intros a [->|[]%not_elem_of_nil]%elem_of_cons. reflexivity.
Qed.


Lemma replay_logs_again_witness :
  let w1 := foldl fx_next fx_world fx_unacknowledged.*1 in
  let w2 := foldl fx_next (restart w1) fx_delivered_again.*1 in
  ("area-a", 5000%Z, None) ∈ user_log "u" (w_db w1) ∧
  ∃ again, user_log "u" (w_db w2) = user_log "u" (w_db w1) ++ again ∧
    ("area-a", 5000%Z, None) ∈ again.
Proof.
  cbv zeta.
  apply (replay_logs_again fx_config fx_num_to_string "u" fx_exists (λ _, 0%Z) fx_visits []
    (1, fx_inside) (2, fx_leaving) ["area-b"; "area-a"] ["area-b"] fx_delivered_again "area-a" fx_world
    fx_rep_world fx_rep_stored (λ _, eq_refl) fx_answered fx_fresh); [done|..];
    by apply (bool_decide_unpack _); vm_compute.
Defined.

(** The older message, and what it says when the client sends no number. *)
Definition fx_unnumbered : LocationEventV1 := fx_event 7 5 None None 5000.

Definition fx_late (e : LocationEventV1) : World := fx_next (fx_next fx_world (2, fx_leaving)) (3, e).

Lemma fx_late_answered e :
  e ∈ [fx_inside; fx_unnumbered] →
  Forall (answered "u" (w_areas fx_world))
    [((2, fx_leaving), ["area-b"]); ((3, e), ["area-b"; "area-a"])].
Proof.
  intros [->|[->|[]%not_elem_of_nil]%elem_of_cons]%elem_of_cons;
    repeat constructor; try (vm_compute; reflexivity); by apply (bool_decide_unpack _); vm_compute.
Qed.

Lemma fx_late_fresh t e cur :
  e ∈ [fx_inside; fx_leaving; fx_unnumbered] → (∀ a, a ∈ cur → fx_exists a = true) →
  fresh_stream fx_exists (λ _, 0%Z) [(t, e, cur)].
Proof.
  intros [->|[->|[->|[]%not_elem_of_nil]%elem_of_cons]%elem_of_cons]%elem_of_cons Hk;
    cbn; split_and!; try done; by intros d s [= <-] [= <-]; vm_compute.
Qed.

Lemma late_retry_witness :
  let v2 := visit_step fx_leaving ["area-b"] fx_visits in
  rep_world "u" fx_exists v2 (fx_late fx_inside) ∧
  rep_world "u" fx_exists (visit_step fx_unnumbered ["area-b"; "area-a"] v2) (fx_late fx_unnumbered) ∧
  user_log "u" (w_db (fx_late fx_unnumbered)) = [("area-b", 6000%Z, None); ("area-a", 5000%Z, None)].
Proof.
  assert (Hb : ∀ a, a ∈ ["area-b"] → fx_exists a = true)
    by (intros a Ha; apply fx_known; apply list_elem_of_singleton in Ha as ->; by left).
  assert (H1 : fx_inside ∈ [fx_inside; fx_unnumbered]) by by left.
  assert (H2 : fx_unnumbered ∈ [fx_inside; fx_unnumbered]) by (right; by left).
  cbv zeta. split_and!.
  - destruct (late_retry fx_config fx_num_to_string "u" fx_exists fx_visits
      (3, fx_inside) (2, fx_leaving) ["area-b"; "area-a"] ["area-b"] fx_world fx_rep_world
      (fx_late_answered _ H1) (fx_late_fresh 2 _ _ ltac:(right; by left) Hb)
      (fx_late_fresh 3 _ _ ltac:(by left) fx_known)) as [Hdup _].
    by destruct (Hdup "phone" 1%Z 2%Z) as [Hrep _].
  - destruct (late_retry fx_config fx_num_to_string "u" fx_exists fx_visits
      (3, fx_unnumbered) (2, fx_leaving) ["area-b"; "area-a"] ["area-b"] fx_world fx_rep_world
      (fx_late_answered _ H2) (fx_late_fresh 2 _ _ ltac:(right; by left) Hb)
      (fx_late_fresh 3 _ _ ltac:(right; right; by left) fx_known)) as [_ Hback].
    by destruct Hback as [Hrep _]; [left|].
  - vm_compute. done.
Defined.
