(* ===== verification/Moving.v ===== *)
(** The worker while the world around it moves: other processes create areas, and the
    snapshot is replaced between any two operations of the messages in flight. Every
    message is evaluated with one snapshot, which the worker had between the message's
    arrival and its end, and a user's later messages never with an older one; with the
    answers of these snapshots the worker refines the abstract machine of visits. *)

From S2P Require Import Prelude Num Js Prog Db World Presence Locations Transition.
From S2P Require Import Report Ingest Worker WorkerCorrect Delivery Interleave Fixtures.
From S2P Require Import Chains ChainWorker Pipeline Concurrent.

Section moving.
Context {gis : PostGIS} {store : RedisStore} {lookup : AreaLookup}.
Variable config : RedisConfig.
Variable num_to_string : number → string.
Variable tag_owner : nat → option string.

(** ** The moving world *)

Definition with_areas (i : area_index) (w : World) : World :=
  {| w_db := w_db w; w_redis := w_redis w; w_clock := w_clock w; w_areas := i;
     w_memory := w_memory w; w_metrics := w_metrics w; w_lastSeq := w_lastSeq w;
     w_staleAreaDropCount := w_staleAreaDropCount w; w_processedCount := w_processedCount w;
     w_settled := w_settled w |}.

(** Another process has created areas: rows are added, the version moves. *)
Definition commit_areas (rows : gmap string AreaRow) (db : Db) : Db :=
  {| areas := areas db ∪ rows; area_version := area_version db + 1;
     user_area_presence := user_area_presence db; logs := logs db;
     user_event_state := user_event_state db; now := now db; uuids := uuids db;
     uuid_next := uuid_next db |}.

Definition table (w : World) : gmap string AreaRow := areas (w_db w).

(** What a snapshot promises when it is published: it answers every point, naming areas
    that are in the table, each once. *)
Definition index_lawful (i : area_index) (rows : gmap string AreaRow) : Prop :=
  ∀ lng lat, ∃ cur, find_covering i lng lat = inr cur ∧ NoDup cur ∧
    ∀ a, a ∈ cur → is_Some (rows !! a).

Inductive moving_event :=
| Worked (e : chain_event)
| Refreshed (i : area_index)
| Committed (rows : gmap string AreaRow).

Definition with_world (w : World) (s : ChainWorker) : ChainWorker :=
  {| cw_chains := cw_chains s; cw_world := w |}.

Definition moving_turn (s : ChainWorker) (e : moving_event) : option ChainWorker :=
  match e with
  | Worked e => chain_turn config num_to_string s e
  | Refreshed i => Some (with_world (with_areas i (cw_world s)) s)
  | Committed rows =>
      Some (with_world (with_db (commit_areas rows (w_db (cw_world s))) (cw_world s)) s)
  end.

Fixpoint moving_turns (es : list moving_event) (s : ChainWorker) : option ChainWorker :=
  match es with
  | [] => Some s
  | e :: es => s' ← moving_turn s e; moving_turns es s'
  end.

(** Every snapshot is lawful for the areas that exist when it is published. *)
Fixpoint lawful (rows : gmap string AreaRow) (es : list moving_event) : Prop :=
  match es with
  | [] => True
  | Refreshed i :: es => index_lawful i rows ∧ lawful rows es
  | Committed more :: es => lawful (rows ∪ more) es
  | Worked _ :: es => lawful rows es
  end.

(** The areas at the end. *)
Fixpoint areas_after (rows : gmap string AreaRow) (es : list moving_event) : gmap string AreaRow :=
  match es with
  | [] => rows
  | Committed more :: es => areas_after (rows ∪ more) es
  | _ :: es => areas_after rows es
  end.

(** The snapshots that replaced the first. *)
Definition refreshes (es : list moving_event) : list area_index :=
  omap (λ e, match e with Refreshed i => Some i | _ => None end) es.

(** What the chains receive. *)
Definition worked (es : list moving_event) : list chain_event :=
  omap (λ e, match e with Worked e => Some e | _ => None end) es.

(** A user's messages in the order of their arrival, each with the number of snapshots
    that had been replaced before it came. *)
Fixpoint arrivals_of (u : string) (k : nat) (es : list moving_event) :
    list (nat * LocationEventV1 * nat) :=
  match es with
  | [] => []
  | Worked (Receive message) :: es =>
      ((λ m, (m, k)) <$> delivered u [Deliver message]) ++ arrivals_of u k es
  | Refreshed _ :: es => arrivals_of u (S k) es
  | _ :: es => arrivals_of u k es
  end.

(** One evaluation: the message, the number of snapshots replaced before it arrived, the
    snapshot it was evaluated with, that one's position, what it answered, and what
    failed while the message was processed. *)
Record Evaluation := {
  el_message : nat * LocationEventV1;
  el_arrived : nat;
  el_position : nat;
  el_snapshot : area_index;
  el_cover : list string;
  el_faults : list fault;
}.

Record evaluated_in (snapshots : list area_index) (e : Evaluation) : Prop := {
  ei_after : el_arrived e ≤ el_position e;
  ei_snapshot : snapshots !! el_position e = Some (el_snapshot e);
  ei_cover : find_covering (el_snapshot e) (ev_lng (el_message e).2) (ev_lat (el_message e).2) =
    inr (el_cover e);
  ei_NoDup : NoDup (el_cover e);
}.

(** ** One user, whatever the areas *)

(** What belongs to a user in two worlds whose areas may differ. *)
Record same_user (u : string) (w1 w2 : World) : Prop := {
  su_presence a : user_area_presence (w_db w1) !! (u, a) = user_area_presence (w_db w2) !! (u, a);
  su_state d : user_event_state (w_db w1) !! (u, d) = user_event_state (w_db w2) !! (u, d);
  su_log : user_log u (w_db w1) = user_log u (w_db w2);
  su_memory : w_memory w1 !! u = w_memory w2 !! u;
  su_lastSeq d : w_lastSeq w1 !! device_key u d = w_lastSeq w2 !! device_key u d;
  su_settled : settled_for tag_owner u w1 = settled_for tag_owner u w2;
}.

#[export] Instance same_user_equiv u : Equivalence (same_user u).
Proof.
  split.
  - by intros w.
  - intros w1 w2 [? ? ? ? ? ?]. by split.
  - intros w1 w2 w3 [H1 H2 H3 H4 H5 H6] [K1 K2 K3 K4 K5 K6].
    split; intros;
      [by rewrite H1|by rewrite H2|by rewrite H3|by rewrite H4|by rewrite H5|by rewrite H6].
Qed.

Lemma same_view_user u w1 w2 : same_view tag_owner u w1 w2 → same_user u w1 w2.
Proof. intros [[? ? ? ?] ? ? ? ?]. by split. Qed.

Lemma same_user_areas u i w : same_user u (with_areas i w) w.
Proof. by split. Qed.

Lemma same_user_commit u rows w : same_user u (with_db (commit_areas rows (w_db w)) w) w.
Proof. by split. Qed.

(** The rows of a user, of two tables whose areas may differ. *)
Record same_user_rows (u : string) (db1 db2 : Db) : Prop := {
  sur_presence a : user_area_presence db1 !! (u, a) = user_area_presence db2 !! (u, a);
  sur_state d : user_event_state db1 !! (u, d) = user_event_state db2 !! (u, d);
  sur_log : user_log u db1 = user_log u db2;
}.

(** A statement writes rows of the areas in [cur] only. *)
Definition writes_in (cur : list string) (X : Type) (q : sql X) : Prop :=
  match q with InsertPresence _ a _ | InsertLog _ a _ _ => a ∈ cur | _ => True end.

Definition known_in (cur : list string) (rows : gmap string AreaRow) : Prop :=
  ∀ a, a ∈ cur → is_Some (rows !! a).

Lemma sql_alike u cur X (q : sql X) db1 db2 :
  own_sql u X q → writes_in cur X q → known_in cur (areas db1) → known_in cur (areas db2) →
  same_user_rows u db1 db2 →
  alike (same_user_rows u) (exec_statement X FOk q db1) (exec_statement X FOk q db2).
Proof.
  intros Hown Hw Hk1 Hk2 [Hp Hs Hl]. unfold alike. destruct q; simpl in *; try done; subst.
  - split; [|done]. simpl. by rewrite (presence_of_ext u _ _ Hp).
  - split; [|done]. simpl. by rewrite (presence_of_ext u _ _ Hp).
  - split; [|done]. simpl. by rewrite Hs.
  - destruct (fits_bigint seq); [|done]. split; [done|]. split; try done. simpl. intros d.
    destruct (decide (device_id = d)) as [->|Hne];
      [by rewrite !lookup_insert_eq|rewrite !lookup_insert_ne by congruence; done].
  - destruct (Hk1 _ Hw) as [r1 ->], (Hk2 _ Hw) as [r2 ->].
    rewrite Hp. destruct (user_area_presence db2 !! (u, area_id)); [done|].
    split; [done|]. split; try done. simpl. intros x.
    destruct (decide (area_id = x)) as [->|Hne];
      [by rewrite !lookup_insert_eq|rewrite !lookup_insert_ne by congruence; done].
  - destruct (Hk1 _ Hw) as [r1 ->], (Hk2 _ Hw) as [r2 ->].
    destruct (captured_error captured_at); [done|]. split; [done|].
    split; try done. cbn [fst snd]. rewrite !user_log_append. by rewrite Hl.
  - split; [done|]. split; try done. simpl. intros x. by rewrite !delete_rows_lookup, Hp.
Qed.

Lemma statement_alike u cur X f (q : sql X) db1 db2 :
  own_sql u X q → writes_in cur X q → known_in cur (areas db1) → known_in cur (areas db2) →
  same_user_rows u db1 db2 →
  alike (same_user_rows u) (exec_statement X f q db1) (exec_statement X f q db2).
Proof. intros Hown Hw Hk1 Hk2 Hs. destruct f; try (by split); by apply (sql_alike u cur). Qed.

(** The user's statements leave the areas alone. *)
Lemma sql_areas u X (q : sql X) db :
  own_sql u X q → areas (exec_statement X FOk q db).2 = areas db.
Proof.
  intros Hown. destruct q; simpl in *; try done; subst; repeat case_match; simplify_eq/=; done.
Qed.

Lemma statement_areas u X f (q : sql X) db :
  own_sql u X q → areas (exec_statement X f q db).2 = areas db.
Proof. intros Hown. destruct f; try done. by eapply sql_areas. Qed.

Lemma run_alike u cur X (p : prog sql X) fs db1 db2 :
  all_ops (own_sql u) p → all_ops (writes_in cur) p →
  known_in cur (areas db1) → known_in cur (areas db2) → same_user_rows u db1 db2 →
  (run exec_statement p fs db1).1.1 = (run exec_statement p fs db2).1.1 ∧
  same_user_rows u (run exec_statement p fs db1).1.2 (run exec_statement p fs db2).1.2.
Proof.
  revert fs db1 db2. induction p as [x|e|Y op k IH]; intros fs db1 db2 Hown Hw Hk1 Hk2 Hs; [done|done|].
  destruct Hown as [Hop Hown], Hw as [Hwop Hw]. cbn [run]. set (f := default FOk (head fs)).
  pose proof (statement_alike u cur Y f op db1 db2 Hop Hwop Hk1 Hk2 Hs) as [Hr Hs'].
  pose proof (statement_areas u Y f op db1 Hop) as Ha1.
  pose proof (statement_areas u Y f op db2 Hop) as Ha2.
  destruct (exec_statement _ _ op db1) as [r1 d1], (exec_statement _ _ op db2) as [r2 d2].
  simpl in Hr, Hs', Ha1, Ha2. subst r2. by apply IH; rewrite ?Ha1, ?Ha2.
Qed.

Lemma run_sql_areas u X (p : prog sql X) fs db :
  all_ops (own_sql u) p → areas (run exec_statement p fs db).1.2 = areas db.
Proof.
  revert fs db. induction p as [x|e|Y op k IH]; intros fs db Hown; [done|done|].
  destruct Hown as [Hop Hown]. cbn [run].
  pose proof (statement_areas u Y (default FOk (head fs)) op db Hop) as Ha.
  destruct (exec_statement _ _ op db) as [r d]. simpl in Ha. by rewrite IH.
Qed.

(** ** The operations of a message *)

(** An operation that does not read the snapshot and writes rows of [cur] only. *)
Definition settled_op (cur : list string) (X : Type) (op : ioop X) : Prop :=
  match op with
  | FindCovering _ _ => False
  | Query q => writes_in cur _ q
  | Transaction body => all_ops (writes_in cur) body
  | _ => True
  end.

Lemma query_alike u cur X f (q : sql X) db1 db2 :
  own_sql u X q → writes_in cur X q → known_in cur (areas db1) → known_in cur (areas db2) →
  same_user_rows u db1 db2 →
  alike (same_user_rows u) (exec_query f q db1) (exec_query f q db2).
Proof.
  intros Hown Hw Hk1 Hk2 Hs. pose proof (sql_alike u cur X q _ _ Hown Hw Hk1 Hk2 Hs) as [Hr Hs'].
  unfold alike. destruct f; simpl in *; try done;
    destruct (exec_sql q db1) as [e1|[x1 d1]], (exec_sql q db2) as [e2|[x2 d2]];
    simpl in *; simplify_eq; done.
Qed.

Lemma transaction_alike u cur X f (p : prog sql X) db1 db2 :
  all_ops (own_sql u) p → all_ops (writes_in cur) p →
  known_in cur (areas db1) → known_in cur (areas db2) → same_user_rows u db1 db2 →
  alike (same_user_rows u) (exec_transaction f p db1) (exec_transaction f p db2).
Proof.
  intros Hown Hw Hk1 Hk2 Hs. unfold alike, exec_transaction. destruct f as [|e|e|n e]; [|done|..].
  1,2: pose proof (run_alike u cur X p [] db1 db2 Hown Hw Hk1 Hk2 Hs) as Hrun.
  3: pose proof (run_alike u cur X p (replicate n FOk ++ [FFail e]) db1 db2 Hown Hw Hk1 Hk2 Hs) as Hrun.
  all: destruct (run exec_statement p _ db1) as [[r1 d1] fs1],
         (run exec_statement p _ db2) as [[r2 d2] fs2]; simpl in *.
  all: destruct Hrun as [-> Hd]; by destruct r2.
Qed.

Lemma op_alike u cur X f (op : ioop X) w1 w2 :
  own tag_owner u X op → settled_op cur X op →
  known_in cur (table w1) → known_in cur (table w2) → same_user u w1 w2 →
  alike (same_user u) (exec X f op w1) (exec X f op w2).
Proof.
  intros Hown Hop Hk1 Hk2 Hs. pose proof Hs as [Hp Hst Hl Hm Hq Hset]. unfold alike.
  assert (Hrows : same_user_rows u (w_db w1) (w_db w2)) by (by split).
  destruct op; cbn [exec own settled_op] in *; try done; subst.
  - destruct (query_alike u cur X f q _ _ Hown Hop Hk1 Hk2 Hrows) as [Hr Hs'].
    destruct (exec_query f q (w_db w1)) as [r1 d1], (exec_query f q (w_db w2)) as [r2 d2].
    simpl in *. split; [done|]. destruct Hs'; by split.
  - destruct (transaction_alike u cur X f body _ _ Hown Hop Hk1 Hk2 Hrows) as [Hr Hs'].
    destruct (exec_transaction f body (w_db w1)) as [r1 d1],
      (exec_transaction f body (w_db w2)) as [r2 d2].
    simpl in *. split; [done|]. destruct Hs'; by split.
  - by destruct f.
  - by destruct f.
  - simpl. split; [by rewrite Hm|done].
  - split; [done|]. split; try done. simpl. by rewrite !lookup_insert_eq.
  - destruct Hown as [d ->]. simpl. split; [by rewrite Hq|done].
  - destruct Hown as [d ->]. split; [done|]. split; try done. simpl. intros d'.
    destruct (decide (device_key u d = device_key u d')) as [->|Hne];
      [by rewrite !lookup_insert_eq|by rewrite !lookup_insert_ne].
  - destruct f; try done. split; [done|]. split; try done. cbn [fst snd].
    rewrite !settled_for_settle. by rewrite Hset.
Qed.

Lemma query_areas u X f (q : sql X) db :
  own_sql u X q → areas (exec_query f q db).2 = areas db.
Proof.
  intros Hown. pose proof (sql_areas u X q db Hown) as Ha. cbn [exec_statement] in Ha.
  destruct f; simpl; try done; by destruct (exec_sql q db) as [e'|[x d]].
Qed.

Lemma transaction_areas u X f (p : prog sql X) db :
  all_ops (own_sql u) p → areas (exec_transaction f p db).2 = areas db.
Proof.
  intros Hown. unfold exec_transaction. destruct f as [|e|e|n e]; [|done|..].
  3: pose proof (run_sql_areas u X p (replicate n FOk ++ [FFail e]) db Hown) as Ha.
  1,2: pose proof (run_sql_areas u X p [] db Hown) as Ha.
  all: destruct (run exec_statement p _ db) as [[[e'|x] d] fs]; done.
Qed.

Lemma op_table u X f (op : ioop X) w :
  own tag_owner u X op → table (exec X f op w).2 = table w.
Proof.
  intros Hown. unfold table. destruct op; cbn [exec own] in *; try done.
  - pose proof (query_areas u X f q (w_db w) Hown) as Ha.
    by destruct (exec_query f q (w_db w)) as [r d].
  - pose proof (transaction_areas u X f body (w_db w) Hown) as Ha.
    by destruct (exec_transaction f body (w_db w)) as [r d].
  - by destruct f.
  - by destruct f.
  - by destruct f.
Qed.

(** ** A message reads the snapshot once *)

(** A program that is about to ask the snapshot for the areas of a point, once, and
    from then on only writes rows of the areas it was told. *)
Definition asks {A X} (staged : prog ioop A → Prop) (lng lat : number) (op : ioop X) :
    (exn + X → prog ioop A) → Prop :=
  match op in ioop X return (exn + X → prog ioop A) → Prop with
  | FindCovering lng' lat' => λ k, lng' = lng ∧ lat' = lat ∧
      ∀ cur, all_ops (settled_op cur) (k (inr cur))
  | op => λ k, settled_op [] _ op ∧ ∀ r, staged (k r)
  end.

Fixpoint staged {A} (lng lat : number) (p : prog ioop A) : Prop :=
  match p with
  | Ret _ | Throw _ => True
  | Vis op k => asks (staged lng lat) lng lat op k
  end.

Lemma settled_op_mono cur X (op : ioop X) : settled_op [] X op → settled_op cur X op.
Proof.
  assert (Hq : ∀ Y (q : sql Y), writes_in [] Y q → writes_in cur Y q).
  { intros Y q. destruct q; simpl; try done; by intros ?%elem_of_nil. }
  destruct op; simpl; try done; [apply Hq|]. induction body as [x|e|Y op k IH]; simpl; [done..|].
  intros [? ?]. split; auto.
Qed.

Lemma all_ops_mono {E A} (P Q : ∀ X, E X → Prop) (p : prog E A) :
  (∀ X op, P X op → Q X op) → all_ops P p → all_ops Q p.
Proof.
  intros HPQ. induction p as [x|e|X op k IH]; simpl; [done..|]. intros [? ?]. split; auto.
Qed.

Lemma staged_settled {A} lng lat (p : prog ioop A) : all_ops (settled_op []) p → staged lng lat p.
Proof.
  induction p as [x|e|X op k IH]; simpl; [done..|]. intros [Hop Hk].
  destruct op; simpl; try done; (split; [done|]; intros r; apply IH, Hk).
Qed.

(** Before, or across, the question. *)
Lemma staged_bind_settled {A B} lng lat (p : prog ioop A) (f : A → prog ioop B) :
  all_ops (settled_op []) p → (∀ a, staged lng lat (f a)) → staged lng lat (p ≫= f).
Proof.
  intros Hp Hf. induction p as [x|e|X op k IH]; simpl; [apply Hf|done|]. destruct Hp as [Hop Hk].
  destruct op; simpl; try done; (split; [done|]; intros r; apply IH, Hk).
Qed.

Lemma staged_bind {A B} lng lat (p : prog ioop A) (f : A → prog ioop B) :
  staged lng lat p → (∀ a, all_ops (settled_op []) (f a)) → staged lng lat (p ≫= f).
Proof.
  intros Hp Hf. induction p as [x|e|X op k IH]; simpl; [by apply staged_settled|done|].
  simpl in Hp. destruct op; simpl in *; try (destruct Hp as [? Hk]; split; [done|]; intros r; apply IH, Hk).
  destruct Hp as (-> & -> & Hk). split_and!; [done..|]. intros cur. apply all_ops_bind; [apply Hk|].
  intros a. eapply all_ops_mono; [|apply Hf]. intros X op. apply settled_op_mono.
Qed.

Lemma staged_try_catch {A} lng lat (p : prog ioop A) (h : exn → prog ioop A) :
  staged lng lat p → (∀ e, all_ops (settled_op []) (h e)) → staged lng lat (try_catch p h).
Proof.
  intros Hp Hh. induction p as [x|e|X op k IH]; simpl; [done|by apply staged_settled|].
  simpl in Hp. destruct op; simpl in *; try (destruct Hp as [? Hk]; split; [done|]; intros r; apply IH, Hk).
  destruct Hp as (-> & -> & Hk). split_and!; [done..|]. intros cur.
  apply all_ops_try_catch; [apply Hk|].
  intros e. eapply all_ops_mono; [|apply Hh]. intros X op. apply settled_op_mono.
Qed.

Lemma staged_ask {A} lng lat (f : list string → prog ioop A) :
  (∀ cur, all_ops (settled_op cur) (f cur)) →
  staged lng lat (currentAreaIds ← await (FindCovering lng lat); f currentAreaIds).
Proof. intros Hf. simpl. split_and!; [done..|]. intros cur. apply Hf. Qed.

(** What [report] and [processEvent] do. *)
Lemma settled_insert_entered cur u rec cap entered acc :
  (∀ a, a ∈ entered → a ∈ cur) → all_ops (writes_in cur) (insert_entered u rec cap entered acc).
Proof.
  revert acc. induction entered as [|a entered IH]; intros acc Hin; simpl; [done|].
  assert (Ha : a ∈ cur) by (apply Hin; by left).
  assert (Hrest : ∀ b, b ∈ entered → b ∈ cur) by (intros b Hb; apply Hin; by right).
  split; [done|]. intros [e|ids]; simpl; [done|]. case_decide; [|by apply IH].
  split; [done|]. intros [e|[]]; [done|by apply IH].
Qed.

Lemma settled_transition dto rec cap cur : all_ops (writes_in cur) (transition dto rec cap cur).
Proof.
  unfold transition, lockAndReadPresence.
  apply all_ops_bind; [by apply all_ops_await|]. intros prev. apply all_ops_bind.
  - unfold dedup_in_transaction. destruct (dto_deviceId dto), (dto_seq dto); try done.
    apply all_ops_bind; [by apply all_ops_await|]. intros rows.
    destruct (match rows with [] => _ | _ => _ end); [done|].
    apply all_ops_bind; [by apply all_ops_await|done].
  - intros []; [done|]. apply all_ops_bind.
    + apply settled_insert_entered. by intros a [? _]%elem_of_js_sort%elem_of_list_minus.
    + intros ids. apply all_ops_bind; [|done]. case_decide; [by apply all_ops_await|done].
Qed.

Lemma settled_report dto rec lng lat :
  lng = dto_lng dto → lat = dto_lat dto →
  staged lng lat (report true config num_to_string dto rec).
Proof.
  intros -> ->. unfold report. destruct (accuracy_exceeded dto); [done|].
  apply staged_ask. intros cur. apply all_ops_bind.
  { unfold read_hint. apply all_ops_bind; [by apply all_ops_await|]. intros [ids|]; [done|].
    apply all_ops_bind; [by apply all_ops_await|]. intros ids.
    apply all_ops_bind; [by apply all_ops_await|done]. }
  intros [c hint]. destruct (negb (differs cur hint)).
  - apply all_ops_bind; [|done]. destruct c as [[]|]; try done.
    unfold cache_populate. apply all_ops_try_catch; [|done]. by apply all_ops_await.
  - unfold change_path. apply all_ops_bind; [apply all_ops_await, settled_transition|].
    intros [resp wrote]. apply all_ops_bind.
    { unfold count_noop. by destruct (negb (duplicate resp) && negb wrote); simpl;
        [split; [done|intros []]|]. }
    intros _. apply all_ops_bind.
    { unfold remember_presence. by destruct (negb (duplicate resp) && true); simpl;
        [split; [done|intros []]|]. }
    intros _. apply all_ops_bind; [|done]. unfold invalidate_cache. apply all_ops_bind.
    { unfold cache_invalidate. apply all_ops_try_catch; [|done].
      apply all_ops_bind; [by apply all_ops_await|done]. }
    intros []; [done|]. by apply (all_ops_await _ (RecordInvalidateFailure _)).
Qed.

Lemma settled_isDuplicate event : all_ops (settled_op []) (isDuplicate event).
Proof.
  unfold isDuplicate. destruct (ev_deviceId event) as [d|], (ev_seq event); try done.
  apply all_ops_bind; [by apply all_ops_await|]. intros known.
  apply all_ops_bind; [|done]. destruct known; [done|].
  apply all_ops_bind; [by apply all_ops_await|]. intros rows.
  apply all_ops_bind; [by apply all_ops_await|done].
Qed.

Lemma settled_rememberSeq event : all_ops (settled_op []) (rememberSeq event).
Proof.
  unfold rememberSeq. destruct (ev_deviceId event) as [d|], (ev_seq event); try done.
  apply all_ops_bind; [by apply all_ops_await|]. intros known.
  destruct (_ <? _)%Z; [|done]. by apply all_ops_await.
Qed.

Lemma settled_failure tag e : all_ops (settled_op []) (settle_failure tag e).
Proof.
  unfold settle_failure. destruct (isStaleAreaViolation e); [|by apply all_ops_await].
  apply all_ops_bind; [by apply all_ops_await|]. intros _.
  apply all_ops_bind; [by apply all_ops_await|]. intros _. by apply all_ops_await.
Qed.

Lemma task_staged m :
  staged (ev_lng m.2) (ev_lat m.2) (task_of config num_to_string m).
Proof.
  unfold task_of, processEvent. apply staged_try_catch; [|apply settled_failure].
  apply staged_bind_settled; [apply settled_isDuplicate|].
  intros []; [by apply staged_settled, all_ops_await|].
  apply staged_bind; [by apply settled_report|]. intros _.
  apply all_ops_bind; [apply settled_rememberSeq|]. intros _.
  apply all_ops_bind; [by apply all_ops_await|]. intros _. by apply all_ops_await.
Qed.
End moving.
