(* ===== verification/MovingWorker.v ===== *)
(** The worker while the snapshot moves ([Moving]): the invariant that ties a user's
    part of the world to an ideal one, in which the user's messages are processed one
    after the other, each with one snapshot, all areas existing from the start. *)

From S2P Require Import Prelude Num Js Prog Db World Presence Locations Transition.
From S2P Require Import Report Ingest Worker WorkerCorrect Delivery Interleave Fixtures.
From S2P Require Import Chains ChainWorker Pipeline Concurrent Moving.

Lemma StronglySorted_snoc (l : list nat) n :
  StronglySorted le l → Forall (λ m, m ≤ n) l → StronglySorted le (l ++ [n]).
Proof.
  induction 1 as [|x l Hs IH Hx]; intros Hl; [by repeat constructor|].
  apply Forall_cons in Hl as [Hxn Hl]. simpl. constructor; [by apply IH|].
  apply Forall_app. split; [done|]. by constructor.
Qed.

Section moving_worker.
Context {gis : PostGIS} {store : RedisStore} {lookup : AreaLookup}.
Variable config : RedisConfig.
Variable num_to_string : number → string.
Variable tag_owner : nat → option string.
Variable u : string.

(** ** The ideal world *)

(** The worker's start, with the areas there are in the end. *)
Definition with_table (rows : gmap string AreaRow) (w : World) : World :=
  with_db {| areas := rows; area_version := area_version (w_db w);
             user_area_presence := user_area_presence (w_db w); logs := logs (w_db w);
             user_event_state := user_event_state (w_db w); now := now (w_db w);
             uuids := uuids (w_db w); uuid_next := uuid_next (w_db w) |} w.

(** The next message, with the snapshot it was evaluated with and what failed then. *)
Definition ideal_next (w : World) (e : Evaluation) : World :=
  (run exec (task_of config num_to_string (el_message e)) (el_faults e)
     (with_areas (el_snapshot e) w)).1.2.

Definition with_fault (f : fault) (e : Evaluation) : Evaluation :=
  {| el_message := el_message e; el_arrived := el_arrived e; el_position := el_position e;
     el_snapshot := el_snapshot e; el_cover := el_cover e; el_faults := el_faults e ++ [f] |}.

(** The failures there may be. *)
Variable ok : fault → Prop.

(** The areas there are in the end, and the ideal start. *)
Variable final : gmap string AreaRow.
Variable start : World.

(** A message of the user that has begun: what is left of it in the world [w] is what
    is left of it in the ideal world [w0], with any snapshot as long as it has not
    asked, and then with the one it asked. *)
Inductive running (snapshots : list area_index) (evs : list Evaluation) (w0 : World)
    (m : nat * LocationEventV1) (arrived : nat) (p : prog ioop unit) (w : World) : Prop :=
| not_yet fs :
    Forall ok fs → staged (ev_lng m.2) (ev_lat m.2) p →
    (∀ i, ∃ wi, (∀ more, run exec (task_of config num_to_string m) (fs ++ more) (with_areas i w0) =
                  run exec p more wi) ∧
       w_areas wi = i ∧ table wi = final ∧ same_user tag_owner u wi w) →
    running snapshots evs w0 m arrived p w
| has_asked e wi :
    evaluated_in snapshots e → el_message e = m → el_arrived e = arrived →
    Forall (λ e', el_position e' ≤ el_position e) evs →
    known_in (el_cover e) (table w) → known_in (el_cover e) final →
    all_ops (settled_op (el_cover e)) p →
    Forall ok (el_faults e) →
    (∀ more, run exec (task_of config num_to_string m) (el_faults e ++ more)
       (with_areas (el_snapshot e) w0) = run exec p more wi) →
    table wi = final → same_user tag_owner u wi w →
    running snapshots evs w0 m arrived p w.

(** What is left of a user's messages, the first one begun. *)
Inductive lane_runs (snapshots : list area_index) (evs : list Evaluation) (w0 : World) :
    list (nat * LocationEventV1 * nat) → lane → World → Prop :=
| lane_idle w : same_user tag_owner u w0 w → lane_runs snapshots evs w0 [] [] w
| lane_busy m arrived waiting p w :
    all_ops (own tag_owner u) p → running snapshots evs w0 m arrived p w →
    lane_runs snapshots evs w0 ((m, arrived) :: waiting)
      (p :: (task_of config num_to_string <$> waiting.*1)) w.

(** The messages that arrived: those done, in the ideal world, and those left. *)
Record user_inv (snapshots : list area_index) (arrived : list (nat * LocationEventV1 * nat))
    (ps : lane) (w : World) (evs : list Evaluation)
    (waiting : list (nat * LocationEventV1 * nat)) : Prop := {
  ui_arrived : arrived = ((λ e, (el_message e, el_arrived e)) <$> evs) ++ waiting;
  ui_owned : Forall (λ x, tag_owner x.1.1 = Some u ∧ ev_userId x.1.2 = u) arrived;
  ui_bound : Forall (λ x, x.2 < length snapshots) waiting;
  ui_done : Forall (evaluated_in snapshots) evs;
  ui_faults : Forall (λ e, Forall ok (el_faults e)) evs;
  ui_known : Forall (λ e, known_in (el_cover e) final) evs;
  ui_order : StronglySorted le (el_position <$> evs);
  ui_table : table (foldl ideal_next start evs) = final;
  ui_lane : lane_runs snapshots evs (foldl ideal_next start evs) waiting ps w;
}.

(** ** The world moves around the user *)

Lemma evaluated_in_mono snapshots snapshots' e :
  snapshots `prefix_of` snapshots' → evaluated_in snapshots e → evaluated_in snapshots' e.
Proof. intros Hp [? ? ? ?]. split; [done|by eapply prefix_lookup_Some|done|done]. Qed.

Lemma running_moves snapshots snapshots' evs w0 m arrived p w w' :
  snapshots `prefix_of` snapshots' → same_user tag_owner u w w' →
  (∀ cur, known_in cur (table w) → known_in cur (table w')) →
  running snapshots evs w0 m arrived p w → running snapshots' evs w0 m arrived p w'.
Proof.
  intros Hp Hs Hk [fs Hfs Hst Hi|e wi He Hm Har Hpos Hkw Hkf Hops Hef Hrun Ht Hwi].
  - apply (not_yet _ _ _ _ _ _ _ fs); [done..|]. intros i. destruct (Hi i) as (wi & ? & ? & ? & ?).
    exists wi. split_and!; [done..|by etrans].
  - apply (has_asked _ _ _ _ _ _ _ e wi); try done; [by eapply evaluated_in_mono|by apply Hk|by etrans].
Qed.

Lemma user_inv_moves snapshots snapshots' arrived ps w w' evs waiting :
  snapshots `prefix_of` snapshots' → same_user tag_owner u w w' →
  (∀ cur, known_in cur (table w) → known_in cur (table w')) →
  user_inv snapshots arrived ps w evs waiting → user_inv snapshots' arrived ps w' evs waiting.
Proof.
  intros Hp Hs Hk [Ha Ho Hb Hd Hef Hkn Hord Ht Hl]. pose proof (prefix_length _ _ Hp) as Hlen.
  split; try done.
  - eapply Forall_impl; [exact Hb|]. simpl. lia.
  - eapply Forall_impl; [exact Hd|]. intros e. by apply evaluated_in_mono.
  - destruct Hl as [w Hw|m arr waiting p w Hown Hrun]; [constructor; by etrans|].
    constructor; [done|by eapply running_moves].
Qed.

(** ** The user moves *)

Definition owned (x : nat * LocationEventV1 * nat) : Prop :=
  tag_owner x.1.1 = Some u ∧ ev_userId x.1.2 = u.

Lemma own_task m :
  tag_owner m.1 = Some u → ev_userId m.2 = u →
  all_ops (own tag_owner u) (task_of config num_to_string m).
Proof. intros Htag <-. by apply own_processEvent. Qed.

(** What waits, when the message before has ended. *)
Lemma lane_waits snapshots evs w0 waiting w :
  table w0 = final → same_user tag_owner u w0 w → Forall owned waiting →
  lane_runs snapshots evs w0 waiting (task_of config num_to_string <$> waiting.*1) w.
Proof.
  intros Ht Hs Ho. destruct waiting as [|[m arr] waiting]; [by constructor|].
  apply Forall_cons in Ho as [[Htag Hu] _]. cbn [fmap list_fmap fst].
  constructor; [by apply own_task|]. apply (not_yet _ _ _ _ _ _ _ []); [done|apply task_staged|]. intros i.
  exists (with_areas i w0). split_and!; [done..|]. etrans; [apply same_user_areas|done].
Qed.

(** A new message joins the lane. *)
Lemma user_inv_arrives snapshots arrived ps w evs waiting m :
  owned (m, 0) → snapshots ≠ [] → user_inv snapshots arrived ps w evs waiting →
  user_inv snapshots (arrived ++ [(m, pred (length snapshots))])
    (ps ++ [task_of config num_to_string m]) w evs (waiting ++ [(m, pred (length snapshots))]).
Proof.
  intros Hm Hne [Ha Ho Hb Hd Hef Hkn Hord Ht Hl].
  assert (Hlen : 0 < length snapshots) by (destruct snapshots; simpl; [done|lia]).
  split; try done.
  - by rewrite Ha, app_assoc.
  - apply Forall_app. split; [done|]. by constructor.
  - apply Forall_app. split; [done|]. constructor; [simpl; lia|done].
  - inversion Hl as [w' Hw|m' arr wt p w' Hown Hrun]; subst; cbn [app].
    + change [task_of config num_to_string m] with
        (task_of config num_to_string <$> [(m, pred (length snapshots))].*1).
      apply lane_waits; [done..|by constructor].
    + replace ((task_of config num_to_string <$> wt.*1) ++ [task_of config num_to_string m])
        with (task_of config num_to_string <$> (wt ++ [(m, pred (length snapshots))]).*1)
        by (by rewrite !fmap_app).
      by constructor.
Qed.

(** A message that has not asked can end with the current snapshot. *)
Lemma running_has_asked snapshots evs w0 m arrived p w :
  last snapshots = Some (w_areas w) → index_lawful (w_areas w) (table w) →
  (∀ cur, known_in cur (table w) → known_in cur final) →
  arrived < length snapshots → Forall (evaluated_in snapshots) evs →
  running snapshots evs w0 m arrived p w →
  ∃ e wi, evaluated_in snapshots e ∧ el_message e = m ∧ el_arrived e = arrived ∧
    Forall (λ e', el_position e' ≤ el_position e) evs ∧ known_in (el_cover e) final ∧
    Forall ok (el_faults e) ∧
    (∀ more, run exec (task_of config num_to_string m) (el_faults e ++ more)
       (with_areas (el_snapshot e) w0) = run exec p more wi) ∧
    table wi = final ∧ same_user tag_owner u wi w.
Proof.
  intros Hlast Hlaw Hfin Harr Hd [fs Hfs Hst Hi|e wi ? ? ? ? ? ? ? ? ? ? ?]; [|by exists e, wi].
  destruct (Hlaw (ev_lng m.2) (ev_lat m.2)) as (cur & Hcur & Hnd & Hk).
  destruct (Hi (w_areas w)) as (wi & Hrun & _ & Ht & Hs). rewrite last_lookup in Hlast.
  exists {| el_message := m; el_arrived := arrived; el_position := pred (length snapshots);
            el_snapshot := w_areas w; el_cover := cur; el_faults := fs |}, wi.
  split_and!; try done; [by split; [simpl; lia|..]| |by apply Hfin].
  eapply Forall_impl; [exact Hd|]. intros e [_ He _ _]. apply lookup_lt_Some in He. simpl. lia.
Qed.

(** The first message has ended. *)
Lemma user_inv_ended snapshots arrived p ps w evs x waiting :
  last snapshots = Some (w_areas w) → index_lawful (w_areas w) (table w) →
  (∀ cur, known_in cur (table w) → known_in cur final) → finished p = true →
  user_inv snapshots arrived (p :: ps) w evs (x :: waiting) →
  ∃ evs', user_inv snapshots arrived ps w evs' waiting.
Proof.
  intros Hlast Hlaw Hfin Hp [Ha Ho Hb Hd Hef Hkn Hord Ht Hl].
  inversion Hl as [|m arr wt p' w' Hown Hrun]; subst. apply Forall_cons in Hb as [Hba Hb].
  cbn [snd] in Hba.
  destruct (running_has_asked _ _ _ _ _ _ _ Hlast Hlaw Hfin Hba Hd Hrun)
    as (e & wi & He & Hm & Har & Hpos & Hkf & Hok & Hre & Hti & Hs).
  subst m arr.
  assert (Hwi : ideal_next (foldl ideal_next start evs) e = wi).
  { unfold ideal_next. rewrite <- (app_nil_r (el_faults e)), Hre. by destruct p. }
  exists (evs ++ [e]). split; rewrite ?foldl_app; cbn [foldl]; rewrite ?Hwi; try done.
  - by rewrite fmap_app, <- app_assoc.
  - apply Forall_app. split; [done|by constructor].
  - apply Forall_app. split; [done|by constructor].
  - apply Forall_app. split; [done|by constructor].
  - rewrite fmap_app. apply StronglySorted_snoc; [done|]. by apply Forall_fmap.
  - apply lane_waits; [done..|]. by apply Forall_app in Ho as [_ [_ Ho]%Forall_cons].
Qed.

(** The messages that have ended leave the lane. *)
Lemma user_inv_norm snapshots arrived ps w evs waiting :
  last snapshots = Some (w_areas w) → index_lawful (w_areas w) (table w) →
  (∀ cur, known_in cur (table w) → known_in cur final) →
  user_inv snapshots arrived ps w evs waiting →
  ∃ evs' waiting', user_inv snapshots arrived (norm ps) w evs' waiting'.
Proof.
  intros Hlast Hlaw Hfin. revert ps evs. induction waiting as [|x waiting IH]; intros ps evs Hinv.
  { exists evs, []. destruct ps; [done|]. destruct Hinv as [? ? ? ? ? ? ? ? Hl]. inversion Hl. }
  destruct ps as [|p ps]; [destruct Hinv as [? ? ? ? ? ? ? ? Hl]; inversion Hl|].
  destruct (finished p) eqn:Hp; [|by exists evs, (x :: waiting); destruct p].
  destruct (user_inv_ended _ _ _ _ _ _ _ _ Hlast Hlaw Hfin Hp Hinv) as [evs' Hinv'].
  replace (norm (p :: ps)) with (norm ps) by (by destruct p). by eapply IH.
Qed.

(** An operation of the first message that does not ask, seen in the ideal world. *)
Lemma ideal_performs cur X f (op : ioop X) (k : exn + X → prog ioop unit) w wi r w' :
  own tag_owner u X op → settled_op cur X op → exec X f op w = (r, w') →
  known_in cur final → known_in cur (table w) → table wi = final →
  same_user tag_owner u wi w →
  ∃ wi', (∀ more, run exec (Vis op k) (f :: more) wi = run exec (k r) more wi') ∧
    w_areas wi' = w_areas wi ∧ table wi' = final ∧ same_user tag_owner u wi' w'.
Proof.
  intros Hown Hop Hex Hk1 Hk2 Ht Hs. rewrite <- Ht in Hk1.
  pose proof (op_alike tag_owner u cur X f op wi w Hown Hop Hk1 Hk2 Hs) as [Hr Hs'].
  pose proof (op_table tag_owner u X f op wi Hown) as Ht'.
  pose proof (exec_areas X f op wi) as Ha. cbn [run head tail default from_option]. unfold id.
  rewrite Hex in Hr, Hs'. destruct (exec X f op wi) as [ri wi']. simpl in *. subst ri.
  exists wi'. split_and!; [done..|congruence|done].
Qed.

Lemma known_nil rows : known_in [] rows.
Proof. by intros a ?%elem_of_nil. Qed.

(** The question, before which nothing depended on the snapshot. *)
Lemma running_asks snapshots evs w0 m arrived fs f k w r w' :
  last snapshots = Some (w_areas w) → index_lawful (w_areas w) (table w) →
  (∀ cur, known_in cur (table w) → known_in cur final) →
  arrived < length snapshots → Forall (evaluated_in snapshots) evs → Forall ok (fs ++ [f]) →
  exec _ f (FindCovering (ev_lng m.2) (ev_lat m.2)) w = (r, w') →
  (∀ cur, all_ops (settled_op cur) (k (inr cur))) →
  (∀ i, ∃ wi, (∀ more, run exec (task_of config num_to_string m) (fs ++ more) (with_areas i w0) =
      run exec (Vis (FindCovering (ev_lng m.2) (ev_lat m.2)) k) more wi) ∧
    w_areas wi = i ∧ table wi = final ∧ same_user tag_owner u wi w) →
  running snapshots evs w0 m arrived (k r) w'.
Proof.
  intros Hlast Hlaw Hfin Harr Hd Hfs Hex Hk Hi. rewrite last_lookup in Hlast.
  destruct (Hlaw (ev_lng m.2) (ev_lat m.2)) as (cur & Hcur & Hnd & Hkn).
  cbn [exec] in Hex. rewrite Hcur in Hex. injection Hex as <- <-.
  destruct (Hi (w_areas w)) as (wi & Hrun & Ha & Ht & Hs).
  apply (has_asked _ _ _ _ _ _ _ {| el_message := m; el_arrived := arrived;
    el_position := pred (length snapshots); el_snapshot := w_areas w; el_cover := cur;
    el_faults := fs ++ [f] |} wi);
    try done; [by split; [simpl; lia|..]| |by apply Hfin|].
  - eapply Forall_impl; [exact Hd|]. intros e [_ He _ _]. apply lookup_lt_Some in He. simpl. lia.
  - intros more. cbn [el_faults el_snapshot]. rewrite <- app_assoc. etrans; [exact (Hrun _)|].
    cbn [app run head tail default from_option exec]. by rewrite Ha, Hcur.
Qed.

(** The first message performs its next operation. *)
Lemma running_performs snapshots evs w0 m arrived X f (op : ioop X) k w r w' :
  last snapshots = Some (w_areas w) → index_lawful (w_areas w) (table w) →
  (∀ cur, known_in cur (table w) → known_in cur final) →
  arrived < length snapshots → Forall (evaluated_in snapshots) evs → ok f →
  own tag_owner u X op → exec X f op w = (r, w') →
  running snapshots evs w0 m arrived (Vis op k) w → running snapshots evs w0 m arrived (k r) w'.
Proof.
  intros Hlast Hlaw Hfin Harr Hd Hf Hown Hex Hrun.
  destruct Hrun as [fs Hfs Hst Hi|e wi He Hm Har Hpos Hkw Hkf Hops Hef Hre Ht Hs].
  - assert (Hfs' : Forall ok (fs ++ [f])) by (apply Forall_app; split; [done|by constructor]).
    assert (Hcases : (settled_op [] X op ∧ ∀ r, staged (ev_lng m.2) (ev_lat m.2) (k r)) ∨
      running snapshots evs w0 m arrived (k r) w').
    { cbn [staged] in Hst. destruct op; cbn [asks] in Hst; try (by left).
      destruct Hst as (-> & -> & Hk). right. by eapply running_asks. }
    destruct Hcases as [[Hop Hk]|?]; [|done].
    apply (not_yet _ _ _ _ _ _ _ (fs ++ [f])); [done|apply Hk|]. intros i.
    destruct (Hi i) as (wi & Hre & Ha & Ht & Hs).
    destruct (ideal_performs [] X f op k w wi r w' Hown Hop Hex (known_nil _) (known_nil _) Ht Hs)
      as (wi' & Hre' & Ha' & Ht' & Hs').
    exists wi'. split_and!; [|by rewrite Ha'|done|done].
    intros more. rewrite <- app_assoc, Hre. apply Hre'.
  - destruct Hops as [Hop Hops].
    destruct (ideal_performs (el_cover e) X f op k w wi r w' Hown Hop Hex Hkf Hkw Ht Hs)
      as (wi' & Hre' & _ & Ht' & Hs').
    apply (has_asked _ _ _ _ _ _ _ (with_fault f e) wi'); try done.
    + by destruct He; split.
    + pose proof (op_table tag_owner u X f op w Hown) as Htw. rewrite Hex in Htw. simpl in Htw.
      by rewrite Htw.
    + apply Forall_app. split; [done|by constructor].
    + intros more. cbn [with_fault el_faults el_snapshot]. rewrite <- app_assoc, Hre. apply Hre'.
Qed.
End moving_worker.
