(* ===== verification/MovingCorrect.v ===== *)
(** What the worker guarantees while the snapshot moves ([Moving], [MovingWorker]): with
    the answers of the snapshots its messages were evaluated with, it refines the
    abstract machine of visits. *)

From S2P Require Import Prelude Num Js Prog Spatial Snapshot Db World Presence Locations Transition.
From S2P Require Import Report Ingest Worker WorkerCorrect Delivery Interleave Fixtures.
From S2P Require Import Chains ChainWorker Pipeline Concurrent Redelivery Moving MovingWorker.

(** ** Areas only come *)

Lemma areas_after_lookup {gis : PostGIS} {store : RedisStore} {lookup : AreaLookup}
    (rows : gmap string AreaRow) es a :
  is_Some (rows !! a) → is_Some (areas_after rows es !! a).
Proof.
  revert rows. induction es as [|[e|i|more] es IH]; intros rows Ha; simpl; auto.
  apply IH. destruct Ha as [r Hr]. exists r. by apply lookup_union_Some_l.
Qed.

Section moving_correct.
Context {gis : PostGIS} {store : RedisStore} {lookup : AreaLookup}.
Variable config : RedisConfig.
Variable num_to_string : number → string.
Variable tag_owner : nat → option string.
Variable u : string.
Variable ok : fault → Prop.
Variable final : gmap string AreaRow.
Variable start : World.

(** ** One turn of a lane *)

Lemma turn_keeps l a :
  lanes_own tag_owner l →
  table (world (turn config num_to_string l a)) = table (world l) ∧
  w_areas (world (turn config num_to_string l a)) = w_areas (world l).
Proof.
  intros Ho. destruct a as [message|v f]; cbn [turn].
  - by destruct (handle config num_to_string message) as [nack|[v task]].
  - unfold resume. pose proof (norm_Forall _ _ (Ho v)) as Hn.
    destruct (norm (lane_of v l)) as [|[x|e|X op k] rest]; [done..|].
    apply Forall_cons in Hn as [[Hop _] _].
    pose proof (op_table tag_owner v X f op (world l) Hop) as Ht.
    pose proof (exec_areas X f op (world l)) as Ha.
    by destruct (exec X f op (world l)) as [r w'].
Qed.

(** The messages an event brings the user. *)
Definition brings (snapshots : list area_index) (a : event_loop) :
    list (nat * LocationEventV1 * nat) :=
  (λ m, (m, pred (length snapshots))) <$> delivered u [a].

(** The invariant of the user, in the worker with lanes. *)
Definition lane_inv (snapshots : list area_index)
    (arrived : list (nat * LocationEventV1 * nat)) (l : Worker) : Prop :=
  ∃ evs waiting, user_inv config num_to_string tag_owner u ok final start snapshots arrived
    (norm (lane_of u l)) (world l) evs waiting.

Section turns.
Variable snapshots : list area_index.
Variable arrived : list (nat * LocationEventV1 * nat).
Variable l : Worker.
Hypothesis Hown : lanes_own tag_owner l.
Hypothesis Hlast : last snapshots = Some (w_areas (world l)).
Hypothesis Hlaw : index_lawful (w_areas (world l)) (table (world l)).
Hypothesis Hfin : ∀ cur, known_in cur (table (world l)) → known_in cur final.

Lemma deliver_inv message :
  honest tag_owner (Deliver message) → message_user message = Some u →
  lane_inv snapshots arrived l →
  lane_inv snapshots (arrived ++ brings snapshots (Deliver message))
    (turn config num_to_string l (Deliver message)).
Proof.
  intros Hh Hu (evs & waiting & Hinv). simpl in Hh.
  pose proof (handle_spec config num_to_string message) as Hm. rewrite Hu in Hm.
  destruct Hm as (event & Hc & Heu & _ & Hm). unfold lane_inv. cbn [turn]. rewrite Hm.
  rewrite lane_of_insert, decide_True by done. cbn [world].
  rewrite norm_app. unfold brings, delivered. cbn [omap list_omap]. rewrite Hc.
  rewrite bool_decide_true by done. cbn [fmap list_fmap].
  eapply user_inv_norm; [done..|].
  apply (user_inv_arrives config num_to_string tag_owner u ok final start snapshots arrived
    _ (world l) evs waiting (deliveryTag message, event)); [|by destruct snapshots|done].
  split; [|done]. simpl. congruence.
Qed.

Lemma resume_inv f :
  ok f → lane_inv snapshots arrived l →
  lane_inv snapshots arrived (turn config num_to_string l (Resume u f)).
Proof.
  intros Hf (evs & waiting & Hinv). unfold lane_inv. cbn [turn]. unfold resume.
  pose proof (norm_Forall _ _ (Hown u)) as Hn.
  destruct (norm (lane_of u l)) as [|[x|e|X op k] rest] eqn:E.
  1-3: rewrite lane_of_insert, decide_True by done; cbn [world];
    rewrite <- E, norm_idemp, E; by exists evs, waiting.
  apply Forall_cons in Hn as [[Hop Hk] _].
  destruct (exec X f op (world l)) as [r w'] eqn:Hex.
  rewrite lane_of_insert, decide_True by done. cbn [world]. rewrite norm_idemp.
  pose proof (op_table tag_owner u X f op (world l) Hop) as Ht.
  pose proof (exec_areas X f op (world l)) as Ha. rewrite Hex in Ht, Ha. cbn [snd] in Ht, Ha.
  eapply user_inv_norm; rewrite ?Ha, ?Ht; try done.
  destruct Hinv as [Har Ho Hb Hd Hef Hkn Hord Htab Hl].
  inversion Hl as [|m arr wt p w Hop' Hrun]; subst. split; try done. constructor; [apply Hk|].
  eapply running_performs; try done. by apply Forall_cons in Hb as [? _].
Qed.

(** Any turn. *)
Lemma turn_inv a :
  honest tag_owner a → colon_free a → no_colon u = true → act_fault ok a →
  lane_inv snapshots arrived l →
  lane_inv snapshots (arrived ++ brings snapshots a) (turn config num_to_string l a).
Proof.
  intros Hh Hcf Hu Hf Hinv. destruct (concerns u a) eqn:Hc.
  - destruct a as [message|v f]; simpl in Hc; apply bool_decide_eq_true in Hc.
    + by apply deliver_inv.
    + subst v. rewrite app_nil_r. by apply resume_inv.
  - destruct Hinv as (evs & waiting & Hinv).
    destruct (turn_unconcerned config num_to_string tag_owner u l a) as [Hl Hv]; [done..|].
    destruct (turn_keeps l a Hown) as [Ht _].
    assert (Hbr : brings snapshots a = []).
    { unfold brings, delivered. destruct a as [message|]; [|done]. cbn [omap list_omap].
      simpl in Hc. rewrite Hc. by destruct (msg_content message). }
    exists evs, waiting. rewrite Hbr, app_nil_r, Hl.
    apply (user_inv_moves config num_to_string tag_owner u ok final start snapshots snapshots
      arrived _ (world l)); [done| |by rewrite Ht|done].
    symmetry. by apply same_view_user.
Qed.
End turns.

(** ** The worker on promise chains *)

Record moving_inv (snapshots : list area_index) (arrived : list (nat * LocationEventV1 * nat))
    (rows : gmap string AreaRow) (s : ChainWorker) (l : Worker) : Prop := {
  mi_simulates : simulates s l;
  mi_own : lanes_own tag_owner l;
  mi_users n x : links (cw_chains s) !! n = Some x → no_colon (link_user x) = true;
  mi_last : last snapshots = Some (w_areas (cw_world s));
  mi_lawful : index_lawful (w_areas (cw_world s)) rows;
  mi_table : table (cw_world s) = rows;
  mi_user : lane_inv snapshots arrived l;
}.

(** The lane's turns that a turn of the chains amounts to: none, or one. *)
Lemma lane_events_one s e :
  lane_events s e = [] ∨ ∃ a, lane_events s e = [a].
Proof.
  destruct e as [message|n|n f|n|n]; simpl; [right; by eexists|by left| |by left..].
  destruct (links (cw_chains s) !! n); [right; by eexists|by left].
Qed.

Lemma lane_events_good (s : ChainWorker) e a :
  lane_events s e = [a] → Forall (honest tag_owner) (arrivals [e]) →
  Forall colon_free (arrivals [e]) → event_fault ok e →
  (∀ n x, links (cw_chains s) !! n = Some x → no_colon (link_user x) = true) →
  honest tag_owner a ∧ colon_free a ∧ act_fault ok a.
Proof.
  intros He Hh Hc Hf Hu. destruct e as [message|n|n f|n|n]; simpl in *; try done.
  - injection He as <-. by apply Forall_cons in Hh as [? _], Hc as [? _].
  - destruct (links (cw_chains s) !! n) as [x|] eqn:Hx; [|done]. injection He as <-.
    split_and!; [done|by eapply Hu|done].
Qed.

Lemma delivered_lane_events s e :
  delivered u (lane_events s e) = delivered u (arrivals [e]).
Proof. destruct e as [message|n|n f|n|n]; simpl; try done. by destruct (links _ !! n). Qed.

Lemma worked_inv snapshots arrived rows s l e s' :
  (∀ cur, known_in cur rows → known_in cur final) → no_colon u = true →
  Forall (honest tag_owner) (arrivals [e]) → Forall colon_free (arrivals [e]) →
  event_fault ok e → chain_turn config num_to_string s e = Some s' →
  moving_inv snapshots arrived rows s l →
  moving_inv snapshots
    (arrived ++ ((λ m, (m, pred (length snapshots))) <$> delivered u (arrivals [e]))) rows s'
    (foldl (turn config num_to_string) l (lane_events s e)).
Proof.
  intros Hfin Hu Hh Hc Hf Ht [Hsim Hown Husers Hlast Hlaw Htab Huser].
  pose proof (turn_simulated config num_to_string s e s' l Hsim Ht) as Hsim'.
  pose proof (sm_world _ _ Hsim) as Hw. pose proof (sm_world _ _ Hsim') as Hw'.
  rewrite <- Hw in Hlast, Hlaw, Htab. subst rows.
  assert (Husers' : ∀ n x, links (cw_chains s') !! n = Some x → no_colon (link_user x) = true).
  { intros n x Hx. destruct (turn_link_user config num_to_string s e s' n x Ht Hx)
      as [(x0 & Hx0 & <-)|(message & event & -> & Hmu & _)]; [by eapply Husers|].
    apply Forall_cons in Hc as [Hc _]. by apply Hc. }
  rewrite <- (delivered_lane_events s e).
  destruct (lane_events_one s e) as [Hle|[a Hle]]; rewrite Hle in *; cbn [foldl] in *.
  { rewrite app_nil_r. by split; rewrite <- ?Hw'. }
  destruct (lane_events_good s e a Hle Hh Hc Hf Husers) as (Hha & Hca & Hfa).
  destruct (turn_keeps l a Hown) as [Htk Hak].
  split; rewrite <- ?Hw', ?Htk, ?Hak; try done; [by apply turn_own|]. by apply turn_inv.
Qed.

(** A snapshot is published, or areas come: the user's part stays. *)
Lemma moved_world_inv snapshots snapshots' arrived rows rows' s l w' :
  snapshots `prefix_of` snapshots' → same_user tag_owner u w' (cw_world s) →
  (∀ cur, known_in cur rows → known_in cur rows') →
  last snapshots' = Some (w_areas w') → index_lawful (w_areas w') rows' → table w' = rows' →
  moving_inv snapshots arrived rows s l →
  moving_inv snapshots' arrived rows' (with_world w' s) {| lanes := lanes l; world := w' |}.
Proof.
  intros Hp Hs Hk Hlast' Hlaw' Htab' [[Hinv Hw Hl] Hown Husers Hlast Hlaw Htab Huser].
  split; try done. destruct Huser as (evs & waiting & Huser). exists evs, waiting.
  apply (user_inv_moves config num_to_string tag_owner u ok final start snapshots snapshots'
    arrived _ (world l)); [done| | |done].
  - rewrite Hw. by symmetry.
  - cbn [world]. rewrite Hw, Htab, Htab'. apply Hk.
Qed.

Lemma refreshes_cons e es :
  refreshes (e :: es) = refreshes [e] ++ refreshes es.
Proof. by destruct e. Qed.

Lemma moving_turn_inv snapshots arrived rows s l e es s' :
  (∀ cur, known_in cur (areas_after rows (e :: es)) → known_in cur final) →
  no_colon u = true → Forall (honest tag_owner) (arrivals (worked [e])) →
  Forall colon_free (arrivals (worked [e])) → Forall (event_fault ok) (worked [e]) →
  lawful rows [e] → moving_turn config num_to_string s e = Some s' →
  moving_inv snapshots arrived rows s l →
  ∃ l', moving_inv (snapshots ++ refreshes [e])
    (arrived ++ arrivals_of u (pred (length snapshots)) [e]) (areas_after rows [e]) s' l'.
Proof.
  intros Hfin Hu Hh Hc Hf Hlaw Ht Hinv. destruct e as [e|i|more]; cbn [moving_turn] in Ht.
  - eexists. cbn [refreshes omap list_omap areas_after]. rewrite app_nil_r.
    replace (arrivals_of u (pred (length snapshots)) [Worked e]) with
      ((λ m, (m, pred (length snapshots))) <$> delivered u (arrivals [e])).
    + eapply worked_inv; try done; [|by apply Forall_cons in Hf as [? _]].
      intros cur Hcur. apply Hfin. intros a Ha. apply areas_after_lookup. by apply Hcur.
    + destruct e; simpl; rewrite ?app_nil_r; done.
  - injection Ht as <-. eexists. cbn [arrivals_of areas_after]. rewrite app_nil_r.
    apply (moved_world_inv snapshots _ arrived rows rows _ l); try done.
    + by apply prefix_app_r.
    + cbn [refreshes omap list_omap]. apply last_snoc.
    + apply Hlaw.
    + apply Hinv.
  - injection Ht as <-. eexists. cbn [refreshes omap list_omap arrivals_of areas_after].
    rewrite !app_nil_r. assert (Hmore : ∀ cur, known_in cur rows → known_in cur (rows ∪ more)).
    { intros cur Hcur a [r Hr]%Hcur. exists r. by apply lookup_union_Some_l. }
    pose proof (mi_lawful _ _ _ _ _ Hinv) as Hl. pose proof (mi_table _ _ _ _ _ Hinv) as Htab.
    apply (moved_world_inv snapshots snapshots arrived rows _ _ l); try done.
    + apply Hinv.
    + intros lng lat. destruct (Hl lng lat) as (cur & ? & ? & ?). exists cur.
      split_and!; [done..|]. by apply Hmore.
    + unfold table. simpl. by rewrite <- Htab.
Qed.

Lemma arrivals_of_cons k e es :
  arrivals_of u k (e :: es) =
    arrivals_of u k [e] ++ arrivals_of u (k + length (refreshes [e])) es.
Proof.
  destruct e as [[message|n|n f|n|n]|i|more]; simpl;
    rewrite ?Nat.add_0_r, ?Nat.add_1_r, ?app_nil_r; done.
Qed.

Lemma worked_cons e es : worked (e :: es) = worked [e] ++ worked es.
Proof. by destruct e. Qed.

Lemma arrivals_app es es' : arrivals (es ++ es') = arrivals es ++ arrivals es'.
Proof. apply omap_app. Qed.

Lemma moving_turns_inv snapshots arrived rows s l es s' :
  snapshots ≠ [] → areas_after rows es = final → no_colon u = true →
  Forall (honest tag_owner) (arrivals (worked es)) → Forall colon_free (arrivals (worked es)) →
  Forall (event_fault ok) (worked es) → lawful rows es →
  moving_turns config num_to_string es s = Some s' → moving_inv snapshots arrived rows s l →
  ∃ l', moving_inv (snapshots ++ refreshes es)
    (arrived ++ arrivals_of u (pred (length snapshots)) es) final s' l'.
Proof.
  revert snapshots arrived rows s l.
  induction es as [|e es IH]; intros snapshots arrived rows s l Hne Hfin Hu Hh Hc Hf Hlaw Ht Hinv.
  { injection Ht as <-. exists l. cbn [refreshes omap list_omap arrivals_of].
    rewrite !app_nil_r. simpl in Hfin. by subst rows. }
  cbn [moving_turns] in Ht. destruct (moving_turn config num_to_string s e) as [s1|] eqn:Ht1; [|done].
  rewrite worked_cons in Hh, Hc, Hf. rewrite arrivals_app in Hh, Hc.
  apply Forall_app in Hh, Hc, Hf.
  destruct (moving_turn_inv snapshots arrived rows s l e es s1) as [l1 Hinv1]; try tauto.
  { intros cur. by rewrite Hfin. }
  { by destruct e; [|destruct Hlaw|]. }
  assert (Hne1 : snapshots ++ refreshes [e] ≠ []) by (by destruct snapshots).
  assert (Hfin1 : areas_after (areas_after rows [e]) es = final) by (rewrite <- Hfin; by destruct e).
  assert (Hlaw1 : lawful (areas_after rows [e]) es)
    by (destruct e as [e|i|more]; [exact Hlaw|apply Hlaw|exact Hlaw]).
  destruct (IH _ _ _ _ _ Hne1 Hfin1 Hu (proj2 Hh) (proj2 Hc) (proj2 Hf) Hlaw1 Ht Hinv1)
    as [l' Hinv'].
  exists l'. rewrite refreshes_cons, arrivals_of_cons, !app_assoc.
  replace (pred (length snapshots) + length (refreshes [e])) with
    (pred (length (snapshots ++ refreshes [e]))); [done|].
  rewrite length_app. destruct snapshots; [done|]. simpl. lia.
Qed.
End moving_correct.

(** ** The refinement *)

Section refinement.
Context {gis : PostGIS} {store : RedisStore} {lookup : AreaLookup}.
Variable config : RedisConfig.
Variable num_to_string : number → string.
Variable tag_owner : nat → option string.

Definition exists_in (rows : gmap string AreaRow) (a : string) : bool :=
  bool_decide (is_Some (rows !! a)).

(** The machine that takes every area to exist. *)
Definition everywhere (a : string) : bool := true.

(** The evaluations, as the abstract machine reads them. *)
Definition visited (evs : list Evaluation) : list (nat * LocationEventV1 * list string) :=
  (λ e, (el_message e, el_cover e)) <$> evs.

Lemma admission_everywhere rows cap entered :
  known_in entered rows → admission (exists_in rows) cap entered = admission everywhere cap entered.
Proof.
  induction entered as [|a entered IH]; intros Hk; [done|]. cbn [admission everywhere].
  unfold exists_in at 1. rewrite bool_decide_eq_true_2 by (apply Hk; by left).
  destruct (captured_error cap); [done|]. apply IH. intros b Hb. apply Hk. by right.
Qed.

Lemma visit_event_everywhere rows event cur v :
  known_in cur rows → visit_event (exists_in rows) event cur v = visit_event everywhere event cur v.
Proof.
  intros Hk. unfold visit_event. rewrite (admission_everywhere rows); [done|].
  intros a [Ha _]%elem_of_js_sort%elem_of_list_minus. by apply Hk.
Qed.

(** The machine over evaluations: each message ends as one under failures ends, and
    where nothing failed, as it does undisturbed. *)
Inductive visit_evaluations : Visits → list Evaluation → Visits → list settlement → Prop :=
| ve_done v : visit_evaluations v [] v []
| ve_next v e v1 new evs v2 more :
    disturbed_end everywhere (el_message e, el_cover e) v v1 new →
    (Forall no_fault (el_faults e) →
       ∃ o, visit_event everywhere (el_message e).2 (el_cover e) v = (o, v1) ∧
            new = [settlement_of (el_message e).1 o]) →
    visit_evaluations v1 evs v2 more →
    visit_evaluations v (e :: evs) v2 (new ++ more).

Lemma evaluations_life v evs v' settled :
  visit_evaluations v evs v' settled → visit_life everywhere v (visited evs) v' settled.
Proof. induction 1; [constructor|]. by econstructor. Qed.

#[local] Instance no_fault_dec f : Decision (no_fault f).
Proof. unfold no_fault. destruct f; by (left + right). Defined.

Lemma disturbed_end_everywhere rows m v v' new :
  known_in m.2 rows → disturbed_end (exists_in rows) m v v' new →
  disturbed_end everywhere m v v' new.
Proof.
  intros Hk [new' Hnew|o v1 new' Hv Hnew]; [by apply de_nothing|].
  rewrite visit_event_everywhere in Hv by done. by eapply de_effect.
Qed.

(** One evaluation, in the ideal world. *)
Lemma evaluation_refines u rows stored snapshots v e w :
  Forall plain (el_faults e) → evaluated_in snapshots e → known_in (el_cover e) rows →
  ev_userId (el_message e).2 = u → rep_world u (exists_in rows) v w → rep_stored u stored w →
  rep_stored u stored (ideal_next config num_to_string w e) ∧
  ∃ v' new, disturbed_end everywhere (el_message e, el_cover e) v v' new ∧
    (Forall no_fault (el_faults e) →
       ∃ o, visit_event everywhere (el_message e).2 (el_cover e) v = (o, v') ∧
            new = [settlement_of (el_message e).1 o]) ∧
    rep_world u (exists_in rows) v' (ideal_next config num_to_string w e) ∧
    w_settled (ideal_next config num_to_string w e) = w_settled w ++ new.
Proof.
  intros Hpl He Hk Hu Hrep Hst.
  assert (Hrep0 : rep_world u (exists_in rows) v (with_areas (el_snapshot e) w))
    by (by destruct Hrep; split).
  destruct (disturbed_refines config num_to_string u (exists_in rows) stored v
    (el_message e, el_cover e) (el_faults e) (with_areas (el_snapshot e) w) Hpl)
    as (Hst' & v' & new & Hend & Hrep' & Hset); [|done|done|].
  { split_and!; [done|apply He|apply (ei_cover _ _ He)]. }
  split; [done|]. destruct (decide (Forall no_fault (el_faults e))) as [Hno|Hno].
  2: { exists v', new. split_and!; [by eapply disturbed_end_everywhere|done|done|done]. }
  clear Hend Hrep' Hset v' new.
  pose proof (process_next_refines config num_to_string (exists_in rows) (el_message e)
    (el_cover e) v (with_areas (el_snapshot e) w) (ei_NoDup _ _ He) (ei_cover _ _ He)
    ltac:(by rewrite Hu)) as Hstep.
  rewrite visit_event_everywhere, Hu in Hstep by done.
  assert (Hrun : ideal_next config num_to_string w e =
    process_next config num_to_string (with_areas (el_snapshot e) w) (el_message e)).
  { unfold ideal_next. by rewrite (proj1 (run_no_faults _ _ _ Hno)). }
  rewrite Hrun. destruct (visit_event everywhere (el_message e).2 (el_cover e) v) as [o v'] eqn:Hv.
  destruct Hstep as [Hrep' Hset]. exists v', [settlement_of (el_message e).1 o].
  split_and!; [|by eexists|done|done]. eapply de_effect; [exact Hv|by right; right].
Qed.

Lemma ideal_refines u rows stored snapshots evs v w :
  Forall (λ e, Forall plain (el_faults e)) evs →
  Forall (evaluated_in snapshots) evs → Forall (λ e, known_in (el_cover e) rows) evs →
  Forall (λ e, ev_userId (el_message e).2 = u) evs → rep_world u (exists_in rows) v w →
  rep_stored u stored w →
  let w' := foldl (ideal_next config num_to_string) w evs in
  rep_stored u stored w' ∧ ∃ v' settled, visit_evaluations v evs v' settled ∧
    rep_world u (exists_in rows) v' w' ∧ w_settled w' = w_settled w ++ settled.
Proof.
  revert v w. induction evs as [|e evs IH]; intros v w Hpl He Hk Hu Hrep Hst.
  { split; [done|]. exists v, []. rewrite app_nil_r. by split_and!; [constructor|..]. }
  apply Forall_cons in Hpl as [Hpl Hpls], He as [He Hes], Hk as [Hk Hks], Hu as [Hu Hus].
  destruct (evaluation_refines u rows stored snapshots v e w Hpl He Hk Hu Hrep Hst)
    as (Hst1 & v1 & new & Hend & Hno & Hrep1 & Hset1).
  destruct (IH v1 _ Hpls Hes Hks Hus Hrep1 Hst1) as (Hst2 & v2 & more & Hevs & Hrep2 & Hset2).
  split; [done|]. exists v2, (new ++ more). split_and!; [by econstructor|done|].
  cbn [foldl]. by rewrite Hset2, Hset1, app_assoc.
Qed.

Lemma rep_world_same_user u known known' v w1 w2 :
  same_user tag_owner u w1 w2 → (∀ a, known' a = exists_in (table w2) a) →
  rep_world u known v w1 → rep_world u known' v w2.
Proof.
  intros [Hp Hs Hl Hm Hq _] Hk' [[Hin Hlog] Hk Hc _].
  pose proof (presence_of_ext u _ _ Hp) as Hpres. split.
  - split; [by rewrite <- Hpres|by rewrite <- Hl].
  - intros event d Hu. rewrite <- (Hk event d Hu). unfold known_seq. rewrite Hu.
    by rewrite Hq, Hs.
  - intros ids. rewrite <- Hm, <- Hpres. apply Hc.
  - exact Hk'.
Qed.

(** At the start. *)
Lemma moving_inv_fresh u ok final w :
  index_lawful (w_areas w) (table w) →
  moving_inv config num_to_string tag_owner u ok final (with_table final w) [w_areas w] []
    (table w) (fresh w) (idle w).
Proof.
  intros Hlaw. split; try done.
  - apply lanes_own_idle.
  - exists [], []. rewrite lane_of_idle. split; try done; try by constructor.
Qed.

(** C5. The worker refines the abstract machine of visits while its world moves and its
    operations fail, for users whose ids hold no colon (others can share a device key) and
    plain failures (an operation that fails has no effect, and its error is not that of a
    missing area): other processes create areas, and the snapshot is replaced between
    any two operations of the messages in flight. When a user's chain has drained, each
    of its messages, in order of arrival, was evaluated with one snapshot, published no
    earlier than the one in force when the message arrived, and never older than that of
    the user's message before; with these answers the tables, the log and the settlements
    are the machine's, in which a message has all of its effect or none, all of it where
    nothing failed, and none is dropped because an area is missing. *)
Theorem moving_worker_refines_visits u ok v known es w s :
  (∀ f, ok f → plain f) →
  moving_turns config num_to_string es (fresh w) = Some s →
  Forall (honest tag_owner) (arrivals (worked es)) → Forall colon_free (arrivals (worked es)) →
  no_colon u = true → pending u (cw_chains s) = [] →
  Forall (event_fault ok) (worked es) →
  index_lawful (w_areas w) (table w) → lawful (table w) es → rep_world u known v w →
  ∃ (evs : list Evaluation) v' settled,
    (λ e, (el_message e, el_arrived e)) <$> evs = arrivals_of u 0 es ∧
    Forall (evaluated_in (w_areas w :: refreshes es)) evs ∧
    Forall (λ e, Forall ok (el_faults e)) evs ∧
    StronglySorted le (el_position <$> evs) ∧
    visit_evaluations v evs v' settled ∧
    rep_world u (exists_in (table (cw_world s))) v' (cw_world s) ∧
    settled_for tag_owner u (cw_world s) = settled_for tag_owner u w ++ settled.
Proof.
  intros Hok Ht Hh Hc Hu Hp Hf Hidx Hlaw Hrep. set (final := areas_after (table w) es).
  destruct (moving_turns_inv config num_to_string tag_owner u ok final (with_table final w)
    [w_areas w] [] (table w) (fresh w) (idle w) es s) as [l Hinv]; try done.
  { by apply moving_inv_fresh. }
  destruct Hinv as [Hsim _ _ _ _ Htab (evs & waiting & Huser)].
  rewrite (sm_lanes _ _ Hsim), Hp, (sm_world _ _ Hsim) in Huser.
  destruct Huser as [Har Ho _ Hd Hef Hkn Hord _ Hl]. cbn [app pred length] in Har, Ho, Hd.
  inversion Hl as [w' Hs|]; subst waiting. subst w'. rewrite app_nil_r in Har.
  assert (Hus : Forall (λ e, tag_owner (el_message e).1 = Some u ∧ ev_userId (el_message e).2 = u) evs).
  { rewrite Har in Ho. apply Forall_fmap in Ho. exact Ho. }
  assert (Hpl : Forall (λ e, Forall plain (el_faults e)) evs).
  { eapply Forall_impl; [exact Hef|]. intros e He. eapply Forall_impl; [exact He|exact Hok]. }
  destruct (ideal_refines u final (stored_seq u (w_db w)) _ evs v (with_table final w) Hpl Hd Hkn)
    as (_ & v' & settled & Hevs & Hrep' & Hset);
    [by eapply Forall_impl; [exact Hus|]; intros e [_ ?]| |done|].
  { eapply rep_world_same_user; [|intros a; reflexivity|exact Hrep]. by split. }
  exists evs, v', settled. split_and!; [by symmetry|done|done|done|done|..].
  - eapply rep_world_same_user; [exact Hs|by rewrite Htab|exact Hrep'].
  - rewrite <- (su_settled _ _ _ _ Hs). unfold settled_for. rewrite Hset, filter_app. f_equal.
    apply filter_all. eapply (life_tags (λ t, tag_owner t = Some u)); [by apply evaluations_life|].
    apply Forall_fmap. eapply Forall_impl; [exact Hus|]. by intros e [? _].
Qed.
End refinement.

(** ** What [lawful] asks, of the snapshot service *)

(** A snapshot that [rebuild] made of rows that were in the table is lawful from then
    on: areas are created, never removed. *)
Lemma rebuilt_lawful `{PostGIS, RBush, PointInPolygon, !RBushLaws, !PointInPolygonLaws}
    (m rows : gmap string AreaRow) sn :
  rows_wf (area_geometry_rows m) →
  new_AreaSpatialIndex (area_geometry_rows m) = inr (sn_index sn) →
  (∀ a, is_Some (m !! a) → is_Some (rows !! a)) →
  @index_lawful snapshot_lookup (Some sn) rows.
Proof.
  intros Hwf Hi Hm lng lat. eexists. split; [reflexivity|].
  pose proof (findCoveringAreaIds_spec _ _ lng lat Hwf Hi) as Hperm. split.
  - rewrite Hperm. apply NoDup_reference, NoDup_area_geometry_rows.
  - intros a Ha. rewrite Hperm in Ha. apply Hm.
    apply list_elem_of_fmap in Ha as (row & -> & [_ Hrow]%list_elem_of_filter).
    unfold area_geometry_rows in Hrow. apply list_elem_of_fmap in Hrow as ([id r] & -> & Hr).
    apply elem_of_map_to_list in Hr. by exists r.
Qed.

(** ** Witness *)

#[local] Existing Instances fx_postgis fx_redis fx_lookup.

(** The database fails under the first message, which is given back. "area-c" is created,
    and covers everything; the message comes again, and the snapshot is replaced before it
    asks. *)
Definition fx_new_rows : gmap string AreaRow := {[ "area-c" := fx_area_row ]}.

Definition fx_new_areas : list rectangle := ("area-c", zbox (-90) (-90) 90 90) :: fx_areas.

Definition fx_moving : list moving_event :=
  (Worked <$> [Receive (fx_message 1 fx_inside); Begin 0; Step 0 FOk;
               Step 0 (FFail (Error "gone")); Step 0 FOk; End 0; Clean 0]) ++
  [Committed fx_new_rows; Worked (Receive (fx_message 2 fx_inside)); Worked (Begin 1);
   Worked (Step 1 FOk); Refreshed fx_new_areas] ++
  (Worked <$> fx_steps 1 13 ++ [End 1; Clean 1]).

Definition fx_moved : ChainWorker :=
  default (fresh fx_world) (moving_turns fx_config fx_num_to_string fx_moving (fresh fx_world)).

Lemma fx_index_lawful (i : list rectangle) rows :
  NoDup (fst <$> i) → Forall (λ a, is_Some (rows !! a)) (fst <$> i) →
  @index_lawful fx_lookup i rows.
Proof.
  intros Hnd Hall lng lat. eexists. split; [reflexivity|]. split.
  - by apply fx_answer_NoDup.
  - intros a (r & -> & Hr)%list_elem_of_fmap. apply list_elem_of_filter in Hr as [_ Hr].
    rewrite Forall_forall in Hall. apply Hall. by apply list_elem_of_fmap_2.
Qed.

Lemma fx_moved_run :
  moving_turns fx_config fx_num_to_string fx_moving (fresh fx_world) = Some fx_moved.
Proof.
  unfold fx_moved.
  assert (Hrun : match moving_turns fx_config fx_num_to_string fx_moving (fresh fx_world) with
                 | Some _ => true | None => false end = true) by (vm_compute; reflexivity).
  destruct (moving_turns fx_config fx_num_to_string fx_moving (fresh fx_world)); [done|].
  discriminate.
Qed.

Lemma fx_moving_lawful :
  index_lawful (w_areas fx_world) (table fx_world) ∧ lawful (table fx_world) fx_moving.
Proof.
  assert (Hlaw : ∀ (i : list rectangle) (rows : gmap string AreaRow),
    bool_decide (NoDup (fst <$> i)) = true →
    bool_decide (Forall (λ a, is_Some (rows !! a)) (fst <$> i)) = true →
    @index_lawful fx_lookup i rows).
  { intros i rows Hnd%bool_decide_eq_true Hall%bool_decide_eq_true. by apply fx_index_lawful. }
  split; [by apply Hlaw; vm_compute|]. split; [by apply Hlaw; vm_compute|done].
Qed.

Lemma moving_worker_refines_visits_witness :
  (∃ (evs : list Evaluation) v' settled,
    (λ e, (el_message e, el_arrived e)) <$> evs = arrivals_of "u" 0 fx_moving ∧
    Forall (evaluated_in (w_areas fx_world :: refreshes fx_moving)) evs ∧
    Forall (λ e, Forall plain (el_faults e)) evs ∧
    StronglySorted le (el_position <$> evs) ∧
    visit_evaluations fx_visits evs v' settled ∧
    rep_world "u" (exists_in (table (cw_world fx_moved))) v' (cw_world fx_moved) ∧
    settled_for fx_owner "u" (cw_world fx_moved) = settled_for fx_owner "u" fx_world ++ settled) ∧
  settled_for fx_owner "u" (cw_world fx_moved) = [SNack 1 false true; SAck 2] ∧
  user_log "u" (w_db (cw_world fx_moved)) =
    [("area-a", 5000%Z, None); ("area-b", 5000%Z, None); ("area-c", 5000%Z, None)].
Proof.
  split.
  - apply (moving_worker_refines_visits fx_config fx_num_to_string fx_owner "u" plain
      fx_visits fx_exists fx_moving fx_world fx_moved (λ _ H, H));
      [apply fx_moved_run| | |reflexivity|vm_compute; reflexivity| |apply fx_moving_lawful..|].
    + repeat (constructor; [done|]). constructor.
    + repeat (constructor; [intros v Hv; vm_compute in Hv; by simplify_eq|]). constructor.
    + repeat (constructor; [first [exact I|split; [done|by intros e [= <-]]]|]). constructor.
    + split; [by split|reflexivity|by apply coherent_cold|done].
  - vm_compute. by split.
Defined.
