(* ===== verification/MovingLives.v ===== *)
(** The worker through everything at once: messages of all users in flight, failures, the
    snapshot replaced and areas created under the messages ([Moving]), and lives that end
    with the process killed at any moment ([Redelivery]). *)

From S2P Require Import Prelude Num Js Prog Db World Presence Locations Transition.
From S2P Require Import Report Ingest Worker WorkerCorrect Delivery Interleave Fixtures.
From S2P Require Import Chains ChainWorker Pipeline Concurrent Redelivery.
From S2P Require Import Moving MovingWorker MovingCorrect.

Section moving_lives.
Context {gis : PostGIS} {store : RedisStore} {lookup : AreaLookup}.
Variable config : RedisConfig.
Variable num_to_string : number → string.
Variable tag_owner : nat → option string.
Variable u : string.

(** ** What is left when the worker is killed *)

Lemma same_user_restart w1 w2 :
  same_user tag_owner u w1 w2 → same_user tag_owner u (restart w1) (restart w2).
Proof. intros [? ? ? ? ? ?]. by split. Qed.

Section killed.
Variable final : gmap string AreaRow.
Variable start : World.
Variable snapshots : list area_index.
Variable w : World.
Hypothesis Hlast : last snapshots = Some (w_areas w).
Hypothesis Hlaw : index_lawful (w_areas w) (table w).
Hypothesis Hfin : ∀ cur, known_in cur (table w) → known_in cur final.

(** The messages that arrived, evaluated in the ideal world, which ends where the worker
    is stopped. *)
Record stopped (arrived : list (nat * LocationEventV1 * nat)) (evs : list Evaluation) : Prop := {
  st_arrived : arrived = (λ e, (el_message e, el_arrived e)) <$> evs;
  st_done : Forall (evaluated_in snapshots) evs;
  st_faults : Forall (λ e, Forall plain (el_faults e)) evs;
  st_known : Forall (λ e, known_in (el_cover e) final) evs;
  st_order : StronglySorted le (el_position <$> evs);
  st_table : table (foldl (ideal_next config num_to_string) start evs) = final;
  st_user : same_user tag_owner u (restart (foldl (ideal_next config num_to_string) start evs))
              (restart w);
  st_settled : settled_for tag_owner u (foldl (ideal_next config num_to_string) start evs) =
                 settled_for tag_owner u w;
}.

(** One more message, which the worker stops in: what it does until then is what it would
    do if every later operation failed. *)
Lemma stopped_snoc arrived evs e w1 :
  let w0 := foldl (ideal_next config num_to_string) start evs in
  evaluated_in snapshots e → Forall plain (el_faults e) → known_in (el_cover e) final →
  Forall (λ e', el_position e' ≤ el_position e) evs →
  arrived = (λ e, (el_message e, el_arrived e)) <$> evs →
  Forall (evaluated_in snapshots) evs → Forall (λ e, Forall plain (el_faults e)) evs →
  Forall (λ e, known_in (el_cover e) final) evs → StronglySorted le (el_position <$> evs) →
  restart (ideal_next config num_to_string w0 e) = restart w1 →
  w_settled (ideal_next config num_to_string w0 e) = w_settled w1 →
  table w1 = final → same_user tag_owner u (restart w1) (restart w) →
  settled_for tag_owner u w1 = settled_for tag_owner u w →
  stopped (arrived ++ [(el_message e, el_arrived e)]) (evs ++ [e]).
Proof.
  intros w0 He Hpl Hk Hpos Har Hd Hf Hkn Hord Hr Hs Ht Hu Hset. split.
  - by rewrite fmap_app, Har.
  - apply Forall_app. split; [done|by constructor].
  - apply Forall_app. split; [done|by constructor].
  - apply Forall_app. split; [done|by constructor].
  - rewrite fmap_app. apply StronglySorted_snoc; [done|]. by apply Forall_fmap.
  - rewrite foldl_app. cbn [foldl]. fold w0. rewrite <- Ht. unfold table.
    by apply (f_equal (λ w, areas (w_db w))) in Hr.
  - rewrite foldl_app. cbn [foldl]. fold w0. by rewrite Hr.
  - rewrite foldl_app. cbn [foldl]. fold w0. rewrite <- Hset. unfold settled_for. by rewrite Hs.
Qed.

Lemma last_position e evs :
  Forall (evaluated_in snapshots) evs → el_position e = pred (length snapshots) →
  Forall (λ e', el_position e' ≤ el_position e) evs.
Proof.
  intros Hd He. eapply Forall_impl; [exact Hd|]. intros e' [_ He' _ _].
  apply lookup_lt_Some in He'. lia.
Qed.

(** A message that never began. *)
Lemma stopped_waits arrived evs m arr :
  stopped arrived evs → arr < length snapshots →
  ∃ e, stopped (arrived ++ [(m, arr)]) (evs ++ [e]).
Proof.
  intros [Har Hd Hf Hkn Hord Ht Hu Hset] Harr.
  set (w0 := foldl (ideal_next config num_to_string) start evs) in *.
  destruct (Hlaw (ev_lng m.2) (ev_lat m.2)) as (cur & Hcur & Hnd & Hk).
  destruct (killed_run (task_of config num_to_string m) (with_areas (w_areas w) w0))
    as (fs & r & w1 & Hfs & Hrun & Hr & Hs).
  set (e := {| el_message := m; el_arrived := arr; el_position := pred (length snapshots);
    el_snapshot := w_areas w; el_cover := cur; el_faults := fs |}).
  assert (Hw1 : ideal_next config num_to_string w0 e = w1).
  { unfold ideal_next. cbn [e el_message el_faults el_snapshot].
    by rewrite <- (app_nil_r fs), Hrun. }
  exists e. change (m, arr) with (el_message e, el_arrived e).
  apply (stopped_snoc arrived evs e (with_areas (w_areas w) w0)); fold w0; rewrite ?Hw1; try done.
  - split; [simpl; lia| |done|done]. cbn [e el_position el_snapshot]. by rewrite <- last_lookup.
  - by apply Hfin.
  - by apply last_position.
  - etrans; [|exact Hu]. apply same_user_restart, same_user_areas.
Qed.

Lemma stopped_all_wait arrived evs waiting :
  stopped arrived evs → Forall (λ x, x.2 < length snapshots) waiting →
  ∃ evs', stopped (arrived ++ waiting) evs'.
Proof.
  revert arrived evs. induction waiting as [|[m arr] waiting IH]; intros arrived evs Hst Hb.
  { exists evs. by rewrite app_nil_r. }
  apply Forall_cons in Hb as [Hb Hbs]. destruct (stopped_waits arrived evs m arr Hst Hb) as [e He].
  destruct (IH _ _ He Hbs) as [evs' Hevs]. exists evs'. by rewrite cons_middle, app_assoc.
Qed.

(** Whatever the worker was doing. *)
Lemma user_inv_stopped arrived ps evs waiting :
  user_inv config num_to_string tag_owner u plain final start snapshots arrived ps w evs waiting →
  ∃ evs', stopped arrived evs'.
Proof.
  intros [Har Ho Hb Hd Hef Hkn Hord Ht Hl]. rewrite Har.
  inversion Hl as [w' Hs|m arr waiting' p w' Hown Hrun]; subst.
  { rewrite app_nil_r. exists evs. split; try done; [by apply same_user_restart|].
    apply (su_settled _ _ _ _ Hs). }
  apply Forall_cons in Hb as [Hba Hb].
  destruct (running_has_asked config num_to_string tag_owner u plain final snapshots evs _ m arr p w
    Hlast Hlaw Hfin Hba Hd Hrun) as (e & wi & He & <- & <- & Hpos & Hkf & Hpl & Hre & Hti & Hs).
  destruct (killed_run p wi) as (fs & r & w1 & Hfs & Hkill & Hr & Hset).
  set (e' := {| el_message := el_message e; el_arrived := el_arrived e;
    el_position := el_position e; el_snapshot := el_snapshot e; el_cover := el_cover e;
    el_faults := el_faults e ++ fs |}).
  assert (Hw1 : ideal_next config num_to_string
    (foldl (ideal_next config num_to_string) start evs) e' = w1).
  { unfold ideal_next at 1. cbn [e' el_message el_faults el_snapshot].
    by rewrite Hre, <- (app_nil_r fs), Hkill. }
  rewrite cons_middle, app_assoc. eapply stopped_all_wait; [|exact Hb].
  change (el_message e, el_arrived e) with (el_message e', el_arrived e').
  apply (stopped_snoc _ evs e' wi); rewrite ?Hw1; try done.
  - by destruct He; split.
  - by apply Forall_app.
  - by apply same_user_restart.
  - apply (su_settled _ _ _ _ Hs).
Qed.
End killed.

(** ** One life *)

(** The messages of a life, each evaluated with one snapshot: [i] is the first. *)
Record life_evaluated (i : area_index) (es : list moving_event) (evs : list Evaluation) : Prop := {
  le_arrived : (λ e, (el_message e, el_arrived e)) <$> evs = arrivals_of u 0 es;
  le_done : Forall (evaluated_in (i :: refreshes es)) evs;
  le_order : StronglySorted le (el_position <$> evs);
}.

(** What is asked of a life. *)
Definition moving_life_ok (es : list moving_event) : Prop := life_ok tag_owner (worked es).

Definition last_snapshot (i : area_index) (es : list moving_event) : area_index :=
  default i (last (refreshes es)).

Lemma last_snapshots i es : last (i :: refreshes es) = Some (last_snapshot i es).
Proof.
  unfold last_snapshot. destruct (refreshes es) as [|j js]; [done|]. rewrite last_cons_cons.
  by destruct (last_is_Some (j :: js)) as [_ [? ->]].
Qed.

Lemma life_stopped es w s :
  moving_turns config num_to_string es (fresh w) = Some s → no_colon u = true →
  moving_life_ok es → index_lawful (w_areas w) (table w) → lawful (table w) es →
  let final := areas_after (table w) es in
  table (cw_world s) = final ∧ w_areas (cw_world s) = last_snapshot (w_areas w) es ∧
  index_lawful (w_areas (cw_world s)) final ∧
  Forall (λ x, ev_userId x.1.2 = u ∧ tag_owner x.1.1 = Some u) (arrivals_of u 0 es) ∧
  ∃ evs, stopped final (with_table final w) (w_areas w :: refreshes es) (cw_world s)
           (arrivals_of u 0 es) evs.
Proof.
  intros Ht Hu (Hh & Hc & Hf) Hidx Hlaw final.
  destruct (moving_turns_inv config num_to_string tag_owner u plain final (with_table final w)
    [w_areas w] [] (table w) (fresh w) (idle w) es s) as [l Hinv]; try done.
  { by apply moving_inv_fresh. }
  destruct Hinv as [Hsim _ _ Hlast Hl Htab (evs & waiting & Huser)].
  cbn [app pred length] in Hlast, Huser. rewrite (sm_world _ _ Hsim) in Huser.
  split_and!; [done| |done|..].
  - change ([w_areas w] ++ refreshes es) with (w_areas w :: refreshes es) in Hlast.
    rewrite last_snapshots in Hlast. congruence.
  - destruct Huser as [_ Ho _ _ _ _ _ _ _]. eapply Forall_impl; [exact Ho|]. by intros x [? ?].
  - eapply user_inv_stopped; [exact Hlast|by rewrite Htab|by rewrite Htab|exact Huser].
Qed.

Lemma moving_life_refines stored known v es w s :
  moving_turns config num_to_string es (fresh w) = Some s → no_colon u = true →
  moving_life_ok es → index_lawful (w_areas w) (table w) → lawful (table w) es →
  rep_world u known v w → rep_stored u stored w → settled_for tag_owner u w = [] →
  rep_stored u stored (restart (cw_world s)) ∧
  ∃ evs v', life_evaluated (w_areas w) es evs ∧
    visit_evaluations v evs v' (settled_for tag_owner u (cw_world s)) ∧
    rep_world u (exists_in (table (cw_world s))) (crash_visits stored v') (restart (cw_world s)).
Proof.
  intros Ht Hu Hok Hidx Hlaw Hrep Hst Hset0. set (final := areas_after (table w) es).
  destruct (life_stopped es w s Ht Hu Hok Hidx Hlaw)
    as (Htab & _ & _ & Hown & evs & [Har Hd Hpl Hkn Hord Htw Hus Hset]).
  fold final in Htab, Hkn, Htw, Hus, Hset.
  rewrite Har in Hown. apply Forall_fmap in Hown.
  destruct (ideal_refines config num_to_string u final stored _ evs v (with_table final w) Hpl Hd Hkn)
    as (Hst1 & v' & settled & Hevs & Hrep' & Hset');
    [by eapply Forall_impl; [exact Hown|]; intros e [? _]| |done|].
  { eapply (rep_world_same_user tag_owner); [|intros a; reflexivity|exact Hrep]. by split. }
  set (w1 := foldl _ (with_table final w) evs) in *. split.
  - intros d. unfold stored_seq. rewrite <- (su_state _ _ _ _ Hus d). apply Hst1.
  - exists evs, v'. split_and!; [by split| |].
    + replace (settled_for tag_owner u (cw_world s)) with settled; [done|].
      rewrite <- Hset. unfold settled_for in *. rewrite Hset', filter_app.
      change (filter _ (w_settled (with_table final w))) with (settled_for tag_owner u w).
      unfold settled_for. rewrite Hset0. cbn [app]. symmetry. apply filter_all.
      eapply (life_tags (λ t, tag_owner t = Some u)); [by apply evaluations_life|].
      apply Forall_fmap. eapply Forall_impl; [exact Hown|]. by intros e [_ ?].
    + eapply rep_world_same_user; [exact Hus|done|]. by eapply restart_rep.
Qed.

(** ** Lives *)

(** The worker is started, and killed whenever it may be; and started again, while other
    processes create areas and the snapshot is replaced. The settlements of the user in
    each life are collected. *)
Fixpoint moving_live (lives : list (list moving_event)) (w : World) :
    option (World * list (list settlement)) :=
  match lives with
  | [] => Some (w, [])
  | es :: lives =>
      match moving_turns config num_to_string es (fresh w) with
      | None => None
      | Some s =>
          match moving_live lives (restart (cw_world s)) with
          | None => None
          | Some (w', settled) => Some (w', settled_for tag_owner u (cw_world s) :: settled)
          end
      end
  end.

Fixpoint lives_lawful (rows : gmap string AreaRow) (lives : list (list moving_event)) : Prop :=
  match lives with
  | [] => True
  | es :: lives => lawful rows es ∧ lives_lawful (areas_after rows es) lives
  end.

Fixpoint lives_evaluated (i : area_index) (lives : list (list moving_event))
    (evss : list (list Evaluation)) : Prop :=
  match lives, evss with
  | [], [] => True
  | es :: lives, evs :: evss =>
      life_evaluated i es evs ∧ lives_evaluated (last_snapshot i es) lives evss
  | _, _ => False
  end.

(** The machine over the evaluations of lives that end with a crash. *)
Inductive visit_moving_lives (stored : string → Z) :
    Visits → list (list Evaluation) → Visits → list (list settlement) → Prop :=
| vml_done v : visit_moving_lives stored v [] v []
| vml_next v evs v1 settled evss v2 more :
    visit_evaluations v evs v1 settled →
    visit_moving_lives stored (crash_visits stored v1) evss v2 more →
    visit_moving_lives stored v (evs :: evss) v2 (settled :: more).

(** C3. At-least-once delivery refines the machine of visits. Take users whose ids hold no
    colon (others can share a device key) and failures that are plain: an operation that
    fails has no effect, and its error is not that of a missing area. Whatever else the
    worker goes through, with the messages of all users in flight on their promise
    chains, any number of such failures, areas created and the snapshot replaced under the
    messages, and lives that end with the process killed at any moment, what a user sees
    follows the machine over the user's messages as they were delivered in each
    life, each evaluated with one snapshot that is none older than the one at its arrival
    nor than that of the message before: every message has all of its effect or none, it
    is acknowledged only if it had the effect that it has undisturbed, and a crash costs
    the numbers that were remembered and nothing else. *)
Theorem moving_lives_refine_visits stored known v lives w w' settled :
  moving_live lives w = Some (w', settled) → no_colon u = true → Forall moving_life_ok lives →
  index_lawful (w_areas w) (table w) → lives_lawful (table w) lives →
  rep_world u known v w → rep_stored u stored w → settled_for tag_owner u w = [] →
  ∃ evss v', lives_evaluated (w_areas w) lives evss ∧
    visit_moving_lives stored v evss v' settled ∧
    rep_world u (exists_in (table w')) v' w' ∧ rep_stored u stored w'.
Proof.
  intros Hlive Hu Hok. revert known v w settled Hlive.
  induction Hok as [|es lives Hes Hok IH];
    intros known v w settled Hlive Hidx Hlaw Hrep Hst Hset.
  { injection Hlive as -> <-. exists [], v. split_and!; [done|constructor| |done].
    by destruct Hrep as [? ? ? _]; split. }
  cbn [moving_live] in Hlive. destruct Hlaw as [Hlaw Hlaws].
  destruct (moving_turns config num_to_string es (fresh w)) as [s|] eqn:Hs; [|done].
  destruct (moving_live lives (restart (cw_world s))) as [[w2 more]|] eqn:Hl; [|done].
  injection Hlive as -> <-.
  destruct (life_stopped es w s Hs Hu Hes Hidx Hlaw) as (Htab & Har & Hidx1 & _).
  destruct (moving_life_refines stored known v es w s Hs Hu Hes Hidx Hlaw Hrep Hst Hset)
    as (Hst1 & evs & v1 & Hle & Hevs & Hrep1).
  rewrite <- Htab in Hidx1, Hlaws.
  destruct (IH _ _ _ more Hl Hidx1 Hlaws Hrep1 Hst1 eq_refl)
    as (evss & v2 & Hles & Hlives & Hrep2).
  exists (evs :: evss), v2. split; [|split; [by econstructor|done]].
  split; [done|]. by rewrite <- Har.
Qed.
End moving_lives.

(** ** Witness *)

#[local] Existing Instances fx_postgis fx_redis fx_lookup.

(** "area-c" appears after the first message has asked; the worker dies after the
    transaction, before it acknowledges. It is started again, the database fails under
    the message when it comes again, and its third delivery enters "area-c" only. *)
Definition fx_moving_lives : list (list moving_event) :=
  [ (Worked <$> [Receive (fx_message 1 fx_inside); Begin 0] ++ fx_steps 0 4) ++
    [Committed fx_new_rows; Refreshed fx_new_areas] ++ (Worked <$> fx_steps 0 5);
    Worked <$> ([Receive (fx_message 1 fx_inside); Begin 0; Step 0 FOk;
      Step 0 (FFail (Error "gone")); Step 0 FOk; End 0; Clean 0;
      Receive (fx_message 2 fx_inside); Begin 1] ++ fx_steps 1 14 ++ [End 1; Clean 1]) ].

Definition fx_moving_lived : option (World * list (list settlement)) :=
  moving_live fx_config fx_num_to_string fx_owner "u" fx_moving_lives fx_world.

Lemma fx_moving_lives_ok : Forall (moving_life_ok fx_owner) fx_moving_lives.
Proof.
  repeat (constructor; [split_and!|]); [..|constructor].
  1,4: repeat (constructor; [done|]); constructor.
  1,3: repeat (constructor; [intros v Hv; vm_compute in Hv; by simplify_eq|]); constructor.
  all: repeat (constructor; [first [exact I|split; [done|by intros e [= <-]]]|]); constructor.
Qed.

Lemma fx_moving_lives_lawful : lives_lawful (table fx_world) fx_moving_lives.
Proof.
  split; [|done]. split; [|done]. apply fx_index_lawful;
    by apply (bool_decide_unpack _); vm_compute.
Qed.

Lemma moving_lives_refine_visits_witness :
  match fx_moving_lived with
  | Some (w', settled) =>
      (∃ evss v', lives_evaluated "u" (w_areas fx_world) fx_moving_lives evss ∧
        visit_moving_lives (λ _, 0%Z) fx_visits evss v' settled ∧
        rep_world "u" (exists_in (table w')) v' w' ∧ rep_stored "u" (λ _, 0%Z) w') ∧
      settled = [[]; [SNack 1 false true; SAck 2]] ∧
      user_log "u" (w_db w') =
        [("area-a", 5000%Z, None); ("area-b", 5000%Z, None); ("area-c", 5000%Z, None)]
  | None => False
  end.
Proof.
  assert (Hrun : match fx_moving_lived with
    | Some (w', settled) => settled = [[]; [SNack 1 false true; SAck 2]] ∧
        user_log "u" (w_db w') =
          [("area-a", 5000%Z, None); ("area-b", 5000%Z, None); ("area-c", 5000%Z, None)]
    | None => False
    end) by (vm_compute; by split).
  destruct fx_moving_lived as [[w' settled]|] eqn:Hl; [|destruct Hrun]. split; [|exact Hrun].
  unfold fx_moving_lived in Hl.
  by apply (moving_lives_refine_visits fx_config fx_num_to_string fx_owner "u" (λ _, 0%Z) fx_exists
    fx_visits fx_moving_lives fx_world w' settled Hl eq_refl fx_moving_lives_ok
    (proj1 fx_moving_lawful) fx_moving_lives_lawful fx_rep_world fx_rep_stored).
Defined.
