(* ===== verification/Divergences.v ===== *)
(** Where the code and its documentation part: the first event of a device, devices
    whose map keys coincide, a COMMIT whose answer is lost, and a time of capture that
    the database does not read. Each is a theorem
    about the definitions of the model, with the positive counterpart where there
    is one. *)

From S2P Require Import Prelude Num Js Prog Db World Presence Locations Transition.
From S2P Require Import Report ReportAny Ingest Worker WorkerCorrect Delivery Pipeline Fixtures.

(** ** Definitions *)

(** A report with the device and the number of an event, as the API path takes it. *)
Definition full_dto (event : LocationEventV1) : ReportLocationDto :=
  {| dto_userId := ev_userId event; dto_lat := ev_lat event; dto_lng := ev_lng event;
     dto_deviceId := ev_deviceId event; dto_seq := ev_seq event;
     dto_capturedAt := ev_capturedAt event; dto_observedAt := None;
     dto_accuracy := ev_accuracy event |}.

(** Events of two users whose devices share a key of the map. *)
Definition fx_first : LocationEventV1 :=
  {| ev_v := JNum (num_of_Z 1); ev_eventId := "e1"; ev_userId := "a:b";
     ev_deviceId := Some "c"; ev_seq := Some 7%Z; ev_lat := num_of_Z 5; ev_lng := num_of_Z 7;
     ev_accuracy := None; ev_capturedAt := None; ev_receivedAt := 1000 |}.
Definition fx_second : LocationEventV1 :=
  {| ev_v := JNum (num_of_Z 1); ev_eventId := "e2"; ev_userId := "a";
     ev_deviceId := Some "b:c"; ev_seq := Some 7%Z; ev_lat := num_of_Z 5; ev_lng := num_of_Z 7;
     ev_accuracy := None; ev_capturedAt := None; ev_receivedAt := 2000 |}.

(** The event without its time of capture. *)
Definition uncaptured (event : LocationEventV1) : LocationEventV1 :=
  {| ev_v := ev_v event; ev_eventId := ev_eventId event; ev_userId := ev_userId event;
     ev_deviceId := ev_deviceId event; ev_seq := ev_seq event; ev_lat := ev_lat event;
     ev_lng := ev_lng event; ev_accuracy := ev_accuracy event; ev_capturedAt := None;
     ev_receivedAt := ev_receivedAt event |}.

Section divergences.
Context `{PostGIS, RedisStore, AreaLookup}.
Variable config : RedisConfig.
Variable num_to_string : number → string.

(** ** The first event of a device *)

(** The worker drops the first event of a device when its number is zero, the
    least number the API admits: nothing is known of the device, the unknown number
    counts as zero, and the event is acknowledged as a duplicate without an effect.
    The transaction's own check, on the same tables, lets that event pass. *)
Theorem first_event_zero_dropped tag event d w r w' fs' :
  ev_deviceId event = Some d → ev_seq event = Some 0%Z →
  w_lastSeq w !! device_key (ev_userId event) d = None →
  user_event_state (w_db w) !! (ev_userId event, d) = None →
  run exec (processEvent config num_to_string tag event) [] w = (r, w', fs') →
  r = inr tt ∧ w_db w' = w_db w ∧ w_settled w' = w_settled w ++ [SAck tag] ∧
  device_seen (full_dto event) (w_db w) = false.
Proof.
  intros Hd Hs Hmap Htab Hrun.
  assert (Hdup : duplicate_event event w = true).
  { unfold duplicate_event, known_seq. by rewrite Hd, Hs, Hmap, Htab. }
  pose proof (wp_run exec no_fault _ _ [] w eq_refl (Forall_nil_2 _)
    (processEvent_duplicate_wp config num_to_string tag event w Hdup)) as Hend.
  rewrite Hrun in Hend. destruct Hend as [Hr Hw]. simpl in Hr, Hw. subst.
  split_and!; try done. unfold device_seen, full_dto; simpl. by rewrite Hd, Hs, Htab.
Qed.

(** ** Devices that share a key *)

(** The key of the de-duplication map separates devices as long as no user id
    contains a colon: different users or devices have different keys. *)
Theorem device_key_injective u1 u2 d1 d2 :
  no_colon u1 = true → no_colon u2 = true →
  device_key u1 d1 = device_key u2 d2 → u1 = u2 ∧ d1 = d2.
Proof. apply device_key_inj2. Qed.

(** User ids are free-form, and with a colon two users' devices may share a key:
    then a number remembered for the one user's device makes the worker acknowledge,
    without an effect, the fresh event of the other user's device. *)
Theorem colliding_device_dropped tag event u1 d1 d2 s s2 w r w' fs' :
  w_lastSeq w !! device_key u1 d1 = Some s →
  device_key (ev_userId event) d2 = device_key u1 d1 →
  ev_deviceId event = Some d2 → ev_seq event = Some s2 → (s2 ≤ s)%Z →
  run exec (processEvent config num_to_string tag event) [] w = (r, w', fs') →
  r = inr tt ∧ w_db w' = w_db w ∧ w_settled w' = w_settled w ++ [SAck tag].
Proof.
  intros Hmap Hkey Hd Hs Hle Hrun.
  assert (Hdup : duplicate_event event w = true).
  { unfold duplicate_event, known_seq. rewrite Hd, Hs, Hkey, Hmap. by apply Z.leb_le. }
  pose proof (wp_run exec no_fault _ _ [] w eq_refl (Forall_nil_2 _)
    (processEvent_duplicate_wp config num_to_string tag event w Hdup)) as Hend.
  rewrite Hrun in Hend. destruct Hend as [Hr Hw]. simpl in Hr, Hw. by subst.
Qed.

(** ** A time of capture that the database does not read *)

Lemma insert_failure_captured cap e entered db :
  captured_error cap = Some e → (∀ a, a ∈ entered → is_Some (areas db !! a)) → entered ≠ [] →
  insert_failure cap entered db = Some e.
Proof.
  intros Hc Hk. destruct entered as [|a entered]; [done|]. intros _. simpl.
  destruct (Hk a) as [row ->]; [by left|]. by rewrite Hc.
Qed.

(** C33. The time of capture is stored "for information only". When PostgreSQL does not
    read it as an instant (the thirtieth of February, say) it blocks every report that
    enters an area: of a fresh event that enters an existing one, from a memory equal to
    the table, however often the event is delivered in a row, with whatever faults and
    restarts, the tables stay as they are, and a delivery that nothing else disturbs is
    returned to the queue. The same event without a time of capture is processed. *)
Theorem unreadable_capture_blocks event cur attempts w tag e :
  NoDup cur → coherent (ev_userId event) w →
  accuracy_exceeded (dto_of_event event) = false →
  find_covering (w_areas w) (ev_lng event) (ev_lat event) = inr cur →
  duplicate_event event w = false → duplicate_event event (restart w) = false →
  (∀ a, a ∈ cur → is_Some (areas (w_db w) !! a)) →
  entered_of (ev_userId event) cur (w_db w) ≠ [] →
  captured_error (ev_capturedAt event) = Some e →
  let w' := foldl (deliver config num_to_string event) w attempts in
  w_db w' = w_db w ∧
  w_settled (process_next config num_to_string w' (tag, event)) =
    w_settled w' ++ [SNack tag false true] ∧
  event_moved (uncaptured event) cur (w_db w)
    (w_db (process_next config num_to_string w (tag, uncaptured event))).
Proof.
  intros Hnd Hcoh Hacc Hfind Hdup Hrdup Hknown Hent Hc w'.
  assert (Hks : ∀ a, a ∈ entered_of (ev_userId event) cur (w_db w) → is_Some (areas (w_db w) !! a)).
  { intros a [Ha _]%elem_of_entered_of. by apply Hknown. }
  assert (Hfail : event_failure event cur (w_db w) = Some e) by (by apply insert_failure_captured).
  pose proof (stale_captured_error _ _ Hc) as Hns.
  destruct (deliveries_unwritable config num_to_string event cur attempts w Hnd)
    as [Hdb [Hdup' _ _ Hcoh' Hfind']]; [by split; eauto|]. fold w' in Hdb, Hdup', Hcoh', Hfind'.
  split_and!; [done| |].
  - apply process_next_wp. eapply wp_mono;
      [|by apply (processEvent_clean_wp config num_to_string tag event cur w')].
    intros r w2 [_ -> _ _ _ _ _]. rewrite Hdb, Hfail. unfold refused. by rewrite Hns.
  - assert (Hok : event_failure (uncaptured event) cur (w_db w) = None).
    { by apply insert_failure_None. }
    apply process_next_wp. eapply wp_mono;
      [|by apply (processEvent_clean_wp config num_to_string tag (uncaptured event) cur w)].
    intros r w2 [_ _ _ _ Htab _ _]. by rewrite Hok in Htab.
Qed.

(** ** A COMMIT whose answer is lost *)

(** What the memory of a user says decides a report that agrees with it. *)
Lemma report_fast_wp dto rec cur hint w :
  accuracy_exceeded dto = false →
  find_covering (w_areas w) (dto_lng dto) (dto_lat dto) = inr cur →
  w_memory w !! dto_userId dto = Some hint → differs cur hint = false →
  wp exec no_fault (report true config num_to_string dto rec)
    (λ r w', (∃ resp, r = inr resp) ∧ w' = w) w.
Proof.
  intros Hacc Hfind Hm Hd. unfold report. rewrite Hacc. apply wp_bind, wp_await.
  intros f _. cbn [exec fst snd]. rewrite Hfind. apply wp_bind. unfold read_hint.
  apply wp_bind, wp_await. intros g _. cbn [exec fst snd]. rewrite Hm. cbn [wp mret prog_mret].
  rewrite Hd. split; [by eexists|done].
Qed.

Lemma processEvent_fast_wp tag event cur hint w :
  accuracy_exceeded (dto_of_event event) = false →
  find_covering (w_areas w) (ev_lng event) (ev_lat event) = inr cur →
  w_memory w !! ev_userId event = Some hint → differs cur hint = false →
  duplicate_event event w = false →
  wp exec no_fault (processEvent config num_to_string tag event)
    (λ r w', r = inr tt ∧ w_db w' = w_db w ∧ w_settled w' = w_settled w ++ [SAck tag]) w.
Proof.
  intros Hacc Hfind Hm Hd Hdup. unfold processEvent.
  apply wp_try_catch, wp_bind, isDuplicate_wp; [by intros ? ?%no_fault_absurd|].
  rewrite Hdup. apply wp_bind.
  eapply wp_mono; [|by eapply (report_fast_wp _ _ cur hint)]. intros r w' [[resp ->] ->].
  apply wp_bind, rememberSeq_wp. apply wp_bind, wp_await. intros f _. cbn [exec fst snd].
  apply settle_wp; [done|]. by intros ? ?%no_fault_absurd.
Qed.

(** Settling a failure touches the channel and the counters only. *)
Lemma settle_failure_keeps tag e fs w :
  let w' := (run exec (settle_failure tag e) fs w).1.2 in
  w_db w' = w_db w ∧ w_memory w' = w_memory w ∧ w_areas w' = w_areas w ∧
  w_lastSeq w' = w_lastSeq w.
Proof.
  apply (wp_run exec any_fault _ (λ _ w', w_db w' = w_db w ∧ w_memory w' = w_memory w ∧
    w_areas w' = w_areas w ∧ w_lastSeq w' = w_lastSeq w)); [done|by apply Forall_forall|].
  by apply settle_failure_wp.
Qed.

(** A report that throws although the tables have changed is one whose COMMIT's answer
    was lost: the memory has stayed behind. *)
Lemma report_lost_memory event cur e fs w w' rest :
  NoDup cur → coherent (ev_userId event) w →
  find_covering (w_areas w) (ev_lng event) (ev_lat event) = inr cur →
  run exec (report true config num_to_string (dto_of_event event) (ev_receivedAt event)) fs w =
    (inl e, w', rest) →
  w_db w' ≠ w_db w →
  event_moved event cur (w_db w) (w_db w') ∧ w_memory w' = seeded (ev_userId event) w ∧
  w_areas w' = w_areas w ∧
  ¬ same_elements cur (presence_of (ev_userId event) (user_area_presence (w_db w))).
Proof.
  intros Hnd Hcoh Hfind Hrun Hne.
  destruct (accuracy_exceeded (dto_of_event event)) eqn:Hacc.
  { unfold report in Hrun. rewrite Hacc in Hrun. injection Hrun as _ <- _. done. }
  pose proof (wp_run exec any_fault _ _ fs w I (proj2 (Forall_forall _ _) (λ _ _, I))
    (report_worker_wp config num_to_string any_fault (dto_of_event event) (ev_receivedAt event)
       cur w Hacc Hfind)) as [Hout Hframe].
  rewrite Hrun in Hout, Hframe. cbn [fst snd] in Hout, Hframe.
  inversion Hout as [? ? _ Hdb _| | |? resp wrote ? f _ _ Htx Hm]; subst; [done|].
  apply tx_run_moved in Htx as Hmv; [|apply no_dedup_event|done]. destruct Hmv as [Hmv _].
  rewrite effective_capturedAt_event in Hmv.
  split_and!; [done|done|by destruct Hframe|]. intros Hs.
  rewrite (transition_stay (dto_of_event event)) in Htx; [|apply no_dedup_event|done|done].
  congruence.
Qed.

(** C39. What a lost answer to a COMMIT does, for any user, tables, positions and faults:
    when a report throws although it has moved the tables, the presence memory keeps the
    state before, so that it is stale to its own writer. After the delivery was settled,
    an undisturbed event whose areas are those before the move is then taken for "no
    change": it is acknowledged and writes nothing, where the reference, which asks the
    tables, moves the user, logs the entries of that event, and ends with other
    memberships. *)
Theorem lost_commit_answer_suppresses_visit event cur event2 cur2 e fs w w1 rest tag tag2 fs2 :
  ev_userId event2 = ev_userId event → NoDup cur → NoDup cur2 →
  coherent (ev_userId event) w →
  find_covering (w_areas w) (ev_lng event) (ev_lat event) = inr cur →
  find_covering (w_areas w) (ev_lng event2) (ev_lat event2) = inr cur2 →
  run exec (report true config num_to_string (dto_of_event event) (ev_receivedAt event)) fs w =
    (inl e, w1, rest) →
  w_db w1 ≠ w_db w →
  same_elements cur2 (presence_of (ev_userId event) (user_area_presence (w_db w))) →
  accuracy_exceeded (dto_of_event event2) = false →
  let w2 := (run exec (settle_failure tag e) fs2 w1).1.2 in
  duplicate_event event2 w2 = false →
  ¬ coherent (ev_userId event) w1 ∧
  (∀ r w3 fs3, run exec (processEvent config num_to_string tag2 event2) [] w2 = (r, w3, fs3) →
     r = inr tt ∧ w_db w3 = w_db w1 ∧ w_settled w3 = w_settled w2 ++ [SAck tag2]) ∧
  (event_failure event2 cur2 (w_db w1) = None →
   let w4 := (run exec (report_always num_to_string (dto_of_event event2)
                          (ev_receivedAt event2)) [] w2).1.2 in
   event_moved event2 cur2 (w_db w1) (w_db w4) ∧
   ¬ same_elements (presence_of (ev_userId event) (user_area_presence (w_db w4)))
       (presence_of (ev_userId event) (user_area_presence (w_db w1)))).
Proof.
  intros Hu Hnd Hnd2 Hcoh Hfind Hfind2 Hrun Hne Hs2 Hacc2 w2 Hdup2.
  destruct (report_lost_memory event cur e fs w w1 rest Hnd Hcoh Hfind Hrun Hne)
    as (Hmv & Hm & Hareas & Hns).
  destruct (settle_failure_keeps tag e fs2 w1) as (Hdb2 & Hm2 & Hareas2 & _). fold w2 in Hdb2, Hm2, Hareas2.
  pose proof (moved_elements _ _ _ _ _ _ Hmv) as Hnow.
  pose proof (seeded_lookup (ev_userId event) w) as Hseed.
  set (hint := default _ _) in Hseed.
  pose proof (proj2 (differs_hint _ _ _ _ Hnd2 Hcoh Hseed) Hs2) as Hd.
  split_and!.
  - intros Hc. destruct (Hc hint) as [Hh1 Hh2]; [by rewrite Hm|]. apply Hns.
    rewrite <- Hs2. etrans; [exact Hnow|]. rewrite <- Hh2. symmetry.
    apply (differs_false cur2 hint); [done|done|exact Hd].
  - intros r w3 fs3 Hr3.
    pose proof (wp_run exec no_fault _ _ [] w2 eq_refl (Forall_nil_2 _)
      (processEvent_fast_wp tag2 event2 cur2 hint w2 Hacc2 ltac:(by rewrite Hareas2, Hareas)
         ltac:(by rewrite Hu, Hm2, Hm) Hd Hdup2)) as Hend.
    rewrite Hr3 in Hend. cbn [fst snd] in Hend. by rewrite <- Hdb2.
  - intros Hf. unfold report_always. rewrite Hacc2, !run_bind, run_await.
    cbn [exec default head]. change (find_covering (w_areas w2) _ _) with
      (find_covering (w_areas w2) (ev_lng event2) (ev_lat event2)). rewrite Hareas2, Hareas, Hfind2.
    rewrite run_bind, run_await. cbn [exec default head tail]. rewrite exec_transaction_ok.
    rewrite effective_capturedAt_event.
    rewrite transition_commits; [|apply no_dedup_event|done|by rewrite Hdb2].
    rewrite Hdb2. cbn [run mret prog_mret fst snd w_db with_db].
    assert (Hmv2 : event_moved event2 cur2 (w_db w1) (transition_writes (ev_userId event2)
      (ev_receivedAt event2) (ev_capturedAt event2) cur2 (w_db w1))) by by apply transition_writes_moved.
    split; [exact Hmv2|]. intros Hsame.
    pose proof (moved_elements _ _ _ _ _ _ Hmv2) as Hthen. rewrite Hu in Hthen. apply Hns.
    rewrite <- Hs2, Hthen. etrans; [exact Hnow|]. symmetry.
    change (dto_userId (dto_of_event event2)) with (ev_userId event2) in Hsame. by rewrite Hu in Hsame.
Qed.
End divergences.

(** ** Witnesses, and the lost answer *)

#[local] Existing Instances fx_postgis fx_redis fx_lookup.

Definition fx_zero : LocationEventV1 := fx_event 7 5 (Some "phone") (Some 0%Z) 5000.

Lemma first_event_zero_dropped_witness :
  let ended := run exec (processEvent fx_config fx_num_to_string 7 fx_zero) [] fx_world in
  ended.1.1 = inr tt ∧ w_db ended.1.2 = w_db fx_world ∧
  w_settled ended.1.2 = [] ++ [SAck 7] ∧ device_seen (full_dto fx_zero) fx_db = false.
Proof.
  cbv zeta. apply (first_event_zero_dropped fx_config fx_num_to_string 7 fx_zero "phone"
    fx_world _ _ (run exec (processEvent fx_config fx_num_to_string 7 fx_zero) [] fx_world).2);
    [reflexivity..|]. by rewrite <- !surjective_pairing.
Defined.

Lemma device_key_injective_witness :
  device_key "a" "b:c" = "a:b:c" ∧ ("a" = "a" ∧ "b:c" = "b:c").
Proof.
  split; [reflexivity|]. by apply (device_key_injective "a" "a" "b:c" "b:c").
Defined.

Definition fx_february : LocationEventV1 :=
  {| ev_v := JNum (num_of_Z 1); ev_eventId := "e"; ev_userId := "u"; ev_deviceId := None;
     ev_seq := None; ev_lat := num_of_Z 5; ev_lng := num_of_Z 7; ev_accuracy := None;
     ev_capturedAt := Some "2026-02-30T12:00:00Z"; ev_receivedAt := 5000 |}.

Definition fx_attempts : list attempt :=
  [{| at_tag := 1; at_faults := []; at_restarted := false |};
   {| at_tag := 2; at_faults := [FOk; FOk; FOk; FFail (Error "reset")]; at_restarted := true |};
   {| at_tag := 3; at_faults := []; at_restarted := false |}].

Lemma unreadable_capture_blocks_witness :
  let w' := foldl (deliver fx_config fx_num_to_string fx_february) fx_world fx_attempts in
  w_db w' = w_db fx_world ∧
  w_settled (process_next fx_config fx_num_to_string w' (4, fx_february)) =
    w_settled w' ++ [SNack 4 false true] ∧
  event_moved (uncaptured fx_february) ["area-b"; "area-a"] (w_db fx_world)
    (w_db (process_next fx_config fx_num_to_string fx_world (4, uncaptured fx_february))).
Proof.
  apply (unreadable_capture_blocks fx_config fx_num_to_string fx_february ["area-b"; "area-a"]
    fx_attempts fx_world 4
    (QueryFailedError "22008" None "date/time field value out of range")).
  - apply (bool_decide_unpack _). by vm_compute.
  - by apply coherent_cold.
  - reflexivity.
  - by vm_compute.
  - reflexivity.
  - reflexivity.
  - intros a Ha. apply elem_of_cons in Ha as [->|Ha]; [by eexists|].
    apply list_elem_of_singleton in Ha as ->. by eexists.
  - apply (bool_decide_unpack _). by vm_compute.
  - reflexivity.
Defined.

(** The event of user "a:b" is processed; then that of user "a", who is inside two
    areas, is acknowledged and leaves no trace. *)
Definition fx_after_first : @World fx_redis fx_lookup :=
  (run exec (processEvent fx_config fx_num_to_string 1 fx_first) [] fx_world).1.2.

Lemma colliding_device_dropped_witness :
  let ended := run exec (processEvent fx_config fx_num_to_string 2 fx_second) [] fx_after_first in
  (ended.1.1 = inr tt ∧ w_db ended.1.2 = w_db fx_after_first ∧
   w_settled ended.1.2 = w_settled fx_after_first ++ [SAck 2]) ∧
  user_log "a" (w_db ended.1.2) = [] ∧ ev_userId fx_second = "a".
Proof.
  cbv zeta. split.
  - apply (colliding_device_dropped fx_config fx_num_to_string 2 fx_second "a:b" "c" "b:c" 7 7
      fx_after_first _ _
      (run exec (processEvent fx_config fx_num_to_string 2 fx_second) [] fx_after_first).2);
      [vm_compute; reflexivity|reflexivity|reflexivity|reflexivity|lia|].
    by rewrite <- !surjective_pairing.
  - vm_compute. done.
Defined.

(** The user "u" is inside two areas. It leaves them, but the answer to the COMMIT is
    lost; then it is inside again. *)
Definition fx_visiting : @World fx_redis fx_lookup :=
  (run exec (processEvent fx_config fx_num_to_string 1 (fx_event 7 5 None None 5000)) []
     fx_world).1.2.

Definition fx_departure : LocationEventV1 := fx_event 40 40 None None 6000.
Definition fx_return : LocationEventV1 := fx_event 7 5 None None 7000.
Definition fx_lost : list fault := [FOk; FOk; FLost (Error "reset")].

Definition fx_departed : @World fx_redis fx_lookup :=
  (run exec (report true fx_config fx_num_to_string (dto_of_event fx_departure) 6000) fx_lost
     fx_visiting).1.2.

Lemma fx_visiting_coherent : coherent "u" fx_visiting.
Proof.
  intros ids Hids. assert (ids = ["area-b"; "area-a"]) as ->.
  { revert Hids. vm_compute. intros [= <-]. reflexivity. }
  split; [by apply (bool_decide_unpack _); vm_compute|].
  intros a. rewrite elem_of_presence_of. unfold fx_visiting.
  assert (Hp : presence_of "u" (user_area_presence (w_db fx_visiting)) ≡ₚ ["area-b"; "area-a"])
    by (apply (bool_decide_unpack _); by vm_compute).
  rewrite <- elem_of_presence_of. fold fx_visiting. by rewrite Hp.
Qed.

Lemma lost_commit_answer_suppresses_visit_witness :
  let nacked := (run exec (settle_failure 2 (Error "reset")) [] fx_departed).1.2 in
  let final := (run exec (processEvent fx_config fx_num_to_string 3 fx_return) [] nacked).1.2 in
  (¬ coherent "u" fx_departed ∧ w_db final = w_db fx_departed ∧
   w_settled final = w_settled nacked ++ [SAck 3]) ∧
  w_settled final = [SAck 1; SNack 2 false true; SAck 3] ∧
  user_log "u" (w_db final) = [("area-a", 5000%Z, None); ("area-b", 5000%Z, None)] ∧
  user_log "u" (w_db (run exec (report_always fx_num_to_string (dto_of_event fx_return) 7000) []
    nacked).1.2) =
    [("area-a", 5000%Z, None); ("area-b", 5000%Z, None);
     ("area-a", 7000%Z, None); ("area-b", 7000%Z, None)].
Proof.
  cbv zeta. split; [|split_and!; vm_compute; reflexivity].
  destruct (lost_commit_answer_suppresses_visit fx_config fx_num_to_string fx_departure []
    fx_return ["area-b"; "area-a"] (Error "reset") fx_lost fx_visiting fx_departed
    (run exec (report true fx_config fx_num_to_string (dto_of_event fx_departure) 6000) fx_lost
       fx_visiting).2 2 3 []) as (Hstale & Hrun & _).
  - reflexivity.
  - apply NoDup_nil_2.
  - by apply (bool_decide_unpack _); vm_compute.
  - apply fx_visiting_coherent.
  - by vm_compute.
  - by vm_compute.
  - vm_compute. reflexivity.
  - intros Hdb. apply (f_equal (λ db, bool_decide (is_Some (user_area_presence db !! ("u", "area-a"))))) in Hdb.
    by vm_compute in Hdb.
  - intros a. apply (fx_visiting_coherent ["area-b"; "area-a"]). by vm_compute.
  - reflexivity.
  - reflexivity.
  - split; [exact Hstale|].
    set (nacked := (run exec (settle_failure 2 (Error "reset")) [] fx_departed).1.2) in *.
    set (ended := run exec (processEvent fx_config fx_num_to_string 3 fx_return) [] nacked) in *.
    assert (He : ended = (ended.1.1, ended.1.2, ended.2)) by by rewrite <- !surjective_pairing.
    destruct (Hrun _ _ _ He) as [_ Hend]. exact Hend.
Defined.
